(* ===== verification/_CoqProject ===== *)
-Q . S2P
Prelude.v
FaultTypes.v
Gpu.v
SimDevice.v
Sorting.v
FaultBuffer.v
Frames.v
Predictor.v
Fetch.v
Coalesce.v
Channels.v
Preprocess.v
PathFrames.v
Stale.v
Service.v
Dispatch.v
Cancel.v
Isolation.v
ServiceLoop.v
Schedule.v
WorkerPool.v
PoolLife.v
Kthread.v
Grouping.v
Parallel.v
Frontend.v
RangeTree.v
RangeAllocator.v
PageMask.v
Prefetch.v
Merge.v
CopySplit.v
Pipeline.v
Pushbuffer.v
Semaphore.v
GpuChannel.v
PushSystem.v
Tracker.v
