(* ===== verification/Prelude.v ===== *)
(** * FaultMesh: replayable GPU page-fault servicing

    The program is a fork of the UVM driver of a GPU.  When a GPU touches a page
    it cannot access it writes an entry into a ring buffer and stalls; the driver
    fetches the entries, coalesces them, finds the VA spaces they belong to,
    migrates or maps the pages and replays the accesses.  The fork adds
    predictors that filter stale faults and a pool of kernel threads that service
    VA blocks in parallel, and a library that CUDA kernels use to touch pages ahead
    of their accesses ([src/frontLib/]).  All other file names are under
    [src/backLib/kernel-open/nvidia-uvm/].

    ** Parts and files

    - [Prelude] (this file): machine arithmetic, record updates, the state monad
      [ST], frame reasoning ([respects]) and shared lemmas.
    - [FaultTypes], [Gpu]: the structures of [uvm_hal_types.h] and [uvm_gpu.h]; the
      state of a parent GPU, with the trace of the commands and notifications the
      driver sends; the HAL and the push layer as type classes.  [SimDevice] is a
      concrete device for runs.
    - [Sorting]: comparators, the kernel's [sort()] as an interface, deduplication
      and binary search.
    - [FaultBuffer]: [replayable_fault_buffer_pending_entries],
      [push_replay_on_gpu], [push_cancel_on_gpu], [write_get],
      [fault_buffer_flush_locked], initialisation and teardown
      ([uvm_gpu_replayable_faults.c]).
    - [Predictor], [Fetch], [Coalesce]: [prev_fetch_*], [fetch_fault_buffer_entries]
      and the merging of duplicate faults.  [Coalesce] has the abstract account of
      coalescing that the fetch loop follows.
    - [Channels]: the instance pointer and TSG tables of [uvm_gpu.c].
    - [Preprocess]: [preprocess_fault_batch] and the previous-batch predictor.
    - [Stale]: the lag map and the counters of stale faults.
    - [Service]: the pass over the faults of one VA block
      ([service_fault_batch_block_locked] up to the call that services the block).
    - [Dispatch]: retries, ATS, [service_fault_batch_dispatch] and the serial loop of
      [service_fault_batch].
    - [Cancel], [Isolation]: [cancel_faults_all], [service_fault_batch_for_cancel],
      the precise cancels by virtual address and by uTLB.
    - [ServiceLoop]: [uvm_gpu_service_replayable_faults], prefetch throttling and the
      choice of the path.  The parallel path is the interface [ParallelService].
    - [Schedule], [WorkerPool], [PoolLife], [Kthread], [Grouping], [Parallel]: the
      parallel path ([uvm_gpu_replayable_faults_parallel.c] and
      [service_fault_batch_parallel]).  [Schedule] cuts a batch into segments and
      lists of blocks; [WorkerPool] has the threads that claim ids, go through
      blocks and signal completion; [PoolLife] creates and destroys the pool;
      [Kthread] services one block; [Grouping] is phase 1 of the coordinator;
      [Parallel] composes them and discharges [ParallelService].
    - [Merge], [CopySplit], [Pipeline]: the pushes the blocks of a batch share.
      [Merge] is [uvm_kthread_dispatch_and_wait] with its push pairs in every merge
      mode, and refines the plan of [Parallel]; [CopySplit] is the counter with
      which the last block of a segment ends the copy push
      ([uvm_va_block_service_locked]); [Pipeline] is the thread that copies and maps
      asynchronously ([async_copy_map_worker_fn], [submit_async_pipeline_item]).
    - [RangeTree], [RangeAllocator]: [uvm_range_tree.c] and, on top of it,
      [uvm_range_allocator.c].
    - [PageMask], [Prefetch]: the regions and masks of [uvm_va_block.h] and the
      prefetching heuristic [uvm_perf_prefetch.c], whose policies and range groups
      are range trees.
    - [Pushbuffer], [Semaphore], [GpuChannel], [PushSystem], [Tracker]: the layer under
      the pushes.  [Pushbuffer] is the memory of pushes ([uvm_pushbuffer.c]),
      [Semaphore] the tracking semaphores, the pools of semaphores and encrypted
      payloads ([uvm_gpu_semaphore.c]), [GpuChannel] the ring of entries of a
      channel, reserving, beginning, ending, progress, errors and waits
      ([uvm_channel.c], [uvm_push.c]); [PushSystem] lets threads and the GPU
      interleave these operations; [Tracker] is [uvm_tracker.c], what acquires
      and waits for pushes.
    - [Frontend]: [frontend_prefault_common.cuh], the host side of an array and the
      threads of the kernels that access it.
    - [Frames], [PathFrames]: what each stage may add to the trace.

    State is passed explicitly: [uvm_gpu D] is the GPU with a device of type [D],
    [svc D] adds the context of the block being serviced.  Pointers into the fault
    cache are indices into it.  Counters keep their width ([u32], [u64]).

    ** What the theorems show

    - Fetching: coalescing loses no fault, counts are exact, masks and instance
      counts are consistent; the flush drains the ring when the layers below
      succeed; the predictors answer as
      the sets they were built from.
    - Preprocessing: the ordered view is a sorted permutation of the coalesced
      faults, with their VA spaces; registered channels translate.
    - Serial servicing: only permitted pages are queued, exactly the denied faults
      are marked fatal, every fault of a block is notified once, the loop ends and,
      outside the per-block replay policy, tells of every fault that is neither
      fatal nor without a GPU VA space, and VA space locks are balanced on every
      path.
    - Cancelling: a batch that is given up has its faults cancelled, in order, up to
      the first cancel that cannot be pushed; the precise cancels touch only the VA
      space or the uTLBs they are for.
    - Service loop: it ends, it always replays, and prefetch faults stay
      synchronised with the hardware.
    - Parallel path: a dispatch that starts while no thread has a claim of an
      earlier one completes, and when it succeeds has serviced every block once; a
      worker queues what the serial path queues when accesses are permitted; locks
      are released; the pool leaks nothing.  Other theorems are concrete
      departures from the serial path, among them denied accesses that are
      serviced, faults outside managed memory that are skipped, blocks that no
      worker is woken for, and claims that outlive their batch.
    - Shared pushes: in every mode and on every error path each push that is begun
      is ended once, unless a worker of a dispatch that timed out ends its copy push
      after the coordinator (a run shows the second end), and the dispatches made
      are those of the plan up to the first that fails.  The copy/map split adds no copy to an ended push as long as no
      block is retried, and a run shows that a retry does.  The asynchronous
      pipeline completes every accepted item once and empties its slots; no item of
      the fault path ever takes it.
    - Range trees and allocator: insertion, lookup, holes, splitting and merging
      agree with the sets of addresses; allocations are disjoint, an allocation
      fails only when nothing fits or there is no memory for its node, and after all releases the range is whole.
    - Prefetching: the tree stays within its block, the region of a fault is the
      widest dense subtree, leaving the loop early loses nothing, and a hint has only
      pages that may be prefetched.  A run shows where the clamp loses pages.
    - Pushes: a push that begins gets memory nobody uses, and no push is overwritten
      before the GPU has completed it, on any channel and in any interleaving; a
      thread only waits for memory while pushes are pending or after a fatal error
      has lost chunks, and a wait for a channel
      ends with an empty ring once the GPU is done; a 32-bit semaphore that is updated
      before its payload has made a turn is a 64-bit counter.  Trackers forget no push, with or without memory, a wait for one
      returns when its pushes are done, and a push that acquires one is ordered
      after them.  Runs show the chunk and the entries that are lost when an
      error and a free place come together.
    - Front-end library: no element is accessed before its page was touched, no page
      is touched twice, no thread is stuck, and the counters are exact at rest.

    ** Bounds

    Loops that are not structural take fuel.  The flush and fetch loops get the
    pending entries of the ring.  The serial loop gets one iteration per coalesced
    fault and one per restart the environment asks for ([op_restarts]);
    [Dispatch.batch_loop_complete] shows this is enough.  Block retries get
    [op_retries], the retries left in the environment, and the precise cancel by
    virtual address twice the number of faults.  The service loop gets the batch
    limit plus the restarts; [ServiceLoop.service_loop_terminates] shows it ends.
    Strided lists of blocks get the number of blocks.  The [while (1)] of the
    precise cancel by uTLB takes its bound from the caller, because the source
    has none.  Iterating over a range tree gets the length of its list, the loop
    over the big pages of a block the pages of a block
    ([RangeTree.for_each_in_spec] and [Prefetch.grow_big_pages_enough] show
    this is enough); the retries of a block in [CopySplit] are a list.  The loops
    that spin for the GPU and other threads ([Pushbuffer.claim_loop],
    [GpuChannel.channel_wait_loop], [Tracker.tracker_wait_loop] and the like) take
    the list of what happens in each spin, and still spin when it runs out;
    [PushSystem.wait_drains] and [Tracker.tracker_wait_correct] say when they
    return.  [Tracker.remove_loop] gets the number of entries.  Tracking values stay
    below 2^64: a run of [PushSystem] has fewer steps.

    ** Interfaces

    Code that the fault path only calls is a type class: the HAL
    ([FaultBufferHal]), pushes and events ([GpuOps]), VA spaces, blocks, ranges,
    policies and ATS ([VaSpaceOps], [WorkerOps], [block_queries]), the scheduler
    ([PoolOps]).  What is relied on of them is a class of laws next to it, and
    the simulated instances discharge the laws.  The items of a batch run in the
    order the workers finish them; where the threads are when a dispatch starts and
    how they are scheduled until the coordinator stops waiting are arguments
    ([op_threads], [op_schedule]) of a run of [WorkerPool.worker_step].
    The kernel's red-black tree under the range trees is [RbTree] with [RbTreeLaws].
    Whether a push can be begun, what a dispatch returns and whether the workers
    ended its copy push, in time or late, are arguments of [Merge].  The pushbuffer sees the channels
    through [PushbufferWorld], trackers through [TrackerWorld]; [GpuChannel] and
    [Tracker] give the channels of a GPU these interfaces and discharge their laws.

    ** Not modelled

    Timing, logging, histograms and profiling counters have no effect on the
    faults.  The commands in a push are not modelled: on the fault path a push is
    begun or not, and ended, and in the channels it is a number of words.
    Confidential Computing (but for the encrypted payload of a semaphore), proxy
    channels, channel set-up, channel destruction and the choice of a pool are not
    modelled.  Of the workers that still run after a dispatch timed out only their
    claims and the copy pushes they end are modelled; the persistent spin of the
    workers and the spinning of continuous workers between segments are not.  Locks other than those of the VA spaces, wait queues and the
    bottom-half scheduling are not modelled; the threads of [WorkerPool], [CopySplit],
    [Pipeline], [PushSystem] and [Frontend] interleave at their atomic operations and locked
    sections, with sequentially consistent memory.  VA block, range and space
    internals other than those above, page tables, ATS and HMM servicing,
    non-replayable faults, access counters, the thrashing heuristic, tools, tests,
    the benchmark applications and the helpers of the front-end library that only
    call the CUDA runtime are outside the modelled part. *)

From stdpp Require Export prelude list sorting gmap.
From Stdlib Require Export ZArith Lia.

(** ** Machine integers

    A w-bit unsigned C integer is a [Z] kept in [[0, 2^w)]; the wrap-around of
    each C operation is written where the operation is. *)

Definition wrap (w : Z) (x : Z) : Z := (x mod 2 ^ w)%Z.
Abbreviation u8 := (wrap 8).
Abbreviation u16 := (wrap 16).
Abbreviation u32 := (wrap 32).
Abbreviation u64 := (wrap 64).

Definition in_width (w x : Z) : Prop := (0 <= x < 2 ^ w)%Z.

Lemma wrap_in_width w x : (0 <= w)%Z -> in_width w (wrap w x).
Proof. intros Hw. unfold in_width, wrap. apply Z.mod_pos_bound. lia. Qed.

Lemma wrap_id w x : in_width w x -> wrap w x = x.
Proof. intros [? ?]. unfold wrap. apply Z.mod_small. lia. Qed.

Lemma u32_small n : (0 <= n < 2 ^ 32)%Z -> u32 n = n.
Proof. intros. apply wrap_id; unfold in_width; lia. Qed.

(** [UVM_CMP_DEFAULT]: the three-way comparison of two integers. *)
Definition UVM_CMP_DEFAULT (a b : Z) : Z :=
  if (a <? b)%Z then (-1)%Z else if (b <? a)%Z then 1%Z else 0%Z.

(** [UVM_ALIGN_DOWN] on a 64-bit value, for a power of two [a]. *)
Definition UVM_ALIGN_DOWN (x a : Z) : Z := Z.land x (u64 (Z.lnot (a - 1))).

Definition UVM_ALIGN_UP (x a : Z) : Z := Z.land (u64 (x + a - 1)) (u64 (Z.lnot (a - 1))).

Definition PAGE_SIZE : Z := 4096.
Definition UVM_PAGE_ALIGN_DOWN (x : Z) : Z := UVM_ALIGN_DOWN x PAGE_SIZE.

(** Linux [roundup_pow_of_two]. *)
Definition roundup_pow_of_two (n : Z) : Z :=
  if (n <=? 1)%Z then 1%Z else (2 ^ Z.log2_up n)%Z.

Lemma roundup_pow_of_two_spec n :
  (1 <= n)%Z ->
  exists k, (0 <= k)%Z /\ roundup_pow_of_two n = (2 ^ k)%Z /\ (n <= 2 ^ k)%Z.
Proof.
  intros Hn. unfold roundup_pow_of_two. case (Z.leb_spec n 1); intros.
  - exists 0%Z. rewrite Z.pow_0_r. lia.
  - exists (Z.log2_up n). split; [apply Z.log2_up_nonneg|]. split; [done|].
    apply Z.log2_up_spec. lia.
Qed.

(** ** Filters *)

Lemma filter_empty {A} (P : A -> Prop) `{!forall x, Decision (P x)} (l : list A) : (forall x, x ∈ l -> ~ P x) -> filter P l = [].
Proof.
  induction l as [|x l IH]; intros Hl; [done|]. rewrite filter_cons_False by (apply Hl; by left).
  apply IH. intros y Hy. apply Hl. by right.
Qed.

Lemma filter_full {A} (P : A -> Prop) `{!forall x, Decision (P x)} (l : list A) : (forall x, x ∈ l -> P x) -> filter P l = l.
Proof.
  induction l as [|x l IH]; intros Hl; [done|]. rewrite filter_cons_True by (apply Hl; by left).
  f_equal. apply IH. intros y Hy. apply Hl. by right.
Qed.

(** ** Record updates

    [r <| f := v |>] and [r <| f ::= g |>] for any record whose eta-expansion
    is declared with an [Eta] instance. *)

Class Eta (R : Type) := eta : R -> R.
Class Setter {R T : Type} (proj : R -> T) := upd : (T -> T) -> R -> R.

Ltac build_setter :=
  match goal with
  | |- @Setter ?R ?T ?proj =>
      let f := fresh "f" in
      let r := fresh "r" in
      refine (fun (f : T -> T) (r : R) => _);
      let e := eval hnf in (@eta R _ r) in
      let p := eval pattern (proj r) in e in
      lazymatch p with
      | ?g _ => let t := eval cbv beta in (g (f (proj r))) in exact t
      end
  end.

#[export] Hint Extern 1 (Setter _) => build_setter : typeclass_instances.

Declare Scope record_scope.
Delimit Scope record_scope with rec.
Notation "r <| p ::= f |>" := (upd (proj := p) f r)
  (at level 1, left associativity, p constr) : record_scope.
Notation "r <| p := v |>" := (upd (proj := p) (fun _ => v) r)
  (at level 1, left associativity, p constr) : record_scope.
Global Open Scope record_scope.

(** ** NV_STATUS: the status codes the modelled code returns or compares. *)

Inductive NV_STATUS : Type :=
| NV_OK
| NV_ERR_ECC_ERROR
| NV_ERR_INVALID_ACCESS_TYPE
| NV_ERR_INVALID_ADDRESS
| NV_ERR_INVALID_ARGUMENT
| NV_ERR_INVALID_CHANNEL
| NV_ERR_INVALID_DEVICE
| NV_ERR_INVALID_OPERATION
| NV_ERR_INVALID_STATE
| NV_ERR_MORE_PROCESSING_REQUIRED
| NV_ERR_NO_MEMORY
| NV_ERR_NOT_COMPATIBLE
| NV_ERR_PAGE_TABLE_NOT_AVAIL
| NV_ERR_RC_ERROR
| NV_ERR_TIMEOUT
| NV_ERR_BUFFER_TOO_SMALL
| NV_ERR_UVM_ADDRESS_IN_USE
| NV_ERR_GENERIC
| NV_WARN_MORE_PROCESSING_REQUIRED
| NV_WARN_MISMATCHED_TARGET.

#[export] Instance NV_STATUS_eq_dec : EqDecision NV_STATUS.
Proof. solve_decision. Defined.

Definition is_ok (st : NV_STATUS) : bool := bool_decide (st = NV_OK).

Lemma is_ok_true st : is_ok st = true <-> st = NV_OK.
Proof. unfold is_ok. apply bool_decide_eq_true. Qed.

(** ** State passing

    Stateful C code is a function from the state to a result and a new state;
    the binds are stdpp's. *)

Definition ST (S A : Type) : Type := S -> A * S.
#[export] Instance ST_ret S : MRet (ST S) := fun A a s => (a, s).
#[export] Instance ST_bind S : MBind (ST S) :=
  fun A B k m s => let '(a, s') := m s in k a s'.

Definition get {S} : ST S S := fun s => (s, s).
Definition gets {S A} (f : S -> A) : ST S A := fun s => (f s, s).
Definition modify {S} (f : S -> S) : ST S unit := fun s => (tt, f s).
Definition run {S A} (m : ST S A) (s : S) : A * S := m s.
Definition skip {S} : ST S unit := mret tt.

(** [when b m]: an [if] without [else]. *)
Definition when {S} (b : bool) (m : ST S unit) : ST S unit :=
  if b then m else skip.

(** [try m k]: run [m]; return its status if it is not [NV_OK], else go on. *)
Definition try {S} (m : ST S NV_STATUS) (k : ST S NV_STATUS) : ST S NV_STATUS :=
  st ← m; if is_ok st then k else mret st.

(** A [for] loop over known indices that never exits early. *)
Fixpoint for_each {S A} (l : list A) (body : A -> ST S unit) : ST S unit :=
  match l with
  | [] => skip
  | x :: l => body x ;; for_each l body
  end.

(** A [for] loop that returns the first status that is not [NV_OK]. *)
Fixpoint for_status {S A} (l : list A) (body : A -> ST S NV_STATUS)
  : ST S NV_STATUS :=
  match l with
  | [] => mret NV_OK
  | x :: l => try (body x) (for_status l body)
  end.

(** ** Tactics *)

(** Decide the tests of closed equalities in the goal. *)
Ltac simpl_bd :=
  repeat first
    [ rewrite bool_decide_eq_true_2 by done
    | rewrite bool_decide_eq_false_2 by done ].

(** Split on the conditions of the goal's conditionals. *)
Ltac case_ifs :=
  repeat match goal with
  | |- context [if ?b then _ else _] => destruct b eqn:?; simpl in *; try congruence
  end.

(** Expose the pairs that a computation in the state monad threads. *)
Ltac st_unfold := unfold try, gets, modify, when, skip, mbind, ST_bind, mret, ST_ret.

(** ** Power-of-two table sizes *)

(** A table of [2^k] slots indexed through the mask [2^k - 1]. *)
Definition table_size_ok (size mask : Z) : Prop :=
  exists k, (6 <= k <= 31)%Z /\ size = (2 ^ k)%Z /\ mask = (size - 1)%Z.

Lemma land_mask_mod x k : (0 <= k)%Z -> Z.land x (2 ^ k - 1) = (x mod 2 ^ k)%Z.
Proof.
  intros Hk. rewrite <- Z.land_ones by done. f_equal. rewrite Z.ones_equiv. lia.
Qed.

Lemma table_index_bound size mask x :
  table_size_ok size mask -> (0 <= Z.land x mask < size)%Z.
Proof.
  intros (k & Hk & -> & ->). rewrite land_mask_mod by lia.
  apply Z.mod_pos_bound. lia.
Qed.

Lemma align_down_spec a k : (0 <= a < 2 ^ 64)%Z -> (0 <= k <= 64)%Z -> UVM_ALIGN_DOWN a (2 ^ k) = (a - a mod 2 ^ k)%Z.
Proof.
  intros Ha Hk. unfold UVM_ALIGN_DOWN, wrap.
  replace (2 ^ k - 1)%Z with (Z.ones k) by (rewrite Z.ones_equiv; lia).
  rewrite <- Z.land_ones by lia.
  assert (Z.land a (Z.land (Z.lnot (Z.ones k)) (Z.ones 64)) = Z.ldiff a (Z.ones k)) as ->.
  { apply Z.bits_inj'. intros n Hn. rewrite !Z.land_spec, Z.lnot_spec, Z.ldiff_spec by lia.
    destruct (decide (n < 64)%Z).
    - by rewrite (Z.ones_spec_low 64), andb_true_r by lia.
    - rewrite (Z.bits_above_log2 a n); [done|lia|].
      destruct (decide (a = 0%Z)) as [->|]; [simpl; lia|]. apply Z.log2_lt_pow2; [lia|].
      assert (2 ^ 64 <= 2 ^ n)%Z by (apply Z.pow_le_mono_r; lia). lia. }
  rewrite Z.ldiff_ones_r by lia. rewrite Z.shiftl_mul_pow2, Z.shiftr_div_pow2 by lia.
  pose proof (Z.div_mod a (2 ^ k)). lia.
Qed.

(** A multiple below the next multiple. *)
Lemma divide_le p a b : (0 < p)%Z -> (p | a)%Z -> (p | b)%Z -> (a < b + p)%Z -> (a <= b)%Z.
Proof.
  intros Hp [q ->] [q' ->] Hlt. assert (q * p < (q' + 1) * p)%Z as Hq by lia. apply Z.mul_lt_mono_pos_r in Hq; [|done]. nia.
Qed.

(** The least multiple at or after the address, or 0 when the sum wraps. *)
Lemma align_up_spec a k : (0 <= a < 2 ^ 64)%Z -> (0 <= k < 64)%Z ->
  (a + 2 ^ k <= 2 ^ 64 /\ a <= UVM_ALIGN_UP a (2 ^ k) < a + 2 ^ k /\ (2 ^ k | UVM_ALIGN_UP a (2 ^ k)))%Z \/
  (2 ^ 64 < a + 2 ^ k /\ UVM_ALIGN_UP a (2 ^ k) = 0)%Z.
Proof.
  intros Ha Hk. assert (0 < 2 ^ k < 2 ^ 64)%Z as Hp by (split; [lia|apply Z.pow_lt_mono_r; lia]).
  change (UVM_ALIGN_UP a (2 ^ k)) with (UVM_ALIGN_DOWN (u64 (a + 2 ^ k - 1)) (2 ^ k)).
  rewrite align_down_spec; [|by apply wrap_in_width|lia].
  destruct (Z.le_gt_cases (a + 2 ^ k) (2 ^ 64)) as [Hle|Hgt]; [left|right]; (split; [lia|]).
  - rewrite wrap_id by (unfold in_width; lia). pose proof (Z.mod_pos_bound (a + 2 ^ k - 1) (2 ^ k)) as Hm. split; [lia|].
    exists ((a + 2 ^ k - 1) / 2 ^ k)%Z. pose proof (Z.div_mod (a + 2 ^ k - 1) (2 ^ k)). lia.
  - assert (u64 (a + 2 ^ k - 1) = a + 2 ^ k - 1 - 2 ^ 64)%Z as ->.
    { unfold wrap. symmetry. apply (Z.mod_unique _ _ 1); lia. }
    rewrite Z.mod_small by lia. lia.
Qed.

(** The size [max(64, (NvU32)roundup_pow_of_two(n))] is a power of two for
    every 32-bit [n], even when the rounding overflows. *)
Lemma table_size_of_roundup n :
  (0 <= n < 2 ^ 32)%Z ->
  let size := Z.max 64 (u32 (roundup_pow_of_two n)) in
  table_size_ok size (u32 (size - 1)).
Proof.
  intros Hn size.
  assert (exists k, (6 <= k <= 31)%Z /\ size = (2 ^ k)%Z) as (k & Hk & Hs).
  { subst size. unfold roundup_pow_of_two. case (Z.leb_spec n 1); intros H1.
    { exists 6%Z. split; [lia|]. by vm_compute. }
    pose proof (Z.log2_up_spec n ltac:(lia)) as Hl.
    pose proof (Z.log2_up_nonneg n).
    assert (Z.log2_up n <= 32)%Z by (rewrite <- (Z.log2_up_pow2 32) by lia;
                                      apply Z.log2_up_le_mono; lia).
    assert (Z.log2_up n = 32 \/ Z.log2_up n <= 31)%Z as [->|H31] by lia.
    { exists 6%Z. split; [lia|]. by vm_compute. }
    assert (2 ^ Z.log2_up n <= 2 ^ 31)%Z by (apply Z.pow_le_mono_r; lia).
    rewrite wrap_id by (unfold in_width; lia).
    case (Z.le_gt_cases (Z.log2_up n) 6); intros.
    - exists 6%Z. split; [lia|]. apply Z.max_l.
      change 64%Z with (2 ^ 6)%Z. by apply Z.pow_le_mono_r.
    - exists (Z.log2_up n). split; [lia|]. apply Z.max_r.
      change 64%Z with (2 ^ 6)%Z. apply Z.pow_le_mono_r; lia. }
  exists k. split; [done|]. split; [done|].
  assert (2 ^ k <= 2 ^ 31)%Z by (apply Z.pow_le_mono_r; lia).
  assert (0 < 2 ^ k)%Z by lia.
  apply wrap_id. unfold in_width. lia.
Qed.

(** ** Lists *)

Lemma fmap_snoc {A B} (f : A -> B) l x : f <$> (l ++ [x]) = (f <$> l) ++ [f x].
Proof. by rewrite fmap_app. Qed.

(** Sums over lists. *)
Definition sumz {A} (f : A -> Z) (l : list A) : Z := foldr (fun x a => (f x + a)%Z) 0%Z l.

Lemma sumz_app {A} (f : A -> Z) l1 l2 : sumz f (l1 ++ l2) = (sumz f l1 + sumz f l2)%Z.
Proof. induction l1 as [|x l1 IH]; simpl; [done|]. rewrite IH. lia. Qed.

Lemma sumz_singleton {A} (f : A -> Z) x : sumz f [x] = f x.
Proof. simpl. lia. Qed.

Lemma sumz_insert {A} (f : A -> Z) l k x y :
  l !! k = Some x -> sumz f (<[k := y]> l) = (sumz f l - f x + f y)%Z.
Proof.
  revert k. induction l as [|z l IH]; intros [|k] Hk; simpl in *; [done|done|..].
  - injection Hk as ->. lia.
  - rewrite (IH k Hk). lia.
Qed.

Lemma sumz_nonneg {A} (f : A -> Z) l : (forall x, x ∈ l -> 0 <= f x)%Z -> (0 <= sumz f l)%Z.
Proof.
  induction l as [|x l IH]; intros Hf; simpl; [done|].
  pose proof (Hf x ltac:(by left)). assert (0 <= sumz f l)%Z; [|lia].
  apply IH. intros y Hy. apply Hf. by right.
Qed.

Lemma sumz_le {A} (f g : A -> Z) l :
  (forall x, x ∈ l -> f x <= g x)%Z -> (sumz f l <= sumz g l)%Z.
Proof.
  induction l as [|x l IH]; intros Hf; simpl; [done|].
  pose proof (Hf x ltac:(by left)). assert (sumz f l <= sumz g l)%Z; [|lia].
  apply IH. intros y Hy. apply Hf. by right.
Qed.

Lemma sumz_elem_le {A} (f : A -> Z) l x :
  (forall x, x ∈ l -> 0 <= f x)%Z -> x ∈ l -> (f x <= sumz f l)%Z.
Proof.
  induction l as [|y l IH]; intros Hf Hx; [by apply elem_of_nil in Hx|]. simpl.
  assert (0 <= sumz f l)%Z by (apply sumz_nonneg; intros z Hz; apply Hf; by right).
  apply elem_of_cons in Hx as [->|Hx]; [lia|].
  pose proof (Hf y ltac:(by left)).
  assert (f x <= sumz f l)%Z; [|lia]. apply IH; [|done]. intros z Hz. apply Hf. by right.
Qed.

Lemma sumz_cons {A} (f : A -> Z) x l : sumz f (x :: l) = (f x + sumz f l)%Z.
Proof. done. Qed.

Lemma sumz_ext {A} (f g : A -> Z) l : (forall x, x ∈ l -> f x = g x) -> sumz f l = sumz g l.
Proof.
  induction l as [|x l IH]; intros Hf; [done|]. rewrite !sumz_cons, (Hf x) by (by left).
  f_equal. apply IH. intros y Hy. apply Hf. by right.
Qed.

Lemma sumz_fmap {A B} (f : B -> Z) (g : A -> B) l : sumz f (g <$> l) = sumz (fun x => f (g x)) l.
Proof. induction l as [|x l IH]; [done|]. by rewrite fmap_cons, !sumz_cons, IH. Qed.

Lemma sumz_count {A} (Q : A -> Prop) `{!forall x, Decision (Q x)} l :
  sumz (fun x => if decide (Q x) then 1 else 0)%Z l = Z.of_nat (length (filter Q l)).
Proof.
  induction l as [|x l IH]; [done|]. rewrite sumz_cons, IH, filter_cons.
  case_decide; simpl; lia.
Qed.

Lemma sumz_perm {A} (f : A -> Z) l l' : l ≡ₚ l' -> sumz f l = sumz f l'.
Proof. induction 1 as [|x l l' _ IH|x y l|l l' l'' _ IH1 _ IH2]; rewrite ?sumz_cons; lia. Qed.

(** A sum that changes at one element only. *)
Lemma sumz_point {A} (f g : A -> Z) l x :
  NoDup l -> x ∈ l -> (forall y, y ∈ l -> y <> x -> f y = g y) -> sumz g l = (sumz f l - f x + g x)%Z.
Proof.
  intros Hnd Hx Hfg. induction Hnd as [|y l Hy Hnd IH]; [by apply elem_of_nil in Hx|]. rewrite !sumz_cons.
  apply elem_of_cons in Hx as [->|Hx].
  - assert (sumz g l = sumz f l) as ->; [|lia]. apply sumz_ext. intros z Hz. symmetry.
    apply Hfg; [by right|]. by intros ->.
  - rewrite IH, (Hfg y); [lia|by left|by intros ->|done|]. intros z Hz. apply Hfg. by right.
Qed.

(** A sum that reaches the sum of its bounds reaches every bound. *)
Lemma sumz_tight {A} (f g : A -> Z) l x :
  (forall y, y ∈ l -> f y <= g y)%Z -> (sumz g l <= sumz f l)%Z -> x ∈ l -> f x = g x.
Proof.
  intros Hle Hs Hx. assert (g x - f x <= sumz (fun y => g y - f y) l)%Z as Hd.
  { apply (sumz_elem_le (fun y => g y - f y)%Z); [|done]. intros y Hy. pose proof (Hle y Hy). lia. }
  assert (sumz (fun y => g y - f y) l = sumz g l - sumz f l)%Z as Hm.
  { clear. induction l as [|y l IH]; [done|]. rewrite !sumz_cons, IH. lia. }
  pose proof (Hle x Hx). lia.
Qed.

(** Sums of lists that agree on what is summed. *)
Lemma sumz_Forall2 {A B} (f : A -> Z) (g : B -> Z) l l' :
  Forall2 (fun x y => f x = g y) l l' -> sumz f l = sumz g l'.
Proof. induction 1 as [|x y l l' Hxy _ IH]; [done|]. rewrite !sumz_cons, Hxy, IH. done. Qed.

(** ** Frames

    [respects R m]: running [m] changes the state only as [R] allows. *)

Definition respects {S A} (R : S -> S -> Prop) (m : ST S A) : Prop :=
  forall s a s', m s = (a, s') -> R s s'.

Create HintDb respects.

Section Respects.
  Context {S : Type} (R : S -> S -> Prop) `{!PreOrder R}.

Lemma respects_ret {A} (a : A) : respects R (mret a).
Proof. by intros s ? s' [= <- <-]. Qed.

Lemma respects_gets {A} (g : S -> A) : respects R (gets g).
Proof. by intros s ? s' [= <- <-]. Qed.

Lemma respects_modify (g : S -> S) : (forall s, R s (g s)) -> respects R (modify g).
Proof. intros Hg s ? s' [= <- <-]. apply Hg. Qed.

Lemma respects_bind {A C} (m : ST S A) (k : A -> ST S C) :
  respects R m -> (forall a, respects R (k a)) -> respects R (m ≫= k).
Proof.
  intros Hm Hk s c s'. unfold mbind, ST_bind. destruct (m s) as [a s1] eqn:E.
  intros H%Hk. etrans; [by eapply Hm|done].
Qed.

(** Two steps that only respect the relation together. *)
Lemma respects_seq {A B C} (m : ST S A) (n : ST S B) (k : B -> ST S C) :
  respects R (m ;; n) -> (forall b, respects R (k b)) -> respects R (m ;; b ← n; k b).
Proof.
  intros Hmn Hk s c s' E. specialize (Hmn s). revert E Hmn. unfold mbind, ST_bind.
  destruct (m s) as [a s1]. destruct (n s1) as [b s2]. intros E Hmn.
  etrans; [by apply (Hmn b)|by apply (Hk b _ c)].
Qed.

Lemma respects_if {A} (b : bool) (m m' : ST S A) :
  respects R m -> respects R m' -> respects R (if b then m else m').
Proof. by destruct b. Qed.

Lemma respects_when (b : bool) (m : ST S unit) : respects R m -> respects R (when b m).
Proof. intros Hm. destruct b; [done|apply respects_ret]. Qed.

Lemma respects_try (m k : ST S NV_STATUS) : respects R m -> respects R k -> respects R (try m k).
Proof. intros Hm Hk. apply respects_bind; [done|]. intros st. by apply respects_if; [|apply respects_ret]. Qed.

End Respects.

#[export] Hint Resolve respects_ret respects_gets respects_bind respects_if respects_when
  respects_try : respects.

(** Decompose a computation and look its steps up. *)
Ltac respects :=
  intros; try (solve [eauto with respects typeclass_instances]);
  lazymatch goal with
  | |- respects _ (_ ≫= _) => apply respects_bind; [apply _|respects|respects]
  | |- respects _ (if _ then _ else _) => apply respects_if; respects
  | |- respects _ (match ?x with _ => _ end) => destruct x; respects
  | |- respects _ (when _ _) => apply respects_when; [apply _|respects]
  | |- respects _ (try _ _) => apply respects_try; [apply _|respects|respects]
  | |- respects _ (modify _) => apply respects_modify; intros; repeat case_match; try done
  | _ => idtac
  end.
