(* ===== verification/FaultTypes.v ===== *)
(** * Fault data types

    The enumerations and structures of [uvm_hal_types.h] and [uvm_gpu.h] that
    the replayable-fault path reads and writes, and the access-type masks.
    Pointers into the fault cache are indices into it, so that two pointers to
    one entry stay aliased. *)

From S2P Require Import Prelude.

Local Open Scope Z_scope.

(** ** Enumerations *)

Inductive uvm_aperture_t : Type :=
| UVM_APERTURE_PEER_0 | UVM_APERTURE_PEER_1 | UVM_APERTURE_PEER_2
| UVM_APERTURE_PEER_3 | UVM_APERTURE_PEER_4 | UVM_APERTURE_PEER_5
| UVM_APERTURE_PEER_6 | UVM_APERTURE_PEER_7 | UVM_APERTURE_PEER_MAX
| UVM_APERTURE_SYS
| UVM_APERTURE_VID
| UVM_APERTURE_DEFAULT
| UVM_APERTURE_MAX.

#[export] Instance uvm_aperture_eq_dec : EqDecision uvm_aperture_t.
Proof. solve_decision. Defined.

Definition aperture_num (a : uvm_aperture_t) : Z :=
  match a with
  | UVM_APERTURE_PEER_0 => 0 | UVM_APERTURE_PEER_1 => 1 | UVM_APERTURE_PEER_2 => 2
  | UVM_APERTURE_PEER_3 => 3 | UVM_APERTURE_PEER_4 => 4 | UVM_APERTURE_PEER_5 => 5
  | UVM_APERTURE_PEER_6 => 6 | UVM_APERTURE_PEER_7 => 7 | UVM_APERTURE_PEER_MAX => 8
  | UVM_APERTURE_SYS => 9
  | UVM_APERTURE_VID => 10
  | UVM_APERTURE_DEFAULT => 11
  | UVM_APERTURE_MAX => 12
  end.

Lemma aperture_num_inj a b : aperture_num a = aperture_num b -> a = b.
Proof. by destruct a, b. Qed.

Inductive uvm_fault_access_type_t : Type :=
| UVM_FAULT_ACCESS_TYPE_PREFETCH
| UVM_FAULT_ACCESS_TYPE_READ
| UVM_FAULT_ACCESS_TYPE_WRITE
| UVM_FAULT_ACCESS_TYPE_ATOMIC_WEAK
| UVM_FAULT_ACCESS_TYPE_ATOMIC_STRONG
| UVM_FAULT_ACCESS_TYPE_COUNT.

#[export] Instance uvm_fault_access_type_eq_dec : EqDecision uvm_fault_access_type_t.
Proof. solve_decision. Defined.

Definition access_num (a : uvm_fault_access_type_t) : Z :=
  match a with
  | UVM_FAULT_ACCESS_TYPE_PREFETCH => 0
  | UVM_FAULT_ACCESS_TYPE_READ => 1
  | UVM_FAULT_ACCESS_TYPE_WRITE => 2
  | UVM_FAULT_ACCESS_TYPE_ATOMIC_WEAK => 3
  | UVM_FAULT_ACCESS_TYPE_ATOMIC_STRONG => 4
  | UVM_FAULT_ACCESS_TYPE_COUNT => 5
  end.

(** The C cast of an [int] bit position back to the enumeration. *)
Definition access_of_num (z : Z) : uvm_fault_access_type_t :=
  if z =? 0 then UVM_FAULT_ACCESS_TYPE_PREFETCH
  else if z =? 1 then UVM_FAULT_ACCESS_TYPE_READ
  else if z =? 2 then UVM_FAULT_ACCESS_TYPE_WRITE
  else if z =? 3 then UVM_FAULT_ACCESS_TYPE_ATOMIC_WEAK
  else if z =? 4 then UVM_FAULT_ACCESS_TYPE_ATOMIC_STRONG
  else UVM_FAULT_ACCESS_TYPE_COUNT.

Lemma access_of_num_num a : access_of_num (access_num a) = a.
Proof. by destruct a. Qed.

Lemma access_num_inj a b : access_num a = access_num b -> a = b.
Proof. by destruct a, b. Qed.

Lemma access_num_bounds a : 0 <= access_num a <= 5.
Proof. destruct a; simpl; lia. Qed.

Inductive uvm_fault_cancel_va_mode_t : Type :=
| UVM_FAULT_CANCEL_VA_MODE_ALL
| UVM_FAULT_CANCEL_VA_MODE_WRITE_AND_ATOMIC.

#[export] Instance uvm_fault_cancel_va_mode_eq_dec : EqDecision uvm_fault_cancel_va_mode_t.
Proof. solve_decision. Defined.

Inductive uvm_fault_type_t : Type :=
| UVM_FAULT_TYPE_INVALID_PDE
| UVM_FAULT_TYPE_INVALID_PTE
| UVM_FAULT_TYPE_ATOMIC
| UVM_FAULT_TYPE_WRITE
| UVM_FAULT_TYPE_READ
| UVM_FAULT_TYPE_PDE_SIZE
| UVM_FAULT_TYPE_VA_LIMIT_VIOLATION
| UVM_FAULT_TYPE_UNBOUND_INST_BLOCK
| UVM_FAULT_TYPE_PRIV_VIOLATION
| UVM_FAULT_TYPE_PITCH_MASK_VIOLATION
| UVM_FAULT_TYPE_WORK_CREATION
| UVM_FAULT_TYPE_UNSUPPORTED_APERTURE
| UVM_FAULT_TYPE_COMPRESSION_FAILURE
| UVM_FAULT_TYPE_UNSUPPORTED_KIND
| UVM_FAULT_TYPE_REGION_VIOLATION
| UVM_FAULT_TYPE_POISONED
| UVM_FAULT_TYPE_COUNT.

#[export] Instance uvm_fault_type_eq_dec : EqDecision uvm_fault_type_t.
Proof. solve_decision. Defined.

Definition fault_type_num (t : uvm_fault_type_t) : Z :=
  match t with
  | UVM_FAULT_TYPE_INVALID_PDE => 0
  | UVM_FAULT_TYPE_INVALID_PTE => 1
  | UVM_FAULT_TYPE_ATOMIC => 2
  | UVM_FAULT_TYPE_WRITE => 3
  | UVM_FAULT_TYPE_READ => 4
  | UVM_FAULT_TYPE_PDE_SIZE => 5
  | UVM_FAULT_TYPE_VA_LIMIT_VIOLATION => 6
  | UVM_FAULT_TYPE_UNBOUND_INST_BLOCK => 7
  | UVM_FAULT_TYPE_PRIV_VIOLATION => 8
  | UVM_FAULT_TYPE_PITCH_MASK_VIOLATION => 9
  | UVM_FAULT_TYPE_WORK_CREATION => 10
  | UVM_FAULT_TYPE_UNSUPPORTED_APERTURE => 11
  | UVM_FAULT_TYPE_COMPRESSION_FAILURE => 12
  | UVM_FAULT_TYPE_UNSUPPORTED_KIND => 13
  | UVM_FAULT_TYPE_REGION_VIOLATION => 14
  | UVM_FAULT_TYPE_POISONED => 15
  | UVM_FAULT_TYPE_COUNT => 16
  end.

(** [UVM_FAULT_TYPE_FATAL] shares its value with [UVM_FAULT_TYPE_PDE_SIZE]. *)
Definition UVM_FAULT_TYPE_FATAL : uvm_fault_type_t := UVM_FAULT_TYPE_PDE_SIZE.

Inductive uvm_fault_client_type_t : Type :=
| UVM_FAULT_CLIENT_TYPE_GPC
| UVM_FAULT_CLIENT_TYPE_HUB
| UVM_FAULT_CLIENT_TYPE_COUNT.

#[export] Instance uvm_fault_client_type_eq_dec : EqDecision uvm_fault_client_type_t.
Proof. solve_decision. Defined.

Inductive uvm_mmu_engine_type_t : Type :=
| UVM_MMU_ENGINE_TYPE_GRAPHICS
| UVM_MMU_ENGINE_TYPE_HOST
| UVM_MMU_ENGINE_TYPE_CE
| UVM_MMU_ENGINE_TYPE_COUNT.

#[export] Instance uvm_mmu_engine_type_eq_dec : EqDecision uvm_mmu_engine_type_t.
Proof. solve_decision. Defined.

Inductive UvmEventFatalReason : Type :=
| UvmEventFatalReasonInvalid
| UvmEventFatalReasonInvalidAddress
| UvmEventFatalReasonInvalidPermissions
| UvmEventFatalReasonInvalidFaultType
| UvmEventFatalReasonOutOfMemory
| UvmEventFatalReasonInternalError
| UvmEventFatalReasonInvalidOperation.

#[export] Instance UvmEventFatalReason_eq_dec : EqDecision UvmEventFatalReason.
Proof. solve_decision. Defined.

Inductive uvm_fault_replay_type_t : Type :=
| UVM_FAULT_REPLAY_TYPE_START
| UVM_FAULT_REPLAY_TYPE_START_ACK_ALL.

#[export] Instance uvm_fault_replay_type_eq_dec : EqDecision uvm_fault_replay_type_t.
Proof. solve_decision. Defined.

Inductive uvm_perf_fault_replay_policy_t : Type :=
| UVM_PERF_FAULT_REPLAY_POLICY_BLOCK
| UVM_PERF_FAULT_REPLAY_POLICY_BATCH
| UVM_PERF_FAULT_REPLAY_POLICY_BATCH_FLUSH
| UVM_PERF_FAULT_REPLAY_POLICY_ONCE.

#[export] Instance uvm_perf_fault_replay_policy_eq_dec :
  EqDecision uvm_perf_fault_replay_policy_t.
Proof. solve_decision. Defined.

Inductive uvm_gpu_buffer_flush_mode_t : Type :=
| UVM_GPU_BUFFER_FLUSH_MODE_CACHED_PUT
| UVM_GPU_BUFFER_FLUSH_MODE_UPDATE_PUT
| UVM_GPU_BUFFER_FLUSH_MODE_WAIT_UPDATE_PUT.

#[export] Instance uvm_gpu_buffer_flush_mode_eq_dec :
  EqDecision uvm_gpu_buffer_flush_mode_t.
Proof. solve_decision. Defined.

Inductive uvm_prot_t : Type :=
| UVM_PROT_NONE
| UVM_PROT_READ_ONLY
| UVM_PROT_READ_WRITE
| UVM_PROT_READ_WRITE_ATOMIC.

#[export] Instance uvm_prot_eq_dec : EqDecision uvm_prot_t.
Proof. solve_decision. Defined.

Definition prot_num (p : uvm_prot_t) : Z :=
  match p with
  | UVM_PROT_NONE => 0
  | UVM_PROT_READ_ONLY => 1
  | UVM_PROT_READ_WRITE => 2
  | UVM_PROT_READ_WRITE_ATOMIC => 3
  end.

(** Prefetch faults that are not ignored need at least read-only access. *)
Definition uvm_fault_access_type_to_prot (a : uvm_fault_access_type_t) : uvm_prot_t :=
  match a with
  | UVM_FAULT_ACCESS_TYPE_ATOMIC_STRONG => UVM_PROT_READ_WRITE_ATOMIC
  | UVM_FAULT_ACCESS_TYPE_ATOMIC_WEAK
  | UVM_FAULT_ACCESS_TYPE_WRITE => UVM_PROT_READ_WRITE
  | _ => UVM_PROT_READ_ONLY
  end.

Definition uvm_tools_status_to_fatal_fault_reason (st : NV_STATUS) : UvmEventFatalReason :=
  match st with
  | NV_OK => UvmEventFatalReasonInvalid
  | NV_ERR_NO_MEMORY => UvmEventFatalReasonOutOfMemory
  | NV_ERR_INVALID_ADDRESS => UvmEventFatalReasonInvalidAddress
  | NV_ERR_INVALID_ACCESS_TYPE => UvmEventFatalReasonInvalidPermissions
  | NV_ERR_INVALID_OPERATION => UvmEventFatalReasonInvalidOperation
  | _ => UvmEventFatalReasonInternalError
  end.

(** ** Access-type masks *)

Definition uvm_fault_access_type_mask_bit (a : uvm_fault_access_type_t) : Z :=
  u32 (Z.shiftl 1 (access_num a)).

Definition uvm_fault_access_type_mask_test (mask : Z) (a : uvm_fault_access_type_t) : bool :=
  negb (Z.land (uvm_fault_access_type_mask_bit a) mask =? 0).

Definition uvm_fault_access_type_mask_set (mask : Z) (a : uvm_fault_access_type_t) : Z :=
  Z.lor mask (uvm_fault_access_type_mask_bit a).

(** [__fls]: index of the most significant set bit of a nonzero word. *)
Definition fls (mask : Z) : Z := Z.log2 mask.

(** [__ffs]: index of the least significant set bit of a nonzero word. *)
Definition ffs (mask : Z) : Z := Z.log2 (Z.land mask (- mask)).

Definition uvm_fault_access_type_mask_highest (mask : Z) : uvm_fault_access_type_t :=
  access_of_num (fls mask).

Definition uvm_fault_access_type_mask_lowest (mask : Z) : uvm_fault_access_type_t :=
  access_of_num (ffs mask).

(** ** Fault buffer entries *)

Record uvm_gpu_phys_address_t : Type := mk_phys {
  phys_address : Z;
  phys_aperture : uvm_aperture_t;
}.

#[export] Instance uvm_gpu_phys_address_eq_dec : EqDecision uvm_gpu_phys_address_t.
Proof. solve_decision. Defined.

Definition uvm_gpu_phys_addr_cmp (a b : uvm_gpu_phys_address_t) : Z :=
  let result := UVM_CMP_DEFAULT (aperture_num (phys_aperture a)) (aperture_num (phys_aperture b)) in
  if negb (result =? 0) then result
  else UVM_CMP_DEFAULT (phys_address a) (phys_address b).

Record uvm_fault_source_t : Type := mk_source {
  client_type : uvm_fault_client_type_t;
  mmu_engine_type : uvm_mmu_engine_type_t;
  client_id : Z;
  mmu_engine_id : Z;
  utlb_id : Z;
  gpc_id : Z;
  ve_id : Z;
}.

#[export] Instance uvm_fault_source_eq_dec : EqDecision uvm_fault_source_t.
Proof. solve_decision. Defined.

(** [merged_instances_list] is a node of a circular doubly linked list whose
    nodes are the fault-cache entries themselves: [list_next] and [list_prev]
    are the cache indices its two pointers refer to.  A VA space is named by a
    number; the null pointer is [None]. *)
Record uvm_fault_buffer_entry_t : Type := mk_entry {
  fault_address : Z;
  timestamp : Z;
  instance_ptr : uvm_gpu_phys_address_t;
  fault_source : uvm_fault_source_t;
  fault_type : uvm_fault_type_t;
  fault_access_type : uvm_fault_access_type_t;
  va_space : option Z;
  is_fatal : bool;
  is_throttled : bool;
  is_invalid_prefetch : bool;
  is_replayable : bool;
  is_virtual : bool;
  in_protected_mode : bool;
  filtered : bool;
  pred_prev_candidate : bool;
  pred_fetch_skip : bool;
  fatal_reason : UvmEventFatalReason;
  cancel_va_mode : uvm_fault_cancel_va_mode_t;
  list_next : nat;
  list_prev : nat;
  access_type_mask : Z;
  num_instances : Z;
}.

#[export] Instance uvm_fault_buffer_entry_eq_dec : EqDecision uvm_fault_buffer_entry_t.
Proof. solve_decision. Defined.

#[export] Instance uvm_fault_buffer_entry_eta : Eta uvm_fault_buffer_entry_t :=
  fun e => mk_entry (fault_address e) (timestamp e) (instance_ptr e) (fault_source e)
    (fault_type e) (fault_access_type e) (va_space e) (is_fatal e) (is_throttled e)
    (is_invalid_prefetch e) (is_replayable e) (is_virtual e) (in_protected_mode e)
    (filtered e) (pred_prev_candidate e) (pred_fetch_skip e) (fatal_reason e)
    (cancel_va_mode e) (list_next e) (list_prev e) (access_type_mask e) (num_instances e).

(** The entry a zeroed allocation holds. *)
Definition zero_entry : uvm_fault_buffer_entry_t :=
  mk_entry 0 0 (mk_phys 0 UVM_APERTURE_PEER_0)
    (mk_source UVM_FAULT_CLIENT_TYPE_GPC UVM_MMU_ENGINE_TYPE_GRAPHICS 0 0 0 0 0)
    UVM_FAULT_TYPE_INVALID_PDE UVM_FAULT_ACCESS_TYPE_PREFETCH None
    false false false false false false false false false
    UvmEventFatalReasonInvalid UVM_FAULT_CANCEL_VA_MODE_ALL 0 0 0 0.

#[export] Instance uvm_fault_buffer_entry_inhabited : Inhabited uvm_fault_buffer_entry_t :=
  populate zero_entry.

(** ** Per-uTLB state *)

Record uvm_fault_utlb_info_t : Type := mk_utlb {
  num_pending_faults : Z;
  has_fatal_faults : bool;
  in_lockdown : bool;
  cancelled : bool;
  prev_fatal_fault : uvm_fault_buffer_entry_t;
  utlb_last_fault : option nat;
}.

#[export] Instance uvm_fault_utlb_info_eta : Eta uvm_fault_utlb_info_t :=
  fun u => mk_utlb (num_pending_faults u) (has_fatal_faults u) (in_lockdown u)
    (cancelled u) (prev_fatal_fault u) (utlb_last_fault u).

Definition zero_utlb : uvm_fault_utlb_info_t :=
  mk_utlb 0 false false false zero_entry None.

#[export] Instance uvm_fault_utlb_info_inhabited : Inhabited uvm_fault_utlb_info_t :=
  populate zero_utlb.

(** ** Batch context *)

(** A tracker, as far as the fault path depends on it: the pushes it holds, by
    sequence number. *)
Definition uvm_tracker_t : Type := list Z.

(** The histogram of batch distances of stale faults; the C structure has it
    twice, once for all the faults and once for the tracked range. *)
Record lag_histogram : Type := mk_lag {
  lag_unknown : Z;
  lag_1 : Z;
  lag_2_3 : Z;
  lag_4_7 : Z;
  lag_8_plus : Z;
}.

#[export] Instance lag_histogram_eta : Eta lag_histogram :=
  fun h => mk_lag (lag_unknown h) (lag_1 h) (lag_2_3 h) (lag_4_7 h) (lag_8_plus h).

Definition zero_lag : lag_histogram := mk_lag 0 0 0 0 0.

Record stale_counters : Type := mk_stale {
  num_stale_faults : Z;
  num_stale_same_batch_faults : Z;
  num_stale_prev_batch_faults : Z;
  stale_prev_lag : lag_histogram;
  num_tracked_faults : Z;
  num_tracked_stale_faults : Z;
  tracked_stale_prev_lag : lag_histogram;
}.

#[export] Instance stale_counters_eta : Eta stale_counters :=
  fun c => mk_stale (num_stale_faults c) (num_stale_same_batch_faults c)
    (num_stale_prev_batch_faults c) (stale_prev_lag c) (num_tracked_faults c)
    (num_tracked_stale_faults c) (tracked_stale_prev_lag c).

Definition zero_stale : stale_counters := mk_stale 0 0 0 zero_lag 0 0 zero_lag.

Record pred_counters : Type := mk_pred {
  num_pred_prev_candidates : Z;
  num_pred_prev_true_stale : Z;
  num_pred_prev_missed_stale : Z;
  num_pred_fast_skip_stale : Z;
  pred_adaptive_active_this_batch : bool;
  num_pred_fetch_lookup_calls : Z;
  num_pred_fetch_lookup_hits : Z;
  num_pred_fetch_lookup_cmps : Z;
  num_pred_fetch_build_keys : Z;
  num_pred_prev_lookup_calls : Z;
  num_pred_prev_lookup_hits : Z;
  num_pred_prev_lookup_cmps : Z;
  num_pred_prev_build_keys : Z;
}.

#[export] Instance pred_counters_eta : Eta pred_counters :=
  fun c => mk_pred (num_pred_prev_candidates c) (num_pred_prev_true_stale c)
    (num_pred_prev_missed_stale c) (num_pred_fast_skip_stale c)
    (pred_adaptive_active_this_batch c) (num_pred_fetch_lookup_calls c)
    (num_pred_fetch_lookup_hits c) (num_pred_fetch_lookup_cmps c)
    (num_pred_fetch_build_keys c) (num_pred_prev_lookup_calls c)
    (num_pred_prev_lookup_hits c) (num_pred_prev_lookup_cmps c)
    (num_pred_prev_build_keys c).

Definition zero_pred : pred_counters := mk_pred 0 0 0 0 false 0 0 0 0 0 0 0 0.

Record uvm_fault_service_batch_context_t : Type := mk_batch {
  fault_cache : list uvm_fault_buffer_entry_t;
  ordered_fault_cache : list nat;
  utlbs : list uvm_fault_utlb_info_t;
  max_utlb_id : Z;
  num_cached_faults : Z;
  num_coalesced_faults : Z;
  fatal_va_space : option Z;
  has_throttled_faults : bool;
  num_invalid_prefetch_faults : Z;
  num_duplicate_faults : Z;
  stale : stale_counters;
  pred : pred_counters;
  num_replays : Z;
  batch_id : Z;
  batch_tracker : uvm_tracker_t;
  is_single_instance_ptr : bool;
  last_fault : option nat;
}.

#[export] Instance uvm_fault_service_batch_context_eta :
  Eta uvm_fault_service_batch_context_t :=
  fun b => mk_batch (fault_cache b) (ordered_fault_cache b) (utlbs b) (max_utlb_id b)
    (num_cached_faults b) (num_coalesced_faults b) (fatal_va_space b)
    (has_throttled_faults b) (num_invalid_prefetch_faults b) (num_duplicate_faults b)
    (stale b) (pred b) (num_replays b) (batch_id b) (batch_tracker b)
    (is_single_instance_ptr b) (last_fault b).

(** ** Previous-batch predictor state *)

Record uvm_fault_prev_batch_key_t : Type := mk_batch_key {
  bkey_va_space : option Z;
  bkey_address : Z;
}.

#[export] Instance uvm_fault_prev_batch_key_eq_dec : EqDecision uvm_fault_prev_batch_key_t.
Proof. solve_decision. Defined.

Record uvm_fault_prev_fetch_key_t : Type := mk_fetch_key {
  fkey_instance_ptr : uvm_gpu_phys_address_t;
  fkey_ve_id : Z;
  fkey_address : Z;
}.

#[export] Instance uvm_fault_prev_fetch_key_eq_dec : EqDecision uvm_fault_prev_fetch_key_t.
Proof. solve_decision. Defined.

Definition zero_fetch_key : uvm_fault_prev_fetch_key_t :=
  mk_fetch_key (mk_phys 0 UVM_APERTURE_PEER_0) 0 0.

#[export] Instance uvm_fault_prev_fetch_key_inhabited :
  Inhabited uvm_fault_prev_fetch_key_t := populate zero_fetch_key.

Record uvm_fault_prev_fetch_slot_t : Type := mk_slot {
  slot_addr : Z;
  slot_epoch : Z;
}.

#[export] Instance uvm_fault_prev_fetch_slot_inhabited :
  Inhabited uvm_fault_prev_fetch_slot_t := populate (mk_slot 0 0).

(** The [prev_fetch_*] fields of the replayable fault buffer information. *)
Record prev_fetch_state : Type := mk_prev_fetch {
  prev_fetch_keys : list uvm_fault_prev_fetch_key_t;
  prev_fetch_key_count : Z;
  last_batch_fetch_skip_pct : Z;
  prev_fetch_exact_slots : list uvm_fault_prev_fetch_slot_t;
  prev_fetch_exact_size : Z;
  prev_fetch_exact_mask : Z;
  prev_fetch_exact_generation : Z;
  prev_fetch_last_key : uvm_fault_prev_fetch_key_t;
  prev_fetch_last_hit : bool;
  prev_fetch_last_valid : bool;
  prev_fetch_adaptive_active : bool;
  prev_fetch_adaptive_cooldown_remaining : Z;
  prev_fetch_hash_epochs : list Z;
  prev_fetch_tag_table : list Z;
  prev_fetch_tag_size : Z;
  prev_fetch_tag_mask : Z;
  prev_fetch_tag_generation : Z;
}.

#[export] Instance prev_fetch_state_eta : Eta prev_fetch_state :=
  fun p => mk_prev_fetch (prev_fetch_keys p) (prev_fetch_key_count p)
    (last_batch_fetch_skip_pct p) (prev_fetch_exact_slots p) (prev_fetch_exact_size p)
    (prev_fetch_exact_mask p) (prev_fetch_exact_generation p) (prev_fetch_last_key p)
    (prev_fetch_last_hit p) (prev_fetch_last_valid p) (prev_fetch_adaptive_active p)
    (prev_fetch_adaptive_cooldown_remaining p) (prev_fetch_hash_epochs p)
    (prev_fetch_tag_table p) (prev_fetch_tag_size p) (prev_fetch_tag_mask p)
    (prev_fetch_tag_generation p).
