(* ===== verification/Gpu.v ===== *)
(** * The GPU as the fault path sees it

    Module parameters, the replayable-fault state of a parent GPU, the
    interface of the fault-buffer HAL and of the push/tracker layer, and the
    trace of the commands the driver sends. *)

From S2P Require Import Prelude FaultTypes.

Local Open Scope Z_scope.

(** ** Module parameters (uvm_gpu_replayable_faults.c) *)

Record module_params : Type := mk_params {
  uvm_perf_reenable_prefetch_faults_lapse_msec : Z;
  uvm_perf_fault_batch_count : Z;
  uvm_perf_fault_fetch_adaptive_enable : bool;
  uvm_perf_fault_fetch_low_count : Z;
  uvm_perf_fault_fetch_mid_count : Z;
  uvm_perf_fault_fetch_high_count : Z;
  uvm_perf_fault_fetch_mid_pending : Z;
  uvm_perf_fault_fetch_high_pending : Z;
  uvm_perf_fault_fetch_predictor_boost_enable : bool;
  uvm_perf_fault_prev_fetch_predictor_enable : bool;
  uvm_perf_fault_prev_fetch_mode : Z;
  uvm_perf_fault_fetch_predictor_boost_threshold_pct : Z;
  uvm_perf_fault_fetch_predictor_boost_count : Z;
  uvm_perf_fault_pred_skip_enable : bool;
  uvm_perf_fault_pred_exact_load_factor : Z;
  uvm_perf_fault_pred_adaptive_enable : bool;
  uvm_perf_fault_pred_adaptive_cooldown : Z;
  uvm_perf_fault_prev_batch_predictor_enable : bool;
  uvm_perf_fault_replay_policy : Z;
  uvm_perf_fault_replay_update_put_ratio : Z;
  uvm_perf_fault_replay_force_update_put : bool;
  uvm_perf_fault_replay_stale_update_put_enable : bool;
  uvm_perf_fault_max_batches_per_service : Z;
  uvm_perf_fault_max_throttle_per_service : Z;
  uvm_perf_fault_coalesce : bool;
  uvm_merge_dispatch : bool;
  uvm_fault_track_range_enable : bool;
  uvm_perf_fault_stale_detail_enable : bool;
  uvm_fault_track_range_start : Z;
  uvm_fault_track_range_end : Z;
}.

#[export] Instance module_params_eta : Eta module_params :=
  fun p => mk_params (uvm_perf_reenable_prefetch_faults_lapse_msec p)
    (uvm_perf_fault_batch_count p) (uvm_perf_fault_fetch_adaptive_enable p)
    (uvm_perf_fault_fetch_low_count p) (uvm_perf_fault_fetch_mid_count p)
    (uvm_perf_fault_fetch_high_count p) (uvm_perf_fault_fetch_mid_pending p)
    (uvm_perf_fault_fetch_high_pending p) (uvm_perf_fault_fetch_predictor_boost_enable p)
    (uvm_perf_fault_prev_fetch_predictor_enable p) (uvm_perf_fault_prev_fetch_mode p)
    (uvm_perf_fault_fetch_predictor_boost_threshold_pct p)
    (uvm_perf_fault_fetch_predictor_boost_count p) (uvm_perf_fault_pred_skip_enable p)
    (uvm_perf_fault_pred_exact_load_factor p) (uvm_perf_fault_pred_adaptive_enable p)
    (uvm_perf_fault_pred_adaptive_cooldown p) (uvm_perf_fault_prev_batch_predictor_enable p)
    (uvm_perf_fault_replay_policy p) (uvm_perf_fault_replay_update_put_ratio p)
    (uvm_perf_fault_replay_force_update_put p)
    (uvm_perf_fault_replay_stale_update_put_enable p)
    (uvm_perf_fault_max_batches_per_service p) (uvm_perf_fault_max_throttle_per_service p)
    (uvm_perf_fault_coalesce p) (uvm_merge_dispatch p) (uvm_fault_track_range_enable p)
    (uvm_perf_fault_stale_detail_enable p) (uvm_fault_track_range_start p)
    (uvm_fault_track_range_end p).

(** The initial values of the parameters. *)
Definition default_params : module_params :=
  mk_params 1000 256 false 256 512 1024 512 1024 false true 0 40 1024 false 16 false 2
    true 2 50 false true 20 5 true false false true 0 0.

(** Features of the GPU and of the global state that stay fixed while faults
    are serviced. *)
Record gpu_caps : Type := mk_caps {
  rm_buffer_size : Z;
  prefetch_fault_supported : bool;
  fault_cancel_va_supported : bool;
  non_replayable_faults_supported : bool;
  conf_computing_enabled : bool;
  procfs_debug : bool;
  smc_enabled : bool;
}.

(** ** Replayable fault state of the parent GPU *)

Record uvm_replayable_fault_buffer_info_t : Type := mk_replayable {
  max_faults : Z;
  cached_get : Z;
  cached_put : Z;
  replay_policy : uvm_perf_fault_replay_policy_t;
  replay_tracker : uvm_tracker_t;
  replay_update_put_ratio : Z;
  stats_num_duplicate_faults : Z;
  stats_num_replays : Z;
  stats_num_replays_ack_all : Z;
  utlb_count : Z;
  prev_batch_keys : list uvm_fault_prev_batch_key_t;
  prev_batch_key_count : Z;
  last_batch_pred_candidate_pct : Z;
  prev_fetch : prev_fetch_state;
}.

#[export] Instance uvm_replayable_fault_buffer_info_eta :
  Eta uvm_replayable_fault_buffer_info_t :=
  fun r => mk_replayable (max_faults r) (cached_get r) (cached_put r) (replay_policy r)
    (replay_tracker r) (replay_update_put_ratio r) (stats_num_duplicate_faults r)
    (stats_num_replays r) (stats_num_replays_ack_all r) (utlb_count r)
    (prev_batch_keys r) (prev_batch_key_count r) (last_batch_pred_candidate_pct r)
    (prev_fetch r).

(** What the driver tells the device, newest first in a trace. *)
Inductive event : Type :=
| EvReplay (type : uvm_fault_replay_type_t)
| EvCancelGlobal (inst : uvm_gpu_phys_address_t)
| EvCancelTargeted (inst : uvm_gpu_phys_address_t) (gpc client : Z)
| EvCancelVa (pdb : uvm_gpu_phys_address_t) (entry : uvm_fault_buffer_entry_t)
    (mode : uvm_fault_cancel_va_mode_t)
| EvFatalFault (entry : uvm_fault_buffer_entry_t) (reason : UvmEventFatalReason)
| EvFaultNotify (va_space : Z) (address : Z) (access : uvm_fault_access_type_t)
    (duplicate : bool)
| EvPrefetchFaults (enabled : bool)
| EvDecryptIv (n : Z)
| EvPageFaultIntr (owned : bool)
| EvDestroyFaultInfo
| EvVaSpaceLock (va_space : Z)
| EvVaSpaceUnlock (va_space : Z).

(** [D] is the state of the device behind the HAL.  The batch service context
    is the member [batch_service_context] of the replayable information. *)
Record uvm_gpu (D : Type) : Type := mk_gpu {
  max_batch_size : Z;
  prefetch_faults_enabled : bool;
  disable_prefetch_faults_timestamp : Z;
  fault_buffer_handle : bool;
  replayable : uvm_replayable_fault_buffer_info_t;
  batch : uvm_fault_service_batch_context_t;
  hw : D;
  trace : list event;
  push_seq : Z;
}.
Arguments mk_gpu {D}.
Arguments max_batch_size {D}.
Arguments prefetch_faults_enabled {D}.
Arguments disable_prefetch_faults_timestamp {D}.
Arguments fault_buffer_handle {D}.
Arguments replayable {D}.
Arguments batch {D}.
Arguments hw {D}.
Arguments trace {D}.
Arguments push_seq {D}.

#[export] Instance uvm_gpu_eta D : Eta (uvm_gpu D) :=
  fun g => mk_gpu (max_batch_size g) (prefetch_faults_enabled g)
    (disable_prefetch_faults_timestamp g) (fault_buffer_handle g) (replayable g)
    (batch g) (hw g) (trace g) (push_seq g).

(** ** Interfaces

    The fault-buffer HAL is a table of functions; each may advance the device,
    which runs on its own. *)
Class FaultBufferHal (D : Type) : Type := {
  hal_entry_size : Z;
  hal_read_get : D -> Z * D;
  hal_read_put : D -> Z * D;
  hal_write_get : Z -> D -> D;
  hal_entry_is_valid : Z -> D -> bool * D;
  hal_entry_clear_valid : Z -> D -> D;
  hal_parse_replayable_entry :
    Z -> uvm_fault_buffer_entry_t -> D -> NV_STATUS * uvm_fault_buffer_entry_t * D;
}.

(** The GPU finishes writing every entry it has handed out (the entries
    between GET and PUT) in finitely many polls: [hal_polls] bounds how many
    more times the valid bit of such an entry can be read as clear. *)
Class FaultBufferHalLive (D : Type) {H : FaultBufferHal D} : Type := {
  hal_pending : Z -> D -> Prop;
  hal_polls : Z -> D -> nat;
  hal_polls_spec : forall i d d',
    hal_pending i d -> hal_entry_is_valid i d = (false, d') ->
    hal_pending i d' /\ (hal_polls i d' < hal_polls i d)%nat;
  (* the other entries stay pending while an entry is polled and cleared *)
  hal_pending_poll : forall i j d b d',
    0 <= i -> 0 <= j -> hal_pending i d -> hal_entry_is_valid j d = (b, d') -> hal_pending i d';
  hal_pending_clear : forall i j d,
    0 <= i -> 0 <= j -> i <> j -> hal_pending i d -> hal_pending i (hal_entry_clear_valid j d);
}.

(** The results of the push, tracker and RM layers, as functions of the state
    they are called in. *)
Class GpuOps (D : Type) : Type := {
  op_push_begin_acquire : uvm_gpu D -> NV_STATUS;
  op_push_end_and_wait : uvm_gpu D -> NV_STATUS;
  op_tracker_add_push_safe : uvm_gpu D -> NV_STATUS;
  op_tracker_wait : uvm_gpu D -> NV_STATUS;
  op_flush_replayable_fault_buffer : bool -> uvm_gpu D -> NV_STATUS;
  op_pdb : uvm_gpu D -> option Z -> uvm_gpu_phys_address_t;
}.

(** The tracker, push and RM layers succeed. *)
Class GpuOpsOk (D : Type) {O : GpuOps D} : Prop := {
  ok_push_begin : forall g, op_push_begin_acquire g = NV_OK;
  ok_push_wait : forall g, op_push_end_and_wait g = NV_OK;
  ok_tracker_add : forall g, op_tracker_add_push_safe g = NV_OK;
  ok_tracker_wait : forall g, op_tracker_wait g = NV_OK;
  ok_rm_flush : forall m g, op_flush_replayable_fault_buffer m g = NV_OK;
}.
