(* ===== verification/SimDevice.v ===== *)
(** * A simulated device

    A concrete fault buffer: slots that become valid after a number of polls
    and a PUT register that advances along a script.  It instantiates the HAL
    interface wherever a property is evaluated on a concrete run. *)

From S2P Require Import Prelude FaultTypes Gpu.

Local Open Scope Z_scope.

Record sim_slot : Type := mk_sim_slot {
  sl_delay : nat;
  sl_valid : bool;
  sl_packet : uvm_fault_buffer_entry_t;
}.

Record sim_device : Type := mk_sim {
  sim_get : Z;
  sim_put : Z;
  sim_next_puts : list Z;
  sim_slots : list sim_slot;
  (* how often servicing a block asks to be called again, how often it asks for
     the locks to be dropped, and the bases ATS has serviced *)
  sim_retries : nat;
  sim_restarts : nat;
  sim_ats : list Z;
}.

#[export] Instance sim_slot_eta : Eta sim_slot :=
  fun s => mk_sim_slot (sl_delay s) (sl_valid s) (sl_packet s).
#[export] Instance sim_device_eta : Eta sim_device :=
  fun d => mk_sim (sim_get d) (sim_put d) (sim_next_puts d) (sim_slots d)
    (sim_retries d) (sim_restarts d) (sim_ats d).
#[export] Instance sim_slot_inhabited : Inhabited sim_slot :=
  populate (mk_sim_slot 0 false zero_entry).

Definition sim_slot_at (i : Z) (d : sim_device) : sim_slot := sim_slots d !!! Z.to_nat i.

Definition sim_upd_slot (i : Z) (f : sim_slot -> sim_slot) (d : sim_device) : sim_device :=
  d <| sim_slots ::= alter f (Z.to_nat i) |>.

Definition sim_read_put (d : sim_device) : Z * sim_device :=
  match sim_next_puts d with
  | [] => (sim_put d, d)
  | p :: l => (p, d <| sim_put := p |> <| sim_next_puts := l |>)
  end.

Definition sim_is_valid (i : Z) (d : sim_device) : bool * sim_device :=
  let s := sim_slot_at i d in
  if sl_valid s then
    match sl_delay s with
    | O => (true, d)
    | S n => (false, sim_upd_slot i (fun s => s <| sl_delay := n |>) d)
    end
  else (false, d).

Definition sim_clear_valid (i : Z) (d : sim_device) : sim_device :=
  sim_upd_slot i (fun s => s <| sl_valid := false |>) d.

(** Parsing overwrites the fields the packet carries and leaves the others. *)
Definition sim_parse_into (pkt old : uvm_fault_buffer_entry_t) : uvm_fault_buffer_entry_t :=
  old <| fault_address := fault_address pkt |> <| timestamp := timestamp pkt |>
      <| instance_ptr := instance_ptr pkt |> <| fault_source := fault_source pkt |>
      <| fault_type := fault_type pkt |> <| fault_access_type := fault_access_type pkt |>
      <| is_replayable := is_replayable pkt |> <| is_virtual := is_virtual pkt |>
      <| in_protected_mode := in_protected_mode pkt |>.

Definition sim_parse (i : Z) (old : uvm_fault_buffer_entry_t) (d : sim_device)
  : NV_STATUS * uvm_fault_buffer_entry_t * sim_device :=
  (NV_OK, sim_parse_into (sl_packet (sim_slot_at i d)) old, sim_clear_valid i d).

#[export] Instance sim_hal : FaultBufferHal sim_device := {|
  hal_entry_size := 32;
  hal_read_get := fun d => (sim_get d, d);
  hal_read_put := sim_read_put;
  hal_write_get := fun i d => d <| sim_get := i |>;
  hal_entry_is_valid := sim_is_valid;
  hal_entry_clear_valid := sim_clear_valid;
  hal_parse_replayable_entry := sim_parse;
|}.

Definition sim_pending (i : Z) (d : sim_device) : Prop :=
  exists s, sim_slots d !! Z.to_nat i = Some s /\ sl_valid s = true.

Lemma sim_polls_spec i d d' :
  sim_pending i d -> sim_is_valid i d = (false, d') ->
  sim_pending i d' /\ (sl_delay (sim_slot_at i d') < sl_delay (sim_slot_at i d))%nat.
Proof.
  intros (s & Hs & Hv). unfold sim_is_valid, sim_slot_at.
  rewrite (list_lookup_total_correct _ _ _ Hs), Hv.
  destruct (sl_delay s) as [|n] eqn:En; [done|]. intros [= <-].
  unfold sim_upd_slot, sim_pending. simpl.
  assert (alter (fun s => s <| sl_delay := n |>) (Z.to_nat i) (sim_slots d) !! Z.to_nat i
          = Some (s <| sl_delay := n |>)) as Ha.
  { by rewrite list_lookup_alter_eq, Hs. }
  rewrite (list_lookup_total_correct _ _ _ Ha). split; [|simpl; lia].
  eexists. split; [exact Ha|done].
Qed.

(** Changing a slot other than by clearing its valid bit keeps every entry pending. *)
Lemma sim_pending_upd i j f d : 0 <= i -> 0 <= j -> (i = j -> forall s, sl_valid (f s) = sl_valid s) ->
  sim_pending i d -> sim_pending i (sim_upd_slot j f d).
Proof.
  intros Hi Hj Hf (s & Hs & Hv). unfold sim_pending, sim_upd_slot. simpl. destruct (decide (i = j)) as [->|Hn].
  - exists (f s). by rewrite list_lookup_alter_eq, Hs, Hf.
  - exists s. by rewrite list_lookup_alter_ne by lia.
Qed.

Lemma sim_pending_poll i j d b d' :
  0 <= i -> 0 <= j -> sim_pending i d -> sim_is_valid j d = (b, d') -> sim_pending i d'.
Proof.
  intros Hi Hj Hp. unfold sim_is_valid. destruct (sl_valid _); [destruct (sl_delay _) as [|n]|]; intros [= <- <-]; try done.
  by apply sim_pending_upd.
Qed.

Lemma sim_pending_clear i j d :
  0 <= i -> 0 <= j -> i <> j -> sim_pending i d -> sim_pending i (sim_clear_valid j d).
Proof. intros Hi Hj Hn. by apply sim_pending_upd. Qed.

#[export] Instance sim_hal_live : FaultBufferHalLive sim_device := {|
  hal_pending := sim_pending;
  hal_polls := fun i d => sl_delay (sim_slot_at i d);
  hal_polls_spec := sim_polls_spec;
  hal_pending_poll := sim_pending_poll;
  hal_pending_clear := sim_pending_clear;
|}.

(** The push, tracker and RM layers never fail. *)
#[export] Instance sim_ops : GpuOps sim_device := {|
  op_push_begin_acquire := fun _ => NV_OK;
  op_push_end_and_wait := fun _ => NV_OK;
  op_tracker_add_push_safe := fun _ => NV_OK;
  op_tracker_wait := fun _ => NV_OK;
  op_flush_replayable_fault_buffer := fun _ _ => NV_OK;
  op_pdb := fun _ _ => mk_phys 0 UVM_APERTURE_VID;
|}.

#[export] Instance sim_ops_ok : GpuOpsOk sim_device.
Proof. by split. Qed.

(** A context with no faults cached, and the fault state before initialisation. *)
Definition empty_batch (cache : nat) : uvm_fault_service_batch_context_t :=
  mk_batch (replicate cache zero_entry) (replicate cache 0%nat) [] 0 0 0 None false 0 0
    zero_stale zero_pred 0 0 [] true None.

Definition empty_prev_fetch : prev_fetch_state :=
  mk_prev_fetch [] 0 0 [] 0 0 0 zero_fetch_key false false false 0 [] [] 0 0 0.

Definition sim_replayable (max utlb : Z) : uvm_replayable_fault_buffer_info_t :=
  mk_replayable max 0 0 UVM_PERF_FAULT_REPLAY_POLICY_BATCH_FLUSH [] 50 0 0 0 utlb [] 0 0
    empty_prev_fetch.

Definition sim_gpu (max_batch max utlb : Z) (d : sim_device) : uvm_gpu sim_device :=
  mk_gpu max_batch true 0 true (sim_replayable max utlb)
    (empty_batch (Z.to_nat max)) d [] 0.

Definition sim_caps (bufsize : Z) : gpu_caps := mk_caps bufsize true true false false false false.

(** Packets for runs: a fault of [access] on page [addr] from uTLB [utlb]. *)
Definition sim_packet (utlb addr : Z) (access : uvm_fault_access_type_t)
  : uvm_fault_buffer_entry_t :=
  zero_entry <| fault_address := addr |> <| fault_access_type := access |>
    <| instance_ptr := mk_phys 4096 UVM_APERTURE_VID |>
    <| fault_source := mk_source UVM_FAULT_CLIENT_TYPE_GPC UVM_MMU_ENGINE_TYPE_GRAPHICS
                         0 0 utlb 0 0 |>
    <| is_replayable := true |> <| is_virtual := true |>.

Definition sim_full_slot (delay : nat) (pkt : uvm_fault_buffer_entry_t) : sim_slot :=
  mk_sim_slot delay true pkt.

Definition sim_empty_slot : sim_slot := mk_sim_slot 0 false zero_entry.
