(* ===== verification/Sorting.v ===== *)
(** * Comparators, sorting and searching

    The kernel's [sort()] as an interface, three-way comparators and their
    laws, and the in-place deduplication and binary search loops that the
    predictors share. *)

From S2P Require Import Prelude.

Local Open Scope Z_scope.

(** ** Three-way comparators *)

Record cmp_order {A} (cmp : A -> A -> Z) : Prop := {
  cmp_anti : forall a b, Z.sgn (cmp a b) = - Z.sgn (cmp b a);
  cmp_trans : forall a b c, cmp a b <= 0 -> cmp b c <= 0 -> cmp a c <= 0;
}.

Definition cmp_le {A} (cmp : A -> A -> Z) (a b : A) : Prop := cmp a b <= 0.

#[export] Instance cmp_le_dec {A} (cmp : A -> A -> Z) : RelDecision (cmp_le cmp).
Proof. intros a b. unfold cmp_le. apply _. Defined.

(** [if (result != 0) return result; return <next>;] *)
Definition lex {A} (c1 c2 : A -> A -> Z) (a b : A) : Z :=
  if negb (c1 a b =? 0) then c1 a b else c2 a b.

Section CmpOrder.
  Context {A : Type} {cmp : A -> A -> Z} (Hc : cmp_order cmp).

Lemma cmp_refl a : cmp a a = 0.
Proof. pose proof (cmp_anti _ Hc a a). lia. Qed.

Lemma cmp_neg a b : cmp a b < 0 <-> 0 < cmp b a.
Proof. pose proof (cmp_anti _ Hc a b). lia. Qed.

Lemma cmp_zero a b : cmp a b = 0 <-> cmp b a = 0.
Proof. pose proof (cmp_anti _ Hc a b). lia. Qed.

Lemma cmp_le_total : Total (cmp_le cmp).
Proof. intros a b. unfold cmp_le. pose proof (cmp_anti _ Hc a b). lia. Qed.

Lemma cmp_le_trans : Transitive (cmp_le cmp).
Proof. intros a b c. apply (cmp_trans _ Hc). Qed.

Lemma cmp_lt_le a b c : cmp a b < 0 -> cmp b c <= 0 -> cmp a c < 0.
Proof.
  intros H1 H2. pose proof (cmp_trans _ Hc a b c ltac:(lia) H2) as H3.
  assert (cmp a c <> 0); [|lia]. intros H0. apply cmp_zero in H0.
  pose proof (cmp_trans _ Hc b c a H2 ltac:(lia)). apply cmp_neg in H1. lia.
Qed.

Lemma cmp_le_lt a b c : cmp a b <= 0 -> cmp b c < 0 -> cmp a c < 0.
Proof.
  intros H1 H2. pose proof (cmp_trans _ Hc a b c H1 ltac:(lia)) as H3.
  assert (cmp a c <> 0); [|lia]. intros H0. apply cmp_zero in H0.
  pose proof (cmp_trans _ Hc c a b ltac:(lia) H1). apply cmp_neg in H2. lia.
Qed.

End CmpOrder.

Lemma UVM_CMP_DEFAULT_sgn a b : UVM_CMP_DEFAULT a b = Z.sgn (a - b).
Proof. unfold UVM_CMP_DEFAULT. case (Z.ltb_spec a b), (Z.ltb_spec b a); lia. Qed.

Lemma UVM_CMP_DEFAULT_zero a b : UVM_CMP_DEFAULT a b = 0 <-> a = b.
Proof. rewrite UVM_CMP_DEFAULT_sgn. lia. Qed.

Lemma cmp_order_default {A} (f : A -> Z) : cmp_order (fun a b => UVM_CMP_DEFAULT (f a) (f b)).
Proof. split; intros; rewrite ?UVM_CMP_DEFAULT_sgn in *; lia. Qed.

Lemma cmp_order_sub {A} (f : A -> Z) : cmp_order (fun a b => f b - f a).
Proof. split; intros; lia. Qed.

Lemma lex_zero {A} (c1 c2 : A -> A -> Z) a b :
  lex c1 c2 a b = 0 <-> c1 a b = 0 /\ c2 a b = 0.
Proof. unfold lex. case (Z.eqb_spec (c1 a b) 0); simpl; lia. Qed.

Lemma cmp_order_lex {A} (c1 c2 : A -> A -> Z) :
  cmp_order c1 -> cmp_order c2 -> cmp_order (lex c1 c2).
Proof.
  intros H1 H2. split.
  - intros a b. unfold lex. pose proof (cmp_anti _ H1 a b). pose proof (cmp_anti _ H2 a b).
    case (Z.eqb_spec (c1 a b) 0), (Z.eqb_spec (c1 b a) 0); simpl; lia.
  - intros a b c. unfold lex.
    pose proof (cmp_anti _ H1 a b). pose proof (cmp_anti _ H1 b c). pose proof (cmp_anti _ H1 a c).
    pose proof (cmp_trans _ H1 a b c). pose proof (cmp_trans _ H1 c b a).
    pose proof (cmp_trans _ H1 b c a). pose proof (cmp_trans _ H1 c a b).
    pose proof (cmp_trans _ H2 a b c).
    case (Z.eqb_spec (c1 a b) 0), (Z.eqb_spec (c1 b c) 0), (Z.eqb_spec (c1 a c) 0);
      simpl; lia.
Qed.

Lemma cmp_order_map {A B} (f : A -> B) (c : B -> B -> Z) :
  cmp_order c -> cmp_order (fun a b => c (f a) (f b)).
Proof. intros [H1 H2]. split; eauto. Qed.

(** ** The kernel's sort() *)

Class KernelSort : Type := {
  ksort : forall {A}, (A -> A -> Z) -> list A -> list A;
  ksort_perm : forall A (cmp : A -> A -> Z) l, ksort cmp l ≡ₚ l;
  ksort_sorted : forall A (cmp : A -> A -> Z) l,
    cmp_order cmp -> StronglySorted (cmp_le cmp) (ksort cmp l);
}.

(** Merge sort satisfies the interface. *)
Lemma merge_ksort_sorted A (cmp : A -> A -> Z) l :
  cmp_order cmp -> StronglySorted (cmp_le cmp) (merge_sort (cmp_le cmp) l).
Proof.
  intros Hc. apply StronglySorted_merge_sort; [apply cmp_le_trans, Hc|apply cmp_le_total, Hc].
Qed.

#[export] Instance merge_ksort : KernelSort := {|
  ksort := fun A cmp l => merge_sort (cmp_le cmp) l;
  ksort_perm := fun A cmp l => merge_sort_Permutation (cmp_le cmp) l;
  ksort_sorted := merge_ksort_sorted;
|}.

(** [sort(arr, n, ...)]: the first [n] elements of the array. *)
Definition sort_prefix `{KernelSort} {A} (cmp : A -> A -> Z) (n : nat) (arr : list A) : list A :=
  ksort cmp (take n arr) ++ drop n arr.

Lemma length_sort_prefix `{KernelSort} {A} (cmp : A -> A -> Z) n arr :
  length (sort_prefix cmp n arr) = length arr.
Proof.
  unfold sort_prefix. rewrite length_app, ksort_perm, length_take, length_drop. lia.
Qed.

Lemma take_sort_prefix `{KernelSort} {A} (cmp : A -> A -> Z) n arr :
  (n <= length arr)%nat -> take n (sort_prefix cmp n arr) = ksort cmp (take n arr).
Proof.
  intros Hn. unfold sort_prefix.
  replace n with (length (ksort cmp (take n arr))) at 1;
    [|rewrite ksort_perm, length_take; lia].
  apply take_app_length.
Qed.

(** ** In-place deduplication

    [for (i = ...; n times; ++i) if (cmp(arr[i], arr[unique-1]) != 0)
    arr[unique++] = arr[i];] *)
Fixpoint dedup_loop {A} `{Inhabited A} (cmp : A -> A -> Z) (n i unique : nat) (arr : list A)
  : list A * nat :=
  match n with
  | O => (arr, unique)
  | S n =>
      if negb (cmp (arr !!! i) (arr !!! (unique - 1)%nat) =? 0)
      then dedup_loop cmp n (S i) (S unique) (<[unique := arr !!! i]> arr)
      else dedup_loop cmp n (S i) unique arr
  end.

(** The elements of [l] that differ from the one kept before them. *)
Fixpoint dedup_from {A} (cmp : A -> A -> Z) (last : A) (l : list A) : list A :=
  match l with
  | [] => []
  | x :: l => if negb (cmp x last =? 0) then x :: dedup_from cmp x l
              else dedup_from cmp last l
  end.

Section Dedup.
  Context {A : Type} `{Inhabited A} (cmp : A -> A -> Z).

Lemma length_dedup_loop n i unique arr :
  length (dedup_loop cmp n i unique arr).1 = length arr.
Proof.
  revert i unique arr. induction n as [|n IH]; intros; simpl; [done|].
  case_match; rewrite IH; [apply length_insert|done].
Qed.

Lemma dedup_loop_spec n : forall i unique arr,
  (0 < unique <= i)%nat -> (i + n <= length arr)%nat ->
  let '(arr', unique') := dedup_loop cmp n i unique arr in
  (unique <= unique' <= i + n)%nat /\
  take unique' arr' =
    take unique arr ++ dedup_from cmp (arr !!! (unique - 1)%nat) (take n (drop i arr)).
Proof.
  induction n as [|n IH]; intros i unique arr Hu Hl; simpl.
  { split; [lia|]. by rewrite app_nil_r. }
  destruct (lookup_lt_is_Some_2 arr i ltac:(lia)) as [x Hx].
  rewrite (drop_S _ _ _ Hx). simpl. rewrite (list_lookup_total_correct _ _ _ Hx).
  destruct (negb (cmp x (arr !!! (unique - 1)%nat) =? 0)) eqn:E.
  - specialize (IH (S i) (S unique) (<[unique := x]> arr)).
    rewrite length_insert in IH. specialize (IH ltac:(lia) ltac:(lia)).
    destruct (dedup_loop _ _ _ _ _) as [arr' u']. destruct IH as [Hb IH].
    split; [lia|]. rewrite IH. clear IH.
    replace (S unique - 1)%nat with unique by lia.
    rewrite list_lookup_total_insert_eq by lia.
    rewrite (take_S_r _ unique x) by (apply list_lookup_insert_eq; lia).
    rewrite take_insert_ge by lia. rewrite <- app_assoc. simpl.
    by rewrite drop_insert_lt by lia.
  - specialize (IH (S i) unique arr ltac:(lia) ltac:(lia)).
    destruct (dedup_loop _ _ _ _ _) as [arr' u']. destruct IH as [Hb IH].
    split; [lia|done].
Qed.

End Dedup.

(** On a list sorted by [cmp], the deduplicated list is strictly sorted and
    represents the same elements up to [cmp]. *)

Definition cmp_lt {A} (cmp : A -> A -> Z) (a b : A) : Prop := cmp a b < 0.

Section DedupSorted.
  Context {A : Type} {cmp : A -> A -> Z} (Hc : cmp_order cmp).

Lemma dedup_from_sorted last l :
  StronglySorted (cmp_le cmp) (last :: l) ->
  StronglySorted (cmp_lt cmp) (last :: dedup_from cmp last l).
Proof.
  revert last. induction l as [|x l IH]; intros last Hs; simpl; [by repeat constructor|].
  apply StronglySorted_inv in Hs as [Hs Hall].
  pose proof Hall as Hall'. rewrite Forall_cons in Hall. destruct Hall as [Hx Hall].
  unfold cmp_le in Hx. case (Z.eqb_spec (cmp x last) 0); simpl; intros Hz.
  - apply IH. apply StronglySorted_inv in Hs as [Hs _]. by constructor.
  - specialize (IH x Hs). constructor; [done|].
    assert (cmp last x < 0) as Hlt.
    { pose proof (cmp_anti _ Hc last x). lia. }
    apply StronglySorted_inv in IH as [_ IH]. constructor; [done|].
    eapply Forall_impl; [exact IH|]. intros y Hy. unfold cmp_lt in *.
    by apply (cmp_lt_le Hc _ x); [|lia].
Qed.

Lemma dedup_from_subset last l x : x ∈ dedup_from cmp last l -> x ∈ l.
Proof.
  revert last. induction l as [|y l IH]; intros last; simpl; [done|].
  case_match; rewrite ?elem_of_cons; intuition eauto.
Qed.

Lemma dedup_from_covers last l x :
  x ∈ last :: l -> exists y, y ∈ last :: dedup_from cmp last l /\ cmp x y = 0.
Proof.
  revert last. induction l as [|y l IH]; intros last.
  - rewrite list_elem_of_singleton. intros ->. exists last. split; [by left|]. by apply cmp_refl.
  - rewrite !elem_of_cons. simpl. case (Z.eqb_spec (cmp y last) 0); simpl; intros Hz [->|[->|Hx]].
    + exists last. split; [by left|]. by apply cmp_refl.
    + exists last. split; [by left|done].
    + destruct (IH last) as (z & ? & ?); [by right|]. eauto.
    + exists last. split; [by left|]. by apply cmp_refl.
    + exists y. split; [by right; left|]. by apply cmp_refl.
    + destruct (IH y) as (z & ? & ?); [by right|]. exists z. split; [by right|done].
Qed.

End DedupSorted.

(** ** Binary search

    [while (left < right) { mid = left + (right - left) / 2; ... }] *)
Fixpoint bsearch_loop {A} `{Inhabited A} (cmp : A -> A -> Z) (needle : A) (arr : list A)
    (fuel left right : nat) : bool :=
  match fuel with
  | O => false
  | S fuel =>
      if (left <? right)%nat then
        let mid := (left + (right - left) / 2)%nat in
        let c := cmp needle (arr !!! mid) in
        if c =? 0 then true
        else if c <? 0 then bsearch_loop cmp needle arr fuel left mid
        else bsearch_loop cmp needle arr fuel (S mid) right
      else false
  end.

Lemma StronglySorted_impl {A} (R S : relation A) l :
  (forall x y, R x y -> S x y) -> StronglySorted R l -> StronglySorted S l.
Proof.
  intros Himp. induction 1; constructor; [done|]. eapply Forall_impl; eauto.
Qed.

Section Bsearch.
  Context {A : Type} `{Inhabited A} {cmp : A -> A -> Z} (Hc : cmp_order cmp).
  Variables (needle : A) (arr : list A) (n : nat).
  Hypothesis Hn : (n <= length arr)%nat.
  Hypothesis Hs : StronglySorted (cmp_le cmp) (take n arr).

Lemma StronglySorted_lookup_lt {B} (R : relation B) l i j x y :
  StronglySorted R l -> (i < j)%nat -> l !! i = Some x -> l !! j = Some y -> R x y.
Proof.
  intros Hl. revert i j. induction Hl as [|a l Hl IH Hall]; intros i j Hij Hx Hy; [done|].
  destruct j as [|j]; [lia|]. destruct i as [|i]; simpl in *.
  - injection Hx as ->. rewrite Forall_forall in Hall. apply Hall.
    by eapply list_elem_of_lookup_2.
  - apply (IH i j); auto; lia.
Qed.

Lemma sorted_prefix_le i j :
  (i < j)%nat -> (j < n)%nat -> cmp (arr !!! i) (arr !!! j) <= 0.
Proof.
  intros Hij Hj.
  destruct (lookup_lt_is_Some_2 arr i ltac:(lia)) as [x Hx].
  destruct (lookup_lt_is_Some_2 arr j ltac:(lia)) as [y Hy].
  rewrite (list_lookup_total_correct _ _ _ Hx), (list_lookup_total_correct _ _ _ Hy).
  apply (StronglySorted_lookup_lt (cmp_le cmp) (take n arr) i j); auto;
    rewrite lookup_take_lt; auto; lia.
Qed.

Lemma bsearch_loop_spec fuel left right :
  (right <= n)%nat -> (right - left <= fuel)%nat ->
  bsearch_loop cmp needle arr fuel left right = true <->
  exists i, (left <= i < right)%nat /\ cmp needle (arr !!! i) = 0.
Proof.
  revert left right. induction fuel as [|fuel IH]; intros left right Hr Hf;
    cbn [bsearch_loop]; cbv zeta.
  { split; [done|]. intros (i & ? & _). lia. }
  case (Nat.ltb_spec left right); intros Hlt.
  2:{ split; [done|]. intros (i & ? & _). lia. }
  set (mid := (left + (right - left) / 2)%nat).
  assert (left <= mid < right)%nat as Hmid.
  { subst mid. pose proof (Nat.div_lt (right - left) 2). lia. }
  case (Z.eqb_spec (cmp needle (arr !!! mid)) 0); intros Hz.
  { split; [intros _|auto]. exists mid. split; [lia|done]. }
  case (Z.ltb_spec (cmp needle (arr !!! mid)) 0); intros Hlt2;
    rewrite IH by lia; split; intros (i & Hi & Hci); exists i; (split; [|done]); try lia.
  - destruct (decide (i < mid)%nat); [lia|]. exfalso.
    destruct (decide (i = mid)) as [->|]; [lia|].
    pose proof (sorted_prefix_le mid i ltac:(lia) ltac:(lia)).
    pose proof (cmp_lt_le Hc needle (arr !!! mid) (arr !!! i)). lia.
  - destruct (decide (mid < i)%nat); [lia|]. exfalso.
    destruct (decide (i = mid)) as [->|]; [lia|].
    pose proof (sorted_prefix_le i mid ltac:(lia) ltac:(lia)).
    pose proof (cmp_trans _ Hc needle (arr !!! i) (arr !!! mid)). lia.
Qed.

End Bsearch.
