(* ===== verification/FaultBuffer.v ===== *)
(** * The replayable fault buffer

    The ring shared with the GPU: initialisation, the pending test, replay and
    cancel pushes, the GET register and the flush loop
    ([uvm_gpu_replayable_faults.c], lines 330-1058). *)

From S2P Require Import Prelude FaultTypes Gpu SimDevice.

Local Open Scope Z_scope.

(** ** Ring arithmetic *)

Definition replayable_fault_buffer_pending_entries (get put max_faults : Z) : Z :=
  if get <=? put then u32 (put - get)
  else u32 (u32 (max_faults - get) + put).

(** [++get; if (get == max_faults) get = 0;] *)
Definition ring_next (max_faults get : Z) : Z :=
  let get := u32 (get + 1) in
  if get =? max_faults then 0 else get.

Definition ring_ok (max_faults i : Z) : Prop := 0 <= i < max_faults.

Section FaultBuffer.
  Context {D : Type} `{Hal : FaultBufferHal D} `{!FaultBufferHalLive D} `{Ops : GpuOps D}.
  Variable P : module_params.
  Variable caps : gpu_caps.

  Abbreviation M := (ST (uvm_gpu D)).

(** ** Device access *)

Definition hal {A} (f : D -> A * D) : M A :=
  fun g => let '(a, d) := f (hw g) in (a, g <| hw := d |>).

Definition hal_ (f : D -> D) : M unit :=
  modify (fun g => g <| hw ::= f |>).

Definition emit (e : event) : M unit := modify (fun g => g <| trace ::= cons e |>).

Definition upd_replayable (f : uvm_replayable_fault_buffer_info_t ->
                               uvm_replayable_fault_buffer_info_t) : M unit :=
  modify (fun g => g <| replayable ::= f |>).

Definition upd_batch (f : uvm_fault_service_batch_context_t ->
                          uvm_fault_service_batch_context_t) : M unit :=
  modify (fun g => g <| batch ::= f |>).

(** [UVM_SPIN_WHILE(!entry_is_valid(...), &spin)]: poll until the valid bit is
    read as set; [fuel] is the number of polls that may still fail. *)
Fixpoint spin_until_valid (fuel : nat) (index : Z) : M unit :=
  valid ← hal (hal_entry_is_valid index);
  match fuel with
  | O => skip
  | S fuel => if valid : bool then skip else spin_until_valid fuel index
  end.

Definition wait_entry_valid (index : Z) : M unit :=
  d ← gets hw; spin_until_valid (hal_polls index d) index.

(** ** Pushes and trackers *)

(** [uvm_push_begin_acquire]: on success the push gets the next number. *)
Definition uvm_push_begin_acquire : M NV_STATUS :=
  st ← gets op_push_begin_acquire;
  when (is_ok st) (modify (fun g => g <| push_seq ::= Z.succ |>)) ;;
  mret st.

Definition uvm_push_end_and_wait : M NV_STATUS := gets op_push_end_and_wait.

Definition replay_tracker_clear : M unit :=
  upd_replayable (fun r => r <| replay_tracker := [] |>).

(** [uvm_tracker_add_push_safe(&replay_tracker, &push)]. *)
Definition replay_tracker_add_push_safe : M NV_STATUS :=
  st ← gets op_tracker_add_push_safe;
  n ← gets push_seq;
  when (is_ok st) (upd_replayable (fun r => r <| replay_tracker ::= cons n |>)) ;;
  mret st.

(** [uvm_tracker_wait(&replay_tracker)] empties the tracker, whatever it returns. *)
Definition replay_tracker_wait : M NV_STATUS :=
  st ← gets op_tracker_wait;
  replay_tracker_clear ;;
  mret st.

Definition push_cancel_on_gpu (inst : uvm_gpu_phys_address_t) (global_cancel : bool)
    (gpc_id client_id : Z) : M NV_STATUS :=
  try uvm_push_begin_acquire (
    (if global_cancel then emit (EvCancelGlobal inst)
     else emit (EvCancelTargeted inst gpc_id client_id)) ;;
    st ← uvm_push_end_and_wait;
    replay_tracker_clear ;;
    mret st).

Definition push_cancel_on_gpu_targeted (inst : uvm_gpu_phys_address_t)
    (gpc_id client_id : Z) : M NV_STATUS :=
  push_cancel_on_gpu inst false gpc_id client_id.

Definition push_cancel_on_gpu_global (inst : uvm_gpu_phys_address_t) : M NV_STATUS :=
  push_cancel_on_gpu inst true 0 0.

Definition UVM_PAGE_SIZE_4K : Z := 4096.

(** The entry of the fault cache an index refers to. *)
Definition cache_at (b : uvm_fault_service_batch_context_t) (i : nat)
  : uvm_fault_buffer_entry_t := fault_cache b !!! i.

Definition upd_entry (i : nat) (f : uvm_fault_buffer_entry_t -> uvm_fault_buffer_entry_t)
    (b : uvm_fault_service_batch_context_t) : uvm_fault_service_batch_context_t :=
  b <| fault_cache ::= alter f i |>.

(** One [cancel_faults_va] per 4K range; the entry's address moves with it. *)
Fixpoint cancel_va_loop (n : nat) (offset : Z) (i : nat) (pdb : uvm_gpu_phys_address_t)
    (mode : uvm_fault_cancel_va_mode_t) : M unit :=
  match n with
  | O => skip
  | S n =>
      if offset <? PAGE_SIZE then
        e ← gets (fun g => cache_at (batch g) i);
        emit (EvCancelVa pdb e mode) ;;
        upd_batch (upd_entry i (fun e =>
          e <| fault_address ::= fun a => u64 (a + UVM_PAGE_SIZE_4K) |>)) ;;
        cancel_va_loop n (offset + UVM_PAGE_SIZE_4K) i pdb mode
      else skip
  end.

Definition cancel_fault_precise_va (i : nat) (mode : uvm_fault_cancel_va_mode_t)
  : M NV_STATUS :=
  e ← gets (fun g => cache_at (batch g) i);
  pdb ← gets (fun g => op_pdb g (va_space e));
  emit (EvFatalFault e (fatal_reason e)) ;;
  try uvm_push_begin_acquire (
    cancel_va_loop (Z.to_nat (PAGE_SIZE / UVM_PAGE_SIZE_4K)) 0 i pdb mode ;;
    upd_batch (upd_entry i (fun e =>
      e <| fault_address ::= fun a => UVM_PAGE_ALIGN_DOWN (u64 (a - 1)) |>)) ;;
    st ← uvm_push_end_and_wait;
    replay_tracker_clear ;;
    mret st).

(** [with_ctx] is whether the caller passes its batch context or NULL. *)
Definition push_replay_on_gpu (type : uvm_fault_replay_type_t) (with_ctx : bool)
  : M NV_STATUS :=
  try uvm_push_begin_acquire (
    emit (EvReplay type) ;;
    when (with_ctx && negb (bool_decide (type = UVM_FAULT_REPLAY_TYPE_START_ACK_ALL)))
      (upd_batch (fun b => b <| num_replays ::= fun n => u32 (n + 1) |>)) ;;
    st ← replay_tracker_add_push_safe;
    when (procfs_debug caps)
      (upd_replayable (fun r =>
         if bool_decide (type = UVM_FAULT_REPLAY_TYPE_START)
         then r <| stats_num_replays ::= fun n => u64 (n + 1) |>
         else r <| stats_num_replays_ack_all ::= fun n => u64 (n + 1) |>)) ;;
    mret st).

(** ** GET, pending faults and flush *)

Definition write_get (get : Z) : M unit :=
  cur ← gets (fun g => cached_get (replayable g));
  if cur =? get then skip
  else
    upd_replayable (fun r => r <| cached_get := get |>) ;;
    hal_ (hal_write_get get).

Definition read_put : M unit :=
  put ← hal hal_read_put;
  upd_replayable (fun r => r <| cached_put := put |>).

Definition uvm_parent_gpu_replayable_faults_pending : M bool :=
  r ← gets replayable;
  if negb (cached_get r =? cached_put r) then mret true
  else
    valid ← hal (hal_entry_is_valid (cached_get r));
    if valid : bool then mret true
    else
      read_put ;;
      r ← gets replayable;
      mret (negb (cached_get r =? cached_put r)).

(** [move] is [HW_FAULT_BUFFER_FLUSH_MODE_MOVE], its negation [DISCARD]. *)
Definition hw_fault_buffer_flush_locked (move : bool) : M NV_STATUS :=
  if negb (conf_computing_enabled caps) then mret NV_OK
  else gets (op_flush_replayable_fault_buffer move).

Definition fault_buffer_skip_replayable_entry (index : Z) : M unit :=
  when (conf_computing_enabled caps) (emit (EvDecryptIv 1)) ;;
  hal_ (hal_entry_clear_valid index).

(** The body of [while (get != put)]; at most [fuel] iterations. *)
Fixpoint flush_loop (fuel : nat) (get put : Z) : M Z :=
  match fuel with
  | O => mret get
  | S fuel =>
      if get =? put then mret get
      else
        wait_entry_valid get ;;
        fault_buffer_skip_replayable_entry get ;;
        max ← gets (fun g => max_faults (replayable g));
        flush_loop fuel (ring_next max get) put
  end.

Definition fault_buffer_flush_locked (flush_mode : uvm_gpu_buffer_flush_mode_t)
    (fault_replay : uvm_fault_replay_type_t) (with_ctx : bool) : M NV_STATUS :=
  try (if bool_decide (flush_mode = UVM_GPU_BUFFER_FLUSH_MODE_WAIT_UPDATE_PUT)
       then replay_tracker_wait else mret NV_OK) (
  try (if bool_decide (flush_mode = UVM_GPU_BUFFER_FLUSH_MODE_UPDATE_PUT) ||
          bool_decide (flush_mode = UVM_GPU_BUFFER_FLUSH_MODE_WAIT_UPDATE_PUT)
       then try (hw_fault_buffer_flush_locked false) (read_put ;; mret NV_OK)
       else mret NV_OK) (
    r ← gets replayable;
    get ← flush_loop
      (Z.to_nat (replayable_fault_buffer_pending_entries
                   (cached_get r) (cached_put r) (max_faults r)))
      (cached_get r) (cached_put r);
    write_get get ;;
    push_replay_on_gpu fault_replay with_ctx)).

(** The ISR lock around the flush is not part of the state. *)
Definition uvm_gpu_fault_buffer_flush : M NV_STATUS :=
  fault_buffer_flush_locked UVM_GPU_BUFFER_FLUSH_MODE_WAIT_UPDATE_PUT
    UVM_FAULT_REPLAY_TYPE_START false.

(** ** Initialisation and teardown

    [alloc n] is whether the n-th allocation of the function succeeds; the two
    RM calls and the non-replayable buffer are arguments.  A null array is the
    empty list. *)

Definition set_prefetch_faults (enabled : bool) : M unit := emit (EvPrefetchFaults enabled).

Definition fault_buffer_reinit_replayable_faults : M unit :=
  get ← hal hal_read_get;
  put ← hal hal_read_put;
  upd_replayable (fun r =>
    r <| cached_get := get |> <| cached_put := put |>
      <| prev_batch_key_count := 0 |> <| last_batch_pred_candidate_pct := 0 |>
      <| prev_fetch ::= fun p =>
           p <| prev_fetch_key_count := 0 |> <| last_batch_fetch_skip_pct := 0 |>
             <| prev_fetch_last_valid := false |>
             <| prev_fetch_adaptive_active := true |>
             <| prev_fetch_adaptive_cooldown_remaining := 0 |> |>) ;;
  en ← gets prefetch_faults_enabled;
  set_prefetch_faults en.

Definition UVM_PERF_FAULT_BATCH_COUNT_MIN : Z := 1.

Definition exact_table_size (max_batch : Z) : Z :=
  Z.max 64 (u32 (roundup_pow_of_two
    (u32 (max_batch * Z.max 1 (uvm_perf_fault_pred_exact_load_factor P))))).

Definition tag_table_size (max_faults : Z) : Z :=
  Z.max 64 (u32 (roundup_pow_of_two (Z.max 1 (max_faults / 4)))).

Definition replay_policy_of_param (n : Z) : uvm_perf_fault_replay_policy_t :=
  if n =? 0 then UVM_PERF_FAULT_REPLAY_POLICY_BLOCK
  else if n =? 1 then UVM_PERF_FAULT_REPLAY_POLICY_BATCH
  else if n =? 2 then UVM_PERF_FAULT_REPLAY_POLICY_BATCH_FLUSH
  else if n =? 3 then UVM_PERF_FAULT_REPLAY_POLICY_ONCE
  else UVM_PERF_FAULT_REPLAY_POLICY_BATCH_FLUSH.

Definition upd_fetch (f : prev_fetch_state -> prev_fetch_state) : M unit :=
  upd_replayable (fun r => r <| prev_fetch ::= f |>).

(** [if (!ptr) return NV_ERR_NO_MEMORY;] after the n-th allocation, which
    stores its array with [store]. *)
Definition try_alloc (alloc : nat -> bool) (n : nat) (store : M unit) (k : M NV_STATUS)
  : M NV_STATUS :=
  if alloc n then store ;; k else mret NV_ERR_NO_MEMORY.

Definition fault_buffer_init_replayable_faults (alloc : nat -> bool)
    (own_page_fault_intr : NV_STATUS) : M NV_STATUS :=
  let max := u32 (rm_buffer_size caps / hal_entry_size) in
  let count := Z.min (Z.max (uvm_perf_fault_batch_count P) UVM_PERF_FAULT_BATCH_COUNT_MIN) max in
  let n := Z.to_nat max in
  upd_replayable (fun r => r <| max_faults := max |>) ;;
  modify (fun g => g <| max_batch_size := count |>) ;;
  try_alloc alloc 0 (upd_batch (fun b => b <| fault_cache := replicate n zero_entry |>) ;;
                     replay_tracker_clear) (
  try_alloc alloc 1 (upd_batch (fun b => b <| ordered_fault_cache := replicate n 0%nat |>)) (
  try_alloc alloc 2 (upd_replayable (fun r =>
                       r <| prev_batch_keys := replicate n (mk_batch_key None 0) |>)) (
  try_alloc alloc 3 (upd_fetch (fun p =>
                       p <| prev_fetch_keys := replicate n zero_fetch_key |>)) (
  let size := exact_table_size count in
  upd_fetch (fun p => p <| prev_fetch_exact_size := size |>
                        <| prev_fetch_exact_mask := u32 (size - 1) |>
                        <| prev_fetch_exact_generation := 1 |>) ;;
  try_alloc alloc 4 (upd_fetch (fun p =>
                       p <| prev_fetch_exact_slots := replicate (Z.to_nat size) (mk_slot 0 0) |>)) (
  let tags := tag_table_size max in
  upd_fetch (fun p => p <| prev_fetch_last_valid := false |>
                        <| prev_fetch_adaptive_active := true |>
                        <| prev_fetch_adaptive_cooldown_remaining := 0 |>
                        <| prev_fetch_tag_size := tags |>
                        <| prev_fetch_tag_mask := u32 (tags - 1) |>
                        <| prev_fetch_tag_generation := 1 |>) ;;
  try_alloc alloc 5 (upd_fetch (fun p =>
                       p <| prev_fetch_tag_table := replicate (Z.to_nat tags) 0 |>)) (
  try_alloc alloc 6 (upd_fetch (fun p =>
                       p <| prev_fetch_hash_epochs := replicate (Z.to_nat tags) 0 |>)) (
  cnt ← gets (fun g => utlb_count (replayable g));
  try_alloc alloc 7 (upd_batch (fun b => b <| utlbs := replicate (Z.to_nat cnt) zero_utlb |>)) (
  upd_batch (fun b => b <| max_utlb_id := 0 |>) ;;
  emit (EvPageFaultIntr true) ;;
  try (mret own_page_fault_intr) (
  upd_replayable (fun r =>
    r <| replay_policy := replay_policy_of_param (uvm_perf_fault_replay_policy P) |>
      <| replay_update_put_ratio := Z.min (uvm_perf_fault_replay_update_put_ratio P) 100 |>) ;;
  modify (fun g => g <| prefetch_faults_enabled := prefetch_fault_supported caps |>) ;;
  fault_buffer_reinit_replayable_faults ;;
  mret NV_OK))))))))).

Definition fault_buffer_deinit_replayable_faults : M unit :=
  b ← gets batch;
  when (negb (bool_decide (fault_cache b = []))) replay_tracker_clear ;;
  handle ← gets fault_buffer_handle;
  en ← gets prefetch_faults_enabled;
  when (handle && prefetch_fault_supported caps && negb en) (set_prefetch_faults true) ;;
  upd_batch (fun b => b <| fault_cache := [] |> <| ordered_fault_cache := [] |>
                        <| utlbs := [] |>) ;;
  upd_replayable (fun r =>
    r <| prev_batch_keys := [] |> <| prev_batch_key_count := 0 |>
      <| last_batch_pred_candidate_pct := 0 |>) ;;
  upd_fetch (fun p =>
    p <| prev_fetch_keys := [] |> <| prev_fetch_key_count := 0 |>
      <| last_batch_fetch_skip_pct := 0 |>
      <| prev_fetch_exact_slots := [] |> <| prev_fetch_exact_size := 0 |>
      <| prev_fetch_exact_mask := 0 |> <| prev_fetch_exact_generation := 0 |>
      <| prev_fetch_last_valid := false |> <| prev_fetch_adaptive_active := false |>
      <| prev_fetch_adaptive_cooldown_remaining := 0 |>
      <| prev_fetch_hash_epochs := [] |> <| prev_fetch_tag_table := [] |>
      <| prev_fetch_tag_size := 0 |> <| prev_fetch_tag_mask := 0 |>
      <| prev_fetch_tag_generation := 0 |>).

Definition uvm_parent_gpu_fault_buffer_deinit (nonreplayable_deinit : M unit) : M unit :=
  when (non_replayable_faults_supported caps) nonreplayable_deinit ;;
  fault_buffer_deinit_replayable_faults ;;
  handle ← gets fault_buffer_handle;
  when handle (
    emit (EvPageFaultIntr false) ;;
    emit EvDestroyFaultInfo ;;
    modify (fun g => g <| fault_buffer_handle := false |>)).

Definition uvm_parent_gpu_fault_buffer_init (init_fault_info own_page_fault_intr : NV_STATUS)
    (alloc : nat -> bool) (nonreplayable_init : M NV_STATUS) (nonreplayable_deinit : M unit)
  : M NV_STATUS :=
  modify (fun g => g <| fault_buffer_handle := is_ok init_fault_info |>) ;;
  st ← try (mret init_fault_info) (
       try (fault_buffer_init_replayable_faults alloc own_page_fault_intr) (
       if non_replayable_faults_supported caps then nonreplayable_init else mret NV_OK));
  if is_ok st then mret NV_OK
  else uvm_parent_gpu_fault_buffer_deinit nonreplayable_deinit ;; mret st.

Definition uvm_parent_gpu_fault_buffer_resume : M unit :=
  fault_buffer_reinit_replayable_faults.

End FaultBuffer.

(** ** Ring arithmetic: lemmas *)

Section Ring.
  Variable max : Z.
  Hypothesis max_u32 : max < 2 ^ 32.

Lemma pending_entries_mod get put :
  ring_ok max get -> ring_ok max put ->
  replayable_fault_buffer_pending_entries get put max = (put - get) mod max.
Proof.
  unfold ring_ok, replayable_fault_buffer_pending_entries. intros Hg Hp.
  case (Z.leb_spec get put); intros.
  - rewrite wrap_id by (unfold in_width; lia). by rewrite Z.mod_small by lia.
  - rewrite (wrap_id 32 (max - get)) by (unfold in_width; lia).
    rewrite wrap_id by (unfold in_width; lia).
    apply Z.mod_unique with (q := -1); lia.
Qed.

Lemma pending_entries_bound get put :
  ring_ok max get -> ring_ok max put ->
  0 <= replayable_fault_buffer_pending_entries get put max < max.
Proof.
  intros Hg Hp. rewrite pending_entries_mod by done.
  apply Z.mod_pos_bound. unfold ring_ok in *. lia.
Qed.

Lemma ring_next_mod get : ring_ok max get -> ring_next max get = (get + 1) mod max.
Proof.
  unfold ring_ok, ring_next. intros Hg. rewrite wrap_id by (unfold in_width; lia).
  case (Z.eqb_spec (get + 1) max); intros He.
  - rewrite He. by rewrite Z.mod_same by lia.
  - by rewrite Z.mod_small by lia.
Qed.

Lemma ring_next_ok get : ring_ok max get -> ring_ok max (ring_next max get).
Proof.
  intros Hg. rewrite ring_next_mod by done. apply Z.mod_pos_bound.
  unfold ring_ok in *. lia.
Qed.

Lemma pending_entries_zero get put :
  ring_ok max get -> ring_ok max put ->
  replayable_fault_buffer_pending_entries get put max = 0 <-> get = put.
Proof.
  unfold ring_ok, replayable_fault_buffer_pending_entries. intros Hg Hp.
  case (Z.leb_spec get put); intros.
  - rewrite wrap_id by (unfold in_width; lia). lia.
  - rewrite (wrap_id 32 (max - get)) by (unfold in_width; lia).
    rewrite wrap_id by (unfold in_width; lia). lia.
Qed.

Lemma pending_entries_next get put :
  ring_ok max get -> ring_ok max put -> get <> put ->
  replayable_fault_buffer_pending_entries (ring_next max get) put max =
  replayable_fault_buffer_pending_entries get put max - 1.
Proof.
  intros Hg Hp Hne.
  pose proof (ring_next_ok get Hg) as Hn.
  pose proof (pending_entries_bound get put Hg Hp).
  assert (replayable_fault_buffer_pending_entries get put max <> 0)
    by (rewrite pending_entries_zero by done; done).
  rewrite !pending_entries_mod in * by done. rewrite ring_next_mod by done.
  rewrite Zminus_mod_idemp_r.
  replace (put - (get + 1)) with ((put - get) - 1) by lia.
  rewrite <- (Zminus_mod_idemp_l (put - get)). apply Z.mod_small. lia.
Qed.

End Ring.

(** The indices from [get] on, [n] of them, in ring order. *)
Fixpoint ring_range (max : Z) (n : nat) (get : Z) : list Z :=
  match n with
  | O => []
  | S n => get :: ring_range max n (ring_next max get)
  end.

Lemma length_ring_range max n get : length (ring_range max n get) = n.
Proof. revert get. induction n; intros; simpl; auto. Qed.

Lemma elem_of_ring_range max n get x : max < 2 ^ 32 -> ring_ok max get -> x ∈ ring_range max n get ->
  exists k, 0 <= k < Z.of_nat n /\ x = (get + k) mod max.
Proof.
  intros Hmax. revert get. induction n as [|n IH]; intros get Hg; simpl; [by intros ?%not_elem_of_nil|].
  intros [->|Hx]%elem_of_cons.
  - exists 0. split; [lia|]. rewrite Z.add_0_r. symmetry. by apply Z.mod_small.
  - apply IH in Hx as (k & Hk & ->); [|by apply ring_next_ok]. exists (k + 1). split; [lia|].
    rewrite ring_next_mod by done. rewrite Zplus_mod_idemp_l. f_equal. lia.
Qed.

Lemma ring_range_ok max n get x : max < 2 ^ 32 -> ring_ok max get -> x ∈ ring_range max n get -> ring_ok max x.
Proof. intros Hmax Hg (k & _ & ->)%elem_of_ring_range; [|done..]. apply Z.mod_pos_bound. unfold ring_ok in Hg. lia. Qed.

Lemma ring_range_nodup max n get : max < 2 ^ 32 -> ring_ok max get -> Z.of_nat n <= max -> NoDup (ring_range max n get).
Proof.
  intros Hmax. revert get. induction n as [|n IH]; intros get Hg Hn; simpl; [constructor|]. constructor.
  - intros (k & Hk & Heq)%elem_of_ring_range; [|done|by apply ring_next_ok].
    rewrite ring_next_mod in Heq by done. rewrite Zplus_mod_idemp_l in Heq. unfold ring_ok in Hg.
    destruct (decide (get + 1 + k < max)); [rewrite Z.mod_small in Heq; lia|].
    assert ((get + 1 + k) mod max = get + 1 + k - max); [|lia]. symmetry. apply (Z.mod_unique _ _ 1); lia.
  - apply IH; [by apply ring_next_ok|lia].
Qed.

(** ** The flush loop *)

(** What happens to the device while an entry is waited for, and while a list of
    entries is cleared, each after it was read as valid. *)
Inductive polled {D} `{FaultBufferHal D} (i : Z) : D -> D -> Prop :=
| polled_valid d d' : hal_entry_is_valid i d = (true, d') -> polled i d d'
| polled_again d d' d'' : hal_entry_is_valid i d = (false, d') -> polled i d' d'' -> polled i d d''.

Inductive drained {D} `{FaultBufferHal D} : list Z -> D -> D -> Prop :=
| drained_nil d : drained [] d d
| drained_cons i l d d' d'' : polled i d d' -> drained l (hal_entry_clear_valid i d') d'' -> drained (i :: l) d d''.

Section FlushLemmas.
  Context {D : Type} `{Hal : FaultBufferHal D} `{!FaultBufferHalLive D} `{Ops : GpuOps D}.
  Variable P : module_params.
  Variable caps : gpu_caps.

(** Clear the entries of a list of ring indices, each once it is valid. *)
Definition drain (l : list Z) : ST (uvm_gpu D) unit :=
  for_each l (fun i => wait_entry_valid i ;; fault_buffer_skip_replayable_entry caps i).

Lemma spin_until_valid_hw fuel index (g : uvm_gpu D) :
  exists d', spin_until_valid fuel index g = (tt, g <| hw := d' |>).
Proof.
  revert g. induction fuel as [|fuel IH]; intros g; simpl;
    unfold mbind, ST_bind, hal; destruct (hal_entry_is_valid index (hw g)) as [[] d'];
    try (by exists d').
  destruct (IH (g <| hw := d' |>)) as [d2 ->]. by exists d2.
Qed.

Lemma wait_entry_valid_hw index (g : uvm_gpu D) :
  exists d', wait_entry_valid index g = (tt, g <| hw := d' |>).
Proof. by apply spin_until_valid_hw. Qed.

Lemma polled_pending i j d d' : 0 <= i -> 0 <= j -> polled j d d' -> hal_pending i d -> hal_pending i d'.
Proof. intros Hi Hj. induction 1 as [d d' E|d d' d'' E _ IH]; intros Hp; [|apply IH]; by apply (hal_pending_poll i j _ _ _ Hi Hj Hp E). Qed.

Lemma spin_until_valid_live fuel index (g : uvm_gpu D) :
  hal_pending index (hw g) -> (hal_polls index (hw g) <= fuel)%nat ->
  exists d', polled index (hw g) d' /\ spin_until_valid fuel index g = (tt, g <| hw := d' |>).
Proof.
  revert g. induction fuel as [|fuel IH]; intros g Hp Hf; simpl;
    unfold mbind, ST_bind, hal; destruct (hal_entry_is_valid index (hw g)) as [[] d'] eqn:E;
    try (exists d'; split; [by apply polled_valid|done]); pose proof (hal_polls_spec _ _ _ Hp E) as [? ?]; [lia|].
  destruct (IH (g <| hw := d' |>)) as (d2 & H1 & H2); simpl; [done|lia|].
  exists d2. split; [by apply (polled_again _ _ d')|done].
Qed.

Lemma skip_entry_replayable index (g : uvm_gpu D) u g' :
  (wait_entry_valid index ;; fault_buffer_skip_replayable_entry caps index) g = (u, g') ->
  replayable g' = replayable g /\ batch g' = batch g.
Proof.
  destruct (wait_entry_valid_hw index g) as [d' Hw].
  unfold mbind, ST_bind. rewrite Hw.
  unfold fault_buffer_skip_replayable_entry, when. unfold mbind, ST_bind.
  destruct (conf_computing_enabled caps); cbn; intros [= <- <-]; done.
Qed.

Lemma flush_loop_drain n get put (g : uvm_gpu D) :
  let max := max_faults (replayable g) in
  let pending := Z.to_nat (replayable_fault_buffer_pending_entries get put max) in
  max < 2 ^ 32 -> ring_ok max get -> ring_ok max put -> (pending <= n)%nat ->
  flush_loop caps n get put g =
  (drain (ring_range max pending get) ;; mret put) g.
Proof.
  intros max pending Hmax. subst pending.
  revert get g max Hmax. induction n as [|n IH]; intros get g max Hmax Hg Hp Hn.
  - pose proof (pending_entries_bound max Hmax get put Hg Hp).
    assert (get = put) as -> by (apply (pending_entries_zero max Hmax); auto; lia).
    destruct (Z.to_nat _) eqn:E; [done|lia].
  - simpl. case (Z.eqb_spec get put); [intros ->|intros Hne].
    + replace (replayable_fault_buffer_pending_entries put put max) with 0; [done|].
      symmetry. by apply (pending_entries_zero max Hmax).
    + pose proof (pending_entries_bound max Hmax get put Hg Hp) as Hb.
      assert (replayable_fault_buffer_pending_entries get put max <> 0)
        by (rewrite pending_entries_zero by done; done).
      pose proof (pending_entries_next max Hmax get put Hg Hp Hne) as Hnext.
      destruct (Z.to_nat (replayable_fault_buffer_pending_entries get put max)) as [|m] eqn:Em;
        [lia|].
      simpl. unfold drain. cbn [for_each].
      unfold mbind, ST_bind at 1 2.
      destruct (wait_entry_valid_hw get g) as [d' Hw]. rewrite Hw.
      set (gw := g <| hw := d' |>).
      destruct (fault_buffer_skip_replayable_entry caps get gw) as [u g'] eqn:Es.
      destruct (skip_entry_replayable get g u g') as [Hr _].
      { unfold mbind, ST_bind. rewrite Hw. exact Es. }
      simpl. unfold mbind, ST_bind. rewrite Hw. fold gw. rewrite Es. simpl.
      replace m with (Z.to_nat (replayable_fault_buffer_pending_entries
        (ring_next max get) put (max_faults (replayable g')))) by (rewrite Hr; fold max; lia).
      replace max with (max_faults (replayable g')) by (by rewrite Hr).
      apply IH; rewrite Hr; fold max; auto using ring_next_ok. lia.
Qed.

Lemma drain_frame l (g g' : uvm_gpu D) u :
  drain l g = (u, g') -> replayable g' = replayable g /\ batch g' = batch g.
Proof.
  revert g u. induction l as [|i l IH]; intros g u; [by intros [= <- <-]|].
  unfold drain. cbn [for_each]. unfold mbind at 1, ST_bind at 1.
  destruct ((wait_entry_valid i ;; fault_buffer_skip_replayable_entry caps i) g)
    as [u1 g1] eqn:E1.
  apply skip_entry_replayable in E1 as [H1 H2]. intros H.
  apply IH in H as [H3 H4]. split; congruence.
Qed.

(** When its entries are pending, the list is drained. *)
Lemma drain_drained l (g : uvm_gpu D) : NoDup l -> (forall i, i ∈ l -> 0 <= i /\ hal_pending i (hw g)) ->
  exists g', drain l g = (tt, g') /\ drained l (hw g) (hw g') /\
    trace g' = (if conf_computing_enabled caps then replicate (length l) (EvDecryptIv 1) else []) ++ trace g.
Proof.
  revert g. induction l as [|i l IH]; intros g Hl Hp.
  { exists g. split; [done|]. split; [constructor|]. by destruct (conf_computing_enabled caps). }
  apply NoDup_cons in Hl as [Hi Hl]. destruct (Hp i) as [H0 Hpi]; [by left|].
  destruct (spin_until_valid_live (hal_polls i (hw g)) i g Hpi) as (d' & Hd & Hw); [done|].
  set (g1 := (fault_buffer_skip_replayable_entry caps i (g <| hw := d' |>)).2).
  assert (hw g1 = hal_entry_clear_valid i d' /\ trace g1 = (if conf_computing_enabled caps then [EvDecryptIv 1] else []) ++ trace g) as [Hh Ht].
  { subst g1. unfold fault_buffer_skip_replayable_entry. st_unfold. by destruct (conf_computing_enabled caps). }
  destruct (IH g1 Hl) as (g' & Hg' & Hdr & Htr).
  { intros j Hj. destruct (Hp j) as [Hj0 Hpj]; [by right|]. split; [done|]. rewrite Hh.
    apply hal_pending_clear; [done|done|by intros ->|]. by apply (polled_pending j i (hw g)). }
  exists g'. split; [|split].
  - unfold drain. cbn [for_each]. unfold mbind at 1, ST_bind at 1. unfold mbind at 1, ST_bind at 1. unfold wait_entry_valid, mbind at 1, ST_bind at 1, gets.
    rewrite Hw. destruct (fault_buffer_skip_replayable_entry caps i _) as [[] g1'] eqn:E. subst g1. simpl in *. exact Hg'.
  - rewrite Hh in Hdr. by apply (drained_cons _ _ _ d').
  - rewrite Htr, Ht. destruct (conf_computing_enabled caps); [|done]. simpl.
    by rewrite cons_middle, (assoc_L (++)), <- replicate_cons_app.
Qed.

End FlushLemmas.

(** ** Replay and flush *)

Section FlushSpec.
  Context {D : Type} `{Hal : FaultBufferHal D} `{!FaultBufferHalLive D} `{Ops : GpuOps D}.
  Variable P : module_params.
  Variable caps : gpu_caps.

Lemma push_replay_ok `{!GpuOpsOk D} type ctx (g : uvm_gpu D) :
  exists g', push_replay_on_gpu caps type ctx g = (NV_OK, g') /\
    trace g' = EvReplay type :: trace g /\
    hw g' = hw g /\
    cached_get (replayable g') = cached_get (replayable g) /\
    cached_put (replayable g') = cached_put (replayable g) /\
    batch g' = (if ctx && negb (bool_decide (type = UVM_FAULT_REPLAY_TYPE_START_ACK_ALL))
                then (batch g) <| num_replays ::= fun n => u32 (n + 1) |> else batch g).
Proof.
  unfold push_replay_on_gpu, try, uvm_push_begin_acquire, replay_tracker_add_push_safe.
  unfold mbind, ST_bind, gets. rewrite ok_push_begin. simpl.
  destruct ctx, type, (procfs_debug caps); cbn; simpl_bd; cbn; rewrite ok_tracker_add; cbn;
    (eexists; split; [reflexivity|]); by cbn.
Qed.

Lemma write_get_cached get (g : uvm_gpu D) u g' :
  write_get get g = (u, g') ->
  cached_get (replayable g') = get /\
  cached_put (replayable g') = cached_put (replayable g) /\
  batch g' = batch g /\ trace g' = trace g /\
  hw g' = (if cached_get (replayable g) =? get then hw g else hal_write_get get (hw g)).
Proof.
  unfold write_get, mbind, ST_bind, gets.
  case (Z.eqb_spec (cached_get (replayable g)) get); intros He; cbn; by intros [= <- <-].
Qed.

(** The state the flush loop starts from: unchanged, or with PUT read again
    and, before that, the replay tracker waited for. *)
Definition flush_start (mode : uvm_gpu_buffer_flush_mode_t) (g : uvm_gpu D) : uvm_gpu D :=
  if bool_decide (mode = UVM_GPU_BUFFER_FLUSH_MODE_CACHED_PUT) then g
  else
    let '(put, d) := hal_read_put (hw g) in
    let g := if bool_decide (mode = UVM_GPU_BUFFER_FLUSH_MODE_WAIT_UPDATE_PUT)
             then g <| replayable ::= fun r => r <| replay_tracker := [] |> |> else g in
    g <| hw := d |> <| replayable ::= fun r => r <| cached_put := put |> |>.

Lemma flush_prefix_ok `{!GpuOpsOk D} mode (k : ST (uvm_gpu D) NV_STATUS) (g : uvm_gpu D) :
  (try (if bool_decide (mode = UVM_GPU_BUFFER_FLUSH_MODE_WAIT_UPDATE_PUT)
        then replay_tracker_wait else mret NV_OK) (
   try (if bool_decide (mode = UVM_GPU_BUFFER_FLUSH_MODE_UPDATE_PUT) ||
           bool_decide (mode = UVM_GPU_BUFFER_FLUSH_MODE_WAIT_UPDATE_PUT)
        then try (hw_fault_buffer_flush_locked caps false) (read_put ;; mret NV_OK)
        else mret NV_OK) k)) g = k (flush_start mode g).
Proof.
  unfold try, replay_tracker_wait, hw_fault_buffer_flush_locked, read_put, hal, flush_start.
  unfold mbind, ST_bind, gets.
  destruct mode; simpl; [done| |]; rewrite ?ok_tracker_wait; simpl;
    destruct (conf_computing_enabled caps); simpl; rewrite ?ok_rm_flush; simpl;
    destruct (hal_read_put (hw g)) as [put d']; done.
Qed.

Lemma flush_start_frame mode (g : uvm_gpu D) :
  batch (flush_start mode g) = batch g /\ trace (flush_start mode g) = trace g /\
  cached_get (replayable (flush_start mode g)) = cached_get (replayable g) /\
  max_faults (replayable (flush_start mode g)) = max_faults (replayable g).
Proof. unfold flush_start. destruct mode; simpl; [done| |]; by destruct (hal_read_put (hw g)). Qed.

(** The entries a flush goes through: from GET to the PUT it works with. *)
Definition flush_range (mode : uvm_gpu_buffer_flush_mode_t) (g : uvm_gpu D) : list Z :=
  let max := max_faults (replayable g) in
  let get := cached_get (replayable g) in
  ring_range max (Z.to_nat (replayable_fault_buffer_pending_entries get
    (cached_put (replayable (flush_start mode g))) max)) get.

Lemma flush_ok `{!GpuOpsOk D} mode type ctx (g : uvm_gpu D) :
  let max := max_faults (replayable g) in
  let get := cached_get (replayable g) in
  let put := cached_put (replayable (flush_start mode g)) in
  max < 2 ^ 32 -> ring_ok max get -> ring_ok max put ->
  (forall i, i ∈ flush_range mode g -> hal_pending i (hw (flush_start mode g))) ->
  exists g' d',
    fault_buffer_flush_locked caps mode type ctx g = (NV_OK, g') /\
    drained (flush_range mode g) (hw (flush_start mode g)) d' /\
    hw g' = (if get =? put then d' else hal_write_get put d') /\
    cached_get (replayable g') = put /\ cached_put (replayable g') = put /\
    trace g' = EvReplay type ::
      (if conf_computing_enabled caps then replicate (length (flush_range mode g)) (EvDecryptIv 1) else []) ++ trace g /\
    batch g' = (if ctx && negb (bool_decide (type = UVM_FAULT_REPLAY_TYPE_START_ACK_ALL))
                then (batch g) <| num_replays ::= fun n => u32 (n + 1) |> else batch g).
Proof.
  intros max get put Hmax Hg Hp Hpend. destruct (flush_start_frame mode g) as (Hb1 & Ht1 & Hg1 & Hm1).
  unfold fault_buffer_flush_locked. rewrite flush_prefix_ok.
  unfold mbind at 1, ST_bind at 1, gets. cbv beta iota zeta. unfold mbind at 1, ST_bind at 1.
  rewrite flush_loop_drain by (rewrite ?Hm1, ?Hg1; auto). unfold mbind at 1, ST_bind at 1.
  rewrite Hm1, Hg1. fold max get put. change (ring_range max _ get) with (flush_range mode g).
  destruct (drain_drained caps (flush_range mode g) (flush_start mode g)) as (g2 & Ed & Hd & Ht2).
  { apply ring_range_nodup; [done|done|]. pose proof (pending_entries_bound max Hmax get put Hg Hp).
    fold max get put. lia. }
  { intros i Hi. split; [|by apply Hpend]. by apply ring_range_ok in Hi as [? _]. }
  rewrite Ed. simpl. pose proof (drain_frame caps _ _ _ _ Ed) as [Hr2 Hb2].
  unfold mbind, ST_bind. destruct (write_get _ g2) as [u3 g3] eqn:Ew.
  apply write_get_cached in Ew as (Hg3 & Hp3 & Hb3 & Ht3 & Hh3).
  destruct (push_replay_ok type ctx g3) as (g4 & -> & Ht4 & Hh4 & Hg4 & Hp4 & Hb4).
  exists g4, (hw g2). rewrite Hb4, Hb3, Hb2, Hb1, Hp4, Hp3, Hr2, Hg4, Hg3, Ht4, Ht3, Ht2, Ht1, Hh4, Hh3, Hr2, Hg1.
  repeat split; auto.
Qed.

End FlushSpec.

(** ** Initialisation *)

(** What a successful initialisation establishes. *)
Record fault_state_wf {D} (g : uvm_gpu D) : Prop := {
  wf_cache : Z.of_nat (length (fault_cache (batch g))) = max_faults (replayable g);
  wf_ordered : Z.of_nat (length (ordered_fault_cache (batch g))) = max_faults (replayable g);
  wf_utlbs : Z.of_nat (length (utlbs (batch g))) = utlb_count (replayable g);
  wf_batch_keys : Z.of_nat (length (prev_batch_keys (replayable g))) = max_faults (replayable g);
  wf_fetch_keys : Z.of_nat (length (prev_fetch_keys (prev_fetch (replayable g)))) =
                  max_faults (replayable g);
  wf_exact : table_size_ok (prev_fetch_exact_size (prev_fetch (replayable g)))
                           (prev_fetch_exact_mask (prev_fetch (replayable g)));
  wf_exact_slots : Z.of_nat (length (prev_fetch_exact_slots (prev_fetch (replayable g)))) =
                   prev_fetch_exact_size (prev_fetch (replayable g));
  wf_tags : table_size_ok (prev_fetch_tag_size (prev_fetch (replayable g)))
                          (prev_fetch_tag_mask (prev_fetch (replayable g)));
  wf_tag_table : Z.of_nat (length (prev_fetch_tag_table (prev_fetch (replayable g)))) =
                 prev_fetch_tag_size (prev_fetch (replayable g));
  wf_tag_epochs : Z.of_nat (length (prev_fetch_hash_epochs (prev_fetch (replayable g)))) =
                  prev_fetch_tag_size (prev_fetch (replayable g));
  wf_batch_size : 1 <= max_batch_size g <= max_faults (replayable g);
  wf_ratio : 0 <= replay_update_put_ratio (replayable g) <= 100;
}.

(** What a failed initialisation leaves: no array allocated, no handle. *)
Record fault_state_released {D} (g : uvm_gpu D) : Prop := {
  rel_cache : fault_cache (batch g) = [];
  rel_ordered : ordered_fault_cache (batch g) = [];
  rel_utlbs : utlbs (batch g) = [];
  rel_batch_keys : prev_batch_keys (replayable g) = [];
  rel_fetch_keys : prev_fetch_keys (prev_fetch (replayable g)) = [];
  rel_slots : prev_fetch_exact_slots (prev_fetch (replayable g)) = [];
  rel_tags : prev_fetch_tag_table (prev_fetch (replayable g)) = [];
  rel_epochs : prev_fetch_hash_epochs (prev_fetch (replayable g)) = [];
  rel_handle : fault_buffer_handle g = false;
}.

Section InitLemmas.
  Context {D : Type} `{Hal : FaultBufferHal D} `{!FaultBufferHalLive D} `{Ops : GpuOps D}.
  Variable P : module_params.
  Variable caps : gpu_caps.

Lemma try_alloc_ok alloc n (store : ST (uvm_gpu D) unit) k g st g' :
  try_alloc alloc n store k g = (st, g') -> st = NV_OK ->
  alloc n = true /\ (store ;; k) g = (st, g').
Proof. unfold try_alloc. destruct (alloc n); [done|]. by intros [= <- <-]. Qed.

Lemma init_replayable_wf alloc own (g g' : uvm_gpu D) :
  1 <= u32 (rm_buffer_size caps / hal_entry_size) ->
  0 <= uvm_perf_fault_replay_update_put_ratio P ->
  0 <= utlb_count (replayable g) ->
  fault_buffer_init_replayable_faults P caps alloc own g = (NV_OK, g') ->
  fault_state_wf g'.
Proof.
  intros Hmax Hratio Hutlb. unfold fault_buffer_init_replayable_faults.
  set (max := u32 _) in *. set (count := Z.min _ _).
  assert (0 <= max < 2 ^ 32) as Hm by (apply wrap_in_width; lia).
  pose proof (table_size_of_roundup (u32 (count * Z.max 1 (uvm_perf_fault_pred_exact_load_factor P)))
                (wrap_in_width 32 _ ltac:(lia))) as He.
  pose proof (table_size_of_roundup (Z.max 1 (max / 4))) as Ht.
  change (Z.max 64 _) with (exact_table_size P count) in He.
  change (Z.max 64 _) with (tag_table_size max) in Ht.
  intros H. unfold mbind at 1 2, ST_bind at 1 2 in H. simpl in H.
  repeat (apply try_alloc_ok in H as [_ H]; [|done]; unfold mbind, ST_bind in H; simpl in H).
  unfold try, mbind, ST_bind in H. destruct own; simpl in H; try done.
  unfold fault_buffer_reinit_replayable_faults, hal, mbind, ST_bind, gets in H. simpl in H.
  destruct (hal_read_get _) as [rget d1], (hal_read_put _) as [rput d2]. simpl in H.
  injection H as <-.
  assert (0 <= max / 4 < 2 ^ 32).
  { split; [apply Z.div_pos; lia|]. apply Z.div_lt_upper_bound; lia. }
  specialize (Ht ltac:(lia)).
  assert (0 < exact_table_size P count) by (unfold exact_table_size; lia).
  assert (0 < tag_table_size max) by (unfold tag_table_size; lia).
  split; simpl; rewrite ?length_replicate, ?Z2Nat.id; try done; try lia.
  unfold count, UVM_PERF_FAULT_BATCH_COUNT_MIN. lia.
Qed.

Lemma fault_buffer_deinit_released nr (g g' : uvm_gpu D) u :
  uvm_parent_gpu_fault_buffer_deinit caps nr g = (u, g') -> fault_state_released g'.
Proof.
  unfold uvm_parent_gpu_fault_buffer_deinit. unfold mbind at 1, ST_bind at 1.
  destruct (when _ nr g) as [u0 g0]. clear g.
  unfold fault_buffer_deinit_replayable_faults.
  unfold mbind, ST_bind, gets, when; simpl.
  case_ifs; intros [=]; subst; by split.
Qed.

End InitLemmas.

(** ** Properties *)

Lemma pending_entries_iter max : max < 2 ^ 32 -> forall n get put,
  ring_ok max get -> ring_ok max put ->
  Z.to_nat (replayable_fault_buffer_pending_entries get put max) = n ->
  Nat.iter n (fun i => ring_next max i) get = put /\
  forall k, (k < n)%nat -> Nat.iter k (fun i => ring_next max i) get <> put.
Proof.
  intros Hmax. induction n as [|n IH]; intros get put Hg Hp Hn.
  - pose proof (pending_entries_bound max Hmax get put Hg Hp).
    split; [simpl|lia]. apply (pending_entries_zero max Hmax); auto; lia.
  - assert (get <> put) as Hne.
    { intros Heq. apply (pending_entries_zero max Hmax get put Hg Hp) in Heq. lia. }
    pose proof (pending_entries_next max Hmax get put Hg Hp Hne).
    destruct (IH (ring_next max get) put) as [H1 H2]; auto using ring_next_ok; [lia|].
    split; [by rewrite Nat.iter_succ_r|].
    intros [|k] Hk; [done|]. rewrite Nat.iter_succ_r. apply H2. lia.
Qed.

(** The pending-entry count of the ring is exactly the number of increments
    (with wrap at [max_faults]) that take GET to PUT for the first time. *)
Theorem pending_entries_counts_steps max get put :
  max < 2 ^ 32 -> ring_ok max get -> ring_ok max put ->
  let n := Z.to_nat (replayable_fault_buffer_pending_entries get put max) in
  Nat.iter n (fun i => ring_next max i) get = put /\
  (forall k, (k < n)%nat -> Nat.iter k (fun i => ring_next max i) get <> put) /\
  Z.of_nat n < max.
Proof.
  intros Hmax Hg Hp n.
  destruct (pending_entries_iter max Hmax n get put Hg Hp eq_refl) as [H1 H2].
  pose proof (pending_entries_bound max Hmax get put Hg Hp).
  split; [done|]. split; [done|]. subst n. lia.
Qed.

Lemma pending_entries_counts_steps_witness :
  Nat.iter 3 (fun i => ring_next 8 i) 6 = 1 /\
  replayable_fault_buffer_pending_entries 6 1 8 = 3.
Proof.
  split; [|reflexivity].
  apply (pending_entries_counts_steps 8 6 1); unfold ring_ok; lia.
Defined.

(** C4: When the push, tracker and RM layers succeed, the indices are within the
    ring and the GPU finishes writing the entries it has handed out, a flush reads
    every entry from GET to the PUT it works with as valid before it clears it,
    in order and once, writes PUT to the GET register unless nothing was pending,
    leaves both cached indices at PUT, skips one decryption per entry with
    Confidential Computing, and then pushes one replay of the requested type,
    which is counted in the batch context only when it is not an ACK_ALL replay. *)
Theorem fault_buffer_flush_locked_spec
    {D} `{FaultBufferHal D} `{!FaultBufferHalLive D} `{GpuOps D} `{!GpuOpsOk D}
    caps mode type ctx (g : uvm_gpu D) :
  let max := max_faults (replayable g) in
  let get := cached_get (replayable g) in
  let put := cached_put (replayable (flush_start mode g)) in
  max < 2 ^ 32 -> ring_ok max get -> ring_ok max put ->
  (forall i, i ∈ flush_range mode g -> hal_pending i (hw (flush_start mode g))) ->
  exists g' d',
    fault_buffer_flush_locked caps mode type ctx g = (NV_OK, g') /\
    drained (flush_range mode g) (hw (flush_start mode g)) d' /\
    hw g' = (if get =? put then d' else hal_write_get put d') /\
    cached_get (replayable g') = put /\ cached_put (replayable g') = put /\
    trace g' = EvReplay type ::
      (if conf_computing_enabled caps then replicate (length (flush_range mode g)) (EvDecryptIv 1) else []) ++ trace g /\
    batch g' = (if ctx && negb (bool_decide (type = UVM_FAULT_REPLAY_TYPE_START_ACK_ALL))
                then (batch g) <| num_replays ::= fun n => u32 (n + 1) |> else batch g).
Proof. intros max get put. by apply flush_ok. Qed.

(** A device whose buffer holds two faults behind a PUT that wraps around. *)
Definition flush_example_gpu : uvm_gpu sim_device :=
  (sim_gpu 4 4 1 (mk_sim 3 1 [1]
    [sim_full_slot 2 (sim_packet 0 8192 UVM_FAULT_ACCESS_TYPE_READ);
     sim_empty_slot; sim_empty_slot;
     sim_full_slot 0 (sim_packet 0 4096 UVM_FAULT_ACCESS_TYPE_WRITE)] 0 0 []))
  <| replayable ::= fun r => r <| cached_get := 3 |> <| cached_put := 3 |> |>.

Lemma fault_buffer_flush_locked_spec_witness :
  flush_range UVM_GPU_BUFFER_FLUSH_MODE_UPDATE_PUT flush_example_gpu = [3; 0] /\
  exists g' d', fault_buffer_flush_locked (sim_caps 128) UVM_GPU_BUFFER_FLUSH_MODE_UPDATE_PUT
      UVM_FAULT_REPLAY_TYPE_START true flush_example_gpu = (NV_OK, g') /\
    drained [3; 0] (hw (flush_start UVM_GPU_BUFFER_FLUSH_MODE_UPDATE_PUT flush_example_gpu)) d' /\
    hw g' = hal_write_get 1 d' /\ cached_get (replayable g') = 1.
Proof.
  split; [reflexivity|].
  destruct (fault_buffer_flush_locked_spec (sim_caps 128) UVM_GPU_BUFFER_FLUSH_MODE_UPDATE_PUT
    UVM_FAULT_REPLAY_TYPE_START true flush_example_gpu) as (g' & d' & H1 & H2 & H3 & H4 & _).
  - vm_compute. reflexivity.
  - split; vm_compute; congruence.
  - split; vm_compute; congruence.
  - intros i Hi. change (i ∈ [3; 0]) in Hi. apply elem_of_cons in Hi as [->|Hi]; [by eexists|].
    apply list_elem_of_singleton in Hi as ->. by eexists.
  - by exists g', d'.
Defined.

(** Initialising the fault buffer either returns NV_OK with every array at
    its size, power-of-two predictor tables and a batch size within the
    buffer, or returns an error with every array and the RM handle released. *)
Theorem fault_buffer_init_wf_or_released
    {D} `{FaultBufferHal D} `{!FaultBufferHalLive D} `{GpuOps D}
    P caps init own alloc (nr_init : ST (uvm_gpu D) NV_STATUS) nr_deinit
    (g : uvm_gpu D) st g' :
  1 <= u32 (rm_buffer_size caps / hal_entry_size) ->
  0 <= uvm_perf_fault_replay_update_put_ratio P ->
  0 <= utlb_count (replayable g) ->
  (forall g, replayable (nr_init g).2 = replayable g /\ batch (nr_init g).2 = batch g /\
             max_batch_size (nr_init g).2 = max_batch_size g) ->
  uvm_parent_gpu_fault_buffer_init P caps init own alloc nr_init nr_deinit g = (st, g') ->
  (st = NV_OK -> fault_state_wf g') /\ (st <> NV_OK -> fault_state_released g').
Proof.
  intros Hmax Hratio Hutlb Hnr. unfold uvm_parent_gpu_fault_buffer_init.
  unfold mbind at 1, ST_bind at 1. simpl. unfold mbind at 1, ST_bind at 1.
  destruct (try _ _ _) as [st1 g1] eqn:E1. destruct (is_ok st1) eqn:Eok.
  - intros [= <- <-]. apply is_ok_true in Eok as ->. split; [intros _|done].
    unfold try, mbind, ST_bind, mret, ST_ret in E1. destruct (is_ok init) eqn:Ei; [|injection E1 as -> _; done].
    destruct (fault_buffer_init_replayable_faults _ _ _ _ _) as [st2 g2] eqn:E2.
    destruct (is_ok st2) eqn:Eok2; [|injection E1 as -> _; done].
    apply is_ok_true in Eok2 as ->. apply init_replayable_wf in E2 as [? ? ? ? ? ? ? ? ? ? ? ?]; auto.
    destruct (non_replayable_faults_supported caps).
    + destruct (Hnr g2) as (Hr & Hb & Hm). rewrite E1 in *. simpl in *.
      split; rewrite ?Hr, ?Hb, ?Hm; auto.
    + injection E1 as <-. by split.
  - unfold mbind, ST_bind. destruct (uvm_parent_gpu_fault_buffer_deinit _ _ _) as [u g2] eqn:E2.
    intros [= <- <-]. split; [intros ->; done|]. intros _.
    by apply fault_buffer_deinit_released in E2.
Qed.

Lemma fault_buffer_init_wf_or_released_witness :
  exists g', uvm_parent_gpu_fault_buffer_init default_params (sim_caps 128) NV_OK NV_OK
      (fun _ => true) (mret NV_OK) (mret tt) flush_example_gpu = (NV_OK, g') /\
    fault_state_wf g'.
Proof.
  destruct (uvm_parent_gpu_fault_buffer_init default_params (sim_caps 128) NV_OK NV_OK
    (fun _ => true) (mret NV_OK) (mret tt) flush_example_gpu) as [st g'] eqn:E.
  assert (st = NV_OK) as Hst.
  { change (fst (st, g') = NV_OK). rewrite <- E. vm_compute. reflexivity. }
  subst st. exists g'. split; [reflexivity|].
  eapply (fault_buffer_init_wf_or_released default_params (sim_caps 128) NV_OK NV_OK
    (fun _ => true) (mret NV_OK) (mret tt) flush_example_gpu NV_OK g');
    [vm_compute; congruence | vm_compute; congruence | vm_compute; congruence | | exact E | done].
  intros g. auto.
Defined.
