(* ===== verification/Frames.v ===== *)
(** * What the fault path leaves in the trace

    Fetching, preprocessing and dispatching faults only add replays, notifications
    and channel cancels to the trace, the batch counts a replay only when one was
    pushed, and the replay policy and the prefetch setting stay the same. *)

From S2P Require Import Prelude FaultTypes Gpu SimDevice FaultBuffer.

Local Open Scope Z_scope.

Definition is_replay (e : event) : bool := match e with EvReplay _ => true | _ => false end.

Definition background (e : event) : bool :=
  match e with
  | EvReplay _ | EvFaultNotify _ _ _ _ | EvDecryptIv _ | EvCancelGlobal _ | EvCancelTargeted _ _ _ => true
  | _ => false
  end.

(** What the fault path only reads. *)
Definition settings {D} (g : uvm_gpu D) : uvm_perf_fault_replay_policy_t * bool :=
  (replay_policy (replayable g), prefetch_faults_enabled g).

Definition grows {D} (g g' : uvm_gpu D) : Prop :=
  exists l, trace g' = l ++ trace g /\ Forall (fun e => background e = true) l /\
    (num_replays (batch g') <> num_replays (batch g) -> Exists (fun e => is_replay e = true) l) /\
    settings g' = settings g.

#[export] Instance grows_preorder D : PreOrder (grows (D := D)).
Proof.
  split; [by exists []|]. intros a b c (l & E1 & F1 & R1 & P1) (m & E2 & F2 & R2 & P2).
  exists (m ++ l). split; [by rewrite E2, E1, app_assoc|]. split; [by apply Forall_app|].
  split; [|congruence]. intros Hne. apply Exists_app.
  destruct (decide (num_replays (batch b) = num_replays (batch a))) as [E|]; [|by right; apply R1].
  left. apply R2. congruence.
Qed.

Lemma grows_same {D} (g g' : uvm_gpu D) :
  trace g' = trace g -> num_replays (batch g') = num_replays (batch g) ->
  settings g' = settings g -> grows g g'.
Proof. intros E1 E2 E3. exists []. split; [done|]. split; [constructor|]. split; [congruence|done]. Qed.

Section Frames.
  Context {D : Type} `{Hal : FaultBufferHal D} `{!FaultBufferHalLive D} `{Ops : GpuOps D}.
  Variable caps : gpu_caps.

  Abbreviation G := (respects (grows (D := D))).

Lemma emit_grows e : background e = true -> G (emit e).
Proof.
  intros He g a g' [= <- <-]. exists [e]. split; [done|]. by split; [repeat constructor|].
Qed.

Lemma upd_replayable_grows f : (forall r, replay_policy (f r) = replay_policy r) -> G (upd_replayable f).
Proof.
  intros Hf g a g' [= <- <-]. apply grows_same; [done|done|]. unfold settings. simpl. by rewrite Hf.
Qed.

Lemma upd_batch_grows f : (forall b, num_replays (f b) = num_replays b) -> G (upd_batch f).
Proof. intros Hf g a g' [= <- <-]. by apply grows_same; [|apply Hf|]. Qed.

Lemma hal_grows {A} (f : D -> A * D) : G (hal f).
Proof. intros g a g'. unfold hal. destruct (f (hw g)). intros [= <- <-]. by apply grows_same. Qed.

Lemma hal__grows f : G (hal_ f).
Proof. intros g a g' [= <- <-]. by apply grows_same. Qed.

#[local] Hint Resolve emit_grows upd_replayable_grows upd_batch_grows hal_grows hal__grows : respects.

Lemma spin_grows fuel index : G (spin_until_valid fuel index).
Proof. induction fuel; simpl; unfold skip; respects. Qed.

Lemma push_begin_grows : G uvm_push_begin_acquire.
Proof. unfold uvm_push_begin_acquire. respects. by apply grows_same. Qed.

Lemma tracker_add_grows : G replay_tracker_add_push_safe.
Proof. unfold replay_tracker_add_push_safe. respects. Qed.

Lemma tracker_wait_grows : G replay_tracker_wait.
Proof. unfold replay_tracker_wait, replay_tracker_clear. respects. Qed.

#[local] Hint Resolve spin_grows push_begin_grows tracker_add_grows tracker_wait_grows : respects.

Lemma push_cancel_grows inst global gpc client : G (push_cancel_on_gpu inst global gpc client).
Proof. unfold push_cancel_on_gpu, uvm_push_end_and_wait, replay_tracker_clear. respects. Qed.

(** The replay and its count are one step. *)
Lemma emit_replay_grows type ctx :
  G (emit (EvReplay type) ;;
     when (ctx && negb (bool_decide (type = UVM_FAULT_REPLAY_TYPE_START_ACK_ALL)))
       (upd_batch (fun b => b <| num_replays ::= fun n => u32 (n + 1) |>))).
Proof.
  intros g a g'. unfold mbind, ST_bind, emit, when, upd_batch, modify, skip, mret, ST_ret. intros E.
  exists [EvReplay type]. split; [by destruct (ctx && _); simplify_eq|]. split; [by repeat constructor|].
  split; [by repeat constructor|by destruct (ctx && _); simplify_eq].
Qed.

Lemma push_replay_grows type ctx : G (push_replay_on_gpu caps type ctx).
Proof.
  unfold push_replay_on_gpu. apply respects_try; [apply _|apply push_begin_grows|].
  apply respects_seq; [apply _|apply emit_replay_grows|]. respects.
  apply upd_replayable_grows. intros r. by case_match.
Qed.

Lemma write_get_grows get : G (write_get get).
Proof. unfold write_get, skip. respects. Qed.

Lemma read_put_grows : G read_put.
Proof. unfold read_put. respects. Qed.

#[local] Hint Resolve push_cancel_grows push_replay_grows write_get_grows read_put_grows : respects.

Lemma flush_loop_grows fuel : forall get put, G (flush_loop caps fuel get put).
Proof.
  induction fuel; simpl; unfold wait_entry_valid, fault_buffer_skip_replayable_entry; respects.
Qed.

Lemma hw_flush_grows move : G (hw_fault_buffer_flush_locked caps move).
Proof. unfold hw_fault_buffer_flush_locked. respects. Qed.

#[local] Hint Resolve flush_loop_grows hw_flush_grows : respects.

Lemma flush_locked_grows mode type ctx : G (fault_buffer_flush_locked caps mode type ctx).
Proof. unfold fault_buffer_flush_locked. respects. Qed.

End Frames.

#[export] Hint Resolve emit_grows upd_replayable_grows upd_batch_grows hal_grows hal__grows
  spin_grows push_begin_grows tracker_add_grows tracker_wait_grows push_cancel_grows push_replay_grows
  write_get_grows read_put_grows flush_loop_grows hw_flush_grows flush_locked_grows : respects.
