(* ===== verification/Predictor.v ===== *)
(** * The previous-fetch predictor

    The fetch-stage predictor that decides which faults a batch may skip: key
    comparators, hashing, lookup in its four modes with the single-slot memo,
    and the builds ([uvm_gpu_replayable_faults.c], lines 1060-1660). *)

From S2P Require Import Prelude FaultTypes Gpu Sorting.

Local Open Scope Z_scope.

(** ** Comparators *)

(** VA space pointers as numbers; the null pointer is 0. *)
Definition va_space_num (vs : option Z) : Z :=
  from_option (fun v => if v <? 0 then v else v + 1) 0 vs.

Lemma va_space_num_inj a b : va_space_num a = va_space_num b -> a = b.
Proof.
  destruct a as [a|], b as [b|]; simpl; repeat case Z.ltb_spec; intros; try done; try lia; f_equal; lia.
Qed.

Definition cmp_fault_instance_ptr (a b : uvm_fault_buffer_entry_t) : Z :=
  let result := uvm_gpu_phys_addr_cmp (instance_ptr a) (instance_ptr b) in
  if negb (result =? 0) then result
  else UVM_CMP_DEFAULT (ve_id (fault_source a)) (ve_id (fault_source b)).

Definition cmp_va_space (a b : option Z) : Z :=
  UVM_CMP_DEFAULT (va_space_num a) (va_space_num b).

Definition cmp_addr (a b : Z) : Z := UVM_CMP_DEFAULT a b.

Definition cmp_access_type (a b : uvm_fault_access_type_t) : Z := access_num b - access_num a.

Definition cmp_fault_entry_addr_access_sort (a b : uvm_fault_buffer_entry_t) : Z :=
  let result := cmp_va_space (va_space a) (va_space b) in
  if negb (result =? 0) then result
  else
    let result := cmp_addr (fault_address a) (fault_address b) in
    if negb (result =? 0) then result
    else cmp_access_type (fault_access_type a) (fault_access_type b).

(** ** Hashing *)

Definition prev_fetch_hash_mix (fault_address : Z) : Z :=
  let x := Z.shiftr fault_address 12 in
  let x := Z.lxor x (Z.shiftr x 32) in
  let x := u64 (x * 0x9E3779B97F4A7C15) in
  Z.lxor x (Z.shiftr x 29).

Definition prev_fetch_hash_index (fault_address mask : Z) : Z :=
  u32 (Z.land (prev_fetch_hash_mix fault_address) mask).

Definition prev_fetch_tag_value (fault_address : Z) : Z :=
  let tag := u16 (Z.land (Z.shiftr (prev_fetch_hash_mix fault_address) 16) 0xffff) in
  if tag =? 0 then 1 else tag.

Section Predictor.
  Context `{KernelSort}.
  Variable P : module_params.

Definition prev_fetch_predictor_use_hash_exact : bool := uvm_perf_fault_prev_fetch_mode P =? 2.
Definition prev_fetch_predictor_use_hash_approx : bool := uvm_perf_fault_prev_fetch_mode P =? 3.
Definition prev_fetch_predictor_use_coalesced_addr_bsearch : bool :=
  uvm_perf_fault_prev_fetch_mode P =? 1.
Definition prev_fetch_predictor_use_coalesced_pages : bool := 1 <=? uvm_perf_fault_prev_fetch_mode P.
Definition prev_fetch_predictor_enabled : bool := uvm_perf_fault_prev_fetch_predictor_enable P.
Definition prev_batch_predictor_enabled : bool := uvm_perf_fault_prev_batch_predictor_enable P.
Definition stale_detail_enabled : bool := uvm_perf_fault_stale_detail_enable P.

Definition prev_fetch_adaptive_should_run (p : prev_fetch_state) : bool :=
  negb (uvm_perf_fault_pred_adaptive_enable P) || prev_fetch_adaptive_active p.

Definition cmp_prev_fetch_key (a b : uvm_fault_prev_fetch_key_t) : Z :=
  if prev_fetch_predictor_use_coalesced_addr_bsearch
  then cmp_addr (fkey_address a) (fkey_address b)
  else
    let result := uvm_gpu_phys_addr_cmp (fkey_instance_ptr a) (fkey_instance_ptr b) in
    if negb (result =? 0) then result
    else
      let result := UVM_CMP_DEFAULT (fkey_ve_id a) (fkey_ve_id b) in
      if negb (result =? 0) then result
      else cmp_addr (fkey_address a) (fkey_address b).

(** ** Lookup *)

Definition key_of_entry (e : uvm_fault_buffer_entry_t) : uvm_fault_prev_fetch_key_t :=
  mk_fetch_key (instance_ptr e) (ve_id (fault_source e)) (fault_address e).

Definition prev_fetch_last_matches (p : prev_fetch_state) (e : uvm_fault_buffer_entry_t) : bool :=
  let last := prev_fetch_last_key p in
  prev_fetch_last_valid p &&
  (fkey_address last =? fault_address e) &&
  (fkey_ve_id last =? ve_id (fault_source e)) &&
  (uvm_gpu_phys_addr_cmp (fkey_instance_ptr last) (instance_ptr e) =? 0).

Definition prev_fetch_last_update (e : uvm_fault_buffer_entry_t) (hit : bool)
    (p : prev_fetch_state) : prev_fetch_state :=
  p <| prev_fetch_last_key := key_of_entry e |> <| prev_fetch_last_hit := hit |>
    <| prev_fetch_last_valid := true |>.

Definition exact_lookup (p : prev_fetch_state) (addr : Z) : bool :=
  let index := prev_fetch_hash_index addr (prev_fetch_exact_mask p) in
  let slot := prev_fetch_exact_slots p !!! Z.to_nat index in
  (slot_epoch slot =? prev_fetch_exact_generation p) && (slot_addr slot =? addr).

Definition approx_lookup (p : prev_fetch_state) (addr : Z) : bool :=
  let index := prev_fetch_hash_index addr (prev_fetch_tag_mask p) in
  (prev_fetch_hash_epochs p !!! Z.to_nat index =? prev_fetch_tag_generation p) &&
  (prev_fetch_tag_table p !!! Z.to_nat index =? prev_fetch_tag_value addr).

Definition bsearch_lookup (p : prev_fetch_state) (key : uvm_fault_prev_fetch_key_t) : bool :=
  let n := Z.to_nat (prev_fetch_key_count p) in
  bsearch_loop cmp_prev_fetch_key key (prev_fetch_keys p) n 0 n.

(** The answer of the tables, without the memo. *)
Definition table_lookup (p : prev_fetch_state) (e : uvm_fault_buffer_entry_t) : bool :=
  if prev_fetch_predictor_use_hash_exact then exact_lookup p (fault_address e)
  else if prev_fetch_predictor_use_hash_approx then approx_lookup p (fault_address e)
  else bsearch_lookup p (key_of_entry e).

Definition prev_fetch_keys_contains (p : prev_fetch_state) (e : uvm_fault_buffer_entry_t)
  : bool * prev_fetch_state :=
  if prev_fetch_last_matches p e then (prev_fetch_last_hit p, p)
  else
    let hit := table_lookup p e in
    (hit, prev_fetch_last_update e hit p).

(** ** Builds *)

Definition finalize_prev_fetch_predictor (key_count : Z) (p : prev_fetch_state)
    (b : uvm_fault_service_batch_context_t)
  : prev_fetch_state * uvm_fault_service_batch_context_t :=
  let skips := num_pred_fast_skip_stale (pred b) in
  let effective_count :=
    u32 ((if prev_fetch_predictor_use_coalesced_pages then num_coalesced_faults b
          else num_cached_faults b) + skips) in
  (p <| prev_fetch_key_count := key_count |>
     <| last_batch_fetch_skip_pct :=
          if effective_count =? 0 then 0
          else Z.min (u32 (skips * 100) / effective_count) 100 |>,
   b <| pred ::= fun c => c <| num_pred_fetch_build_keys := key_count |> |>).

(** [memset(epochs, 0, ...)] when the generation wraps to 0. *)
Definition advance_prev_fetch_generation (p : prev_fetch_state) : prev_fetch_state :=
  let g := u32 (prev_fetch_tag_generation p + 1) in
  if g =? 0 then
    p <| prev_fetch_hash_epochs ::= fmap (fun _ => 0) |> <| prev_fetch_tag_generation := 1 |>
  else p <| prev_fetch_tag_generation := g |>.

Definition advance_prev_fetch_exact_generation (p : prev_fetch_state) : prev_fetch_state :=
  let g := u32 (prev_fetch_exact_generation p + 1) in
  if g =? 0 then
    p <| prev_fetch_exact_slots ::= fmap (fun s => mk_slot (slot_addr s) 0) |>
      <| prev_fetch_exact_generation := 1 |>
  else p <| prev_fetch_exact_generation := g |>.

(** The entries the first [n] pointers of the ordered cache refer to. *)
Definition ordered_entries (b : uvm_fault_service_batch_context_t) (n : nat)
  : list uvm_fault_buffer_entry_t :=
  (fun i => fault_cache b !!! i) <$> take n (ordered_fault_cache b).

Definition exact_insert (addr : Z) (p : prev_fetch_state) : prev_fetch_state :=
  let index := prev_fetch_hash_index addr (prev_fetch_exact_mask p) in
  p <| prev_fetch_exact_slots ::=
         insert (Z.to_nat index) (mk_slot addr (prev_fetch_exact_generation p)) |>.

Definition update_prev_fetch_predictor_from_coalesced_hash_exact (p : prev_fetch_state)
    (b : uvm_fault_service_batch_context_t)
  : prev_fetch_state * uvm_fault_service_batch_context_t :=
  let p := advance_prev_fetch_exact_generation p in
  let l := ordered_entries b (Z.to_nat (num_coalesced_faults b)) in
  let p := foldl (fun p e => exact_insert (fault_address e) p) p l in
  finalize_prev_fetch_predictor (u32 (Z.of_nat (length l))) p b.

Definition approx_insert (addr : Z) (p : prev_fetch_state) : prev_fetch_state :=
  let index := Z.to_nat (prev_fetch_hash_index addr (prev_fetch_tag_mask p)) in
  p <| prev_fetch_hash_epochs ::= insert index (prev_fetch_tag_generation p) |>
    <| prev_fetch_tag_table ::= insert index (prev_fetch_tag_value addr) |>.

Definition update_prev_fetch_predictor_from_coalesced_hash_approx (p : prev_fetch_state)
    (b : uvm_fault_service_batch_context_t)
  : prev_fetch_state * uvm_fault_service_batch_context_t :=
  let p := advance_prev_fetch_generation p in
  let l := ordered_entries b (Z.to_nat (num_coalesced_faults b)) in
  let p := foldl (fun p e => approx_insert (fault_address e) p) p l in
  finalize_prev_fetch_predictor (u32 (Z.of_nat (length l))) p b.

(** [sort()] then the deduplication loop over the first [n] keys. *)
Definition sort_unique_keys (n : nat) (keys : list uvm_fault_prev_fetch_key_t)
  : list uvm_fault_prev_fetch_key_t * nat :=
  let keys := if (1 <? n)%nat then sort_prefix cmp_prev_fetch_key n keys else keys in
  if (0 <? n)%nat then dedup_loop cmp_prev_fetch_key (n - 1) 1 1 keys else (keys, n).

Definition fetch_cache_store (acc : list uvm_fault_prev_fetch_key_t * nat)
    (e : uvm_fault_buffer_entry_t) : list uvm_fault_prev_fetch_key_t * nat :=
  let '(keys, key_count) := acc in
  if filtered e && negb (pred_fetch_skip e) then acc
  else (<[key_count := key_of_entry e]> keys, S key_count).

Definition update_prev_fetch_predictor_from_fetch_cache (p : prev_fetch_state)
    (b : uvm_fault_service_batch_context_t)
  : prev_fetch_state * uvm_fault_service_batch_context_t :=
  let l := take (Z.to_nat (num_cached_faults b)) (fault_cache b) in
  let '(keys, n) := foldl fetch_cache_store (prev_fetch_keys p, O) l in
  let '(keys, n) := sort_unique_keys n keys in
  finalize_prev_fetch_predictor (Z.of_nat n) (p <| prev_fetch_keys := keys |>) b.

(** State of the coalesced build: keys, count, single_va_space, first VA space
    (unset before the first entry). *)
Definition coalesced_store
    (acc : list uvm_fault_prev_fetch_key_t * nat * bool * option (option Z))
    (e : uvm_fault_buffer_entry_t)
  : list uvm_fault_prev_fetch_key_t * nat * bool * option (option Z) :=
  let '(keys, key_count, single, first) := acc in
  let '(single, first) :=
    match first with
    | None => (single, Some (va_space e))
    | Some vs => (if bool_decide (va_space e = vs) then single else false, first)
    end in
  if single && (0 <? key_count)%nat &&
     (fkey_address (keys !!! (key_count - 1)%nat) =? fault_address e)
  then (keys, key_count, single, first)
  else
    let old := keys !!! key_count in
    let key := mk_fetch_key (mk_phys 0 (phys_aperture (fkey_instance_ptr old))) 0
                 (fault_address e) in
    (<[key_count := key]> keys, S key_count, single, first).

Definition update_prev_fetch_predictor_from_coalesced_bsearch (p : prev_fetch_state)
    (b : uvm_fault_service_batch_context_t)
  : prev_fetch_state * uvm_fault_service_batch_context_t :=
  let l := ordered_entries b (Z.to_nat (num_coalesced_faults b)) in
  let '(keys, n, single, _) := foldl coalesced_store (prev_fetch_keys p, O, true, None) l in
  let '(keys, n) :=
    if negb single && (1 <? n)%nat then sort_unique_keys n keys else (keys, n) in
  finalize_prev_fetch_predictor (Z.of_nat n) (p <| prev_fetch_keys := keys |>) b.

Definition update_prev_fetch_predictor (p : prev_fetch_state)
    (b : uvm_fault_service_batch_context_t)
  : prev_fetch_state * uvm_fault_service_batch_context_t :=
  if negb prev_fetch_predictor_enabled then
    (p <| prev_fetch_key_count := 0 |> <| last_batch_fetch_skip_pct := 0 |>,
     b <| pred ::= fun c => c <| num_pred_fetch_build_keys := 0 |> |>)
  else if prev_fetch_predictor_use_hash_exact then
    update_prev_fetch_predictor_from_coalesced_hash_exact p b
  else if prev_fetch_predictor_use_hash_approx then
    update_prev_fetch_predictor_from_coalesced_hash_approx p b
  else if prev_fetch_predictor_use_coalesced_pages then
    update_prev_fetch_predictor_from_coalesced_bsearch p b
  else update_prev_fetch_predictor_from_fetch_cache p b.

End Predictor.

(** ** Comparator laws *)

Lemma phys_addr_cmp_lex a b :
  uvm_gpu_phys_addr_cmp a b =
  lex (fun a b => UVM_CMP_DEFAULT (aperture_num (phys_aperture a)) (aperture_num (phys_aperture b)))
      (fun a b => UVM_CMP_DEFAULT (phys_address a) (phys_address b)) a b.
Proof. reflexivity. Qed.

Lemma phys_addr_cmp_order : cmp_order uvm_gpu_phys_addr_cmp.
Proof. apply cmp_order_lex; apply cmp_order_default. Qed.

Lemma phys_addr_cmp_zero a b : uvm_gpu_phys_addr_cmp a b = 0 <-> a = b.
Proof.
  rewrite phys_addr_cmp_lex, lex_zero, !UVM_CMP_DEFAULT_zero.
  destruct a as [aa ap], b as [ba bp]; simpl. split; [|by intros [= -> ->]].
  intros [Hap ->]. apply aperture_num_inj in Hap. by subst.
Qed.

Lemma cmp_fault_instance_ptr_order : cmp_order cmp_fault_instance_ptr.
Proof.
  apply (cmp_order_lex (fun a b => uvm_gpu_phys_addr_cmp (instance_ptr a) (instance_ptr b))).
  - apply (cmp_order_map instance_ptr), phys_addr_cmp_order.
  - apply cmp_order_default.
Qed.

Lemma cmp_fault_instance_ptr_zero a b :
  cmp_fault_instance_ptr a b = 0 <->
  instance_ptr a = instance_ptr b /\ ve_id (fault_source a) = ve_id (fault_source b).
Proof.
  change (cmp_fault_instance_ptr a b) with
    (lex (fun a b => uvm_gpu_phys_addr_cmp (instance_ptr a) (instance_ptr b))
         (fun a b => UVM_CMP_DEFAULT (ve_id (fault_source a)) (ve_id (fault_source b))) a b).
  by rewrite lex_zero, phys_addr_cmp_zero, UVM_CMP_DEFAULT_zero.
Qed.

Lemma cmp_fault_entry_addr_access_sort_order : cmp_order cmp_fault_entry_addr_access_sort.
Proof.
  apply (cmp_order_lex (fun a b => cmp_va_space (va_space a) (va_space b))).
  - apply cmp_order_default.
  - apply (cmp_order_lex (fun a b => cmp_addr (fault_address a) (fault_address b))).
    + apply cmp_order_default.
    + apply (cmp_order_sub (fun a => access_num (fault_access_type a))).
Qed.

Section KeyOrder.
  Variable P : module_params.

Lemma cmp_prev_fetch_key_order : cmp_order (cmp_prev_fetch_key P).
Proof.
  unfold cmp_prev_fetch_key. destruct (prev_fetch_predictor_use_coalesced_addr_bsearch P).
  - apply cmp_order_default.
  - apply (cmp_order_lex (fun a b => uvm_gpu_phys_addr_cmp (fkey_instance_ptr a) (fkey_instance_ptr b))).
    + apply (cmp_order_map fkey_instance_ptr), phys_addr_cmp_order.
    + apply (cmp_order_lex (fun a b => UVM_CMP_DEFAULT (fkey_ve_id a) (fkey_ve_id b)));
        apply cmp_order_default.
Qed.

Lemma cmp_prev_fetch_key_addr a b :
  uvm_perf_fault_prev_fetch_mode P = 1 ->
  cmp_prev_fetch_key P a b = 0 <-> fkey_address a = fkey_address b.
Proof.
  intros Hm. unfold cmp_prev_fetch_key, prev_fetch_predictor_use_coalesced_addr_bsearch.
  rewrite Hm. apply UVM_CMP_DEFAULT_zero.
Qed.

Lemma cmp_prev_fetch_key_full a b :
  uvm_perf_fault_prev_fetch_mode P <> 1 -> cmp_prev_fetch_key P a b = 0 <-> a = b.
Proof.
  intros Hm. unfold cmp_prev_fetch_key, prev_fetch_predictor_use_coalesced_addr_bsearch.
  rewrite (proj2 (Z.eqb_neq _ _) Hm).
  change (lex (fun a b => uvm_gpu_phys_addr_cmp (fkey_instance_ptr a) (fkey_instance_ptr b))
    (lex (fun a b => UVM_CMP_DEFAULT (fkey_ve_id a) (fkey_ve_id b))
         (fun a b => cmp_addr (fkey_address a) (fkey_address b))) a b = 0 <-> a = b).
  rewrite !lex_zero, phys_addr_cmp_zero. unfold cmp_addr. rewrite !UVM_CMP_DEFAULT_zero.
  destruct a, b; simpl. split; [by intros (-> & -> & ->)|by intros [= -> -> ->]].
Qed.

End KeyOrder.

(** ** The exact table (mode 2) *)

Definition exact_slot_of (mask addr : Z) : nat := Z.to_nat (prev_fetch_hash_index addr mask).

Lemma hash_index_bound size mask addr :
  table_size_ok size mask -> 0 <= prev_fetch_hash_index addr mask < size.
Proof.
  intros Ht. pose proof (table_index_bound size mask (prev_fetch_hash_mix addr) Ht) as Hb.
  unfold prev_fetch_hash_index. rewrite wrap_id; [done|].
  destruct Ht as (k & Hk & -> & _). unfold in_width.
  assert (2 ^ k <= 2 ^ 31) by (apply Z.pow_le_mono_r; lia). lia.
Qed.

(** The table has its size, and no slot carries an epoch of the future. *)
Record exact_table_ok (p : prev_fetch_state) : Prop := {
  exact_size_ok : table_size_ok (prev_fetch_exact_size p) (prev_fetch_exact_mask p);
  exact_len_ok : Z.of_nat (length (prev_fetch_exact_slots p)) = prev_fetch_exact_size p;
  exact_gen_ok : 1 <= prev_fetch_exact_generation p < 2 ^ 32;
  exact_epochs_ok : Forall (fun s => 0 <= slot_epoch s <= prev_fetch_exact_generation p)
                      (prev_fetch_exact_slots p);
}.

Lemma advance_exact_ok p :
  exact_table_ok p ->
  exact_table_ok (advance_prev_fetch_exact_generation p) /\
  Forall (fun s => slot_epoch s <> prev_fetch_exact_generation (advance_prev_fetch_exact_generation p))
    (prev_fetch_exact_slots (advance_prev_fetch_exact_generation p)).
Proof.
  intros [Hs Hl Hg He]. unfold advance_prev_fetch_exact_generation.
  case (Z.eqb_spec (u32 (prev_fetch_exact_generation p + 1)) 0); intros Hz; simpl.
  - split.
    + split; simpl; [done|by rewrite length_fmap|lia|].
      apply Forall_fmap, Forall_true. intros s. simpl. lia.
    + apply Forall_fmap, Forall_true. intros s. simpl. lia.
  - assert (prev_fetch_exact_generation p + 1 < 2 ^ 32) as Hlt.
    { destruct (decide (prev_fetch_exact_generation p + 1 = 2 ^ 32)) as [E|]; [|lia].
      rewrite E in Hz. by vm_compute in Hz. }
    rewrite wrap_id by (unfold in_width; lia). split.
    + split; simpl; [done|done|lia|]. eapply Forall_impl; [exact He|]. intros s ?. simpl in *. lia.
    + eapply Forall_impl; [exact He|]. intros s ?. simpl in *. lia.
Qed.

Definition exact_build (p : prev_fetch_state) (addrs : list Z) : prev_fetch_state :=
  foldl (fun p a => exact_insert a p) p addrs.

Lemma exact_build_frame p addrs :
  prev_fetch_exact_mask (exact_build p addrs) = prev_fetch_exact_mask p /\
  prev_fetch_exact_size (exact_build p addrs) = prev_fetch_exact_size p /\
  prev_fetch_exact_generation (exact_build p addrs) = prev_fetch_exact_generation p /\
  length (prev_fetch_exact_slots (exact_build p addrs)) = length (prev_fetch_exact_slots p).
Proof.
  revert p. induction addrs as [|a l IH]; intros p; [done|].
  destruct (IH (exact_insert a p)) as (H1 & H2 & H3 & H4).
  unfold exact_build in *. cbn [foldl]. rewrite H1, H2, H3, H4. unfold exact_insert. simpl.
  by rewrite length_insert.
Qed.

(** Each slot holds the last address built into it, or what it held before. *)
Lemma exact_build_slot p addrs i :
  (i < length (prev_fetch_exact_slots p))%nat ->
  prev_fetch_exact_slots (exact_build p addrs) !!! i =
  match last (filter (fun a => exact_slot_of (prev_fetch_exact_mask p) a = i) addrs) with
  | Some a => mk_slot a (prev_fetch_exact_generation p)
  | None => prev_fetch_exact_slots p !!! i
  end.
Proof.
  intros Hi. induction addrs as [|a l IH] using rev_ind; [done|].
  destruct (exact_build_frame p l) as (Hm & _ & Hg & Hlen).
  unfold exact_build in *. rewrite foldl_app. cbn [foldl].
  unfold exact_insert at 1. cbn -[prev_fetch_hash_index].
  rewrite Hm, Hg, filter_app, filter_cons, filter_nil. fold (exact_slot_of (prev_fetch_exact_mask p) a).
  case_decide as Hd.
  - rewrite last_snoc, <- Hd, list_lookup_total_insert_eq by (rewrite Hd, Hlen; lia). done.
  - rewrite app_nil_r, list_lookup_total_insert_ne by done. exact IH.
Qed.

Lemma exact_build_ok p addrs : exact_table_ok p -> exact_table_ok (exact_build p addrs).
Proof.
  intros [Hs Hl Hg He]. destruct (exact_build_frame p addrs) as (H1 & H2 & H3 & H4).
  split; rewrite ?H1, ?H2, ?H3, ?H4; auto.
  apply Forall_lookup. intros i s Hi.
  assert (i < length (prev_fetch_exact_slots p))%nat as Hlt.
  { rewrite <- H4. by eapply lookup_lt_Some. }
  apply list_lookup_total_correct in Hi. rewrite exact_build_slot in Hi by done.
  case_match; subst s; simpl; [lia|].
  rewrite Forall_forall in He. apply He.
  destruct (lookup_lt_is_Some_2 _ _ Hlt) as [x Hx].
  rewrite (list_lookup_total_correct _ _ _ Hx). by eapply list_elem_of_lookup_2.
Qed.

Lemma exact_lookup_build p addrs addr :
  exact_table_ok p ->
  Forall (fun s => slot_epoch s <> prev_fetch_exact_generation p) (prev_fetch_exact_slots p) ->
  exact_lookup (exact_build p addrs) addr = true <->
  last (filter (fun a => exact_slot_of (prev_fetch_exact_mask p) a =
                         exact_slot_of (prev_fetch_exact_mask p) addr) addrs) = Some addr.
Proof.
  intros [Hs Hl Hg He] Hfresh. destruct (exact_build_frame p addrs) as (H1 & H2 & H3 & H4).
  unfold exact_lookup. rewrite H1, H3.
  pose proof (hash_index_bound _ _ addr Hs) as Hb.
  fold (exact_slot_of (prev_fetch_exact_mask p) addr).
  assert (exact_slot_of (prev_fetch_exact_mask p) addr < length (prev_fetch_exact_slots p))%nat
    as Hlt by (unfold exact_slot_of; lia).
  rewrite exact_build_slot by done.
  destruct (last _) as [a|] eqn:El; simpl.
  - rewrite Z.eqb_refl. simpl. rewrite Z.eqb_eq. split; [by intros ->|by intros [= ->]].
  - split; [|done]. rewrite andb_true_iff, Z.eqb_eq. intros [Hc _].
    destruct (lookup_lt_is_Some_2 _ _ Hlt) as [x Hx].
    rewrite (list_lookup_total_correct _ _ _ Hx) in Hc.
    rewrite Forall_forall in Hfresh. by destruct (Hfresh x (list_elem_of_lookup_2 _ _ _ Hx)).
Qed.

Lemma last_filter_elem {A} (Q : A -> Prop) `{!forall x, Decision (Q x)} l x :
  last (filter Q l) = Some x -> x ∈ l.
Proof.
  intros Hl. apply last_Some in Hl as [l' Hl].
  assert (x ∈ filter Q l) as Hx by (rewrite Hl; set_solver).
  by apply list_elem_of_filter in Hx as [_ ?].
Qed.

Lemma finalize_fields P n p b p' b' :
  finalize_prev_fetch_predictor P n p b = (p', b') ->
  prev_fetch_key_count p' = n /\ prev_fetch_keys p' = prev_fetch_keys p /\
  prev_fetch_exact_slots p' = prev_fetch_exact_slots p /\
  prev_fetch_exact_size p' = prev_fetch_exact_size p /\
  prev_fetch_exact_mask p' = prev_fetch_exact_mask p /\
  prev_fetch_exact_generation p' = prev_fetch_exact_generation p /\
  fault_cache b' = fault_cache b /\ ordered_fault_cache b' = ordered_fault_cache b.
Proof. unfold finalize_prev_fetch_predictor. intros [= <- <-]. by simpl. Qed.

Definition build_addresses (b : uvm_fault_service_batch_context_t) : list Z :=
  fault_address <$> ordered_entries b (Z.to_nat (num_coalesced_faults b)).

Lemma hash_exact_update P p b p' b' addr :
  exact_table_ok p ->
  update_prev_fetch_predictor_from_coalesced_hash_exact P p b = (p', b') ->
  exact_table_ok p' /\
  (exact_lookup p' addr = true <->
   last (filter (fun a => exact_slot_of (prev_fetch_exact_mask p) a =
                          exact_slot_of (prev_fetch_exact_mask p) addr)
                (build_addresses b)) = Some addr) /\
  (exact_lookup p' addr = true -> addr ∈ build_addresses b).
Proof.
  intros Hok. unfold update_prev_fetch_predictor_from_coalesced_hash_exact.
  destruct (advance_exact_ok p Hok) as [Hok1 Hfresh].
  set (p1 := advance_prev_fetch_exact_generation p) in *.
  replace (foldl _ p1 _) with (exact_build p1 (build_addresses b))
    by (unfold exact_build, build_addresses; by rewrite foldl_fmap).
  intros Hf. pose proof (exact_build_ok p1 (build_addresses b) Hok1) as Hok2.
  assert (prev_fetch_exact_mask p1 = prev_fetch_exact_mask p) as Hmask.
  { subst p1. unfold advance_prev_fetch_exact_generation. by case_match. }
  pose proof (exact_lookup_build p1 (build_addresses b) addr Hok1 Hfresh) as Hlk.
  apply finalize_fields in Hf as (_ & _ & Hs & Hz & Hm & Hg & _).
  assert (exact_lookup p' addr = exact_lookup (exact_build p1 (build_addresses b)) addr) as Heq
    by (unfold exact_lookup; by rewrite Hs, Hm, Hg).
  rewrite Heq, Hlk, Hmask. destruct Hok2 as [? ? ? ?]. split; [|split; [done|]].
  - split; rewrite ?Hs, ?Hz, ?Hm, ?Hg; auto.
  - apply last_filter_elem.
Qed.

(** The direct-mapped predictor (mode 2) is exact: after a build, whatever
    the table held before and whether or not the generation counter wrapped,
    a lookup of an address hits exactly when that address is the last one of
    the batch stored in its slot; so a hit always is an address of the batch. *)
Theorem hash_exact_build_lookup P p b p' b' addr :
  exact_table_ok p ->
  update_prev_fetch_predictor_from_coalesced_hash_exact P p b = (p', b') ->
  exact_table_ok p' /\
  (exact_lookup p' addr = true <->
   last (filter (fun a => exact_slot_of (prev_fetch_exact_mask p) a =
                          exact_slot_of (prev_fetch_exact_mask p) addr)
                (build_addresses b)) = Some addr) /\
  (exact_lookup p' addr = true -> addr ∈ build_addresses b).
Proof. apply hash_exact_update. Qed.

(** ** The sorted key arrays (modes 0 and 1) *)

Section KeyArrays.
  Context `{KernelSort}.
  Variable P : module_params.
  Abbreviation cmpk := (cmp_prev_fetch_key P).

(** The first [n] keys are strictly sorted. *)
Definition keys_sorted (keys : list uvm_fault_prev_fetch_key_t) (n : nat) : Prop :=
  (n <= length keys)%nat /\ StronglySorted (cmp_lt cmpk) (take n keys).

Definition matches (x : uvm_fault_prev_fetch_key_t) (l : list uvm_fault_prev_fetch_key_t) : Prop :=
  exists k, k ∈ l /\ cmpk x k = 0.

Lemma cmp_eq_trans x y z : cmpk x y = 0 -> cmpk y z = 0 -> cmpk x z = 0.
Proof.
  pose proof (cmp_prev_fetch_key_order P) as Hc. intros H1 H2.
  pose proof (cmp_trans _ Hc x y z). pose proof (cmp_trans _ Hc z y x).
  pose proof (cmp_anti _ Hc x y). pose proof (cmp_anti _ Hc y z).
  pose proof (cmp_anti _ Hc x z). lia.
Qed.

Lemma sort_unique_keys_spec n keys keys' m :
  (n <= length keys)%nat -> sort_unique_keys P n keys = (keys', m) ->
  length keys' = length keys /\ (m <= n)%nat /\ keys_sorted keys' m /\
  forall x, matches x (take m keys') <-> matches x (take n keys).
Proof.
  pose proof (cmp_prev_fetch_key_order P) as Hc.
  intros Hn. unfold sort_unique_keys.
  set (ks := if (1 <? n)%nat then _ else _).
  assert (length ks = length keys) as Hlen.
  { subst ks. case_match; [apply length_sort_prefix|done]. }
  assert (StronglySorted (cmp_le cmpk) (take n ks) /\ take n ks ≡ₚ take n keys) as [Hso Hpe].
  { subst ks. case (Nat.ltb_spec 1 n); intros H1.
    - rewrite take_sort_prefix by done. split; [by apply ksort_sorted|apply ksort_perm].
    - split; [|done]. destruct n as [|[|n]]; [..|lia]; [constructor|].
      destruct keys as [|k keys]; [constructor|]. simpl. rewrite take_0.
      repeat constructor. }
  case (Nat.ltb_spec 0 n); intros H0.
  2:{ intros [= <- <-]. split; [done|]. split; [lia|]. split.
      - split; [lia|]. replace n with 0%nat by lia. rewrite take_0. constructor.
      - intros x. by replace n with 0%nat by lia. }
  destruct n as [|n]; [lia|]. intros Hd.
  pose proof (length_dedup_loop cmpk (S n - 1) 1 1 ks) as Hlen'. rewrite Hd in Hlen'. simpl in Hlen'.
  pose proof (dedup_loop_spec cmpk (S n - 1) 1 1 ks ltac:(lia) ltac:(lia)) as Hspec.
  rewrite Hd in Hspec. destruct Hspec as [Hm Htake].
  destruct ks as [|k ks]; [simpl in Hlen; lia|]. simpl in Htake.
  rewrite Nat.sub_0_r in Htake. simpl in Hso, Hpe. rewrite drop_0 in Htake.
  split; [by rewrite Hlen'|]. split; [lia|]. split.
  { split; [lia|]. rewrite Htake. by apply dedup_from_sorted. }
  intros x. unfold matches. rewrite Htake. split.
  - intros (y & Hy & Hxy). exists y. split; [|done]. simpl. rewrite <- Hpe.
    apply elem_of_cons in Hy as [->|Hy]; [by left|]. right. by eapply dedup_from_subset.
  - intros (y & Hy & Hxy). simpl in Hy. rewrite <- Hpe in Hy.
    destruct (dedup_from_covers Hc k (take n ks) y Hy) as (z & Hz & Hyz).
    exists z. split; [done|]. by eapply cmp_eq_trans.
Qed.

Lemma bsearch_lookup_spec p key :
  0 <= prev_fetch_key_count p ->
  keys_sorted (prev_fetch_keys p) (Z.to_nat (prev_fetch_key_count p)) ->
  bsearch_lookup P p key = true <->
  matches key (take (Z.to_nat (prev_fetch_key_count p)) (prev_fetch_keys p)).
Proof.
  intros H0 [Hn Hs]. unfold bsearch_lookup. set (n := Z.to_nat _) in *.
  assert (StronglySorted (cmp_le cmpk) (take n (prev_fetch_keys p))) as Hs'.
  { eapply StronglySorted_impl; [|exact Hs]. unfold cmp_lt, cmp_le. intros. lia. }
  rewrite (bsearch_loop_spec (cmp_prev_fetch_key_order P) key _ n Hn Hs' n 0 n) by lia.
  unfold matches. setoid_rewrite elem_of_take. split.
  - intros (i & Hi & Hc). destruct (lookup_lt_is_Some_2 (prev_fetch_keys p) i ltac:(lia)) as [x Hx].
    rewrite (list_lookup_total_correct _ _ _ Hx) in Hc. exists x. split; [|done]. exists i. split; [done|lia].
  - intros (x & (i & Hx & Hi) & Hc). exists i. split; [lia|].
    by rewrite (list_lookup_total_correct _ _ _ Hx).
Qed.

(** The keys that a fold stores one after the other. *)
Lemma fetch_cache_store_spec l : forall keys n,
  (n + length l <= length keys)%nat ->
  let '(keys', n') := foldl fetch_cache_store (keys, n) l in
  length keys' = length keys /\ (n' <= length keys)%nat /\
  take n' keys' = take n keys ++
    (key_of_entry <$> filter (fun e => filtered e && negb (pred_fetch_skip e) = false) l).
Proof.
  induction l as [|e l IH]; intros keys n Hn; simpl in *.
  { split; [done|]. split; [lia|]. by rewrite app_nil_r. }
  rewrite filter_cons. destruct (filtered e && negb (pred_fetch_skip e)) eqn:E.
  - rewrite decide_False by done. apply IH. lia.
  - rewrite decide_True by done. specialize (IH (<[n := key_of_entry e]> keys) (S n)).
    rewrite length_insert in IH. specialize (IH ltac:(lia)).
    destruct (foldl _ _ _) as [keys' n']. destruct IH as (H1 & H2 & H3).
    split; [done|]. split; [done|]. rewrite H3.
    rewrite (take_S_r _ n (key_of_entry e)) by (apply list_lookup_insert_eq; lia).
    rewrite take_insert_ge by lia. by rewrite <- app_assoc.
Qed.

End KeyArrays.

(** ** The coalesced build (mode 1) *)

Section CoalescedBuild.
  Context `{KernelSort}.
  Variable P : module_params.
  Hypothesis Hmode : uvm_perf_fault_prev_fetch_mode P = 1.

Definition key_addresses (keys : list uvm_fault_prev_fetch_key_t) (n : nat) : list Z :=
  fkey_address <$> take n keys.

(** What holds after the entries [l] have been stored. *)
Record coalesced_inv (cap : nat) (l : list uvm_fault_buffer_entry_t)
    (acc : list uvm_fault_prev_fetch_key_t * nat * bool * option (option Z)) : Prop := {
  ci_len : length acc.1.1.1 = cap;
  ci_count : (acc.1.1.2 <= length l)%nat;
  ci_addrs : forall a, a ∈ key_addresses acc.1.1.1 acc.1.1.2 <-> a ∈ fault_address <$> l;
  ci_single : acc.1.2 = true ->
    (forall e, e ∈ l -> acc.2 = Some (va_space e)) /\
    StronglySorted Z.lt (key_addresses acc.1.1.1 acc.1.1.2) /\
    forall e, last l = Some e -> last (key_addresses acc.1.1.1 acc.1.1.2) = Some (fault_address e);
  ci_first : acc.2 = None -> l = [];
}.

Lemma key_addresses_insert keys n k :
  (n < length keys)%nat ->
  key_addresses (<[n := k]> keys) (S n) = key_addresses keys n ++ [fkey_address k].
Proof.
  intros Hn. unfold key_addresses.
  rewrite (take_S_r _ n k) by (apply list_lookup_insert_eq; lia).
  by rewrite take_insert_ge, fmap_snoc by lia.
Qed.

Lemma key_addresses_last keys n a :
  (n <= length keys)%nat -> last (key_addresses keys n) = Some a ->
  (0 < n)%nat /\ fkey_address (keys !!! (n - 1)%nat) = a.
Proof.
  intros Hn. unfold key_addresses. destruct n as [|n]; [done|].
  destruct (lookup_lt_is_Some_2 keys n ltac:(lia)) as [x Hx].
  rewrite (take_S_r _ _ _ Hx), fmap_snoc, last_snoc. intros [= <-]. split; [lia|].
  replace (S n - 1)%nat with n by lia. by rewrite (list_lookup_total_correct _ _ _ Hx).
Qed.

Lemma addr_sort_same_space a b :
  va_space a = va_space b -> cmp_fault_entry_addr_access_sort a b <= 0 ->
  fault_address a <= fault_address b.
Proof.
  intros Hv. unfold cmp_fault_entry_addr_access_sort, cmp_va_space, cmp_addr. rewrite Hv.
  rewrite (proj2 (UVM_CMP_DEFAULT_zero (va_space_num (va_space b)) (va_space_num (va_space b))) eq_refl).
  simpl. rewrite UVM_CMP_DEFAULT_sgn.
  case (Z.eqb_spec (Z.sgn (fault_address a - fault_address b)) 0); simpl; lia.
Qed.

Lemma StronglySorted_snoc {A} (R : relation A) l x :
  StronglySorted R (l ++ [x]) <-> StronglySorted R l /\ Forall (fun y => R y x) l.
Proof.
  rewrite StronglySorted_app, Forall_forall. split.
  - intros (H1 & H2 & H3). split; [done|]. intros y Hy. apply H1; [done|]. by left.
  - intros [H1 H2]. split; [|split; [done|by repeat constructor]].
    intros y z Hy Hz. apply list_elem_of_singleton in Hz as ->. auto.
Qed.

(** What the updated [single_va_space] flag and first VA space mean. *)
Definition single_after (l : list uvm_fault_buffer_entry_t) (e : uvm_fault_buffer_entry_t)
    (single : bool) (first : option (option Z)) : Prop :=
  single = true ->
  (forall e', e' ∈ l ++ [e] -> first = Some (va_space e')) /\
  (forall y, y ∈ l -> fault_address y <= fault_address e).

Lemma coalesced_flag l e single first :
  StronglySorted (cmp_le cmp_fault_entry_addr_access_sort) (l ++ [e]) ->
  (single = true -> forall e, e ∈ l -> first = Some (va_space e)) ->
  exists single' first',
    match first with
    | None => (single, Some (va_space e))
    | Some vs => (if bool_decide (va_space e = vs) then single else false, first)
    end = (single', Some first') /\
    (single' = true -> single = true) /\ single_after l e single' (Some first').
Proof.
  intros [_ Hle]%StronglySorted_snoc Hall. rewrite Forall_forall in Hle.
  assert (forall first', (single = true -> forall y, y ∈ l -> va_space y = first') ->
    va_space e = first' -> single_after l e single (Some first')) as Hafter.
  { intros f Hf He H1. split.
    - intros e' [He'|He'%list_elem_of_singleton]%elem_of_app; [by rewrite (Hf H1)|by subst].
    - intros y Hy. apply addr_sort_same_space; [|by apply Hle]. by rewrite (Hf H1), He. }
  destruct first as [vs|].
  - case_bool_decide as Hv; eexists _, _; (split; [done|]).
    + split; [done|]. apply Hafter; [|done]. intros H1 y Hy. by injection (Hall H1 y Hy).
    + split; [done|]. by intros ?.
  - eexists _, _. split; [done|]. split; [done|]. apply Hafter; [|done].
    intros H1 y Hy. by discriminate (Hall H1 y Hy).
Qed.

Lemma coalesced_skip_inv cap l e keys n single first first' :
  (length l < cap)%nat -> coalesced_inv cap l (keys, n, single, first) ->
  single_after l e true (Some first') -> single = true ->
  (0 < n)%nat -> fkey_address (keys !!! (n - 1)%nat) = fault_address e ->
  coalesced_inv cap (l ++ [e]) (keys, n, true, Some first').
Proof.
  intros Hcap [Hlen Hcnt Haddr Hsingle _] Haft Hs Hn0 Hk; simpl in *.
  destruct (Haft eq_refl) as [Hall _]. destruct (Hsingle Hs) as (_ & Hso & _).
  assert (last (key_addresses keys n) = Some (fault_address e)) as Hl.
  { unfold key_addresses. destruct (lookup_lt_is_Some_2 keys (n - 1) ltac:(lia)) as [x Hx].
    replace n with (S (n - 1)) at 1 by lia. rewrite (take_S_r _ _ _ Hx), fmap_snoc, last_snoc.
    by rewrite (list_lookup_total_correct _ _ _ Hx) in Hk; rewrite Hk. }
  split; simpl; [done|rewrite length_app; simpl; lia| | |done].
  - intros a. rewrite Haddr, fmap_snoc, elem_of_app, list_elem_of_singleton.
    split; [by left|]. intros [?| ->]; [done|]. apply Haddr. by apply last_Some_elem_of.
  - intros _. split; [done|]. split; [done|]. intros e'. rewrite last_snoc. by intros [= <-].
Qed.

(** The address pushed is above every stored one when the VA space is single. *)
Lemma coalesced_push_sorted cap l e keys n first first' :
  (length l < cap)%nat -> coalesced_inv cap l (keys, n, true, first) ->
  single_after l e true (Some first') ->
  (0 <? n)%nat && (fkey_address (keys !!! (n - 1)%nat) =? fault_address e) = false ->
  StronglySorted Z.lt (key_addresses keys n ++ [fault_address e]).
Proof.
  intros Hcap [Hlen Hcnt Haddr Hsingle _] Haft E; simpl in *.
  destruct (Haft eq_refl) as [_ Hmono]. destruct (Hsingle eq_refl) as (_ & Hso & Hlast).
  apply StronglySorted_snoc. split; [done|]. apply Forall_forall. intros a Ha.
  destruct (last l) as [el|] eqn:El.
  2:{ apply last_None in El as ->. apply Haddr in Ha. by apply elem_of_nil in Ha. }
  specialize (Hlast el eq_refl). pose proof (Hmono el (last_Some_elem_of _ _ El)) as Hlel.
  destruct (key_addresses_last keys n _ ltac:(lia) Hlast) as [Hn0 Hkl].
  rewrite (proj2 (Nat.ltb_lt _ _) Hn0), Hkl in E. simpl in E. apply Z.eqb_neq in E.
  apply last_Some in Hlast as [l' Hl']. rewrite Hl' in Hso, Ha.
  apply StronglySorted_snoc in Hso as [_ Hso]. rewrite Forall_forall in Hso.
  apply elem_of_app in Ha as [Ha|Ha%list_elem_of_singleton]; [apply Hso in Ha; lia|subst; lia].
Qed.

Lemma coalesced_store_inv cap l e acc :
  (length l < cap)%nat ->
  StronglySorted (cmp_le cmp_fault_entry_addr_access_sort) (l ++ [e]) ->
  coalesced_inv cap l acc -> coalesced_inv cap (l ++ [e]) (coalesced_store acc e).
Proof.
  intros Hcap Hs. destruct acc as [[[keys n] single] first]. intros Hinv.
  pose proof Hinv as [Hlen Hcnt Haddr Hsingle _]. simpl in *.
  destruct (coalesced_flag l e single first Hs) as (single' & first' & -> & Himp & Haft).
  { intros H1. by destruct (Hsingle H1). }
  destruct (single' && (0 <? n)%nat && (fkey_address (keys !!! (n - 1)%nat) =? fault_address e)) eqn:E.
  - rewrite !andb_true_iff, Z.eqb_eq, Nat.ltb_lt in E. destruct E as [[-> E2] E3].
    by eapply coalesced_skip_inv; eauto.
  - split; simpl; [by rewrite length_insert|rewrite length_app; simpl; lia| | |done].
    + intros a. rewrite key_addresses_insert, fmap_snoc by lia. simpl.
      by rewrite !elem_of_app, Haddr.
    + intros ->. rewrite key_addresses_insert by lia. simpl.
      destruct (Haft eq_refl) as [Hall _]. rewrite (Himp eq_refl) in Hinv. split; [done|]. split.
      * eapply coalesced_push_sorted; eauto.
      * intros e'. rewrite !last_snoc. by intros [= <-].
Qed.

End CoalescedBuild.

Lemma StronglySorted_fmap_inv {A B} (f : A -> B) (R : relation B) l :
  StronglySorted R (f <$> l) -> StronglySorted (fun x y => R (f x) (f y)) l.
Proof.
  induction l as [|x l IH]; intros Hs; [constructor|].
  apply StronglySorted_inv in Hs as [Hs Hall]. constructor; [auto|].
  apply (proj1 (Forall_fmap f (R (f x)) l)), Hall.
Qed.

Section BuildLookup.
  Context `{KernelSort}.
  Variable P : module_params.

Lemma coalesced_fold_inv cap l keys :
  length keys = cap -> (length l <= cap)%nat ->
  StronglySorted (cmp_le cmp_fault_entry_addr_access_sort) l ->
  coalesced_inv cap l (foldl coalesced_store (keys, O, true, None) l).
Proof.
  intros Hk. induction l as [|e l IH] using rev_ind; intros Hl Hs; simpl.
  - split; simpl; auto.
    intros _. split; [by intros e ?%elem_of_nil|]. unfold key_addresses. rewrite take_0.
    split; [constructor|done].
  - rewrite length_app in Hl. simpl in Hl. rewrite foldl_app. cbn [foldl].
    apply coalesced_store_inv; [lia|done|]. apply IH; [lia|].
    by apply StronglySorted_snoc in Hs as [? _].
Qed.

(** In mode 1 the build and the binary search form a round trip: after a
    batch whose coalesced faults are in service order is recorded, a lookup
    hits exactly the addresses of that batch, in one VA space or many. *)
Theorem coalesced_bsearch_build_lookup p b p' b' e :
  uvm_perf_fault_prev_fetch_mode P = 1 ->
  (length (ordered_entries b (Z.to_nat (num_coalesced_faults b))) <= length (prev_fetch_keys p))%nat ->
  StronglySorted (cmp_le cmp_fault_entry_addr_access_sort)
    (ordered_entries b (Z.to_nat (num_coalesced_faults b))) ->
  update_prev_fetch_predictor_from_coalesced_bsearch P p b = (p', b') ->
  bsearch_lookup P p' (key_of_entry e) = true <-> fault_address e ∈ build_addresses b.
Proof.
  intros Hm Hcap Hs. unfold update_prev_fetch_predictor_from_coalesced_bsearch, build_addresses.
  set (l := ordered_entries _ _) in *.
  pose proof (coalesced_fold_inv _ l (prev_fetch_keys p) eq_refl Hcap Hs) as Hinv.
  destruct (foldl coalesced_store _ l) as [[[keys n] single] first].
  destruct Hinv as [Hlen Hcnt Haddr Hsingle _]; simpl in *.
  assert (forall ks m, matches P (key_of_entry e) (take m ks) <->
            fault_address e ∈ key_addresses ks m) as Hmatch.
  { intros ks m. unfold matches, key_addresses. rewrite list_elem_of_fmap.
    split; intros (k & H1 & H2).
    - apply (cmp_prev_fetch_key_addr P) in H2; [|done]. eauto.
    - exists k. split; [done|]. by apply (cmp_prev_fetch_key_addr P). }
  destruct (if negb single && (1 <? n)%nat then _ else _) as [keys' n'] eqn:Eu. intros Hf.
  assert (keys_sorted P keys' n' /\
          (matches P (key_of_entry e) (take n' keys') <-> matches P (key_of_entry e) (take n keys)))
    as [Hks Hsame].
  { destruct (negb single && (1 <? n)%nat) eqn:Eb.
    - apply sort_unique_keys_spec in Eu as (_ & _ & ? & Hx); [auto|lia].
    - injection Eu as <- <-. split; [|done]. split; [lia|].
      destruct single; simpl in Eb.
      + destruct (Hsingle eq_refl) as (_ & Hso & _). apply StronglySorted_fmap_inv in Hso.
        eapply StronglySorted_impl; [|exact Hso]. intros x y Hxy. simpl in Hxy.
        unfold cmp_lt, cmp_prev_fetch_key, prev_fetch_predictor_use_coalesced_addr_bsearch.
        rewrite Hm. simpl. unfold cmp_addr. rewrite UVM_CMP_DEFAULT_sgn. lia.
      + apply Nat.ltb_ge in Eb. destruct n as [|[|n]]; [..|lia]; [by constructor|].
        destruct keys as [|k keys]; simpl; [constructor|]. rewrite take_0. repeat constructor. }
  apply finalize_fields in Hf as (Hc & Hk & _). simpl in Hk.
  rewrite bsearch_lookup_spec by (rewrite ?Hk, ?Hc, ?Nat2Z.id; auto; lia).
  rewrite Hk, Hc, Nat2Z.id, Hsame, Hmatch. apply Haddr.
Qed.

(** In mode 0 the build from the fetch cache and the binary search form a
    round trip on the full (instance pointer, subcontext, address) key of the
    entries that were not coalesced away. *)
Theorem fetch_cache_build_lookup p b p' b' e :
  uvm_perf_fault_prev_fetch_mode P = 0 ->
  (Z.to_nat (num_cached_faults b) <= length (prev_fetch_keys p))%nat ->
  update_prev_fetch_predictor_from_fetch_cache P p b = (p', b') ->
  bsearch_lookup P p' (key_of_entry e) = true <->
  exists e', e' ∈ take (Z.to_nat (num_cached_faults b)) (fault_cache b) /\
    filtered e' && negb (pred_fetch_skip e') = false /\ key_of_entry e' = key_of_entry e.
Proof.
  intros Hm Hcap. unfold update_prev_fetch_predictor_from_fetch_cache.
  set (l := take _ (fault_cache b)).
  assert (length l <= length (prev_fetch_keys p))%nat by (subst l; rewrite length_take; lia).
  pose proof (fetch_cache_store_spec l (prev_fetch_keys p) 0 ltac:(lia)) as Hst.
  destruct (foldl fetch_cache_store _ l) as [keys n]. destruct Hst as (Hlen & Hn & Htake).
  destruct (sort_unique_keys P n keys) as [keys' n'] eqn:Eu. intros Hf.
  apply sort_unique_keys_spec in Eu as (_ & _ & Hks & Hsame); [|lia].
  apply finalize_fields in Hf as (Hc & Hk & _). simpl in Hk.
  rewrite bsearch_lookup_spec by (rewrite ?Hk, ?Hc, ?Nat2Z.id; auto; lia).
  rewrite Hk, Hc, Nat2Z.id, Hsame, Htake, take_0. simpl. unfold matches.
  setoid_rewrite (cmp_prev_fetch_key_full P); [|lia].
  split.
  - intros (k & (e' & -> & [Hf He']%list_elem_of_filter)%list_elem_of_fmap & Heq). eauto.
  - intros (e' & He' & Hf & Heq). exists (key_of_entry e'). split; [|done].
    apply list_elem_of_fmap. exists e'. split; [done|]. by apply list_elem_of_filter.
Qed.

End BuildLookup.

(** ** The single-slot memo *)

(** The memo holds what the tables answer for its key. *)
Definition memo_coherent (P : module_params) (p : prev_fetch_state) : Prop :=
  prev_fetch_last_valid p = true ->
  forall e, key_of_entry e = prev_fetch_last_key p -> table_lookup P p e = prev_fetch_last_hit p.

Lemma last_matches_key p e :
  prev_fetch_last_matches p e = true <->
  prev_fetch_last_valid p = true /\ key_of_entry e = prev_fetch_last_key p.
Proof.
  unfold prev_fetch_last_matches, key_of_entry.
  rewrite !andb_true_iff, !Z.eqb_eq, phys_addr_cmp_zero.
  destruct (prev_fetch_last_key p) as [ip ve ad]; simpl. split.
  - by intros (((-> & ->) & ->) & ->).
  - by intros (-> & [= -> -> ->]).
Qed.

Lemma table_lookup_key P p e e' :
  key_of_entry e = key_of_entry e' -> table_lookup P p e = table_lookup P p e'.
Proof.
  intros Hk. pose proof Hk as [= _ _ Ha]. unfold table_lookup. by rewrite Hk, Ha.
Qed.

Lemma contains_memo P p e hit p' :
  memo_coherent P p -> prev_fetch_keys_contains P p e = (hit, p') ->
  hit = table_lookup P p e /\ memo_coherent P p' /\
  forall e', table_lookup P p' e' = table_lookup P p e'.
Proof.
  intros Hco. unfold prev_fetch_keys_contains.
  destruct (prev_fetch_last_matches p e) eqn:E.
  - apply last_matches_key in E as [Hv Hk]. intros [= <- <-].
    split; [symmetry; by apply Hco|]. auto.
  - intros [= <- <-]. split; [done|]. split; [|done].
    intros _ e' He'. simpl in He'. change (table_lookup P p e' = table_lookup P p e).
    by apply table_lookup_key.
Qed.

(** Inside one fetch loop the memo is transparent: starting from a
    coherent memo, a lookup returns what the tables answer, changes no table
    and leaves the memo coherent. *)
Theorem memo_transparent P p e hit p' :
  memo_coherent P p -> prev_fetch_keys_contains P p e = (hit, p') ->
  hit = table_lookup P p e /\ memo_coherent P p' /\
  forall e', table_lookup P p' e' = table_lookup P p e'.
Proof. apply contains_memo. Qed.

(** *** Concrete states *)

Definition example_params (mode : Z) : module_params :=
  default_params <| uvm_perf_fault_prev_fetch_mode := mode |>
    <| uvm_perf_fault_pred_skip_enable := true |>.

(** Tables of 64 slots just before the generation counters wrap. *)
Definition example_prev_fetch : prev_fetch_state :=
  mk_prev_fetch (replicate 8 zero_fetch_key) 0 0
    (replicate 64 (mk_slot 0 0)) 64 63 (2 ^ 32 - 1) zero_fetch_key false false true 0
    (replicate 64 0) (replicate 64 0) 64 63 1.

Definition example_entry (vs addr : Z) (a : uvm_fault_access_type_t) : uvm_fault_buffer_entry_t :=
  zero_entry <| fault_address := addr |> <| fault_access_type := a |> <| va_space := Some vs |>
    <| instance_ptr := mk_phys 8192 UVM_APERTURE_VID |>.

(** A batch whose ordered cache refers to the given entries in order. *)
Definition example_batch (l : list uvm_fault_buffer_entry_t) : uvm_fault_service_batch_context_t :=
  mk_batch l (seq 0 (length l)) [] 0 (Z.of_nat (length l)) (Z.of_nat (length l)) None false 0 0
    zero_stale zero_pred 0 0 [] true None.

Definition two_space_batch : uvm_fault_service_batch_context_t :=
  example_batch [example_entry 1 8192 UVM_FAULT_ACCESS_TYPE_WRITE;
                 example_entry 1 8192 UVM_FAULT_ACCESS_TYPE_READ;
                 example_entry 2 4096 UVM_FAULT_ACCESS_TYPE_READ].

Lemma example_table_ok : exact_table_ok example_prev_fetch.
Proof. split; simpl; [exists 6; lia|done|lia|]. repeat constructor; simpl; lia. Qed.

Lemma hash_exact_build_lookup_witness :
  exact_lookup (update_prev_fetch_predictor_from_coalesced_hash_exact (example_params 2)
    example_prev_fetch two_space_batch).1 4096 = true /\
  4096 ∈ build_addresses two_space_batch.
Proof.
  destruct (update_prev_fetch_predictor_from_coalesced_hash_exact (example_params 2)
    example_prev_fetch two_space_batch) as [p' b'] eqn:E.
  destruct (hash_exact_build_lookup (example_params 2) example_prev_fetch two_space_batch
    p' b' 4096 example_table_ok E) as (_ & H1 & H2).
  assert (exact_lookup p' 4096 = true) as Hl by (apply H1; vm_compute; reflexivity).
  split; [exact Hl|exact (H2 Hl)].
Defined.

Lemma two_space_sorted :
  StronglySorted (cmp_le cmp_fault_entry_addr_access_sort) (ordered_entries two_space_batch 3).
Proof. repeat constructor; vm_compute; congruence. Qed.

Lemma coalesced_bsearch_build_lookup_witness :
  bsearch_lookup (example_params 1)
    (update_prev_fetch_predictor_from_coalesced_bsearch (example_params 1)
      example_prev_fetch two_space_batch).1
    (key_of_entry (example_entry 3 4096 UVM_FAULT_ACCESS_TYPE_READ)) = true.
Proof.
  destruct (update_prev_fetch_predictor_from_coalesced_bsearch (example_params 1)
    example_prev_fetch two_space_batch) as [p' b'] eqn:E.
  apply (coalesced_bsearch_build_lookup (example_params 1) example_prev_fetch two_space_batch p' b');
    [reflexivity|vm_compute; lia|exact two_space_sorted|exact E|].
  right. right. left.
Defined.

Lemma fetch_cache_build_lookup_witness :
  bsearch_lookup (example_params 0)
    (update_prev_fetch_predictor_from_fetch_cache (example_params 0)
      example_prev_fetch two_space_batch).1
    (key_of_entry (example_entry 3 4096 UVM_FAULT_ACCESS_TYPE_READ)) = true.
Proof.
  destruct (update_prev_fetch_predictor_from_fetch_cache (example_params 0)
    example_prev_fetch two_space_batch) as [p' b'] eqn:E.
  apply (fetch_cache_build_lookup (example_params 0) example_prev_fetch two_space_batch p' b');
    [reflexivity|vm_compute; lia|exact E|].
  exists (example_entry 2 4096 UVM_FAULT_ACCESS_TYPE_READ). split; [right; right; left|].
  split; reflexivity.
Defined.

Lemma memo_transparent_witness :
  (prev_fetch_keys_contains (example_params 2) example_prev_fetch
     (example_entry 1 4096 UVM_FAULT_ACCESS_TYPE_READ)).1 = false.
Proof.
  destruct (prev_fetch_keys_contains (example_params 2) example_prev_fetch
     (example_entry 1 4096 UVM_FAULT_ACCESS_TYPE_READ)) as [hit p'] eqn:E.
  destruct (memo_transparent (example_params 2) example_prev_fetch
     (example_entry 1 4096 UVM_FAULT_ACCESS_TYPE_READ) hit p') as (Hh & _).
  - intros Hv. by vm_compute in Hv.
  - exact E.
  - simpl. rewrite Hh. vm_compute. reflexivity.
Defined.

(** The memo outlives the batch it was filled in: a build does not reset
    it, so after the predictor is rebuilt for a batch without a page the next
    lookup of that page can still answer hit although the table misses. *)
Theorem memo_survives_build :
  exists p b p' b' e,
    exact_table_ok p /\ memo_coherent (example_params 2) p /\
    update_prev_fetch_predictor (example_params 2) p b = (p', b') /\
    (fault_address e ∉ build_addresses b) /\
    table_lookup (example_params 2) p' e = false /\
    (prev_fetch_keys_contains (example_params 2) p' e).1 = true.
Proof.
  set (e := example_entry 1 8192 UVM_FAULT_ACCESS_TYPE_READ).
  set (p1 := (update_prev_fetch_predictor (example_params 2) example_prev_fetch (example_batch [e])).1).
  set (p2 := (prev_fetch_keys_contains (example_params 2) p1 e).2).
  set (b := example_batch [example_entry 1 12288 UVM_FAULT_ACCESS_TYPE_READ]).
  exists p2, b, (update_prev_fetch_predictor (example_params 2) p2 b).1,
    (update_prev_fetch_predictor (example_params 2) p2 b).2, e.
  assert (exact_table_ok p1) as Hok1.
  { eapply (hash_exact_update (example_params 2) example_prev_fetch (example_batch [e]) p1
      (update_prev_fetch_predictor (example_params 2) example_prev_fetch (example_batch [e])).2 0);
      [apply example_table_ok|apply surjective_pairing]. }
  split; [by destruct Hok1|]. split.
  { eapply (contains_memo (example_params 2) p1 e); [|apply surjective_pairing].
    intros Hv. by vm_compute in Hv. }
  split; [apply surjective_pairing|].
  split; [change (8192 ∉ [12288]); rewrite list_elem_of_singleton; lia|].
  split; vm_compute; reflexivity.
Qed.
