(* ===== verification/Fetch.v ===== *)
(** * Fetching and coalescing faults

    The fetch limit, the merge of duplicate faults into a representative and
    the fetch loop with its adaptive-filter state machine
    ([uvm_gpu_replayable_faults.c], lines 1662-2121). *)

From S2P Require Import Prelude FaultTypes Gpu SimDevice Sorting FaultBuffer Predictor.

Local Open Scope Z_scope.

Inductive fault_fetch_mode_t : Type :=
| FAULT_FETCH_MODE_BATCH_READY
| FAULT_FETCH_MODE_ALL.

#[export] Instance fault_fetch_mode_eq_dec : EqDecision fault_fetch_mode_t.
Proof. solve_decision. Defined.

Definition is_mode_all (m : fault_fetch_mode_t) : bool := bool_decide (m = FAULT_FETCH_MODE_ALL).

Abbreviation cache_t := (list uvm_fault_buffer_entry_t).

(** ** Linux list primitives on the nodes embedded in the cache *)

Definition set_next (i v : nat) (c : cache_t) : cache_t := alter (fun e => e <| list_next := v |>) i c.
Definition set_prev (i v : nat) (c : cache_t) : cache_t := alter (fun e => e <| list_prev := v |>) i c.

Definition INIT_LIST_HEAD (i : nat) (c : cache_t) : cache_t := set_prev i i (set_next i i c).

Definition list_add (new head : nat) (c : cache_t) : cache_t :=
  let next := list_next (c !!! head) in
  set_next head new (set_prev new head (set_next new next (set_prev next new c))).

Definition list_replace (old new : nat) (c : cache_t) : cache_t :=
  let c := set_next new (list_next (c !!! old)) c in
  let c := set_prev (list_next (c !!! new)) new c in
  let c := set_prev new (list_prev (c !!! old)) c in
  set_next (list_prev (c !!! new)) new c.

(** The nodes after [head] in its list, at most [fuel] of them. *)
Fixpoint list_entries (fuel head cur : nat) (c : cache_t) : list nat :=
  match fuel with
  | O => []
  | S fuel =>
      let next := list_next (c !!! cur) in
      if (next =? head)%nat then [] else next :: list_entries fuel head next c
  end.

Definition merged_instances (c : cache_t) (head : nat) : list nat :=
  list_entries (length c) head head c.

(** ** Merging *)

Definition fetch_fault_buffer_merge_entry (cur last : nat) (c : cache_t) : cache_t :=
  let cur_access := fault_access_type (c !!! cur) in
  let c := alter (fun e =>
    e <| num_instances ::= fun n => u16 (n + 1) |>
      <| access_type_mask ::= fun m => uvm_fault_access_type_mask_set m cur_access |>) last c in
  let last_entry := c !!! last in
  if access_num (fault_access_type last_entry) <? access_num cur_access then
    let c := alter (fun e =>
      e <| access_type_mask := access_type_mask last_entry |>
        <| num_instances := num_instances last_entry |>) cur c in
    let c := alter (fun e => e <| filtered := true |>) last c in
    list_add last cur (list_replace last cur c)
  else
    let c := alter (fun e => e <| filtered := true |>) cur c in
    list_add cur last c.

Definition utlb_at (b : uvm_fault_service_batch_context_t) (u : Z) : uvm_fault_utlb_info_t :=
  utlbs b !!! Z.to_nat u.

Definition upd_utlb (u : Z) (f : uvm_fault_utlb_info_t -> uvm_fault_utlb_info_t)
    (b : uvm_fault_service_batch_context_t) : uvm_fault_service_batch_context_t :=
  b <| utlbs ::= alter f (Z.to_nat u) |>.

(** The entry a cache pointer refers to; a null pointer is not dereferenced. *)
Definition entry_of (b : uvm_fault_service_batch_context_t) (p : option nat)
  : uvm_fault_buffer_entry_t := from_option (cache_at b) zero_entry p.

Definition merge_into (last : option nat) (cur : nat) (b : uvm_fault_service_batch_context_t)
  : uvm_fault_service_batch_context_t :=
  match last with
  | Some last => b <| fault_cache ::= fetch_fault_buffer_merge_entry cur last |>
  | None => b
  end.

Definition fetch_fault_buffer_try_merge_entry (cur : nat) (u : Z) (is_same_instance_ptr : bool)
    (b : uvm_fault_service_batch_context_t) : bool * uvm_fault_service_batch_context_t :=
  let current_entry := cache_at b cur in
  let current_tlb := utlb_at b u in
  let last_tlb_entry := entry_of b (utlb_last_fault current_tlb) in
  let last_global_entry := entry_of b (last_fault b) in
  let is_last_tlb_fault :=
    (0 <? num_pending_faults current_tlb) &&
    (cmp_fault_instance_ptr current_entry last_tlb_entry =? 0) &&
    (fault_address current_entry =? fault_address last_tlb_entry) in
  let is_last_fault :=
    is_same_instance_ptr &&
    (fault_address current_entry =? fault_address last_global_entry) &&
    (access_num (fault_access_type current_entry) <=?
     access_num (fault_access_type last_global_entry)) in
  if is_last_tlb_fault then
    let b := merge_into (utlb_last_fault current_tlb) cur b in
    (true,
     if access_num (fault_access_type last_tlb_entry) <?
        access_num (fault_access_type current_entry)
     then upd_utlb u (fun t => t <| utlb_last_fault := Some cur |>) b else b)
  else if is_last_fault then
    let b' := merge_into (last_fault b) cur b in
    (true,
     if access_num (fault_access_type last_global_entry) <?
        access_num (fault_access_type current_entry)
     then b' <| last_fault := Some cur |> else b')
  else (false, b).

(** ** The fetch limit *)

Definition replayable_fault_buffer_fetch_limit (P : module_params) (max_batch : Z)
    (p : prev_fetch_state) (mode : fault_fetch_mode_t) (pending_faults : Z) : Z :=
  let fetch_limit :=
    if is_mode_all mode || negb (uvm_perf_fault_fetch_adaptive_enable P) then max_batch
    else if uvm_perf_fault_fetch_high_pending P <=? pending_faults then
      Z.min max_batch (uvm_perf_fault_fetch_high_count P)
    else if uvm_perf_fault_fetch_mid_pending P <=? pending_faults then
      Z.min max_batch (uvm_perf_fault_fetch_mid_count P)
    else Z.min max_batch (uvm_perf_fault_fetch_low_count P) in
  let fetch_limit :=
    if negb (is_mode_all mode) && prev_fetch_predictor_enabled P &&
       uvm_perf_fault_fetch_predictor_boost_enable P &&
       (uvm_perf_fault_fetch_predictor_boost_threshold_pct P <=? last_batch_fetch_skip_pct p)
    then Z.max fetch_limit (Z.min max_batch (uvm_perf_fault_fetch_predictor_boost_count P))
    else fetch_limit in
  Z.max fetch_limit 1.

(** ** One entry *)

(** The fields set once the packet has been parsed into the entry. *)
Definition init_fetched_entry (e : uvm_fault_buffer_entry_t) : uvm_fault_buffer_entry_t :=
  let fatal := fault_type_num UVM_FAULT_TYPE_FATAL <=? fault_type_num (fault_type e) in
  e <| fault_address ::= UVM_PAGE_ALIGN_DOWN |>
    <| is_fatal := fatal |>
    <| fatal_reason := if fatal then UvmEventFatalReasonInvalidFaultType
                       else UvmEventFatalReasonInvalid |>
    <| va_space := None |> <| filtered := false |> <| pred_prev_candidate := false |>
    <| pred_fetch_skip := false |> <| cancel_va_mode := UVM_FAULT_CANCEL_VA_MODE_ALL |>.

(** The entry opens a new coalesced fault and becomes the last fault. *)
Definition new_representative (i : nat) (u : Z) (is_same_instance_ptr : bool)
    (b : uvm_fault_service_batch_context_t) : uvm_fault_service_batch_context_t :=
  let b := if is_single_instance_ptr b && negb is_same_instance_ptr
           then b <| is_single_instance_ptr := false |> else b in
  let b := b <| fault_cache ::= fun c => INIT_LIST_HEAD i (alter (fun e =>
    e <| num_instances := 1 |>
      <| access_type_mask := uvm_fault_access_type_mask_bit (fault_access_type e) |>) i c) |> in
  let b := upd_utlb u (fun t =>
    t <| num_pending_faults ::= fun n => u32 (n + 1) |> <| utlb_last_fault := Some i |>) b in
  b <| last_fault := Some i |>.

(** Coalesce the entry at [i], the next free one of the cache: merged or new. *)
Definition coalesce_entry (may_filter : bool) (i : nat) (b : uvm_fault_service_batch_context_t)
  : bool * uvm_fault_service_batch_context_t :=
  let e := cache_at b i in
  let u := utlb_id (fault_source e) in
  let is_same_instance_ptr :=
    if (0 <? i)%nat then cmp_fault_instance_ptr e (entry_of b (last_fault b)) =? 0 else true in
  let '(merged, b) :=
    if (0 <? i)%nat && may_filter && negb (is_fatal e)
    then fetch_fault_buffer_try_merge_entry i u is_same_instance_ptr b
    else (false, b) in
  if merged then (true, b) else (false, new_representative i u is_same_instance_ptr b).

Section Fetch.
  Context {D : Type} `{Hal : FaultBufferHal D} `{!FaultBufferHalLive D} `{Ops : GpuOps D}.
  Context `{KernelSort}.
  Variable P : module_params.
  Variable caps : gpu_caps.

  Abbreviation M := (ST (uvm_gpu D)).

(** [UVM_SPIN_WHILE] with the early exit of the batch mode: false when the
    loop gives up because earlier entries are already cached. *)
Fixpoint spin_or_give_up (fuel : nat) (index : Z) (may_stop : bool) : M bool :=
  valid ← hal (hal_entry_is_valid index);
  if valid : bool then mret true
  else if may_stop then mret false
  else match fuel with
       | O => mret true
       | S fuel => spin_or_give_up fuel index may_stop
       end.

Definition wait_or_give_up (index : Z) (may_stop : bool) : M bool :=
  valid ← hal (hal_entry_is_valid index);
  if valid : bool then mret true
  else d ← gets hw; spin_or_give_up (hal_polls index d) index may_stop.

(** [parse_replayable_entry] into the cache entry at [i]. *)
Definition parse_entry (index : Z) (i : nat) : M NV_STATUS :=
  old ← gets (fun g => cache_at (batch g) i);
  r ← hal (fun d => let '(st, e, d) := hal_parse_replayable_entry index old d in ((st, e), d));
  upd_batch (upd_entry i (fun _ => r.2)) ;;
  mret r.1.

(** The predictor's verdict on a parsed entry; only asked when the filter is
    on for this batch. *)
Definition predictor_skips (mode : fault_fetch_mode_t) (adaptive : bool) (i : nat) : M bool :=
  e ← gets (fun g => cache_at (batch g) i);
  if prev_fetch_predictor_enabled P && uvm_perf_fault_pred_skip_enable P &&
     negb (is_mode_all mode) && negb (is_fatal e) && adaptive
  then
    p ← gets (fun g => prev_fetch (replayable g));
    let '(hit, p) := prev_fetch_keys_contains P p e in
    upd_fetch (fun _ => p) ;;
    mret hit
  else mret false.

Definition note_utlb (u : Z) (b : uvm_fault_service_batch_context_t)
  : uvm_fault_service_batch_context_t :=
  if max_utlb_id b <? u then b <| max_utlb_id := u |> else b.

(** The loop body after parsing; returns the new fault index and count of
    coalesced faults. *)
Definition process_entry (mode : fault_fetch_mode_t) (may_filter adaptive : bool)
    (i : nat) (num_coalesced : Z) : M (nat * Z) :=
  upd_batch (upd_entry i init_fetched_entry) ;;
  upd_batch (fun b => note_utlb (utlb_id (fault_source (cache_at b i))) b) ;;
  stale ← predictor_skips mode adaptive i;
  if stale : bool then
    upd_batch (fun b => b <| pred ::= fun c =>
      c <| num_pred_fast_skip_stale ::= fun n => u32 (n + 1) |> |>) ;;
    mret (i, num_coalesced)
  else
    b ← gets batch;
    let '(merged, b) := coalesce_entry may_filter i b in
    upd_batch (fun _ => b) ;;
    mret (S i, if merged then num_coalesced else u32 (num_coalesced + 1)).

(** The state of the loop's local variables when it stops. *)
Record fetch_result : Type := mk_fetch {
  fr_get : Z;
  fr_index : nat;
  fr_coalesced : Z;
  fr_status : NV_STATUS;
}.

(** One iteration of the loop: [inl] leaves it ([goto done]), [inr] goes on
    with the new fault index and count. *)
Definition fetch_one (mode : fault_fetch_mode_t) (may_filter adaptive : bool)
    (get : Z) (i : nat) (num_coalesced : Z) : M (fetch_result + nat * Z) :=
  ready ← wait_or_give_up get (negb (is_mode_all mode) && (0 <? i)%nat);
  if negb ready then mret (inl (mk_fetch get i num_coalesced NV_OK))
  else
    st ← parse_entry get i;
    if negb (is_ok st) then mret (inl (mk_fetch get i num_coalesced st))
    else
      r ← process_entry mode may_filter adaptive i num_coalesced;
      mret (inr r).

Fixpoint fetch_loop (fuel : nat) (mode : fault_fetch_mode_t) (may_filter adaptive : bool)
    (fetch_limit put get : Z) (i : nat) (num_coalesced : Z) : M fetch_result :=
  match fuel with
  | O => mret (mk_fetch get i num_coalesced NV_OK)
  | S fuel =>
      if negb (get =? put) && (is_mode_all mode || (Z.of_nat i <? fetch_limit)) then
        next ← fetch_one mode may_filter adaptive get i num_coalesced;
        match next with
        | inl res => mret res
        | inr (i, num_coalesced) =>
            max ← gets (fun g => max_faults (replayable g));
            fetch_loop fuel mode may_filter adaptive fetch_limit put (ring_next max get) i num_coalesced
        end
      else mret (mk_fetch get i num_coalesced NV_OK)
  end.

(** ** The adaptive filter (O6) *)

Definition adaptive_update (mode : fault_fetch_mode_t) (fetch_limit : Z) (i : nat)
    (skips : Z) (p : prev_fetch_state) : prev_fetch_state :=
  if uvm_perf_fault_pred_adaptive_enable P then
    let batch_hit_limit :=
      negb (is_mode_all mode) && (0 <? fetch_limit) && (fetch_limit <=? Z.of_nat i) in
    let cooldown := Z.max 1 (uvm_perf_fault_pred_adaptive_cooldown P) in
    if batch_hit_limit then
      p <| prev_fetch_adaptive_active := true |>
        <| prev_fetch_adaptive_cooldown_remaining := cooldown |>
    else if prev_fetch_adaptive_active p then
      if 0 <? skips then p <| prev_fetch_adaptive_cooldown_remaining := cooldown |>
      else if 1 <? prev_fetch_adaptive_cooldown_remaining p then
        p <| prev_fetch_adaptive_cooldown_remaining ::= fun n => u32 (n - 1) |>
      else p <| prev_fetch_adaptive_active := false |>
             <| prev_fetch_adaptive_cooldown_remaining := 0 |>
    else p
  else p.

(** [for (utlb_id = 0; utlb_id <= max_utlb_id; ++utlb_id)]: clear the counters. *)
Definition clear_utlbs (b : uvm_fault_service_batch_context_t)
  : uvm_fault_service_batch_context_t :=
  b <| utlbs ::= imap (fun u t =>
         if Z.of_nat u <=? max_utlb_id b
         then t <| num_pending_faults := 0 |> <| has_fatal_faults := false |> else t) |>
    <| max_utlb_id := 0 |>.

Definition update_predictor : M unit :=
  modify (fun g =>
    let '(p, b) := update_prev_fetch_predictor P (prev_fetch (replayable g)) (batch g) in
    g <| replayable ::= fun r => r <| prev_fetch := p |> |> <| batch := b |>).

(** From the label [done] on. *)
Definition fetch_done (mode : fault_fetch_mode_t) (adaptive : bool) (fetch_limit : Z)
    (res : fetch_result) : M NV_STATUS :=
  upd_batch (fun b => b <| pred ::= fun c =>
    c <| pred_adaptive_active_this_batch := adaptive |> |>) ;;
  skips ← gets (fun g => num_pred_fast_skip_stale (pred (batch g)));
  upd_fetch (adaptive_update mode fetch_limit (fr_index res) skips) ;;
  run ← gets (fun g => prev_fetch_adaptive_should_run P (prev_fetch (replayable g)));
  when (negb (prev_fetch_predictor_use_coalesced_pages P) && run) update_predictor ;;
  write_get (fr_get res) ;;
  upd_batch (fun b => b <| num_cached_faults := Z.of_nat (fr_index res) |>
                        <| num_coalesced_faults := fr_coalesced res |>) ;;
  mret (fr_status res).

(** Read PUT if nothing is known to be pending, and reset the batch. *)
Definition fetch_prologue : M unit :=
  r ← gets replayable;
  when (cached_get r =? cached_put r) read_put ;;
  upd_batch (fun b =>
    clear_utlbs (b <| is_single_instance_ptr := true |> <| last_fault := None |>)).

Definition fetch_fault_buffer_entries (mode : fault_fetch_mode_t) : M NV_STATUS :=
  adaptive ← gets (fun g => prev_fetch_adaptive_should_run P (prev_fetch (replayable g)));
  let in_pascal_cancel_path := negb (fault_cancel_va_supported caps) && is_mode_all mode in
  let may_filter := uvm_perf_fault_coalesce P && negb in_pascal_cancel_path in
  fetch_prologue ;;
  r ← gets replayable;
  max_batch ← gets max_batch_size;
  let get := cached_get r in
  let put := cached_put r in
  if get =? put then fetch_done mode adaptive 0 (mk_fetch get 0 0 NV_OK)
  else
    let pending := replayable_fault_buffer_pending_entries get put (max_faults r) in
    let fetch_limit :=
      replayable_fault_buffer_fetch_limit P max_batch (prev_fetch r) mode pending in
    res ← fetch_loop (Z.to_nat pending) mode may_filter adaptive fetch_limit put get 0 0;
    fetch_done mode adaptive fetch_limit res.

End Fetch.
