(* ===== verification/Coalesce.v ===== *)
(** * Correctness of fault coalescing

    An abstract account of coalescing, as steps on the list of fetched faults
    without the list pointers, its invariants, and the proof that the fetch
    loop follows it. *)

From S2P Require Import Prelude FaultTypes Gpu SimDevice Sorting FaultBuffer Predictor Fetch.

Local Open Scope Z_scope.

(** ** Entries without their list pointers *)

Definition view (e : uvm_fault_buffer_entry_t) : uvm_fault_buffer_entry_t :=
  e <| list_next := 0%nat |> <| list_prev := 0%nat |>.

Lemma view_set_next i v (c : cache_t) : view <$> set_next i v c = view <$> c.
Proof.
  unfold set_next. rewrite (list_fmap_alter view _ id) by by apply Forall_true.
  by apply list_alter_id.
Qed.

Lemma view_set_prev i v (c : cache_t) : view <$> set_prev i v c = view <$> c.
Proof.
  unfold set_prev. rewrite (list_fmap_alter view _ id) by by apply Forall_true.
  by apply list_alter_id.
Qed.

Lemma view_list_add n h c : view <$> list_add n h c = view <$> c.
Proof. unfold list_add. by rewrite view_set_next, view_set_prev, view_set_next, view_set_prev. Qed.

Lemma view_list_replace o n c : view <$> list_replace o n c = view <$> c.
Proof.
  unfold list_replace. by rewrite view_set_next, view_set_prev, view_set_prev, view_set_next.
Qed.

Lemma view_INIT_LIST_HEAD i c : view <$> INIT_LIST_HEAD i c = view <$> c.
Proof. unfold INIT_LIST_HEAD. by rewrite view_set_prev, view_set_next. Qed.

(** ** Steps *)

Definition access (e : uvm_fault_buffer_entry_t) : Z := access_num (fault_access_type e).

(** The last entry after another instance has been counted in it. *)
Definition absorb (e l : uvm_fault_buffer_entry_t) : uvm_fault_buffer_entry_t :=
  l <| num_instances ::= fun n => u16 (n + 1) |>
    <| access_type_mask ::= fun m => uvm_fault_access_type_mask_set m (fault_access_type e) |>.

(** A more intrusive entry takes over what its predecessor has collected. *)
Definition promote (e l : uvm_fault_buffer_entry_t) : uvm_fault_buffer_entry_t :=
  e <| access_type_mask := access_type_mask (absorb e l) |>
    <| num_instances := num_instances (absorb e l) |>.

Definition set_filtered (e : uvm_fault_buffer_entry_t) : uvm_fault_buffer_entry_t :=
  e <| filtered := true |>.

Definition fresh (e : uvm_fault_buffer_entry_t) : uvm_fault_buffer_entry_t :=
  e <| num_instances := 1 |>
    <| access_type_mask := uvm_fault_access_type_mask_bit (fault_access_type e) |>.

(** One fetched fault [e] is added to the faults [vs] of the batch; the flag is
    whether it was merged. *)
Inductive coalesce_step (e : uvm_fault_buffer_entry_t) (vs : list uvm_fault_buffer_entry_t)
  : bool -> list uvm_fault_buffer_entry_t -> Prop :=
| step_new :
    coalesce_step e vs false (vs ++ [fresh e])
| step_supersede k l :
    vs !! k = Some l -> key_of_entry l = key_of_entry e -> access l < access e ->
    filtered l = false -> utlb_id (fault_source l) = utlb_id (fault_source e) ->
    coalesce_step e vs true (<[k := set_filtered (absorb e l)]> vs ++ [promote e l])
| step_absorb k l :
    vs !! k = Some l -> key_of_entry l = key_of_entry e -> access e <= access l ->
    coalesce_step e vs true (<[k := absorb e l]> vs ++ [set_filtered e]).

(** [coalesced es vs]: adding the unfiltered faults [es] in order gives [vs]. *)
Inductive coalesced : list uvm_fault_buffer_entry_t -> list uvm_fault_buffer_entry_t -> Prop :=
| coalesced_nil : coalesced [] []
| coalesced_snoc es vs e m vs' :
    coalesced es vs -> filtered e = false -> coalesce_step e vs m vs' -> coalesced (es ++ [e]) vs'.

(** ** Invariants of the steps *)

Lemma lookup_insert_cases {A} (l : list A) k x y j z :
  l !! k = Some y -> <[k := x]> l !! j = Some z ->
  (j = k /\ z = x) \/ (j <> k /\ l !! j = Some z).
Proof.
  intros Hk Hj. destruct (decide (j = k)) as [->|Hne].
  - rewrite list_lookup_insert_eq in Hj by (by eapply lookup_lt_Some). left. split; congruence.
  - rewrite list_lookup_insert_ne in Hj by done. auto.
Qed.

Definition covers (r e : uvm_fault_buffer_entry_t) : Prop :=
  filtered r = false /\ key_of_entry r = key_of_entry e /\ access e <= access r.

Definition all_covered (vs : list uvm_fault_buffer_entry_t) : Prop :=
  forall j e, vs !! j = Some e -> exists r, r ∈ vs /\ covers r e.

Lemma step_length e vs m vs' : coalesce_step e vs m vs' -> length vs' = S (length vs).
Proof. intros []; rewrite length_app, ?length_insert; simpl; lia. Qed.

(** Replacing the entry at [k] by one with the same key and access. *)
Lemma covered_update vs k l l' t :
  vs !! k = Some l -> key_of_entry l' = key_of_entry l -> access l' = access l ->
  (forall y, y ∈ vs -> exists r, r ∈ <[k := l']> vs ++ [t] /\ covers r y) ->
  (exists r, r ∈ <[k := l']> vs ++ [t] /\ covers r t) ->
  all_covered (<[k := l']> vs ++ [t]).
Proof.
  intros Hk Hkey Hacc Hold Ht j x [Hx|[_ Hx]]%lookup_app_Some.
  - destruct (lookup_insert_cases _ _ _ _ _ _ Hk Hx) as [[-> ->]|[_ Hx']].
    + destruct (Hold l (list_elem_of_lookup_2 _ _ _ Hk)) as (r & Hr & H1 & H2 & H3).
      exists r. split; [done|]. split; [done|]. split; [congruence|lia].
    + apply Hold. by eapply list_elem_of_lookup_2.
  - by apply list_lookup_singleton_Some in Hx as [_ <-].
Qed.

Lemma elem_of_update_other {A} (vs : list A) k m x l' t :
  vs !! m = Some x -> m <> k -> x ∈ <[k := l']> vs ++ [t].
Proof.
  intros Hm Hne. apply elem_of_app. left. apply (list_elem_of_lookup_2 _ m).
  by rewrite list_lookup_insert_ne.
Qed.

Lemma elem_of_update_same {A} (vs : list A) k x l' t :
  vs !! k = Some x -> l' ∈ <[k := l']> vs ++ [t].
Proof.
  intros Hk. apply elem_of_app. left. apply (list_elem_of_lookup_2 _ k).
  apply list_lookup_insert_eq. by eapply lookup_lt_Some.
Qed.

Lemma elem_of_snoc {A} (vs : list A) t : t ∈ vs ++ [t].
Proof. apply elem_of_app. right. by apply list_elem_of_singleton. Qed.

Lemma step_covered e vs m vs' :
  filtered e = false -> all_covered vs -> coalesce_step e vs m vs' -> all_covered vs'.
Proof.
  intros Hf Hcov Hst. destruct Hst as [|k l Hk Hkey Hacc Hl Hu|k l Hk Hkey Hacc].
  - intros j x [Hx|[_ Hx]]%lookup_app_Some.
    + destruct (Hcov _ _ Hx) as (r & Hr & Hc). exists r. split; [|done]. apply elem_of_app. by left.
    + apply list_lookup_singleton_Some in Hx as [_ <-]. exists (fresh e). by split; [apply elem_of_snoc|].
  - apply (covered_update _ _ l); [done..| |].
    + intros y [i Hi]%list_elem_of_lookup.
      destruct (Hcov _ _ Hi) as (r & [m Hm]%list_elem_of_lookup & Hrf & Hrk & Hra).
      destruct (decide (m = k)) as [->|Hne].
      * rewrite Hk in Hm. injection Hm as <-. exists (promote e l). split; [apply elem_of_snoc|].
        split; [done|]. split; [by rewrite <- Hrk, Hkey|]. unfold access in *. simpl. lia.
      * exists r. split; [by eapply elem_of_update_other|done].
    + exists (promote e l). by split; [apply elem_of_snoc|].
  - assert (forall y, y ∈ vs -> exists r,
      r ∈ <[k := absorb e l]> vs ++ [set_filtered e] /\ covers r y) as Hold.
    { intros y [i Hi]%list_elem_of_lookup.
      destruct (Hcov _ _ Hi) as (r & [m Hm]%list_elem_of_lookup & Hc).
      destruct (decide (m = k)) as [->|Hne].
      - rewrite Hk in Hm. injection Hm as <-. exists (absorb e l). split; [|done].
        by eapply elem_of_update_same.
      - exists r. split; [by eapply elem_of_update_other|done]. }
    apply (covered_update _ _ l); [done..|].
    destruct (Hold l (list_elem_of_lookup_2 _ _ _ Hk)) as (r & Hr & H1 & H2 & H3).
    exists r. split; [done|]. split; [done|]. split; [by rewrite H2, Hkey|].
    unfold access in *. simpl. lia.
Qed.

(** ** Counting *)

Definition unfiltered_num (e : uvm_fault_buffer_entry_t) : Z := if filtered e then 0 else 1.

Definition utlb_num (u : Z) (e : uvm_fault_buffer_entry_t) : Z :=
  if filtered e then 0 else if utlb_id (fault_source e) =? u then 1 else 0.

Definition instances_num (e : uvm_fault_buffer_entry_t) : Z :=
  if filtered e then 0 else num_instances e.

Lemma step_unfiltered e vs m vs' :
  filtered e = false -> coalesce_step e vs m vs' ->
  sumz unfiltered_num vs' = sumz unfiltered_num vs + (if m then 0 else 1).
Proof.
  intros Hf [|k l Hk Hkey Hacc Hl Hu|k l Hk Hkey Hacc];
    rewrite sumz_app, sumz_singleton, ?(sumz_insert _ _ _ _ _ Hk);
    unfold unfiltered_num; simpl; rewrite ?Hf, ?Hl; try lia; destruct (filtered l); lia.
Qed.

Lemma step_utlb u e vs m vs' :
  filtered e = false -> coalesce_step e vs m vs' ->
  sumz (utlb_num u) vs' =
  sumz (utlb_num u) vs + (if m then 0 else if utlb_id (fault_source e) =? u then 1 else 0).
Proof.
  intros Hf [|k l Hk Hkey Hacc Hl Hu|k l Hk Hkey Hacc];
    rewrite sumz_app, sumz_singleton, ?(sumz_insert _ _ _ _ _ Hk);
    unfold utlb_num; simpl; rewrite ?Hf, ?Hl, ?Hu; try lia; destruct (filtered l); lia.
Qed.

(** Every representative counts itself, and no instance is counted twice. *)
Record instances_ok (vs : list uvm_fault_buffer_entry_t) : Prop := {
  inst_pos : forall e, e ∈ vs -> filtered e = false -> 1 <= num_instances e;
  inst_sum : sumz instances_num vs <= Z.of_nat (length vs);
}.

Lemma instances_bound vs e :
  instances_ok vs -> e ∈ vs -> filtered e = false -> 1 <= num_instances e <= Z.of_nat (length vs).
Proof.
  intros [Hp Hs] He Hf. split; [by apply Hp|].
  pose proof (sumz_elem_le instances_num vs e) as Hle. unfold instances_num at 2 in Hle.
  rewrite Hf in Hle. assert (num_instances e <= sumz instances_num vs); [|lia]. apply Hle; [|done].
  intros x Hx. unfold instances_num. destruct (filtered x) eqn:E; [lia|].
  pose proof (Hp x Hx E). lia.
Qed.

Lemma step_instances e vs m vs' :
  Z.of_nat (length vs) < 2 ^ 16 - 1 -> filtered e = false ->
  instances_ok vs -> coalesce_step e vs m vs' -> instances_ok vs'.
Proof.
  intros Hlen Hf Hok Hst. pose proof (step_length _ _ _ _ Hst) as Hl'.
  destruct Hst as [|k l Hk Hkey Hacc Hl Hu|k l Hk Hkey Hacc].
  - destruct Hok as [Hp Hs]. split.
    + intros x [Hx|Hx%list_elem_of_singleton]%elem_of_app; [by apply Hp|]. subst x. simpl. lia.
    + rewrite Hl', sumz_app, sumz_singleton. unfold instances_num at 2. simpl. rewrite Hf. lia.
  - pose proof (instances_bound vs l Hok (list_elem_of_lookup_2 _ _ _ Hk) Hl) as Hb.
    destruct Hok as [Hp Hs].
    assert (num_instances (promote e l) = num_instances l + 1) as Hn
      by (simpl; apply wrap_id; unfold in_width; lia).
    split.
    + intros x [[j Hx]%list_elem_of_lookup|Hx%list_elem_of_singleton]%elem_of_app Hxf.
      * destruct (lookup_insert_cases _ _ _ _ _ _ Hk Hx) as [[_ ->]|[_ Hx']]; [done|].
        apply Hp; [by eapply list_elem_of_lookup_2|done].
      * subst x. lia.
    + rewrite Hl', sumz_app, sumz_singleton, (sumz_insert _ _ _ _ _ Hk).
      unfold instances_num at 2 3 4. rewrite Hl. simpl filtered. rewrite Hf, Hn. simpl. lia.
  - destruct Hok as [Hp Hs].
    assert (filtered l = false -> num_instances (absorb e l) = num_instances l + 1) as Hn.
    { intros Hlf. pose proof (instances_bound vs l ltac:(by split) (list_elem_of_lookup_2 _ _ _ Hk) Hlf).
      simpl. apply wrap_id. unfold in_width. lia. }
    split.
    + intros x [[j Hx]%list_elem_of_lookup|Hx%list_elem_of_singleton]%elem_of_app Hxf.
      * destruct (lookup_insert_cases _ _ _ _ _ _ Hk Hx) as [[_ ->]|[_ Hx']].
        -- rewrite Hn by done. pose proof (Hp l (list_elem_of_lookup_2 _ _ _ Hk) Hxf). lia.
        -- apply Hp; [by eapply list_elem_of_lookup_2|done].
      * by subst x.
    + rewrite Hl', sumz_app, sumz_singleton, (sumz_insert _ _ _ _ _ Hk).
      unfold instances_num at 2 3 4. simpl filtered. destruct (filtered l); [lia|].
      rewrite Hn by done. lia.
Qed.

(** ** Access masks *)

Definition mask_ok (e : uvm_fault_buffer_entry_t) : Prop :=
  0 < access_type_mask e /\ fls (access_type_mask e) = access e.

Definition masks_ok (vs : list uvm_fault_buffer_entry_t) : Prop :=
  forall e, e ∈ vs -> filtered e = false -> mask_ok e.

Lemma mask_bit_pow a : uvm_fault_access_type_mask_bit a = 2 ^ access_num a.
Proof. by destruct a. Qed.

Lemma fls_mask_set m a :
  0 < m -> 0 < uvm_fault_access_type_mask_set m a /\
  fls (uvm_fault_access_type_mask_set m a) = Z.max (fls m) (access_num a).
Proof.
  intros Hm. unfold uvm_fault_access_type_mask_set, fls. rewrite mask_bit_pow.
  pose proof (access_num_bounds a).
  assert (0 < 2 ^ access_num a) by (apply Z.pow_pos_nonneg; lia).
  assert (0 <= Z.lor m (2 ^ access_num a)) by (apply Z.lor_nonneg; lia).
  split.
  - assert (Z.lor m (2 ^ access_num a) <> 0); [|lia]. rewrite Z.lor_eq_0_iff. lia.
  - rewrite Z.log2_lor, Z.log2_pow2 by lia. done.
Qed.

Lemma step_masks e vs m vs' :
  filtered e = false -> masks_ok vs -> coalesce_step e vs m vs' -> masks_ok vs'.
Proof.
  intros Hf Hok Hst.
  destruct Hst as [|k l Hk Hkey Hacc Hl Hu|k l Hk Hkey Hacc];
    intros x [[j Hx]%list_elem_of_lookup|Hx%list_elem_of_singleton]%elem_of_app Hxf.
  - apply Hok; [by eapply list_elem_of_lookup_2|done].
  - subst x. unfold mask_ok, access. simpl. rewrite mask_bit_pow.
    pose proof (access_num_bounds (fault_access_type e)).
    split; [by apply Z.pow_pos_nonneg; lia|]. unfold fls. by rewrite Z.log2_pow2 by lia.
  - destruct (lookup_insert_cases _ _ _ _ _ _ Hk Hx) as [[_ ->]|[_ Hx']]; [done|].
    apply Hok; [by eapply list_elem_of_lookup_2|done].
  - subst x. destruct (Hok l (list_elem_of_lookup_2 _ _ _ Hk) Hl) as [Hm Hfl].
    destruct (fls_mask_set (access_type_mask l) (fault_access_type e) Hm) as [H1 H2].
    unfold mask_ok, access in *. simpl. split; [done|]. rewrite H2, Hfl. lia.
  - destruct (lookup_insert_cases _ _ _ _ _ _ Hk Hx) as [[_ ->]|[_ Hx']].
    + destruct (Hok l (list_elem_of_lookup_2 _ _ _ Hk) Hxf) as [Hm Hfl].
      destruct (fls_mask_set (access_type_mask l) (fault_access_type e) Hm) as [H1 H2].
      unfold mask_ok, access in *. simpl. split; [done|]. rewrite H2, Hfl. lia.
    + apply Hok; [by eapply list_elem_of_lookup_2|done].
  - by subst x.
Qed.

(** ** Refinement: the merge on the cache *)

Lemma lookup_view (c : cache_t) (i : nat) e : c !! i = Some e -> (view <$> c) !! i = Some (view e).
Proof. intros H. by rewrite list_lookup_fmap, H. Qed.

Lemma merge_view_high (c : cache_t) cur last C L :
  c !! cur = Some C -> c !! last = Some L -> cur <> last -> access L < access C ->
  view <$> fetch_fault_buffer_merge_entry cur last c =
  <[last := set_filtered (absorb (view C) (view L))]> (<[cur := promote (view C) (view L)]> (view <$> c)).
Proof.
  intros Hc Hl Hne Hacc. unfold fetch_fault_buffer_merge_entry.
  rewrite (list_lookup_total_correct _ _ _ Hc).
  set (c1 := alter _ last c).
  assert (c1 !! last = Some (absorb C L)) as Hl1 by (subst c1; by rewrite list_lookup_alter_eq, Hl).
  rewrite (list_lookup_total_correct _ _ _ Hl1).
  change (fault_access_type (absorb C L)) with (fault_access_type L).
  unfold access in Hacc. rewrite (proj2 (Z.ltb_lt _ _) Hacc).
  rewrite view_list_add, view_list_replace. apply list_eq. intros j.
  rewrite list_lookup_fmap. destruct (decide (j = last)) as [->|Hj].
  - rewrite list_lookup_insert_eq by (rewrite length_insert, length_fmap; by eapply lookup_lt_Some).
    rewrite list_lookup_alter_eq, list_lookup_alter_ne, Hl1 by done. done.
  - rewrite list_lookup_alter_ne, list_lookup_insert_ne by done.
    destruct (decide (j = cur)) as [->|Hj2].
    + rewrite list_lookup_alter_eq, list_lookup_insert_eq
        by (rewrite length_fmap; by eapply lookup_lt_Some).
      subst c1. rewrite list_lookup_alter_ne, Hc by done. done.
    + subst c1. rewrite !list_lookup_alter_ne, list_lookup_insert_ne, list_lookup_fmap by done. done.
Qed.

Lemma merge_view_low (c : cache_t) cur last C L :
  c !! cur = Some C -> c !! last = Some L -> cur <> last -> access C <= access L ->
  view <$> fetch_fault_buffer_merge_entry cur last c =
  <[last := absorb (view C) (view L)]> (<[cur := set_filtered (view C)]> (view <$> c)).
Proof.
  intros Hc Hl Hne Hacc. unfold fetch_fault_buffer_merge_entry.
  rewrite (list_lookup_total_correct _ _ _ Hc).
  set (c1 := alter _ last c).
  assert (c1 !! last = Some (absorb C L)) as Hl1 by (subst c1; by rewrite list_lookup_alter_eq, Hl).
  rewrite (list_lookup_total_correct _ _ _ Hl1).
  change (fault_access_type (absorb C L)) with (fault_access_type L).
  unfold access in Hacc. rewrite (proj2 (Z.ltb_ge _ _) Hacc).
  rewrite view_list_add. apply list_eq. intros j.
  rewrite list_lookup_fmap. destruct (decide (j = last)) as [->|Hj].
  - rewrite list_lookup_insert_eq by (rewrite length_insert, length_fmap; by eapply lookup_lt_Some).
    rewrite list_lookup_alter_ne, Hl1 by done. done.
  - rewrite list_lookup_insert_ne by done.
    destruct (decide (j = cur)) as [->|Hj2].
    + rewrite list_lookup_alter_eq, list_lookup_insert_eq
        by (rewrite length_fmap; by eapply lookup_lt_Some).
      subst c1. rewrite list_lookup_alter_ne, Hc by done. done.
    + subst c1. rewrite !list_lookup_alter_ne, list_lookup_insert_ne, list_lookup_fmap by done. done.
Qed.

Lemma take_update_snoc {A} (V : list A) i last x y :
  (last < i)%nat -> (i < length V)%nat ->
  take (S i) (<[last := x]> (<[i := y]> V)) = <[last := x]> (take i V) ++ [y].
Proof.
  intros Hl Hi. rewrite take_insert_lt by lia.
  rewrite (take_S_r _ i y) by (by apply list_lookup_insert_eq).
  rewrite take_insert_ge by lia. rewrite insert_app_l; [done|]. rewrite length_take. lia.
Qed.

(** ** Refinement: one entry *)

Definition cached_views (b : uvm_fault_service_batch_context_t) (i : nat)
  : list uvm_fault_buffer_entry_t := view <$> take i (fault_cache b).

Lemma lookup_cached_views b i j e :
  (j < i)%nat -> fault_cache b !! j = Some e -> cached_views b i !! j = Some (view e).
Proof. intros Hj He. unfold cached_views. by rewrite list_lookup_fmap, lookup_take_lt, He. Qed.

(** The last-fault pointers and the pending counters agree with the faults. *)
Record tlb_inv (vs : list uvm_fault_buffer_entry_t) (b : uvm_fault_service_batch_context_t)
  : Prop := {
  ti_last : vs <> [] -> exists l, last_fault b = Some l /\ (l < length vs)%nat;
  ti_tlb : forall u t, utlbs b !! u = Some t -> num_pending_faults t <> 0 ->
    exists l e, utlb_last_fault t = Some l /\ vs !! l = Some e /\ filtered e = false /\
      utlb_id (fault_source e) = Z.of_nat u;
  ti_pending : forall u t, utlbs b !! u = Some t ->
    num_pending_faults t = sumz (utlb_num (Z.of_nat u)) vs;
}.

Lemma utlb_num_bounds u vs : 0 <= sumz (utlb_num u) vs <= Z.of_nat (length vs).
Proof.
  induction vs as [|e vs IH]; simpl; [lia|].
  assert (0 <= utlb_num u e <= 1) by (unfold utlb_num; repeat case_match; lia). lia.
Qed.

(** *** A new representative *)

Lemma new_representative_views i u same b C :
  fault_cache b !! i = Some C ->
  cached_views (new_representative i u same b) (S i) = cached_views b i ++ [fresh (view C)].
Proof.
  intros HC. unfold cached_views, new_representative.
  assert (forall b', fault_cache b' = fault_cache b ->
    view <$> take (S i) (INIT_LIST_HEAD i (alter fresh i (fault_cache b'))) =
    (view <$> take i (fault_cache b)) ++ [fresh (view C)]) as Hgen.
  { intros b' ->. rewrite fmap_take, view_INIT_LIST_HEAD, <- fmap_take.
    rewrite (take_S_r _ i (fresh C)) by (by rewrite list_lookup_alter_eq, HC).
    rewrite take_alter_ge by lia. by rewrite fmap_snoc. }
  destruct (is_single_instance_ptr b && negb same); by apply Hgen.
Qed.

Lemma new_representative_tlb i u same b C :
  fault_cache b !! i = Some C -> filtered C = false ->
  utlb_id (fault_source C) = u -> 0 <= u -> Z.of_nat i < 2 ^ 32 - 1 ->
  length (cached_views b i) = i -> tlb_inv (cached_views b i) b ->
  tlb_inv (cached_views (new_representative i u same b) (S i)) (new_representative i u same b).
Proof.
  intros HC Hf Hu Hu0 Hi Hlen [Hl Ht Hp].
  rewrite (new_representative_views _ _ _ _ _ HC). set (vs := cached_views b i) in *.
  assert (utlbs (new_representative i u same b) =
          alter (fun t => t <| num_pending_faults ::= fun n => u32 (n + 1) |>
                            <| utlb_last_fault := Some i |>) (Z.to_nat u) (utlbs b)) as Eu.
  { unfold new_representative. by destruct (is_single_instance_ptr b && negb same). }
  assert (last_fault (new_representative i u same b) = Some i) as El.
  { unfold new_representative. by destruct (is_single_instance_ptr b && negb same). }
  assert (forall v t', utlbs (new_representative i u same b) !! v = Some t' ->
    (v = Z.to_nat u /\ exists t, utlbs b !! v = Some t /\
       num_pending_faults t' = u32 (num_pending_faults t + 1) /\ utlb_last_fault t' = Some i) \/
    (v <> Z.to_nat u /\ utlbs b !! v = Some t')) as Hcases.
  { intros v t' Hv. rewrite Eu in Hv. destruct (decide (v = Z.to_nat u)) as [->|Hne].
    - rewrite list_lookup_alter_eq in Hv. destruct (utlbs b !! Z.to_nat u) as [t|] eqn:E; [|done].
      injection Hv as <-. left. eauto.
    - rewrite list_lookup_alter_ne in Hv by done. auto. }
  split.
  - intros _. exists i. split; [done|]. rewrite length_app. simpl. lia.
  - intros v t' Hv Hne. destruct (Hcases v t' Hv) as [(-> & t & Et & Ep & Ell)|[Hvn Ev]].
    + exists i, (fresh (view C)). split; [done|]. split.
      * rewrite lookup_app_r by lia. by rewrite Hlen, Nat.sub_diag.
      * split; [done|]. simpl. lia.
    + destruct (Ht v t' Ev Hne) as (l & e & H1 & H2 & H3 & H4).
      exists l, e. split; [done|]. split; [by apply lookup_app_l_Some|done].
  - intros v t' Hv.
    pose proof (step_utlb (Z.of_nat v) (view C) vs false _ Hf (step_new _ _)) as Hs. rewrite Hs. simpl.
    pose proof (utlb_num_bounds (Z.of_nat v) vs) as Hb. rewrite Hlen in Hb.
    destruct (Hcases v t' Hv) as [(-> & t & Et & Ep & Ell)|[Hvn Ev]].
    + rewrite Ep, (Hp _ _ Et), Hu. rewrite wrap_id by (unfold in_width; lia).
      case (Z.eqb_spec u (Z.of_nat (Z.to_nat u))); lia.
    + rewrite (Hp _ _ Ev), Hu. case (Z.eqb_spec u (Z.of_nat v)); lia.
Qed.

(** *** A merge *)

Lemma merge_cached_views i l b C L :
  fault_cache b !! i = Some C -> fault_cache b !! l = Some L -> (l < i)%nat ->
  cached_views (b <| fault_cache ::= fetch_fault_buffer_merge_entry i l |>) (S i) =
  if access L <? access C
  then <[l := set_filtered (absorb (view C) (view L))]> (cached_views b i) ++ [promote (view C) (view L)]
  else <[l := absorb (view C) (view L)]> (cached_views b i) ++ [set_filtered (view C)].
Proof.
  intros HC HL Hl. assert (i <> l) as Hne by lia.
  assert (i < length (fault_cache b))%nat as Hi by (by eapply lookup_lt_Some).
  unfold cached_views. simpl. rewrite fmap_take.
  case (Z.ltb_spec (access L) (access C)); intros Hacc.
  - rewrite (merge_view_high _ _ _ _ _ HC HL Hne Hacc), take_update_snoc by (rewrite ?length_fmap; lia).
    by rewrite <- fmap_take.
  - rewrite (merge_view_low _ _ _ _ _ HC HL Hne Hacc), take_update_snoc by (rewrite ?length_fmap; lia).
    by rewrite <- fmap_take.
Qed.

Lemma merge_length i l (c : cache_t) : length (fetch_fault_buffer_merge_entry i l c) = length c.
Proof.
  unfold fetch_fault_buffer_merge_entry, list_add, list_replace, set_next, set_prev.
  case_match; by rewrite !length_alter.
Qed.

(** A representative whose fault is not superseded stays one. *)
Lemma lookup_update_keeps (vs : list uvm_fault_buffer_entry_t) k l l' t j x :
  vs !! k = Some l -> vs !! j = Some x -> filtered x = false ->
  (j = k -> filtered l' = false) -> fault_source l' = fault_source l ->
  exists y, (<[k := l']> vs ++ [t]) !! j = Some y /\ filtered y = false /\
    fault_source y = fault_source x.
Proof.
  intros Hk Hj Hx Hf Hs. assert (j < length vs)%nat by (by eapply lookup_lt_Some).
  rewrite lookup_app_l by (by rewrite length_insert).
  destruct (decide (j = k)) as [->|Hne].
  - rewrite list_lookup_insert_eq by done. rewrite Hk in Hj. injection Hj as <-. eauto.
  - rewrite list_lookup_insert_ne by done. eauto.
Qed.

(** The counters and pointers after a step that merged the fault, when the
    superseded entry (if any) is no uTLB's last fault any more. *)
Lemma merged_tlb_inv vs b e vs' b' :
  filtered e = false -> tlb_inv vs b -> coalesce_step e vs true vs' ->
  (exists l, last_fault b' = Some l /\ (l < length vs')%nat) ->
  (forall v t', utlbs b' !! v = Some t' ->
     exists t, utlbs b !! v = Some t /\ num_pending_faults t' = num_pending_faults t) ->
  (forall v t', utlbs b' !! v = Some t' -> num_pending_faults t' <> 0 ->
     exists l e, utlb_last_fault t' = Some l /\ vs' !! l = Some e /\ filtered e = false /\
       utlb_id (fault_source e) = Z.of_nat v) ->
  tlb_inv vs' b'.
Proof.
  intros Hf [Hl Ht Hp] Hst Hlast Hpend Htlb. split; [by intros _|done|].
  intros v t' Hv. destruct (Hpend v t' Hv) as (t & Et & ->).
  rewrite (Hp v t Et), (step_utlb (Z.of_nat v) _ _ _ _ Hf Hst). lia.
Qed.

Section MergeRefines.
  Variables (i : nat) (b : uvm_fault_service_batch_context_t) (C : uvm_fault_buffer_entry_t).
  Hypothesis HC : fault_cache b !! i = Some C.
  Hypothesis Hf : filtered C = false.
  Hypothesis Hinv : tlb_inv (cached_views b i) b.

Lemma cached_views_length : length (cached_views b i) = i.
Proof.
  unfold cached_views. rewrite length_fmap, length_take.
  apply lookup_lt_Some in HC. lia.
Qed.

Lemma cached_view_entry l x : cached_views b i !! l = Some x ->
  (l < i)%nat /\ exists L, fault_cache b !! l = Some L /\ x = view L.
Proof.
  unfold cached_views. rewrite list_lookup_fmap, fmap_Some.
  intros (L & [HL Hl]%lookup_take_Some & ->). eauto.
Qed.

(** Merging into a fault that is at least as intrusive. *)
Lemma absorb_refines l x b' :
  cached_views b i !! l = Some x -> key_of_entry x = key_of_entry C -> access C <= access x ->
  b' = b <| fault_cache ::= fetch_fault_buffer_merge_entry i l |> ->
  coalesce_step (view C) (cached_views b i) true (cached_views b' (S i)) /\
  tlb_inv (cached_views b' (S i)) b'.
Proof.
  intros Hx Hkey Hacc ->.
  destruct (cached_view_entry l x Hx) as (Hli & L & HL & ->).
  destruct (ti_last _ _ Hinv) as (g & Hg & Hgl); [by intros E; rewrite E in Hx|].
  change (access (view L)) with (access L) in Hacc.
  rewrite (merge_cached_views i l b C L HC HL Hli), (proj2 (Z.ltb_ge _ _) Hacc).
  assert (coalesce_step (view C) (cached_views b i) true
    (<[l := absorb (view C) (view L)]> (cached_views b i) ++ [set_filtered (view C)])) as Hst
    by (apply (step_absorb _ _ l (view L)); auto).
  split; [done|]. apply (merged_tlb_inv _ b (view C) _ _ Hf Hinv Hst).
  - exists g. split; [done|]. rewrite (step_length _ _ _ _ Hst). lia.
  - intros v t' Hv'. eauto.
  - intros v t' Hv' Hp'. destruct (ti_tlb _ _ Hinv _ _ Hv' Hp') as (m & y & H1 & H2 & H3 & H4).
    destruct (lookup_update_keeps _ _ _ (absorb (view C) (view L)) (set_filtered (view C)) _ _
      Hx H2 H3) as (z & Hz & Hzf & Hzs); [|done|exists m, z; rewrite Hzs; auto].
    intros ->. rewrite Hx in H2. by injection H2 as <-.
Qed.

(** Superseding the last fault of the entry's own uTLB. *)
Lemma supersede_refines u t l x b' :
  utlbs b !! Z.to_nat u = Some t -> num_pending_faults t <> 0 -> 0 <= u ->
  utlb_id (fault_source C) = u -> utlb_last_fault t = Some l ->
  cached_views b i !! l = Some x -> key_of_entry x = key_of_entry C -> access x < access C ->
  b' = upd_utlb u (fun t => t <| utlb_last_fault := Some i |>)
         (b <| fault_cache ::= fetch_fault_buffer_merge_entry i l |>) ->
  coalesce_step (view C) (cached_views b i) true (cached_views b' (S i)) /\
  tlb_inv (cached_views b' (S i)) b'.
Proof.
  intros Ht Hpend Hu0 HuC Hlast Hx Hkey Hacc ->.
  destruct (ti_tlb _ _ Hinv _ _ Ht Hpend) as (l' & x' & Hl' & Hx' & Hxf & Hxu).
  assert (l' = l) as -> by congruence. assert (x' = x) as -> by congruence.
  destruct (cached_view_entry l x Hx) as (Hli & L & HL & ->).
  destruct (ti_last _ _ Hinv) as (g & Hg & Hgl); [by intros E; rewrite E in Hx|].
  set (L' := set_filtered (absorb (view C) (view L))). set (b' := upd_utlb _ _ _).
  assert (cached_views b' (S i) = <[l := L']> (cached_views b i) ++ [promote (view C) (view L)]) as ->.
  { pose proof (merge_cached_views i l b C L HC HL Hli) as Hv.
    change (access (view L)) with (access L) in Hacc.
    by rewrite (proj2 (Z.ltb_lt _ _) Hacc) in Hv. }
  assert (coalesce_step (view C) (cached_views b i) true
    (<[l := L']> (cached_views b i) ++ [promote (view C) (view L)])) as Hst.
  { apply (step_supersede _ _ l (view L)); auto. rewrite Hxu. simpl. lia. }
  split; [done|]. apply (merged_tlb_inv _ b (view C) _ _ Hf Hinv Hst).
  - exists g. split; [done|]. rewrite (step_length _ _ _ _ Hst). lia.
  - intros v t'. subst b'. simpl. destruct (decide (v = Z.to_nat u)) as [->|Hne].
    + rewrite list_lookup_alter_eq, Ht. intros [= <-]. eauto.
    + rewrite list_lookup_alter_ne by done. eauto.
  - intros v t'. subst b'. simpl. destruct (decide (v = Z.to_nat u)) as [->|Hne].
    + rewrite list_lookup_alter_eq, Ht. intros [= <-] _. exists i, (promote (view C) (view L)).
      split; [done|]. split; [|split; [done|simpl; lia]].
      rewrite lookup_app_r by (rewrite length_insert, cached_views_length; lia).
      by rewrite length_insert, cached_views_length, Nat.sub_diag.
    + rewrite list_lookup_alter_ne by done. intros Hv' Hp'.
      destruct (ti_tlb _ _ Hinv _ _ Hv' Hp') as (m & y & H1 & H2 & H3 & H4).
      destruct (lookup_update_keeps _ _ _ L' (promote (view C) (view L)) _ _ Hx H2 H3)
        as (z & Hz & Hzf & Hzs); [|done|exists m, z; rewrite Hzs; auto].
      intros ->. rewrite Hx in H2. injection H2 as <-. simpl in *. lia.
Qed.

End MergeRefines.

(** *** The whole decision *)

Lemma cache_at_lookup b i e : fault_cache b !! i = Some e -> cache_at b i = e.
Proof. intros H. unfold cache_at. by apply list_lookup_total_correct. Qed.

Lemma same_key_intro a b :
  cmp_fault_instance_ptr a b = 0 -> fault_address a = fault_address b ->
  key_of_entry a = key_of_entry b.
Proof. intros [H1 H2]%cmp_fault_instance_ptr_zero H3. unfold key_of_entry. congruence. Qed.

Lemma coalesce_entry_refines mf i b C m b' :
  fault_cache b !! i = Some C -> filtered C = false ->
  0 <= utlb_id (fault_source C) < Z.of_nat (length (utlbs b)) -> Z.of_nat i < 2 ^ 32 - 1 ->
  tlb_inv (cached_views b i) b -> coalesce_entry mf i b = (m, b') ->
  coalesce_step (view C) (cached_views b i) m (cached_views b' (S i)) /\
  tlb_inv (cached_views b' (S i)) b'.
Proof.
  intros HC Hf Hu Hi Hinv. unfold coalesce_entry. rewrite (cache_at_lookup _ _ _ HC).
  set (u := utlb_id (fault_source C)) in *.
  set (same := if (0 <? i)%nat then _ else _).
  pose proof (cached_views_length i b C HC) as Hlen.
  assert (coalesce_step (view C) (cached_views b i) false
            (cached_views (new_representative i u same b) (S i)) /\
          tlb_inv (cached_views (new_representative i u same b) (S i))
            (new_representative i u same b)) as Hnew.
  { split; [|by eapply new_representative_tlb; eauto; lia].
    rewrite (new_representative_views _ _ _ _ _ HC). constructor. }
  destruct ((0 <? i)%nat && mf && negb (is_fatal C)) eqn:Eg; [|by intros [= <- <-]].
  rewrite !andb_true_iff, Nat.ltb_lt in Eg. destruct Eg as [[Hi0 _] _].
  unfold fetch_fault_buffer_try_merge_entry. rewrite (cache_at_lookup _ _ _ HC).
  destruct (lookup_lt_is_Some_2 (utlbs b) (Z.to_nat u) ltac:(lia)) as [t Ht].
  assert (utlb_at b u = t) as -> by (by apply list_lookup_total_correct).
  destruct ((0 <? num_pending_faults t) && _ && _) eqn:Etlb.
  - (* the last fault of this uTLB *)
    rewrite !andb_true_iff, Z.ltb_lt, !Z.eqb_eq in Etlb. destruct Etlb as [[Hp Hk] Ha].
    destruct (ti_tlb _ _ Hinv _ _ Ht ltac:(lia)) as (l & x & Hl & Hx & Hxf & Hxu).
    destruct (cached_view_entry i b l x Hx) as (Hli & L & HL & ->).
    rewrite Hl in *. unfold entry_of in Hk, Ha |- *. simpl in Hk, Ha |- *.
    rewrite (cache_at_lookup _ _ _ HL) in *.
    pose proof (same_key_intro _ _ Hk Ha) as Hkey.
    fold (access L) (access C). case (Z.ltb_spec (access L) (access C)); intros Hacc [= <- <-].
    + eapply (supersede_refines i b C HC Hf Hinv u t l (view L)); eauto; lia.
    + eapply (absorb_refines i b C HC Hf Hinv l (view L)); eauto.
  - destruct (same && _ && _) eqn:Eglob; [|by intros [= <- <-]].
    rewrite !andb_true_iff, Z.eqb_eq, Z.leb_le in Eglob. destruct Eglob as [[Hs Ha] Hacc].
    destruct (ti_last _ _ Hinv) as (l & Hl & Hli); [by intros E; rewrite E in Hlen; simpl in Hlen; lia|].
    rewrite Hlen in Hli. destruct (lookup_lt_is_Some_2 (fault_cache b) l) as [L HL].
    { apply lookup_lt_Some in HC. lia. }
    subst same. rewrite (proj2 (Nat.ltb_lt _ _) Hi0) in Hs. apply Z.eqb_eq in Hs.
    rewrite Hl in *. unfold entry_of in *. simpl in *. rewrite (cache_at_lookup _ _ _ HL) in *.
    pose proof (same_key_intro _ _ Hs Ha) as Hkey.
    rewrite (proj2 (Z.ltb_ge _ _) Hacc). intros [= <- <-].
    eapply (absorb_refines i b C HC Hf Hinv l (view L)); eauto.
    by apply lookup_cached_views.
Qed.

(** ** The fetch loop *)

(** What the device guarantees: PUT stays inside the ring and packets come
    from existing uTLBs; [ok] is kept by every access. *)
Record hal_inv {D} `{FaultBufferHal D} (max n : Z) (ok : D -> Prop) : Prop := {
  hi_poll : forall i d v d', ok d -> hal_entry_is_valid i d = (v, d') -> ok d';
  hi_read_put : forall d p d', ok d -> hal_read_put d = (p, d') -> ok d' /\ ring_ok max p;
  hi_write_get : forall i d, ok d -> ok (hal_write_get i d);
  hi_clear : forall i d, ok d -> ok (hal_entry_clear_valid i d);
  hi_parse : forall i old d st e d', ok d -> hal_parse_replayable_entry i old d = (st, e, d') ->
    ok d' /\ 0 <= utlb_id (fault_source e) < n;
}.

(** The faults cached so far, [i] of them with [m] representatives. *)
Record fetch_inv (cap n i : nat) (m : Z) (b : uvm_fault_service_batch_context_t) : Prop := {
  fv_cap : length (fault_cache b) = cap;
  fv_utlbs : length (utlbs b) = n;
  fv_idx : (i <= cap)%nat;
  fv_tlb : tlb_inv (cached_views b i) b;
  fv_cov : all_covered (cached_views b i);
  fv_masks : masks_ok (cached_views b i);
  fv_count : m = sumz unfiltered_num (cached_views b i);
  fv_inst : Z.of_nat cap < 2 ^ 16 -> instances_ok (cached_views b i);
  fv_max : forall u t, utlbs b !! u = Some t -> num_pending_faults t <> 0 ->
             Z.of_nat u <= max_utlb_id b;
}.

Lemma unfiltered_bounds vs : 0 <= sumz unfiltered_num vs <= Z.of_nat (length vs).
Proof.
  induction vs as [|e vs IH]; simpl; [lia|].
  assert (0 <= unfiltered_num e <= 1) by (unfold unfiltered_num; case_match; lia). lia.
Qed.

Lemma cached_views_upd_entry b i f : cached_views (upd_entry i f b) i = cached_views b i.
Proof. unfold cached_views, upd_entry. simpl. by rewrite take_alter_ge by lia. Qed.

Lemma fetch_inv_upd_entry cap n i m f b :
  fetch_inv cap n i m b -> fetch_inv cap n i m (upd_entry i f b).
Proof.
  intros [H1 H2 H3 [L1 L2 L3] H5 H6 H7 H8 H9].
  split; rewrite ?cached_views_upd_entry; auto.
  - unfold upd_entry. simpl. by rewrite length_alter.
  - by split.
Qed.

Lemma fetch_inv_note_utlb cap n i m u b :
  fetch_inv cap n i m b -> fetch_inv cap n i m (note_utlb u b).
Proof.
  intros H. unfold note_utlb. case (Z.ltb_spec (max_utlb_id b) u); intros Hu; [|done].
  destruct H as [H1 H2 H3 [L1 L2 L3] H5 H6 H7 H8 H9].
  split; auto; [by split|]. simpl. intros v t Hv Hp. specialize (H9 v t Hv Hp). lia.
Qed.

(** Sizes are kept, and only uTLB [u] can get its first pending fault. *)
Record utlb_frame (u : nat) (b b' : uvm_fault_service_batch_context_t) : Prop := {
  uf_cache : length (fault_cache b') = length (fault_cache b);
  uf_utlbs : length (utlbs b') = length (utlbs b);
  uf_max : max_utlb_id b' = max_utlb_id b;
  uf_pred : pred b' = pred b;
  uf_pending : forall v t', utlbs b' !! v = Some t' -> num_pending_faults t' <> 0 ->
    (exists t, utlbs b !! v = Some t /\ num_pending_faults t <> 0) \/ v = u;
}.

Lemma utlb_frame_merge u b l cur : utlb_frame u b (merge_into l cur b).
Proof. destruct l; split; simpl; rewrite ?merge_length; eauto. Qed.

Lemma utlb_frame_last_fault u b b' l :
  utlb_frame u b b' -> utlb_frame u b (b' <| last_fault := l |>).
Proof. by intros []; split. Qed.

Lemma utlb_frame_upd_utlb b b' (u : Z) f :
  utlb_frame (Z.to_nat u) b b' -> utlb_frame (Z.to_nat u) b (upd_utlb u f b').
Proof.
  intros [H1 H2 H3 H4 H5]. unfold upd_utlb. split; simpl; rewrite ?length_alter; auto.
  intros v t' Hv Hp. destruct (decide (v = Z.to_nat u)) as [->|Hne]; [by right|].
  rewrite list_lookup_alter_ne in Hv by done. eauto.
Qed.

Lemma coalesce_entry_frame mf i b m b' :
  coalesce_entry mf i b = (m, b') ->
  utlb_frame (Z.to_nat (utlb_id (fault_source (cache_at b i)))) b b'.
Proof.
  unfold coalesce_entry. set (u := utlb_id _). set (same := if (0 <? i)%nat then _ else _).
  assert (utlb_frame (Z.to_nat u) b (new_representative i u same b)) as Hnew.
  { apply utlb_frame_last_fault, utlb_frame_upd_utlb.
    unfold INIT_LIST_HEAD, set_next, set_prev.
    destruct (is_single_instance_ptr b && negb same); split; simpl; rewrite ?length_alter; eauto. }
  destruct (_ && negb (is_fatal _)); [|by intros [= <- <-]].
  unfold fetch_fault_buffer_try_merge_entry.
  destruct (_ && _ && (fault_address _ =? _)).
  - intros [= <- <-]. case_match; [apply utlb_frame_upd_utlb|]; apply utlb_frame_merge.
  - destruct (same && _ && _); [|by intros [= <- <-]].
    intros [= <- <-]. case_match; [apply utlb_frame_last_fault|]; apply utlb_frame_merge.
Qed.

Lemma coalesce_entry_inv mf cap n i m b C merged b' :
  fetch_inv cap n i m b -> fault_cache b !! i = Some C -> filtered C = false ->
  0 <= utlb_id (fault_source C) < Z.of_nat n -> utlb_id (fault_source C) <= max_utlb_id b ->
  Z.of_nat cap < 2 ^ 32 -> coalesce_entry mf i b = (merged, b') ->
  fetch_inv cap n (S i) (if merged then m else u32 (m + 1)) b'.
Proof.
  intros [H1 H2 H3 H4 H5 H6 H7 H8 H9] HC Hf Hu Hmax Hcap Hco.
  assert (i < cap)%nat as Hi by (rewrite <- H1; by eapply lookup_lt_Some).
  pose proof (cached_views_length i b C HC) as Hlen.
  destruct (coalesce_entry_refines mf i b C merged b') as [Hst Htlb]; auto; [by rewrite H2|lia|].
  pose proof (coalesce_entry_frame _ _ _ _ _ Hco) as [F1 F2 F3 _ F4].
  assert (filtered (view C) = false) as Hfv by done.
  split; [congruence|congruence|lia|done| | | | |].
  - by eapply step_covered.
  - by eapply step_masks.
  - rewrite (step_unfiltered _ _ _ _ Hfv Hst), <- H7.
    pose proof (unfiltered_bounds (cached_views b i)). rewrite Hlen in *.
    destruct merged; [lia|]. apply wrap_id. unfold in_width. lia.
  - intros H16. eapply step_instances; eauto. rewrite Hlen. lia.
  - rewrite F3. intros v t' Hv Hp. destruct (F4 v t' Hv Hp) as [(t & Ht & Hpt)|Hvu]; [eauto|].
    rewrite (cache_at_lookup _ _ _ HC) in Hvu. lia.
Qed.

Definition fast_skips {D} (g : uvm_gpu D) : Z := num_pred_fast_skip_stale (pred (batch g)).

(** The ring registers are not touched. *)
Definition ring_same {D} (g g' : uvm_gpu D) : Prop :=
  max_faults (replayable g') = max_faults (replayable g) /\
  cached_get (replayable g') = cached_get (replayable g) /\
  cached_put (replayable g') = cached_put (replayable g) /\
  max_batch_size g' = max_batch_size g.

Section FetchLoop.
  Context {D : Type} `{Hal : FaultBufferHal D} `{!FaultBufferHalLive D} `{Ops : GpuOps D}.
  Context `{KernelSort}.
  Variable P : module_params.
  Variables (max : Z) (cap n : nat) (ok : D -> Prop).
  Hypothesis Hinv : hal_inv max (Z.of_nat n) ok.
  Hypothesis Hcap : Z.of_nat cap < 2 ^ 32.

Lemma predictor_skips_frame mode ad i (g : uvm_gpu D) v g' :
  predictor_skips P mode ad i g = (v, g') ->
  batch g' = batch g /\ hw g' = hw g /\ ring_same g g'.
Proof.
  unfold predictor_skips, upd_fetch, upd_replayable, ring_same. st_unfold.
  case_match; [|by intros [= <- <-]].
  destruct (prev_fetch_keys_contains _ _ _). by intros [= <- <-].
Qed.

Lemma process_entry_inv mode mf ad i m (g : uvm_gpu D) C r g' :
  fetch_inv cap n i m (batch g) -> fault_cache (batch g) !! i = Some C ->
  0 <= utlb_id (fault_source C) < Z.of_nat n ->
  process_entry P mode mf ad i m g = (r, g') ->
  fetch_inv cap n r.1 r.2 (batch g') /\ hw g' = hw g /\ ring_same g g' /\
  ((r.1 = i /\ fast_skips g' = u32 (fast_skips g + 1)) \/
   (r.1 = S i /\ fast_skips g' = fast_skips g)).
Proof.
  intros Hfi HC Hu. unfold process_entry, upd_batch. st_unfold.
  set (b1 := upd_entry i init_fetched_entry (batch g)).
  assert (fault_cache b1 !! i = Some (init_fetched_entry C)) as HC1
    by (subst b1; unfold upd_entry; simpl; by rewrite list_lookup_alter_eq, HC).
  set (b2 := note_utlb (utlb_id (fault_source (cache_at b1 i))) b1).
  set (g2 := g <| batch ::= _ |> <| batch ::= _ |>).
  assert (batch g2 = b2) as Hb2 by done.
  assert (fetch_inv cap n i m b2) as Hfi2 by (by apply fetch_inv_note_utlb, fetch_inv_upd_entry).
  assert (fault_cache b2 !! i = Some (init_fetched_entry C) /\ pred b2 = pred (batch g) /\
          utlb_id (fault_source C) <= max_utlb_id b2) as (HC2 & Hp2 & Hm2).
  { subst b2. rewrite (cache_at_lookup _ _ _ HC1). unfold note_utlb.
    change (utlb_id (fault_source (init_fetched_entry C))) with (utlb_id (fault_source C)).
    case (Z.ltb_spec (max_utlb_id b1) (utlb_id (fault_source C))); intros; split_and!; auto.
    simpl. lia. }
  destruct (predictor_skips P mode ad i g2) as [v g3] eqn:Es.
  apply predictor_skips_frame in Es as (Hb3 & Hh3 & Hr3). destruct v.
  - intros [= <- <-]. simpl. unfold ring_same, fast_skips in *. simpl. rewrite Hb3, Hb2, Hp2. simpl.
    split; [|auto]. destruct Hfi2 as [? ? ? [? ? ?] ? ? ? ? ?]. split; auto. by split.
  - rewrite Hb3, Hb2. destruct (coalesce_entry mf i b2) as [merged b'] eqn:Ec. intros [= <- <-]. simpl.
    pose proof (coalesce_entry_frame _ _ _ _ _ Ec) as [_ _ _ Fp _].
    split; [by eapply coalesce_entry_inv|]. unfold ring_same, fast_skips in *. simpl.
    rewrite Fp, Hp2. auto.
Qed.

Lemma wait_or_give_up_frame index gu (g : uvm_gpu D) v g' :
  ok (hw g) -> wait_or_give_up index gu g = (v, g') ->
  exists d', ok d' /\ g' = g <| hw := d' |> /\ (gu = false -> v = true).
Proof.
  intros Hok. unfold wait_or_give_up, hal. st_unfold.
  destruct (hal_entry_is_valid index (hw g)) as [[] d'] eqn:E.
  { intros [= <- <-]. exists d'. split; [|done]. by eapply (hi_poll _ _ _ Hinv). }
  apply (hi_poll _ _ _ Hinv) in E; [|done]. generalize (hal_polls index (hw (g <| hw := d' |>))).
  intros fuel. assert (g <| hw := d' |> = g <| hw := d' |>) as Hg by done. revert Hg.
  generalize (g <| hw := d' |>) at 1 3 as g1. intros g1 ->. revert d' E.
  induction fuel as [|fuel IH]; intros d' E; simpl; unfold hal; st_unfold; simpl;
    destruct (hal_entry_is_valid index d') as [[] d2] eqn:E2;
    apply (hi_poll _ _ _ Hinv) in E2; auto; simpl.
  - intros [= <- <-]. eauto.
  - destruct gu; intros [= <- <-]; eauto.
  - intros [= <- <-]. eauto.
  - destruct gu; [intros [= <- <-]; eauto|]. intros Hr. by apply (IH d2).
Qed.

Lemma parse_entry_frame index i (g : uvm_gpu D) st g' :
  ok (hw g) -> (i < length (fault_cache (batch g)))%nat -> parse_entry index i g = (st, g') ->
  exists C d', ok d' /\ 0 <= utlb_id (fault_source C) < Z.of_nat n /\
    g' = g <| hw := d' |> <| batch ::= upd_entry i (fun _ => C) |>.
Proof.
  intros Hok Hi. unfold parse_entry, hal, upd_batch. st_unfold.
  destruct (hal_parse_replayable_entry index (cache_at (batch g) i) (hw g)) as [[st0 C] d'] eqn:E.
  apply (hi_parse _ _ _ Hinv) in E as [Hd Hu]; [|done].
  intros [= <- <-]. exists C, d'. done.
Qed.

(** What one run of the loop from [get], with [i] faults cached, gives. *)
Record loop_post (fuel : nat) (mode : fault_fetch_mode_t) (limit put get : Z) (i : nat)
    (g : uvm_gpu D) (r : fetch_result) (g' : uvm_gpu D) : Prop := {
  lp_inv : fetch_inv cap n (fr_index r) (fr_coalesced r) (batch g');
  lp_ok : ok (hw g');
  lp_ring : ring_same g g';
  lp_index : (i <= fr_index r)%nat;
  lp_consumed : exists k, (k <= fuel)%nat /\
    fr_get r = Nat.iter k (fun x => ring_next max x) get /\
    Z.of_nat k = Z.of_nat (fr_index r) - Z.of_nat i + (fast_skips g' - fast_skips g);
  lp_limit : is_mode_all mode = false -> Z.of_nat (fr_index r) <= Z.max (Z.of_nat i) limit;
  lp_all : is_mode_all mode = true -> fr_status r = NV_OK -> fr_get r = put;
}.

Lemma loop_post_stop fuel mode limit put get i m st (g g' : uvm_gpu D) :
  fetch_inv cap n i m (batch g') -> ok (hw g') -> ring_same g g' -> fast_skips g' = fast_skips g ->
  (is_mode_all mode = true -> st = NV_OK -> get = put) ->
  loop_post fuel mode limit put get i g (mk_fetch get i m st) g'.
Proof.
  intros H1 H2 H3 H4 H5. split; simpl; auto; [|lia].
  exists 0%nat. split_and!; [lia|done|lia].
Qed.

Lemma fetch_one_inv mode mf ad get i m (g : uvm_gpu D) next g' :
  ok (hw g) -> fetch_inv cap n i m (batch g) -> (i < cap)%nat ->
  fetch_one P mode mf ad get i m g = (next, g') ->
  ok (hw g') /\ ring_same g g' /\
  match next with
  | inl r => exists st, r = mk_fetch get i m st /\ fetch_inv cap n i m (batch g') /\
      fast_skips g' = fast_skips g /\ (is_mode_all mode = true -> st <> NV_OK)
  | inr (i', m') => fetch_inv cap n i' m' (batch g') /\
      ((i' = i /\ fast_skips g' = u32 (fast_skips g + 1)) \/
       (i' = S i /\ fast_skips g' = fast_skips g))
  end.
Proof.
  intros Hok Hfi Hi. unfold fetch_one. unfold mbind at 1, ST_bind at 1.
  destruct (wait_or_give_up get _ g) as [ready g1] eqn:Ew.
  apply wait_or_give_up_frame in Ew as (d1 & Hd1 & -> & Hready); auto.
  destruct ready; cbn [negb].
  2:{ intros [= <- <-]. split; [done|]. split; [by repeat split|]. eexists. split_and!; [done..|].
      intros Ha _. rewrite Ha in Hready. by specialize (Hready eq_refl). }
  unfold mbind at 1, ST_bind at 1.
  destruct (parse_entry get i _) as [st g2] eqn:Ep.
  apply parse_entry_frame in Ep as (C & d2 & Hd2 & Hu & ->); [|done|simpl; destruct Hfi; lia].
  set (g2 := g <| hw := d1 |> <| hw := d2 |> <| batch ::= upd_entry i (fun _ => C) |>).
  assert (fetch_inv cap n i m (batch g2)) as Hfi2 by (by apply fetch_inv_upd_entry).
  destruct (negb (is_ok st)) eqn:Est.
  { intros [= <- <-]. split; [done|]. split; [by repeat split|]. eexists. split_and!; [done..|].
    intros _ ->. by vm_compute in Est. }
  unfold mbind, ST_bind.
  destruct (process_entry P mode mf ad i m g2) as [[i' m'] g3] eqn:Epr. intros [= <- <-].
  assert (fault_cache (batch g2) !! i = Some C) as HC2.
  { subst g2. unfold upd_entry. simpl. rewrite list_lookup_alter_eq.
    destruct (lookup_lt_is_Some_2 (fault_cache (batch g)) i) as [x ->]; [destruct Hfi; lia|done]. }
  eapply process_entry_inv in Epr as (Hfi3 & Hh3 & Hr3 & Hcase); eauto.
  split; [by rewrite Hh3|]. split; [by destruct Hr3|]. by split.
Qed.

Lemma fetch_loop_inv mode mf ad limit put : max < 2 ^ 32 -> ring_ok max put ->
  forall fuel get i m g r g',
  ok (hw g) -> fetch_inv cap n i m (batch g) -> max_faults (replayable g) = max ->
  ring_ok max get -> (fuel + i <= cap)%nat ->
  (Z.to_nat (replayable_fault_buffer_pending_entries get put max) <= fuel)%nat ->
  0 <= fast_skips g -> fast_skips g + Z.of_nat fuel < 2 ^ 32 ->
  fetch_loop P fuel mode mf ad limit put get i m g = (r, g') ->
  loop_post fuel mode limit put get i g r g'.
Proof.
  intros Hmax Hput. induction fuel as [|fuel IH]; intros get i m g r g' Hok Hfi Hmf Hget Hfuel Hpend Hs0 Hs1.
  { intros [= <- <-]. apply loop_post_stop with (g' := g); auto; [by repeat split|].
    intros _ _. pose proof (pending_entries_bound max Hmax get put Hget Hput).
    apply (pending_entries_zero max Hmax); auto. lia. }
  cbn [fetch_loop]. destruct (negb (get =? put) && _) eqn:Eg.
  2:{ intros [= <- <-]. apply loop_post_stop with (g' := g); auto; [by repeat split|].
      intros Ha _. rewrite Ha, andb_true_r in Eg. by apply negb_false_iff, Z.eqb_eq in Eg. }
  apply andb_true_iff in Eg as [Hne Hlim]. apply negb_true_iff, Z.eqb_neq in Hne.
  unfold mbind at 1, ST_bind at 1. destruct (fetch_one P mode mf ad get i m g) as [next g1] eqn:E1.
  apply fetch_one_inv in E1 as (Hok1 & Hr1 & Hcase); auto; [|lia].
  destruct next as [res|[i' m']].
  { destruct Hcase as (st & -> & Hfi1 & Hsk1 & Hst). intros [= <- <-].
    apply loop_post_stop; auto. intros Ha Hok'. by destruct (Hst Ha). }
  destruct Hcase as [Hfi1 Hcase]. pose proof Hr1 as (Hm1 & _).
  unfold mbind, ST_bind, gets. rewrite Hm1, Hmf.
  pose proof (pending_entries_next max Hmax get put Hget Hput Hne) as Hnext.
  pose proof (pending_entries_bound max Hmax get put Hget Hput).
  assert (fast_skips g1 = fast_skips g + (1 - (Z.of_nat i' - Z.of_nat i)) /\
          (i' = i \/ i' = S i)) as [Hsk1 Hi'].
  { destruct Hcase as [[-> ->]|[-> ->]]; split; auto; [|lia]. rewrite wrap_id by (unfold in_width; lia). lia. }
  intros Hloop. apply IH in Hloop as [L1 L2 L3 L4 (k & Hk1 & Hk2 & Hk3) L6 L7];
    auto using ring_next_ok; [|congruence|lia..].
  split; auto; [|lia| |].
  - destruct Hr1 as (? & ? & ? & ?), L3 as (? & ? & ? & ?). repeat split; congruence.
  - exists (S k). split; [lia|]. rewrite Nat.iter_succ_r. split; [done|]. lia.
  - intros Ha. rewrite Ha in Hlim. simpl in Hlim. apply Z.ltb_lt in Hlim. specialize (L6 Ha). lia.
Qed.

End FetchLoop.

(** ** The whole fetch *)

Lemma fetch_inv_ext cap n i m b b' :
  fault_cache b' = fault_cache b -> utlbs b' = utlbs b -> last_fault b' = last_fault b ->
  max_utlb_id b' = max_utlb_id b -> fetch_inv cap n i m b -> fetch_inv cap n i m b'.
Proof.
  intros E1 E2 E3 E4 [? ? ? [? ? ?] ? ? ? ? ?].
  assert (cached_views b' i = cached_views b i) as Ev by (unfold cached_views; by rewrite E1).
  split; rewrite ?Ev, ?E1, ?E2, ?E4; auto. split; rewrite ?E2, ?E3; auto.
Qed.

Lemma update_prev_fetch_predictor_batch `{KernelSort} P p b p' b' :
  update_prev_fetch_predictor P p b = (p', b') ->
  exists k, b' = b <| pred ::= fun c => c <| num_pred_fetch_build_keys := k |> |>.
Proof.
  unfold update_prev_fetch_predictor, update_prev_fetch_predictor_from_coalesced_hash_exact,
    update_prev_fetch_predictor_from_coalesced_hash_approx,
    update_prev_fetch_predictor_from_coalesced_bsearch,
    update_prev_fetch_predictor_from_fetch_cache, finalize_prev_fetch_predictor.
  intros Hu. repeat case_match; simplify_eq; by eexists.
Qed.

Section FetchEntries.
  Context {D : Type} `{Hal : FaultBufferHal D} `{!FaultBufferHalLive D} `{Ops : GpuOps D}.
  Context `{KernelSort}.
  Variable P : module_params.
  Variable caps : gpu_caps.
  Variables (n : nat) (ok : D -> Prop).

(** The state before a fetch. *)
Record fetch_pre (g : uvm_gpu D) : Prop := {
  fp_hal : hal_inv (max_faults (replayable g)) (Z.of_nat n) ok;
  fp_ok : ok (hw g);
  fp_max : max_faults (replayable g) < 2 ^ 32;
  fp_cache : Z.of_nat (length (fault_cache (batch g))) = max_faults (replayable g);
  fp_utlbs : length (utlbs (batch g)) = n;
  fp_get : ring_ok (max_faults (replayable g)) (cached_get (replayable g));
  fp_put : ring_ok (max_faults (replayable g)) (cached_put (replayable g));
  fp_pending : forall u t, utlbs (batch g) !! u = Some t -> num_pending_faults t <> 0 ->
                 Z.of_nat u <= max_utlb_id (batch g);
  fp_skips : 0 <= fast_skips g /\ fast_skips g + max_faults (replayable g) < 2 ^ 32;
}.

Lemma clear_utlbs_inv cap b :
  length (fault_cache b) = cap -> length (utlbs b) = n ->
  (forall u t, utlbs b !! u = Some t -> num_pending_faults t <> 0 -> Z.of_nat u <= max_utlb_id b) ->
  fetch_inv cap n 0 0 (clear_utlbs b).
Proof.
  intros Hc Hu Hp.
  assert (forall u t, utlbs (clear_utlbs b) !! u = Some t -> num_pending_faults t = 0) as Hz.
  { intros u t. unfold clear_utlbs. simpl. rewrite list_lookup_imap, fmap_Some.
    intros (t0 & Ht0 & ->). case (Z.leb_spec (Z.of_nat u) (max_utlb_id b)); intros; [done|].
    destruct (decide (num_pending_faults t0 = 0)) as [|Hne]; [done|].
    specialize (Hp u t0 Ht0 Hne). lia. }
  split; simpl; auto; unfold cached_views; rewrite ?take_0.
  - by rewrite length_imap.
  - lia.
  - split; [done| |]; intros u t Ht; rewrite (Hz u t Ht); done.
  - by intros j e Hj.
  - intros e He. by apply elem_of_nil in He.
  - intros _. split; [|done]. intros e He. by apply elem_of_nil in He.
  - intros u t Ht. by rewrite (Hz u t Ht).
Qed.

(** What a fetch leaves behind. *)
Record fetch_post (mode : fault_fetch_mode_t) (g : uvm_gpu D) (st : NV_STATUS) (g' : uvm_gpu D)
  : Prop := {
  fo_cached : 0 <= num_cached_faults (batch g');
  fo_inv : fetch_inv (Z.to_nat (max_faults (replayable g))) n
             (Z.to_nat (num_cached_faults (batch g'))) (num_coalesced_faults (batch g')) (batch g');
  fo_ok : ok (hw g');
  fo_get : exists k, cached_get (replayable g') =
             Nat.iter k (fun x => ring_next (max_faults (replayable g)) x) (cached_get (replayable g)) /\
             Z.of_nat k = num_cached_faults (batch g') + (fast_skips g' - fast_skips g);
  fo_limit : is_mode_all mode = false ->
             num_cached_faults (batch g') <= Z.max 1 (max_batch_size g);
  fo_all : is_mode_all mode = true -> st = NV_OK ->
           cached_get (replayable g') = cached_put (replayable g');
}.

Lemma fetch_limit_le max_batch p mode pending :
  1 <= replayable_fault_buffer_fetch_limit P max_batch p mode pending <= Z.max 1 max_batch.
Proof.
  unfold replayable_fault_buffer_fetch_limit.
  repeat match goal with |- context [if ?c then _ else _] => destruct c end; lia.
Qed.

Lemma fetch_prologue_post (g : uvm_gpu D) u g' :
  fetch_pre g -> fetch_prologue g = (u, g') ->
  fetch_inv (Z.to_nat (max_faults (replayable g))) n 0 0 (batch g') /\ ok (hw g') /\
  fast_skips g' = fast_skips g /\ max_batch_size g' = max_batch_size g /\
  max_faults (replayable g') = max_faults (replayable g) /\
  cached_get (replayable g') = cached_get (replayable g) /\
  ring_ok (max_faults (replayable g)) (cached_put (replayable g')).
Proof.
  intros [Hh Hok Hm Hc Hu Hg Hp Hpe Hs]. unfold fetch_prologue, read_put, hal. st_unfold.
  assert (fetch_inv (Z.to_nat (max_faults (replayable g))) n 0 0
    (clear_utlbs ((batch g) <| is_single_instance_ptr := true |> <| last_fault := None |>))) as Hi
    by (apply clear_utlbs_inv; auto; simpl; lia).
  destruct (cached_get (replayable g) =? cached_put (replayable g)).
  - destruct (hal_read_put (hw g)) as [p d'] eqn:E. apply (hi_read_put _ _ _ Hh) in E as [Hd Hp']; [|done].
    intros [= <- <-]. by split_and!.
  - intros [= <- <-]. by split_and!.
Qed.

Lemma fetch_done_post mode ad limit res (g : uvm_gpu D) st g' :
  fetch_done P mode ad limit res g = (st, g') ->
  st = fr_status res /\ num_cached_faults (batch g') = Z.of_nat (fr_index res) /\
  num_coalesced_faults (batch g') = fr_coalesced res /\
  fault_cache (batch g') = fault_cache (batch g) /\ utlbs (batch g') = utlbs (batch g) /\
  last_fault (batch g') = last_fault (batch g) /\ max_utlb_id (batch g') = max_utlb_id (batch g) /\
  fast_skips g' = fast_skips g /\
  cached_get (replayable g') = fr_get res /\ cached_put (replayable g') = cached_put (replayable g) /\
  (hw g' = hw g \/ hw g' = hal_write_get (fr_get res) (hw g)).
Proof.
  unfold fetch_done, write_get, update_predictor, fast_skips. st_unfold.
  unfold upd_batch, upd_fetch, upd_replayable. st_unfold. cbn.
  destruct (negb _ && _); cbn.
  - destruct (update_prev_fetch_predictor _ _ _) as [p' b'] eqn:E.
    apply update_prev_fetch_predictor_batch in E as [k ->]. cbn.
    case (Z.eqb_spec (cached_get (replayable g)) (fr_get res)); intros He; cbn; intros [= <- <-]; cbn;
      split_and!; auto.
  - case (Z.eqb_spec (cached_get (replayable g)) (fr_get res)); intros He; cbn; intros [= <- <-]; cbn;
      split_and!; auto.
Qed.

Lemma fetch_entries_post mode (g : uvm_gpu D) st g' :
  fetch_pre g -> fetch_fault_buffer_entries P caps mode g = (st, g') -> fetch_post mode g st g'.
Proof.
  intros Hpre. pose proof Hpre as [Hh Hok Hm Hc Hu Hg Hp Hpe Hs].
  unfold fetch_fault_buffer_entries. unfold mbind at 1, ST_bind at 1, gets at 1. cbv zeta.
  unfold mbind at 1, ST_bind at 1. destruct (fetch_prologue g) as [u1 g1] eqn:E1.
  apply fetch_prologue_post in E1 as (Hi1 & Hok1 & Hsk1 & Hb1 & Hm1 & Hg1 & Hp1); [|done].
  unfold mbind at 1, ST_bind at 1, gets at 1. unfold mbind at 1, ST_bind at 1, gets at 1.
  rewrite Hg1, Hm1, Hb1.
  case (Z.eqb_spec (cached_get (replayable g)) (cached_put (replayable g1))); intros Hgp.
  - intros Hd. apply fetch_done_post in Hd as (-> & C1 & C2 & C3 & C4 & C5 & C6 & C7 & C8 & C9 & C10).
    split; rewrite ?C1, ?C2, ?C8, ?C9; simpl; auto; [lia| | | |lia].
    + eapply fetch_inv_ext; [..|exact Hi1]; done.
    + destruct C10 as [->| ->]; [done|by apply (hi_write_get _ _ _ Hh)].
    + exists 0%nat. split; [done|]. lia.
  - unfold mbind, ST_bind. set (limit := replayable_fault_buffer_fetch_limit _ _ _ _ _).
    destruct (fetch_loop _ _ _ _ _ _ _ _ _ _ g1) as [res g2] eqn:El. intros Hd.
    pose proof (pending_entries_bound _ Hm _ _ Hg Hp1) as Hpb.
    eapply (fetch_loop_inv P (max_faults (replayable g)) (Z.to_nat (max_faults (replayable g))) n ok)
      in El as [L1 L2 L3 L4 (k & Hk1 & Hk2 & Hk3) L6 L7]; auto; try lia.
    apply fetch_done_post in Hd as (-> & C1 & C2 & C3 & C4 & C5 & C6 & C7 & C8 & C9 & C10).
    split; rewrite ?C1, ?C2, ?C8, ?C9; auto; [lia| | | | |].
    + rewrite Nat2Z.id. eapply fetch_inv_ext; [..|exact L1]; done.
    + destruct C10 as [->| ->]; [done|by apply (hi_write_get _ _ _ Hh)].
    + exists k. split; [done|]. lia.
    + intros Ha. specialize (L6 Ha).
      pose proof (fetch_limit_le (max_batch_size g) (prev_fetch (replayable g1)) mode
        (replayable_fault_buffer_pending_entries (cached_get (replayable g))
           (cached_put (replayable g1)) (max_faults (replayable g)))) as Hl.
      fold limit in Hl. lia.
    + intros Ha Hst. destruct L3 as (_ & _ & -> & _). auto.
Qed.

End FetchEntries.

(** ** Properties *)

Section FetchClaims.
  Context {D : Type} `{Hal : FaultBufferHal D} `{!FaultBufferHalLive D} `{Ops : GpuOps D}.
  Context `{KernelSort}.

Lemma lookup_cached_views_inv b i j e :
  cached_views b i !! j = Some e -> exists x, fault_cache b !! j = Some x /\ (j < i)%nat /\ e = view x.
Proof.
  unfold cached_views. rewrite list_lookup_fmap, fmap_Some.
  intros (x & [Hx Hj]%lookup_take_Some & ->). eauto.
Qed.

(** C1: Coalescing loses no fault: after a fetch, every cached fault has in the
    batch an unfiltered fault (possibly itself) with the same instance
    pointer, subcontext and page whose access type is at least as intrusive. *)
Theorem fetch_covers_every_fault P caps n ok mode (g : uvm_gpu D) st g' j e :
  fetch_pre n ok g -> fetch_fault_buffer_entries P caps mode g = (st, g') ->
  fault_cache (batch g') !! j = Some e -> Z.of_nat j < num_cached_faults (batch g') ->
  exists k r, fault_cache (batch g') !! k = Some r /\ Z.of_nat k < num_cached_faults (batch g') /\
    filtered r = false /\ key_of_entry r = key_of_entry e /\
    access_num (fault_access_type e) <= access_num (fault_access_type r).
Proof.
  intros Hpre Hf He Hj. apply (fetch_entries_post P caps n ok) in Hf as [H0 Hi _ _ _ _]; [|done].
  destruct (fv_cov _ _ _ _ _ Hi j (view e)) as (r & [k Hr]%list_elem_of_lookup & Hrf & Hrk & Hra).
  { apply lookup_cached_views; [lia|done]. }
  apply lookup_cached_views_inv in Hr as (x & Hx & Hk & ->).
  exists k, x. split_and!; [done|lia|done..].
Qed.

(** C2: After a fetch, the coalesced count is the number of unfiltered cached
    faults, and each uTLB's pending count is the number of those that came
    from it. *)
Theorem fetch_counts P caps n ok mode (g : uvm_gpu D) st g' :
  fetch_pre n ok g -> fetch_fault_buffer_entries P caps mode g = (st, g') ->
  let cached := take (Z.to_nat (num_cached_faults (batch g'))) (fault_cache (batch g')) in
  num_coalesced_faults (batch g') =
    Z.of_nat (length (filter (fun e => filtered e = false) cached)) /\
  forall u t, utlbs (batch g') !! u = Some t ->
    num_pending_faults t =
    Z.of_nat (length (filter (fun e => filtered e = false /\
                                       utlb_id (fault_source e) = Z.of_nat u) cached)).
Proof.
  intros Hpre Hf. apply (fetch_entries_post P caps n ok) in Hf as [H0 Hi _ _ _ _]; [|done].
  cbv zeta. set (c := take _ _). split.
  - rewrite (fv_count _ _ _ _ _ Hi), <- sumz_count. unfold cached_views. fold c.
    rewrite sumz_fmap. apply sumz_ext. intros e _. unfold unfiltered_num. simpl.
    by destruct (filtered e).
  - intros u t Ht. rewrite (ti_pending _ _ (fv_tlb _ _ _ _ _ Hi) u t Ht), <- sumz_count.
    unfold cached_views. fold c. rewrite sumz_fmap. apply sumz_ext. intros e _.
    unfold utlb_num. simpl. destruct (filtered e).
    + by rewrite decide_False by (intros [? _]; done).
    + case (Z.eqb_spec (utlb_id (fault_source e)) (Z.of_nat u)); intros He.
      * by rewrite decide_True.
      * by rewrite decide_False by (intros [_ ?]; done).
Qed.

(** After a fetch, the access mask of every unfiltered fault has the
    fault's own access type as its most intrusive one, and, as long as the
    16-bit instance counters cannot wrap, the instances counted by the
    unfiltered faults never exceed the faults fetched. *)
Theorem fetch_masks_and_instances P caps n ok mode (g : uvm_gpu D) st g' :
  fetch_pre n ok g -> fetch_fault_buffer_entries P caps mode g = (st, g') ->
  let cached := take (Z.to_nat (num_cached_faults (batch g'))) (fault_cache (batch g')) in
  (forall e, e ∈ cached -> filtered e = false ->
     uvm_fault_access_type_mask_highest (access_type_mask e) = fault_access_type e) /\
  (max_faults (replayable g) < 2 ^ 16 ->
     (forall e, e ∈ cached -> filtered e = false -> 1 <= num_instances e) /\
     sumz (fun e => if filtered e then 0 else num_instances e) cached <= num_cached_faults (batch g')).
Proof.
  intros Hpre Hf. pose proof Hpre as [_ _ _ Hc _ _ _ _ _].
  apply (fetch_entries_post P caps n ok) in Hf as [H0 Hi _ _ _ _]; [|done].
  cbv zeta. set (c := take _ _).
  assert (forall e, e ∈ c -> view e ∈ cached_views (batch g') (Z.to_nat (num_cached_faults (batch g'))))
    as Hin by (intros e He; unfold cached_views; by apply list_elem_of_fmap_2).
  split.
  - intros e He Hfe. destruct (fv_masks _ _ _ _ _ Hi (view e) (Hin e He) Hfe) as [_ Hm].
    unfold uvm_fault_access_type_mask_highest. simpl in Hm. rewrite Hm. apply access_of_num_num.
  - intros H16. destruct (fv_inst _ _ _ _ _ Hi ltac:(lia)) as [Hp Hs]. split.
    + intros e He Hfe. exact (Hp (view e) (Hin e He) Hfe).
    + assert (sumz instances_num (cached_views (batch g') (Z.to_nat (num_cached_faults (batch g')))) =
              sumz (fun e => if filtered e then 0 else num_instances e) c) as <-.
      { unfold cached_views. fold c. by rewrite sumz_fmap. }
      unfold cached_views in Hs at 2. rewrite length_fmap, length_take in Hs. lia.
Qed.

(** A fetch advances GET by exactly the faults it cached plus the faults
    the predictor skipped, never caches more than the batch size outside the
    cancel path, and in the cancel path (fetch all) stops only at PUT. *)
Theorem fetch_advances_get P caps n ok mode (g : uvm_gpu D) st g' :
  fetch_pre n ok g -> fetch_fault_buffer_entries P caps mode g = (st, g') ->
  (exists k, cached_get (replayable g') =
     Nat.iter k (fun x => ring_next (max_faults (replayable g)) x) (cached_get (replayable g)) /\
     Z.of_nat k = num_cached_faults (batch g') +
       (num_pred_fast_skip_stale (pred (batch g')) - num_pred_fast_skip_stale (pred (batch g)))) /\
  (mode = FAULT_FETCH_MODE_BATCH_READY ->
     num_cached_faults (batch g') <= Z.max 1 (max_batch_size g)) /\
  (mode = FAULT_FETCH_MODE_ALL -> st = NV_OK ->
     cached_get (replayable g') = cached_put (replayable g')).
Proof.
  intros Hpre Hf. apply (fetch_entries_post P caps n ok) in Hf as [H0 _ _ Hk Hl Ha]; [|done].
  split; [done|]. split; intros ->; auto.
Qed.

End FetchClaims.

(** *** Concrete runs *)

Definition sim_ok (max n : Z) (d : sim_device) : Prop :=
  ring_ok max (sim_put d) /\ Forall (ring_ok max) (sim_next_puts d) /\
  Forall (fun s => 0 <= utlb_id (fault_source (sl_packet s)) < n) (sim_slots d).

Lemma sim_ok_upd_slot max n i f d :
  (forall s, sl_packet (f s) = sl_packet s) -> sim_ok max n d -> sim_ok max n (sim_upd_slot i f d).
Proof.
  intros Hf (H1 & H2 & H3). split_and!; [done|done|]. simpl.
  apply Forall_alter; [done|]. intros x _ Hx. by rewrite Hf.
Qed.

Lemma sim_hal_inv max n : 0 < n -> hal_inv max n (sim_ok max n).
Proof.
  intros Hn. split.
  - intros i d v d' Hok. simpl. unfold sim_is_valid.
    repeat case_match; intros [= <- <-]; try done. by apply sim_ok_upd_slot.
  - intros d p d' (H1 & H2 & H3). simpl. unfold sim_read_put, sim_ok.
    destruct (sim_next_puts d) as [|q l] eqn:E; intros [= <- <-]; simpl; rewrite ?E; [done|].
    by apply Forall_cons in H2 as [Hq Hl].
  - by intros i d (H1 & H2 & H3).
  - intros i d Hok. by apply sim_ok_upd_slot.
  - intros i old d st e d' Hok. simpl. unfold sim_parse. intros [= <- <- <-].
    split; [by apply sim_ok_upd_slot|]. simpl. destruct Hok as (_ & _ & Hall).
    unfold sim_slot_at. destruct (sim_slots d !! Z.to_nat i) as [s|] eqn:E.
    + rewrite (list_lookup_total_correct _ _ _ E). rewrite Forall_forall in Hall.
      apply Hall. by eapply list_elem_of_lookup_2.
    + rewrite list_lookup_total_alt, E. simpl. lia.
Qed.

(** A GPU with an 8-entry buffer, two uTLBs and the given packets pending. *)
Definition fetch_example_gpu (mode : Z) (packets : list uvm_fault_buffer_entry_t) : uvm_gpu sim_device :=
  (sim_gpu 8 8 2 (mk_sim 0 (Z.of_nat (length packets)) []
     ((sim_full_slot 1 <$> packets) ++ replicate (8 - length packets) sim_empty_slot) 0 0 []))
  <| batch ::= fun b => b <| utlbs := replicate 2 zero_utlb |> |>
  <| replayable ::= fun r => r <| prev_fetch := example_prev_fetch |> |>.

Definition fetch_run (mode : Z) (packets : list uvm_fault_buffer_entry_t)
  : NV_STATUS * uvm_gpu sim_device :=
  fetch_fault_buffer_entries (example_params mode) (sim_caps 256) FAULT_FETCH_MODE_BATCH_READY
    (fetch_example_gpu mode packets).

Definition three_packets : list uvm_fault_buffer_entry_t :=
  [sim_packet 0 4096 UVM_FAULT_ACCESS_TYPE_READ; sim_packet 0 4096 UVM_FAULT_ACCESS_TYPE_WRITE;
   sim_packet 1 4096 UVM_FAULT_ACCESS_TYPE_READ].

Lemma fetch_example_pre : fetch_pre 2 (sim_ok 8 2) (fetch_example_gpu 2 three_packets).
Proof.
  split; simpl; try (by vm_compute); try (unfold ring_ok; lia).
  - by apply sim_hal_inv.
  - split_and!; [unfold ring_ok; simpl; lia|constructor|]. repeat constructor; simpl; lia.
  - intros u t Ht Hp. destruct u as [|[|u]]; simpl in Ht; [injection Ht as <-; done..|done].
Qed.

(** The state after the run, evaluated. *)
Definition three_packets_after : uvm_gpu sim_device :=
  Eval vm_compute in (fetch_run 2 three_packets).2.

Lemma fetch_run_eq :
  fetch_fault_buffer_entries (example_params 2) (sim_caps 256) FAULT_FETCH_MODE_BATCH_READY
    (fetch_example_gpu 2 three_packets) = (NV_OK, three_packets_after).
Proof. vm_compute. reflexivity. Qed.

Lemma fetch_covers_every_fault_witness :
  exists k r, fault_cache (batch three_packets_after) !! k = Some r /\
    Z.of_nat k < 3 /\ filtered r = false /\
    key_of_entry r = key_of_entry (fault_cache (batch three_packets_after) !!! 0%nat).
Proof.
  destruct (fetch_covers_every_fault (example_params 2) (sim_caps 256) 2 (sim_ok 8 2)
    FAULT_FETCH_MODE_BATCH_READY (fetch_example_gpu 2 three_packets)
    NV_OK three_packets_after 0 (fault_cache (batch three_packets_after) !!! 0%nat)
    fetch_example_pre fetch_run_eq) as (k & r & Hr & Hk & Hf & Hkey & _).
  - reflexivity.
  - reflexivity.
  - exists k, r. split; [exact Hr|]. split; [exact Hk|]. split; [exact Hf|exact Hkey].
Defined.

Lemma fetch_counts_witness :
  num_coalesced_faults (batch three_packets_after) =
  Z.of_nat (length (filter (fun e => filtered e = false)
    (take 3 (fault_cache (batch three_packets_after))))).
Proof.
  exact (proj1 (fetch_counts (example_params 2) (sim_caps 256) 2 (sim_ok 8 2)
    FAULT_FETCH_MODE_BATCH_READY (fetch_example_gpu 2 three_packets)
    NV_OK three_packets_after fetch_example_pre fetch_run_eq)).
Defined.

Lemma fetch_masks_and_instances_witness :
  sumz (fun e => if filtered e then 0 else num_instances e)
    (take 3 (fault_cache (batch three_packets_after))) <= 3.
Proof.
  destruct (fetch_masks_and_instances (example_params 2) (sim_caps 256) 2 (sim_ok 8 2)
    FAULT_FETCH_MODE_BATCH_READY (fetch_example_gpu 2 three_packets)
    NV_OK three_packets_after fetch_example_pre fetch_run_eq) as [_ H1].
  apply H1. reflexivity.
Defined.

Lemma fetch_advances_get_witness :
  cached_get (replayable three_packets_after) = 3 /\
  num_cached_faults (batch three_packets_after) <= 8.
Proof.
  destruct (fetch_advances_get (example_params 2) (sim_caps 256) 2 (sim_ok 8 2)
    FAULT_FETCH_MODE_BATCH_READY (fetch_example_gpu 2 three_packets)
    NV_OK three_packets_after fetch_example_pre fetch_run_eq) as (_ & H1 & _).
  split; [reflexivity|exact (H1 eq_refl)].
Defined.

(** The batch's last-fault pointer is not updated when a more intrusive
    fault of the same uTLB supersedes it, so a later fault is merged into the
    superseded entry: here two reads and a write of one page are fetched, the
    write is the only representative, but it counts two instances and its
    mask (READ, WRITE) and counter are no longer updated, while the filtered
    read counts all three. *)
Theorem superseded_last_fault_collects_instances :
  let b := batch (fetch_run 2 three_packets).2 in
  num_cached_faults b = 3 /\ num_coalesced_faults b = 1 /\
  filtered <$> take 3 (fault_cache b) = [true; false; true] /\
  last_fault b = Some 0%nat /\
  num_instances <$> take 3 (fault_cache b) = [3; 2; 0] /\
  merged_instances (fault_cache b) 1 = [0; 2]%nat.
Proof. vm_compute. repeat split; reflexivity. Qed.

(** ** The adaptive filter *)

(** Batches that end below their fetch limit and skip nothing. *)
Definition quiet_batches (P : module_params) (p : prev_fetch_state) (qs : list (Z * nat))
  : prev_fetch_state :=
  foldl (fun p q => adaptive_update P FAULT_FETCH_MODE_BATCH_READY q.1 q.2 0 p) p qs.

Lemma quiet_batches_cons P p q qs :
  quiet_batches P p (q :: qs) =
  quiet_batches P (adaptive_update P FAULT_FETCH_MODE_BATCH_READY q.1 q.2 0 p) qs.
Proof. done. Qed.

Lemma quiet_batches_state P qs : forall p c,
  uvm_perf_fault_pred_adaptive_enable P = true ->
  Forall (fun q => Z.of_nat q.2 < q.1) qs ->
  prev_fetch_adaptive_active p = true -> prev_fetch_adaptive_cooldown_remaining p = c ->
  1 <= c < 2 ^ 32 ->
  prev_fetch_adaptive_active (quiet_batches P p qs) = (Z.of_nat (length qs) <? c).
Proof.
  assert (forall p qs, uvm_perf_fault_pred_adaptive_enable P = true ->
    Forall (fun q => Z.of_nat q.2 < q.1) qs -> prev_fetch_adaptive_active p = false ->
    prev_fetch_adaptive_active (quiet_batches P p qs) = false) as Hoff.
  { intros p qs' He. revert p. induction qs' as [|[l i] qs' IH]; intros p Hq Hp; [done|].
    apply Forall_cons in Hq as [Hq Hqs]. simpl in Hq. rewrite quiet_batches_cons. apply IH; [done|].
    unfold adaptive_update. rewrite He. simpl.
    rewrite (proj2 (Z.leb_gt _ _)), andb_false_r by lia. by rewrite Hp. }
  induction qs as [|[l i] qs IH]; intros p c He Hq Hp Hc Hr.
  { simpl. rewrite Hp. symmetry. apply Z.ltb_lt. lia. }
  apply Forall_cons in Hq as [Hq Hqs]. simpl in Hq. rewrite quiet_batches_cons.
  unfold adaptive_update. rewrite He. simpl.
  rewrite (proj2 (Z.leb_gt _ _)), andb_false_r by lia. rewrite Hp, Hc.
  case (Z.ltb_spec 1 c); intros H1.
  - rewrite (IH _ (c - 1)); simpl; auto; [|rewrite Hc, wrap_id by (unfold in_width; lia); lia|lia].
    apply eq_true_iff_eq. rewrite !Z.ltb_lt. lia.
  - rewrite Hoff; auto. symmetry. apply Z.ltb_ge. lia.
Qed.

(** Hysteresis of the adaptive filter: after a batch that hit its fetch
    limit, the filter stays on during the following quiet batches for exactly
    [max(1, cooldown)] of them, whatever their sizes, and is off afterwards. *)
Theorem adaptive_filter_hysteresis P limit i skips p qs :
  uvm_perf_fault_pred_adaptive_enable P = true ->
  0 <= uvm_perf_fault_pred_adaptive_cooldown P < 2 ^ 32 ->
  0 < limit <= Z.of_nat i ->
  Forall (fun q => Z.of_nat q.2 < q.1) qs ->
  let p0 := adaptive_update P FAULT_FETCH_MODE_BATCH_READY limit i skips p in
  prev_fetch_adaptive_active (quiet_batches P p0 qs) =
  (Z.of_nat (length qs) <? Z.max 1 (uvm_perf_fault_pred_adaptive_cooldown P)).
Proof.
  intros He Hc Hl Hq p0. apply quiet_batches_state; auto; [| |lia];
    subst p0; unfold adaptive_update; rewrite He; simpl;
    by rewrite (proj2 (Z.ltb_lt _ _)), (proj2 (Z.leb_le _ _)) by lia.
Qed.

Lemma adaptive_filter_hysteresis_witness :
  let P := (example_params 2) <| uvm_perf_fault_pred_adaptive_enable := true |> in
  prev_fetch_adaptive_active (quiet_batches P
    (adaptive_update P FAULT_FETCH_MODE_BATCH_READY 256 256 0 example_prev_fetch)
    [(256, 3%nat); (256, 0%nat)]) = false.
Proof.
  intros P. etransitivity;
    [apply (adaptive_filter_hysteresis P 256 256 0 example_prev_fetch [(256, 3%nat); (256, 0%nat)])
    |reflexivity]; [reflexivity|vm_compute; split; congruence|lia|repeat constructor].
Defined.
