(* ===== verification/Channels.v ===== *)
(** * User channels and instance pointers

    The per-GPU tables that translate the instance pointer and subcontext of a
    fault to a VA space ([uvm_gpu.c], lines 2849-3206 and 3247-3265).  A channel
    is a key of [chans]; the two red-black trees are finite maps from node keys,
    and a pointer to a TSG's subcontext information is the key of its node. *)

From stdpp Require Import gmap.
From S2P Require Import Prelude FaultTypes.

Local Open Scope Z_scope.

(** ** Data *)

Record subctx_t : Type := mk_subctx {
  subctx_va_space : option Z;
  subctx_refcount : Z;
}.

#[export] Instance subctx_eta : Eta subctx_t := fun s => mk_subctx (subctx_va_space s) (subctx_refcount s).
#[export] Instance subctx_inhabited : Inhabited subctx_t := populate (mk_subctx None 0).

Record uvm_user_channel_subctx_info_t : Type := mk_subctx_info {
  total_refcount : Z;
  info_smc_engine_id : Z;
  subctxs : list subctx_t;
}.

#[export] Instance subctx_info_eta : Eta uvm_user_channel_subctx_info_t :=
  fun i => mk_subctx_info (total_refcount i) (info_smc_engine_id i) (subctxs i).

Record uvm_user_channel_t : Type := mk_user_channel {
  channel_va_space : Z;            (* gpu_va_space->va_space *)
  in_subctx : bool;
  subctx_id : Z;
  tsg_id : Z;
  tsg_max_subctx_count : Z;
  smc_engine_id : Z;
  smc_engine_ve_id_offset : Z;
  subctx_info : option Z;
  instance_ptr_addr : uvm_gpu_phys_address_t;
  node_key : Z;
  node_empty : bool;               (* RB_EMPTY_NODE *)
}.

#[export] Instance user_channel_eta : Eta uvm_user_channel_t := fun c =>
  mk_user_channel (channel_va_space c) (in_subctx c) (subctx_id c) (tsg_id c)
    (tsg_max_subctx_count c) (smc_engine_id c) (smc_engine_ve_id_offset c) (subctx_info c)
    (instance_ptr_addr c) (node_key c) (node_empty c).

#[export] Instance user_channel_inhabited : Inhabited uvm_user_channel_t :=
  populate (mk_user_channel 0 false 0 0 0 0 0 None (mk_phys 0 UVM_APERTURE_SYS) 0 true).

Record channel_tables : Type := mk_tables {
  chans : gmap nat uvm_user_channel_t;
  instance_ptr_table : gmap Z nat;
  tsg_table : gmap Z uvm_user_channel_subctx_info_t;
}.

#[export] Instance channel_tables_eta : Eta channel_tables :=
  fun t => mk_tables (chans t) (instance_ptr_table t) (tsg_table t).

(** ** Operations *)

Definition instance_ptr_to_key (p : uvm_gpu_phys_address_t) : Z :=
  let is_sys := if bool_decide (phys_aperture p = UVM_APERTURE_SYS) then 1 else 0 in
  Z.lor (Z.shiftr (phys_address p) 11) is_sys.

Definition upd_channel (c : nat) (f : uvm_user_channel_t -> uvm_user_channel_t)
    (s : channel_tables) : channel_tables := s <| chans ::= alter f c |>.

(** [refcount++ > 0] and the registration of the VA space. *)
Definition retain_subctx (va : Z) (x : subctx_t) : subctx_t :=
  let old := subctx_refcount x in
  let x := x <| subctx_refcount := u32 (old + 1) |> in
  if 0 <? old then x else x <| subctx_va_space := Some va |>.

(** [--refcount == 0] clears the VA space. *)
Definition release_subctx (x : subctx_t) : subctx_t :=
  let n := u32 (subctx_refcount x - 1) in
  let x := x <| subctx_refcount := n |> in
  if n =? 0 then x <| subctx_va_space := None |> else x.

(** [info_ok] and [array_ok] are the results of the two allocations. *)
Definition parent_gpu_add_user_channel_subctx_info (info_ok array_ok : bool) (c : nat)
    (u : uvm_user_channel_t) (s : channel_tables) : NV_STATUS * channel_tables :=
  if negb (in_subctx u) then (NV_OK, s)
  else
    let retain info :=
      info <| subctxs ::= alter (retain_subctx (channel_va_space u)) (Z.to_nat (subctx_id u)) |>
           <| total_refcount ::= fun n => u32 (n + 1) |> in
    let register info :=
      upd_channel c (fun u => u <| subctx_info := Some (tsg_id u) |>)
        (s <| tsg_table ::= insert (tsg_id u) (retain info) |>) in
    match tsg_table s !! tsg_id u with
    | Some info => (NV_OK, register info)
    | None =>
        if negb (info_ok && array_ok) then (NV_ERR_NO_MEMORY, s)
        else
          (NV_OK, register (mk_subctx_info 0 (smc_engine_id u)
             (replicate (Z.to_nat (tsg_max_subctx_count u)) (mk_subctx None 0))))
    end.

Definition parent_gpu_remove_user_channel_subctx_info_locked (c : nat)
    (u : uvm_user_channel_t) (s : channel_tables) : channel_tables :=
  match subctx_info u with
  | None => s
  | Some t =>
      let release info :=
        info <| subctxs ::= alter release_subctx (Z.to_nat (subctx_id u)) |>
             <| total_refcount ::= fun n => u32 (n - 1) |> in
      upd_channel c (fun u => u <| subctx_info := None |>)
        (s <| tsg_table ::= partial_alter (fun o =>
           match o with
           | Some info =>
               let info := release info in
               if total_refcount info =? 0 then None else Some info
           | None => None
           end) t |>)
  end.

(** [uvm_rb_tree_insert] leaves the tree and the node alone when the key is
    already there. *)
Definition parent_gpu_add_user_channel_instance_ptr (c : nat) (u : uvm_user_channel_t)
    (s : channel_tables) : channel_tables :=
  let key := instance_ptr_to_key (instance_ptr_addr u) in
  let s := upd_channel c (fun u => u <| node_key := key |>) s in
  match instance_ptr_table s !! key with
  | Some _ => s
  | None =>
      upd_channel c (fun u => u <| node_empty := false |>)
        (s <| instance_ptr_table ::= insert key c |>)
  end.

Definition parent_gpu_remove_user_channel_instance_ptr_locked (u : uvm_user_channel_t)
    (s : channel_tables) : channel_tables :=
  if node_empty u then s else s <| instance_ptr_table ::= delete (node_key u) |>.

Definition uvm_parent_gpu_add_user_channel (info_ok array_ok : bool) (c : nat)
    (s : channel_tables) : NV_STATUS * channel_tables :=
  let u := chans s !!! c in
  let '(status, s) := parent_gpu_add_user_channel_subctx_info info_ok array_ok c u s in
  if negb (is_ok status) then (status, s)
  else (NV_OK, parent_gpu_add_user_channel_instance_ptr c u s).

Definition uvm_parent_gpu_remove_user_channel (c : nat) (s : channel_tables) : channel_tables :=
  let u := chans s !!! c in
  parent_gpu_remove_user_channel_instance_ptr_locked u
    (parent_gpu_remove_user_channel_subctx_info_locked c u s).

(** ** Translation *)

Definition instance_ptr_to_user_channel (s : channel_tables) (p : uvm_gpu_phys_address_t)
  : option uvm_user_channel_t :=
  c ← instance_ptr_table s !! instance_ptr_to_key p; chans s !! c.

Definition user_channel_and_subctx_to_va_space (s : channel_tables) (u : uvm_user_channel_t)
    (id : Z) : option Z :=
  t ← subctx_info u; info ← tsg_table s !! t; subctx_va_space (subctxs info !!! Z.to_nat id).

Definition uvm_parent_gpu_fault_entry_to_va_space (s : channel_tables)
    (fault : uvm_fault_buffer_entry_t) : NV_STATUS * option Z :=
  match instance_ptr_to_user_channel s (instance_ptr fault) with
  | None => (NV_ERR_INVALID_CHANNEL, None)
  | Some u =>
      if negb (in_subctx u) ||
         bool_decide (client_type (fault_source fault) = UVM_FAULT_CLIENT_TYPE_HUB)
      then (NV_OK, Some (channel_va_space u))
      else
        let id := u32 (ve_id (fault_source fault) - smc_engine_ve_id_offset u) in
        match user_channel_and_subctx_to_va_space s u id with
        | Some va => (NV_OK, Some va)
        | None => (NV_ERR_PAGE_TABLE_NOT_AVAIL, None)
        end
  end.

(** ** Counting channels *)

Definition count_channels (f : uvm_user_channel_t -> bool) (m : gmap nat uvm_user_channel_t) : Z :=
  map_fold (fun _ u n => (if f u then 1 else 0) + n) 0 m.

Lemma count_insert f (m : gmap nat uvm_user_channel_t) c u :
  m !! c = None -> count_channels f (<[c := u]> m) = (if f u then 1 else 0) + count_channels f m.
Proof.
  intros Hc. unfold count_channels. rewrite map_fold_insert_L; [done| |done].
  intros. lia.
Qed.

Lemma count_alter f (m : gmap nat uvm_user_channel_t) c u g :
  m !! c = Some u ->
  count_channels f (alter g c m) =
  count_channels f m - (if f u then 1 else 0) + (if f (g u) then 1 else 0).
Proof.
  intros Hc. rewrite <- (insert_delete_id m c u Hc) at 1 2.
  rewrite alter_insert_eq, !count_insert by apply lookup_delete_eq. lia.
Qed.

Lemma count_nonneg f m : 0 <= count_channels f m <= Z.of_nat (size m).
Proof.
  induction m as [|c u m Hc IH] using map_ind.
  - unfold count_channels. rewrite map_fold_empty, map_size_empty. lia.
  - rewrite count_insert, map_size_insert_None by done. destruct (f u); lia.
Qed.

Lemma count_pos f (m : gmap nat uvm_user_channel_t) c u :
  m !! c = Some u -> f u = true -> 0 < count_channels f m.
Proof.
  intros Hc Hf. rewrite <- (insert_delete_id m c u Hc), count_insert, Hf by apply lookup_delete_eq.
  pose proof (count_nonneg f (delete c m)). lia.
Qed.

Lemma count_zero f (m : gmap nat uvm_user_channel_t) c u :
  count_channels f m = 0 -> m !! c = Some u -> f u = false.
Proof.
  intros H0 Hc. destruct (f u) eqn:E; [|done]. pose proof (count_pos f m c u Hc E). lia.
Qed.

Lemma count_pos_inv f (m : gmap nat uvm_user_channel_t) :
  0 < count_channels f m -> exists c u, m !! c = Some u /\ f u = true.
Proof.
  induction m as [|c u m Hc IH] using map_ind.
  - unfold count_channels. rewrite map_fold_empty. lia.
  - rewrite count_insert by done. destruct (f u) eqn:Hf.
    + intros _. exists c, u. by rewrite lookup_insert_eq.
    + intros (c' & u' & Hu' & Hf')%IH. exists c', u'.
      rewrite lookup_insert_ne by congruence. done.
Qed.

(** The channels bound to a TSG, and to one of its subcontexts. *)
Definition in_tsg (t : Z) (u : uvm_user_channel_t) : bool := bool_decide (subctx_info u = Some t).
Definition in_tsg_subctx (t : Z) (i : nat) (u : uvm_user_channel_t) : bool :=
  in_tsg t u && bool_decide (Z.to_nat (subctx_id u) = i).

(** ** Well-formed tables *)

(** One subcontext slot: its reference count is the number of channels bound
    to it, and its VA space is theirs. *)
Record slot_ok (t : Z) (i : nat) (m : gmap nat uvm_user_channel_t) (x : subctx_t) : Prop := {
  so_count : subctx_refcount x = count_channels (in_tsg_subctx t i) m;
  so_va : forall c u, m !! c = Some u -> in_tsg_subctx t i u = true ->
    subctx_va_space x = Some (channel_va_space u);
  so_none : subctx_refcount x = 0 -> subctx_va_space x = None;
}.

Record info_ok (t : Z) (m : gmap nat uvm_user_channel_t) (info : uvm_user_channel_subctx_info_t)
  : Prop := {
  io_total : total_refcount info = count_channels (in_tsg t) m;
  io_slots : forall i x, subctxs info !! i = Some x -> slot_ok t i m x;
}.

Record channels_ok (s : channel_tables) : Prop := {
  co_size : Z.of_nat (size (chans s)) < 2 ^ 32;
  co_inst : forall k c, instance_ptr_table s !! k = Some c ->
    exists u, chans s !! c = Some u /\ node_empty u = false /\ node_key u = k /\
      instance_ptr_to_key (instance_ptr_addr u) = k;
  co_info : forall t info, tsg_table s !! t = Some info ->
    info_ok t (chans s) info /\ 0 < total_refcount info;
  co_bound : forall c u t, chans s !! c = Some u -> subctx_info u = Some t ->
    tsg_id u = t /\ exists info, tsg_table s !! t = Some info /\
      (Z.to_nat (subctx_id u) < length (subctxs info))%nat;
}.

(** A channel ready to be registered: not in any table, its instance pointer
    not yet in use, its subcontext within the TSG and with the VA space of the
    other channels of that subcontext. *)
Record channel_new (s : channel_tables) (c : nat) (u : uvm_user_channel_t) : Prop := {
  cn_lookup : chans s !! c = Some u;
  cn_info : subctx_info u = None;
  cn_node : node_empty u = true;
  cn_key : instance_ptr_table s !! instance_ptr_to_key (instance_ptr_addr u) = None;
  cn_sub : (Z.to_nat (subctx_id u) < Z.to_nat (tsg_max_subctx_count u))%nat;
  cn_tsg : forall info, tsg_table s !! tsg_id u = Some info ->
    length (subctxs info) = Z.to_nat (tsg_max_subctx_count u);
  cn_va : forall c' u', chans s !! c' = Some u' ->
    in_tsg_subctx (tsg_id u) (Z.to_nat (subctx_id u)) u' = true ->
    channel_va_space u' = channel_va_space u;
}.

(** ** Preservation *)

Lemma alter_alter {A} (m : gmap nat A) f g c :
  alter g c (alter f c m) = alter (fun x => g (f x)) c m.
Proof.
  apply map_eq. intros k. destruct (decide (k = c)) as [->|Hne].
  - rewrite !lookup_alter_eq. by destruct (m !! c).
  - by rewrite !lookup_alter_ne.
Qed.

Lemma size_alter {A} (m : gmap nat A) f c : size (alter f c m) = size m.
Proof.
  destruct (m !! c) as [x|] eqn:Hx.
  - rewrite <- (insert_delete_id m c x Hx) at 1 2.
    rewrite alter_insert_eq, !map_size_insert_None by apply lookup_delete_eq. done.
  - by rewrite alter_id by (intros; congruence).
Qed.

Lemma lookup_alter_cases {A} (m : gmap nat A) f c c' x :
  alter f c m !! c' = Some x ->
  (c' = c /\ exists y, m !! c = Some y /\ x = f y) \/ (c' <> c /\ m !! c' = Some x).
Proof.
  destruct (decide (c' = c)) as [->|Hne].
  - rewrite lookup_alter_eq, fmap_Some. intros (y & ? & ->). left; eauto.
  - rewrite lookup_alter_ne by done. by right.
Qed.

(** Updates of a channel that keep its binding to a subcontext. *)
Lemma slot_ok_keep t i m x c g :
  (forall u, m !! c = Some u -> in_tsg_subctx t i (g u) = in_tsg_subctx t i u /\
     channel_va_space (g u) = channel_va_space u) ->
  slot_ok t i m x -> slot_ok t i (alter g c m) x.
Proof.
  intros Hg [Hc Hv Hn]. split; [|intros c' u' [(-> & u & Hu & ->)|[_ Hu]]%lookup_alter_cases|done].
  - rewrite Hc. destruct (m !! c) as [u|] eqn:Hu.
    + rewrite (count_alter _ _ _ u) by done. destruct (Hg u eq_refl) as [-> _]. lia.
    + by rewrite alter_id by (intros; congruence).
  - destruct (Hg u Hu) as [-> ->]. eauto.
  - eauto.
Qed.

Lemma info_ok_keep t m info c g :
  (forall u, m !! c = Some u -> in_tsg t (g u) = in_tsg t u) ->
  (forall i u, m !! c = Some u -> in_tsg_subctx t i (g u) = in_tsg_subctx t i u /\
     channel_va_space (g u) = channel_va_space u) ->
  info_ok t m info -> info_ok t (alter g c m) info.
Proof.
  intros Ht Hg [Htot Hs]. split; [|eauto using slot_ok_keep].
  rewrite Htot. destruct (m !! c) as [u|] eqn:Hu.
  - rewrite (count_alter _ _ _ u), Ht by done. lia.
  - by rewrite alter_id by (intros; congruence).
Qed.

Lemma count_false f m : (forall c u, m !! c = Some u -> f u = false) -> count_channels f m = 0.
Proof.
  induction m as [|c u m Hc IH] using map_ind; intros Hf.
  - unfold count_channels. by rewrite map_fold_empty.
  - rewrite count_insert by done. rewrite (Hf c u) by apply lookup_insert_eq.
    rewrite IH; [done|]. intros c' u' Hu'. apply (Hf c').
    rewrite lookup_insert_ne; [done|]. congruence.
Qed.

Lemma info_ok_fresh t m e n :
  (forall c u, m !! c = Some u -> subctx_info u <> Some t) ->
  info_ok t m (mk_subctx_info 0 e (replicate n (mk_subctx None 0))).
Proof.
  intros Hm.
  assert (forall c u, m !! c = Some u -> in_tsg t u = false) as Ht.
  { intros c u Hu. apply bool_decide_eq_false. eauto. }
  split; simpl; [by rewrite count_false|]. intros i x [-> _]%lookup_replicate. split; simpl; [|intros c u Hu|done].
  - rewrite count_false; [done|]. intros c u Hu. unfold in_tsg_subctx. by erewrite Ht.
  - unfold in_tsg_subctx. by erewrite Ht.
Qed.

Section Bind.
  Variables (m : gmap nat uvm_user_channel_t) (c : nat) (u : uvm_user_channel_t) (t : Z).
  Hypothesis Hu : m !! c = Some u.
  Hypothesis Hsize : Z.of_nat (size m) < 2 ^ 32.

Let bound := alter (fun u => u <| subctx_info := Some (tsg_id u) |>) c m.
Let released := alter (fun u => u <| subctx_info := None |>) c m.

Lemma in_tsg_bound t' : tsg_id u = t -> in_tsg t' (u <| subctx_info := Some (tsg_id u) |>) = bool_decide (t' = t).
Proof. intros <-. unfold in_tsg. apply bool_decide_ext. simpl. split; congruence. Qed.

Lemma count_room f : f u = false -> count_channels f m + 1 < 2 ^ 32.
Proof.
  intros Hf. rewrite <- (insert_delete_id m c u Hu) at 1.
  rewrite count_insert, Hf by apply lookup_delete_eq.
  pose proof (count_nonneg f (delete c m)) as Hn. rewrite map_size_delete_Some in Hn by done.
  assert (size m <> 0%nat) by (apply (map_size_ne_0_lookup_2 m c); eauto). lia.
Qed.

Lemma retain_slot_ok x i :
  subctx_info u = None -> tsg_id u = t -> Z.to_nat (subctx_id u) = i ->
  (forall c' u', m !! c' = Some u' -> in_tsg_subctx t i u' = true ->
     channel_va_space u' = channel_va_space u) ->
  slot_ok t i m x -> slot_ok t i bound (retain_subctx (channel_va_space u) x).
Proof.
  intros Hnone Ht Hi Hva [Hc Hv Hn].
  assert (in_tsg_subctx t i u = false) as H1 by (unfold in_tsg_subctx, in_tsg; by rewrite Hnone).
  assert (in_tsg_subctx t i (u <| subctx_info := Some (tsg_id u) |>) = true) as H2.
  { unfold in_tsg_subctx. rewrite in_tsg_bound by done. rewrite !bool_decide_true by done. done. }
  pose proof (count_nonneg (in_tsg_subctx t i) m) as Hn0. pose proof (count_room _ H1) as Hroom.
  assert (subctx_va_space (retain_subctx (channel_va_space u) x) = Some (channel_va_space u)) as Hva'.
  { unfold retain_subctx. case (Z.ltb_spec 0 (subctx_refcount x)); intros Hx; [|done]. simpl.
    rewrite Hc in Hx. apply count_pos_inv in Hx as (c' & u' & Hu' & Hin).
    rewrite (Hv c' u') by done. f_equal. eauto. }
  assert (subctx_refcount (retain_subctx (channel_va_space u) x) = subctx_refcount x + 1) as Hr.
  { unfold retain_subctx. destruct (0 <? subctx_refcount x); simpl; apply u32_small; lia. }
  split.
  - unfold bound. rewrite Hr, Hc, (count_alter _ _ _ u), H1, H2 by done. lia.
  - intros c' u' [(-> & v & Hu' & ->)|[_ Hu']]%lookup_alter_cases Hin.
    + assert (v = u) as -> by congruence. rewrite Hva'. done.
    + rewrite Hva'. f_equal. symmetry. eauto.
  - intros. lia.
Qed.

(** A slot or TSG the channel is not in, before and after, is unaffected. *)
Lemma bound_slot_other x i :
  subctx_info u = None -> tsg_id u = t -> Z.to_nat (subctx_id u) <> i ->
  slot_ok t i m x -> slot_ok t i bound x.
Proof.
  intros Hnone Ht Hi. apply slot_ok_keep. intros v Hv. assert (v = u) as -> by congruence.
  split; [|done]. unfold in_tsg_subctx. simpl. rewrite (bool_decide_false (_ = i)) by done.
  by rewrite !andb_false_r.
Qed.

Lemma bound_info_other info t' :
  subctx_info u = None -> tsg_id u = t -> t' <> t -> info_ok t' m info -> info_ok t' bound info.
Proof.
  intros Hnone Ht Hne.
  assert (in_tsg t' u = false) as H1 by (unfold in_tsg; by rewrite Hnone).
  assert (in_tsg t' (u <| subctx_info := Some (tsg_id u) |>) = false) as H2.
  { rewrite in_tsg_bound by done. by apply bool_decide_false. }
  apply info_ok_keep; [intros v Hv|intros i v Hv]; assert (v = u) as -> by congruence.
  - by rewrite H1, H2.
  - split; [|done]. unfold in_tsg_subctx. by rewrite H1, H2.
Qed.

Lemma retain_info_ok info :
  subctx_info u = None -> tsg_id u = t ->
  (forall c' u', m !! c' = Some u' -> in_tsg_subctx t (Z.to_nat (subctx_id u)) u' = true ->
     channel_va_space u' = channel_va_space u) ->
  info_ok t m info ->
  let info' := info <| subctxs ::= alter (retain_subctx (channel_va_space u)) (Z.to_nat (subctx_id u)) |>
                    <| total_refcount ::= fun n => u32 (n + 1) |> in
  info_ok t bound info' /\ 0 < total_refcount info'.
Proof.
  intros Hnone Ht Hva [Htot Hs] info'.
  assert (in_tsg t u = false) as H1 by (unfold in_tsg; by rewrite Hnone).
  pose proof (count_nonneg (in_tsg t) m). pose proof (count_room _ H1).
  assert (total_refcount info' = total_refcount info + 1) as Htot'.
  { unfold info'. simpl. apply u32_small. lia. }
  split; [split|lia].
  - rewrite Htot', Htot. unfold bound. rewrite (count_alter _ _ _ u), H1, in_tsg_bound by done.
    rewrite bool_decide_true by done. lia.
  - intros i x Hx. unfold info' in Hx. simpl in Hx.
    destruct (decide (Z.to_nat (subctx_id u) = i)) as [<-|Hi].
    + rewrite list_lookup_alter_eq, fmap_Some in Hx. destruct Hx as (y & Hy & ->).
      apply retain_slot_ok; eauto.
    + rewrite list_lookup_alter_ne in Hx by done. apply bound_slot_other; eauto.
Qed.

Lemma in_tsg_released t' : in_tsg t' (u <| subctx_info := None |>) = false.
Proof. by apply bool_decide_false. Qed.

Lemma release_slot_ok x :
  subctx_info u = Some t -> slot_ok t (Z.to_nat (subctx_id u)) m x ->
  slot_ok t (Z.to_nat (subctx_id u)) released (release_subctx x).
Proof.
  intros Ht [Hc Hv Hn]. set (i := Z.to_nat (subctx_id u)) in *.
  assert (in_tsg_subctx t i u = true) as H1.
  { unfold in_tsg_subctx, in_tsg. by rewrite !bool_decide_true. }
  assert (in_tsg_subctx t i (u <| subctx_info := None |>) = false) as H2.
  { unfold in_tsg_subctx. by rewrite in_tsg_released. }
  pose proof (count_pos _ m c u Hu H1). pose proof (count_nonneg (in_tsg_subctx t i) m).
  assert (u32 (subctx_refcount x - 1) = subctx_refcount x - 1) as Hr by (apply u32_small; lia).
  assert (count_channels (in_tsg_subctx t i) released = subctx_refcount x - 1) as Hc'.
  { unfold released. rewrite (count_alter _ _ _ u), H1, H2 by done. lia. }
  unfold release_subctx. rewrite Hr.
  case (Z.eqb_spec (subctx_refcount x - 1) 0); intros Hz; split; simpl; try done.
  - intros c' u' Hu' Hin. pose proof (count_pos _ _ c' u' Hu' Hin). lia.
  - intros c' u' [(-> & v & Hv' & ->)|[_ Hu']]%lookup_alter_cases Hin; [|eauto].
    assert (v = u) as -> by congruence. by rewrite H2 in Hin.
Qed.

Lemma released_slot_other x i :
  Z.to_nat (subctx_id u) <> i -> slot_ok t i m x -> slot_ok t i released x.
Proof.
  intros Hi. apply slot_ok_keep. intros v Hv. assert (v = u) as -> by congruence.
  split; [|done]. unfold in_tsg_subctx. simpl. rewrite (bool_decide_false (_ = i)) by done.
  by rewrite !andb_false_r.
Qed.

Lemma released_info_other info t' :
  subctx_info u = Some t -> t' <> t -> info_ok t' m info -> info_ok t' released info.
Proof.
  intros Ht Hne.
  assert (in_tsg t' u = false) as H1 by (apply bool_decide_false; congruence).
  apply info_ok_keep; [intros v Hv|intros i v Hv]; assert (v = u) as -> by congruence.
  - by rewrite H1, in_tsg_released.
  - split; [|done]. unfold in_tsg_subctx. by rewrite H1, in_tsg_released.
Qed.

Lemma release_info_ok info :
  subctx_info u = Some t -> info_ok t m info ->
  let info' := info <| subctxs ::= alter release_subctx (Z.to_nat (subctx_id u)) |>
                    <| total_refcount ::= fun n => u32 (n - 1) |> in
  info_ok t released info' /\ 0 <= total_refcount info'.
Proof.
  intros Ht [Htot Hs] info'.
  assert (in_tsg t u = true) as H1 by by apply bool_decide_true.
  pose proof (count_pos _ m c u Hu H1). pose proof (count_nonneg (in_tsg t) m).
  assert (total_refcount info' = total_refcount info - 1) as Htot'.
  { unfold info'. simpl. apply u32_small. lia. }
  split; [split|lia].
  - rewrite Htot', Htot. unfold released.
    rewrite (count_alter _ _ _ u), H1, in_tsg_released by done. lia.
  - intros i x Hx. unfold info' in Hx. simpl in Hx.
    destruct (decide (Z.to_nat (subctx_id u) = i)) as [<-|Hi].
    + rewrite list_lookup_alter_eq, fmap_Some in Hx. destruct Hx as (y & Hy & ->).
      apply release_slot_ok; eauto.
    + rewrite list_lookup_alter_ne in Hx by done. apply released_slot_other; eauto.
Qed.

End Bind.

Section Register.
  Variables (s : channel_tables) (c : nat) (u : uvm_user_channel_t).
  Hypothesis Hok : channels_ok s.
  Hypothesis Hnew : channel_new s c u.

  Abbreviation bound_channel := (u <| subctx_info := Some (tsg_id u) |>).

Definition retained (info : uvm_user_channel_subctx_info_t) : uvm_user_channel_subctx_info_t :=
  info <| subctxs ::= alter (retain_subctx (channel_va_space u)) (Z.to_nat (subctx_id u)) |>
       <| total_refcount ::= fun n => u32 (n + 1) |>.

Definition registered (info : uvm_user_channel_subctx_info_t) : channel_tables :=
  upd_channel c (fun u => u <| subctx_info := Some (tsg_id u) |>)
    (s <| tsg_table ::= insert (tsg_id u) (retained info) |>).

Lemma registered_channel info : chans (registered info) !! c = Some bound_channel.
Proof. simpl. rewrite lookup_alter_eq, (cn_lookup _ _ _ Hnew). done. Qed.

Lemma registered_ok info :
  info_ok (tsg_id u) (chans s) info -> length (subctxs info) = Z.to_nat (tsg_max_subctx_count u) ->
  channels_ok (registered info).
Proof using Hok Hnew.
  intros Hinfo Hlen. destruct Hok as [Hsz Hinst Hi Hb], Hnew as [Hu Hnone Hnode Hkey Hsub Htsg Hva].
  split; simpl.
  - rewrite size_alter. done.
  - intros k c' Hc'. destruct (Hinst k c' Hc') as (u' & Hu' & He & Hrest).
    exists u'. rewrite lookup_alter_ne; [done|]. intros ->. congruence.
  - intros t info'. destruct (decide (t = tsg_id u)) as [->|Hne].
    + rewrite lookup_insert_eq. intros [= <-]. apply retain_info_ok; auto.
    + rewrite lookup_insert_ne by done. intros Ht. destruct (Hi t info' Ht).
      split; [|done]. eapply bound_info_other; eauto.
  - intros c' u' t [(-> & v & Hv & ->)|[_ Hu']]%lookup_alter_cases Ht.
    + assert (v = u) as -> by congruence. simpl in *. injection Ht as <-. split; [done|].
      exists (retained info). rewrite lookup_insert_eq. split; [done|]. simpl. rewrite length_alter. lia.
    + destruct (Hb c' u' t Hu' Ht) as (Hid & info' & Hinfo' & Hlt). split; [done|].
      destruct (decide (t = tsg_id u)) as [->|Hne].
      * exists (retained info). rewrite lookup_insert_eq. split; [done|]. simpl.
        rewrite length_alter, Hlen, <- (Htsg _ Hinfo'). done.
      * exists info'. rewrite lookup_insert_ne by done. done.
Qed.

Lemma registered_translates info :
  info_ok (tsg_id u) (chans s) info -> length (subctxs info) = Z.to_nat (tsg_max_subctx_count u) ->
  user_channel_and_subctx_to_va_space (registered info) bound_channel (subctx_id u) =
  Some (channel_va_space u).
Proof using Hok Hnew.
  intros Hinfo Hlen. pose proof (registered_ok info Hinfo Hlen) as Hreg.
  destruct (co_bound _ Hreg c _ (tsg_id u) (registered_channel info) eq_refl) as (_ & info' & Hl & Hlt).
  destruct (lookup_lt_is_Some_2 _ _ Hlt) as [x Hx].
  destruct (co_info _ Hreg _ _ Hl) as [Hio _].
  unfold user_channel_and_subctx_to_va_space. simpl in *. rewrite Hl. simpl.
  rewrite (list_lookup_total_correct _ _ _ Hx).
  apply (so_va _ _ _ _ (io_slots _ _ _ Hio _ _ Hx) c _ (registered_channel info)).
  unfold in_tsg_subctx, in_tsg. by rewrite !bool_decide_true.
Qed.

End Register.

(** Changes of a channel's tree node only. *)
Lemma channels_ok_node s c g :
  (forall u, subctx_info (g u) = subctx_info u /\ subctx_id (g u) = subctx_id u /\
     channel_va_space (g u) = channel_va_space u /\ tsg_id (g u) = tsg_id u) ->
  (forall k, instance_ptr_table s !! k <> Some c) ->
  channels_ok s -> channels_ok (upd_channel c g s).
Proof.
  intros Hg Hc [Hsz Hinst Hi Hb]. split; simpl.
  - rewrite size_alter. done.
  - intros k c' Hc'. destruct (Hinst k c' Hc') as (u' & Hu' & Hrest).
    exists u'. rewrite lookup_alter_ne; [done|]. intros ->. by eapply Hc.
  - intros t info Ht. destruct (Hi t info Ht) as [Hio Hp]. split; [|done].
    apply info_ok_keep; [intros v Hv|intros i v Hv|done]; destruct (Hg v) as (E1 & E2 & E3 & E4);
      unfold in_tsg_subctx, in_tsg; by rewrite ?E1, ?E2, ?E3.
  - intros c' u' t [(-> & v & Hv & ->)|[_ Hu']]%lookup_alter_cases Ht; [|eauto].
    destruct (Hg v) as (E1 & E2 & E3 & E4). rewrite E1 in Ht. rewrite E2, E4. eauto.
Qed.

(** What the first half of registration leaves for the second. *)
Record subctx_registered (s s' : channel_tables) (c : nat) (u v : uvm_user_channel_t) : Prop := {
  sr_ok : channels_ok s';
  sr_inst : instance_ptr_table s' = instance_ptr_table s;
  sr_lookup : chans s' !! c = Some v;
  sr_same : exists i, v = u <| subctx_info := i |>;
  sr_va : in_subctx u = true ->
    user_channel_and_subctx_to_va_space s' v (subctx_id u) = Some (channel_va_space u);
}.

Lemma registered_subctx s c u info :
  channels_ok s -> channel_new s c u -> info_ok (tsg_id u) (chans s) info ->
  length (subctxs info) = Z.to_nat (tsg_max_subctx_count u) ->
  subctx_registered s (registered s c u info) c u (u <| subctx_info := Some (tsg_id u) |>).
Proof.
  intros Hok Hnew Hinfo Hlen. split; eauto.
  - by apply registered_ok.
  - by apply registered_channel.
  - intros _. by apply registered_translates.
Qed.

Lemma add_subctx_info_spec i_ok a_ok s c u st s' :
  channels_ok s -> channel_new s c u ->
  parent_gpu_add_user_channel_subctx_info i_ok a_ok c u s = (st, s') ->
  (st = NV_ERR_NO_MEMORY /\ s' = s /\ i_ok && a_ok = false) \/
  (st = NV_OK /\ exists v, subctx_registered s s' c u v).
Proof.
  intros Hok Hnew. unfold parent_gpu_add_user_channel_subctx_info.
  destruct (in_subctx u) eqn:Hsub; simpl.
  2:{ intros [= <- <-]. right. split; [done|]. exists u. split; try done; [by apply Hnew| |congruence].
      exists (subctx_info u). by destruct u. }
  destruct (tsg_table s !! tsg_id u) as [info|] eqn:Ht.
  - intros [= <- <-]. right. split; [done|]. eexists.
    apply (registered_subctx s c u info Hok Hnew); [apply (co_info _ Hok _ _ Ht)|].
    by apply (cn_tsg _ _ _ Hnew).
  - destruct (i_ok && a_ok); simpl; intros [= <- <-]; [right|by left]. split; [done|]. eexists.
    apply (registered_subctx s c u _ Hok Hnew); [|simpl; by rewrite length_replicate].
    apply info_ok_fresh. intros c' u' Hu' Hc'.
    destruct (co_bound _ Hok c' u' _ Hu' Hc') as (_ & info & Hl & _). congruence.
Qed.

Definition node_added (key : Z) (u : uvm_user_channel_t) : uvm_user_channel_t :=
  (u <| node_key := key |>) <| node_empty := false |>.

Lemma add_instance_ptr_eq s c u :
  instance_ptr_table s !! instance_ptr_to_key (instance_ptr_addr u) = None ->
  let key := instance_ptr_to_key (instance_ptr_addr u) in
  parent_gpu_add_user_channel_instance_ptr c u s =
  (upd_channel c (node_added key) s) <| instance_ptr_table ::= insert key c |>.
Proof.
  intros Hk key. unfold parent_gpu_add_user_channel_instance_ptr. simpl. rewrite Hk.
  unfold upd_channel. destruct s as [m i t]. 
  match goal with |- ?a = ?b =>
    change (mk_tables (chans a) (instance_ptr_table a) (tsg_table a) =
            mk_tables (chans b) (instance_ptr_table b) (tsg_table b)) end.
  simpl. by rewrite alter_alter.
Qed.

Lemma add_instance_ptr_ok s c u v :
  channels_ok s -> chans s !! c = Some v -> node_empty v = true ->
  instance_ptr_addr v = instance_ptr_addr u ->
  instance_ptr_table s !! instance_ptr_to_key (instance_ptr_addr u) = None ->
  channels_ok (parent_gpu_add_user_channel_instance_ptr c u s).
Proof.
  intros Hok Hc He Ha Hk. rewrite add_instance_ptr_eq by done.
  set (key := instance_ptr_to_key (instance_ptr_addr u)) in *.
  assert (forall k, instance_ptr_table s !! k <> Some c) as Hout.
  { intros k Hkc. destruct (co_inst _ Hok _ _ Hkc) as (v' & Hv' & ? & _). congruence. }
  destruct (channels_ok_node s c (node_added key)) as [Hsz Hinst Hi Hb]; [done..|].
  split; [done| |done..]. simpl. intros k c'. destruct (decide (k = key)) as [->|Hne].
  - rewrite lookup_insert_eq. intros [= <-]. rewrite lookup_alter_eq, Hc. simpl.
    eexists. split; [done|]. split_and!; try done. simpl. by rewrite Ha.
  - rewrite lookup_insert_ne by done. apply Hinst.
Qed.

Lemma add_user_channel_ok i_ok a_ok s c u st s' :
  channels_ok s -> channel_new s c u ->
  uvm_parent_gpu_add_user_channel i_ok a_ok c s = (st, s') ->
  channels_ok s' /\
  (st = NV_OK /\ (forall fault, instance_ptr fault = instance_ptr_addr u ->
     (in_subctx u = true -> client_type (fault_source fault) <> UVM_FAULT_CLIENT_TYPE_HUB ->
      u32 (ve_id (fault_source fault) - smc_engine_ve_id_offset u) = subctx_id u) ->
     uvm_parent_gpu_fault_entry_to_va_space s' fault = (NV_OK, Some (channel_va_space u))) \/
   st = NV_ERR_NO_MEMORY /\ s' = s /\ i_ok && a_ok = false).
Proof.
  intros Hok Hnew Hadd. unfold uvm_parent_gpu_add_user_channel in Hadd.
  rewrite (lookup_total_correct _ _ _ (cn_lookup _ _ _ Hnew)) in Hadd.
  destruct (parent_gpu_add_user_channel_subctx_info i_ok a_ok c u s) as [st1 s1] eqn:E.
  apply add_subctx_info_spec in E as [(-> & -> & Ha)|(-> & v & [Hok1 Hinst Hv [i Hi] Hva])]; [..|done|done].
  { simpl in Hadd. injection Hadd as <- <-. auto. }
  simpl in Hadd. injection Hadd as <- <-.
  assert (instance_ptr_table s1 !! instance_ptr_to_key (instance_ptr_addr u) = None) as Hk
    by (rewrite Hinst; apply Hnew).
  split. { apply (add_instance_ptr_ok s1 c u v); [done..| | |done]; subst v; [apply Hnew|done]. }
  left. split; [done|]. intros fault Hp Hve.
  unfold uvm_parent_gpu_fault_entry_to_va_space, instance_ptr_to_user_channel.
  rewrite add_instance_ptr_eq by done. rewrite Hp. simpl. rewrite lookup_insert_eq. simpl.
  rewrite lookup_alter_eq, Hv. simpl. subst v. simpl in *.
  destruct (in_subctx u); simpl; [|done]. case_bool_decide as Hhub; [done|].
  rewrite Hve by done. specialize (Hva eq_refl). unfold user_channel_and_subctx_to_va_space in *.
  simpl in *. by rewrite Hva.
Qed.

(** C19: Registering a channel keeps the tables well formed, and from then on a
    fault that carries the channel's instance pointer and subcontext (or comes
    from a HUB client) translates to the channel's VA space; when memory runs
    out nothing has changed. *)
Theorem add_user_channel_translates i_ok a_ok s c u st s' :
  channels_ok s -> channel_new s c u ->
  uvm_parent_gpu_add_user_channel i_ok a_ok c s = (st, s') ->
  channels_ok s' /\
  (st = NV_OK /\ (forall fault, instance_ptr fault = instance_ptr_addr u ->
     (in_subctx u = true -> client_type (fault_source fault) <> UVM_FAULT_CLIENT_TYPE_HUB ->
      u32 (ve_id (fault_source fault) - smc_engine_ve_id_offset u) = subctx_id u) ->
     uvm_parent_gpu_fault_entry_to_va_space s' fault = (NV_OK, Some (channel_va_space u))) \/
   st = NV_ERR_NO_MEMORY /\ s' = s /\ i_ok && a_ok = false).
Proof. apply add_user_channel_ok. Qed.

(** ** Removal *)

Section Unregister.
  Variables (s : channel_tables) (c : nat) (u : uvm_user_channel_t).
  Hypothesis Hok : channels_ok s.
  Hypothesis Hu : chans s !! c = Some u.

Let s1 := parent_gpu_remove_user_channel_subctx_info_locked c u s.

Lemma remove_subctx_inst : instance_ptr_table s1 = instance_ptr_table s.
Proof. unfold s1, parent_gpu_remove_user_channel_subctx_info_locked. by destruct (subctx_info u). Qed.

Lemma remove_subctx_lookup c' : c' <> c -> chans s1 !! c' = chans s !! c'.
Proof.
  intros. unfold s1, parent_gpu_remove_user_channel_subctx_info_locked.
  destruct (subctx_info u); [|done]. simpl. by rewrite lookup_alter_ne.
Qed.

Definition released_info (info : uvm_user_channel_subctx_info_t) : uvm_user_channel_subctx_info_t :=
  info <| subctxs ::= alter release_subctx (Z.to_nat (subctx_id u)) |>
       <| total_refcount ::= fun n => u32 (n - 1) |>.

(** A channel still bound to the TSG keeps its information alive. *)
Lemma remove_subctx_tsg t info c' u' :
  subctx_info u = Some t -> tsg_table s !! t = Some info ->
  c' <> c -> chans s !! c' = Some u' -> subctx_info u' = Some t ->
  tsg_table s1 !! t = Some (released_info info).
Proof using Hok Hu.
  intros Ht Hinfo Hne Hu' Ht'. unfold s1, parent_gpu_remove_user_channel_subctx_info_locked.
  rewrite Ht. simpl. rewrite lookup_partial_alter_eq, Hinfo.
  match goal with |- context [?n =? 0] => change n with (total_refcount (released_info info)) end.
  destruct (co_info _ Hok t info Hinfo) as [Hio _].
  destruct (release_info_ok _ c u t Hu (co_size _ Hok) info Ht Hio) as [[Htot _] _].
  fold (released_info info) in Htot.
  match type of Htot with _ = ?n => assert (0 < n) as Hp end.
  { apply (count_pos _ _ c' u'); [by rewrite lookup_alter_ne|]. by apply bool_decide_true. }
  case (Z.eqb_spec (total_refcount (released_info info)) 0); intros; [lia|done].
Qed.

Lemma remove_subctx_self : exists i, chans s1 !! c = Some (u <| subctx_info := i |>).
Proof using Hu.
  unfold s1, parent_gpu_remove_user_channel_subctx_info_locked.
  destruct (subctx_info u) as [t|] eqn:Ht.
  - exists None. simpl. by rewrite lookup_alter_eq, Hu.
  - exists None. rewrite Hu, <- Ht. by destruct u.
Qed.

Lemma remove_subctx_ok : channels_ok s1.
Proof using Hok Hu.
  destruct (subctx_info u) as [t|] eqn:Ht.
  2:{ unfold s1, parent_gpu_remove_user_channel_subctx_info_locked. by rewrite Ht. }
  destruct (co_bound _ Hok c u t Hu Ht) as (Hid & info & Hinfo & Hlt).
  pose proof (release_info_ok _ c u t Hu (co_size _ Hok) info Ht (proj1 (co_info _ Hok _ _ Hinfo)))
    as [Hrel Hrel0]. fold (released_info info) in Hrel, Hrel0.
  split.
  - unfold s1, parent_gpu_remove_user_channel_subctx_info_locked. rewrite Ht. simpl.
    rewrite size_alter. apply Hok.
  - rewrite remove_subctx_inst. intros k c' Hc'.
    destruct (co_inst _ Hok k c' Hc') as (u' & Hu' & Hrest).
    destruct (decide (c' = c)) as [->|Hne]; [|exists u'; by rewrite remove_subctx_lookup].
    assert (u' = u) as -> by congruence. destruct remove_subctx_self as [i Hi].
    exists (u <| subctx_info := i |>). done.
  - unfold s1, parent_gpu_remove_user_channel_subctx_info_locked. rewrite Ht. simpl.
    intros t' info'. destruct (decide (t' = t)) as [->|Hne].
    + rewrite lookup_partial_alter_eq, Hinfo.
      match goal with |- context [?n =? 0] => change n with (total_refcount (released_info info)) end.
      case (Z.eqb_spec (total_refcount (released_info info)) 0); intros Hz [= <-].
      split; [exact Hrel|]. change (0 < total_refcount (released_info info)). lia.
    + rewrite lookup_partial_alter_ne by done. intros Hl. destruct (co_info _ Hok _ _ Hl).
      split; [|done]. eapply released_info_other; eauto.
  - intros c' u' t'. destruct (decide (c' = c)) as [->|Hne].
    + unfold s1, parent_gpu_remove_user_channel_subctx_info_locked. rewrite Ht. simpl.
      rewrite lookup_alter_eq, Hu. simpl. intros [= <-]. done.
    + rewrite remove_subctx_lookup by done. intros Hu' Ht'.
      destruct (co_bound _ Hok c' u' t' Hu' Ht') as (Hid' & info' & Hl & Hlt'). split; [done|].
      destruct (decide (t' = t)) as [->|Hnt].
      * exists (released_info info). split; [by apply (remove_subctx_tsg t info c' u')|].
        assert (info' = info) as -> by congruence. simpl. by rewrite length_alter.
      * exists info'. split; [|done]. unfold s1, parent_gpu_remove_user_channel_subctx_info_locked.
        rewrite Ht. simpl. by rewrite lookup_partial_alter_ne.
Qed.

End Unregister.

Lemma remove_subctx_va s c u c' u' id :
  channels_ok s -> chans s !! c = Some u -> c' <> c -> chans s !! c' = Some u' ->
  let s1 := parent_gpu_remove_user_channel_subctx_info_locked c u s in
  user_channel_and_subctx_to_va_space s1 u' id = user_channel_and_subctx_to_va_space s u' id \/
  (subctx_info u' = subctx_info u /\ Z.to_nat id = Z.to_nat (subctx_id u) /\
   (forall d v t, chans s !! d = Some v -> subctx_info u = Some t ->
      in_tsg_subctx t (Z.to_nat (subctx_id u)) v = true -> d = c) /\
   user_channel_and_subctx_to_va_space s1 u' id = None).
Proof.
  intros Hok Hu Hne Hu' s1. unfold user_channel_and_subctx_to_va_space.
  destruct (subctx_info u') as [t'|] eqn:Ht'; [|by left]. simpl.
  destruct (subctx_info u) as [t|] eqn:Ht.
  2:{ left. unfold s1, parent_gpu_remove_user_channel_subctx_info_locked. by rewrite Ht. }
  destruct (decide (t' = t)) as [->|Hnt].
  2:{ left. unfold s1, parent_gpu_remove_user_channel_subctx_info_locked. rewrite Ht. simpl.
      by rewrite lookup_partial_alter_ne. }
  destruct (co_bound _ Hok c u t Hu Ht) as (Hid & info & Hinfo & Hlt).
  unfold s1. rewrite (remove_subctx_tsg s c u Hok Hu t info c' u'), Hinfo by done. simpl.
  destruct (decide (Z.to_nat id = Z.to_nat (subctx_id u))) as [->|Hi].
  2:{ left. rewrite !list_lookup_total_alt, list_lookup_alter_ne by done. done. }
  destruct (lookup_lt_is_Some_2 _ _ Hlt) as [x Hx].
  rewrite !list_lookup_total_alt, list_lookup_alter_eq, Hx. simpl.
  pose proof (io_slots _ _ _ (proj1 (co_info _ Hok _ _ Hinfo)) _ _ Hx) as Hslot.
  unfold release_subctx. case (Z.eqb_spec (u32 (subctx_refcount x - 1)) 0); intros Hz; [right|by left].
  split_and!; try done. intros d v ? Hd [= <-] Hin.
  destruct (decide (d = c)) as [|Hdc]; [done|exfalso].
  destruct (release_slot_ok _ c u t Hu (co_size _ Hok) x Ht Hslot) as [Hc _ _].
  unfold release_subctx in Hc. rewrite Hz in Hc. simpl in Hc.
  pose proof (count_zero _ _ d v (eq_sym Hc)) as Hf. rewrite Hf in Hin; [done|].
  by rewrite lookup_alter_ne.
Qed.

(** The channel is the only one bound to its subcontext. *)
Definition last_of_subctx (s : channel_tables) (c : nat) (u : uvm_user_channel_t) : Prop :=
  forall d v t, chans s !! d = Some v -> subctx_info u = Some t ->
    in_tsg_subctx t (Z.to_nat (subctx_id u)) v = true -> d = c.

Lemma channels_ok_delete_inst s k :
  channels_ok s -> channels_ok (s <| instance_ptr_table ::= delete k |>).
Proof.
  intros [Hsz Hinst Hi Hb]. split; [done| |done..]. simpl.
  intros k' c [_ Hc]%lookup_delete_Some. eauto.
Qed.

(** Removing a registered channel keeps the tables well formed; faults with
    its instance pointer are then reported as coming from an invalid channel;
    and any other fault translates as before, unless the channel was the last
    one of the fault's subcontext, in which case the page table is reported as
    not available. *)
Theorem remove_user_channel_spec s c u :
  channels_ok s -> chans s !! c = Some u -> node_empty u = false ->
  instance_ptr_table s !! node_key u = Some c ->
  let s' := uvm_parent_gpu_remove_user_channel c s in
  channels_ok s' /\
  (forall fault, instance_ptr fault = instance_ptr_addr u ->
     uvm_parent_gpu_fault_entry_to_va_space s' fault = (NV_ERR_INVALID_CHANNEL, None)) /\
  (forall fault, instance_ptr_to_key (instance_ptr fault) <> node_key u ->
     uvm_parent_gpu_fault_entry_to_va_space s' fault = uvm_parent_gpu_fault_entry_to_va_space s fault \/
     (uvm_parent_gpu_fault_entry_to_va_space s' fault = (NV_ERR_PAGE_TABLE_NOT_AVAIL, None) /\
      last_of_subctx s c u)).
Proof.
  intros Hok Hu He Hk s'. unfold s', uvm_parent_gpu_remove_user_channel.
  rewrite (lookup_total_correct _ _ _ Hu). unfold parent_gpu_remove_user_channel_instance_ptr_locked.
  rewrite He. set (s1 := parent_gpu_remove_user_channel_subctx_info_locked c u s).
  destruct (co_inst _ Hok _ _ Hk) as (v & Hv & _ & _ & Hkey). assert (v = u) as -> by congruence.
  assert (instance_ptr_table s1 = instance_ptr_table s) as Hinst by apply remove_subctx_inst.
  split; [|split].
  - apply channels_ok_delete_inst. by apply remove_subctx_ok.
  - intros fault Hp. unfold uvm_parent_gpu_fault_entry_to_va_space, instance_ptr_to_user_channel.
    simpl. by rewrite Hp, Hkey, lookup_delete_eq.
  - intros fault Hp. unfold uvm_parent_gpu_fault_entry_to_va_space, instance_ptr_to_user_channel.
    simpl. rewrite lookup_delete_ne, Hinst by done.
    destruct (instance_ptr_table s !! instance_ptr_to_key (instance_ptr fault)) as [c'|] eqn:Hc';
      [|by left]. simpl.
    assert (c' <> c) as Hne.
    { intros ->. destruct (co_inst _ Hok _ _ Hc') as (v & Hv' & _ & Hnk & _). congruence. }
    unfold s1. rewrite remove_subctx_lookup by done.
    destruct (chans s !! c') as [u'|] eqn:Hu'; [|by left].
    case_match; [by left|].
    destruct (remove_subctx_va s c u c' u' (u32 (ve_id (fault_source fault) - smc_engine_ve_id_offset u'))
      Hok Hu Hne Hu') as [Hsame|(_ & _ & Hlast & Hnone)];
      unfold user_channel_and_subctx_to_va_space in *; simpl.
    + left. by rewrite Hsame.
    + right. by rewrite Hnone.
Qed.

(** On 4K-aligned instance pointers in video or system memory the table key
    determines the instance pointer: two channels never share a key. *)
Theorem instance_ptr_to_key_inj p q :
  0 <= phys_address p < 2 ^ 64 -> 0 <= phys_address q < 2 ^ 64 ->
  phys_address p mod 4096 = 0 -> phys_address q mod 4096 = 0 ->
  phys_aperture p = UVM_APERTURE_VID \/ phys_aperture p = UVM_APERTURE_SYS ->
  phys_aperture q = UVM_APERTURE_VID \/ phys_aperture q = UVM_APERTURE_SYS ->
  instance_ptr_to_key p = instance_ptr_to_key q -> p = q.
Proof.
  assert (forall a b, 0 <= a -> a mod 4096 = 0 -> b = 0 \/ b = 1 ->
    Z.lor (Z.shiftr a 11) b = 2 * (a / 4096) + b) as Hkey.
  { intros a b Ha Hm Hb. rewrite Z.shiftr_div_pow2 by lia. change (2 ^ 11) with 2048.
    assert (a / 2048 = 2 * (a / 4096)) as ->.
    { rewrite (Z.div_mod a 4096) at 1 by lia. rewrite Hm, Z.add_0_r.
      replace (4096 * (a / 4096)) with (2 * (a / 4096) * 2048) by lia. by rewrite Z.div_mul. }
    symmetry. rewrite Z.add_comm, Z.lor_comm. rewrite <- Z.lxor_lor, <- Z.add_nocarry_lxor; [done| |].
    all: apply Z.bits_inj'; intros n Hn; rewrite Z.land_spec, Z.bits_0;
      destruct (decide (n = 0)) as [->|]; rewrite ?Z.testbit_even_0, ?andb_false_r; try done;
      destruct Hb as [-> | ->]; rewrite ?Z.testbit_0_l; try done;
      change 1 with (2 ^ 0); rewrite Z.pow2_bits_eqb by lia;
      destruct (Z.eqb_spec 0 n); [lia|done]. }
  destruct p as [a1 ap1], q as [a2 ap2]. unfold instance_ptr_to_key. simpl.
  intros Hr1 Hr2 Hm1 Hm2 H1 H2.
  rewrite !Hkey; [|lia|done|case_bool_decide; auto|lia|done|case_bool_decide; auto].
  intros Heq. pose proof (Z.div_mod a1 4096 ltac:(lia)). pose proof (Z.div_mod a2 4096 ltac:(lia)).
  destruct H1 as [-> | ->], H2 as [-> | ->]; simpl in Heq; f_equal; lia.
Qed.

(** ** An example: two subcontexts of one TSG *)

Definition example_channel (va sub inst : Z) : uvm_user_channel_t :=
  mk_user_channel va true sub 7 4 0 0 None (mk_phys inst UVM_APERTURE_VID) 0 true.

Definition example_tables : channel_tables :=
  mk_tables {[ 0%nat := example_channel 10 0 4096; 1%nat := example_channel 11 1 8192 ]} ∅ ∅.

Definition example_fault (inst ve : Z) : uvm_fault_buffer_entry_t :=
  zero_entry <| instance_ptr := mk_phys inst UVM_APERTURE_VID |>
             <| fault_source := mk_source UVM_FAULT_CLIENT_TYPE_GPC UVM_MMU_ENGINE_TYPE_GRAPHICS
                                  0 0 0 0 ve |>.

Lemma example_lookup c u : chans example_tables !! c = Some u ->
  c = 0%nat /\ u = example_channel 10 0 4096 \/ c = 1%nat /\ u = example_channel 11 1 8192.
Proof.
  simpl. intros [[<- <-]|[_ [<- <-]%lookup_singleton_Some]]%lookup_insert_Some; auto.
Qed.

Lemma example_tables_ok : channels_ok example_tables.
Proof.
  split; [done|intros ??; simpl; by rewrite lookup_empty..|].
  intros c u t [[-> ->]|[-> ->]]%example_lookup; done.
Qed.

Lemma example_channel_new : channel_new example_tables 0 (example_channel 10 0 4096).
Proof.
  split; try done.
  - simpl. lia.
  - intros c' u' [[-> ->]|[-> ->]]%example_lookup; done.
Qed.

Definition example_added : channel_tables :=
  (uvm_parent_gpu_add_user_channel true true 0 example_tables).2.

Lemma add_user_channel_translates_witness :
  uvm_parent_gpu_fault_entry_to_va_space example_added (example_fault 4096 0) = (NV_OK, Some 10).
Proof.
  destruct (add_user_channel_translates true true example_tables 0 (example_channel 10 0 4096)
    NV_OK example_added example_tables_ok example_channel_new eq_refl)
    as [_ [[_ H]|[H _]]]; [|discriminate H].
  apply (H (example_fault 4096 0)); reflexivity.
Defined.

Lemma example_added_ok : channels_ok example_added.
Proof.
  apply (add_user_channel_ok true true example_tables 0 (example_channel 10 0 4096) NV_OK);
    [apply example_tables_ok|apply example_channel_new|done].
Qed.

Lemma remove_user_channel_spec_witness :
  uvm_parent_gpu_fault_entry_to_va_space
    (uvm_parent_gpu_remove_user_channel 0 example_added) (example_fault 4096 0) =
  (NV_ERR_INVALID_CHANNEL, None).
Proof.
  apply (remove_user_channel_spec example_added 0 (chans example_added !!! 0%nat) example_added_ok);
    reflexivity.
Defined.

Lemma instance_ptr_to_key_inj_witness : mk_phys 4096 UVM_APERTURE_VID = mk_phys 4096 UVM_APERTURE_VID.
Proof.
  apply (instance_ptr_to_key_inj (mk_phys 4096 UVM_APERTURE_VID) (mk_phys 4096 UVM_APERTURE_VID));
    simpl; try lia; auto.
Defined.
