(* ===== verification/Preprocess.v ===== *)
(** * Preprocessing a batch

    Sorting the coalesced faults, translating instance pointers to VA spaces
    and the previous-batch predictor ([uvm_gpu_replayable_faults.c], lines
    2122-2425). *)

From S2P Require Import Prelude FaultTypes Gpu SimDevice Sorting FaultBuffer Predictor Fetch Coalesce Channels.

Local Open Scope Z_scope.

(** ** Comparators on pointers into the cache *)

Definition cmp_sort_fault_entry_by_instance_ptr (c : cache_t) (i j : nat) : Z :=
  cmp_fault_instance_ptr (c !!! i) (c !!! j).

Definition cmp_sort_fault_entry_by_va_space_address_access_type (c : cache_t) (i j : nat) : Z :=
  let a := c !!! i in
  let b := c !!! j in
  let result := cmp_va_space (va_space a) (va_space b) in
  if negb (result =? 0) then result
  else
    let result := cmp_addr (fault_address a) (fault_address b) in
    if negb (result =? 0) then result
    else cmp_access_type (fault_access_type a) (fault_access_type b).

(** [for (i = 0, j = 0; i < n; ++i) if (!filtered) ordered[j++] = &cache[i];] *)
Fixpoint collect_unfiltered (c : cache_t) (n i j : nat) (ordered : list nat) : list nat * nat :=
  match n with
  | O => (ordered, j)
  | S n =>
      if filtered (c !!! i) then collect_unfiltered c n (S i) j ordered
      else collect_unfiltered c n (S i) (S j) (<[j := i]> ordered)
  end.

(** ** The previous-batch predictor *)

Definition check_fault_entry_duplicate (current : uvm_fault_buffer_entry_t)
    (previous : option uvm_fault_buffer_entry_t) : bool :=
  match previous with
  | Some previous =>
      bool_decide (va_space current = va_space previous) &&
      (fault_address current =? fault_address previous)
  | None => false
  end.

Definition cmp_prev_batch_key (a b : uvm_fault_prev_batch_key_t) : Z :=
  let result := cmp_va_space (bkey_va_space a) (bkey_va_space b) in
  if negb (result =? 0) then result
  else cmp_addr (bkey_address a) (bkey_address b).

#[export] Instance uvm_fault_prev_batch_key_inhabited :
  Inhabited uvm_fault_prev_batch_key_t := populate (mk_batch_key None 0).

(** The search loop, with the number of comparisons it has made. *)
Fixpoint prev_batch_search (needle : uvm_fault_prev_batch_key_t)
    (arr : list uvm_fault_prev_batch_key_t) (fuel left right : nat) (cmps : Z) : bool * Z :=
  match fuel with
  | O => (false, cmps)
  | S fuel =>
      if (left <? right)%nat then
        let mid := (left + (right - left) / 2)%nat in
        let cmp := cmp_prev_batch_key needle (arr !!! mid) in
        let cmps := cmps + 1 in
        if cmp =? 0 then (true, cmps)
        else if cmp <? 0 then prev_batch_search needle arr fuel left mid cmps
        else prev_batch_search needle arr fuel (S mid) right cmps
      else (false, cmps)
  end.

Definition prev_batch_keys_contains (r : uvm_replayable_fault_buffer_info_t)
    (va_space : option Z) (fault_address : Z) (b : uvm_fault_service_batch_context_t)
  : bool * uvm_fault_service_batch_context_t :=
  let n := Z.to_nat (prev_batch_key_count r) in
  let '(hit, cmps) :=
    prev_batch_search (mk_batch_key va_space fault_address) (prev_batch_keys r) n 0 n 0 in
  (hit, b <| pred ::= fun c =>
     c <| num_pred_prev_lookup_calls ::= fun k => u32 (k + 1) |>
       <| num_pred_prev_lookup_cmps ::= fun k => u32 (k + cmps) |>
       <| num_pred_prev_lookup_hits ::= fun k => if hit then u32 (k + 1) else k |> |>).

(** The state of the build loop: the fault buffer information and the batch,
    the keys written so far and the last entry that was not a duplicate. *)
Record prev_batch_loop : Type := mk_pbl {
  pbl_replayable : uvm_replayable_fault_buffer_info_t;
  pbl_batch : uvm_fault_service_batch_context_t;
  pbl_count : nat;
  pbl_previous : option nat;
}.

Definition prev_batch_step (s : prev_batch_loop) (i : nat) : prev_batch_loop :=
  let '(mk_pbl r b key_count previous) := s in
  let current := cache_at b i in
  let is_duplicate :=
    check_fault_entry_duplicate current (cache_at b <$> previous) in
  let b := upd_entry i (fun e => e <| pred_prev_candidate := false |>) b in
  if is_duplicate then mk_pbl r b key_count previous
  else
    let '(hit, b) := prev_batch_keys_contains r (va_space current) (fault_address current) b in
    let b :=
      if hit then
        (upd_entry i (fun e => e <| pred_prev_candidate := true |>) b)
          <| pred ::= fun c => c <| num_pred_prev_candidates ::= fun k => u32 (k + 1) |> |>
      else b in
    let key := mk_batch_key (va_space current) (fault_address current) in
    mk_pbl (r <| prev_batch_keys ::= insert key_count key |>) b (S key_count) (Some i).

Section Preprocess.
  Context {D : Type} `{Hal : FaultBufferHal D} `{!FaultBufferHalLive D} `{Ops : GpuOps D}
    `{KernelSort}.
  Variable P : module_params.
  Variable caps : gpu_caps.

  (** The channel tables at the time of a call; channels are registered and
      removed concurrently with fault servicing. *)
  Variable channels_at : uvm_gpu D -> channel_tables.

  Abbreviation M := (ST (uvm_gpu D)).

Definition update_prev_batch_predictor (r : uvm_replayable_fault_buffer_info_t)
    (b : uvm_fault_service_batch_context_t)
  : uvm_replayable_fault_buffer_info_t * uvm_fault_service_batch_context_t :=
  let b := b <| pred ::= fun c => c <| num_pred_prev_candidates := 0 |> |> in
  let l := take (Z.to_nat (num_coalesced_faults b)) (ordered_fault_cache b) in
  if negb (prev_batch_predictor_enabled P) then
    (r <| prev_batch_key_count := 0 |> <| last_batch_pred_candidate_pct := 0 |>,
     foldl (fun b i => upd_entry i (fun e => e <| pred_prev_candidate := false |>) b) b l)
  else
    let s := foldl prev_batch_step (mk_pbl r b O None) l in
    let b := pbl_batch s in
    let key_count := Z.of_nat (pbl_count s) in
    ((pbl_replayable s) <| prev_batch_key_count := key_count |>
       <| last_batch_pred_candidate_pct :=
            if num_coalesced_faults b =? 0 then 0
            else Z.min (u32 (num_pred_prev_candidates (pred b) * 100) / num_coalesced_faults b) 100 |>,
     b <| pred ::= fun c => c <| num_pred_prev_build_keys := key_count |> |>).

(** ** Translation *)

(** What happens when the translation of the entry at [i] fails: cancel the
    fault if only the subcontext is gone, then flush the buffer. *)
Definition translate_failed (i : nat) (st : NV_STATUS) : M NV_STATUS :=
  e ← gets (fun g => cache_at (batch g) i);
  try (if bool_decide (st = NV_ERR_PAGE_TABLE_NOT_AVAIL) then
         if smc_enabled caps
         then push_cancel_on_gpu_targeted (instance_ptr e) (gpc_id (fault_source e))
                (client_id (fault_source e))
         else push_cancel_on_gpu_global (instance_ptr e)
       else mret NV_OK) (
  try (fault_buffer_flush_locked caps UVM_GPU_BUFFER_FLUSH_MODE_UPDATE_PUT
         UVM_FAULT_REPLAY_TYPE_START true) (
  mret NV_WARN_MORE_PROCESSING_REQUIRED)).

(** The loop over [ordered_fault_cache]; [prev] is the pointer before. *)
Fixpoint translate_loop (prev : option nat) (l : list nat) : M NV_STATUS :=
  match l with
  | [] => mret NV_OK
  | i :: l =>
      b ← gets batch;
      let same :=
        match prev with
        | Some p => cmp_fault_instance_ptr (cache_at b i) (cache_at b p) =? 0
        | None => false
        end in
      if same then
        upd_batch (upd_entry i (fun e =>
          e <| va_space := va_space (entry_of b prev) |>)) ;;
        translate_loop (Some i) l
      else
        r ← gets (fun g =>
          uvm_parent_gpu_fault_entry_to_va_space (channels_at g) (cache_at (batch g) i));
        upd_batch (upd_entry i (fun e => e <| va_space := r.2 |>)) ;;
        if is_ok r.1 then translate_loop (Some i) l
        else translate_failed i r.1
  end.

Definition translate_instance_ptrs : M NV_STATUS :=
  b ← gets batch;
  translate_loop None (take (Z.to_nat (num_coalesced_faults b)) (ordered_fault_cache b)).

(** ** The whole preprocessing *)

(** Fill [ordered_fault_cache] with the unfiltered entries; sort it by instance
    pointer if the batch has more than one. *)
Definition collect_ordered (b : uvm_fault_service_batch_context_t) : uvm_fault_service_batch_context_t :=
  b <| ordered_fault_cache ::= fun o =>
    (collect_unfiltered (fault_cache b) (Z.to_nat (num_cached_faults b)) 0 0 o).1 |>.

Definition sort_by_instance_ptr (b : uvm_fault_service_batch_context_t) : uvm_fault_service_batch_context_t :=
  if is_single_instance_ptr b then b
  else b <| ordered_fault_cache ::=
         sort_prefix (cmp_sort_fault_entry_by_instance_ptr (fault_cache b))
           (Z.to_nat (num_coalesced_faults b)) |>.

Definition sort_by_va_space (b : uvm_fault_service_batch_context_t) : uvm_fault_service_batch_context_t :=
  b <| ordered_fault_cache ::=
    sort_prefix (cmp_sort_fault_entry_by_va_space_address_access_type (fault_cache b))
      (Z.to_nat (num_coalesced_faults b)) |>.

Definition run_prev_batch_predictor (g : uvm_gpu D) : uvm_gpu D :=
  let '(r, b) := update_prev_batch_predictor (replayable g) (batch g) in
  g <| replayable := r |> <| batch := b |>.

Definition preprocess_fault_batch : M NV_STATUS :=
  upd_batch collect_ordered ;;
  upd_batch sort_by_instance_ptr ;;
  try translate_instance_ptrs (
  upd_batch sort_by_va_space ;;
  modify run_prev_batch_predictor ;;
  run ← gets (fun g => prev_fetch_adaptive_should_run P (prev_fetch (replayable g)));
  when (prev_fetch_predictor_use_coalesced_pages P && run) (update_predictor P) ;;
  mret NV_OK).

End Preprocess.

(** ** The ordered view *)

Definition unfiltered_from (c : cache_t) (i n : nat) : list nat :=
  filter (fun k => filtered (c !!! k) = false) (seq i n).

Lemma collect_unfiltered_spec c n : forall i j o,
  (j + length (unfiltered_from c i n) <= length o)%nat ->
  collect_unfiltered c n i j o =
  (take j o ++ unfiltered_from c i n ++ drop (j + length (unfiltered_from c i n)) o,
   (j + length (unfiltered_from c i n))%nat).
Proof.
  induction n as [|n IH]; intros i j o; unfold unfiltered_from; simpl; intros Hj.
  - rewrite Nat.add_0_r, take_drop. done.
  - rewrite filter_cons in *. destruct (filtered (c !!! i)) eqn:Hf.
    + rewrite decide_False in * by done. by apply IH.
    + rewrite decide_True in * by done. simpl in *.
      rewrite IH; [|rewrite length_insert; unfold unfiltered_from; lia].
      fold (unfiltered_from c (S i) n). rewrite Nat.add_succ_r. simpl. f_equal.
      rewrite (take_S_r _ _ i) by (apply list_lookup_insert_eq; lia).
      rewrite take_insert_ge by lia. rewrite <- app_assoc. simpl. do 2 f_equal.
      f_equal. by rewrite drop_insert_lt by lia.
Qed.

(** [va_space] is not read by the translation, and it is all it writes. *)
Definition set_translated (T : channel_tables) (e : uvm_fault_buffer_entry_t)
  : uvm_fault_buffer_entry_t :=
  e <| va_space := (uvm_parent_gpu_fault_entry_to_va_space T e).2 |>.

Definition translated (T : channel_tables) (l : list nat) (c : cache_t) : cache_t :=
  foldl (fun c i => alter (set_translated T) i c) c l.

Lemma translated_lookup_out T l c i : i ∉ l -> translated T l c !! i = c !! i.
Proof.
  revert c. induction l as [|k l IH]; intros c Hi; [done|]. simpl.
  apply not_elem_of_cons in Hi as [Hk Hl]. unfold translated in *. simpl. rewrite IH by done.
  by rewrite list_lookup_alter_ne.
Qed.

Lemma translated_lookup_in T l c i :
  NoDup l -> i ∈ l -> translated T l c !! i = set_translated T <$> c !! i.
Proof.
  revert c. induction l as [|k l IH]; intros c Hnd Hi; [by apply not_elem_of_nil in Hi|].
  apply NoDup_cons in Hnd as [Hk Hnd]. unfold translated in *. simpl.
  destruct (decide (i = k)) as [->|Hne].
  - fold (translated T l (alter (set_translated T) k c)). rewrite translated_lookup_out by done.
    by rewrite list_lookup_alter_eq.
  - apply elem_of_cons in Hi as [?|Hi]; [done|]. rewrite IH by done. by rewrite list_lookup_alter_ne.
Qed.

Abbreviation translate := uvm_parent_gpu_fault_entry_to_va_space.

Lemma translate_ext T e e' :
  instance_ptr e = instance_ptr e' -> fault_source e = fault_source e' ->
  translate T e = translate T e'.
Proof. intros E1 E2. unfold uvm_parent_gpu_fault_entry_to_va_space. by rewrite E1, E2. Qed.

Lemma translate_same T e e' :
  cmp_fault_instance_ptr e e' = 0 ->
  client_type (fault_source e) = client_type (fault_source e') -> translate T e = translate T e'.
Proof.
  intros [E1 E2]%cmp_fault_instance_ptr_zero E3.
  unfold uvm_parent_gpu_fault_entry_to_va_space. by rewrite E1, E2, E3.
Qed.

Section Translate.
  Context {D : Type} `{Hal : FaultBufferHal D} `{!FaultBufferHalLive D} `{Ops : GpuOps D}.
  Variable caps : gpu_caps.
  Variable channels_at : uvm_gpu D -> channel_tables.
  Variable T : channel_tables.
  Hypothesis Hstable : forall g, channels_at g = T.

Lemma translate_failed_not_ok i st (g g' : uvm_gpu D) : translate_failed caps i st g <> (NV_OK, g').
Proof.
  unfold translate_failed, try. unfold mbind, ST_bind, mret, ST_ret, gets.
  repeat case_match; simplify_eq/=; try done; intros [= ->]; done.
Qed.

(** One entry: what the copy or the translation writes. *)
Lemma upd_translated (g : uvm_gpu D) i v :
  v = (translate T (cache_at (batch g) i)).2 ->
  g <| batch ::= upd_entry i (fun e => e <| va_space := v |>) |> =
  g <| batch ::= upd_entry i (set_translated T) |>.
Proof.
  intros Hv.
  assert (alter (fun e => e <| va_space := v |>) i (fault_cache (batch g)) =
          alter (set_translated T) i (fault_cache (batch g))) as Ha.
  { apply list_alter_ext; [|done]. intros x Hx. unfold set_translated. rewrite Hv.
    unfold cache_at. by rewrite (list_lookup_total_correct _ _ _ Hx). }
  unfold upd_entry. unfold upd in *. by rewrite Ha.
Qed.

Lemma cache_at_upd_ne i k f (b : uvm_fault_service_batch_context_t) :
  i <> k -> cache_at (upd_entry k f b) i = cache_at b i.
Proof. intros. unfold cache_at, upd_entry. simpl. by rewrite list_lookup_total_alter_ne. Qed.

Lemma cache_at_upd_eq i f (b : uvm_fault_service_batch_context_t) :
  (i < length (fault_cache b))%nat -> cache_at (upd_entry i f b) i = f (cache_at b i).
Proof. intros. unfold cache_at, upd_entry. simpl. by rewrite list_lookup_total_alter_eq. Qed.

(** [i] has been translated. *)
Definition is_translated (b : uvm_fault_service_batch_context_t) (i : nat) : Prop :=
  translate T (cache_at b i) = (NV_OK, va_space (cache_at b i)).

Record translate_pre (prev : option nat) (l : list nat) (g : uvm_gpu D) : Prop := {
  tp_prev : forall p, prev = Some p -> is_translated (batch g) p /\ p ∉ l;
  tp_nodup : NoDup l;
  tp_len : forall i, i ∈ l -> (i < length (fault_cache (batch g)))%nat;
  tp_gpc : forall i, i ∈ l \/ prev = Some i ->
    client_type (fault_source (cache_at (batch g) i)) = UVM_FAULT_CLIENT_TYPE_GPC;
}.

Definition translate_post (l : list nat) (g g' : uvm_gpu D) : Prop :=
  g' = g <| batch ::= fun b => b <| fault_cache ::= translated T l |> |> /\
  forall i, i ∈ l -> (translate T (cache_at (batch g) i)).1 = NV_OK.

Lemma translate_pre_tail prev i l (g : uvm_gpu D) :
  translate_pre prev (i :: l) g -> (translate T (cache_at (batch g) i)).1 = NV_OK ->
  translate_pre (Some i) l (g <| batch ::= upd_entry i (set_translated T) |>).
Proof.
  intros [Hprev [Hil Hnd]%NoDup_cons Hlen Hgpc] Hi.
  assert (i < length (fault_cache (batch g)))%nat as Hi' by (apply Hlen, elem_of_cons; auto).
  split; [|done| |].
  - intros p [= <-]. split; [|done]. unfold is_translated. simpl. rewrite cache_at_upd_eq by done. simpl.
    rewrite (translate_ext T _ (cache_at (batch g) i)) by done.
    destruct (translate T (cache_at (batch g) i)) as [st va]. simpl in *. by subst.
  - intros k Hk. simpl. rewrite length_alter. apply Hlen, elem_of_cons. auto.
  - intros k Hk. simpl. destruct (decide (k = i)) as [->|Hne].
    + rewrite cache_at_upd_eq by done. apply (Hgpc i). rewrite elem_of_cons. auto.
    + rewrite cache_at_upd_ne by done. apply Hgpc. rewrite elem_of_cons. destruct Hk; [auto|congruence].
Qed.

Lemma translate_post_cons i l (g g' : uvm_gpu D) :
  i ∉ l -> (translate T (cache_at (batch g) i)).1 = NV_OK ->
  translate_post l (g <| batch ::= upd_entry i (set_translated T) |>) g' ->
  translate_post (i :: l) g g'.
Proof.
  intros Hil Hi [-> Hl]. split; [done|]. intros k [->|Hk]%elem_of_cons; [done|].
  specialize (Hl k Hk). simpl in Hl. by rewrite cache_at_upd_ne in Hl by congruence.
Qed.

Lemma translate_loop_ok l : forall prev (g g' : uvm_gpu D),
  translate_pre prev l g -> translate_loop caps channels_at prev l g = (NV_OK, g') ->
  translate_post l g g'.
Proof using Hstable.
  induction l as [|i l IH]; intros prev g g' Hpre.
  { intros [= <-]. split; [by destruct g as [? ? ? ? ? [] ? ? ?]|]. intros i Hi. by apply not_elem_of_nil in Hi. }
  pose proof (NoDup_cons_1_1 _ _ (tp_nodup _ _ _ Hpre)) as Hil.
  assert (forall v, v = (translate T (cache_at (batch g) i)).2 ->
    (translate T (cache_at (batch g) i)).1 = NV_OK ->
    translate_loop caps channels_at (Some i) l
      (g <| batch ::= upd_entry i (fun e => e <| va_space := v |>) |>) = (NV_OK, g') ->
    translate_post (i :: l) g g') as Hstep.
  { intros v Hv Hi Hl. rewrite (upd_translated _ _ _ Hv) in Hl.
    apply translate_post_cons; [done..|]. eapply IH; [|done]. by eapply translate_pre_tail. }
  assert ((r ← gets (fun g => translate (channels_at g) (cache_at (batch g) i));
    upd_batch (upd_entry i (fun e => e <| va_space := r.2 |>)) ;;
    if is_ok r.1 then translate_loop caps channels_at (Some i) l else translate_failed caps i r.1) g
    = (NV_OK, g') -> translate_post (i :: l) g g') as Hcall.
  { unfold mbind, ST_bind, upd_batch, modify, gets. rewrite Hstable.
    destruct (is_ok _) eqn:Hok; intros Hl; [|by apply translate_failed_not_ok in Hl].
    eapply Hstep; [done| |done]. by destruct (translate T _) as [[] ?]. }
  simpl. unfold mbind at 1, ST_bind at 1, gets at 1. destruct prev as [p|]; [|done].
  destruct (Z.eqb_spec (cmp_fault_instance_ptr (cache_at (batch g) i) (cache_at (batch g) p)) 0)
    as [Hc|Hc]; [|done].
  destruct (tp_prev _ _ _ Hpre p eq_refl) as [Hp _].
  assert (translate T (cache_at (batch g) i) = translate T (cache_at (batch g) p)) as Heq.
  { apply translate_same; [done|]. rewrite !(tp_gpc _ _ _ Hpre); rewrite ?elem_of_cons; auto. }
  rewrite Hp in Heq. apply Hstep; by rewrite Heq.
Qed.

Lemma translate_upd_va (b : uvm_fault_service_batch_context_t) i k v :
  translate T (cache_at (upd_entry i (fun e => e <| va_space := v |>) b) k) = translate T (cache_at b k).
Proof.
  destruct (decide (k = i)) as [->|Hne]; [|by rewrite cache_at_upd_ne].
  destruct (decide (i < length (fault_cache b))%nat) as [Hi|Hi].
  - rewrite cache_at_upd_eq by done. by apply translate_ext.
  - unfold cache_at, upd_entry. simpl. 
    rewrite list_lookup_total_alt, (lookup_ge_None_2 (alter _ _ _)) by (rewrite length_alter; lia).
    by rewrite list_lookup_total_alt, lookup_ge_None_2 by lia.
Qed.

(** The loop succeeds when every entry translates. *)
Lemma translate_loop_total l : forall prev (g : uvm_gpu D),
  (forall i, i ∈ l -> (translate T (cache_at (batch g) i)).1 = NV_OK) ->
  exists g', translate_loop caps channels_at prev l g = (NV_OK, g').
Proof using Hstable.
  induction l as [|i l IH]; intros prev g Hl; [by eexists|]. simpl.
  assert (forall v, exists g', translate_loop caps channels_at (Some i) l
    (g <| batch ::= upd_entry i (fun e => e <| va_space := v |>) |>) = (NV_OK, g')) as Hnext.
  { intros v. apply IH. intros k Hk. simpl. rewrite translate_upd_va. apply Hl, elem_of_cons. auto. }
  unfold mbind, ST_bind, upd_batch, modify, gets. case_match; [apply Hnext|].
  rewrite Hstable, Hl by (apply elem_of_cons; auto). apply Hnext.
Qed.

End Translate.

(** ** The previous-batch predictor *)

Lemma cmp_prev_batch_key_order : cmp_order cmp_prev_batch_key.
Proof.
  apply (cmp_order_lex (fun a b => cmp_va_space (bkey_va_space a) (bkey_va_space b)));
    apply cmp_order_default.
Qed.

Lemma cmp_prev_batch_key_zero a b : cmp_prev_batch_key a b = 0 <-> a = b.
Proof.
  change (cmp_prev_batch_key a b) with
    (lex (fun a b => cmp_va_space (bkey_va_space a) (bkey_va_space b))
         (fun a b => cmp_addr (bkey_address a) (bkey_address b)) a b).
  unfold cmp_va_space, cmp_addr. rewrite lex_zero, !UVM_CMP_DEFAULT_zero.
  destruct a as [v x], b as [w y]; simpl. split; [|by intros [= -> ->]].
  by intros [->%va_space_num_inj ->].
Qed.

Lemma prev_batch_search_hit needle arr fuel : forall left right cmps cmps',
  prev_batch_search needle arr fuel left right cmps = (true, cmps') ->
  exists mid, (left <= mid < right)%nat /\ arr !!! mid = needle.
Proof.
  induction fuel as [|fuel IH]; intros left right cmps cmps'; [done|].
  cbn [prev_batch_search]. case (Nat.ltb_spec left right); intros Hlr; [|done].
  set (mid := (left + (right - left) / 2)%nat).
  assert (left <= mid < right)%nat as Hmid.
  { pose proof (Nat.div_lt (right - left) 2 ltac:(lia) ltac:(lia)). unfold mid. lia. }
  clearbody mid. case Z.eqb_spec; intros Hz.
  - intros _. exists mid. split; [lia|]. symmetry. by apply cmp_prev_batch_key_zero.
  - case Z.ltb_spec; intros _ (k & Hk & Hn)%IH; exists k; (split; [lia|done]).
Qed.

Definition batch_key_of (e : uvm_fault_buffer_entry_t) : uvm_fault_prev_batch_key_t :=
  mk_batch_key (va_space e) (fault_address e).

Lemma check_fault_entry_duplicate_spec e p :
  check_fault_entry_duplicate e (Some p) = true <-> batch_key_of e = batch_key_of p.
Proof.
  unfold check_fault_entry_duplicate, batch_key_of. rewrite andb_true_iff, bool_decide_eq_true, Z.eqb_eq.
  split; [by intros [-> ->]|by intros [= -> ->]].
Qed.

(** Entries up to the candidate flag, and a batch up to flags and counters. *)
Definition strip (e : uvm_fault_buffer_entry_t) : uvm_fault_buffer_entry_t :=
  e <| pred_prev_candidate := false |>.

Record same_batch (b b' : uvm_fault_service_batch_context_t) : Prop := {
  sb_cache : strip <$> fault_cache b' = strip <$> fault_cache b;
  sb_ordered : ordered_fault_cache b' = ordered_fault_cache b;
  sb_coalesced : num_coalesced_faults b' = num_coalesced_faults b;
  sb_cached : num_cached_faults b' = num_cached_faults b;
}.

#[export] Instance same_batch_preorder : PreOrder same_batch.
Proof.
  split; [by split|]. intros a b c [] []. split; congruence.
Qed.

Lemma same_batch_flag i v b : same_batch b (upd_entry i (fun e => e <| pred_prev_candidate := v |>) b).
Proof. split; try done. simpl. 
  rewrite (list_fmap_alter strip _ (fun e => e)) by (apply Forall_true; done). by rewrite list_alter_id.
Qed.

Lemma same_batch_at b b' i : same_batch b b' -> strip (cache_at b' i) = strip (cache_at b i).
Proof.
  intros [Hc _ _ _]. unfold cache_at. rewrite !list_lookup_total_alt.
  assert (strip <$> (fault_cache b' !! i) = strip <$> (fault_cache b !! i)) as H
    by (rewrite <- !list_lookup_fmap; by rewrite Hc).
  destruct (fault_cache b' !! i), (fault_cache b !! i); simpl in *; congruence.
Qed.

Lemma strip_key e e' : strip e = strip e' -> batch_key_of e = batch_key_of e'.
Proof. unfold strip, upd, batch_key_of. intros [=]. congruence. Qed.

Section PrevBatch.
  Variables (r0 : uvm_replayable_fault_buffer_info_t) (b0 : uvm_fault_service_batch_context_t).

  Abbreviation key i := (batch_key_of (cache_at b0 i)).
  Abbreviation old_keys := (take (Z.to_nat (prev_batch_key_count r0)) (prev_batch_keys r0)).

(** After the entries [seen]: the keys below [pbl_count] are theirs, the others
    are those of the previous batch. *)
Record pbl_inv (seen : list nat) (s : prev_batch_loop) : Prop := {
  pi_batch : same_batch b0 (pbl_batch s);
  pi_n : prev_batch_key_count (pbl_replayable s) = prev_batch_key_count r0;
  pi_len : length (prev_batch_keys (pbl_replayable s)) = length (prev_batch_keys r0);
  pi_cnt : (pbl_count s <= length seen)%nat;
  pi_old : forall j, (pbl_count s <= j)%nat ->
    prev_batch_keys (pbl_replayable s) !! j = prev_batch_keys r0 !! j;
  pi_new : forall j, (j < pbl_count s)%nat ->
    exists i, i ∈ seen /\ prev_batch_keys (pbl_replayable s) !! j = Some (key i);
  pi_all : forall i, i ∈ seen -> exists j, (j < pbl_count s)%nat /\
    prev_batch_keys (pbl_replayable s) !! j = Some (key i);
  pi_prev : match pbl_previous s with
            | None => seen = []
            | Some p => p ∈ seen /\ forall i, i ∈ seen -> cmp_prev_batch_key (key i) (key p) <= 0
            end;
  pi_hits : forall i, i ∈ seen -> pred_prev_candidate (cache_at (pbl_batch s) i) = true ->
    key i ∈ old_keys;
}.

Lemma pbl_inv_init b : same_batch b0 b -> pbl_inv [] (mk_pbl r0 b 0 None).
Proof. intros Hb. split; simpl; try done; try lia; intros i Hi; by apply not_elem_of_nil in Hi. Qed.

(** A search that hits while the array is being overwritten hits an old key. *)
Lemma overwritten_hit seen s k cmps :
  pbl_inv seen s -> (forall i, i ∈ seen -> cmp_prev_batch_key (key i) k < 0) ->
  (pbl_count s <= length (prev_batch_keys r0))%nat ->
  (Z.to_nat (prev_batch_key_count r0) <= length (prev_batch_keys r0))%nat ->
  let n := Z.to_nat (prev_batch_key_count (pbl_replayable s)) in
  prev_batch_search k (prev_batch_keys (pbl_replayable s)) n 0 n 0 = (true, cmps) ->
  k ∈ old_keys.
Proof.
  intros Hinv Hlt Hc Hn n (mid & Hmid & Hk)%prev_batch_search_hit.
  unfold n in Hmid. rewrite (pi_n _ _ Hinv) in Hmid.
  destruct (decide (mid < pbl_count s)%nat) as [Hm|Hm].
  - destruct (pi_new _ _ Hinv mid Hm) as (i & Hi & Hl).
    rewrite (list_lookup_total_correct _ _ _ Hl) in Hk. specialize (Hlt i Hi).
    rewrite Hk in Hlt. rewrite (cmp_refl cmp_prev_batch_key_order) in Hlt. lia.
  - apply list_elem_of_lookup. exists mid. rewrite lookup_take_lt by lia.
    rewrite <- (pi_old _ _ Hinv mid) by lia. rewrite <- Hk. apply list_lookup_lookup_total_lt.
    rewrite (pi_len _ _ Hinv). lia.
Qed.

Lemma strict_before seen s cur :
  pbl_inv seen s -> (forall i, i ∈ seen -> cmp_prev_batch_key (key i) (key cur) <= 0) ->
  check_fault_entry_duplicate (cache_at (pbl_batch s) cur)
    (cache_at (pbl_batch s) <$> pbl_previous s) = false ->
  forall i, i ∈ seen -> cmp_prev_batch_key (key i) (key cur) < 0.
Proof.
  intros Hinv Hle Hd i Hi. pose proof (pi_prev _ _ Hinv) as Hp.
  destruct (pbl_previous s) as [p|]; simpl in *; [|subst; by apply not_elem_of_nil in Hi].
  destruct Hp as [Hp Hpi]. apply (cmp_le_lt cmp_prev_batch_key_order _ (key p)); [auto|].
  pose proof (Hle p Hp). assert (cmp_prev_batch_key (key p) (key cur) <> 0); [|lia].
  intros Hz%cmp_prev_batch_key_zero. apply not_true_iff_false in Hd. apply Hd.
  apply check_fault_entry_duplicate_spec.
  rewrite (strip_key _ _ (same_batch_at _ _ cur (pi_batch _ _ Hinv))).
  rewrite (strip_key _ _ (same_batch_at _ _ p (pi_batch _ _ Hinv))). done.
Qed.

Lemma cache_at_flag i k v b :
  (i < length (fault_cache b))%nat ->
  pred_prev_candidate (cache_at (upd_entry i (fun e => e <| pred_prev_candidate := v |>) b) k) =
  if decide (k = i) then v else pred_prev_candidate (cache_at b k).
Proof.
  intros Hi. destruct (decide (k = i)) as [->|Hne].
  - by rewrite cache_at_upd_eq.
  - by rewrite cache_at_upd_ne.
Qed.

Lemma same_batch_length b b' : same_batch b b' -> length (fault_cache b') = length (fault_cache b).
Proof. intros [Hc _ _ _]. apply (f_equal length) in Hc. by rewrite !length_fmap in Hc. Qed.

Lemma pbl_inv_duplicate seen s cur :
  pbl_inv seen s -> (cur < length (fault_cache b0))%nat ->
  check_fault_entry_duplicate (cache_at (pbl_batch s) cur)
    (cache_at (pbl_batch s) <$> pbl_previous s) = true ->
  pbl_inv (seen ++ [cur])
    (mk_pbl (pbl_replayable s) (upd_entry cur (fun e => e <| pred_prev_candidate := false |>) (pbl_batch s))
       (pbl_count s) (pbl_previous s)).
Proof.
  intros Hinv Hlen Hd. destruct (pbl_previous s) as [p|] eqn:Hprev; [|done].
  apply check_fault_entry_duplicate_spec in Hd.
  pose proof (pi_prev _ _ Hinv) as Hp. rewrite Hprev in Hp. destruct Hp as [Hp Hmax].
  rewrite (strip_key _ _ (same_batch_at _ _ cur (pi_batch _ _ Hinv))) in Hd.
  rewrite (strip_key _ _ (same_batch_at _ _ p (pi_batch _ _ Hinv))) in Hd.
  split; simpl; try apply Hinv.
  - etrans; [apply Hinv|apply same_batch_flag].
  - rewrite length_app. pose proof (pi_cnt _ _ Hinv). lia.
  - intros j Hj. destruct (pi_new _ _ Hinv j Hj) as (i & Hi & Hl). exists i. split; [|done].
    apply elem_of_app. auto.
  - intros i [Hi| ->%list_elem_of_singleton]%elem_of_app; [by apply Hinv|].
    rewrite Hd. by apply Hinv.
  - split; [apply elem_of_app; auto|]. intros i [Hi| ->%list_elem_of_singleton]%elem_of_app; [auto|].
    rewrite Hd, (cmp_refl cmp_prev_batch_key_order). lia.
  - intros i Hi. rewrite cache_at_flag by (by rewrite (same_batch_length b0) by apply Hinv).
    case_decide; [done|]. apply elem_of_app in Hi as [Hi|Hi%list_elem_of_singleton]; [|done].
    by apply Hinv.
Qed.

Lemma pbl_inv_new seen s cur hit b :
  pbl_inv seen s -> (cur < length (fault_cache b0))%nat ->
  (length seen < length (prev_batch_keys r0))%nat ->
  (forall i, i ∈ seen -> cmp_prev_batch_key (key i) (key cur) <= 0) ->
  same_batch b0 b ->
  (forall k, pred_prev_candidate (cache_at b k) =
     if decide (k = cur) then hit else pred_prev_candidate (cache_at (pbl_batch s) k)) ->
  (hit = true -> key cur ∈ old_keys) ->
  pbl_inv (seen ++ [cur])
    (mk_pbl ((pbl_replayable s) <| prev_batch_keys ::= insert (pbl_count s) (key cur) |>)
       b (S (pbl_count s)) (Some cur)).
Proof.
  intros Hinv Hlen Hroom Hle Hb Hflag Hhit. pose proof (pi_cnt _ _ Hinv) as Hcnt.
  pose proof (pi_len _ _ Hinv) as Hl.
  split; simpl; try done; try apply Hinv.
  - by rewrite length_insert.
  - rewrite length_app. simpl. lia.
  - intros j Hj. rewrite list_lookup_insert_ne by lia. apply Hinv. lia.
  - intros j Hj. destruct (decide (j = pbl_count s)) as [->|Hne].
    + exists cur. rewrite elem_of_app, list_elem_of_singleton, list_lookup_insert_eq by lia. auto.
    + destruct (pi_new _ _ Hinv j ltac:(lia)) as (i & Hi & Hli). exists i.
      rewrite elem_of_app, list_lookup_insert_ne by lia. auto.
  - intros i [Hi| ->%list_elem_of_singleton]%elem_of_app.
    + destruct (pi_all _ _ Hinv i Hi) as (j & Hj & Hlj). exists j.
      rewrite list_lookup_insert_ne by lia. auto with lia.
    + exists (pbl_count s). rewrite list_lookup_insert_eq by lia. auto with lia.
  - split; [rewrite elem_of_app, list_elem_of_singleton; auto|].
    intros i [Hi| ->%list_elem_of_singleton]%elem_of_app; [auto|].
    rewrite (cmp_refl cmp_prev_batch_key_order). lia.
  - intros i Hi. rewrite Hflag. case_decide as Hd; [subst; auto|].
    apply elem_of_app in Hi as [Hi|Hi%list_elem_of_singleton]; [|done]. by apply Hinv.
Qed.

Lemma pbl_inv_step seen s cur :
  pbl_inv seen s -> (cur < length (fault_cache b0))%nat ->
  (length seen < length (prev_batch_keys r0))%nat ->
  (Z.to_nat (prev_batch_key_count r0) <= length (prev_batch_keys r0))%nat ->
  (forall i, i ∈ seen -> cmp_prev_batch_key (key i) (key cur) <= 0) ->
  pbl_inv (seen ++ [cur]) (prev_batch_step s cur).
Proof.
  intros Hinv Hlen Hroom Hn Hle. pose proof (pi_cnt _ _ Hinv) as Hcnt.
  assert (batch_key_of (cache_at (pbl_batch s) cur) = key cur) as Hkey
    by (apply strip_key, same_batch_at, Hinv).
  pose proof (same_batch_length _ _ (pi_batch _ _ Hinv)) as Hlen'.
  pose proof (pbl_inv_duplicate seen s cur Hinv Hlen) as Hdup.
  pose proof (strict_before seen s cur Hinv Hle) as Hstrict.
  pose proof (fun hit b => pbl_inv_new seen s cur hit b Hinv Hlen Hroom Hle) as Hnew.
  pose proof (fun cmps => overwritten_hit seen s (key cur) cmps Hinv) as Hhit.
  destruct s as [r b cnt prev]. unfold prev_batch_step. simpl in *.
  destruct (check_fault_entry_duplicate _ _) eqn:Hd; [by apply Hdup|].
  unfold prev_batch_keys_contains. fold (batch_key_of (cache_at b cur)). rewrite Hkey.
  destruct (prev_batch_search _ _ _ _ _ _) as [hit cmps] eqn:Hs. simpl.
  assert (same_batch b0 (upd_entry cur (fun e => e <| pred_prev_candidate := false |>) b)) as Hb1.
  { etrans; [apply Hinv|apply same_batch_flag]. }
  apply (Hnew hit).
  - destruct hit; [|by destruct Hb1]. etrans; [exact Hb1|].
    etrans; [apply (same_batch_flag cur true)|]. by split.
  - intros k. destruct hit.
    + etrans; [apply (cache_at_flag cur k true)|]; [simpl; by rewrite length_alter, Hlen'|].
      case_decide; [done|]. etrans; [apply (cache_at_flag cur k false b)|]; [by rewrite Hlen'|].
      by rewrite decide_False.
    + etrans; [apply (cache_at_flag cur k false b)|]; [by rewrite Hlen'|]. done.
  - intros ->. apply (Hhit cmps); [auto|lia|done|done].
Qed.

Abbreviation key_le := (fun i j => cmp_prev_batch_key (key i) (key j) <= 0).

Lemma pbl_inv_fold l : forall seen s,
  pbl_inv seen s -> StronglySorted key_le (seen ++ l) ->
  (forall i, i ∈ l -> (i < length (fault_cache b0))%nat) ->
  (length seen + length l <= length (prev_batch_keys r0))%nat ->
  (Z.to_nat (prev_batch_key_count r0) <= length (prev_batch_keys r0))%nat ->
  pbl_inv (seen ++ l) (foldl prev_batch_step s l).
Proof.
  induction l as [|i l IH]; intros seen s Hinv Hs Hlen Hroom Hn; simpl; [by rewrite app_nil_r|].
  replace (seen ++ i :: l) with ((seen ++ [i]) ++ l) in * by (by rewrite <- app_assoc).
  apply IH; try done.
  - apply pbl_inv_step; try done.
    + apply Hlen, elem_of_cons. auto.
    + simpl in Hroom. lia.
    + intros k Hk. rewrite <- app_assoc in Hs.
      apply (StronglySorted_app_1_elem_of _ _ _ k i Hs); [done|]. apply elem_of_cons. auto.
  - intros k Hk. apply Hlen, elem_of_cons. auto.
  - rewrite length_app. simpl in *. lia.
Qed.

End PrevBatch.

Definition batch_keys (r : uvm_replayable_fault_buffer_info_t) : list uvm_fault_prev_batch_key_t :=
  take (Z.to_nat (prev_batch_key_count r)) (prev_batch_keys r).

Abbreviation ordered_view b := (take (Z.to_nat (num_coalesced_faults b)) (ordered_fault_cache b)).

Lemma clear_candidates_same l b :
  same_batch b (foldl (fun b i => upd_entry i (fun e => e <| pred_prev_candidate := false |>) b) b l).
Proof.
  revert b. induction l as [|i l IH]; intros b; simpl; [done|]. etrans; [apply same_batch_flag|apply IH].
Qed.

(** The previous-batch predictor works on a sorted view whose entries fit. *)
Record predictor_pre (r : uvm_replayable_fault_buffer_info_t) (b : uvm_fault_service_batch_context_t)
  : Prop := {
  pp_sorted : StronglySorted (cmp_le (cmp_sort_fault_entry_by_va_space_address_access_type (fault_cache b)))
    (ordered_view b);
  pp_range : forall i, i ∈ ordered_view b -> (i < length (fault_cache b))%nat;
  pp_room : (length (ordered_view b) <= length (prev_batch_keys r))%nat;
  pp_count : (Z.to_nat (prev_batch_key_count r) <= length (prev_batch_keys r))%nat;
}.

Lemma sorted_view_keys (b : uvm_fault_service_batch_context_t) l :
  StronglySorted (cmp_le (cmp_sort_fault_entry_by_va_space_address_access_type (fault_cache b))) l ->
  StronglySorted (fun i j => cmp_prev_batch_key (batch_key_of (cache_at b i)) (batch_key_of (cache_at b j)) <= 0) l.
Proof.
  apply StronglySorted_impl. intros i j.
  unfold cmp_le, cmp_sort_fault_entry_by_va_space_address_access_type, cmp_prev_batch_key, cache_at. simpl.
  destruct (cmp_va_space _ _ =? 0); simpl; [|done].
  case Z.eqb_spec; simpl; lia.
Qed.

Lemma update_prev_batch_predictor_inv P r b :
  predictor_pre r b -> prev_batch_predictor_enabled P = true ->
  let s := foldl prev_batch_step (mk_pbl r (b <| pred ::= fun c => c <| num_pred_prev_candidates := 0 |> |>) 0 None)
    (ordered_view b) in
  pbl_inv r b (ordered_view b) s.
Proof.
  intros [Hs Hr Hroom Hn] _. apply (pbl_inv_fold r b (ordered_view b) []); try done.
  - by apply pbl_inv_init.
  - by apply sorted_view_keys.
Qed.

Lemma update_prev_batch_predictor_same P r b r' b' :
  predictor_pre r b -> update_prev_batch_predictor P r b = (r', b') -> same_batch b b'.
Proof.
  intros Hpre. unfold update_prev_batch_predictor.
  destruct (prev_batch_predictor_enabled P) eqn:He; simpl; intros [= <- <-].
  - destruct (update_prev_batch_predictor_inv P r b Hpre He) as [[]]. by split.
  - etrans; [|apply clear_candidates_same]. by split.
Qed.

(** ** The whole preprocessing *)

Section PreprocessSpec.
  Context {D : Type} `{Hal : FaultBufferHal D} `{!FaultBufferHalLive D} `{Ops : GpuOps D}
    `{KernelSort}.
  Variable P : module_params.
  Variable caps : gpu_caps.
  Variable channels_at : uvm_gpu D -> channel_tables.
  Variable T : channel_tables.

(** The indices of the unfiltered faults of the batch. *)
Definition unfiltered_faults (b : uvm_fault_service_batch_context_t) : list nat :=
  unfiltered_from (fault_cache b) 0 (Z.to_nat (num_cached_faults b)).

(** A batch as a fetch leaves it. *)
Record batch_ready (g : uvm_gpu D) : Prop := {
  br_cached : (Z.to_nat (num_cached_faults (batch g)) <= length (fault_cache (batch g)))%nat;
  br_coalesced : Z.to_nat (num_coalesced_faults (batch g)) = length (unfiltered_faults (batch g));
  br_ordered : (length (unfiltered_faults (batch g)) <= length (ordered_fault_cache (batch g)))%nat;
  br_keys : (length (unfiltered_faults (batch g)) <= length (prev_batch_keys (replayable g)))%nat;
  br_count : (Z.to_nat (prev_batch_key_count (replayable g)) <= length (prev_batch_keys (replayable g)))%nat;
  br_gpc : forall i, i ∈ unfiltered_faults (batch g) ->
    client_type (fault_source (cache_at (batch g) i)) = UVM_FAULT_CLIENT_TYPE_GPC;
}.

Lemma unfiltered_faults_elem b i :
  i ∈ unfiltered_faults b <-> (i < Z.to_nat (num_cached_faults b))%nat /\ filtered (cache_at b i) = false.
Proof.
  unfold unfiltered_faults, unfiltered_from. rewrite list_elem_of_filter, elem_of_seq.
  unfold cache_at. intuition lia.
Qed.

Lemma unfiltered_faults_nodup b : NoDup (unfiltered_faults b).
Proof. apply NoDup_filter, NoDup_seq. Qed.

(** The view handed to the translation. *)
Lemma collected_view (g : uvm_gpu D) :
  batch_ready g -> let b := sort_by_instance_ptr (collect_ordered (batch g)) in
  ordered_view b ≡ₚ unfiltered_faults (batch g) /\
  length (ordered_fault_cache b) = length (ordered_fault_cache (batch g)) /\
  exists o, b = (batch g) <| ordered_fault_cache := o |>.
Proof.
  intros [Hn Hc Ho _ _ _] b.
  assert (ordered_fault_cache (collect_ordered (batch g)) =
    unfiltered_faults (batch g) ++
    drop (length (unfiltered_faults (batch g))) (ordered_fault_cache (batch g))) as Hcol.
  { unfold collect_ordered. simpl. rewrite collect_unfiltered_spec by (fold (unfiltered_faults (batch g)); lia). done. }
  assert (length (ordered_fault_cache (collect_ordered (batch g))) =
    length (ordered_fault_cache (batch g))) as Hlen.
  { rewrite Hcol, length_app, length_drop. lia. }
  assert (ordered_view (collect_ordered (batch g)) = unfiltered_faults (batch g)) as Hview.
  { rewrite Hcol. change (num_coalesced_faults (collect_ordered (batch g))) with
      (num_coalesced_faults (batch g)). rewrite Hc. apply take_app_length. }
  assert (exists o, collect_ordered (batch g) = (batch g) <| ordered_fault_cache := o |>) as [o Hbc]
    by (by eexists).
  assert (Z.to_nat (num_coalesced_faults (collect_ordered (batch g))) <=
    length (ordered_fault_cache (collect_ordered (batch g))))%nat as Hle by (rewrite Hlen, Hbc; simpl; lia).
  unfold b, sort_by_instance_ptr. set (bc := collect_ordered (batch g)) in *. clearbody bc.
  destruct (is_single_instance_ptr _).
  - split; [by rewrite Hview|]. eauto.
  - simpl. split; [|split; [by rewrite length_sort_prefix|rewrite Hbc; by eexists]].
    rewrite take_sort_prefix by done. rewrite ksort_perm. by rewrite Hview.
Qed.

Lemma strip_fields e e' :
  strip e = strip e' -> va_space e = va_space e' /\ fault_address e = fault_address e' /\
  fault_access_type e = fault_access_type e'.
Proof.
  intros Hs. split; [exact (f_equal va_space Hs)|].
  split; [exact (f_equal fault_address Hs)|exact (f_equal fault_access_type Hs)].
Qed.

Lemma cmp_sort_same b b' i j :
  same_batch b b' ->
  cmp_sort_fault_entry_by_va_space_address_access_type (fault_cache b') i j =
  cmp_sort_fault_entry_by_va_space_address_access_type (fault_cache b) i j.
Proof.
  intros Hb. pose proof (same_batch_at _ _ i Hb) as Hi. pose proof (same_batch_at _ _ j Hb) as Hj.
  apply strip_fields in Hi as (E1 & E2 & E3), Hj as (E4 & E5 & E6). unfold cache_at in *.
  unfold cmp_sort_fault_entry_by_va_space_address_access_type. by rewrite E1, E2, E3, E4, E5, E6.
Qed.

Lemma cmp_sort_va_order c :
  cmp_order (cmp_sort_fault_entry_by_va_space_address_access_type c).
Proof.
  exact (cmp_order_map (fun i : nat => c !!! i) _ cmp_fault_entry_addr_access_sort_order).
Qed.

(** The state after the translation. *)
Definition ready_to_sort (g g2 : uvm_gpu D) : Prop :=
  exists l, l ≡ₚ unfiltered_faults (batch g) /\
    ordered_view (batch g2) = l /\
    replayable g2 = replayable g /\
    length (ordered_fault_cache (batch g2)) = length (ordered_fault_cache (batch g)) /\
    num_coalesced_faults (batch g2) = num_coalesced_faults (batch g) /\
    fault_cache (batch g2) = translated T l (fault_cache (batch g)) /\
    (forall i, i ∈ l -> (translate T (cache_at (batch g) i)).1 = NV_OK).

Lemma length_translated l c : length (translated T l c) = length c.
Proof.
  revert c. induction l as [|i l IH]; intros c; [done|]. unfold translated in *. simpl.
  by rewrite IH, length_alter.
Qed.

Lemma cache_after_translation (g : uvm_gpu D) l i :
  batch_ready g -> l ≡ₚ unfiltered_faults (batch g) -> i ∈ l ->
  translated T l (fault_cache (batch g)) !!! i = set_translated T (cache_at (batch g) i).
Proof.
  intros Hr Hl Hi. assert (i < length (fault_cache (batch g)))%nat as Hlen.
  { rewrite Hl in Hi. apply unfiltered_faults_elem in Hi as [Hi _]. pose proof (br_cached _ Hr). lia. }
  rewrite list_lookup_total_alt, translated_lookup_in; [|rewrite Hl; apply unfiltered_faults_nodup|done].
  unfold cache_at. rewrite list_lookup_total_alt.
  by destruct (lookup_lt_is_Some_2 _ _ Hlen) as [e ->].
Qed.

Section Stable.
  Hypothesis Hstable : forall g, channels_at g = T.

Lemma translate_phase (g : uvm_gpu D) :
  batch_ready g ->
  let g1 := g <| batch ::= collect_ordered |> <| batch ::= sort_by_instance_ptr |> in
  (forall g2, translate_instance_ptrs caps channels_at g1 = (NV_OK, g2) -> ready_to_sort g g2) /\
  ((forall i, i ∈ unfiltered_faults (batch g) -> (translate T (cache_at (batch g) i)).1 = NV_OK) ->
   exists g2, translate_instance_ptrs caps channels_at g1 = (NV_OK, g2)).
Proof using Hstable.
  intros Hr g1. destruct (collected_view g Hr) as (Hperm & Hlen & o & Hb).
  assert (batch g1 = (batch g) <| ordered_fault_cache := o |>) as Hb1 by exact Hb.
  change (sort_by_instance_ptr (collect_ordered (batch g))) with (batch g1) in Hperm, Hlen, Hb.
  assert (forall i, cache_at (batch g1) i = cache_at (batch g) i) as Hat by (intros; by rewrite Hb1).
  change (translate_instance_ptrs caps channels_at g1) with
    (translate_loop caps channels_at None (ordered_view (batch g1)) g1).
  assert (replayable g1 = replayable g) as Hrep by done. clearbody g1.
  split; [intros g2 Hg2|intros Hall].
  - apply (translate_loop_ok caps channels_at T Hstable) in Hg2 as [-> Hok].
    2:{ split; [done| | |].
        - rewrite Hperm. apply unfiltered_faults_nodup.
        - intros i Hi. rewrite Hperm in Hi. apply unfiltered_faults_elem in Hi as [Hi _].
          rewrite Hb1. simpl. pose proof (br_cached _ Hr). lia.
        - intros i [Hi|]; [|done]. rewrite Hperm in Hi. rewrite Hat. by apply (br_gpc _ Hr). }
    exists (ordered_view (batch g1)). simpl. split_and!; try done.
    + by rewrite Hb1.
    + f_equal. by rewrite Hb1.
    + intros i Hi. rewrite <- Hat. by apply Hok.
  - apply (translate_loop_total caps channels_at T Hstable). intros i Hi. rewrite Hat. apply Hall.
    by rewrite <- Hperm.
Qed.

(** The view after the second sort, and what the predictors do to the batch. *)
Lemma sort_phase (g g2 : uvm_gpu D) :
  batch_ready g -> ready_to_sort g g2 ->
  let b3 := sort_by_va_space (batch g2) in
  ordered_view b3 ≡ₚ unfiltered_faults (batch g) /\ predictor_pre (replayable g2) b3 /\
  (forall i, i ∈ ordered_view b3 -> cache_at b3 i = set_translated T (cache_at (batch g) i) /\
     (translate T (cache_at (batch g) i)).1 = NV_OK).
Proof.
  intros Hr (l & Hl & Hv & Hrep & Hlen & Hnc & Hc & Hok) b3.
  assert (ordered_view b3 = ksort (cmp_sort_fault_entry_by_va_space_address_access_type
    (fault_cache (batch g2))) l) as Hview.
  { unfold b3, sort_by_va_space. simpl. rewrite take_sort_prefix, Hv; [done|].
    rewrite Hlen, Hnc, (br_coalesced _ Hr). apply Hr. }
  assert (ordered_view b3 ≡ₚ l) as Hperm by (rewrite Hview; apply ksort_perm).
  split; [by rewrite Hperm|]. split.
  - split.
    + rewrite Hview. apply ksort_sorted, cmp_sort_va_order.
    + intros i Hi. rewrite Hperm, Hl in Hi. apply unfiltered_faults_elem in Hi as [Hi _].
      unfold b3. simpl. rewrite Hc, length_translated. pose proof (br_cached _ Hr). lia.
    + rewrite Hperm, Hl, Hrep. apply Hr.
    + rewrite Hrep. apply Hr.
  - intros i Hi. rewrite Hperm in Hi. split; [|auto]. unfold b3, cache_at. simpl. rewrite Hc.
    by apply cache_after_translation.
Qed.

Lemma update_predictor_same (g g' : uvm_gpu D) x :
  update_predictor P g = (x, g') -> same_batch (batch g) (batch g').
Proof.
  unfold update_predictor, modify. intros [= _ <-].
  destruct (update_prev_fetch_predictor _ _ _) as [p b] eqn:E.
  apply update_prev_fetch_predictor_batch in E as [k ->]. by split.
Qed.

Lemma predictor_phase (g : uvm_gpu D) st g' :
  predictor_pre (replayable g) (batch g) ->
  (modify (run_prev_batch_predictor P) ;;
   run ← gets (fun g => prev_fetch_adaptive_should_run P (prev_fetch (replayable g)));
   when (prev_fetch_predictor_use_coalesced_pages P && run) (update_predictor P) ;;
   mret NV_OK) g = (st, g') ->
  st = NV_OK /\ same_batch (batch g) (batch g').
Proof.
  intros Hpre. unfold mbind, ST_bind, modify, gets, mret, ST_ret, when.
  assert (same_batch (batch g) (batch (run_prev_batch_predictor P g))) as H1.
  { unfold run_prev_batch_predictor. destruct (update_prev_batch_predictor P _ _) as [r b] eqn:E.
    by apply update_prev_batch_predictor_same in E. }
  set (g1 := run_prev_batch_predictor P g) in *. clearbody g1.
  destruct (_ && _); simpl.
  - destruct (update_predictor P g1) as [x g2] eqn:E. intros [= <- <-].
    split; [done|]. etrans; [done|]. by eapply update_predictor_same.
  - intros [= <- <-]. done.
Qed.

(** What preprocessing guarantees. *)
Definition preprocessed (g g' : uvm_gpu D) : Prop :=
  ordered_view (batch g') ≡ₚ unfiltered_faults (batch g) /\
  StronglySorted (cmp_le (cmp_sort_fault_entry_by_va_space_address_access_type (fault_cache (batch g'))))
    (ordered_view (batch g')) /\
  forall i, i ∈ ordered_view (batch g') ->
    translate T (cache_at (batch g) i) = (NV_OK, va_space (cache_at (batch g') i)) /\
    strip (cache_at (batch g') i) = strip (set_translated T (cache_at (batch g) i)).

Lemma preprocess_ok (g : uvm_gpu D) :
  batch_ready g ->
  (forall g', preprocess_fault_batch P caps channels_at g = (NV_OK, g') -> preprocessed g g') /\
  ((forall i, i ∈ unfiltered_faults (batch g) -> (translate T (cache_at (batch g) i)).1 = NV_OK) ->
   exists g', preprocess_fault_batch P caps channels_at g = (NV_OK, g')).
Proof using Hstable.
  intros Hr. destruct (translate_phase g Hr) as [Hpost Htot].
  destruct (preprocess_fault_batch P caps channels_at g) as [st0 g4] eqn:Hg0. revert Hg0.
  unfold preprocess_fault_batch, try. unfold mbind at 1 2 3, ST_bind at 1 2 3, upd_batch at 1 2, modify at 1 2.
  set (g1 := g <| batch ::= collect_ordered |> <| batch ::= sort_by_instance_ptr |>) in *. clearbody g1.
  destruct (translate_instance_ptrs caps channels_at g1) as [st2 g2] eqn:Hg2.
  destruct (is_ok st2) eqn:Hst; swap 1 2.
  { intros [= <- <-]. split.
    - intros g' [= -> _]. done.
    - intros Hall. destruct (Htot Hall) as [g2' [= -> _]]. done. }
  assert (st2 = NV_OK) as -> by (by destruct st2). specialize (Hpost g2 eq_refl).
  destruct (sort_phase g g2 Hr Hpost) as (Hperm & Hpre & Hc).
  unfold mbind at 1, ST_bind at 1, upd_batch at 1, modify at 1.
  set (g3 := g2 <| batch ::= sort_by_va_space |>) in *.
  change (predictor_pre (replayable g3) (batch g3)) in Hpre.
  change (sort_by_va_space (batch g2)) with (batch g3) in *. clearbody g3.
  intros [-> Hsame]%predictor_phase; [|done]. split; [|eauto]. intros g' [= <-].
  assert (ordered_view (batch g4) = ordered_view (batch g3)) as Hov.
  { destruct Hsame as [_ -> -> _]. done. }
  split; [by rewrite Hov|]. split.
  - rewrite Hov. eapply StronglySorted_impl; [|apply Hpre]. intros i j. unfold cmp_le.
    by rewrite (cmp_sort_same _ _ i j Hsame).
  - intros i Hi. rewrite Hov in Hi. destruct (Hc i Hi) as [Hci Hti].
    pose proof (same_batch_at _ _ i Hsame) as Hs. rewrite Hci in Hs. split; [|done].
    apply strip_fields in Hs as [-> _]. simpl.
    by destruct (translate T (cache_at (batch g) i)) as [x y]; simpl in *; subst.
Qed.

End Stable.

End PreprocessSpec.

(** ** A fetched batch is ready *)

Lemma length_unfiltered_from c n : forall i, (i + n <= length c)%nat ->
  Z.of_nat (length (unfiltered_from c i n)) = sumz unfiltered_num (take n (drop i c)).
Proof.
  induction n as [|n IH]; intros i Hi; [done|].
  destruct (lookup_lt_is_Some_2 c i ltac:(lia)) as [e He].
  rewrite (drop_S _ _ _ He). cbn [take]. rewrite sumz_cons, <- (IH (S i)) by lia.
  unfold unfiltered_from, unfiltered_num. cbn [seq]. rewrite filter_cons.
  rewrite (list_lookup_total_correct _ _ _ He).
  destruct (filtered e); [rewrite decide_False by done|rewrite decide_True by done; simpl length]; lia.
Qed.

(** The batch a fetch leaves has the counts preprocessing relies on. *)
Lemma fetched_batch_ready {D} `{Hal : FaultBufferHal D} `{!FaultBufferHalLive D} `{Ops : GpuOps D}
    `{KernelSort} P caps n ok mode (g : uvm_gpu D) st g' :
  fetch_pre n ok g -> fetch_fault_buffer_entries P caps mode g = (st, g') ->
  length (ordered_fault_cache (batch g')) = length (fault_cache (batch g')) ->
  length (prev_batch_keys (replayable g')) = length (fault_cache (batch g')) ->
  (Z.to_nat (prev_batch_key_count (replayable g')) <= length (prev_batch_keys (replayable g')))%nat ->
  (forall i, (i < Z.to_nat (num_cached_faults (batch g')))%nat ->
     client_type (fault_source (cache_at (batch g') i)) = UVM_FAULT_CLIENT_TYPE_GPC) ->
  batch_ready g'.
Proof.
  intros Hpre Hf Ho Hk Hc Hgpc. apply (fetch_entries_post P caps n ok) in Hf as [H0 Hi _ _ _ _]; [|done].
  pose proof (fv_idx _ _ _ _ _ Hi) as Hidx. rewrite <- (fv_cap _ _ _ _ _ Hi) in Hidx.
  pose proof (length_unfiltered_from (fault_cache (batch g')) (Z.to_nat (num_cached_faults (batch g'))) 0 Hidx) as Hl.
  assert (length (unfiltered_faults (batch g')) <= length (fault_cache (batch g')))%nat as Hle.
  { unfold unfiltered_faults, unfiltered_from. etrans; [apply length_filter|]. rewrite length_seq. lia. }
  split; try lia.
  - rewrite (fv_count _ _ _ _ _ Hi). unfold cached_views. rewrite sumz_fmap.
    rewrite drop_0 in Hl. unfold unfiltered_num in *. simpl. rewrite <- Hl. by rewrite Nat2Z.id.
  - intros i Hi'. apply unfiltered_faults_elem in Hi' as [Hi' _]. auto.
Qed.

(** ** Claims *)

(** C18: Preprocessing a batch whose faults come from GPC clients succeeds
    exactly when every coalesced fault has a VA space.  The ordered view is then
    a permutation of the unfiltered faults, sorted by VA space, address and
    decreasing intrusiveness, and every fault carries the VA space its own
    instance pointer and subcontext translate to, although neighbours with equal
    instance pointers share one translation. *)
Theorem preprocess_fault_batch_orders {D} `{Hal : FaultBufferHal D} `{!FaultBufferHalLive D}
    `{Ops : GpuOps D} `{KernelSort} P caps channels_at T (g : uvm_gpu D) :
  (forall g, channels_at g = T) -> batch_ready g ->
  (forall g', preprocess_fault_batch P caps channels_at g = (NV_OK, g') -> preprocessed T g g') /\
  ((forall i, i ∈ unfiltered_faults (batch g) ->
      (uvm_parent_gpu_fault_entry_to_va_space T (cache_at (batch g) i)).1 = NV_OK) ->
   exists g', preprocess_fault_batch P caps channels_at g = (NV_OK, g')).
Proof. intros HT Hr. by apply preprocess_ok. Qed.

(** The previous-batch predictor, although it overwrites the keys it is
    searching, only marks faults whose page was in the previous batch, and leaves
    the pages of this batch, and no others, as the keys for the next one. *)
Theorem prev_batch_candidates_sound P r b r' b' :
  predictor_pre r b -> prev_batch_predictor_enabled P = true ->
  update_prev_batch_predictor P r b = (r', b') ->
  (forall i, i ∈ ordered_view b -> pred_prev_candidate (cache_at b' i) = true ->
     batch_key_of (cache_at b i) ∈ batch_keys r) /\
  (forall k, k ∈ batch_keys r' <-> exists i, i ∈ ordered_view b /\ k = batch_key_of (cache_at b i)).
Proof.
  intros Hpre He. pose proof (update_prev_batch_predictor_inv P r b Hpre He) as Hinv.
  unfold update_prev_batch_predictor. rewrite He. simpl. intros [= <- <-].
  set (s := foldl _ _ _) in *. split.
  - intros i Hi Hc. by apply (pi_hits _ _ _ _ Hinv i).
  - intros k. unfold batch_keys. simpl. rewrite Nat2Z.id, list_elem_of_lookup. split.
    + intros [j [Hj Hlt]%lookup_take_Some]. destruct (pi_new _ _ _ _ Hinv j Hlt) as (i & Hi & Hl).
      exists i. split; [done|]. congruence.
    + intros (i & Hi & ->). destruct (pi_all _ _ _ _ Hinv i Hi) as (j & Hj & Hl).
      exists j. by rewrite lookup_take_lt.
Qed.

(** *** Concrete batches *)

Definition repeated_pages_info : uvm_replayable_fault_buffer_info_t :=
  (sim_replayable 8 2) <| prev_batch_keys :=
      (mk_batch_key (Some 1) <$> [8192; 12288; 16384]) ++ replicate 5 (mk_batch_key None 0) |>
    <| prev_batch_key_count := 3 |>.

Definition repeated_pages_batch : uvm_fault_service_batch_context_t :=
  example_batch [example_entry 1 4096 UVM_FAULT_ACCESS_TYPE_READ;
                 example_entry 1 8192 UVM_FAULT_ACCESS_TYPE_READ].

Lemma repeated_pages_pre : predictor_pre repeated_pages_info repeated_pages_batch.
Proof.
  split; simpl; try lia.
  - repeat constructor; by vm_compute.
  - intros i Hi. assert (i = 0 \/ i = 1)%nat as [-> | ->] by set_solver; lia.
Qed.

(** The in-place overwrite makes the predictor miss repeated pages: with
    pages 2, 3 and 4 in the previous batch and pages 1 and 2 in this one, the
    key of page 1 replaces that of page 2 before page 2 is looked up, and page 2
    is not marked. *)
Theorem prev_batch_misses_repeated_page :
  predictor_pre repeated_pages_info repeated_pages_batch /\
  batch_key_of (cache_at repeated_pages_batch 1) ∈ batch_keys repeated_pages_info /\
  pred_prev_candidate (cache_at (update_prev_batch_predictor (example_params 2)
    repeated_pages_info repeated_pages_batch).2 1) = false.
Proof.
  split; [apply repeated_pages_pre|]. split; [|by vm_compute].
  apply list_elem_of_lookup. by exists 0%nat.
Qed.

Lemma prev_batch_candidates_sound_witness :
  mk_batch_key (Some 1) 8192 ∈
  batch_keys (update_prev_batch_predictor (example_params 2) repeated_pages_info repeated_pages_batch).1.
Proof.
  apply (proj2 (prev_batch_candidates_sound (example_params 2) repeated_pages_info repeated_pages_batch
    _ _ repeated_pages_pre eq_refl eq_refl)).
  exists 1%nat. split; [|reflexivity]. apply list_elem_of_lookup. by exists 1%nat.
Defined.

Definition preprocess_example : uvm_gpu sim_device :=
  three_packets_after <| replayable ::= fun r =>
    r <| prev_batch_keys := replicate 8 (mk_batch_key None 0) |> |>.

Lemma preprocess_example_ready : batch_ready preprocess_example.
Proof.
  split; try (vm_compute; lia).
  intros i Hi. assert (i = 1)%nat as -> by (vm_compute in Hi; set_solver). reflexivity.
Qed.

Lemma preprocess_fault_batch_orders_witness :
  exists g', preprocess_fault_batch (example_params 2) (sim_caps 256) (fun _ => example_added)
    preprocess_example = (NV_OK, g').
Proof.
  apply (preprocess_fault_batch_orders (example_params 2) (sim_caps 256) (fun _ => example_added)
    example_added preprocess_example (fun _ => eq_refl) preprocess_example_ready).
  intros i Hi. assert (i = 1)%nat as -> by (vm_compute in Hi; set_solver). reflexivity.
Defined.
