(* ===== verification/PathFrames.v ===== *)
(** * Frames of fetching and preprocessing

    Fetching and preprocessing a batch add only replays and channel cancels to
    the trace, whatever they do to the faults. *)

From S2P Require Import Prelude FaultTypes Gpu SimDevice Sorting FaultBuffer Frames Predictor Fetch Coalesce Channels Preprocess.

Local Open Scope Z_scope.

Section PathFrames.
  Context {D : Type} `{Hal : FaultBufferHal D} `{!FaultBufferHalLive D} `{Ops : GpuOps D} `{KernelSort}.
  Variable P : module_params.
  Variable caps : gpu_caps.
  Variable channels_at : uvm_gpu D -> channel_tables.

  Abbreviation G := (respects (grows (D := D))).

(** ** Fetching *)

Lemma modify_grows f :
  (forall g : uvm_gpu D, trace (f g) = trace g /\ num_replays (batch (f g)) = num_replays (batch g) /\
     settings (f g) = settings g) -> G (modify f).
Proof. intros Hf g a g' [= <- <-]. apply grows_same; apply Hf. Qed.

Lemma spin_or_give_up_grows fuel index stop : G (spin_or_give_up fuel index stop).
Proof. induction fuel; simpl; respects. Qed.

#[local] Hint Resolve spin_or_give_up_grows : respects.

Lemma merge_into_replays last cur b : num_replays (merge_into last cur b) = num_replays b.
Proof. by destruct last. Qed.

Lemma try_merge_replays cur u same b :
  num_replays (fetch_fault_buffer_try_merge_entry cur u same b).2 = num_replays b.
Proof.
  unfold fetch_fault_buffer_try_merge_entry. cbv zeta. destruct (_ && _); simpl.
  { destruct (_ <? _); simpl; by rewrite merge_into_replays. }
  destruct (_ && _); simpl; [|done]. destruct (_ <? _); simpl; by rewrite merge_into_replays.
Qed.

Lemma coalesce_replays may i b : num_replays (coalesce_entry may i b).2 = num_replays b.
Proof.
  unfold coalesce_entry. cbv zeta. set (same := if (0 <? i)%nat then _ else true).
  set (u := utlb_id _).
  assert (forall b', num_replays (new_representative i u same b') = num_replays b') as Hn'
    by (intros b'; unfold new_representative; by destruct (_ && _)).
  destruct (_ && _).
  - pose proof (try_merge_replays i u same b) as Hm.
    destruct (fetch_fault_buffer_try_merge_entry _ _ _ _) as [[] b1]; simpl in Hm; [done|]. etrans; [apply Hn'|done].
  - apply Hn'.
Qed.

Lemma parse_entry_grows index i : G (parse_entry index i).
Proof. unfold parse_entry. respects. Qed.

Lemma predictor_skips_grows mode adaptive i : G (predictor_skips P mode adaptive i).
Proof. unfold predictor_skips, upd_fetch. respects. Qed.

Lemma upd_batch_const_grows b (g : uvm_gpu D) a g' :
  num_replays b = num_replays (batch g) -> upd_batch (fun _ => b) g = (a, g') -> grows g g'.
Proof. intros Hb [= <- <-]. by apply grows_same. Qed.

#[local] Hint Resolve parse_entry_grows predictor_skips_grows : respects.

Lemma coalesce_grows may i n :
  G (b ← gets batch;
     let '(merged, b) := coalesce_entry may i b in
     upd_batch (fun _ => b) ;; mret (S i, if merged then n else u32 (n + 1))).
Proof.
  intros g x g'. unfold mbind at 1, ST_bind at 1, gets at 1.
  pose proof (coalesce_replays may i (batch g)) as Hc. destruct (coalesce_entry may i (batch g)) as [m b].
  unfold mbind, ST_bind. destruct (upd_batch (fun _ => b) g) as [u g1] eqn:E. intros [= <- <-].
  by eapply upd_batch_const_grows.
Qed.

Lemma note_utlb_grows i : G (upd_batch (fun b => note_utlb (utlb_id (fault_source (cache_at b i))) b)).
Proof. apply upd_batch_grows. intros b. unfold note_utlb. by destruct (_ <? _). Qed.

#[local] Hint Resolve coalesce_grows note_utlb_grows : respects.

Lemma process_entry_grows mode may adaptive i n : G (process_entry P mode may adaptive i n).
Proof. unfold process_entry. respects. Qed.

#[local] Hint Resolve process_entry_grows : respects.

Lemma fetch_one_grows mode may adaptive get i n : G (fetch_one P mode may adaptive get i n).
Proof. unfold fetch_one, wait_or_give_up. respects. Qed.

#[local] Hint Resolve fetch_one_grows : respects.

Lemma fetch_loop_grows fuel : forall mode may adaptive limit put get i n,
  G (fetch_loop P fuel mode may adaptive limit put get i n).
Proof. induction fuel; simpl; respects. Qed.

Lemma update_fetch_replays p b : num_replays (update_prev_fetch_predictor P p b).2 = num_replays b.
Proof.
  unfold update_prev_fetch_predictor, update_prev_fetch_predictor_from_coalesced_hash_exact,
    update_prev_fetch_predictor_from_coalesced_hash_approx,
    update_prev_fetch_predictor_from_coalesced_bsearch, update_prev_fetch_predictor_from_fetch_cache.
  repeat case_match; done.
Qed.

Lemma update_predictor_grows : G (update_predictor P).
Proof.
  apply modify_grows. intros g.
  pose proof (update_fetch_replays (prev_fetch (replayable g)) (batch g)) as Hu.
  by destruct (update_prev_fetch_predictor _ _ _).
Qed.

#[local] Hint Resolve fetch_loop_grows update_predictor_grows : respects.

Lemma fetch_grows mode : G (fetch_fault_buffer_entries P caps mode).
Proof. unfold fetch_fault_buffer_entries, fetch_prologue, fetch_done, upd_fetch. respects. Qed.

(** ** Preprocessing *)

Lemma translate_failed_grows i st : G (translate_failed caps i st).
Proof. unfold translate_failed, push_cancel_on_gpu_targeted, push_cancel_on_gpu_global. respects. Qed.

#[local] Hint Resolve translate_failed_grows : respects.

Lemma translate_loop_grows l : forall prev, G (translate_loop caps channels_at prev l).
Proof. induction l; simpl; respects. Qed.

Lemma prev_batch_step_replays s i : num_replays (pbl_batch (prev_batch_step s i)) = num_replays (pbl_batch s).
Proof.
  destruct s as [r b n prev]. unfold prev_batch_step, prev_batch_keys_contains. cbv zeta.
  destruct (check_fault_entry_duplicate _ _); [done|].
  destruct (prev_batch_search _ _ _ _ _ _) as [[] c]; done.
Qed.

Lemma prev_batch_step_policy s i :
  replay_policy (pbl_replayable (prev_batch_step s i)) = replay_policy (pbl_replayable s).
Proof.
  destruct s as [r b n prev]. unfold prev_batch_step, prev_batch_keys_contains. cbv zeta.
  destruct (check_fault_entry_duplicate _ _); [done|].
  destruct (prev_batch_search _ _ _ _ _ _) as [[] c]; done.
Qed.

Lemma prev_batch_policy r b : replay_policy (update_prev_batch_predictor P r b).1 = replay_policy r.
Proof.
  unfold update_prev_batch_predictor. cbv zeta. set (b0 := b <| pred ::= _ |>).
  set (l := take _ _). destruct (negb _); simpl; [done|].
  change (replay_policy r) with (replay_policy (pbl_replayable (mk_pbl r b0 0 None))).
  generalize (mk_pbl r b0 0 None). clearbody l.
  induction l as [|i l IH]; intros s; simpl; [done|]. by rewrite IH, prev_batch_step_policy.
Qed.

Lemma prev_batch_replays r b : num_replays (update_prev_batch_predictor P r b).2 = num_replays b.
Proof.
  unfold update_prev_batch_predictor. cbv zeta. set (b0 := b <| pred ::= _ |>).
  set (l := take _ _). destruct (negb _); simpl.
  - change (num_replays b) with (num_replays b0). clearbody b0 l. revert b0.
    induction l as [|i l IH]; intros b0; simpl; [done|]. by rewrite IH.
  - change (num_replays b) with (num_replays (pbl_batch (mk_pbl r b0 0 None))).
    generalize (mk_pbl r b0 0 None). clearbody l.
    induction l as [|i l IH]; intros s; simpl; [done|]. by rewrite IH, prev_batch_step_replays.
Qed.

Lemma run_prev_batch_grows : G (modify (run_prev_batch_predictor P)).
Proof.
  apply modify_grows. intros g. unfold run_prev_batch_predictor, settings.
  pose proof (prev_batch_replays (replayable g) (batch g)) as Hu.
  pose proof (prev_batch_policy (replayable g) (batch g)) as Hp.
  destruct (update_prev_batch_predictor _ _ _). simpl in *. by rewrite Hp.
Qed.

#[local] Hint Resolve translate_loop_grows run_prev_batch_grows : respects.

Lemma preprocess_grows : G (preprocess_fault_batch P caps channels_at).
Proof.
  unfold preprocess_fault_batch, translate_instance_ptrs. respects.
  apply upd_batch_grows. intros b. unfold sort_by_instance_ptr. by destruct (is_single_instance_ptr b).
Qed.

End PathFrames.

#[export] Hint Resolve fetch_grows preprocess_grows : respects.
