(* ===== verification/Stale.v ===== *)
(** * Stale-fault accounting

    The best-effort map from pages to the batch that last serviced them and the
    counters of stale faults ([uvm_gpu_replayable_faults.c], lines 879-954 and
    2595-2647). *)

From stdpp Require Import gmap.
From S2P Require Import Prelude FaultTypes Gpu Predictor.

Local Open Scope Z_scope.

Definition TRACKED_STALE_LAG_MAP_SIZE : Z := 4096.
Definition TRACKED_STALE_LAG_MAP_PROBES : nat := 8.

Record tracked_stale_lag_entry_t : Type := mk_lag_entry {
  page_address : Z;
  last_service_batch_id : Z;
}.

#[export] Instance lag_entry_inhabited : Inhabited tracked_stale_lag_entry_t :=
  populate (mk_lag_entry 0 0).

Abbreviation lag_map := (list tracked_stale_lag_entry_t).

Definition fault_addr_in_tracked_range (P : module_params) (fault_address : Z) : bool :=
  if negb (uvm_fault_track_range_enable P) then false
  else if uvm_fault_track_range_end P <=? uvm_fault_track_range_start P then false
  else (uvm_fault_track_range_start P <=? fault_address) &&
       (fault_address <? uvm_fault_track_range_end P).

Definition tracked_stale_lag_hash (page_address : Z) : Z :=
  u32 (Z.land (Z.shiftr page_address 12) (TRACKED_STALE_LAG_MAP_SIZE - 1)).

(** [(slot + probe) & (SIZE - 1)] *)
Definition lag_slot (slot : Z) (probe : nat) : nat :=
  Z.to_nat (Z.land (u32 (slot + Z.of_nat probe)) (TRACKED_STALE_LAG_MAP_SIZE - 1)).

(** [n] probes are left. *)
Fixpoint lag_get_loop (m : lag_map) (page slot current : Z) (n probe : nat) : Z :=
  match n with
  | O => 0
  | S n =>
      let e := m !!! lag_slot slot probe in
      if last_service_batch_id e =? 0 then 0
      else if page_address e =? page then
        if last_service_batch_id e <? current then u32 (current - last_service_batch_id e) else 0
      else lag_get_loop m page slot current n (S probe)
  end.

Definition tracked_stale_prev_lag_get (m : lag_map) (fault_address current_batch_id : Z) : Z :=
  let page := UVM_PAGE_ALIGN_DOWN fault_address in
  lag_get_loop m page (tracked_stale_lag_hash page) current_batch_id TRACKED_STALE_LAG_MAP_PROBES 0.

Fixpoint lag_record_loop (m : lag_map) (page slot batch_id : Z) (victim n probe : nat) : lag_map :=
  match n with
  | O => <[lag_slot slot victim := mk_lag_entry page batch_id]> m
  | S n =>
      let e := m !!! lag_slot slot probe in
      if (last_service_batch_id e =? 0) || (page_address e =? page)
      then <[lag_slot slot probe := mk_lag_entry page batch_id]> m
      else
        let victim :=
          if last_service_batch_id e <? last_service_batch_id (m !!! lag_slot slot victim)
          then probe else victim in
        lag_record_loop m page slot batch_id victim n (S probe)
  end.

Definition tracked_stale_prev_lag_record_service (m : lag_map) (fault_address batch_id : Z)
  : lag_map :=
  let page := UVM_PAGE_ALIGN_DOWN fault_address in
  lag_record_loop m page (tracked_stale_lag_hash page) batch_id 0 TRACKED_STALE_LAG_MAP_PROBES 0.

Definition incr (n : Z) : Z := u32 (n + 1).

(** The bucket of a lag; 0 means the page is not in the map. *)
Definition count_lag (lag : Z) (h : lag_histogram) : lag_histogram :=
  if lag =? 0 then h <| lag_unknown ::= incr |>
  else if lag =? 1 then h <| lag_1 ::= incr |>
  else if lag <=? 3 then h <| lag_2_3 ::= incr |>
  else if lag <=? 7 then h <| lag_4_7 ::= incr |>
  else h <| lag_8_plus ::= incr |>.

Definition account_stale_fault (P : module_params) (m : lag_map)
    (e : uvm_fault_buffer_entry_t) (page_index : Z) (pages_serviced_in_batch : gset Z)
    (b : uvm_fault_service_batch_context_t) : uvm_fault_service_batch_context_t :=
  let detail := stale_detail_enabled P in
  let in_tracked_range := detail && fault_addr_in_tracked_range P (fault_address e) in
  let b := b <| stale ::= fun c => c <| num_stale_faults ::= incr |> |> in
  if negb detail then b
  else
    let b :=
      if bool_decide (page_index ∈ pages_serviced_in_batch) then
        b <| stale ::= fun c => c <| num_stale_same_batch_faults ::= incr |> |>
      else
        let lag := tracked_stale_prev_lag_get m (fault_address e) (batch_id b) in
        let b := b <| stale ::= fun c => c <| num_stale_prev_batch_faults ::= incr |> |> in
        let b := b <| pred ::= fun c =>
          if pred_prev_candidate e then c <| num_pred_prev_true_stale ::= incr |>
          else c <| num_pred_prev_missed_stale ::= incr |> |> in
        let b := b <| stale ::= fun c => c <| stale_prev_lag ::= count_lag lag |> |> in
        if in_tracked_range
        then b <| stale ::= fun c => c <| tracked_stale_prev_lag ::= count_lag lag |> |>
        else b in
    if in_tracked_range
    then b <| stale ::= fun c => c <| num_tracked_stale_faults ::= incr |> |>
    else b.

(** ** The lag map *)

Lemma lag_slot_bound slot probe : (lag_slot slot probe < 4096)%nat.
Proof.
  unfold lag_slot. change (TRACKED_STALE_LAG_MAP_SIZE - 1) with (Z.ones 12).
  rewrite Z.land_ones by lia.
  pose proof (Z.mod_pos_bound (u32 (slot + Z.of_nat probe)) (2 ^ 12) ltac:(lia)). lia.
Qed.

Lemma tracked_stale_lag_hash_bound page : 0 <= tracked_stale_lag_hash page < 4096.
Proof.
  unfold tracked_stale_lag_hash. change (TRACKED_STALE_LAG_MAP_SIZE - 1) with (Z.ones 12).
  rewrite Z.land_ones by lia. pose proof (Z.mod_pos_bound (Z.shiftr page 12) (2 ^ 12) ltac:(lia)).
  rewrite u32_small; lia.
Qed.

(** The eight probes of a page visit different slots. *)
Lemma lag_slot_inj slot i j :
  0 <= slot < 4096 -> (i < 8)%nat -> (j < 8)%nat -> lag_slot slot i = lag_slot slot j -> i = j.
Proof.
  intros Hs Hi Hj. unfold lag_slot. change (TRACKED_STALE_LAG_MAP_SIZE - 1) with (Z.ones 12).
  rewrite !u32_small by lia. rewrite !Z.land_ones by lia. change (2 ^ 12) with 4096.
  pose proof (Z.mod_pos_bound (slot + Z.of_nat i) 4096 ltac:(lia)).
  pose proof (Z.mod_pos_bound (slot + Z.of_nat j) 4096 ltac:(lia)).
  intros E%Z2Nat.inj; [|lia..].
  pose proof (Z.div_mod (slot + Z.of_nat i) 4096 ltac:(lia)).
  pose proof (Z.div_mod (slot + Z.of_nat j) 4096 ltac:(lia)). lia.
Qed.

(** A page is stored at the first probe that is free or already its own, or,
    if there is none, over the oldest entry. *)
Lemma lag_record_loop_spec m page slot id : forall n probe victim,
  (probe + n = 8)%nat -> (victim < 8)%nat ->
  (forall j, (j < probe)%nat -> last_service_batch_id (m !!! lag_slot slot j) <> 0 /\
     page_address (m !!! lag_slot slot j) <> page) ->
  exists k, (k < 8)%nat /\
    lag_record_loop m page slot id victim n probe = <[lag_slot slot k := mk_lag_entry page id]> m /\
    forall j, (j < k)%nat -> last_service_batch_id (m !!! lag_slot slot j) <> 0 /\
      page_address (m !!! lag_slot slot j) <> page.
Proof.
  induction n as [|n IH]; intros probe victim Hn Hv Hseen; simpl.
  - exists victim. split; [done|]. split; [done|]. intros j Hj. apply Hseen. lia.
  - destruct (_ || _) eqn:E.
    + exists probe. split; [lia|]. done.
    + apply orb_false_iff in E as [E1%Z.eqb_neq E2%Z.eqb_neq]. apply IH; [lia|by case_match; lia|].
      intros j Hj. destruct (decide (j = probe)) as [->|]; [done|]. apply Hseen. lia.
Qed.

Lemma lag_get_loop_spec m page slot current k id : forall n probe,
  (probe + n = 8)%nat -> (probe <= k < 8)%nat ->
  (forall j, (j < k)%nat -> last_service_batch_id (m !!! lag_slot slot j) <> 0 /\
     page_address (m !!! lag_slot slot j) <> page) ->
  m !!! lag_slot slot k = mk_lag_entry page id -> id <> 0 ->
  lag_get_loop m page slot current n probe = if id <? current then u32 (current - id) else 0.
Proof.
  induction n as [|n IH]; intros probe Hn Hk Hseen He Hid; [lia|]. simpl.
  destruct (decide (probe = k)) as [->|Hne].
  - rewrite He. simpl. rewrite (proj2 (Z.eqb_neq _ _)) by done. by rewrite Z.eqb_refl.
  - destruct (Hseen probe ltac:(lia)) as [E1 E2]. rewrite !(proj2 (Z.eqb_neq _ _)) by done.
    apply IH; [lia|lia|done..].
Qed.

(** A page recorded as serviced in batch [id] has, in any later batch, the
    exact distance to it as its lag, whatever else is in the map. *)
Theorem lag_get_after_record m a id current :
  length m = 4096%nat -> 0 < id -> id < current < 2 ^ 32 ->
  tracked_stale_prev_lag_get (tracked_stale_prev_lag_record_service m a id) a current = current - id.
Proof.
  intros Hm Hid Hc. unfold tracked_stale_prev_lag_get, tracked_stale_prev_lag_record_service.
  set (page := UVM_PAGE_ALIGN_DOWN a). set (slot := tracked_stale_lag_hash page).
  pose proof (tracked_stale_lag_hash_bound page) as Hslot. fold slot in Hslot.
  destruct (lag_record_loop_spec m page slot id 8 0 0) as (k & Hk & Hrec & Hseen); [lia..|].
  change TRACKED_STALE_LAG_MAP_PROBES with 8%nat. rewrite Hrec.
  rewrite (lag_get_loop_spec _ _ _ _ k id); [|lia|lia| | |lia].
  - rewrite (proj2 (Z.ltb_lt _ _)) by lia. apply u32_small. lia.
  - intros j Hj. rewrite list_lookup_total_insert_ne; [by apply Hseen|].
    intros E%lag_slot_inj; lia.
  - apply list_lookup_total_insert_eq. rewrite Hm. apply lag_slot_bound.
Qed.

Lemma lag_get_after_record_witness :
  tracked_stale_prev_lag_get
    (tracked_stale_prev_lag_record_service (replicate 4096 (mk_lag_entry 0 0)) 12288 5) 12290 9 = 4.
Proof.
  apply (lag_get_after_record (replicate 4096 (mk_lag_entry 0 0)) 12290 5 9); [|lia..].
  apply length_replicate.
Defined.

(** ** The counters *)

Definition lag_total (h : lag_histogram) : Z :=
  lag_unknown h + lag_1 h + lag_2_3 h + lag_4_7 h + lag_8_plus h.

Definition counters (b : uvm_fault_service_batch_context_t) : list Z :=
  let c := stale b in
  [num_stale_faults c; num_stale_same_batch_faults c; num_stale_prev_batch_faults c;
   num_pred_prev_true_stale (pred b); num_pred_prev_missed_stale (pred b);
   lag_unknown (stale_prev_lag c); lag_1 (stale_prev_lag c); lag_2_3 (stale_prev_lag c);
   lag_4_7 (stale_prev_lag c); lag_8_plus (stale_prev_lag c)].

Lemma incr_small n : 0 <= n < 2 ^ 32 - 1 -> incr n = n + 1.
Proof. intros. apply u32_small. lia. Qed.

Lemma count_lag_total lag h :
  Forall (fun n => 0 <= n < 2 ^ 32 - 1) [lag_unknown h; lag_1 h; lag_2_3 h; lag_4_7 h; lag_8_plus h] ->
  lag_total (count_lag lag h) = lag_total h + 1.
Proof.
  rewrite !Forall_cons. intros (H1 & H2 & H3 & H4 & H5 & _). unfold count_lag, lag_total.
  case_ifs; rewrite incr_small by lia; lia.
Qed.

(** Every stale fault is counted once.  With details on it is counted as
    stale either within the batch or from an earlier one; in the latter case it
    also falls in exactly one lag bucket and is either a fault the previous-batch
    predictor marked or one it missed. *)
Theorem account_stale_fault_partition P m e page serviced b :
  Forall (fun n => 0 <= n < 2 ^ 32 - 1) (counters b) ->
  let b' := account_stale_fault P m e page serviced b in
  let from_earlier := stale_detail_enabled P && negb (bool_decide (page ∈ serviced)) in
  let same := stale_detail_enabled P && bool_decide (page ∈ serviced) in
  num_stale_faults (stale b') = num_stale_faults (stale b) + 1 /\
  num_stale_same_batch_faults (stale b') = num_stale_same_batch_faults (stale b) + Z.b2z same /\
  num_stale_prev_batch_faults (stale b') = num_stale_prev_batch_faults (stale b) + Z.b2z from_earlier /\
  lag_total (stale_prev_lag (stale b')) = lag_total (stale_prev_lag (stale b)) + Z.b2z from_earlier /\
  num_pred_prev_true_stale (pred b') =
    num_pred_prev_true_stale (pred b) + Z.b2z (from_earlier && pred_prev_candidate e) /\
  num_pred_prev_missed_stale (pred b') =
    num_pred_prev_missed_stale (pred b) + Z.b2z (from_earlier && negb (pred_prev_candidate e)).
Proof.
  unfold counters. rewrite !Forall_cons. intros (H1 & H2 & H3 & H4 & H5 & Hlag).
  unfold account_stale_fault. destruct (stale_detail_enabled P); simpl.
  2:{ rewrite incr_small by done. split_and!; lia. }
  destruct (bool_decide (page ∈ serviced)); simpl.
  - destruct (fault_addr_in_tracked_range P (fault_address e)); simpl; rewrite !incr_small by done;
      split_and!; lia.
  - set (lag := tracked_stale_prev_lag_get _ _ _).
    assert (lag_total (count_lag lag (stale_prev_lag (stale b))) =
      lag_total (stale_prev_lag (stale b)) + 1) as Hl by (apply count_lag_total; by rewrite !Forall_cons).
    destruct (fault_addr_in_tracked_range P (fault_address e)), (pred_prev_candidate e); simpl;
      rewrite ?incr_small, ?Hl by done; split_and!; lia.
Qed.

Lemma account_stale_fault_partition_witness :
  num_stale_prev_batch_faults (stale (account_stale_fault default_params (replicate 4096 (mk_lag_entry 0 0))
    (example_entry 1 4096 UVM_FAULT_ACCESS_TYPE_READ) 3 {[ 2 ]} (example_batch []))) = 1.
Proof.
  destruct (account_stale_fault_partition default_params (replicate 4096 (mk_lag_entry 0 0))
    (example_entry 1 4096 UVM_FAULT_ACCESS_TYPE_READ) 3 {[ 2 ]} (example_batch []))
    as (_ & _ & H & _); [repeat constructor; simpl; lia|].
  etrans; [exact H|]. vm_compute. reflexivity.
Defined.
