(* ===== verification/Service.v ===== *)
(** * Servicing the faults of one VA block

    Fault marking, logical permissions and the pass over the faults of a VA
    block ([uvm_gpu_replayable_faults.c], lines 2427-2593 and 2661-2990).  VA
    blocks, policies, range groups and the thrashing heuristics are reached
    through the queries of [block_queries]. *)

From stdpp Require Import gmap.
From S2P Require Import Prelude FaultTypes Gpu SimDevice Sorting FaultBuffer Predictor Fetch Coalesce Channels Preprocess Stale.

Local Open Scope Z_scope.

(** ** Marking faults *)

Definition notify_event (e : uvm_fault_buffer_entry_t) (is_duplicate : bool) : event :=
  EvFaultNotify (default 0 (va_space e)) (fault_address e) (fault_access_type e) is_duplicate.

(** The notification goes to the trace; the counter is the batch's. *)
Definition update_batch_and_notify_fault (i : nat) (is_duplicate : bool)
    (b : uvm_fault_service_batch_context_t) : event * uvm_fault_service_batch_context_t :=
  let e := cache_at b i in
  (notify_event e is_duplicate,
   b <| num_duplicate_faults ::= fun n =>
     if is_duplicate then u32 (n + num_instances e) else u32 (n + (num_instances e - 1)) |>).

Definition mark_fault_invalid_prefetch (i : nat) (b : uvm_fault_service_batch_context_t)
  : uvm_fault_service_batch_context_t :=
  (upd_entry i (fun e => e <| is_invalid_prefetch := true |>) b)
    <| num_invalid_prefetch_faults ::= fun n => u32 (n + num_instances (cache_at b i)) |>.

Definition mark_fault_throttled (i : nat) (b : uvm_fault_service_batch_context_t)
  : uvm_fault_service_batch_context_t :=
  (upd_entry i (fun e => e <| is_throttled := true |>) b) <| has_throttled_faults := true |>.

Definition mark_fault_fatal (i : nat) (reason : UvmEventFatalReason)
    (mode : uvm_fault_cancel_va_mode_t) (b : uvm_fault_service_batch_context_t)
  : uvm_fault_service_batch_context_t :=
  let b := upd_entry i (fun e =>
    e <| is_fatal := true |> <| fatal_reason := reason |> <| cancel_va_mode := mode |>) b in
  let e := cache_at b i in
  let b := upd_utlb (utlb_id (fault_source e)) (fun t => t <| has_fatal_faults := true |>) b in
  match fatal_va_space b with
  | None => b <| fatal_va_space := va_space e |>
  | Some _ => b
  end.

Definition fault_entry_duplicate_flags (i previous : nat) (b : uvm_fault_service_batch_context_t)
  : uvm_fault_service_batch_context_t :=
  let p := cache_at b previous in
  let b := if is_invalid_prefetch p then mark_fault_invalid_prefetch i b else b in
  if is_throttled p then mark_fault_throttled i b else b.

(** ** VA blocks *)

Record uvm_va_block_t : Type := mk_va_block {
  block_start : Z;
  block_end : Z;
  block_va_space : Z;
  block_is_hmm : bool;
}.

Definition uvm_va_block_cpu_page_index (blk : uvm_va_block_t) (addr : Z) : Z :=
  u64 (addr - block_start blk) / PAGE_SIZE.

Inductive uvm_perf_thrashing_hint_type_t : Type :=
| UVM_PERF_THRASHING_HINT_TYPE_NONE
| UVM_PERF_THRASHING_HINT_TYPE_PIN
| UVM_PERF_THRASHING_HINT_TYPE_THROTTLE.

(** What a pass asks of the VA block, its policy, the range groups and the
    heuristics.  The first argument of each query is the position in the
    ordered view at which it is asked, so that the answers may change as the
    pass notifies faults. *)
Record block_queries : Type := mk_queries {
  (* uvm_va_block_check_logical_permissions: page, access type, migratable *)
  q_permission : nat -> Z -> uvm_fault_access_type_t -> bool -> NV_STATUS;
  (* uvm_va_block_page_is_gpu_authorized *)
  q_authorized : nat -> Z -> uvm_prot_t -> bool;
  (* uvm_perf_thrashing_get_hint *)
  q_hint : nat -> Z -> uvm_perf_thrashing_hint_type_t;
  (* uvm_va_block_select_residency: the processor, read duplication *)
  q_residency : nat -> Z -> Z -> bool -> Z * bool;
  (* uvm_hmm_find_policy_end *)
  q_hmm_policy_end : Z -> Z;
  (* the migratability iterator: end and migratability of each range *)
  q_migratability : list (Z * bool);
}.

(** ** The service context of the block *)

Record uvm_service_block_context_t : Type := mk_block_context {
  num_retries : Z;
  resident_processors : gset Z;
  new_residency : gmap Z (gset Z);
  thrashing_pin_count : Z;
  thrashing_pin_mask : gset Z;
  read_duplicate_count : Z;
  read_duplicate_mask : gset Z;
  block_access_type : gmap Z uvm_fault_access_type_t;
  region_first : Z;
  region_outer : Z;
}.

#[export] Instance uvm_service_block_context_eta : Eta uvm_service_block_context_t := fun c =>
  mk_block_context (num_retries c) (resident_processors c) (new_residency c)
    (thrashing_pin_count c) (thrashing_pin_mask c) (read_duplicate_count c)
    (read_duplicate_mask c) (block_access_type c) (region_first c) (region_outer c).

(** ** Logical permissions *)

Definition check_fault_access_permissions (q : block_queries) (blk : uvm_va_block_t)
    (retries : Z) (pos i : nat) (migratable : bool) (b : uvm_fault_service_batch_context_t)
  : uvm_fault_access_type_t * uvm_fault_service_batch_context_t :=
  let e := cache_at b i in
  let page := uvm_va_block_cpu_page_index blk (fault_address e) in
  let perm_status := q_permission q pos page (fault_access_type e) migratable in
  if is_ok perm_status then (fault_access_type e, b)
  else if bool_decide (fault_access_type e = UVM_FAULT_ACCESS_TYPE_PREFETCH) then
    (UVM_FAULT_ACCESS_TYPE_COUNT,
     if retries =? 0 then mark_fault_invalid_prefetch i b else b)
  else
    let reason := uvm_tools_status_to_fatal_fault_reason perm_status in
    let '(ret, mode, reason) :=
      if access_num UVM_FAULT_ACCESS_TYPE_READ <? access_num (fault_access_type e) then
        if uvm_fault_access_type_mask_test (access_type_mask e) UVM_FAULT_ACCESS_TYPE_READ then
          let read_status := q_permission q pos page UVM_FAULT_ACCESS_TYPE_READ migratable in
          if is_ok read_status
          then (UVM_FAULT_ACCESS_TYPE_READ, UVM_FAULT_CANCEL_VA_MODE_WRITE_AND_ATOMIC, reason)
          else (UVM_FAULT_ACCESS_TYPE_COUNT, UVM_FAULT_CANCEL_VA_MODE_ALL,
                uvm_tools_status_to_fatal_fault_reason read_status)
        else (UVM_FAULT_ACCESS_TYPE_COUNT, UVM_FAULT_CANCEL_VA_MODE_WRITE_AND_ATOMIC, reason)
      else (UVM_FAULT_ACCESS_TYPE_COUNT, UVM_FAULT_CANCEL_VA_MODE_ALL, reason) in
    (ret, mark_fault_fatal i reason mode b).

(** ** The pass over the faults of a block *)

(** The state of a pass: the batch, the service context, the lag map, the
    notifications sent (newest first) and the local variables. *)
Record block_pass : Type := mk_pass {
  pass_batch : uvm_fault_service_batch_context_t;
  pass_ctx : uvm_service_block_context_t;
  pass_lag : lag_map;
  pass_trace : list event;
  pages_serviced_in_batch : gset Z;
  page_fault_count : Z;
  first_page_index : Z;
  last_page_index : Z;
  pass_iter : list (Z * bool);
}.

#[export] Instance block_pass_eta : Eta block_pass := fun s =>
  mk_pass (pass_batch s) (pass_ctx s) (pass_lag s) (pass_trace s) (pages_serviced_in_batch s)
    (page_fault_count s) (first_page_index s) (last_page_index s) (pass_iter s).

(** [while (iter.end < address) iter_next(...)]; the last range reaches the end
    of the block. *)
Fixpoint advance_iter (addr : Z) (iter : list (Z * bool)) : list (Z * bool) :=
  match iter with
  | (e, m) :: ((_ :: _) as rest) => if e <? addr then advance_iter addr rest else iter
  | _ => iter
  end.

Definition iter_migratable (iter : list (Z * bool)) : bool :=
  match iter with (_, m) :: _ => m | [] => false end.

(** [if (count++ == 0) zero(mask); set(mask, page)] *)
Definition counted_mask_set (count : Z) (mask : gset Z) (page : Z) : gset Z :=
  if count =? 0 then {[ page ]} else {[ page ]} ∪ mask.

Definition pin_page (page : Z) (c : uvm_service_block_context_t) : uvm_service_block_context_t :=
  c <| thrashing_pin_mask ::= fun m => counted_mask_set (thrashing_pin_count c) m page |>
    <| thrashing_pin_count ::= fun n => u32 (n + 1) |>.

Definition read_duplicate_page (page : Z) (c : uvm_service_block_context_t)
  : uvm_service_block_context_t :=
  c <| read_duplicate_mask ::= fun m => counted_mask_set (read_duplicate_count c) m page |>
    <| read_duplicate_count ::= fun n => u32 (n + 1) |>.

Definition set_new_residency (proc page : Z) (c : uvm_service_block_context_t)
  : uvm_service_block_context_t :=
  let old := if bool_decide (proc ∈ resident_processors c)
             then default ∅ (new_residency c !! proc) else ∅ in
  c <| resident_processors ::= union {[ proc ]} |>
    <| new_residency ::= insert proc ({[ page ]} ∪ old) |>.

Section Pass.
  Variable P : module_params.
  Variable q : block_queries.
  Variable blk : uvm_va_block_t.
  Variable hmm_migratable : bool.

(** Queue the page for [uvm_va_block_service_locked]. *)
Definition queue_page (pos i : nat) (page : Z) (access : uvm_fault_access_type_t) (mask : Z)
    (s : block_pass) : block_pass :=
  let '(proc, read_duplicate) := q_residency q pos page mask hmm_migratable in
  let s := s <| pass_ctx ::= set_new_residency proc page |>
             <| pages_serviced_in_batch ::= union {[ page ]} |> in
  let s := if stale_detail_enabled P then
             s <| pass_lag ::= fun m => tracked_stale_prev_lag_record_service m
                    (fault_address (cache_at (pass_batch s) i)) (batch_id (pass_batch s)) |>
           else s in
  let s := if read_duplicate : bool then s <| pass_ctx ::= read_duplicate_page page |> else s in
  s <| page_fault_count ::= fun n => u32 (n + 1) |>
    <| pass_ctx ::= fun c => c <| block_access_type ::= insert page access |> |>
    <| first_page_index ::= fun f => if page <? f then page else f |>
    <| last_page_index ::= fun l => if l <? page then page else l |>.

(** The part of the loop body that may service the page. *)
Definition service_page (pos i : nat) (s : block_pass) : block_pass :=
  let e := cache_at (pass_batch s) i in
  let page := uvm_va_block_cpu_page_index blk (fault_address e) in
  let '(access, b) :=
    check_fault_access_permissions q blk (num_retries (pass_ctx s)) pos i
      (iter_migratable (pass_iter s)) (pass_batch s) in
  let s := s <| pass_batch := b |> in
  if bool_decide (access = UVM_FAULT_ACCESS_TYPE_COUNT) then s
  else
    let mask := if bool_decide (access <> fault_access_type e)
                then uvm_fault_access_type_mask_bit access else access_type_mask e in
    if q_authorized q pos page (uvm_fault_access_type_to_prot access) then
      s <| pass_batch ::= account_stale_fault P (pass_lag s) (cache_at (pass_batch s) i) page
                            (pages_serviced_in_batch s) |>
    else
      match q_hint q pos (fault_address e) with
      | UVM_PERF_THRASHING_HINT_TYPE_THROTTLE =>
          if num_retries (pass_ctx s) =? 0
          then s <| pass_batch ::= mark_fault_throttled i |> else s
      | UVM_PERF_THRASHING_HINT_TYPE_PIN =>
          queue_page pos i page access mask (s <| pass_ctx ::= pin_page page |>)
      | UVM_PERF_THRASHING_HINT_TYPE_NONE => queue_page pos i page access mask s
      end.

(** The start of the loop body: clear the flags, count the fault and notify it
    the first time the block is serviced.  Returns whether the fault duplicates
    the one before it. *)
Definition entry_prologue (i : nat) (previous : option nat) (s : block_pass) : bool * block_pass :=
  let s := s <| pass_batch ::= upd_entry i (fun e =>
    e <| is_throttled := false |> <| is_invalid_prefetch := false |>) |> in
  let current := cache_at (pass_batch s) i in
  let s := if stale_detail_enabled P && fault_addr_in_tracked_range P (fault_address current)
           then s <| pass_batch ::= fun b => b <| stale ::= fun c =>
                  c <| num_tracked_faults ::= incr |> |> |>
           else s in
  let is_duplicate :=
    check_fault_entry_duplicate current (cache_at (pass_batch s) <$> previous) in
  let s := s <| pass_iter ::= advance_iter (fault_address current) |> in
  let s := if num_retries (pass_ctx s) =? 0 then
             let '(ev, b) := update_batch_and_notify_fault i is_duplicate (pass_batch s) in
             s <| pass_trace ::= cons ev |> <| pass_batch := b |>
           else s in
  (is_duplicate, s).

(** The body of the loop for the entry at position [pos]; [previous] is the
    pointer before it, unless it is the first of the block. *)
Definition service_entry (pos i : nat) (previous : option nat) (s : block_pass) : block_pass :=
  let '(is_duplicate, s) := entry_prologue i previous s in
  match previous with
  | Some p =>
      if is_duplicate then
        let s := s <| pass_batch ::= fault_entry_duplicate_flags i p |> in
        if negb (is_fatal (cache_at (pass_batch s) p)) then s else service_page pos i s
      else service_page pos i s
  | None => service_page pos i s
  end.

(** The loop over the ordered view from [pos] on; [n] entries are left in the
    view. Returns the position at which it stops. *)
Fixpoint service_loop (end_address : Z) (first n pos : nat) (s : block_pass) : nat * block_pass :=
  match n with
  | O => (pos, s)
  | S n =>
      let o := ordered_fault_cache (pass_batch s) in
      let i := o !!! pos in
      let e := cache_at (pass_batch s) i in
      if bool_decide (va_space e = Some (block_va_space blk)) && (fault_address e <=? end_address)
      then
        let previous := if (first <? pos)%nat then Some (o !!! (pos - 1)%nat) else None in
        service_loop end_address first n (S pos) (service_entry pos i previous s)
      else (pos, s)
  end.

Definition PAGES_PER_UVM_VA_BLOCK : Z := 512.

Definition block_policy_end (fault_address : Z) : Z :=
  if block_is_hmm blk then q_hmm_policy_end q fault_address else block_end blk.

(** The pass: everything up to the servicing of the queued pages. *)
Definition block_pass_run (first : nat) (b : uvm_fault_service_batch_context_t)
    (c : uvm_service_block_context_t) (lag : lag_map) : nat * block_pass :=
  let c := c <| resident_processors := ∅ |> <| thrashing_pin_count := 0 |>
             <| read_duplicate_count := 0 |> in
  let s := mk_pass b c lag [] ∅ 0 PAGES_PER_UVM_VA_BLOCK 0 (q_migratability q) in
  let end_address := block_policy_end (fault_address (cache_at b (ordered_fault_cache b !!! first))) in
  service_loop end_address first (Z.to_nat (num_coalesced_faults b) - first) first s.

End Pass.

(** ** What a pass does not change *)

(** A fault without the flags servicing sets. *)
Definition unflagged (e : uvm_fault_buffer_entry_t) : uvm_fault_buffer_entry_t :=
  e <| is_fatal := false |> <| fatal_reason := UvmEventFatalReasonInvalid |>
    <| cancel_va_mode := UVM_FAULT_CANCEL_VA_MODE_ALL |> <| is_throttled := false |>
    <| is_invalid_prefetch := false |>.

Record same_faults (b b' : uvm_fault_service_batch_context_t) : Prop := {
  sf_cache : unflagged <$> fault_cache b' = unflagged <$> fault_cache b;
  sf_ordered : ordered_fault_cache b' = ordered_fault_cache b;
  sf_coalesced : num_coalesced_faults b' = num_coalesced_faults b;
  sf_id : batch_id b' = batch_id b;
  sf_replays : num_replays b' = num_replays b;
}.

#[export] Instance same_faults_preorder : PreOrder same_faults.
Proof. split; [by split|]. intros a b c [] []. split; congruence. Qed.

Lemma same_faults_upd i f b :
  (forall e, unflagged (f e) = unflagged e) -> same_faults b (upd_entry i f b).
Proof.
  intros Hf. split; try done. simpl.
  rewrite (list_fmap_alter unflagged _ (fun e => e)) by (apply Forall_true; done).
  by rewrite list_alter_id.
Qed.

Lemma same_faults_at b b' i : same_faults b b' -> unflagged (cache_at b' i) = unflagged (cache_at b i).
Proof.
  intros [Hc _ _ _ _]. unfold cache_at. rewrite !list_lookup_total_alt.
  assert (unflagged <$> (fault_cache b' !! i) = unflagged <$> (fault_cache b !! i)) as H
    by (rewrite <- !list_lookup_fmap; by rewrite Hc).
  destruct (fault_cache b' !! i), (fault_cache b !! i); simpl in *; congruence.
Qed.

Lemma same_faults_length b b' : same_faults b b' -> length (fault_cache b') = length (fault_cache b).
Proof. intros [Hc _ _ _ _]. apply (f_equal length) in Hc. by rewrite !length_fmap in Hc. Qed.

Lemma same_faults_fields b b' i : same_faults b b' ->
  va_space (cache_at b' i) = va_space (cache_at b i) /\
  fault_address (cache_at b' i) = fault_address (cache_at b i) /\
  fault_access_type (cache_at b' i) = fault_access_type (cache_at b i) /\
  access_type_mask (cache_at b' i) = access_type_mask (cache_at b i) /\
  num_instances (cache_at b' i) = num_instances (cache_at b i).
Proof.
  intros H%(same_faults_at _ _ i).
  split; [exact (f_equal va_space H)|]. split; [exact (f_equal fault_address H)|].
  split; [exact (f_equal fault_access_type H)|].
  split; [exact (f_equal access_type_mask H)|exact (f_equal num_instances H)].
Qed.

(** Updates of the other fields of a batch. *)
Lemma same_faults_other b b' :
  fault_cache b' = fault_cache b -> ordered_fault_cache b' = ordered_fault_cache b ->
  num_coalesced_faults b' = num_coalesced_faults b -> batch_id b' = batch_id b ->
  num_replays b' = num_replays b -> same_faults b b'.
Proof. intros E1 E2 E3 E4 E5. split; congruence. Qed.

Lemma mark_invalid_prefetch_same i b : same_faults b (mark_fault_invalid_prefetch i b).
Proof.
  unfold mark_fault_invalid_prefetch. set (b1 := upd_entry i _ b).
  transitivity b1; [by apply same_faults_upd|by apply same_faults_other].
Qed.

Lemma mark_throttled_same i b : same_faults b (mark_fault_throttled i b).
Proof.
  unfold mark_fault_throttled. set (b1 := upd_entry i _ b).
  transitivity b1; [by apply same_faults_upd|by apply same_faults_other].
Qed.

Lemma mark_fatal_same i r m b : same_faults b (mark_fault_fatal i r m b).
Proof.
  unfold mark_fault_fatal. set (b1 := upd_entry i _ b).
  transitivity b1; [by apply same_faults_upd|]. case_match; by apply same_faults_other.
Qed.

Lemma duplicate_flags_same i p b : same_faults b (fault_entry_duplicate_flags i p b).
Proof.
  unfold fault_entry_duplicate_flags. destruct (is_invalid_prefetch _), (is_throttled _);
    try done; auto using mark_invalid_prefetch_same, mark_throttled_same.
  etrans; [apply mark_invalid_prefetch_same|apply mark_throttled_same].
Qed.

Lemma check_permissions_same q blk n pos i m b a b' :
  check_fault_access_permissions q blk n pos i m b = (a, b') -> same_faults b b'.
Proof.
  unfold check_fault_access_permissions. intros H. repeat case_match; simplify_eq;
    solve [done | apply mark_invalid_prefetch_same | apply mark_fatal_same].
Qed.

Lemma account_stale_cache P m e page ser b :
  fault_cache (account_stale_fault P m e page ser b) = fault_cache b.
Proof. unfold account_stale_fault. repeat case_match; done. Qed.

Lemma account_stale_same P m e page ser b : same_faults b (account_stale_fault P m e page ser b).
Proof. unfold account_stale_fault. repeat case_match; by apply same_faults_other. Qed.

Create HintDb service.
#[export] Hint Resolve mark_invalid_prefetch_same mark_throttled_same mark_fatal_same
  duplicate_flags_same account_stale_same : service.

Lemma queue_page_batch P q h pos i page a mask s :
  pass_batch (queue_page P q h pos i page a mask s) = pass_batch s.
Proof. unfold queue_page. repeat case_match; done. Qed.

Lemma service_page_same P q blk h pos i s : same_faults (pass_batch s) (pass_batch (service_page P q blk h pos i s)).
Proof.
  unfold service_page. destruct (check_fault_access_permissions _ _ _ _ _ _ _) as [a b] eqn:Hc.
  apply check_permissions_same in Hc.
  repeat case_match; rewrite ?queue_page_batch; simpl; try done; etrans; eauto with service.
Qed.

Lemma is_fatal_upd b i k f :
  (forall e, is_fatal (f e) = is_fatal e) -> is_fatal (cache_at (upd_entry i f b) k) = is_fatal (cache_at b k).
Proof.
  intros Hf. destruct (decide (k = i)) as [->|]; [|by rewrite cache_at_upd_ne].
  destruct (decide (i < length (fault_cache b))%nat); [by rewrite cache_at_upd_eq|].
  unfold cache_at, upd_entry. simpl. rewrite !list_lookup_total_alt.
  rewrite list_lookup_alter_eq. by rewrite lookup_ge_None_2 by lia.
Qed.

Lemma duplicate_same b b' i p : same_faults b b' ->
  check_fault_entry_duplicate (cache_at b' i) (Some (cache_at b' p)) =
  check_fault_entry_duplicate (cache_at b i) (Some (cache_at b p)).
Proof.
  intros Hb. destruct (same_faults_fields _ _ i Hb) as (E1 & E2 & _).
  destruct (same_faults_fields _ _ p Hb) as (E3 & E4 & _). simpl. by rewrite E1, E2, E3, E4.
Qed.

(** The prologue sets no fatal flag and queues nothing. *)
Record prologue_post (i : nat) (prev : option nat) (s : block_pass) (d : bool) (s' : block_pass) : Prop := {
  po_same : same_faults (pass_batch s) (pass_batch s');
  po_fatal : forall k, is_fatal (cache_at (pass_batch s') k) = is_fatal (cache_at (pass_batch s) k);
  po_dup : d = check_fault_entry_duplicate (cache_at (pass_batch s) i) (cache_at (pass_batch s) <$> prev);
  po_ctx : pass_ctx s' = pass_ctx s;
  po_pages : pages_serviced_in_batch s' = pages_serviced_in_batch s;
  po_first : first_page_index s' = first_page_index s;
  po_last : last_page_index s' = last_page_index s;
  po_count : page_fault_count s' = page_fault_count s;
}.

Lemma entry_prologue_spec P i prev s d s' :
  entry_prologue P i prev s = (d, s') -> prologue_post i prev s d s'.
Proof.
  unfold entry_prologue. cbv zeta.
  set (s1 := s <| pass_batch ::= _ |>).
  assert (prologue_post i prev s (check_fault_entry_duplicate (cache_at (pass_batch s1) i)
    (cache_at (pass_batch s1) <$> prev)) s1) as H1.
  { assert (same_faults (pass_batch s) (pass_batch s1)) as Hs by (by apply same_faults_upd).
    split; try done; [intros k; by apply is_fatal_upd|].
    destruct prev as [p|]; [by apply duplicate_same|done]. }
  clearbody s1. set (s2 := if stale_detail_enabled P && _ then _ else _).
  set (d' := check_fault_entry_duplicate _ _).
  assert (prologue_post i prev s d' s2) as H2.
  { unfold d', s2. case_match; [|done]. destruct H1 as [H1 F E1 E2 E3 E4 E5 E6].
    split; try done. etrans; [exact H1|by apply same_faults_other]. }
  clearbody s2 d'. destruct H2 as [H2 F E1 E2 E3 E4 E5 E6]. simpl. rewrite E2.
  case_match; intros [= <- <-]; split; try done; simpl.
  etrans; [exact H2|by apply same_faults_other].
Qed.

(** The iterator of a pass moves to the range of the current fault. *)
Lemma entry_prologue_iter P i prev s d s' : entry_prologue P i prev s = (d, s') ->
  pass_iter s' = advance_iter (fault_address (cache_at (pass_batch s) i)) (pass_iter s).
Proof.
  assert (same_faults (pass_batch s) (upd_entry i (fun e =>
    e <| is_throttled := false |> <| is_invalid_prefetch := false |>) (pass_batch s))) as Hs by (by apply same_faults_upd).
  destruct (same_faults_fields _ _ i Hs) as (_ & Ha & _). rewrite <- Ha. unfold entry_prologue. cbv zeta.
  repeat case_match; by intros [= <- <-].
Qed.

Lemma service_entry_same P q blk h pos i prev s :
  same_faults (pass_batch s) (pass_batch (service_entry P q blk h pos i prev s)).
Proof.
  unfold service_entry. destruct (entry_prologue P i prev s) as [d s1] eqn:E.
  apply entry_prologue_spec in E as [Hs _ _ _ _ _ _ _]. etrans; [exact Hs|].
  repeat case_match; eauto using service_page_same; simpl; eauto with service.
  etrans; [|apply service_page_same]. simpl. eauto with service.
Qed.

(** ** The extent of a pass *)

Definition in_block (blk : uvm_va_block_t) (end_address : Z) (e : uvm_fault_buffer_entry_t) : bool :=
  bool_decide (va_space e = Some (block_va_space blk)) && (fault_address e <=? end_address).

(** How many consecutive faults of the view, from [pos] on, are in the block. *)
Fixpoint run_length (blk : uvm_va_block_t) (end_address : Z) (b : uvm_fault_service_batch_context_t)
    (n pos : nat) : nat :=
  match n with
  | O => 0
  | S n => if in_block blk end_address (cache_at b (ordered_fault_cache b !!! pos))
           then S (run_length blk end_address b n (S pos)) else 0
  end.

Lemma in_block_same blk e b b' i : same_faults b b' ->
  in_block blk e (cache_at b' i) = in_block blk e (cache_at b i).
Proof. intros (E1 & E2 & _)%(same_faults_fields _ _ i). unfold in_block. by rewrite E1, E2. Qed.

Lemma run_length_same blk e b b' n : same_faults b b' -> forall pos,
  run_length blk e b' n pos = run_length blk e b n pos.
Proof.
  intros Hb. induction n as [|n IH]; intros pos; simpl; [done|].
  rewrite (sf_ordered _ _ Hb), (in_block_same _ _ _ _ _ Hb), IH. done.
Qed.

Section PassInvariant.
  Variable P : module_params.
  Variable q : block_queries.
  Variable blk : uvm_va_block_t.
  Variable h : bool.

Lemma service_loop_pos end_address first n : forall pos s,
  (service_loop P q blk h end_address first n pos s).1 =
  (pos + run_length blk end_address (pass_batch s) n pos)%nat.
Proof.
  induction n as [|n IH]; intros pos s; simpl; [lia|].
  fold (in_block blk end_address (cache_at (pass_batch s) (ordered_fault_cache (pass_batch s) !!! pos))).
  destruct (in_block _ _ _); [|simpl; lia].
  rewrite IH, (run_length_same _ _ _ _ _ (service_entry_same _ _ _ _ _ _ _ _)). lia.
Qed.

Lemma service_loop_same end_address first n : forall pos s,
  same_faults (pass_batch s) (pass_batch (service_loop P q blk h end_address first n pos s).2).
Proof.
  induction n as [|n IH]; intros pos s; simpl; [done|].
  case_match; [|done]. etrans; [apply service_entry_same|apply IH].
Qed.

(** Induction over the positions of a pass. *)
Lemma service_loop_ind (I : nat -> block_pass -> Prop) end_address first n : forall pos s,
  (forall pos' s', (pos <= pos' < pos + n)%nat -> I pos' s' ->
     let o := ordered_fault_cache (pass_batch s') in
     in_block blk end_address (cache_at (pass_batch s') (o !!! pos')) = true ->
     I (S pos') (service_entry P q blk h pos' (o !!! pos')
       (if (first <? pos')%nat then Some (o !!! (pos' - 1)%nat) else None) s')) ->
  I pos s ->
  let r := service_loop P q blk h end_address first n pos s in I r.1 r.2.
Proof.
  induction n as [|n IH]; intros pos s Hstep Hs; simpl; [done|].
  case_match eqn:Hb; [|done]. apply IH; [|apply Hstep; [lia|done|exact Hb]].
  intros pos' s' Hp. apply Hstep. lia.
Qed.

(** ** Queued pages *)

Record queued_ok (first pos : nat) (s : block_pass) : Prop := {
  qo_perm : forall page, page ∈ pages_serviced_in_batch s ->
    exists a p m, block_access_type (pass_ctx s) !! page = Some a /\ (first <= p < pos)%nat /\
      q_permission q p page a m = NV_OK /\
      q_authorized q p page (uvm_fault_access_type_to_prot a) = false;
  qo_resident : forall page, page ∈ pages_serviced_in_batch s <->
    exists proc, proc ∈ resident_processors (pass_ctx s) /\
      page ∈ default ∅ (new_residency (pass_ctx s) !! proc);
  qo_region : forall page, page ∈ pages_serviced_in_batch s ->
    first_page_index s <= page <= last_page_index s;
  qo_count : 0 <= page_fault_count s <= Z.of_nat (pos - first);
  qo_some : 0 < page_fault_count s <-> pages_serviced_in_batch s <> ∅;
}.

Lemma queued_ok_drop first pos s s' :
  pages_serviced_in_batch s' = pages_serviced_in_batch s ->
  block_access_type (pass_ctx s') = block_access_type (pass_ctx s) ->
  resident_processors (pass_ctx s') = resident_processors (pass_ctx s) ->
  new_residency (pass_ctx s') = new_residency (pass_ctx s) ->
  first_page_index s' = first_page_index s -> last_page_index s' = last_page_index s ->
  page_fault_count s' = page_fault_count s -> queued_ok first pos s -> queued_ok first pos s'.
Proof.
  intros E1 E2 E3 E4 E5 E6 E7 [H1 H2 H3 H4 H5].
  split; rewrite ?E1, ?E2, ?E3, ?E4, ?E5, ?E6, ?E7; auto.
Qed.

Lemma queued_ok_later first pos s : (first <= pos)%nat -> queued_ok first pos s -> queued_ok first (S pos) s.
Proof.
  intros Hp [H1 H2 H3 H4 H5]. split; auto; [|lia].
  intros page Hpage. destruct (H1 page Hpage) as (a & p & m & ? & ? & ?).
  exists a, p, m. split; [done|]. split; [lia|done].
Qed.

Lemma queued_ok_ext first pos s s' :
  pages_serviced_in_batch s' = pages_serviced_in_batch s ->
  block_access_type (pass_ctx s') = block_access_type (pass_ctx s) ->
  resident_processors (pass_ctx s') = resident_processors (pass_ctx s) ->
  new_residency (pass_ctx s') = new_residency (pass_ctx s) ->
  first_page_index s' = first_page_index s -> last_page_index s' = last_page_index s ->
  page_fault_count s' = page_fault_count s -> (first <= pos)%nat ->
  queued_ok first pos s -> queued_ok first (S pos) s'.
Proof.
  intros E1 E2 E3 E4 E5 E6 E7 Hp Hs. apply queued_ok_later; [done|].
  by apply (queued_ok_drop first pos s).
Qed.

(** The fields [queue_page] sets. *)
Lemma queue_page_fields pos i page a mask s :
  let s' := queue_page P q h pos i page a mask s in
  pages_serviced_in_batch s' = {[ page ]} ∪ pages_serviced_in_batch s /\
  block_access_type (pass_ctx s') = <[page := a]> (block_access_type (pass_ctx s)) /\
  (exists proc, resident_processors (pass_ctx s') = {[ proc ]} ∪ resident_processors (pass_ctx s) /\
     new_residency (pass_ctx s') = <[proc := {[ page ]} ∪
       (if bool_decide (proc ∈ resident_processors (pass_ctx s))
        then default ∅ (new_residency (pass_ctx s) !! proc) else ∅)]> (new_residency (pass_ctx s))) /\
  first_page_index s' = Z.min page (first_page_index s) /\
  last_page_index s' = Z.max page (last_page_index s) /\
  page_fault_count s' = u32 (page_fault_count s + 1).
Proof.
  unfold queue_page. destruct (q_residency _ _ _ _ _) as [proc dup]. simpl.
  assert (forall f, (if page <? f then page else f) = Z.min page f) as Hmin
    by (intros; case Z.ltb_spec; lia).
  assert (forall l, (if l <? page then page else l) = Z.max page l) as Hmax
    by (intros; case Z.ltb_spec; lia).
  destruct (stale_detail_enabled P), dup; simpl; rewrite ?Hmin, ?Hmax;
    (split_and!; [done|done|by exists proc|done..]).
Qed.

Lemma queue_page_ok first pos i page a mask m s :
  queued_ok first pos s -> (first <= pos)%nat -> Z.of_nat (pos - first) + 1 < 2 ^ 32 ->
  q_permission q pos page a m = NV_OK ->
  q_authorized q pos page (uvm_fault_access_type_to_prot a) = false ->
  queued_ok first (S pos) (queue_page P q h pos i page a mask s).
Proof.
  intros [H1 H2 H3 H4 H5] Hp Hroom Hperm Hauth.
  destruct (queue_page_fields pos i page a mask s) as (E1 & E2 & (proc & E3 & E4) & E5 & E6 & E7).
  rewrite u32_small in E7 by lia.
  split; rewrite ?E1, ?E2, ?E3, ?E4, ?E5, ?E6, ?E7.
  - intros p [->%elem_of_singleton|Hin]%elem_of_union.
    + exists a, pos, m. rewrite lookup_insert_eq. split_and!; try done; lia.
    + destruct (decide (p = page)) as [->|Hne].
      * exists a, pos, m. rewrite lookup_insert_eq. split_and!; try done; lia.
      * destruct (H1 p Hin) as (a' & p' & m' & ? & ? & ?). exists a', p', m'.
        rewrite lookup_insert_ne by done. split; [done|]. split; [lia|done].
  - intros p. rewrite elem_of_union, elem_of_singleton, H2. split.
    + intros [->|(pr & Hpr & Hin)].
      * exists proc. rewrite lookup_insert_eq. set_solver.
      * exists pr. split; [set_solver|]. destruct (decide (pr = proc)) as [->|].
        -- rewrite lookup_insert_eq, bool_decide_true by done. set_solver.
        -- by rewrite lookup_insert_ne.
    + intros (pr & Hpr & Hin). destruct (decide (pr = proc)) as [->|Hne].
      * rewrite lookup_insert_eq in Hin. simpl in Hin. case_bool_decide; set_solver.
      * rewrite lookup_insert_ne in Hin by done. right. exists pr. set_solver.
  - intros p [->%elem_of_singleton|Hin]%elem_of_union; [lia|]. specialize (H3 p Hin). lia.
  - lia.
  - split; [set_solver|lia].
Qed.

Lemma check_permissions_permitted n pos i m b a b' :
  check_fault_access_permissions q blk n pos i m b = (a, b') -> a <> UVM_FAULT_ACCESS_TYPE_COUNT ->
  q_permission q pos (uvm_va_block_cpu_page_index blk (fault_address (cache_at b i))) a m = NV_OK.
Proof.
  unfold check_fault_access_permissions. intros Hc Ha.
  destruct (is_ok (q_permission q pos _ (fault_access_type (cache_at b i)) m)) eqn:Hok.
  { injection Hc as <- _. by apply is_ok_true. }
  case_bool_decide; [congruence|].
  destruct (access_num UVM_FAULT_ACCESS_TYPE_READ <? _); [|congruence].
  destruct (uvm_fault_access_type_mask_test _ _); [|congruence].
  destruct (is_ok (q_permission q pos _ UVM_FAULT_ACCESS_TYPE_READ m)) eqn:Hr; [|congruence].
  injection Hc as <- _. by apply is_ok_true.
Qed.

Lemma service_page_ok first pos i s :
  queued_ok first pos s -> (first <= pos)%nat -> Z.of_nat (pos - first) + 1 < 2 ^ 32 ->
  queued_ok first (S pos) (service_page P q blk h pos i s).
Proof.
  intros Hs Hp Hroom. unfold service_page.
  destruct (check_fault_access_permissions _ _ _ _ _ _ _) as [a b] eqn:Hc.
  case_bool_decide as Ha; [by apply (queued_ok_ext first pos s)|].
  apply check_permissions_permitted in Hc; [|done].
  destruct (q_authorized _ _ _ _) eqn:Hauth; [by apply (queued_ok_ext first pos s)|].
  destruct (q_hint _ _ _).
  - eapply queue_page_ok; eauto. by apply (queued_ok_drop first pos s).
  - eapply queue_page_ok; eauto. by apply (queued_ok_drop first pos s).
  - case_match; by apply (queued_ok_ext first pos s).
Qed.

Lemma service_entry_ok first pos i prev s :
  queued_ok first pos s -> (first <= pos)%nat -> Z.of_nat (pos - first) + 1 < 2 ^ 32 ->
  queued_ok first (S pos) (service_entry P q blk h pos i prev s).
Proof.
  intros Hs Hp Hroom. unfold service_entry. destruct (entry_prologue P i prev s) as [d s1] eqn:E.
  apply entry_prologue_spec in E as [_ _ _ E1 E2 E3 E4 E5].
  assert (queued_ok first pos s1) as H1 by (apply (queued_ok_drop first pos s); congruence).
  destruct prev as [p|]; [|by apply service_page_ok].
  destruct d; [|by apply service_page_ok].
  case_match; [by apply (queued_ok_ext first pos s1)|]. apply service_page_ok; [|done..].
  by apply (queued_ok_drop first pos s1).
Qed.

(** ** Fatal faults *)

(** The fault is not a prefetch and its own access is not permitted. *)
Definition denied (pos : nat) (m : bool) (e : uvm_fault_buffer_entry_t) : bool :=
  negb (bool_decide (fault_access_type e = UVM_FAULT_ACCESS_TYPE_PREFETCH)) &&
  negb (is_ok (q_permission q pos (uvm_va_block_cpu_page_index blk (fault_address e))
                 (fault_access_type e) m)).

Lemma mark_fatal_is_fatal b i k r mode :
  (i < length (fault_cache b))%nat ->
  is_fatal (cache_at (mark_fault_fatal i r mode b) k) = is_fatal (cache_at b k) || bool_decide (k = i).
Proof.
  intros Hi. set (f := fun e : uvm_fault_buffer_entry_t =>
    e <| is_fatal := true |> <| fatal_reason := r |> <| cancel_va_mode := mode |>).
  assert (cache_at (mark_fault_fatal i r mode b) k = cache_at (upd_entry i f b) k) as ->
    by (unfold mark_fault_fatal; case_match; done).
  case_bool_decide as Hk.
  - subst k. rewrite cache_at_upd_eq by done. by rewrite orb_true_r.
  - rewrite cache_at_upd_ne by done. by rewrite orb_false_r.
Qed.

Lemma check_permissions_fatal n pos i m b a b' k :
  (i < length (fault_cache b))%nat ->
  check_fault_access_permissions q blk n pos i m b = (a, b') ->
  is_fatal (cache_at b' k) = is_fatal (cache_at b k) || (bool_decide (k = i) && denied pos m (cache_at b i)).
Proof.
  intros Hi Hc. unfold check_fault_access_permissions in Hc. unfold denied.
  destruct (is_ok _); [injection Hc as _ <-; by rewrite !andb_false_r, orb_false_r|].
  case_bool_decide as Hpre.
  - injection Hc as _ <-. rewrite andb_false_r, orb_false_r. case_match; [|done].
    by apply (is_fatal_upd b i k (fun e => e <| is_invalid_prefetch := true |>)).
  - rewrite andb_true_r. repeat case_match; simplify_eq; by apply mark_fatal_is_fatal.
Qed.

Lemma account_stale_at m e page ser b k :
  cache_at (account_stale_fault P m e page ser b) k = cache_at b k.
Proof. unfold cache_at. by rewrite account_stale_cache. Qed.

Lemma service_page_fatal pos i s k :
  (i < length (fault_cache (pass_batch s)))%nat ->
  is_fatal (cache_at (pass_batch (service_page P q blk h pos i s)) k) =
  is_fatal (cache_at (pass_batch s) k) ||
  (bool_decide (k = i) && denied pos (iter_migratable (pass_iter s)) (cache_at (pass_batch s) i)).
Proof.
  intros Hi. unfold service_page. destruct (check_fault_access_permissions _ _ _ _ _ _ _) as [a b] eqn:Hc.
  apply (check_permissions_fatal _ _ _ _ _ _ _ k Hi) in Hc. rewrite <- Hc.
  repeat case_match; rewrite ?queue_page_batch; simpl; rewrite ?account_stale_at; try done.
  by apply (is_fatal_upd b i k (fun e => e <| is_throttled := true |>)).
Qed.

Lemma duplicate_flags_fatal i p b k :
  is_fatal (cache_at (fault_entry_duplicate_flags i p b) k) = is_fatal (cache_at b k).
Proof.
  unfold fault_entry_duplicate_flags.
  set (b1 := if is_invalid_prefetch _ then _ else _).
  assert (is_fatal (cache_at b1 k) = is_fatal (cache_at b k)) as H1.
  { unfold b1. case_match; [|done].
    by apply (is_fatal_upd b i k (fun e => e <| is_invalid_prefetch := true |>)). }
  clearbody b1. rewrite <- H1. case_match; [|done].
  by apply (is_fatal_upd b1 i k (fun e => e <| is_throttled := true |>)).
Qed.

Lemma service_page_iter pos i s : pass_iter (service_page P q blk h pos i s) = pass_iter s.
Proof.
  unfold service_page, queue_page. destruct (check_fault_access_permissions _ _ _ _ _ _ _) as [a b].
  repeat case_match; done.
Qed.

Lemma service_entry_iter pos i prev s :
  pass_iter (service_entry P q blk h pos i prev s) = advance_iter (fault_address (cache_at (pass_batch s) i)) (pass_iter s).
Proof.
  unfold service_entry. destruct (entry_prologue P i prev s) as [d s1] eqn:E. apply entry_prologue_iter in E.
  repeat case_match; rewrite ?service_page_iter; done.
Qed.

(** What the body of the loop does to the fatal flags: nothing when the fault
    duplicates one that is not fatal, else the current fault becomes fatal
    exactly when it is denied. *)
Lemma service_entry_fatal pos i prev s k :
  (i < length (fault_cache (pass_batch s)))%nat ->
  let b := pass_batch s in
  let b' := pass_batch (service_entry P q blk h pos i prev s) in
  let waived := match prev with
                | Some p => check_fault_entry_duplicate (cache_at b i) (Some (cache_at b p)) &&
                            negb (is_fatal (cache_at b p))
                | None => false
                end in
  let m := iter_migratable (advance_iter (fault_address (cache_at b i)) (pass_iter s)) in
  is_fatal (cache_at b' k) =
    is_fatal (cache_at b k) || (bool_decide (k = i) && negb waived && denied pos m (cache_at b i)).
Proof.
  intros Hi b b' waived m. unfold b', service_entry.
  destruct (entry_prologue P i prev s) as [d s1] eqn:E.
  pose proof (entry_prologue_iter _ _ _ _ _ _ E) as Hiter. fold b in Hiter.
  apply entry_prologue_spec in E as [Hs Hf Hd _ _ _ _ _]. fold b in Hs, Hf, Hd.
  assert (forall s2, same_faults (pass_batch s1) (pass_batch s2) -> pass_iter s2 = pass_iter s1 ->
    (forall x, is_fatal (cache_at (pass_batch s2) x) = is_fatal (cache_at (pass_batch s1) x)) ->
    is_fatal (cache_at (pass_batch (service_page P q blk h pos i s2)) k) =
      is_fatal (cache_at b k) || (bool_decide (k = i) && denied pos m (cache_at b i))) as Hpage.
  { intros s2 Hs2 Hi2 Hf2. assert (same_faults b (pass_batch s2)) as Hs' by (by etrans).
    rewrite service_page_fatal by (by rewrite (same_faults_length _ _ Hs')). rewrite Hf2, Hf, Hi2, Hiter.
    unfold denied. destruct (same_faults_fields _ _ i Hs') as (_ & -> & -> & _). done. }
  destruct prev as [p|]; simpl in *; [|rewrite (Hpage s1) by done; by rewrite andb_true_r].
  destruct d; [|rewrite (Hpage s1) by done; unfold waived; by rewrite <- Hd, andb_true_r].
  rewrite duplicate_flags_fatal, Hf. unfold waived. rewrite <- Hd. simpl.
  destruct (is_fatal (cache_at b p)) eqn:Hp; simpl.
  - rewrite (Hpage (s1 <| pass_batch ::= fault_entry_duplicate_flags i p |>)); [by rewrite andb_true_r| |done|].
    + apply duplicate_flags_same.
    + intros x. apply duplicate_flags_fatal.
  - rewrite duplicate_flags_fatal, Hf. by rewrite andb_false_r, orb_false_r.
Qed.

End PassInvariant.

(** ** Claims about a pass *)

Section PassClaims.
  Variable P : module_params.
  Variable q : block_queries.
  Variable blk : uvm_va_block_t.
  Variable h : bool.
  Variables (first : nat) (b : uvm_fault_service_batch_context_t)
    (c : uvm_service_block_context_t) (lag : lag_map).

  Abbreviation result := (block_pass_run P q blk h first b c lag).
  Abbreviation view_at p := (ordered_fault_cache b !!! p : nat).
  Abbreviation end_of_block :=
    (block_policy_end q blk (fault_address (cache_at b (ordered_fault_cache b !!! first)))).

(** The migratability of an address: that of the first range that ends at or
    after it. *)
Definition migratable_at (addr : Z) : bool := default false (snd <$> find (fun r => addr <=? fst r) (q_migratability q)).

(** The fault at a position of the view is not a prefetch and its access is not
    permitted at its own address. *)
Definition denied_at (p : nat) : bool :=
  denied q blk p (migratable_at (fault_address (cache_at b (view_at p)))) (cache_at b (view_at p)).

(** The fault repeats the page of the fault before it, which is not fatal in [b']. *)
Definition repeats_serviced (b' : uvm_fault_service_batch_context_t) (p : nat) : bool :=
  (first <? p)%nat &&
  check_fault_entry_duplicate (cache_at b (view_at p)) (Some (cache_at b (view_at (p - 1)%nat))) &&
  negb (is_fatal (cache_at b' (view_at (p - 1)%nat))).

(** The fatal flags after the positions from [first] to [pos]. *)
Record fatal_exact (pos : nat) (b' : uvm_fault_service_batch_context_t) : Prop := {
  fe_handled : forall p, (first <= p < pos)%nat ->
    is_fatal (cache_at b' (view_at p)) =
    is_fatal (cache_at b (view_at p)) || (denied_at p && negb (repeats_serviced b' p));
  fe_other : forall k, (forall p, (first <= p < pos)%nat -> view_at p <> k) ->
    is_fatal (cache_at b' k) = is_fatal (cache_at b k);
}.

(** *** The iterator *)

(** The ranges from the first one that ends at or after the address. *)
Fixpoint ranges_from (addr : Z) (l : list (Z * bool)) : list (Z * bool) :=
  match l with
  | [] => []
  | (e, m) :: rest => if e <? addr then ranges_from addr rest else l
  end.

Lemma ranges_from_again a a' l : a <= a' -> ranges_from a' (ranges_from a l) = ranges_from a' l.
Proof.
  intros Ha. induction l as [|[e m] l IH]; [done|]. simpl. case (Z.ltb_spec e a); [|done].
  intros He. rewrite IH. case (Z.ltb_spec e a'); [done|lia].
Qed.

Lemma ranges_from_reach a a' l : a <= a' -> Exists (fun r => a' <= fst r) l -> Exists (fun r => a' <= fst r) (ranges_from a l).
Proof.
  intros Ha. induction l as [|[e m] l IH]; simpl; [done|]. intros He. case (Z.ltb_spec e a); [|done]. intros Hlt.
  apply Exists_cons in He as [?|He]; [simpl in *; lia|by apply IH].
Qed.

Lemma advance_iter_ranges a l : Exists (fun r => a <= fst r) l -> advance_iter a l = ranges_from a l.
Proof.
  induction l as [|[e m] l IH]; [by intros ?%Exists_nil|]. intros He. simpl. destruct l as [|r l].
  - apply Exists_cons in He as [He|?%Exists_nil]; [|done]. simpl in *. case (Z.ltb_spec e a); [lia|done].
  - case (Z.ltb_spec e a); [|done]. intros Hlt. apply IH. apply Exists_cons in He as [?|He]; [simpl in *; lia|done].
Qed.

Lemma ranges_from_migratable a : iter_migratable (ranges_from a (q_migratability q)) = migratable_at a.
Proof.
  unfold migratable_at. induction (q_migratability q) as [|[e m] l IH]; [done|]. simpl.
  case (Z.ltb_spec e a); case (Z.leb_spec a e); try lia; [|done]. intros _ _. apply IH.
Qed.

Abbreviation addr_at p := (fault_address (cache_at b (view_at p))).

(** The iterator before position [pos]: where the position before left it. *)
Definition iter_before (pos : nat) : list (Z * bool) :=
  if (first <? pos)%nat then ranges_from (addr_at (pos - 1)%nat) (q_migratability q) else q_migratability q.

Lemma iter_before_step pos : ((first < pos)%nat -> addr_at (pos - 1)%nat <= addr_at pos) ->
  Exists (fun r => addr_at pos <= fst r) (q_migratability q) -> (first <= pos)%nat ->
  advance_iter (addr_at pos) (iter_before pos) = iter_before (S pos) /\
  iter_migratable (advance_iter (addr_at pos) (iter_before pos)) = migratable_at (addr_at pos).
Proof.
  intros Hmono Hex Hp. assert (advance_iter (addr_at pos) (iter_before pos) = ranges_from (addr_at pos) (q_migratability q)) as ->.
  { unfold iter_before. case (Nat.ltb_spec first pos); intros Hlt; [|by apply advance_iter_ranges].
    specialize (Hmono Hlt). rewrite advance_iter_ranges; [by apply ranges_from_again|].
    by apply ranges_from_reach. }
  split; [|apply ranges_from_migratable]. unfold iter_before. case (Nat.ltb_spec first (S pos)); [|lia].
  intros _. by replace (S pos - 1)%nat with pos by lia.
Qed.

Record fatal_inv (pos : nat) (s : block_pass) : Prop := {
  fi_same : same_faults b (pass_batch s);
  fi_iter : pass_iter s = iter_before pos;
  fi_exact : fatal_exact pos (pass_batch s);
}.

Lemma fatal_inv_step pos s :
  (first <= pos)%nat -> (view_at pos < length (fault_cache b))%nat ->
  (forall p, (p < pos)%nat -> view_at p <> view_at pos) ->
  ((first < pos)%nat -> addr_at (pos - 1)%nat <= addr_at pos) ->
  Exists (fun r => addr_at pos <= fst r) (q_migratability q) -> fatal_inv pos s ->
  fatal_inv (S pos) (service_entry P q blk h pos (view_at pos)
    (if (first <? pos)%nat then Some (view_at (pos - 1)%nat) else None) s).
Proof.
  intros Hp Hi Hinj Hmono Hex [Hs Hit [Hin Hout]]. set (i := view_at pos) in *.
  set (prev := if (first <? pos)%nat then _ else _). destruct (iter_before_step pos Hmono Hex Hp) as [Hn Hm].
  destruct (same_faults_fields _ _ i Hs) as (_ & Ha & _).
  assert (forall k, is_fatal (cache_at (pass_batch (service_entry P q blk h pos i prev s)) k) =
    is_fatal (cache_at (pass_batch s) k) || (bool_decide (k = i) && negb (repeats_serviced (pass_batch s) pos) && denied_at pos)) as Hstep.
  { intros k. rewrite service_entry_fatal by (by rewrite (same_faults_length _ _ Hs)). rewrite Ha, Hit. fold i in Hm. rewrite Hm.
    assert (denied q blk pos (migratable_at (fault_address (cache_at b i))) (cache_at (pass_batch s) i) = denied_at pos) as ->.
    { unfold denied_at, denied. fold i. by destruct (same_faults_fields _ _ i Hs) as (_ & -> & -> & _). }
    unfold prev, repeats_serviced. case Nat.ltb_spec; [|done]. intros _. rewrite !andb_true_l. fold i.
    by rewrite (duplicate_same b (pass_batch s)). }
  split; [etrans; [exact Hs|apply service_entry_same]|by rewrite service_entry_iter, Ha, Hit|]. split.
  - intros p Hp'. assert (repeats_serviced (pass_batch (service_entry P q blk h pos i prev s)) p = repeats_serviced (pass_batch s) p) as ->.
    { unfold repeats_serviced. rewrite Hstep. destruct (Nat.ltb_spec first p); [|done].
      rewrite (bool_decide_false (view_at (p - 1)%nat = i)) by (apply Hinj; lia). simpl. by rewrite orb_false_r. }
    rewrite Hstep. destruct (decide (p = pos)) as [->|Hne].
    + fold i. rewrite bool_decide_true by done. rewrite (Hout i) by (intros p' ?; apply Hinj; lia).
      simpl. by rewrite (andb_comm (negb _)).
    + rewrite bool_decide_false by (apply Hinj; lia). simpl. rewrite orb_false_r. apply Hin. lia.
  - intros k Hk. rewrite Hstep. rewrite bool_decide_false by (intros ->; by apply (Hk pos); [lia|]). simpl. rewrite orb_false_r.
    apply Hout. intros p Hp'. apply Hk. lia.
Qed.

Lemma view_inj p p' : NoDup (ordered_view b) ->
  (Z.to_nat (num_coalesced_faults b) <= length (ordered_fault_cache b))%nat ->
  (p < p' < Z.to_nat (num_coalesced_faults b))%nat -> view_at p <> view_at p'.
Proof.
  intros Hnd Hlen Hp Heq.
  assert (forall x, (x < Z.to_nat (num_coalesced_faults b))%nat -> ordered_view b !! x = Some (view_at x)) as Hl.
  { intros x Hx. rewrite lookup_take_lt by lia. apply list_lookup_lookup_total_lt. lia. }
  assert (p = p') as ->; [|lia]. eapply (NoDup_lookup _ _ _ (view_at p) Hnd); [|rewrite Heq]; apply Hl; lia.
Qed.

Lemma view_range p : (forall i, i ∈ ordered_view b -> (i < length (fault_cache b))%nat) ->
  (Z.to_nat (num_coalesced_faults b) <= length (ordered_fault_cache b))%nat ->
  (p < Z.to_nat (num_coalesced_faults b))%nat -> (view_at p < length (fault_cache b))%nat.
Proof.
  intros Hr Hlen Hp. apply Hr. apply list_elem_of_lookup. exists p. rewrite lookup_take_lt by lia.
  apply list_lookup_lookup_total_lt. lia.
Qed.

(** A pass handles exactly the faults of the ordered view, from the given
    one on, that are in the block's VA space and up to the end of its policy;
    when the first one is, it makes progress. *)
Theorem service_pass_extent :
  let n := (Z.to_nat (num_coalesced_faults b) - first)%nat in
  result.1 = (first + run_length blk end_of_block b n first)%nat /\
  (in_block blk end_of_block (cache_at b (view_at first)) = true ->
   (first < Z.to_nat (num_coalesced_faults b))%nat -> (first < result.1)%nat) /\
  same_faults b (pass_batch result.2).
Proof.
  intros n. unfold block_pass_run. split; [apply service_loop_pos|]. split.
  - intros Hin Hlt. rewrite service_loop_pos. simpl.
    destruct (Z.to_nat (num_coalesced_faults b) - first)%nat eqn:E; [lia|]. simpl. rewrite Hin. lia.
  - etrans; [|apply service_loop_same]. done.
Qed.

(** C3: A pass only queues pages the GPU does not yet have access to, with an
    access type the VA range permits; the queued pages are the ones given a new
    residency, and all of them lie in the region handed to the block. *)
Theorem service_pass_permitted :
  num_coalesced_faults b < 2 ^ 32 -> queued_ok q first result.1 result.2.
Proof.
  intros Hn. unfold block_pass_run.
  apply (service_loop_ind P q blk h (queued_ok q first) _ first).
  - intros pos' s' Hpos Hs o _. apply service_entry_ok; [done|lia|]. lia.
  - split; simpl; try done; try lia; set_solver.
Qed.

(** C6: A pass sets the fatal flag of exactly the faults it must cancel.  The
    faults it handles are in the order of their addresses and the migratability
    ranges reach the end of the block.  A fault it handles is fatal afterwards when
    it was before, or when it is not a prefetch, its access is denied at its own
    address, and it does not repeat the page of a fault before it that is not
    fatal; the flag of every other fault is unchanged. *)
Theorem service_pass_fatal :
  NoDup (ordered_view b) ->
  (Z.to_nat (num_coalesced_faults b) <= length (ordered_fault_cache b))%nat ->
  (forall i, i ∈ ordered_view b -> (i < length (fault_cache b))%nat) ->
  (forall p, (first < p < Z.to_nat (num_coalesced_faults b))%nat ->
     va_space (cache_at b (view_at p)) = Some (block_va_space blk) -> addr_at (p - 1)%nat <= addr_at p) ->
  Exists (fun r => end_of_block <= fst r) (q_migratability q) ->
  fatal_exact result.1 (pass_batch result.2).
Proof.
  intros Hnd Hlen Hr Hsorted Hex. unfold block_pass_run.
  apply fi_exact, (service_loop_ind P q blk h fatal_inv _ first).
  - intros pos' s' Hpos Hs o Hb. subst o. pose proof (fi_same _ _ Hs) as Hsame.
    rewrite (sf_ordered _ _ Hsame) in *. rewrite (in_block_same _ _ _ _ _ Hsame) in Hb.
    unfold in_block in Hb. apply andb_true_iff in Hb as [Hv%bool_decide_eq_true Ha%Z.leb_le].
    apply fatal_inv_step; [lia|apply view_range; [done|done|lia]| | | |done].
    + intros p Hp. apply view_inj; [done|done|lia].
    + intros Hlt. apply Hsorted; [lia|done].
    + eapply Exists_impl; [exact Hex|]. simpl. lia.
  - split; [done|unfold iter_before; by rewrite Nat.ltb_irrefl|]. split; [lia|done].
Qed.

End PassClaims.

(** *** A concrete pass

    Page 0 is read, page 1 is read and written although it is read-only, and the
    last fault is in another VA space. *)

Definition pass_queries : block_queries :=
  mk_queries (fun _ page a _ => if (page =? 1) && bool_decide (a = UVM_FAULT_ACCESS_TYPE_WRITE)
                                then NV_ERR_INVALID_ACCESS_TYPE else NV_OK)
    (fun _ _ _ => false) (fun _ _ => UVM_PERF_THRASHING_HINT_TYPE_NONE) (fun _ _ _ _ => (3, false))
    (fun a => a) [(2 ^ 21 - 1, true)].

Definition pass_block : uvm_va_block_t := mk_va_block 0 (2 ^ 21 - 1) 1 false.

Definition pass_example_batch : uvm_fault_service_batch_context_t :=
  (example_batch
    [(example_entry 1 0 UVM_FAULT_ACCESS_TYPE_READ) <| access_type_mask := 2 |>;
     (example_entry 1 4096 UVM_FAULT_ACCESS_TYPE_WRITE) <| access_type_mask := 6 |>;
     (example_entry 2 0 UVM_FAULT_ACCESS_TYPE_READ) <| access_type_mask := 2 |>])
  <| utlbs := [zero_utlb] |>.

Definition empty_block_context : uvm_service_block_context_t :=
  mk_block_context 0 ∅ ∅ 0 ∅ 0 ∅ ∅ 0 0.

Definition pass_example : nat * block_pass :=
  block_pass_run default_params pass_queries pass_block true 0 pass_example_batch
    empty_block_context [].

Definition pass_example_after : nat * block_pass := Eval vm_compute in pass_example.

Lemma pass_example_eq :
  block_pass_run default_params pass_queries pass_block true 0 pass_example_batch
    empty_block_context [] = pass_example_after.
Proof. vm_compute. reflexivity. Qed.

Lemma service_pass_permitted_witness :
  exists a p m, block_access_type (pass_ctx pass_example_after.2) !! 1 = Some a /\ (0 <= p < 2)%nat /\
    q_permission pass_queries p 1 a m = NV_OK.
Proof.
  pose proof (service_pass_permitted default_params pass_queries pass_block true 0
    pass_example_batch empty_block_context [] eq_refl) as H.
  rewrite pass_example_eq in H. destruct (qo_perm _ _ _ _ H 1) as (a & p & m & Ha & Hp & Hperm & _).
  - apply (bool_decide_unpack _). vm_compute. exact I.
  - exists a, p, m. split; [exact Ha|]. split; [exact Hp|exact Hperm].
Defined.

Lemma service_pass_fatal_witness :
  is_fatal (cache_at (pass_batch pass_example_after.2) 1) =
    denied_at pass_queries pass_block pass_example_batch 1 /\
  denied_at pass_queries pass_block pass_example_batch 1 = true /\
  is_fatal (cache_at (pass_batch pass_example_after.2) 2) = false.
Proof.
  pose proof (service_pass_fatal default_params pass_queries pass_block true 0
    pass_example_batch empty_block_context []) as H.
  rewrite pass_example_eq in H. destruct H as [Hin Hout].
  - apply (bool_decide_unpack _). vm_compute. exact I.
  - simpl. lia.
  - intros i Hi. apply (elem_of_seq 0 3 i) in Hi. simpl. lia.
  - intros [|[|[|p]]] Hp Hv; [lia|vm_compute; congruence|discriminate Hv|simpl in Hp; lia].
  - apply Exists_cons. left. vm_compute. congruence.
  - split; [apply (Hin 1%nat); vm_compute; lia|]. split; [reflexivity|].
    apply (Hout 2%nat). intros [|[|p]] Hp; [done|done|]. vm_compute in Hp. lia.
Defined.

