(* ===== verification/Dispatch.v ===== *)
(** * Dispatching the faults of a batch

    Servicing a VA block with allocation retries, ATS faults, the dispatch of a
    fault to the code that can service it and the serial service loop
    ([uvm_gpu_replayable_faults.c], lines 2880-3420 and 4198-4592). *)

From stdpp Require Import gmap.
From S2P Require Import Prelude FaultTypes Gpu SimDevice Sorting FaultBuffer Frames Predictor Fetch Coalesce Channels Preprocess Stale Service.

Local Open Scope Z_scope.

(** ** The state of the service path

    The GPU, the block service context of its replayable faults, the lag map and
    the fault masks of the ATS context. *)
Record svc (D : Type) : Type := mk_svc {
  sv_gpu : uvm_gpu D;
  sv_ctx : uvm_service_block_context_t;
  sv_lag : lag_map;
  read_fault_mask : gset Z;
  write_fault_mask : gset Z;
}.
Arguments mk_svc {D}.
Arguments sv_gpu {D}.
Arguments sv_ctx {D}.
Arguments sv_lag {D}.
Arguments read_fault_mask {D}.
Arguments write_fault_mask {D}.

#[export] Instance svc_eta D : Eta (svc D) := fun s =>
  mk_svc (sv_gpu s) (sv_ctx s) (sv_lag s) (read_fault_mask s) (write_fault_mask s).

Record va_range_t : Type := mk_va_range {
  range_start : Z;
  range_end : Z;
}.

(** ** VA spaces, VA blocks and ATS as the fault path uses them *)
Class VaSpaceOps (D : Type) : Type := {
  op_block_queries : uvm_gpu D -> uvm_va_block_t -> block_queries;
  (* uvm_va_block_service_locked and uvm_va_block_set_cancel *)
  op_block_service : uvm_gpu D -> uvm_va_block_t -> uvm_service_block_context_t -> NV_STATUS * D;
  op_block_set_cancel : uvm_gpu D -> uvm_va_block_t -> NV_STATUS * D;
  op_block_tracker_add : uvm_gpu D -> uvm_va_block_t -> NV_STATUS;
  (* uvm_va_space_iter_first, uvm_va_space_iter_next *)
  op_va_range_first : uvm_gpu D -> Z -> Z -> option va_range_t;
  op_va_range_next : uvm_gpu D -> Z -> va_range_t -> option va_range_t;
  op_block_find_create : uvm_gpu D -> Z -> va_range_t -> Z -> NV_STATUS * uvm_va_block_t * D;
  op_hmm_block_find_create : uvm_gpu D -> Z -> Z -> NV_STATUS * uvm_va_block_t * D;
  (* uvm_va_space_mm_retain_lock, uvm_gpu_va_space_get_by_parent_gpu *)
  op_va_space_mm : uvm_gpu D -> Z -> bool;
  op_gpu_va_space : uvm_gpu D -> Z -> bool;
  op_ats_can_service_faults : uvm_gpu D -> Z -> bool -> bool;
  op_ats_in_gmmu_region : uvm_gpu D -> Z -> Z -> option va_range_t -> bool;
  (* find_vma_intersection: the end of the vma *)
  op_find_vma : uvm_gpu D -> Z -> Z -> option Z;
  (* uvm_ats_service_faults: the pages serviced and the reads serviced *)
  op_ats_service_faults : uvm_gpu D -> Z -> Z -> gset Z -> gset Z -> NV_STATUS * (gset Z * gset Z) * D;
  op_ats_invalidate_tlbs : uvm_gpu D -> NV_STATUS;
}.

(** Every allocation retry makes progress: [op_retries] bounds how many more
    times servicing a block can ask to be called again. *)
Class VaSpaceOpsLive (D : Type) {V : VaSpaceOps D} : Type := {
  op_retries : D -> nat;
  op_retries_service : forall g blk c d,
    op_block_service g blk c = (NV_ERR_MORE_PROCESSING_REQUIRED, d) -> (op_retries d < op_retries (hw g))%nat;
  op_retries_service_le : forall g blk c st d,
    op_block_service g blk c = (st, d) -> (op_retries d <= op_retries (hw g))%nat;
  op_retries_cancel : forall g blk d,
    op_block_set_cancel g blk = (NV_ERR_MORE_PROCESSING_REQUIRED, d) -> (op_retries d < op_retries (hw g))%nat;
}.

(** The statuses after which the batch loop drops its locks and starts the fault
    over. *)
Definition is_restart (st : NV_STATUS) : bool :=
  bool_decide (st = NV_WARN_MORE_PROCESSING_REQUIRED) || bool_decide (st = NV_WARN_MISMATCHED_TARGET).

(** The block found for an address contains it, the ranges are visited in order,
    and only servicing a block asks
    to start over, [op_restarts] more times at most. *)
Class VaSpaceOpsLaws (D : Type) {V : VaSpaceOps D} : Type := {
  op_block_find_spec : forall g vs r a blk d, op_block_find_create g vs r a = (NV_OK, blk, d) ->
    block_va_space blk = vs /\ block_is_hmm blk = false /\ block_start blk <= a <= block_end blk;
  op_hmm_find_spec : forall g vs a blk d, op_hmm_block_find_create g vs a = (NV_OK, blk, d) ->
    block_va_space blk = vs /\ forall g', a <= block_policy_end (op_block_queries g' blk) blk a;
  op_va_range_first_spec : forall g vs a r, op_va_range_first g vs a = Some r -> a <= range_end r;
  op_va_range_next_spec : forall g vs r r', op_va_range_next g vs r = Some r' -> range_end r < range_start r';
  op_restarts : D -> nat;
  op_restarts_service : forall g blk c st d, op_block_service g blk c = (st, d) ->
    (op_restarts d <= op_restarts (hw g))%nat /\
    (is_restart st = true -> (op_restarts d < op_restarts (hw g))%nat);
  op_restarts_cancel : forall g blk st d, op_block_set_cancel g blk = (st, d) ->
    (op_restarts d <= op_restarts (hw g))%nat /\ is_restart st = false;
  op_restarts_tracker : forall g blk, is_restart (op_block_tracker_add g blk) = false;
  op_restarts_find : forall g vs r a st blk d, op_block_find_create g vs r a = (st, blk, d) ->
    (op_restarts d <= op_restarts (hw g))%nat;
  op_restarts_hmm_find : forall g vs a st blk d, op_hmm_block_find_create g vs a = (st, blk, d) ->
    (op_restarts d <= op_restarts (hw g))%nat;
  op_restarts_ats : forall g vs base rd wr st m d, op_ats_service_faults g vs base rd wr = (st, m, d) ->
    (op_restarts d <= op_restarts (hw g))%nat /\ is_restart st = false;
}.

Section Dispatch.
  Context {D : Type} `{Hal : FaultBufferHal D} `{!FaultBufferHalLive D} `{Ops : GpuOps D}
    `{Va : VaSpaceOps D} `{!VaSpaceOpsLive D}.
  Variable P : module_params.
  Variable caps : gpu_caps.

  Abbreviation N := (ST (svc D)).

Definition on_gpu {A} (m : ST (uvm_gpu D) A) : N A :=
  fun s => let '(a, g) := m (sv_gpu s) in (a, s <| sv_gpu := g |>).

Definition upd_svc_batch (f : uvm_fault_service_batch_context_t -> uvm_fault_service_batch_context_t)
  : N unit := on_gpu (upd_batch f).

Definition svc_batch (s : svc D) : uvm_fault_service_batch_context_t := batch (sv_gpu s).

(** An operation of the environment that returns a status and moves it on. *)
Definition env_op (f : uvm_gpu D -> NV_STATUS * D) : N NV_STATUS :=
  on_gpu (fun g => let '(st, d) := f g in (st, g <| hw := d |>)).

(** ** One VA block *)

(** The pass over the faults; returns the position at which it stops and the
    local variables it leaves. *)
Definition run_pass (blk : uvm_va_block_t) (first : nat) (hmm_migratable : bool) : N (nat * block_pass) :=
  fun s =>
    let g := sv_gpu s in
    let '(pos, p) := block_pass_run P (op_block_queries g blk) blk hmm_migratable first
                       (batch g) (sv_ctx s) (sv_lag s) in
    ((pos, p),
     s <| sv_gpu := g <| batch := pass_batch p |> <| trace ::= app (pass_trace p) |> |>
       <| sv_ctx := pass_ctx p |> <| sv_lag := pass_lag p |>).

(** Service the pages the pass has queued. *)
Definition service_queued (blk : uvm_va_block_t) (p : block_pass) : N NV_STATUS :=
  if 0 <? page_fault_count p then
    modify (fun s => s <| sv_ctx ::= fun c =>
      c <| region_first := first_page_index p |>
        <| region_outer := last_page_index p + 1 |> |>) ;;
    c ← gets sv_ctx;
    env_op (fun g => op_block_service g blk c)
  else mret NV_OK.

Definition service_fault_batch_block_locked (blk : uvm_va_block_t) (first : nat)
    (hmm_migratable : bool) : N (NV_STATUS * nat) :=
  r ← run_pass blk first hmm_migratable;
  status ← service_queued blk r.2;
  modify (fun s => s <| sv_ctx ::= fun c => c <| num_retries ::= fun n => u32 (n + 1) |> |>) ;;
  fatal ← gets (fun s => fatal_va_space (svc_batch s));
  status ← (if is_ok status && bool_decide (fatal <> None)
            then env_op (fun g => op_block_set_cancel g blk) else mret status);
  mret (status, (r.1 - first)%nat).

(** [UVM_VA_BLOCK_RETRY_LOCKED]; [fuel] bounds the retries. *)
Fixpoint retry_locked (fuel : nat) (call : N (NV_STATUS * nat)) : N (NV_STATUS * nat) :=
  r ← call;
  match fuel with
  | O => mret r
  | S fuel => if bool_decide (r.1 = NV_ERR_MORE_PROCESSING_REQUIRED) then retry_locked fuel call
              else mret r
  end.

Definition service_fault_batch_block (blk : uvm_va_block_t) (first : nat) (hmm_migratable : bool)
  : N (NV_STATUS * nat) :=
  modify (fun s => s <| sv_ctx ::= fun c => c <| num_retries := 0 |> |>) ;;
  fuel ← gets (fun s => op_retries (hw (sv_gpu s)));
  r ← retry_locked fuel (service_fault_batch_block_locked blk first hmm_migratable);
  tracker_status ← gets (fun s => op_block_tracker_add (sv_gpu s) blk);
  mret (if is_ok r.1 then tracker_status else r.1, r.2).

(** ** Faults that cannot be serviced *)

(** The pointer before position [pos] of the view. *)
Definition previous_at (b : uvm_fault_service_batch_context_t) (pos : nat) : option nat :=
  if (0 <? pos)%nat then Some (ordered_fault_cache b !!! (pos - 1)%nat) else None.

Definition fatal_batch (pos : nat) (status : NV_STATUS) (mode : uvm_fault_cancel_va_mode_t)
    (b : uvm_fault_service_batch_context_t) : uvm_fault_service_batch_context_t :=
  let i := ordered_fault_cache b !!! pos in
  let b := match previous_at b pos with
           | Some p => if check_fault_entry_duplicate (cache_at b i) (Some (cache_at b p))
                       then fault_entry_duplicate_flags i p b else b
           | None => b
           end in
  if bool_decide (fault_access_type (cache_at b i) = UVM_FAULT_ACCESS_TYPE_PREFETCH)
  then mark_fault_invalid_prefetch i b
  else mark_fault_fatal i (uvm_tools_status_to_fatal_fault_reason status) mode b.

(** Returns what is added to the count of handled faults. *)
Definition service_fault_batch_fatal (pos : nat) (status : NV_STATUS)
    (mode : uvm_fault_cancel_va_mode_t) : N nat :=
  upd_svc_batch (fatal_batch pos status mode) ;; mret 1%nat.

Definition notify_fault (i : nat) (is_duplicate : bool) : N unit :=
  on_gpu (fun g =>
    let '(ev, b) := update_batch_and_notify_fault i is_duplicate (batch g) in
    (tt, g <| trace ::= cons ev |> <| batch := b |>)).

Definition service_fault_batch_fatal_notify (pos : nat) (status : NV_STATUS)
    (mode : uvm_fault_cancel_va_mode_t) : N nat :=
  b ← gets svc_batch;
  let i := ordered_fault_cache b !!! pos in
  let is_duplicate := check_fault_entry_duplicate (cache_at b i) (cache_at b <$> previous_at b pos) in
  n ← service_fault_batch_fatal pos status mode;
  notify_fault i is_duplicate ;;
  mret n.

(** ** ATS faults *)

Definition UVM_VA_BLOCK_SIZE : Z := 2 ^ 21.
Definition UVM_VA_BLOCK_ALIGN_DOWN (a : Z) : Z := UVM_ALIGN_DOWN a UVM_VA_BLOCK_SIZE.
Definition UVM_GMMU_ATS_GRANULARITY : Z := 512 * 2 ^ 20.

Definition ats_page_index (addr base : Z) : Z := u64 (addr - base) / PAGE_SIZE.

(** Cancel the faults of positions [pos], [pos + 1], ... that ATS could not
    service; [n] are left. *)
Fixpoint ats_attribute (n pos : nat) (base : Z) (serviced reads : gset Z) : N nat :=
  match n with
  | O => mret O
  | S n =>
      b ← gets svc_batch;
      let e := cache_at b (ordered_fault_cache b !!! pos) in
      let page := ats_page_index (fault_address e) base in
      k ← (if bool_decide (page ∈ serviced) then mret 1%nat
           else
             let mode :=
               if access_num (fault_access_type e) <=? access_num UVM_FAULT_ACCESS_TYPE_READ
               then UVM_FAULT_CANCEL_VA_MODE_ALL
               else if uvm_fault_access_type_mask_test (access_type_mask e) UVM_FAULT_ACCESS_TYPE_READ &&
                       negb (bool_decide (page ∈ reads))
                    then UVM_FAULT_CANCEL_VA_MODE_ALL
                    else UVM_FAULT_CANCEL_VA_MODE_WRITE_AND_ATOMIC in
             service_fault_batch_fatal pos NV_ERR_INVALID_ADDRESS mode);
      r ← ats_attribute n (S pos) base serviced reads;
      mret (k + r)%nat
  end.

(** The call to the ATS code. *)
Definition call_ats (vs base : Z) (rd wr : gset Z) : N (NV_STATUS * (gset Z * gset Z)) :=
  on_gpu (fun g => let '(st, masks, d) := op_ats_service_faults g vs base rd wr in
                   ((st, masks), g <| hw := d |>)).

Definition service_fault_batch_ats_sub_vma (vs base : Z) (fault_index_start fault_index_end : nat)
  : N (NV_STATUS * nat) :=
  rd ← gets read_fault_mask;
  wr ← gets write_fault_mask;
  let accessed := wr ∪ rd in
  r ← call_ats vs base rd wr;
  let faults_serviced := r.2.1 ∩ accessed in
  if negb (is_ok r.1) || bool_decide (faults_serviced = accessed)
  then mret (r.1, (fault_index_end - fault_index_start)%nat)
  else
    k ← ats_attribute (fault_index_end - fault_index_start) fault_index_start base faults_serviced r.2.2;
    mret (r.1, k).

Definition start_new_sub_batch : N unit :=
  modify (fun s => s <| read_fault_mask := ∅ |> <| write_fault_mask := ∅ |>).

(** The local variables of the loop when it ends. *)
Record ats_loop_t : Type := mk_ats_loop {
  al_status : NV_STATUS;
  al_index : nat;
  al_sub_index : nat;
  al_base : Z;
  al_faults : nat;
}.

Definition ats_set_masks (e : uvm_fault_buffer_entry_t) (page : Z) : N unit :=
  modify (fun s =>
    let s := if (access_num (fault_access_type e) <=? access_num UVM_FAULT_ACCESS_TYPE_READ) ||
                uvm_fault_access_type_mask_test (access_type_mask e) UVM_FAULT_ACCESS_TYPE_READ
             then s <| read_fault_mask ::= union {[ page ]} |> else s in
    if access_num UVM_FAULT_ACCESS_TYPE_WRITE <=? access_num (fault_access_type e)
    then s <| write_fault_mask ::= union {[ page ]} |> else s).

(** The body of the do-while loop of [service_fault_batch_ats_sub]; returns the
    local variables and whether the loop goes on. *)
Definition ats_sub_body (vs outer : Z) (replay_per_va_block : bool) (i : nat)
    (previous : option nat) (sub_index : nat) (base : Z) (faults : nat) : N (ats_loop_t * bool) :=
  b ← gets svc_batch;
  let cur := ordered_fault_cache b !!! i in
  let e := cache_at b cur in
  let is_duplicate := check_fault_entry_duplicate e (cache_at b <$> previous) in
  notify_fault cur is_duplicate ;;
  let new_sub := base + UVM_VA_BLOCK_SIZE <=? fault_address e in
  r ← (if new_sub then service_fault_batch_ats_sub_vma vs base sub_index i else mret (NV_OK, O));
  let faults := (faults + r.2)%nat in
  if new_sub && (negb (is_ok r.1) || replay_per_va_block)
  then mret (mk_ats_loop r.1 (S i) sub_index base faults, false)
  else
    when new_sub start_new_sub_batch ;;
    let base := if new_sub then UVM_VA_BLOCK_ALIGN_DOWN (fault_address e) else base in
    let sub_index := if new_sub then i else sub_index in
    ats_set_masks e (ats_page_index (fault_address e) base) ;;
    b ← gets svc_batch;
    let next := cache_at b (ordered_fault_cache b !!! S i) in
    mret (mk_ats_loop NV_OK (S i) sub_index base faults,
          (Z.of_nat (S i) <? num_coalesced_faults b) && (fault_address next <? outer) &&
          bool_decide (va_space e = va_space next)).

(** [n] more entries may follow the current one. *)
Fixpoint ats_sub_loop (n : nat) (vs outer : Z) (replay_per_va_block : bool) (i : nat)
    (previous : option nat) (sub_index : nat) (base : Z) (faults : nat) : N ats_loop_t :=
  cur ← gets (fun s => ordered_fault_cache (svc_batch s) !!! i);
  r ← ats_sub_body vs outer replay_per_va_block i previous sub_index base faults;
  let '(l, more) := r in
  match n, more with
  | S n, true => ats_sub_loop n vs outer replay_per_va_block (al_index l) (Some cur)
                   (al_sub_index l) (al_base l) (al_faults l)
  | _, _ => mret l
  end.

Definition service_fault_batch_ats_sub (vs vm_end : Z) (fault_index : nat) (outer : Z)
  : N (NV_STATUS * nat) :=
  b ← gets svc_batch;
  policy ← gets (fun s => replay_policy (replayable (sv_gpu s)));
  let replay_per_va_block := bool_decide (policy = UVM_PERF_FAULT_REPLAY_POLICY_BLOCK) in
  let outer := Z.min outer vm_end in
  let addr := fault_address (cache_at b (ordered_fault_cache b !!! fault_index)) in
  start_new_sub_batch ;;
  l ← ats_sub_loop (Z.to_nat (num_coalesced_faults b)) vs outer replay_per_va_block fault_index
        None fault_index (UVM_VA_BLOCK_ALIGN_DOWN addr) 0;
  pending ← gets (fun s => bool_decide (read_fault_mask s <> ∅) || bool_decide (write_fault_mask s <> ∅));
  if is_ok (al_status l) && pending then
    r ← service_fault_batch_ats_sub_vma vs (al_base l) (al_sub_index l) (al_index l);
    mret (r.1, (al_faults l + r.2)%nat)
  else mret (al_status l, al_faults l).

(** The loop of [service_fault_batch_ats]; [faults] is the count so far. *)
Fixpoint ats_loop (fuel : nat) (vs outer : Z) (first i faults : nat) : N (NV_STATUS * nat) :=
  match fuel with
  | O => mret (NV_OK, faults)
  | S fuel =>
      b ← gets svc_batch;
      let o := ordered_fault_cache b in
      let e := cache_at b (o !!! i) in
      if negb (Z.of_nat i <? num_coalesced_faults b) ||
         ((first <? i)%nat && bool_decide (va_space (cache_at b (o !!! (i - 1)%nat)) <> va_space e)) ||
         (outer <=? fault_address e)
      then mret (NV_OK, faults)
      else
        vma ← gets (fun s => op_find_vma (sv_gpu s) vs (fault_address e));
        match vma with
        | None =>
            k ← service_fault_batch_fatal_notify i NV_ERR_INVALID_ADDRESS UVM_FAULT_CANCEL_VA_MODE_ALL;
            mret (NV_OK, (faults + k)%nat)
        | Some vm_end =>
            r ← service_fault_batch_ats_sub vs vm_end i outer;
            if is_ok r.1 then ats_loop fuel vs outer first (i + r.2)%nat (faults + r.2)%nat
            else mret (r.1, (faults + r.2)%nat)
        end
  end.

Definition service_fault_batch_ats (vs : Z) (first : nat) (outer : Z) : N (NV_STATUS * nat) :=
  b ← gets svc_batch; ats_loop (Z.to_nat (num_coalesced_faults b)) vs outer first first 0.

(** ** Dispatch *)

(** The VA range at the fault address, if any, and the next one. *)
Definition lookup_va_range (vs addr : Z) : N (option va_range_t * option va_range_t) :=
  gets (fun s =>
    let g := sv_gpu s in
    match op_va_range_first g vs addr with
    | Some r => if range_start r <=? addr then (Some r, op_va_range_next g vs r) else (None, Some r)
    | None => (None, None)
    end).

(** The limit of the ATS faults serviced together. *)
Definition ats_outer (addr : Z) (va_range_next : option va_range_t) : Z :=
  match va_range_next with
  | Some r => Z.min (range_start r)
                (UVM_ALIGN_DOWN (u64 (addr + UVM_GMMU_ATS_GRANULARITY)) UVM_GMMU_ATS_GRANULARITY)
  | None => 2 ^ 64 - 1
  end.

Definition find_block (vs addr : Z) (mm : bool) (va_range : option va_range_t)
  : N (NV_STATUS * option uvm_va_block_t) :=
  match va_range with
  | Some r => on_gpu (fun g => let '(st, blk, d) := op_block_find_create g vs r addr in
                               ((st, Some blk), g <| hw := d |>))
  | None =>
      if mm then on_gpu (fun g => let '(st, blk, d) := op_hmm_block_find_create g vs addr in
                                  ((st, Some blk), g <| hw := d |>))
      else mret (NV_ERR_INVALID_ADDRESS, None)
  end.

(** A fault for which no VA block was found: an ATS fault, or a fatal one.  No
    status is returned for a logical error. *)
Definition dispatch_no_block (vs addr : Z) (mm : bool) (va_range_next : option va_range_t)
    (fault_index : nat) (status : NV_STATUS) : N (NV_STATUS * nat) :=
  ats ← gets (fun s => op_ats_can_service_faults (sv_gpu s) vs mm);
  gmmu ← gets (fun s => op_ats_in_gmmu_region (sv_gpu s) vs addr va_range_next);
  if bool_decide (status = NV_ERR_INVALID_ADDRESS) && ats then
    if gmmu : bool then
      k ← service_fault_batch_fatal_notify fault_index NV_ERR_INVALID_ADDRESS
            UVM_FAULT_CANCEL_VA_MODE_ALL;
      mret (NV_OK, k)
    else service_fault_batch_ats vs fault_index (ats_outer addr va_range_next)
  else
    k ← service_fault_batch_fatal_notify fault_index status UVM_FAULT_CANCEL_VA_MODE_ALL;
    mret (NV_OK, k).

(** [mm] tells whether the VA space has an mm. *)
Definition service_fault_batch_dispatch (vs : Z) (mm : bool) (fault_index : nat)
    (hmm_migratable : bool) : N (NV_STATUS * nat) :=
  b ← gets svc_batch;
  let addr := fault_address (cache_at b (ordered_fault_cache b !!! fault_index)) in
  ranges ← lookup_va_range vs addr;
  r ← find_block vs addr mm ranges.1;
  match r with
  | (NV_OK, Some blk) => service_fault_batch_block blk fault_index hmm_migratable
  | (status, _) => dispatch_no_block vs addr mm ranges.2 fault_index status
  end.

(** ** The serial service loop *)

Inductive fault_service_mode_t : Type :=
| FAULT_SERVICE_MODE_REGULAR
| FAULT_SERVICE_MODE_CANCEL.

#[export] Instance fault_service_mode_eq_dec : EqDecision fault_service_mode_t.
Proof. solve_decision. Defined.

(** The VA space the loop holds, with whether it has an mm and a GPU VA space. *)
Record held_space : Type := mk_held {
  held_va_space : Z;
  held_mm : bool;
  held_gpu_va_space : bool;
}.

Definition lock_va_space (vs : Z) : N held_space :=
  mm ← gets (fun s => op_va_space_mm (sv_gpu s) vs);
  on_gpu (emit (EvVaSpaceLock vs)) ;;
  gvs ← gets (fun s => op_gpu_va_space (sv_gpu s) vs);
  mret (mk_held vs mm gvs).

Definition unlock_va_space (h : held_space) : N unit :=
  on_gpu (emit (EvVaSpaceUnlock (held_va_space h))).

(** [if (current_entry->va_space != va_space) ...]: hold the VA space of the
    fault.  On an error of the TLB invalidation the old one is still held. *)
Definition switch_va_space (held : option held_space) (vs : Z) : N (NV_STATUS * option held_space) :=
  match held with
  | Some h =>
      if held_va_space h =? vs then mret (NV_OK, held)
      else
        status ← gets (fun s => op_ats_invalidate_tlbs (sv_gpu s));
        if is_ok status then
          unlock_va_space h ;;
          h ← lock_va_space vs;
          mret (NV_OK, Some h)
        else mret (status, held)
  | None => h ← lock_va_space vs; mret (NV_OK, Some h)
  end.

(** A fault the driver cannot handle was marked when it was fetched. *)
Definition note_fatal_fault (vs : Z) (i : nat) (b : uvm_fault_service_batch_context_t)
  : uvm_fault_service_batch_context_t :=
  let b := match fatal_va_space b with
           | None => b <| fatal_va_space := Some vs |>
           | Some _ => b
           end in
  upd_utlb (utlb_id (fault_source (cache_at b i))) (fun t => t <| has_fatal_faults := true |>) b.

(** The replay after a block when the policy asks for it. *)
Definition replay_block (replay_per_va_block : bool) : N NV_STATUS :=
  fatal ← gets (fun s => fatal_va_space (svc_batch s));
  if replay_per_va_block && bool_decide (fatal = None) then
    st ← on_gpu (push_replay_on_gpu caps UVM_FAULT_REPLAY_TYPE_START true);
    if is_ok st then
      upd_svc_batch (fun b => b <| batch_id ::= fun n => u32 (n + 1) |>) ;; mret NV_OK
    else mret st
  else mret NV_OK.

(** How the body of the loop ends: with the next position, the VA space held and
    [hmm_migratable], or with a jump to [fail]. *)
Inductive loop_exit : Type :=
| Next (i : nat) (held : option held_space) (hmm_migratable : bool)
| Fail (status : NV_STATUS) (held : option held_space).

(** The dispatch of the fault and what follows it in the body. *)
Definition batch_dispatch (replay_per_va_block : bool) (vs : Z) (i : nat) (h : held_space)
    (hmm_migratable : bool) : N loop_exit :=
  r ← service_fault_batch_dispatch vs (held_mm h) i hmm_migratable;
  if is_restart r.1 then
    unlock_va_space h ;;
    mret (Next i None (if bool_decide (r.1 = NV_WARN_MISMATCHED_TARGET) then false else hmm_migratable))
  else if negb (is_ok r.1) then mret (Fail r.1 (Some h))
  else
    st ← replay_block replay_per_va_block;
    mret (if is_ok st then Next (i + r.2)%nat (Some h) true else Fail st (Some h)).

(** The body of the loop. *)
Definition batch_step (replay_per_va_block : bool) (i : nat) (held : option held_space)
    (hmm_migratable : bool) : N loop_exit :=
  b ← gets svc_batch;
  let cur := ordered_fault_cache b !!! i in
  let e := cache_at b cur in
  let vs := default 0 (va_space e) in
  sw ← switch_va_space held vs;
  match sw with
  | (NV_OK, Some h) =>
      if is_fatal e then
        upd_svc_batch (note_fatal_fault vs cur) ;; mret (Next (S i) (Some h) hmm_migratable)
      else if negb (held_gpu_va_space h) then mret (Next (S i) (Some h) hmm_migratable)
      else batch_dispatch replay_per_va_block vs i h hmm_migratable
  | (status, held) => mret (Fail status held)
  end.

(** The loop over the ordered view; [fuel] bounds the iterations.  Returns the
    status, the VA space still held and the position reached. *)
Fixpoint batch_loop (fuel : nat) (replay_per_va_block : bool) (i : nat) (held : option held_space)
    (hmm_migratable : bool) : N (NV_STATUS * option held_space * nat) :=
  match fuel with
  | O => mret (NV_OK, held, i)
  | S fuel =>
      b ← gets svc_batch;
      if negb (Z.of_nat i <? num_coalesced_faults b) then mret (NV_OK, held, i)
      else
        x ← batch_step replay_per_va_block i held hmm_migratable;
        match x with
        | Next i held hmm_migratable => batch_loop fuel replay_per_va_block i held hmm_migratable
        | Fail status held => mret (status, held, i)
        end
  end.

(** The end of the function: the TLB invalidation of the last VA space, which is
    skipped by a jump to [fail], and the release of the VA space. *)
Definition end_batch (status : NV_STATUS) (held : option held_space) : N NV_STATUS :=
  match held with
  | None => mret status
  | Some h =>
      invalidate ← gets (fun s => op_ats_invalidate_tlbs (sv_gpu s));
      unlock_va_space h ;;
      mret (if is_ok status && negb (is_ok invalidate) then invalidate else status)
  end.

(** The serial path, from the label [serial_path] on. *)
Definition service_fault_batch_serial (fuel : nat) (mode : fault_service_mode_t) : N NV_STATUS :=
  policy ← gets (fun s => replay_policy (replayable (sv_gpu s)));
  let replay_per_va_block :=
    bool_decide (mode <> FAULT_SERVICE_MODE_CANCEL) &&
    bool_decide (policy = UVM_PERF_FAULT_REPLAY_POLICY_BLOCK) in
  r ← batch_loop fuel replay_per_va_block 0 None true;
  let '(status, held, _) := r in end_batch status held.

End Dispatch.

(** ** VA space locks *)

(** The VA space held after a trace; [None] if a lock was taken twice or
    released without being held. *)
Fixpoint held_after (t : list event) : option (option Z) :=
  match t with
  | [] => Some None
  | EvVaSpaceLock v :: t => match held_after t with Some None => Some (Some v) | _ => None end
  | EvVaSpaceUnlock v :: t =>
      match held_after t with
      | Some (Some w) => if v =? w then Some None else None
      | _ => None
      end
  | _ :: t => held_after t
  end.

Definition is_lock_event (e : event) : bool :=
  match e with EvVaSpaceLock _ | EvVaSpaceUnlock _ => true | _ => false end.

Lemma held_after_app l t : Forall (fun e => is_lock_event e = false) l -> held_after (l ++ t) = held_after t.
Proof. induction 1 as [|e l He Hl IH]; simpl; [done|]. by destruct e. Qed.

(** ** Notifications of a pass *)

(** The event for the fault at position [pos] of a block that starts at
    [first]. *)
Definition notification (b : uvm_fault_service_batch_context_t) (first pos : nat) : event :=
  let o := ordered_fault_cache b in
  let e := cache_at b (o !!! pos) in
  notify_event e (check_fault_entry_duplicate e
    (cache_at b <$> (if (first <? pos)%nat then Some (o !!! (pos - 1)%nat) else None))).

(** The events of [k] faults, the last one first. *)
Definition notifications (b : uvm_fault_service_batch_context_t) (first pos k : nat) : list event :=
  rev (notification b first <$> seq pos k).

Lemma notification_same b b' first pos :
  same_faults b b' -> notification b' first pos = notification b first pos.
Proof.
  intros H. unfold notification. rewrite (sf_ordered _ _ H). set (o := ordered_fault_cache b).
  destruct (same_faults_fields _ _ (o !!! pos) H) as (E1 & E2 & E3 & _).
  unfold notify_event. rewrite E1, E2, E3. f_equal.
  destruct (first <? pos)%nat; [by apply duplicate_same|done].
Qed.

Lemma notifications_same b b' first pos k :
  same_faults b b' -> notifications b' first pos k = notifications b first pos k.
Proof.
  intros H. unfold notifications. f_equal. apply list_fmap_ext. intros i x _. by apply notification_same.
Qed.

Lemma notifications_cons b first pos k :
  notifications b first pos (S k) = notifications b first (S pos) k ++ [notification b first pos].
Proof. done. Qed.

Lemma notifications_no_locks b first pos k :
  Forall (fun e => is_lock_event e = false) (notifications b first pos k).
Proof.
  unfold notifications. apply Forall_rev, Forall_fmap, Forall_true. done.
Qed.

(** The fields of the pass the body of the loop leaves to the prologue. *)
Lemma service_page_quiet P q blk h pos i s :
  let s' := service_page P q blk h pos i s in
  pass_trace s' = pass_trace s /\ num_retries (pass_ctx s') = num_retries (pass_ctx s).
Proof.
  unfold service_page. destruct (check_fault_access_permissions _ _ _ _ _ _ _) as [a b].
  unfold queue_page. repeat case_match; done.
Qed.

Lemma entry_prologue_trace P i prev s d s' :
  entry_prologue P i prev s = (d, s') ->
  pass_trace s' = (if num_retries (pass_ctx s) =? 0 then [notify_event (cache_at (pass_batch s) i) d] else [])
                    ++ pass_trace s.
Proof.
  intros H. pose proof (entry_prologue_spec _ _ _ _ _ _ H) as [Hs _ _ _ _ _ _ _].
  revert H. unfold entry_prologue. cbv zeta. set (s1 := s <| pass_batch ::= _ |>).
  set (s2 := if stale_detail_enabled P && _ then _ else _).
  assert (forall k, notify_event (cache_at (pass_batch s2) i) k = notify_event (cache_at (pass_batch s) i) k) as He.
  { intros k. assert (same_faults (pass_batch s) (pass_batch s2)) as H2.
    { assert (same_faults (pass_batch s) (pass_batch s1)) as H1 by (by apply same_faults_upd).
      unfold s2. case_match; [|done]. etrans; [exact H1|by apply same_faults_other]. }
    destruct (same_faults_fields _ _ i H2) as (E1 & E2 & E3 & _). unfold notify_event.
    by rewrite E1, E2, E3. }
  assert (pass_trace s2 = pass_trace s /\ pass_ctx s2 = pass_ctx s) as [Et Ec]
    by (unfold s2; case_match; done).
  clearbody s2. simpl. rewrite Ec. destruct (num_retries (pass_ctx s) =? 0); intros [= <- <-]; simpl;
    rewrite Et, ?He; done.
Qed.

Lemma service_entry_trace P q blk h pos i prev s :
  let s' := service_entry P q blk h pos i prev s in
  pass_trace s' = (if num_retries (pass_ctx s) =? 0
                   then [notify_event (cache_at (pass_batch s) i)
                           (check_fault_entry_duplicate (cache_at (pass_batch s) i)
                              (cache_at (pass_batch s) <$> prev))]
                   else []) ++ pass_trace s /\
  num_retries (pass_ctx s') = num_retries (pass_ctx s).
Proof.
  unfold service_entry. destruct (entry_prologue P i prev s) as [d s1] eqn:E.
  pose proof (entry_prologue_trace _ _ _ _ _ _ E) as Ht.
  apply entry_prologue_spec in E as [_ _ -> Hc _ _ _ _]. rewrite <- Ht, <- Hc. cbv zeta.
  clear Ht Hc. destruct prev as [p|]; [|apply service_page_quiet].
  case_match; [|apply service_page_quiet]. case_match; [done|].
  by destruct (service_page_quiet P q blk h pos i (s1 <| pass_batch ::= fault_entry_duplicate_flags i p |>)) as [-> ->].
Qed.

Lemma service_loop_trace P q blk h end_address first n : forall pos s,
  let r := service_loop P q blk h end_address first n pos s in
  pass_trace r.2 = (if num_retries (pass_ctx s) =? 0
                    then notifications (pass_batch s) first pos
                           (run_length blk end_address (pass_batch s) n pos) else [])
                   ++ pass_trace s /\
  num_retries (pass_ctx r.2) = num_retries (pass_ctx s).
Proof.
  induction n as [|n IH]; intros pos s; simpl; [by case_match|].
  fold (in_block blk end_address (cache_at (pass_batch s) (ordered_fault_cache (pass_batch s) !!! pos))).
  destruct (in_block _ _ _); [|simpl; by case_match].
  set (s1 := service_entry _ _ _ _ _ _ _ _).
  assert (same_faults (pass_batch s) (pass_batch s1)) as Hs by apply service_entry_same.
  destruct (IH (S pos) s1) as [-> ->].
  rewrite (run_length_same _ _ _ _ _ Hs), (notifications_same _ _ _ _ _ Hs).
  destruct (service_entry_trace P q blk h pos (ordered_fault_cache (pass_batch s) !!! pos)
    (if (first <? pos)%nat then Some (ordered_fault_cache (pass_batch s) !!! (pos - 1)%nat) else None) s)
    as [E1 E2]. fold s1 in E1, E2. rewrite E1, E2. split; [|done].
  destruct (num_retries (pass_ctx s) =? 0); [|done].
  rewrite notifications_cons, <- app_assoc. done.
Qed.

(** ** Servicing one block *)

Section Blocks.
  Context {D : Type} `{Hal : FaultBufferHal D} `{!FaultBufferHalLive D} `{Ops : GpuOps D}
    `{Va : VaSpaceOps D} `{!VaSpaceOpsLive D}.
  Variable P : module_params.
  Variable blk : uvm_va_block_t.
  Variable h : bool.

(** The end of the block's policy for the fault at [first]. *)
Definition policy_end (g : uvm_gpu D) (first : nat) : Z :=
  block_policy_end (op_block_queries g blk) blk
    (fault_address (cache_at (batch g) (ordered_fault_cache (batch g) !!! first))).

(** The number of faults from [first] on that are in the block. *)
Definition block_run (g : uvm_gpu D) (first : nat) : nat :=
  run_length blk (policy_end g first) (batch g)
    (Z.to_nat (num_coalesced_faults (batch g)) - first) first.

(** What one attempt at the block does. *)
Record attempt (first : nat) (s : svc D) (st : NV_STATUS) (k : nat) (s' : svc D) : Prop := {
  at_same : same_faults (svc_batch s) (svc_batch s');
  at_count : k = block_run (sv_gpu s) first;
  at_trace : trace (sv_gpu s') =
    (if num_retries (sv_ctx s) =? 0 then notifications (svc_batch s) first first k else [])
    ++ trace (sv_gpu s);
  at_retries : num_retries (sv_ctx s') = u32 (num_retries (sv_ctx s) + 1);
  at_progress : st = NV_ERR_MORE_PROCESSING_REQUIRED ->
    (op_retries (hw (sv_gpu s')) < op_retries (hw (sv_gpu s)))%nat;
}.

Lemma run_pass_spec first s r s' :
  run_pass P blk first h s = (r, s') ->
  same_faults (svc_batch s) (svc_batch s') /\ (r.1 - first)%nat = block_run (sv_gpu s) first /\
  trace (sv_gpu s') =
    (if num_retries (sv_ctx s) =? 0
     then notifications (svc_batch s) first first (block_run (sv_gpu s) first) else [])
    ++ trace (sv_gpu s) /\
  num_retries (sv_ctx s') = num_retries (sv_ctx s) /\ hw (sv_gpu s') = hw (sv_gpu s) /\
  settings (sv_gpu s') = settings (sv_gpu s).
Proof.
  unfold run_pass, block_pass_run, block_run. cbv zeta. fold (policy_end (sv_gpu s) first).
  set (q := op_block_queries _ _). set (s0 := mk_pass _ _ _ _ _ _ _ _ _).
  set (n := (Z.to_nat _ - first)%nat). set (e := policy_end _ _).
  destruct (service_loop _ _ _ _ _ _ _ _ _) as [pos p] eqn:E. intros [= <- <-]. simpl.
  pose proof (service_loop_pos P q blk h e first n first s0) as Hpos.
  pose proof (service_loop_same P q blk h e first n first s0) as Hsame.
  destruct (service_loop_trace P q blk h e first n first s0) as [Ht Hr].
  rewrite E in Hpos, Hsame, Ht, Hr. simpl in *. rewrite app_nil_r in Ht.
  split; [done|]. split; [lia|]. rewrite Ht. done.
Qed.

Lemma env_op_spec (f : uvm_gpu D -> NV_STATUS * D) (s : svc D) st s' :
  env_op f s = (st, s') ->
  svc_batch s' = svc_batch s /\ trace (sv_gpu s') = trace (sv_gpu s) /\ sv_ctx s' = sv_ctx s /\
  f (sv_gpu s) = (st, hw (sv_gpu s')) /\ settings (sv_gpu s') = settings (sv_gpu s).
Proof.
  unfold env_op, on_gpu. destruct (f (sv_gpu s)) as [x d] eqn:E. by intros [= <- <-].
Qed.

(** The servicing of the queued pages; nothing else of the batch changes. *)
Lemma service_queued_spec (p : block_pass) (s : svc D) st s' :
  service_queued blk p s = (st, s') ->
  svc_batch s' = svc_batch s /\ trace (sv_gpu s') = trace (sv_gpu s) /\
  num_retries (sv_ctx s') = num_retries (sv_ctx s) /\
  (op_retries (hw (sv_gpu s')) <= op_retries (hw (sv_gpu s)))%nat /\
  (st = NV_ERR_MORE_PROCESSING_REQUIRED ->
   (op_retries (hw (sv_gpu s')) < op_retries (hw (sv_gpu s)))%nat).
Proof.
  unfold service_queued. case_match; [|by intros [= <- <-]].
  unfold mbind, ST_bind, modify, gets. intros (E1 & E2 & E3 & E4 & _)%env_op_spec.
  rewrite E1, E2, E3. split_and!; try done.
  - by apply op_retries_service_le in E4.
  - intros ->. by apply op_retries_service in E4.
Qed.

Lemma block_locked_attempt first s st k s' :
  service_fault_batch_block_locked P blk first h s = ((st, k), s') -> attempt first s st k s'.
Proof.
  unfold service_fault_batch_block_locked. unfold mbind at 1, ST_bind at 1.
  destruct (run_pass P blk first h s) as [r s1] eqn:E1.
  apply run_pass_spec in E1 as (A1 & A2 & A3 & A4 & A5 & _).
  unfold mbind at 1, ST_bind at 1. destruct (service_queued blk r.2 s1) as [st1 s2] eqn:E2.
  apply service_queued_spec in E2 as (B1 & B2 & B3 & B4 & B5).
  unfold mbind, ST_bind, modify, gets. set (s3 := s2 <| sv_ctx ::= _ |>).
  assert (forall st' s', svc_batch s' = svc_batch s3 -> trace (sv_gpu s') = trace (sv_gpu s3) ->
    sv_ctx s' = sv_ctx s3 ->
    (st' = NV_ERR_MORE_PROCESSING_REQUIRED ->
      (op_retries (hw (sv_gpu s')) < op_retries (hw (sv_gpu s)))%nat) ->
    attempt first s st' (r.1 - first) s') as Hatt.
  { intros st' s4 C1 C2 C3 C4. split; [|done| | |done].
    - rewrite C1. change (svc_batch s3) with (svc_batch s2). by rewrite B1.
    - rewrite C2, A2. change (trace (sv_gpu s3)) with (trace (sv_gpu s2)). by rewrite B2.
    - rewrite C3. simpl. by rewrite B3, A4. }
  destruct (is_ok st1 && _).
  - destruct (env_op _ s3) as [st2 s4] eqn:E3. apply env_op_spec in E3 as (C1 & C2 & C3 & C4 & _).
    intros [= <- <- <-]. apply Hatt; try done. intros ->. apply op_retries_cancel in C4. simpl in C4.
    rewrite <- A5. lia.
  - intros [= <- <- <-]. apply Hatt; try done. intros Hm. rewrite <- A5. by apply B5.
Qed.

(** The end of the block for the fault at [first] is the same at every attempt:
    always so for a managed block, and for an HMM block while its policies do not
    change. *)
Definition same_end (first : nat) (g : uvm_gpu D) : Prop :=
  block_is_hmm blk = false \/ forall g', same_faults (batch g) (batch g') -> policy_end g' first = policy_end g first.

Lemma block_run_stable (g g' : uvm_gpu D) first :
  same_end first g -> same_faults (batch g) (batch g') -> block_run g' first = block_run g first.
Proof.
  intros He Hs. assert (policy_end g' first = policy_end g first) as Hp.
  { destruct He as [Hh|He]; [|by apply He]. unfold policy_end, block_policy_end. by rewrite Hh. }
  unfold block_run. rewrite Hp, (sf_coalesced _ _ Hs). by apply run_length_same.
Qed.

(** What a number of attempts does: the first one notifies, the last one counts. *)
Lemma retry_locked_spec first fuel : forall s st k s',
  retry_locked fuel (service_fault_batch_block_locked P blk first h) s = ((st, k), s') ->
  (op_retries (hw (sv_gpu s)) <= fuel)%nat ->
  0 <= num_retries (sv_ctx s) -> num_retries (sv_ctx s) + Z.of_nat fuel + 1 < 2 ^ 32 ->
  same_faults (svc_batch s) (svc_batch s') /\ st <> NV_ERR_MORE_PROCESSING_REQUIRED /\
  (exists g, same_faults (svc_batch s) (batch g) /\ k = block_run g first) /\
  trace (sv_gpu s') =
    (if num_retries (sv_ctx s) =? 0 then notifications (svc_batch s) first first (block_run (sv_gpu s) first) else [])
    ++ trace (sv_gpu s).
Proof.
  induction fuel as [|fuel IH]; intros s st k s'; simpl; unfold mbind, ST_bind;
    destruct (service_fault_batch_block_locked P blk first h s) as [[st1 k1] s1] eqn:E;
    apply block_locked_attempt in E as [A1 A2 A3 A4 A5].
  - intros [= <- <- <-] Hf Hn Hm. rewrite <- A2. split_and!; [done| |by exists (sv_gpu s)|done]. intros Hst. specialize (A5 Hst). lia.
  - simpl. case_bool_decide as Hst; [|intros [= <- <- <-] _ _ _; rewrite <- A2; split_and!; [done|done|by exists (sv_gpu s)|done]].
    specialize (A5 Hst). intros H Hf Hn Hm. rewrite u32_small in A4 by lia.
    apply IH in H as (B1 & B2 & (g & Hg & Hk) & B4); [|lia..].
    split_and!; [by etrans|done|exists g; split; [by etrans|done]|]. rewrite B4, A3, A2.
    destruct (Z.eqb_spec (num_retries (sv_ctx s1)) 0); [lia|done].
Qed.

(** C8: Servicing a VA block, managed or HMM, terminates and tells every fault of
    the block exactly once to the performance heuristics, in order, however many
    times (below 2^32) the allocation of memory makes it start over.  The faults
    told are those the first attempt finds in the block; the count returned is
    that of the last attempt, which is the same for a managed block, and for an
    HMM block whose policies have not changed meanwhile. *)
Theorem service_block_notifies_once first s st k s' :
  Z.of_nat (op_retries (hw (sv_gpu s))) + 1 < 2 ^ 32 ->
  service_fault_batch_block P blk first h s = ((st, k), s') ->
  trace (sv_gpu s') = notifications (svc_batch s) first first (block_run (sv_gpu s) first) ++ trace (sv_gpu s) /\
  (same_end first (sv_gpu s) -> k = block_run (sv_gpu s) first) /\
  same_faults (svc_batch s) (svc_batch s') /\
  (st = NV_ERR_MORE_PROCESSING_REQUIRED -> op_block_tracker_add (sv_gpu s') blk = st).
Proof.
  intros Hr. unfold service_fault_batch_block, mbind, ST_bind, modify, gets. simpl.
  destruct (retry_locked _ _ _) as [[st1 k1] s1] eqn:E.
  apply retry_locked_spec in E as (A1 & A2 & (g & Hg & Hk) & A4); [|done|simpl; lia|simpl; lia].
  simpl in *. intros [= <- <- <-]. split_and!; [done| |done|destruct (is_ok st1); [done|]; by intros ->].
  intros He. rewrite Hk. by apply block_run_stable.
Qed.

End Blocks.

(** ** What dispatching a fault leaves alone *)

Definition gpu_held {D} (g : uvm_gpu D) : option (option Z) := held_after (trace g).

(** The faults of a batch without their flags. *)
Definition faults_view (b : uvm_fault_service_batch_context_t)
  : list uvm_fault_buffer_entry_t * list nat * Z :=
  (unflagged <$> fault_cache b, ordered_fault_cache b, num_coalesced_faults b).

Lemma same_faults_view b b' : same_faults b b' -> faults_view b' = faults_view b.
Proof. intros [E1 E2 E3 _ _]. unfold faults_view. congruence. Qed.

(** A frame of a GPU operation is one of its service state. *)
Lemma on_gpu_lift {D A} (R : uvm_gpu D -> uvm_gpu D -> Prop) (m : ST (uvm_gpu D) A) :
  respects R m -> respects (fun s s' : svc D => R (sv_gpu s) (sv_gpu s')) (on_gpu m).
Proof.
  intros Hm s a s'. unfold on_gpu. destruct (m (sv_gpu s)) as [x g] eqn:E. intros [= <- <-].
  by apply (Hm _ _ _ E).
Qed.

Section Frame.
  Context {D : Type} `{Hal : FaultBufferHal D} `{!FaultBufferHalLive D} `{Ops : GpuOps D}
    `{Va : VaSpaceOps D} `{!VaSpaceOpsLive D} `{!VaSpaceOpsLaws D}.
  Variable P : module_params.
  Variable caps : gpu_caps.

(** A fault that is fatal stays so. *)
Definition fatal_kept (b b' : uvm_fault_service_batch_context_t) : Prop :=
  forall k, is_fatal (cache_at b k) = true -> is_fatal (cache_at b' k) = true.

#[export] Instance fatal_kept_preorder : PreOrder fatal_kept.
Proof. split; [by intros b k|]. intros a b c H1 H2 k Hk. by apply H2, H1. Qed.

Lemma fatal_kept_upd i f b : (forall e, is_fatal e = true -> is_fatal (f e) = true) -> fatal_kept b (upd_entry i f b).
Proof.
  intros Hf k Hk. destruct (decide (k = i)) as [->|Hn]; [|by rewrite cache_at_upd_ne].
  destruct (decide (i < length (fault_cache b))%nat) as [Hi|Hi]; [rewrite cache_at_upd_eq by done; by apply Hf|].
  revert Hk. unfold cache_at, upd_entry. simpl. rewrite !list_lookup_total_alt, list_lookup_alter_eq.
  by rewrite lookup_ge_None_2 by lia.
Qed.

Lemma fatal_kept_same_cache b b' : fault_cache b' = fault_cache b -> fatal_kept b b'.
Proof. intros H k. unfold cache_at. by rewrite H. Qed.

Lemma mark_fatal_kept i r mode b : fatal_kept b (mark_fault_fatal i r mode b).
Proof.
  set (f := fun e : uvm_fault_buffer_entry_t => e <| is_fatal := true |> <| fatal_reason := r |> <| cancel_va_mode := mode |>).
  etrans; [apply (fatal_kept_upd i f); done|]. apply fatal_kept_same_cache. unfold mark_fault_fatal. by case_match.
Qed.

Lemma fatal_batch_kept pos st mode b : fatal_kept b (fatal_batch pos st mode b).
Proof.
  unfold fatal_batch. set (b1 := match previous_at b pos with Some _ => _ | None => b end).
  assert (fatal_kept b b1) as H1.
  { unfold b1. destruct (previous_at b pos) as [q|]; [|done]. destruct (check_fault_entry_duplicate _ _); [|done].
    intros k. by rewrite duplicate_flags_fatal. }
  clearbody b1. case_match; (etrans; [exact H1|]); [|apply mark_fatal_kept].
  unfold mark_fault_invalid_prefetch. by apply fatal_kept_upd.
Qed.

Lemma service_entry_fatal_kept q blk h pos i prev s : fatal_kept (pass_batch s) (pass_batch (service_entry P q blk h pos i prev s)).
Proof.
  assert (forall s, fatal_kept (pass_batch s) (pass_batch (service_page P q blk h pos i s))) as Hpage.
  { intros s0. unfold service_page. destruct (check_fault_access_permissions _ _ _ _ _ _ _) as [a b] eqn:E.
    assert (fatal_kept (pass_batch s0) b) as Hb.
    { revert E. unfold check_fault_access_permissions, mark_fault_invalid_prefetch.
      repeat case_match; intros [= _ <-]; try done; try apply mark_fatal_kept. by apply fatal_kept_upd. }
    assert (forall m e page ser b', fatal_kept b b' -> fatal_kept b (account_stale_fault P m e page ser b')) as Hst.
    { intros m e page ser b' H k Hk. rewrite account_stale_at. by apply H. }
    etrans; [exact Hb|]. repeat case_match; rewrite ?queue_page_batch; simpl; try done; [by apply Hst|].
    unfold mark_fault_throttled. by apply fatal_kept_upd. }
  unfold service_entry. destruct (entry_prologue P i prev s) as [d s1] eqn:E. apply entry_prologue_spec in E as [_ Hf _ _ _ _ _ _].
  assert (fatal_kept (pass_batch s) (pass_batch s1)) as H1 by (intros k; by rewrite Hf).
  etrans; [exact H1|]. destruct prev as [p|]; [|apply Hpage]. destruct d; [|apply Hpage].
  assert (fatal_kept (pass_batch s1) (fault_entry_duplicate_flags i p (pass_batch s1))) as H2 by (intros k; by rewrite duplicate_flags_fatal).
  case_match; [exact H2|]. etrans; [exact H2|]. exact (Hpage (s1 <| pass_batch ::= fault_entry_duplicate_flags i p |>)).
Qed.

Lemma service_loop_fatal_kept q blk h e first n : forall pos s,
  fatal_kept (pass_batch s) (pass_batch (service_loop P q blk h e first n pos s).2).
Proof.
  induction n as [|n IH]; intros pos s; simpl; [done|]. case_match; [|done].
  etrans; [apply service_entry_fatal_kept|apply IH].
Qed.

(** The faults are the same, the trace grows, no restart is added and fatal faults
    stay fatal. *)
Record gpu_frame (g g' : uvm_gpu D) : Prop := {
  fr_faults : faults_view (batch g') = faults_view (batch g);
  fr_grows : grows g g';
  fr_restarts : (op_restarts (hw g') <= op_restarts (hw g))%nat;
  fr_fatal : fatal_kept (batch g) (batch g');
}.

Definition frame (s s' : svc D) : Prop := gpu_frame (sv_gpu s) (sv_gpu s').

#[export] Instance gpu_frame_preorder : PreOrder gpu_frame.
Proof. split; [by split|]. intros a b c [] []. split; [congruence|by etrans|lia|by etrans]. Qed.

#[export] Instance frame_preorder : PreOrder frame.
Proof. split; [by intros s|]. intros a b c. unfold frame. apply transitivity. Qed.

Lemma on_gpu_frame {A} (m : ST (uvm_gpu D) A) : respects gpu_frame m -> respects frame (on_gpu m).
Proof. apply on_gpu_lift. Qed.

(** A push changes neither the faults nor the device. *)
Definition still (g g' : uvm_gpu D) : Prop :=
  faults_view (batch g') = faults_view (batch g) /\ hw g' = hw g /\ fault_cache (batch g') = fault_cache (batch g).

#[local] Instance still_preorder : PreOrder still.
Proof. split; [done|]. intros a b c (?&?&?) (?&?&?). split_and!; congruence. Qed.

Lemma push_replay_still type ctx : respects still (push_replay_on_gpu caps type ctx).
Proof.
  unfold push_replay_on_gpu, uvm_push_begin_acquire, replay_tracker_add_push_safe, emit, upd_batch,
    upd_replayable. respects.
Qed.

Lemma push_replay_frame type ctx : respects gpu_frame (push_replay_on_gpu caps type ctx).
Proof.
  intros g a g' E. pose proof E as (Hv & Hh & Hc)%push_replay_still.
  split; [done|by apply push_replay_grows in E|by rewrite Hh|by apply fatal_kept_same_cache].
Qed.

Lemma env_op_frame (f : uvm_gpu D -> NV_STATUS * D) :
  (forall g st d, f g = (st, d) -> (op_restarts d <= op_restarts (hw g))%nat) -> respects frame (env_op f).
Proof.
  intros Hf s a s' (E1 & E2 & _ & E3 & E4)%env_op_spec. apply Hf in E3. unfold svc_batch in *.
  split; [congruence|apply grows_same; congruence|done|by rewrite E1].
Qed.

Lemma notifications_grow (g g' : uvm_gpu D) b first pos k :
  trace g' = notifications b first pos k ++ trace g -> num_replays (batch g') = num_replays (batch g) ->
  settings g' = settings g -> grows g g'.
Proof.
  intros E1 E2 E3. exists (notifications b first pos k). split; [done|]. split; [|split; [congruence|done]].
  unfold notifications. by apply Forall_rev, Forall_fmap, Forall_true.
Qed.

Lemma run_pass_frame blk first h : respects frame (run_pass P blk first h).
Proof.
  intros s a s' E. assert (fatal_kept (svc_batch s) (svc_batch s')) as Hk.
  { revert E. unfold run_pass, block_pass_run. cbv zeta. set (q := op_block_queries _ _). set (s0 := mk_pass _ _ _ _ _ _ _ _ _).
    set (e := block_policy_end _ _ _). set (n := (Z.to_nat _ - first)%nat).
    pose proof (service_loop_fatal_kept q blk h e first n first s0) as H.
    destruct (service_loop _ _ _ _ _ _ _ _ _) as [pos p]. by intros [= _ <-]. }
  apply run_pass_spec in E as (E1 & _ & E2 & _ & E3 & E4). split; [by apply same_faults_view| |by rewrite E3|done].
  pose proof (sf_replays _ _ E1) as Hr. destruct (num_retries (sv_ctx s) =? 0).
  - eapply notifications_grow; [done|done|done].
  - apply grows_same; [done|done|done].
Qed.

Lemma notify_fault_frame i d : respects frame (notify_fault i d).
Proof. intros s a s' [= <- <-]. split; [done| |done|by apply fatal_kept_same_cache]. eexists [_]. split; [done|]. by split; [repeat constructor|]. Qed.

Lemma upd_svc_batch_frame f :
  (forall b, faults_view (f b) = faults_view b /\ num_replays (f b) = num_replays b /\ fatal_kept b (f b)) -> respects frame (upd_svc_batch f).
Proof. intros Hf s a s' [= <- <-]. split; [apply Hf|by apply grows_same; [|apply Hf|]|done|apply Hf]. Qed.

#[local] Hint Resolve push_replay_frame run_pass_frame notify_fault_frame on_gpu_frame : respects.

Lemma service_queued_frame blk p : respects frame (service_queued blk p).
Proof.
  unfold service_queued. respects. apply env_op_frame. intros g st d H. by destruct (op_restarts_service _ _ _ _ _ H).
Qed.

Lemma set_cancel_frame blk : respects frame (env_op (fun g => op_block_set_cancel g blk)).
Proof. apply env_op_frame. intros g st d H. by destruct (op_restarts_cancel _ _ _ _ H). Qed.

#[local] Hint Resolve service_queued_frame set_cancel_frame : respects.

Lemma block_locked_frame blk first h : respects frame (service_fault_batch_block_locked P blk first h).
Proof. unfold service_fault_batch_block_locked. respects. Qed.

Lemma retry_locked_frame fuel (call : ST (svc D) (NV_STATUS * nat)) :
  respects frame call -> respects frame (retry_locked fuel call).
Proof. intros Hc. induction fuel; simpl; respects. Qed.

#[local] Hint Resolve block_locked_frame retry_locked_frame : respects.

Lemma block_frame blk first h : respects frame (service_fault_batch_block P blk first h).
Proof. unfold service_fault_batch_block. respects. Qed.

Lemma fatal_batch_same pos st mode b : same_faults b (fatal_batch pos st mode b).
Proof.
  unfold fatal_batch. set (b1 := match previous_at b pos with Some _ => _ | None => b end).
  assert (same_faults b b1) as H1.
  { unfold b1. destruct (previous_at b pos) as [p|]; [|done].
    destruct (check_fault_entry_duplicate _ _); [apply duplicate_flags_same|done]. }
  clearbody b1. case_match; (etrans; [exact H1|]); eauto with service.
Qed.

Lemma fatal_frame pos st mode : respects frame (service_fault_batch_fatal pos st mode).
Proof.
  unfold service_fault_batch_fatal. respects. apply upd_svc_batch_frame. intros b.
  pose proof (fatal_batch_same pos st mode b) as Hs. split; [by apply same_faults_view|split; [apply Hs|apply fatal_batch_kept]].
Qed.

#[local] Hint Resolve block_frame fatal_frame : respects.

Lemma fatal_notify_frame pos st mode : respects frame (service_fault_batch_fatal_notify pos st mode).
Proof. unfold service_fault_batch_fatal_notify. respects. Qed.

Lemma ats_attribute_frame n : forall pos base ser rd, respects frame (ats_attribute n pos base ser rd).
Proof. induction n; simpl; respects. Qed.

#[local] Hint Resolve fatal_notify_frame ats_attribute_frame : respects.

Lemma call_ats_frame vs base rd wr : respects frame (call_ats vs base rd wr).
Proof.
  apply on_gpu_frame. intros g a g'. destruct (op_ats_service_faults _ _ _ _ _) as [[st m] d] eqn:E.
  intros [= <- <-]. apply op_restarts_ats in E as [E _]. split; [done|by apply grows_same|done|by apply fatal_kept_same_cache].
Qed.

#[local] Hint Resolve call_ats_frame : respects.

Lemma ats_sub_vma_frame vs base a z : respects frame (service_fault_batch_ats_sub_vma vs base a z).
Proof. unfold service_fault_batch_ats_sub_vma. respects. Qed.

Lemma ats_set_masks_frame e page : respects frame (ats_set_masks e page).
Proof. unfold ats_set_masks. respects. Qed.

Lemma start_new_sub_batch_frame : respects frame start_new_sub_batch.
Proof. unfold start_new_sub_batch. respects. Qed.

#[local] Hint Resolve ats_sub_vma_frame ats_set_masks_frame start_new_sub_batch_frame : respects.

Lemma ats_sub_body_frame vs outer per i prev sub base faults :
  respects frame (ats_sub_body vs outer per i prev sub base faults).
Proof. unfold ats_sub_body. respects. Qed.

#[local] Hint Resolve ats_sub_body_frame : respects.

Lemma ats_sub_loop_frame n : forall vs outer per i prev sub base faults,
  respects frame (ats_sub_loop n vs outer per i prev sub base faults).
Proof. induction n; simpl; respects. Qed.

#[local] Hint Resolve ats_sub_loop_frame : respects.

Lemma ats_sub_frame vs vm_end i outer : respects frame (service_fault_batch_ats_sub vs vm_end i outer).
Proof. unfold service_fault_batch_ats_sub. respects. Qed.

#[local] Hint Resolve ats_sub_frame : respects.

Lemma ats_loop_frame fuel : forall vs outer first i faults, respects frame (ats_loop fuel vs outer first i faults).
Proof. induction fuel; simpl; respects. Qed.

#[local] Hint Resolve ats_loop_frame : respects.

Lemma find_block_frame vs addr mm r : respects frame (find_block vs addr mm r).
Proof.
  unfold find_block. destruct r as [r|]; [|destruct mm; [|solve [respects]]];
    apply on_gpu_frame; intros g a g'.
  - destruct (op_block_find_create _ _ _ _) as [[st b] d] eqn:E. intros [= <- <-].
    apply op_restarts_find in E. split; [done|by apply grows_same|done|by apply fatal_kept_same_cache].
  - destruct (op_hmm_block_find_create _ _ _) as [[st b] d] eqn:E. intros [= <- <-].
    apply op_restarts_hmm_find in E. split; [done|by apply grows_same|done|by apply fatal_kept_same_cache].
Qed.

#[local] Hint Resolve find_block_frame : respects.

Lemma dispatch_no_block_frame vs a mm next i st : respects frame (dispatch_no_block vs a mm next i st).
Proof. unfold dispatch_no_block, service_fault_batch_ats. respects. Qed.

#[local] Hint Resolve dispatch_no_block_frame : respects.

Lemma dispatch_frame vs mm i h : respects frame (service_fault_batch_dispatch P vs mm i h).
Proof. unfold service_fault_batch_dispatch, lookup_va_range. respects. Qed.

Lemma replay_block_frame per : respects frame (replay_block caps per).
Proof. unfold replay_block. respects. apply upd_svc_batch_frame. intros b. by split_and!; [| |apply fatal_kept_same_cache]. Qed.

(** Locks are not part of what grows. *)
Lemma grows_held (g g' : uvm_gpu D) : grows g g' -> gpu_held g' = gpu_held g.
Proof.
  intros (l & E & Hl & _ & _). unfold gpu_held. rewrite E. apply held_after_app.
  eapply Forall_impl; [exact Hl|]. by intros [].
Qed.

End Frame.

(** ** What an ATS sub-batch counts *)

Lemma view_same b b' : faults_view b' = faults_view b -> same_faults b (b' <| batch_id := batch_id b |> <| num_replays := num_replays b |>).
Proof. by intros [= E1 E2 E3]. Qed.

Lemma view_notification b b' first pos :
  faults_view b' = faults_view b -> notification b' first pos = notification b first pos.
Proof. intros H%view_same. exact (notification_same _ _ first pos H). Qed.

Lemma view_notifications b b' first pos k :
  faults_view b' = faults_view b -> notifications b' first pos k = notifications b first pos k.
Proof.
  intros H. unfold notifications. f_equal. apply list_fmap_ext. intros i x _. by apply view_notification.
Qed.

Lemma view_coalesced b b' : faults_view b' = faults_view b -> num_coalesced_faults b' = num_coalesced_faults b.
Proof. by intros [= _ _ E]. Qed.

Lemma view_address b b' pos : faults_view b' = faults_view b ->
  fault_address (cache_at b' (ordered_fault_cache b' !!! pos)) =
  fault_address (cache_at b (ordered_fault_cache b !!! pos)).
Proof.
  intros H. pose proof H as [= _ E _]. rewrite E. apply view_same in H.
  by destruct (same_faults_fields _ _ (ordered_fault_cache b !!! pos) H) as (_ & ? & _).
Qed.

(** The fault at a position of the view. *)
Definition fault_at {D} (s : svc D) (i : nat) : uvm_fault_buffer_entry_t :=
  cache_at (svc_batch s) (ordered_fault_cache (svc_batch s) !!! i).

Lemma view_space {D} (s s' : svc D) pos : faults_view (svc_batch s') = faults_view (svc_batch s) ->
  va_space (fault_at s' pos) = va_space (fault_at s pos).
Proof.
  intros H. unfold fault_at. pose proof H as [= _ E _]. rewrite E. apply view_same in H.
  by destruct (same_faults_fields _ _ (ordered_fault_cache (svc_batch s) !!! pos) H) as (? & _).
Qed.

Section Ats.
  Context {D : Type} `{Hal : FaultBufferHal D} `{!FaultBufferHalLive D} `{Ops : GpuOps D}
    `{Va : VaSpaceOps D} `{!VaSpaceOpsLive D} `{!VaSpaceOpsLaws D}.

Definition masks (s : svc D) : gset Z * gset Z := (read_fault_mask s, write_fault_mask s).

(** Only the batch, the device and nothing of the trace or the masks change. *)
Record quiet (s s' : svc D) : Prop := {
  qu_masks : masks s' = masks s;
  qu_trace : trace (sv_gpu s') = trace (sv_gpu s);
  qu_faults : faults_view (svc_batch s') = faults_view (svc_batch s);
  qu_replayable : replayable (sv_gpu s') = replayable (sv_gpu s);
}.

#[export] Instance quiet_preorder : PreOrder quiet.
Proof. split; [by split|]. intros a b c [] []. split; congruence. Qed.

Lemma fatal_quiet pos st mode : respects quiet (service_fault_batch_fatal (D := D) pos st mode).
Proof.
  unfold service_fault_batch_fatal. respects. intros s a s' [= <- <-].
  split; [done|done| |done]. apply same_faults_view, fatal_batch_same.
Qed.

#[local] Hint Resolve fatal_quiet : respects.

Lemma ats_attribute_quiet n : forall pos base ser rd, respects quiet (ats_attribute (D := D) n pos base ser rd).
Proof. induction n; simpl; respects. Qed.

Lemma call_ats_quiet vs base rd wr : respects quiet (call_ats vs base rd wr).
Proof.
  intros s a s'. unfold call_ats, on_gpu. destruct (op_ats_service_faults _ _ _ _ _) as [[st m] d].
  by intros [= <- <-].
Qed.

#[local] Hint Resolve ats_attribute_quiet call_ats_quiet : respects.

Lemma ats_sub_vma_quiet vs base a z : respects quiet (service_fault_batch_ats_sub_vma vs base a z).
Proof. unfold service_fault_batch_ats_sub_vma. respects. Qed.

Lemma ats_attribute_count n : forall pos base ser rd (s : svc D), (ats_attribute n pos base ser rd s).1 = n.
Proof.
  induction n as [|n IH]; intros pos base ser rd s; simpl; [done|].
  unfold mbind at 1, ST_bind at 1. simpl. unfold mbind at 1, ST_bind at 1.
  match goal with |- context [(if ?c then ?x else ?y) s] =>
    assert (((if c then x else y) s).1 = 1%nat) as Hk by (by destruct c);
    destruct ((if c then x else y) s) as [k s1] end.
  simpl in Hk. subst k. unfold mbind, ST_bind. specialize (IH (S pos) base ser rd s1).
  destruct (ats_attribute _ _ _ _ _ _) as [r s2]. simpl in *. lia.
Qed.

(** A sub-batch counts all its faults. *)
Lemma ats_sub_vma_count vs base a z s :
  (service_fault_batch_ats_sub_vma vs base a z s).1.2 = (z - a)%nat.
Proof.
  unfold service_fault_batch_ats_sub_vma, mbind, ST_bind, gets.
  destruct (call_ats _ _ _ _ _) as [r s1]. destruct (_ || _); [done|].
  match goal with |- context [ats_attribute ?n ?p ?b ?x ?y s1] =>
    pose proof (ats_attribute_count n p b x y s1) as H; destruct (ats_attribute n p b x y s1) end.
  done.
Qed.

Lemma ats_set_masks_some e page (s : svc D) : masks (ats_set_masks e page s).2 <> (∅, ∅).
Proof.
  unfold ats_set_masks, modify, masks.
  destruct (fault_access_type e); simpl; unfold access_num; simpl;
    try (intros [= H1 H2]; set_solver); case_match; intros [= H1 H2]; set_solver.
Qed.

Lemma ats_set_masks_rest e page (s : svc D) : sv_gpu (ats_set_masks e page s).2 = sv_gpu s.
Proof. unfold ats_set_masks, modify. simpl. repeat case_match; done. Qed.

(** The pointer before position [i] of a loop that starts at [first]. *)
Definition loop_previous (b : uvm_fault_service_batch_context_t) (first i : nat) : option nat :=
  if (first <? i)%nat then Some (ordered_fault_cache b !!! (i - 1)%nat) else None.

(** What the loop of a sub-batch guarantees when it ends. *)
Record ats_post (first i sub faults : nat) (per_block : bool) (s : svc D) (l : ats_loop_t) (s' : svc D) : Prop := {
  ap_faults : faults_view (svc_batch s') = faults_view (svc_batch s);
  ap_index : (i < al_index l <= Z.to_nat (num_coalesced_faults (svc_batch s)))%nat;
  ap_sub : (sub <= al_sub_index l < al_index l)%nat;
  ap_trace : trace (sv_gpu s') =
    notifications (svc_batch s) first i (al_index l - i) ++ trace (sv_gpu s);
  ap_replayable : replayable (sv_gpu s') = replayable (sv_gpu s);
  ap_space : forall p, (i <= p < al_index l)%nat -> va_space (fault_at s p) = va_space (fault_at s i);
  ap_masks : al_status l = NV_OK -> masks s' <> (∅, ∅);
  ap_count : al_status l = NV_OK -> per_block = false ->
    (al_faults l + (al_index l - al_sub_index l) = faults + (al_index l - sub))%nat;
}.

(** The end of the body of the loop. *)
Lemma ats_sub_tail (new_sub : bool) e page (l0 : ats_loop_t) i (c : Z) (s : svc D) l more s' :
  (when new_sub start_new_sub_batch ;; ats_set_masks e page ;;
   b ← gets svc_batch;
   let next := cache_at b (ordered_fault_cache b !!! S i) in
   mret (l0, (Z.of_nat (S i) <? num_coalesced_faults b) && (fault_address next <? c) &&
             bool_decide (va_space e = va_space next))) s = ((l, more), s') ->
  l = l0 /\ masks s' <> (∅, ∅) /\ sv_gpu s' = sv_gpu s /\
  (more = true -> (S i < Z.to_nat (num_coalesced_faults (svc_batch s)))%nat /\
                  va_space (fault_at s (S i)) = va_space e).
Proof.
  unfold mbind, ST_bind. destruct (when new_sub _ s) as [u s1] eqn:E1.
  assert (sv_gpu s1 = sv_gpu s) as Hg by (destruct new_sub; by injection E1 as <- <-).
  destruct (ats_set_masks e page s1) as [u2 s2] eqn:E2.
  pose proof (ats_set_masks_some e page s1) as Hm. pose proof (ats_set_masks_rest e page s1) as Hr.
  rewrite E2 in Hm, Hr. simpl in Hm, Hr. intros [= <- <- <-]. split; [done|]. split; [done|].
  split; [congruence|]. rewrite !andb_true_iff, Z.ltb_lt, bool_decide_eq_true.
  unfold fault_at, svc_batch. rewrite Hr, Hg. intros [[H1 _] H2]. split; [lia|done].
Qed.

Lemma ats_sub_body_spec vs outer per_block first i sub base faults (s : svc D) l more s' :
  ats_sub_body vs outer per_block i (loop_previous (svc_batch s) first i) sub base faults s = ((l, more), s') ->
  (sub <= i)%nat -> (i < Z.to_nat (num_coalesced_faults (svc_batch s)))%nat ->
  (masks s <> (∅, ∅) /\ (sub < i)%nat \/
   fault_address (cache_at (svc_batch s) (ordered_fault_cache (svc_batch s) !!! i)) < base + UVM_VA_BLOCK_SIZE) ->
  ats_post first i sub faults per_block s l s' /\ al_index l = S i /\
  (more = true -> al_status l = NV_OK /\ (S i < Z.to_nat (num_coalesced_faults (svc_batch s)))%nat /\
                  va_space (fault_at s (S i)) = va_space (fault_at s i)).
Proof.
  intros H Hsub Hi Hpre. revert H. unfold ats_sub_body. unfold mbind at 1, ST_bind at 1, gets at 1.
  cbv zeta beta. set (cur := ordered_fault_cache _ !!! i) in *. set (e := cache_at _ cur) in *.
  unfold mbind at 1, ST_bind at 1. destruct (notify_fault _ _ s) as [u s1] eqn:E1.
  assert (masks s1 = masks s /\ trace (sv_gpu s1) = notification (svc_batch s) first i :: trace (sv_gpu s) /\
    faults_view (svc_batch s1) = faults_view (svc_batch s) /\ replayable (sv_gpu s1) = replayable (sv_gpu s))
    as (A1 & A2 & A3 & A4) by (by injection E1 as <- <-).
  clear E1. set (new_sub := base + UVM_VA_BLOCK_SIZE <=? fault_address e).
  unfold mbind at 1, ST_bind at 1.
  match goal with |- context [(if new_sub then ?x else ?y) s1] =>
    assert (respects quiet (if new_sub then x else y)) as Hq
      by (destruct new_sub; [apply ats_sub_vma_quiet|apply respects_ret, _]);
    assert (((if new_sub then x else y) s1).1.2 = (if new_sub then i - sub else 0)%nat /\
            (new_sub = false -> ((if new_sub then x else y) s1).1.1 = NV_OK)) as [Hk Hok]
      by (destruct new_sub; [split; [apply ats_sub_vma_count|done]|done]);
    destruct ((if new_sub then x else y) s1) as [[st k] s2] eqn:E2 end.
  apply Hq in E2 as [B1 B2 B3 B4]. simpl in Hk, Hok. simpl fst. simpl snd.
  rewrite A1 in B1. rewrite A2 in B2. rewrite A3 in B3. rewrite A4 in B4.
  assert (forall l', al_index l' = S i -> forall s', sv_gpu s' = sv_gpu s2 -> (sub <= al_sub_index l' <= i)%nat ->
    (al_status l' = NV_OK -> masks s' <> (∅, ∅)) ->
    (al_status l' = NV_OK -> per_block = false -> (al_faults l' + (S i - al_sub_index l') = faults + (S i - sub))%nat) ->
    ats_post first i sub faults per_block s l' s') as Hpost.
  { intros l' Hl s3 Hg Hs Hm Hc. split; rewrite ?Hl; try done; try lia.
    - unfold svc_batch at 1. rewrite Hg. exact B3.
    - rewrite Hg, B2. by replace (S i - i)%nat with 1%nat by lia.
    - by rewrite Hg.
    - intros p Hp. by replace p with i by lia. }
  destruct (new_sub && _) eqn:Hbr.
  - intros [= <- <- <-]. apply andb_true_iff in Hbr as [Hn Hbr]. rewrite Hn in Hk.
    split; [|done]. apply Hpost; [done|done|simpl; lia| |]; simpl.
    + intros _. rewrite B1. destruct Hpre as [[? _]|Hlt]; [done|]. unfold new_sub in Hn. lia.
    + intros -> ->. done.
  - intros (-> & Hm & Hg & Hmore)%ats_sub_tail. split; [|split; [done|]].
    + apply Hpost; try done; simpl; destruct new_sub; lia.
    + intros Hmr. split; [done|]. rewrite <- (view_coalesced _ _ B3), <- (view_space s s2 (S i)) by done.
      by apply Hmore.
Qed.

Lemma notifications_app b first i x y :
  notifications b first (i + x) y ++ notifications b first i x = notifications b first i (x + y).
Proof. unfold notifications. by rewrite <- rev_app_distr, <- fmap_app, <- seq_app. Qed.

Lemma ats_post_trans first i sub faults per_block (s : svc D) l s1 l' s2 :
  ats_post first i sub faults per_block s l s1 -> al_status l = NV_OK ->
  va_space (fault_at s (al_index l)) = va_space (fault_at s i) ->
  ats_post first (al_index l) (al_sub_index l) (al_faults l) per_block s1 l' s2 ->
  ats_post first i sub faults per_block s l' s2.
Proof.
  intros [A1 A2 A3 A4 A8 A7 A5 A6] Hok Hsp [B1 B2 B3 B4 B8 B7 B5 B6].
  pose proof (view_coalesced _ _ A1) as Hnc. rewrite Hnc in B2.
  split; [congruence|lia|lia| |congruence| |done|].
  - rewrite B4, A4, (view_notifications _ _ _ _ _ A1), app_assoc. f_equal.
    pose proof (notifications_app (svc_batch s) first i (al_index l - i) (al_index l' - al_index l)) as Hn.
    replace (i + (al_index l - i))%nat with (al_index l) in Hn by lia.
    rewrite Hn. f_equal. lia.
  - intros p Hp. destruct (decide (p < al_index l)%nat); [apply A7; lia|].
    rewrite <- (view_space s s1), B7 by (done || lia). by rewrite (view_space s s1).
  - intros Ho Hp. specialize (A6 Hok Hp). specialize (B6 Ho Hp). lia.
Qed.

Lemma ats_sub_loop_spec n : forall vs outer per_block first i sub base faults (s : svc D) l s',
  ats_sub_loop n vs outer per_block i (loop_previous (svc_batch s) first i) sub base faults s = (l, s') ->
  (first <= i)%nat -> (sub <= i)%nat -> (i < Z.to_nat (num_coalesced_faults (svc_batch s)))%nat ->
  (masks s <> (∅, ∅) /\ (sub < i)%nat \/
   fault_address (cache_at (svc_batch s) (ordered_fault_cache (svc_batch s) !!! i)) < base + UVM_VA_BLOCK_SIZE) ->
  ats_post first i sub faults per_block s l s'.
Proof.
  induction n as [|n IH]; intros vs outer per_block first i sub base faults s l s' H Hf Hs Hi Hpre;
    revert H; simpl; unfold mbind, ST_bind, gets;
    destruct (ats_sub_body _ _ _ _ _ _ _ _ s) as [[l1 more] s1] eqn:E;
    apply ats_sub_body_spec in E as (Hp & Hx & Hm); try done; destruct more; try (by intros [= <- <-]).
  destruct (Hm eq_refl) as (Hok & Hlt & Hsp). intros H.
  apply (ats_post_trans _ _ _ _ _ _ l1 s1); [done|done|by rewrite Hx|].
  destruct Hp as [A1 A2 A3 A4 _ A7 A5 A6]. apply (IH vs outer per_block first _ _ (al_base l1)).
  - rewrite <- H. f_equal. unfold loop_previous. rewrite Hx.
    replace (first <? S i)%nat with true by (symmetry; apply Nat.ltb_lt; lia).
    injection A1 as _ -> _. by replace (S i - 1)%nat with i by lia.
  - lia.
  - lia.
  - rewrite Hx, (view_coalesced _ _ A1). lia.
  - left. split; [by apply A5|lia].
Qed.

Lemma ats_sub_spec vs vm_end i outer (s : svc D) k s' :
  (i < Z.to_nat (num_coalesced_faults (svc_batch s)))%nat ->
  0 <= fault_address (cache_at (svc_batch s) (ordered_fault_cache (svc_batch s) !!! i)) < 2 ^ 64 ->
  service_fault_batch_ats_sub vs vm_end i outer s = ((NV_OK, k), s') ->
  exists n, faults_view (svc_batch s') = faults_view (svc_batch s) /\
    (0 < n <= Z.to_nat (num_coalesced_faults (svc_batch s)) - i)%nat /\ (0 < k)%nat /\
    trace (sv_gpu s') = notifications (svc_batch s) i i n ++ trace (sv_gpu s) /\
    (forall p, (i <= p < i + n)%nat -> va_space (fault_at s p) = va_space (fault_at s i)) /\
    replayable (sv_gpu s') = replayable (sv_gpu s) /\
    (replay_policy (replayable (sv_gpu s)) <> UVM_PERF_FAULT_REPLAY_POLICY_BLOCK -> k = n).
Proof.
  intros Hi Ha. unfold service_fault_batch_ats_sub, start_new_sub_batch. unfold mbind, ST_bind, gets, modify.
  set (per := bool_decide _). set (s0 := s <| read_fault_mask := ∅ |> <| write_fault_mask := ∅ |>).
  destruct (ats_sub_loop _ _ _ _ _ _ _ _ _ s0) as [l s1] eqn:E.
  assert (loop_previous (svc_batch s0) i i = None) as Hprev
    by (unfold loop_previous; by rewrite Nat.ltb_irrefl).
  rewrite <- Hprev in E. apply ats_sub_loop_spec in E as [A1 A2 A3 A4 A8 A7 A5 A6]; [|done|done|done|].
  2:{ right. change (svc_batch s0) with (svc_batch s). unfold UVM_VA_BLOCK_ALIGN_DOWN, UVM_VA_BLOCK_SIZE.
      rewrite align_down_spec by done. pose proof (Z.mod_pos_bound
        (fault_address (cache_at (svc_batch s) (ordered_fault_cache (svc_batch s) !!! i))) (2 ^ 21)). lia. }
  change (svc_batch s0) with (svc_batch s) in *. change (trace (sv_gpu s0)) with (trace (sv_gpu s)) in A4.
  destruct (is_ok (al_status l)) eqn:Hok; simpl.
  2:{ intros [= H _ _]. by rewrite H in Hok. }
  apply is_ok_true in Hok. specialize (A5 Hok).
  assert (bool_decide (read_fault_mask s1 <> ∅) || bool_decide (write_fault_mask s1 <> ∅) = true) as ->.
  { destruct (decide (read_fault_mask s1 = ∅)) as [E1|]; [|by rewrite bool_decide_true].
    rewrite (bool_decide_true (write_fault_mask s1 <> ∅)); [by rewrite orb_true_r|].
    intros E2. apply A5. unfold masks. by rewrite E1, E2. }
  pose proof (ats_sub_vma_count vs (al_base l) (al_sub_index l) (al_index l) s1) as Hk.
  destruct (service_fault_batch_ats_sub_vma _ _ _ _ s1) as [[st k'] s2] eqn:E2.
  apply ats_sub_vma_quiet in E2 as [_ B1 B2 B3]. simpl in *. intros [= Hst <- <-].
  exists (al_index l - i)%nat. split; [congruence|]. split; [lia|]. split; [lia|]. split; [congruence|].
  split; [intros p Hp; apply A7; lia|]. split; [by rewrite B3|].
  intros Hpol. specialize (A6 Hok (bool_decide_eq_false_2 _ Hpol)). lia.
Qed.

End Ats.

(** ** Progress of the dispatch *)

(** Every result of [m] satisfies [Q]. *)
Definition returns {S A} (Q : A -> Prop) (m : ST S A) : Prop := forall s a s', m s = (a, s') -> Q a.

Lemma returns_bind {S A B} (Q : A -> Prop) (R : B -> Prop) (m : ST S A) (k : A -> ST S B) :
  returns Q m -> (forall a, Q a -> returns R (k a)) -> returns R (m ≫= k).
Proof.
  intros Hm Hk s b s'. unfold mbind, ST_bind. destruct (m s) as [a s1] eqn:E.
  by apply (Hk a (Hm _ _ _ E)).
Qed.

Lemma returns_any {S A B} (R : B -> Prop) (m : ST S A) (k : A -> ST S B) :
  (forall a, returns R (k a)) -> returns R (m ≫= k).
Proof. intros Hk. by apply (returns_bind (fun _ => True)). Qed.

Lemma returns_ret {S A} (Q : A -> Prop) (a : A) : Q a -> returns (S := S) Q (mret a).
Proof. by intros HQ s x s' [= <- <-]. Qed.

Section Progress.
  Context {D : Type} `{Hal : FaultBufferHal D} `{!FaultBufferHalLive D} `{Ops : GpuOps D}
    `{Va : VaSpaceOps D} `{!VaSpaceOpsLive D} `{!VaSpaceOpsLaws D}.
  Variable P : module_params.
  Variable caps : gpu_caps.

(** ATS never asks to start over. *)
Abbreviation settled := (fun r : NV_STATUS * nat => is_restart r.1 = false).

Lemma ats_sub_vma_settled vs base a z : returns settled (service_fault_batch_ats_sub_vma (D := D) vs base a z).
Proof.
  unfold service_fault_batch_ats_sub_vma. do 2 (apply returns_any; intros ?).
  apply (returns_bind (fun r => is_restart r.1 = false)).
  - intros s r s'. unfold call_ats, on_gpu. destruct (op_ats_service_faults _ _ _ _ _) as [[st m] d] eqn:E.
    intros [= <- <-]. by apply op_restarts_ats in E as [_ E].
  - intros r Hr. case_match; [by apply returns_ret|]. apply returns_any. intros k. by apply returns_ret.
Qed.

Lemma ats_sub_loop_settled n : forall vs outer per i prev sub base faults,
  returns (fun l => is_restart (al_status l) = false) (ats_sub_loop (D := D) n vs outer per i prev sub base faults).
Proof.
  assert (forall vs outer per i prev sub base faults, returns (fun r => is_restart (al_status r.1) = false)
    (ats_sub_body (D := D) vs outer per i prev sub base faults)) as Hbody.
  { intros. unfold ats_sub_body. do 2 (apply returns_any; intros ?). apply (returns_bind settled).
    - case_match; [apply ats_sub_vma_settled|by apply returns_ret].
    - intros r Hr. case_match; [by apply returns_ret|]. do 3 (apply returns_any; intros ?). by apply returns_ret. }
  induction n; intros; simpl; (apply returns_any; intros cur); (eapply returns_bind; [apply Hbody|]);
    intros [l more] Hl; [by apply returns_ret|]. destruct more; [apply IHn|by apply returns_ret].
Qed.

Lemma ats_sub_settled vs vm_end i outer : returns settled (service_fault_batch_ats_sub (D := D) vs vm_end i outer).
Proof.
  unfold service_fault_batch_ats_sub. do 3 (apply returns_any; intros ?).
  eapply returns_bind; [apply ats_sub_loop_settled|]. intros l Hl. apply returns_any. intros p.
  case_match; [|by apply returns_ret]. eapply returns_bind; [apply ats_sub_vma_settled|].
  intros r Hr. by apply returns_ret.
Qed.

Lemma ats_loop_settled fuel : forall vs outer first i faults,
  returns settled (ats_loop (D := D) fuel vs outer first i faults).
Proof.
  induction fuel as [|fuel IH]; intros; simpl; [by apply returns_ret|]. apply returns_any. intros b.
  case_match; [by apply returns_ret|]. apply returns_any. intros [vm_end|].
  - eapply returns_bind; [apply ats_sub_settled|]. intros r Hr. case_match; [apply IH|by apply returns_ret].
  - apply returns_any. intros k. by apply returns_ret.
Qed.

(** A block that asks to start over has used up one of the restarts. *)
Lemma block_locked_restart blk first h (s : svc D) st k s' :
  service_fault_batch_block_locked P blk first h s = ((st, k), s') -> is_restart st = true ->
  (op_restarts (hw (sv_gpu s')) < op_restarts (hw (sv_gpu s)))%nat.
Proof.
  unfold service_fault_batch_block_locked. unfold mbind at 1, ST_bind at 1.
  destruct (run_pass P blk first h s) as [r s1] eqn:E1. apply run_pass_frame in E1 as [_ _ E1 _].
  unfold mbind at 1, ST_bind at 1. destruct (service_queued blk r.2 s1) as [st1 s2] eqn:E2.
  unfold mbind, ST_bind, modify, gets. destruct (is_ok st1 && _).
  { match goal with |- context [env_op ?f ?x] => destruct (env_op f x) as [st2 s3] eqn:E3 end.
    apply env_op_spec in E3 as (_ & _ & _ & E3 & _). intros [= <- _ _] Hr.
    apply op_restarts_cancel in E3 as [_ E3]. congruence. }
  intros [= <- _ <-] Hr. simpl. revert E2. unfold service_queued.
  destruct (0 <? page_fault_count r.2); [|by intros [= <- <-]].
  unfold mbind, ST_bind, modify, gets. intros (_ & _ & _ & E2 & _)%env_op_spec.
  apply op_restarts_service in E2 as [_ E2]. specialize (E2 Hr). simpl in E2. lia.
Qed.

Lemma retry_locked_restart blk first h fuel : forall (s : svc D) st k s',
  retry_locked fuel (service_fault_batch_block_locked P blk first h) s = ((st, k), s') ->
  is_restart st = true -> (op_restarts (hw (sv_gpu s')) < op_restarts (hw (sv_gpu s)))%nat.
Proof.
  induction fuel as [|fuel IH]; intros s st k s'; simpl; unfold mbind, ST_bind;
    destruct (service_fault_batch_block_locked P blk first h s) as [[st1 k1] s1] eqn:E.
  - intros [= <- <- <-]. by eapply block_locked_restart.
  - simpl. case_bool_decide; [|intros [= <- <- <-]; by eapply block_locked_restart].
    intros H1 Hr. apply block_locked_frame in E as [_ _ E _]. specialize (IH _ _ _ _ H1 Hr). lia.
Qed.

Lemma block_restart blk first h (s : svc D) st k s' :
  service_fault_batch_block P blk first h s = ((st, k), s') -> is_restart st = true ->
  (op_restarts (hw (sv_gpu s')) < op_restarts (hw (sv_gpu s)))%nat.
Proof.
  unfold service_fault_batch_block, mbind, ST_bind, modify, gets. simpl.
  destruct (retry_locked _ _ _) as [[st1 k1] s1] eqn:E. intros [= <- <- <-] Hr. simpl in Hr.
  destruct (is_ok st1); [by rewrite op_restarts_tracker in Hr|].
  by apply retry_locked_restart in E.
Qed.

(** A block that contains the first fault handles it, whatever the retries. *)
Lemma retry_locked_run blk first h fuel : forall (s : svc D) st k s',
  retry_locked fuel (service_fault_batch_block_locked P blk first h) s = ((st, k), s') ->
  exists g, same_faults (svc_batch s) (batch g) /\ k = block_run blk g first.
Proof.
  induction fuel as [|fuel IH]; intros s st k s'; simpl; unfold mbind, ST_bind;
    destruct (service_fault_batch_block_locked P blk first h s) as [[st1 k1] s1] eqn:E;
    apply block_locked_attempt in E as [A1 A2 _ _ _].
  - intros [= <- <- <-]. by exists (sv_gpu s).
  - simpl. case_bool_decide; [|intros [= <- <- <-]; by exists (sv_gpu s)].
    intros (g & Hg & ->)%IH. exists g. split; [by etrans|done].
Qed.

Lemma block_progress blk first h (s : svc D) st k s' :
  service_fault_batch_block P blk first h s = ((st, k), s') ->
  (first < Z.to_nat (num_coalesced_faults (svc_batch s)))%nat ->
  let e := cache_at (svc_batch s) (ordered_fault_cache (svc_batch s) !!! first) in
  va_space e = Some (block_va_space blk) ->
  (forall g, fault_address e <= block_policy_end (op_block_queries g blk) blk (fault_address e)) -> (0 < k)%nat.
Proof.
  unfold service_fault_batch_block, mbind, ST_bind, modify, gets. simpl.
  destruct (retry_locked _ _ _) as [[st1 k1] s1] eqn:E. intros [= <- <- <-] Hf Hv Ha.
  apply retry_locked_run in E as (g & Hg & ->). simpl in Hg.
  change (svc_batch _) with (svc_batch s) in Hg. unfold block_run, policy_end.
  rewrite (sf_coalesced _ _ Hg).
  destruct (Z.to_nat (num_coalesced_faults (svc_batch s)) - first)%nat eqn:En; [lia|]. simpl.
  rewrite (sf_ordered _ _ Hg). set (i := ordered_fault_cache (svc_batch s) !!! first) in *.
  destruct (same_faults_fields _ _ i Hg) as (E1 & E2 & _). unfold in_block. rewrite E1, E2, Hv.
  rewrite bool_decide_true by done. specialize (Ha g).
  rewrite (proj2 (Z.leb_le _ _) Ha). simpl. lia.
Qed.

Lemma fatal_notify_one pos st mode : returns (fun k => k = 1%nat) (service_fault_batch_fatal_notify (D := D) pos st mode).
Proof. by intros s a s' [= <- <-]. Qed.

Lemma ats_loop_mono fuel : forall vs outer first i faults,
  returns (fun r => faults <= r.2)%nat (ats_loop (D := D) fuel vs outer first i faults).
Proof.
  induction fuel as [|fuel IH]; intros; simpl; [by apply returns_ret|]. apply returns_any. intros b.
  case_match; [by apply returns_ret|]. apply returns_any. intros [vm_end|]; apply returns_any; intros r.
  - case_match; [|apply returns_ret; simpl; lia]. intros s a s' H1%IH. lia.
  - apply returns_ret. simpl. lia.
Qed.

Lemma ats_progress vs first outer (s : svc D) k s' :
  (first < Z.to_nat (num_coalesced_faults (svc_batch s)))%nat ->
  0 <= fault_address (fault_at s first) < 2 ^ 64 -> fault_address (fault_at s first) < outer ->
  service_fault_batch_ats vs first outer s = ((NV_OK, k), s') -> (0 < k)%nat.
Proof.
  intros Hf Ha Ho. unfold service_fault_batch_ats, mbind at 1, ST_bind at 1, gets at 1.
  destruct (Z.to_nat (num_coalesced_faults (svc_batch s))) as [|fuel] eqn:En; [lia|].
  simpl. unfold mbind at 1, ST_bind at 1, gets at 1. rewrite Nat.ltb_irrefl. fold (fault_at s first).
  rewrite (proj2 (Z.ltb_lt _ _)) by lia. rewrite (proj2 (Z.leb_gt _ _) Ho). simpl.
  unfold mbind at 1, ST_bind at 1, gets at 1. destruct (op_find_vma _ _ _) as [vm_end|].
  - unfold mbind, ST_bind. destruct (service_fault_batch_ats_sub vs vm_end first outer s) as [[st k1] s1] eqn:E.
    simpl. destruct (is_ok st) eqn:Hok; [|by intros [= -> _ _]].
    apply is_ok_true in Hok as ->. apply ats_sub_spec in E as (n & _ & _ & Hk & _); [|lia|done].
    intros H%ats_loop_mono. simpl in H. lia.
  - unfold mbind, ST_bind. destruct (service_fault_batch_fatal_notify _ _ _ s) as [k1 s1] eqn:E.
    apply fatal_notify_one in E as ->. intros [= <- _]. lia.
Qed.

Lemma ats_outer_gt a next :
  0 <= a < 2 ^ 63 -> (forall r, next = Some r -> a < range_start r) -> a < ats_outer a next.
Proof.
  intros Ha Hn. unfold ats_outer. destruct next as [r|]; [|lia]. specialize (Hn r eq_refl).
  apply Z.min_glb_lt; [done|]. change UVM_GMMU_ATS_GRANULARITY with (2 ^ 29).
  unfold wrap. rewrite Z.mod_small by lia. rewrite align_down_spec by lia.
  pose proof (Z.mod_pos_bound (a + 2 ^ 29) (2 ^ 29)). lia.
Qed.

Lemma lookup_va_range_next vs a (s : svc D) ranges s' r :
  lookup_va_range vs a s = (ranges, s') -> ranges.2 = Some r -> a < range_start r.
Proof.
  unfold lookup_va_range, gets. intros [= <- <-].
  destruct (op_va_range_first _ _ _) as [r0|] eqn:E; [|done].
  destruct (Z.leb_spec (range_start r0) a); simpl; [|intros [= ->]; lia].
  intros E2. apply op_va_range_first_spec in E. apply op_va_range_next_spec in E2. lia.
Qed.

Lemma find_block_batch vs a mm r :
  respects (fun s s' : svc D => svc_batch s' = svc_batch s /\ replayable (sv_gpu s') = replayable (sv_gpu s))
    (find_block vs a mm r).
Proof.
  unfold find_block. destruct r as [r|]; [|destruct mm]; unfold on_gpu; intros s x s'.
  - destruct (op_block_find_create _ _ _ _) as [[st b] d]. by intros [= <- <-].
  - destruct (op_hmm_block_find_create _ _ _) as [[st b] d]. by intros [= <- <-].
  - by intros [= <- <-].
Qed.

(** The block found for a fault contains it. *)
Lemma find_block_spec vs a mm r (s : svc D) blk s' :
  find_block vs a mm r s = ((NV_OK, Some blk), s') ->
  block_va_space blk = vs /\ forall g, a <= block_policy_end (op_block_queries g blk) blk a.
Proof.
  unfold find_block. destruct r as [r|]; [|destruct mm; [|done]]; unfold on_gpu.
  - destruct (op_block_find_create _ _ _ _) as [[st b] d] eqn:E. intros [= -> -> <-].
    apply op_block_find_spec in E as (E1 & E2 & _ & E3). split_and!; try done. intros g.
    unfold block_policy_end. by rewrite E2.
  - destruct (op_hmm_block_find_create _ _ _) as [[st b] d] eqn:E. intros [= -> -> <-].
    apply op_hmm_find_spec in E as (E1 & E2). done.
Qed.

(** Dispatching a fault handles at least that fault, or uses up a restart, or
    fails. *)
Definition dispatched (s : svc D) (r : NV_STATUS * nat) (s' : svc D) : Prop :=
  (r.1 = NV_OK -> (0 < r.2)%nat) /\
  (is_restart r.1 = true -> (op_restarts (hw (sv_gpu s')) < op_restarts (hw (sv_gpu s)))%nat).

Lemma dispatch_no_block_spec vs mm next i st (s : svc D) r s' :
  let a := fault_address (fault_at s i) in
  (i < Z.to_nat (num_coalesced_faults (svc_batch s)))%nat -> 0 <= a < 2 ^ 63 ->
  (forall r, next = Some r -> a < range_start r) ->
  dispatch_no_block vs a mm next i st s = (r, s') -> (r.1 = NV_OK -> (0 < r.2)%nat) /\ is_restart r.1 = false.
Proof.
  intros a Hi Ha Hn. unfold dispatch_no_block. unfold mbind at 1, ST_bind at 1, gets at 1.
  unfold mbind at 1, ST_bind at 1, gets at 1.
  assert (forall x y (s : svc D) r s', (k ← service_fault_batch_fatal_notify i x y; mret (NV_OK, k)) s = (r, s') ->
    (r.1 = NV_OK -> (0 < r.2)%nat) /\ is_restart r.1 = false) as Hfatal.
  { intros x y s1 r1 s1'. unfold mbind, ST_bind.
    destruct (service_fault_batch_fatal_notify i x y s1) as [k s2] eqn:E. apply fatal_notify_one in E as ->.
    intros [= <- _]. by split; [simpl; lia|]. }
  destruct (bool_decide _ && _); [|apply Hfatal]. destruct (op_ats_in_gmmu_region _ _ _ _); [apply Hfatal|].
  destruct r as [st1 k]. intros E. split.
  - simpl. intros ->. apply ats_progress in E; [done|done|lia|by apply ats_outer_gt].
  - revert E. unfold service_fault_batch_ats, mbind, ST_bind, gets. apply ats_loop_settled.
Qed.

Lemma dispatch_spec vs mm i h (s : svc D) r s' :
  (i < Z.to_nat (num_coalesced_faults (svc_batch s)))%nat -> 0 <= fault_address (fault_at s i) < 2 ^ 63 ->
  va_space (fault_at s i) = Some vs ->
  service_fault_batch_dispatch P vs mm i h s = (r, s') -> dispatched s r s'.
Proof.
  intros Hi Ha Hv. unfold service_fault_batch_dispatch, mbind, ST_bind. unfold gets at 1. fold (fault_at s i).
  destruct (lookup_va_range _ _ s) as [ranges s1] eqn:E1.
  pose proof (fun r => lookup_va_range_next _ _ _ _ _ r E1) as Hnext.
  assert (s1 = s) as -> by (by injection E1 as _ <-).
  destruct (find_block _ _ _ _ s) as [[st blk] s1] eqn:E2.
  assert (dispatch_no_block vs (fault_address (fault_at s i)) mm ranges.2 i st s1 = (r, s') ->
    dispatched s r s') as Hno.
  { pose proof (find_block_batch _ _ _ _ _ _ _ E2) as [Hb _].
    assert (fault_at s i = fault_at s1 i) as Hat by (unfold fault_at; by rewrite Hb).
    rewrite Hat in *. intros H. apply dispatch_no_block_spec in H as [H1 H2]; [|by rewrite Hb|done|done].
    split; [done|congruence]. }
  destruct st; try exact Hno. destruct blk as [blk|]; [|exact Hno].
  pose proof (find_block_batch _ _ _ _ _ _ _ E2) as [Hb _]. pose proof E2 as [_ _ Hrs _]%find_block_frame.
  apply find_block_spec in E2 as (Hvs & Hend). destruct r as [st k]. intros H. split; simpl.
  - intros _. eapply block_progress; [exact H|by rewrite Hb|..]; rewrite Hb; fold (fault_at s i); [by subst|done].
  - intros Hr. apply block_restart in H; [|done]. lia.
Qed.

(** ** The VA space of the faults a dispatch handles *)

(** Every fault of the view has a VA space and a canonical address. *)
Definition good_faults (s : svc D) : Prop :=
  forall p, (p < Z.to_nat (num_coalesced_faults (svc_batch s)))%nat ->
    va_space (fault_at s p) <> None /\ 0 <= fault_address (fault_at s p) < 2 ^ 63.

Lemma good_faults_view (s s' : svc D) :
  faults_view (svc_batch s') = faults_view (svc_batch s) -> good_faults s -> good_faults s'.
Proof.
  intros Hv Hg p. rewrite (view_coalesced _ _ Hv). intros Hp%Hg. unfold fault_at in *.
  pose proof Hv as [= _ Ho _]. rewrite Ho.
  destruct (same_faults_fields _ _ (ordered_fault_cache (svc_batch s) !!! p) (view_same _ _ Hv)) as (E1 & E2 & _).
  rewrite <- E1, <- E2 in Hp. exact Hp.
Qed.

Abbreviation same_space s i k vs :=
  (forall p, (i <= p < i + k)%nat -> va_space (fault_at s p) = Some vs).

Lemma ats_loop_space fuel : forall vs v outer first i (s : svc D) k s',
  good_faults s -> replay_policy (replayable (sv_gpu s)) <> UVM_PERF_FAULT_REPLAY_POLICY_BLOCK ->
  (first <= i)%nat -> va_space (fault_at s first) = Some v -> same_space s first (i - first)%nat v ->
  ats_loop fuel vs outer first i (i - first) s = ((NV_OK, k), s') -> same_space s first k v.
Proof.
  induction fuel as [|fuel IH]; intros vs v outer first i s k s' Hg Hp Hfi Hv Hs; simpl; [by intros [= <- <-]|].
  unfold mbind at 1, ST_bind at 1, gets at 1. fold (fault_at s i). fold (fault_at s (i - 1)).
  destruct (Z.ltb_spec (Z.of_nat i) (num_coalesced_faults (svc_batch s))) as [Hi|]; simpl; [|by intros [= <- <-]].
  destruct ((first <? i)%nat && _) eqn:Hsp; simpl; [by intros [= <- <-]|].
  destruct (outer <=? _); [by intros [= <- <-]|].
  assert (va_space (fault_at s i) = Some v) as Hvi.
  { destruct (decide (first = i)) as [<-|Hne]; [done|]. rewrite (proj2 (Nat.ltb_lt _ _)) in Hsp by lia. simpl in Hsp.
    apply bool_decide_eq_false in Hsp. rewrite <- (Hs (i - 1)%nat) by lia. symmetry. by apply dec_stable. }
  assert (forall n, (forall p, (i <= p < i + n)%nat -> va_space (fault_at s p) = va_space (fault_at s i)) ->
    same_space s first (i - first + n)%nat v) as Hext.
  { intros n Hn p Hp'. destruct (decide (p < i)%nat); [apply Hs; lia|]. rewrite Hn by lia. done. }
  unfold mbind at 1, ST_bind at 1, gets at 1. destruct (op_find_vma _ _ _) as [vm_end|].
  - unfold mbind, ST_bind. destruct (service_fault_batch_ats_sub vs vm_end i outer s) as [[st k1] s1] eqn:E. simpl.
    destruct (is_ok st) eqn:Hok; [|by intros [= -> _ _]]. apply is_ok_true in Hok as ->.
    destruct (Hg i ltac:(lia)) as [_ Ha].
    apply ats_sub_spec in E as (n & Hview & Hn & _ & _ & Hspace & Hrep & Hk); [|lia|unfold fault_at in Ha; lia].
    rewrite (Hk Hp). intros H p Hp'. rewrite <- (view_space s s1) by done.
    replace (i - first + n)%nat with (i + n - first)%nat in H by lia.
    eapply (IH vs v outer first (i + n)%nat s1); [by eapply good_faults_view|by rewrite Hrep|lia|..|exact H|exact Hp'].
    + by rewrite (view_space s s1).
    + intros q Hq. rewrite (view_space s s1) by done. apply (Hext n Hspace). lia.
  - unfold mbind, ST_bind. destruct (service_fault_batch_fatal_notify _ _ _ s) as [k1 s1] eqn:E.
    apply fatal_notify_one in E as ->. intros [= <- _]. apply Hext. intros q Hq. by replace q with i by lia.
Qed.

Lemma run_length_in blk e b n : forall pos p, (pos <= p < pos + run_length blk e b n pos)%nat ->
  in_block blk e (cache_at b (ordered_fault_cache b !!! p)) = true.
Proof.
  induction n as [|n IH]; intros pos p; simpl; [lia|]. destruct (in_block blk e _) eqn:E; [|lia].
  intros Hp. destruct (decide (p = pos)) as [->|]; [done|]. apply (IH (S pos)). lia.
Qed.

Lemma block_space blk first h (s : svc D) st k s' :
  service_fault_batch_block P blk first h s = ((st, k), s') -> same_space s first k (block_va_space blk).
Proof.
  unfold service_fault_batch_block, mbind, ST_bind, modify, gets. simpl.
  destruct (retry_locked _ _ _) as [[st1 k1] s1] eqn:E. intros [= <- <- <-] p Hp.
  apply retry_locked_run in E as (g & Hg & ->). simpl in Hg. change (svc_batch _) with (svc_batch s) in Hg.
  apply run_length_in in Hp. rewrite (sf_ordered _ _ Hg) in Hp. unfold in_block in Hp.
  apply andb_true_iff in Hp as [Hp%bool_decide_eq_true _].
  unfold fault_at. by destruct (same_faults_fields _ _ (ordered_fault_cache (svc_batch s) !!! p) Hg) as [<- _].
Qed.

(** A dispatch only handles faults of the VA space it is given. *)
Lemma dispatch_space vs mm i h (s : svc D) k s' :
  good_faults s -> replay_policy (replayable (sv_gpu s)) <> UVM_PERF_FAULT_REPLAY_POLICY_BLOCK ->
  va_space (fault_at s i) = Some vs ->
  service_fault_batch_dispatch P vs mm i h s = ((NV_OK, k), s') -> same_space s i k vs.
Proof.
  intros Hg Hpol Hv. unfold service_fault_batch_dispatch, mbind, ST_bind. unfold gets at 1. fold (fault_at s i).
  destruct (lookup_va_range _ _ s) as [ranges s1] eqn:E1.
  assert (s1 = s) as -> by (by injection E1 as _ <-).
  destruct (find_block _ _ _ _ s) as [[st blk] s1] eqn:E2.
  pose proof (find_block_batch _ _ _ _ _ _ _ E2) as [Hb Hr].
  assert (forall p, fault_at s1 p = fault_at s p) as Hat by (intros p; unfold fault_at; by rewrite Hb).
  assert (dispatch_no_block vs (fault_address (fault_at s i)) mm ranges.2 i st s1 = ((NV_OK, k), s') ->
    same_space s i k vs) as Hno.
  { unfold dispatch_no_block. unfold mbind at 1, ST_bind at 1, gets at 1. unfold mbind at 1, ST_bind at 1, gets at 1.
    assert (forall x y, (k ← service_fault_batch_fatal_notify i x y; mret (NV_OK, k)) s1 = ((NV_OK, k), s') ->
      same_space s i k vs) as Hfatal.
    { intros x y. unfold mbind, ST_bind. destruct (service_fault_batch_fatal_notify i x y s1) as [k1 s2] eqn:E.
      apply fatal_notify_one in E as ->. intros [= <- _] p Hp. by replace p with i by lia. }
    destruct (bool_decide _ && _); [|apply Hfatal]. destruct (op_ats_in_gmmu_region _ _ _ _); [apply Hfatal|].
    unfold service_fault_batch_ats, mbind, ST_bind, gets. intros H p Hp. rewrite <- Hat.
    rewrite <- (Nat.sub_diag i) in H. eapply (ats_loop_space _ vs vs _ i i s1); [..|exact H|exact Hp].
    - by apply (good_faults_view s); [rewrite Hb|].
    - by rewrite Hr.
    - lia.
    - by rewrite Hat.
    - intros q Hq. lia. }
  destruct st; try exact Hno. destruct blk as [blk|]; [|exact Hno].
  apply find_block_spec in E2 as (Hvs & _). intros H p Hp. rewrite <- Hat, <- Hvs. by apply (block_space _ _ _ _ _ _ _ H).
Qed.

(** ** The batch loop *)

Definition space_of (h : option held_space) : option Z := held_va_space <$> h.

(** What changing locks leaves alone. *)
Definition only_locks (s s' : svc D) : Prop :=
  svc_batch s' = svc_batch s /\ hw (sv_gpu s') = hw (sv_gpu s).

Lemma switch_va_space_spec h vs (s : svc D) st h' s' :
  gpu_held (sv_gpu s) = Some (space_of h) -> switch_va_space h vs s = ((st, h'), s') ->
  gpu_held (sv_gpu s') = Some (space_of h') /\ only_locks s s' /\
  (st = NV_OK -> space_of h' = Some vs).
Proof.
  unfold switch_va_space, gpu_held, only_locks. intros Hh. destruct h as [h|].
  - destruct (Z.eqb_spec (held_va_space h) vs) as [<-|Hne]; [by intros [= <- <- <-]|].
    unfold mbind at 1, ST_bind at 1, gets at 1. destruct (is_ok _) eqn:Hok.
    + intros [= <- <- <-]. simpl. rewrite Hh. simpl. by rewrite Z.eqb_refl.
    + intros [= <- <- <-]. split; [done|]. split; [done|]. intros E. by rewrite E in Hok.
  - intros [= <- <- <-]. simpl. by rewrite Hh.
Qed.

Lemma unlock_va_space_spec h (s : svc D) u s' :
  gpu_held (sv_gpu s) = Some (Some (held_va_space h)) -> unlock_va_space h s = (u, s') ->
  gpu_held (sv_gpu s') = Some None /\ only_locks s s'.
Proof.
  unfold unlock_va_space, gpu_held, only_locks. intros Hh [= <- <-]. simpl. rewrite Hh. by rewrite Z.eqb_refl.
Qed.

Lemma good_fault_space (s : svc D) i : good_faults s ->
  (i < Z.to_nat (num_coalesced_faults (svc_batch s)))%nat ->
  va_space (fault_at s i) = Some (default 0 (va_space (fault_at s i))).
Proof. intros Hg Hi. destruct (Hg i Hi) as [Hv _]. by destruct (va_space (fault_at s i)). Qed.

(** The body of the loop handles a fault, uses up a restart, or fails; the VA
    space it leaves held is the one it says. *)
Record step_post (i : nat) (s : svc D) (x : loop_exit) (s' : svc D) : Prop := {
  sp_faults : faults_view (svc_batch s') = faults_view (svc_batch s);
  sp_restarts : (op_restarts (hw (sv_gpu s')) <= op_restarts (hw (sv_gpu s)))%nat;
  sp_exit : match x with
            | Next j h _ => gpu_held (sv_gpu s') = Some (space_of h) /\
                ((i < j)%nat \/
                 i = j /\ (op_restarts (hw (sv_gpu s')) < op_restarts (hw (sv_gpu s)))%nat)
            | Fail st h => gpu_held (sv_gpu s') = Some (space_of h) /\ st <> NV_OK
            end;
}.

Lemma batch_dispatch_spec per vs i h hm (s : svc D) x s' :
  good_faults s -> gpu_held (sv_gpu s) = Some (Some (held_va_space h)) ->
  (i < Z.to_nat (num_coalesced_faults (svc_batch s)))%nat -> va_space (fault_at s i) = Some vs ->
  batch_dispatch P caps per vs i h hm s = (x, s') -> step_post i s x s'.
Proof.
  intros Hg Hh Hi Hvs. unfold batch_dispatch. unfold mbind at 1, ST_bind at 1.
  destruct (service_fault_batch_dispatch P vs (held_mm h) i hm s) as [[st k] s1] eqn:E1.
  pose proof E1 as [C1 C2%grows_held C3 _]%dispatch_frame.
  apply dispatch_spec in E1 as [D1 D2]; [|done|by apply Hg|done]. simpl in *.
  destruct (is_restart st) eqn:Hr.
  { unfold mbind, ST_bind. destruct (unlock_va_space h s1) as [u s2] eqn:E2.
    apply unlock_va_space_spec in E2 as (B1 & B2 & B3); [|congruence]. intros [= <- <-].
    specialize (D2 eq_refl). split; [by rewrite B2|rewrite B3; lia|]. rewrite B3. auto. }
  destruct (is_ok st) eqn:Hok; simpl.
  2:{ intros [= <- <-]. split; [done|done|]. split; [by rewrite C2|]. intros ->. done. }
  apply is_ok_true in Hok. specialize (D1 Hok).
  unfold mbind, ST_bind. destruct (replay_block caps per s1) as [st2 s2] eqn:E2.
  apply replay_block_frame in E2 as [B1 B2%grows_held B3 _]. unfold svc_batch in *. intros [= <- <-].
  assert (gpu_held (sv_gpu s2) = Some (Some (held_va_space h))) as Hh2 by congruence.
  destruct (is_ok st2) eqn:Hok2; (split; [unfold svc_batch; congruence|lia|split; [done|]]); [lia|].
  intros ->. done.
Qed.

Lemma note_fatal_view vs i b : faults_view (note_fatal_fault vs i b) = faults_view b.
Proof. unfold note_fatal_fault. by destruct (fatal_va_space b). Qed.

Lemma batch_step_spec per i h hm (s : svc D) x s' :
  good_faults s -> gpu_held (sv_gpu s) = Some (space_of h) ->
  (i < Z.to_nat (num_coalesced_faults (svc_batch s)))%nat ->
  batch_step P caps per i h hm s = (x, s') -> step_post i s x s'.
Proof.
  intros Hg Hh Hi. unfold batch_step. unfold mbind at 1, ST_bind at 1, gets at 1. fold (fault_at s i).
  pose proof (good_fault_space s i Hg Hi) as Hvs. set (vs := default 0 (va_space (fault_at s i))) in *.
  cbv zeta. unfold mbind at 1, ST_bind at 1. destruct (switch_va_space h vs s) as [[st1 h1] s1] eqn:E1.
  apply switch_va_space_spec in E1 as (A1 & [A2 A3] & A4); [|done].
  assert (forall x s2, faults_view (svc_batch s2) = faults_view (svc_batch s) -> step_post i s1 x s2 ->
    step_post i s x s2) as Hstep.
  { intros x2 s2 B1 [C1 C2 C3]. rewrite A3 in C2, C3. by split. }
  assert (st1 <> NV_OK -> (Fail st1 h1, s1) = (x, s') -> step_post i s x s') as Herr.
  { intros Hne [= <- <-]. split; [by rewrite A2|by rewrite A3|done]. }
  destruct st1; try (by apply Herr). destruct h1 as [h1|]; [|by specialize (A4 eq_refl)]. clear Herr.
  specialize (A4 eq_refl). injection A4 as Hh1. destruct (is_fatal (fault_at s i)).
  { intros [= <- <-]. split; simpl; [|by rewrite A3|split; [done|lia]].
    rewrite <- A2. apply note_fatal_view. }
  destruct (held_gpu_va_space h1); simpl.
  - assert (fault_at s1 i = fault_at s i) as Hat by (unfold fault_at; by rewrite A2).
    intros E. apply batch_dispatch_spec in E as [B1 B2 B3]; [| |done|by rewrite A2|by rewrite Hat].
    + rewrite A3 in B2, B3. split; [by rewrite B1, A2|done|done].
    + by apply (good_faults_view s); [rewrite A2|].
  - intros [= <- <-]. split; [by rewrite A2|by rewrite A3|split; [done|lia]].
Qed.

(** The loop ends within [fuel] iterations when there is one for every fault
    left and every restart. *)
Record loop_post (fuel i : nat) (s : svc D) (st : NV_STATUS) (h : option held_space) (i' : nat)
    (s' : svc D) : Prop := {
  lp_held : gpu_held (sv_gpu s') = Some (space_of h);
  lp_faults : faults_view (svc_batch s') = faults_view (svc_batch s);
  lp_end : st = NV_OK ->
    (Z.to_nat (num_coalesced_faults (svc_batch s)) - i + op_restarts (hw (sv_gpu s)) <= fuel)%nat ->
    (Z.to_nat (num_coalesced_faults (svc_batch s)) <= i')%nat;
}.

Lemma batch_loop_spec fuel : forall per i h hm (s : svc D) st h' i' s',
  good_faults s -> gpu_held (sv_gpu s) = Some (space_of h) ->
  batch_loop P caps fuel per i h hm s = ((st, h', i'), s') -> loop_post fuel i s st h' i' s'.
Proof.
  induction fuel as [|fuel IH]; intros per i h hm s st h' i' s' Hg Hh; simpl.
  { intros [= <- <- <- <-]. split; [done|done|lia]. }
  unfold mbind at 1, ST_bind at 1, gets at 1.
  destruct (Z.ltb_spec (Z.of_nat i) (num_coalesced_faults (svc_batch s))) as [Hi|Hi]; simpl.
  2:{ intros [= <- <- <- <-]. split; [done|done|lia]. }
  unfold mbind, ST_bind. destruct (batch_step P caps per i h hm s) as [x s1] eqn:E.
  apply batch_step_spec in E as [A1 A2 A3]; [|done|done|lia]. destruct x as [j h1 hm1|st1 h1].
  - intros H. destruct A3 as [A3 A4]. apply IH in H as [B1 B2 B3]; [|by eapply good_faults_view|done].
    rewrite (view_coalesced _ _ A1) in B3. split; [done|congruence|]. intros Hst Hfuel. apply B3; [done|]. lia.
  - intros [= <- <- <- <-]. destruct A3 as [A3 Hne]. split; [done|done|by intros ?%Hne].
Qed.

(** C16: When every fault has a VA space and a canonical address, the serial service
    loop never takes a VA space while it holds one and never returns with one held:
    from a state with no VA space held, every lock is released, also when the
    dispatch, the TLB invalidation or the replay fails.  It changes no fault but for
    its flags, and neither the order nor the number of the faults. *)
Theorem service_fault_batch_serial_unlocks fuel mode (s : svc D) st s' :
  good_faults s -> gpu_held (sv_gpu s) = Some None ->
  service_fault_batch_serial P caps fuel mode s = (st, s') ->
  gpu_held (sv_gpu s') = Some None /\ faults_view (svc_batch s') = faults_view (svc_batch s).
Proof.
  intros Hg Hh. unfold service_fault_batch_serial. unfold mbind at 1, ST_bind at 1, gets at 1.
  unfold mbind at 1, ST_bind at 1.
  destruct (batch_loop _ _ _ _ _ _ _ s) as [[[st1 h1] i1] s1] eqn:E.
  apply batch_loop_spec in E as [A1 A2 _]; [|done|done]. unfold end_batch. destruct h1 as [h1|]; [|by intros [= <- <-]].
  unfold mbind, ST_bind, gets. destruct (unlock_va_space h1 s1) as [u s2] eqn:E2.
  apply unlock_va_space_spec in E2 as (B1 & B2 & _); [|done]. intros [= <- <-]. by rewrite B2.
Qed.

(** ** What the loop does with every fault *)

(** One of the events of [l] tells the fault at position [p] to the performance
    heuristics. *)
Definition told (s : svc D) (l : list event) (p : nat) : Prop :=
  exists dup, notify_event (fault_at s p) dup ∈ l.

(** From [s] to [s'] the events [l] happen; the faults and the replay policy stay,
    and the fatal faults too. *)
Record advances (s : svc D) (l : list event) (s' : svc D) : Prop := {
  ad_faults : faults_view (svc_batch s') = faults_view (svc_batch s);
  ad_trace : trace (sv_gpu s') = l ++ trace (sv_gpu s);
  ad_policy : replay_policy (replayable (sv_gpu s')) = replay_policy (replayable (sv_gpu s));
  ad_fatal : fatal_kept (svc_batch s) (svc_batch s');
}.

Lemma advances_refl s : advances s [] s.
Proof. by split. Qed.

Lemma advances_trans s l s1 l' s2 : advances s l s1 -> advances s1 l' s2 -> advances s (l' ++ l) s2.
Proof. intros [] []. split; [congruence|rewrite <- app_assoc; congruence|congruence|by etrans]. Qed.

Lemma frame_advances s s' : frame s s' -> exists l, advances s l s'.
Proof.
  intros [E1 (l & E2 & _ & _ & E3) _ E4]. exists l. split; try done. exact (f_equal fst E3).
Qed.

(** Locking changes nothing else. *)
Lemma locks_advance s l s' : only_locks s s' -> trace (sv_gpu s') = l ++ trace (sv_gpu s) ->
  replayable (sv_gpu s') = replayable (sv_gpu s) -> advances s l s'.
Proof. intros [E1 _] E2 E3. split; [by rewrite E1|done|by rewrite E3|by rewrite E1]. Qed.

Lemma notify_event_view (s s' : svc D) p dup : faults_view (svc_batch s') = faults_view (svc_batch s) ->
  notify_event (fault_at s' p) dup = notify_event (fault_at s p) dup.
Proof.
  intros H. unfold fault_at. pose proof H as [= _ E _]. rewrite E. apply view_same in H.
  destruct (same_faults_fields _ _ (ordered_fault_cache (svc_batch s) !!! p) H) as (E1 & E2 & E3 & _).
  unfold notify_event. simpl in E1, E2, E3. unfold cache_at in *. simpl in E1, E2, E3. by rewrite E1, E2, E3.
Qed.

Lemma told_app s l l' p : told s l p \/ told s l' p -> told s (l ++ l') p.
Proof. intros [[d H]|[d H]]; exists d; apply elem_of_app; auto. Qed.

Lemma told_view s l s1 l' p : advances s l s1 -> told s1 l' p -> told s l' p.
Proof. intros H [d Hd]. exists d. by rewrite <- (notify_event_view s s1) by apply H. Qed.

Lemma told_notifications s first pos k p :
  (pos <= p < pos + k)%nat -> told s (notifications (svc_batch s) first pos k) p.
Proof.
  intros Hp. eexists. unfold notifications. apply list_elem_of_In. rewrite <- in_rev. apply list_elem_of_In, list_elem_of_fmap.
  exists p. split; [done|]. apply elem_of_seq. lia.
Qed.

Lemma run_length_le blk e b n : forall pos, (run_length blk e b n pos <= n)%nat.
Proof. induction n as [|n IH]; intros pos; simpl; [done|]. case_match; [|lia]. specialize (IH (S pos)). lia. Qed.

(** A number of attempts at a block, the first of which notifies. *)
Lemma retry_locked_told blk first h fuel (s : svc D) st k s' :
  retry_locked fuel (service_fault_batch_block_locked P blk first h) s = ((st, k), s') ->
  num_retries (sv_ctx s) = 0 ->
  exists l, trace (sv_gpu s') = l ++ notifications (svc_batch s) first first (block_run blk (sv_gpu s) first) ++ trace (sv_gpu s).
Proof.
  intros H Hr. destruct fuel as [|fuel]; simpl in H; unfold mbind, ST_bind in H;
    destruct (service_fault_batch_block_locked P blk first h s) as [[st1 k1] s1] eqn:E;
    apply block_locked_attempt in E as [_ <- At _ _]; rewrite Hr in At; simpl in At.
  - injection H as <- <- <-. by exists [].
  - simpl in H. case_bool_decide; [|injection H as <- <- <-; by exists []].
    apply retry_locked_frame in H as [_ (l & E & _) _ _]; [|apply block_locked_frame]. exists l. by rewrite E, At.
Qed.

(** What is proved of every routine that handles [k] faults from position [i] on. *)
Definition tells (i : nat) (s : svc D) (k : nat) (s' : svc D) : Prop :=
  (i + k <= Z.to_nat (num_coalesced_faults (svc_batch s)))%nat /\
  exists l, advances s l s' /\ forall p, (i <= p < i + k)%nat -> told s l p.

Lemma tells_frame i (s : svc D) k s' l l' : frame s s' ->
  (i + k <= Z.to_nat (num_coalesced_faults (svc_batch s)))%nat ->
  trace (sv_gpu s') = l ++ l' ++ trace (sv_gpu s) -> (forall p, (i <= p < i + k)%nat -> told s l' p) -> tells i s k s'.
Proof.
  intros (m & Hm)%frame_advances Hn Ht Hl. split; [done|]. exists m. split; [done|].
  assert (m = l ++ l') as ->.
  { apply (app_inv_tail (trace (sv_gpu s))). by rewrite <- (ad_trace _ _ _ Hm), Ht, app_assoc. }
  intros p Hp. apply told_app. right. by apply Hl.
Qed.

Lemma fatal_notify_tells i st mode (s : svc D) k s' :
  (i < Z.to_nat (num_coalesced_faults (svc_batch s)))%nat ->
  service_fault_batch_fatal_notify i st mode s = (k, s') -> tells i s k s'.
Proof.
  intros Hi E. pose proof E as Hf%fatal_notify_frame. pose proof E as ->%fatal_notify_one.
  set (dup := check_fault_entry_duplicate (fault_at s i) (cache_at (svc_batch s) <$> previous_at (svc_batch s) i)).
  apply (tells_frame i s 1 s' [] [notify_event (fault_at s i) dup] Hf); [lia| |].
  - simpl. injection E as <-. simpl. f_equal. pose proof (fatal_batch_same i st mode (svc_batch s)) as Hs.
    destruct (same_faults_fields _ _ (ordered_fault_cache (svc_batch s) !!! i) Hs) as (E1 & E2 & E3 & _).
    unfold notify_event, fault_at, svc_batch in *. by rewrite E1, E2, E3.
  - intros p Hp. replace p with i by lia. exists dup. apply list_elem_of_here.
Qed.

(** Nothing of the policies of the HMM blocks changes. *)
Definition policies_fixed : Prop := forall (g g' : uvm_gpu D) blk a,
  block_policy_end (op_block_queries g' blk) blk a = block_policy_end (op_block_queries g blk) blk a.

Lemma policies_fixed_end blk first (g : uvm_gpu D) : policies_fixed -> same_end blk first g.
Proof.
  intros Hp. right. intros g' Hs. unfold policy_end. rewrite (Hp g g'), (sf_ordered _ _ Hs).
  by destruct (same_faults_fields _ _ (ordered_fault_cache (batch g) !!! first) Hs) as (_ & -> & _).
Qed.

Lemma block_tells blk first h (s : svc D) st k s' : policies_fixed ->
  (first <= Z.to_nat (num_coalesced_faults (svc_batch s)))%nat ->
  service_fault_batch_block P blk first h s = ((st, k), s') -> tells first s k s'.
Proof.
  intros Hp Hn E. pose proof E as Hf%block_frame. revert E.
  unfold service_fault_batch_block, mbind, ST_bind, modify, gets. simpl.
  destruct (retry_locked _ _ _) as [[st1 k1] s1] eqn:E. intros [= _ <- <-].
  pose proof E as (g & Hg & Hk)%retry_locked_run. apply retry_locked_told in E as (l & E); [|done].
  simpl in E, Hg. change (svc_batch (s <| sv_ctx ::= _ |>)) with (svc_batch s) in *.
  rewrite (block_run_stable blk (sv_gpu s) g first) in Hk by (by try apply policies_fixed_end).
  subst k1. eapply (tells_frame _ _ _ _ _ _ Hf); [|exact E|].
  - pose proof (run_length_le blk (policy_end blk (sv_gpu s) first) (svc_batch s)
      (Z.to_nat (num_coalesced_faults (svc_batch s)) - first) first) as Hl.
    unfold block_run. fold (svc_batch s). lia.
  - intros p. apply told_notifications.
Qed.

Lemma tells_trans i k (s s1 : svc D) k' s2 :
  tells i s k s1 -> tells (i + k) s1 k' s2 -> tells i s (k + k') s2.
Proof.
  intros [H1 (l & A & Hl)] [H2 (l' & B & Hl')]. rewrite (view_coalesced _ _ (ad_faults _ _ _ A)) in H2.
  split; [lia|]. exists (l' ++ l). split; [by eapply advances_trans|].
  intros p Hp. apply told_app. destruct (decide (p < i + k)%nat); [right; apply Hl; lia|left].
  eapply told_view; [exact A|]. apply Hl'. lia.
Qed.

Lemma tells_none i (s : svc D) : (i <= Z.to_nat (num_coalesced_faults (svc_batch s)))%nat -> tells i s 0 s.
Proof. intros Hi. split; [lia|]. exists []. split; [apply advances_refl|]. intros p Hp. lia. Qed.

Lemma ats_sub_tells vs vm_end i outer (s : svc D) k s' :
  good_faults s -> replay_policy (replayable (sv_gpu s)) <> UVM_PERF_FAULT_REPLAY_POLICY_BLOCK ->
  (i < Z.to_nat (num_coalesced_faults (svc_batch s)))%nat ->
  service_fault_batch_ats_sub vs vm_end i outer s = ((NV_OK, k), s') -> tells i s k s'.
Proof.
  intros Hg Hp Hi E. pose proof E as Hf%ats_sub_frame. destruct (Hg i Hi) as [_ Ha].
  apply ats_sub_spec in E as (n & _ & Hn & _ & Ht & _ & _ & Hk); [|done|unfold fault_at in Ha; lia].
  rewrite (Hk Hp). apply (tells_frame i s n s' [] (notifications (svc_batch s) i i n) Hf); [lia|exact Ht|]. intros p. apply told_notifications.
Qed.

Lemma tells_state i (s : svc D) k s' : tells i s k s' -> good_faults s ->
  replay_policy (replayable (sv_gpu s)) <> UVM_PERF_FAULT_REPLAY_POLICY_BLOCK ->
  good_faults s' /\ replay_policy (replayable (sv_gpu s')) <> UVM_PERF_FAULT_REPLAY_POLICY_BLOCK /\
  num_coalesced_faults (svc_batch s') = num_coalesced_faults (svc_batch s).
Proof.
  intros [_ (l & [A1 _ A2 _] & _)] Hg Hp. split; [by eapply good_faults_view|]. split; [congruence|].
  by apply view_coalesced.
Qed.

Lemma ats_loop_tells fuel : forall vs outer first i faults (s : svc D) k s',
  good_faults s -> replay_policy (replayable (sv_gpu s)) <> UVM_PERF_FAULT_REPLAY_POLICY_BLOCK ->
  (i <= Z.to_nat (num_coalesced_faults (svc_batch s)))%nat ->
  ats_loop fuel vs outer first i faults s = ((NV_OK, k), s') -> exists d, k = (faults + d)%nat /\ tells i s d s'.
Proof.
  induction fuel as [|fuel IH]; intros vs outer first i faults s k s' Hg Hp Hi.
  { intros [= <- <-]. exists 0%nat. split; [lia|by apply tells_none]. }
  simpl. unfold mbind at 1, ST_bind at 1, gets at 1.
  destruct (Z.ltb_spec (Z.of_nat i) (num_coalesced_faults (svc_batch s))) as [Hlt|]; simpl.
  2:{ intros [= <- <-]. exists 0%nat. split; [lia|by apply tells_none]. }
  destruct (_ || _). { intros [= <- <-]. exists 0%nat. split; [lia|by apply tells_none]. }
  unfold mbind at 1, ST_bind at 1, gets at 1. destruct (op_find_vma _ _ _) as [vm_end|]; unfold mbind, ST_bind.
  - destruct (service_fault_batch_ats_sub vs vm_end i outer s) as [[st k1] s1] eqn:E. simpl.
    destruct (is_ok st) eqn:Hok; [|by intros [= -> _ _]]. apply is_ok_true in Hok as ->.
    apply ats_sub_tells in E as T; [|done|done|lia]. destruct (tells_state _ _ _ _ T Hg Hp) as (Hg1 & Hp1 & Hc).
    intros H. apply IH in H as (d & -> & T2); [|done|done|rewrite Hc; apply T].
    exists (k1 + d)%nat. split; [lia|]. by eapply tells_trans.
  - destruct (service_fault_batch_fatal_notify _ _ _ s) as [k1 s1] eqn:E. intros [= <- <-].
    exists k1. split; [done|]. eapply fatal_notify_tells; [lia|exact E].
Qed.

(** A dispatch that succeeds tells every fault it counts, and none beyond the view. *)
Lemma dispatch_tells vs mm i h (s : svc D) k s' : policies_fixed ->
  good_faults s -> replay_policy (replayable (sv_gpu s)) <> UVM_PERF_FAULT_REPLAY_POLICY_BLOCK ->
  (i < Z.to_nat (num_coalesced_faults (svc_batch s)))%nat ->
  service_fault_batch_dispatch P vs mm i h s = ((NV_OK, k), s') -> tells i s k s'.
Proof.
  intros Hpf Hg Hpol Hi. unfold service_fault_batch_dispatch, mbind, ST_bind. unfold gets at 1. fold (fault_at s i).
  destruct (lookup_va_range _ _ s) as [ranges s1] eqn:E1.
  assert (s1 = s) as -> by (by injection E1 as _ <-).
  destruct (find_block _ _ _ _ s) as [[st blk] s1] eqn:E2.
  assert (tells i s 0 s1) as T0.
  { apply find_block_frame, frame_advances in E2 as (l & Hl). split; [lia|]. exists l. split; [done|]. intros p Hp. lia. }
  destruct (tells_state _ _ _ _ T0 Hg Hpol) as (Hg1 & Hp1 & Hc).
  assert (tells i s1 k s' -> tells i s k s') as Hext.
  { intros T. apply (tells_trans i 0 s s1 k s'); [done|]. by rewrite Nat.add_0_r. }
  assert (dispatch_no_block vs (fault_address (fault_at s i)) mm ranges.2 i st s1 = ((NV_OK, k), s') ->
    tells i s k s') as Hno.
  { intros H. apply Hext. revert H.
    unfold dispatch_no_block. unfold mbind at 1, ST_bind at 1, gets at 1. unfold mbind at 1, ST_bind at 1, gets at 1.
    assert (forall x y, (k ← service_fault_batch_fatal_notify i x y; mret (NV_OK, k)) s1 = ((NV_OK, k), s') ->
      tells i s1 k s') as Hfatal.
    { intros x y. unfold mbind, ST_bind. destruct (service_fault_batch_fatal_notify i x y s1) as [k1 s2] eqn:E.
      intros [= <- <-]. eapply fatal_notify_tells; [by rewrite Hc|exact E]. }
    destruct (bool_decide _ && _); [|apply Hfatal]. destruct (op_ats_in_gmmu_region _ _ _ _); [apply Hfatal|].
    unfold service_fault_batch_ats, mbind, ST_bind, gets.
    intros (d & -> & T)%ats_loop_tells; [done|done|done|rewrite Hc; lia]. }
  destruct st; try exact Hno. destruct blk as [blk|]; [|exact Hno].
  intros H. apply Hext. eapply block_tells; [done| |exact H]. rewrite Hc. lia.
Qed.

(** The VA spaces that have a GPU VA space on the GPU. *)
  Variable gvs : Z -> bool.
  Hypothesis gpu_va_spaces_fixed : forall (g : uvm_gpu D) vs, op_gpu_va_space g vs = gvs vs.

(** What becomes of the fault at [p] from [s] to [s']: its VA space has no GPU VA
    space, or it is fatal, or it is told to the performance heuristics. *)
Definition accounted (s : svc D) (l : list event) (s' : svc D) (p : nat) : Prop :=
  gvs (default 0 (va_space (fault_at s p))) = false \/ is_fatal (fault_at s' p) = true \/ told s l p.

Lemma fatal_advances s l s' p : advances s l s' -> is_fatal (fault_at s p) = true -> is_fatal (fault_at s' p) = true.
Proof. intros [Hv _ _ Hf] H. unfold fault_at. injection Hv as _ -> _. by apply Hf. Qed.

Lemma accounted_after s l s1 l' s2 p : accounted s l s1 p -> advances s1 l' s2 -> accounted s (l' ++ l) s2 p.
Proof.
  intros [H|[H|H]] A; [by left|right; left; by eapply fatal_advances|right; right; apply told_app; by right].
Qed.

Lemma accounted_before s l s1 l' s2 p : advances s l s1 -> accounted s1 l' s2 p -> accounted s (l' ++ l) s2 p.
Proof.
  intros A [H|[H|H]]; [left|by right; left|right; right; apply told_app; left; by eapply told_view].
  by rewrite <- (view_space s s1) by apply A.
Qed.

(** What is known of the VA space held. *)
Definition held_ok (h : option held_space) : Prop := forall x, h = Some x -> held_gpu_va_space x = gvs (held_va_space x).

(** Every fault of the positions [i], ..., [j - 1] is accounted for. *)
Definition accounts (i : nat) (s : svc D) (j : nat) (s' : svc D) : Prop :=
  (i <= j <= Z.to_nat (num_coalesced_faults (svc_batch s)))%nat /\
  exists l, advances s l s' /\ forall p, (i <= p < j)%nat -> accounted s l s' p.

Lemma accounts_trans i (s : svc D) j s1 k s2 : accounts i s j s1 -> accounts j s1 k s2 -> accounts i s k s2.
Proof.
  intros [H1 (l & A & Hl)] [H2 (l' & B & Hl')]. rewrite (view_coalesced _ _ (ad_faults _ _ _ A)) in H2.
  split; [lia|]. exists (l' ++ l). split; [by eapply advances_trans|].
  intros p Hp. destruct (decide (p < j)%nat); [eapply accounted_after; [apply Hl; lia|done]|].
  eapply accounted_before; [done|]. apply Hl'. lia.
Qed.

Lemma accounts_none i (s : svc D) l s' : (i <= Z.to_nat (num_coalesced_faults (svc_batch s)))%nat ->
  advances s l s' -> accounts i s i s'.
Proof. intros Hi A. split; [lia|]. exists l. split; [done|]. intros p Hp. lia. Qed.

Lemma switch_accounts h vs (s : svc D) h' s' : held_ok h ->
  switch_va_space h vs s = ((NV_OK, h'), s') -> (exists l, advances s l s') /\ held_ok h'.
Proof.
  unfold switch_va_space. intros Hh.
  destruct h as [h|].
  - case_match; [intros [= <- <-]; split; [exists []; apply advances_refl|done]|].
    unfold mbind at 1, ST_bind at 1, gets at 1. destruct (is_ok _) eqn:Hok; [|by intros [= Hst _ _]; rewrite Hst in Hok].
    intros [= <- <-]. split; [|intros x [= <-]; simpl; apply gpu_va_spaces_fixed].
    exists [EvVaSpaceLock vs; EvVaSpaceUnlock (held_va_space h)]. by apply locks_advance.
  - intros [= <- <-]. split; [|intros x [= <-]; simpl; apply gpu_va_spaces_fixed].
    exists [EvVaSpaceLock vs]. by apply locks_advance.
Qed.

Lemma dispatch_accounts per vs i h hm (s : svc D) j h' hm' s' : policies_fixed ->
  good_faults s -> replay_policy (replayable (sv_gpu s)) <> UVM_PERF_FAULT_REPLAY_POLICY_BLOCK ->
  (i < Z.to_nat (num_coalesced_faults (svc_batch s)))%nat ->
  batch_dispatch P caps per vs i h hm s = (Next j h' hm', s') ->
  accounts i s j s' /\ (h' = None \/ h' = Some h).
Proof.
  intros Hpf Hg Hpol Hi. unfold batch_dispatch. unfold mbind at 1, ST_bind at 1.
  destruct (service_fault_batch_dispatch P vs (held_mm h) i hm s) as [[st k] s1] eqn:E1. simpl.
  destruct (is_restart st) eqn:Hr.
  { apply dispatch_frame, frame_advances in E1 as (l & A). intros [= <- <- _ <-]. split; [|by left].
    eapply (accounts_none i s _ _ ltac:(lia)), (advances_trans _ _ s1); [exact A|].
    by apply (locks_advance _ [EvVaSpaceUnlock (held_va_space h)]). }
  destruct (is_ok st) eqn:Hok; simpl; [|done]. apply is_ok_true in Hok as ->.
  apply dispatch_tells in E1 as [Hn (l & A & Hl)]; [|done..].
  unfold mbind, ST_bind. destruct (replay_block caps per s1) as [st2 s2] eqn:E2.
  apply replay_block_frame, frame_advances in E2 as (l' & B).
  destruct (is_ok st2); [|done]. intros [= <- <- _ <-]. split; [|by right].
  split; [lia|]. exists (l' ++ l). split; [by eapply advances_trans|].
  intros p Hp. eapply accounted_after; [|exact B]. right. right. apply Hl. lia.
Qed.

Lemma note_fatal_advances vs i (s : svc D) : advances s [] (upd_svc_batch (note_fatal_fault vs i) s).2.
Proof.
  split; [apply note_fatal_view|done|done|]. apply fatal_kept_same_cache. simpl.
  unfold note_fatal_fault, upd_utlb. by destruct (fatal_va_space _).
Qed.

Lemma step_accounts per i h hm (s : svc D) j h' hm' s' : policies_fixed ->
  good_faults s -> replay_policy (replayable (sv_gpu s)) <> UVM_PERF_FAULT_REPLAY_POLICY_BLOCK ->
  gpu_held (sv_gpu s) = Some (space_of h) -> held_ok h ->
  (i < Z.to_nat (num_coalesced_faults (svc_batch s)))%nat ->
  batch_step P caps per i h hm s = (Next j h' hm', s') -> accounts i s j s' /\ held_ok h'.
Proof.
  intros Hpf Hg Hpol Hh Hok Hi. unfold batch_step. unfold mbind at 1, ST_bind at 1, gets at 1. fold (fault_at s i).
  set (vs := default 0 (va_space (fault_at s i))).
  cbv zeta. unfold mbind at 1, ST_bind at 1. destruct (switch_va_space h vs s) as [[st1 h1] s1] eqn:E1.
  destruct st1; try done. destruct h1 as [h1|]; [|done].
  pose proof E1 as (_ & [B1 _] & Hsp)%switch_va_space_spec; [|done]. specialize (Hsp eq_refl). injection Hsp as Hsp.
  apply switch_accounts in E1 as [(l & A) Hok1]; [|done]. specialize (Hok1 h1 eq_refl) as Hg1.
  assert (forall s2 l2, advances s1 l2 s2 -> accounted s (l2 ++ l) s2 i -> accounts i s (S i) s2) as Hone.
  { intros s2 l2 A2 H2. split; [lia|]. exists (l2 ++ l). split; [by eapply advances_trans|].
    intros p Hp. by replace p with i by lia. }
  destruct (is_fatal (fault_at s i)) eqn:Hf.
  { intros [= <- <- _ <-]. split; [|done]. eapply Hone; [apply (note_fatal_advances vs (ordered_fault_cache (svc_batch s) !!! i) s1)|].
    right. left. eapply fatal_advances; [eapply advances_trans; [exact A|apply note_fatal_advances]|done]. }
  destruct (held_gpu_va_space h1) eqn:Hgv; simpl.
  - intros E. apply dispatch_accounts in E as [T Hh']; [|done|..].
    + split; [|by destruct Hh' as [-> | ->]]. eapply accounts_trans; [|exact T]. eapply accounts_none; [lia|exact A].
    + eapply good_faults_view; [apply A|done].
    + by rewrite (ad_policy _ _ _ A).
    + by rewrite B1.
  - intros [= <- <- _ <-]. split; [|done]. eapply Hone; [apply advances_refl|]. left. fold vs. by rewrite <- Hsp, <- Hg1.
Qed.

Lemma loop_accounts fuel : forall per i h hm (s : svc D) h' i' s', policies_fixed ->
  good_faults s -> replay_policy (replayable (sv_gpu s)) <> UVM_PERF_FAULT_REPLAY_POLICY_BLOCK ->
  gpu_held (sv_gpu s) = Some (space_of h) -> held_ok h ->
  (i <= Z.to_nat (num_coalesced_faults (svc_batch s)))%nat ->
  batch_loop P caps fuel per i h hm s = ((NV_OK, h', i'), s') -> accounts i s i' s'.
Proof.
  induction fuel as [|fuel IH]; intros per i h hm s h' i' s' Hpf Hg Hpol Hh Hok Hn.
  { intros [= _ <- <-]. by apply (accounts_none i s []), advances_refl. }
  simpl. unfold mbind at 1, ST_bind at 1, gets at 1.
  destruct (Z.ltb_spec (Z.of_nat i) (num_coalesced_faults (svc_batch s))) as [Hi|Hi]; simpl.
  2:{ intros [= _ <- <-]. by apply (accounts_none i s []), advances_refl. }
  unfold mbind, ST_bind. destruct (batch_step P caps per i h hm s) as [x s1] eqn:E.
  apply batch_step_spec in E as S; [|done|done|lia]. destruct S as [_ _ Hx]. destruct x as [j h1 hm1|st1 h1].
  - apply step_accounts in E as [T Hok1]; [|done..|lia]. pose proof T as [Hj (l & [A1 _ A2 _] & _)].
    intros H. eapply accounts_trans; [exact T|]. eapply IH; [done| | |apply Hx|done| |exact H].
    + by eapply good_faults_view.
    + congruence.
    + rewrite (view_coalesced _ _ A1). lia.
  - intros [= -> _ _ _]. by destruct Hx as [_ Hx].
Qed.

(** C7: The serial service loop terminates and skips no fault: one iteration per
    fault and per restart is enough, and when it succeeds the position it reaches
    is the end of the ordered view and every fault of the view has been told to
    the performance heuristics by one of the events of the loop, or is fatal, or
    is of a VA space that has no GPU VA space.  This is for the replay policies
    other than the per-block one, under which the ATS code skips faults (see
    [ats_block_policy_skips_faults]), and while the policies of HMM blocks and
    the registered GPU VA spaces stay the same. *)
Theorem batch_loop_complete fuel per (s : svc D) h i' s' :
  policies_fixed -> good_faults s -> gpu_held (sv_gpu s) = Some None ->
  replay_policy (replayable (sv_gpu s)) <> UVM_PERF_FAULT_REPLAY_POLICY_BLOCK ->
  (Z.to_nat (num_coalesced_faults (svc_batch s)) + op_restarts (hw (sv_gpu s)) <= fuel)%nat ->
  batch_loop P caps fuel per 0 None true s = ((NV_OK, h, i'), s') ->
  i' = Z.to_nat (num_coalesced_faults (svc_batch s)) /\
  exists l, trace (sv_gpu s') = l ++ trace (sv_gpu s) /\
    forall p, (p < Z.to_nat (num_coalesced_faults (svc_batch s)))%nat -> accounted s l s' p.
Proof.
  intros Hpf Hg Hh Hpol Hf H. pose proof H as [_ _ He]%batch_loop_spec; [|done|done]. specialize (He eq_refl ltac:(lia)).
  apply loop_accounts in H as [Hi (l & A & Hl)]; [|done..|lia]. split; [lia|].
  exists l. split; [apply A|]. intros p Hp. apply Hl. lia.
Qed.

(** With every replay policy but the per-block one, an ATS sub-batch that
    succeeds counts exactly the faults it has told the performance heuristics
    about, at least one and none beyond the view. *)
Theorem ats_sub_counts_faults vs vm_end i outer (s : svc D) k s' :
  replay_policy (replayable (sv_gpu s)) <> UVM_PERF_FAULT_REPLAY_POLICY_BLOCK ->
  (i < Z.to_nat (num_coalesced_faults (svc_batch s)))%nat -> 0 <= fault_address (fault_at s i) < 2 ^ 64 ->
  service_fault_batch_ats_sub vs vm_end i outer s = ((NV_OK, k), s') ->
  (0 < k <= Z.to_nat (num_coalesced_faults (svc_batch s)) - i)%nat /\
  trace (sv_gpu s') = notifications (svc_batch s) i i k ++ trace (sv_gpu s).
Proof.
  intros Hp Hi Ha H. apply ats_sub_spec in H as (n & _ & Hn & _ & Ht & _ & _ & Hk); [|done|done].
  by rewrite (Hk Hp).
Qed.

End Progress.

(** ** A simulated VA space layer

    Addresses below 1 GiB are managed, the others are ATS addresses, all of which
    can be serviced.  VA space 9 has no GPU VA space. *)

Definition sim_block_service (d : sim_device) : NV_STATUS * sim_device :=
  match sim_retries d, sim_restarts d with
  | S n, _ => (NV_ERR_MORE_PROCESSING_REQUIRED, d <| sim_retries := n |>)
  | O, S n => (NV_WARN_MISMATCHED_TARGET, d <| sim_restarts := n |>)
  | O, O => (NV_OK, d)
  end.

Definition sim_block (vs a : Z) : uvm_va_block_t :=
  mk_va_block (a - a mod 2 ^ 21) (a - a mod 2 ^ 21 + 2 ^ 21 - 1) vs false.

#[export] Instance sim_va_ops : VaSpaceOps sim_device := {|
  op_block_queries := fun _ _ => pass_queries;
  op_block_service := fun g _ _ => sim_block_service (hw g);
  op_block_set_cancel := fun g _ => (NV_OK, hw g);
  op_block_tracker_add := fun _ _ => NV_OK;
  op_va_range_first := fun _ _ a => if a <? 2 ^ 30 then Some (mk_va_range 0 (2 ^ 30 - 1)) else None;
  op_va_range_next := fun _ _ _ => None;
  op_block_find_create := fun g vs _ a => (NV_OK, sim_block vs a, hw g);
  op_hmm_block_find_create := fun g vs a => (NV_ERR_INVALID_ADDRESS, sim_block vs a, hw g);
  op_va_space_mm := fun _ _ => true;
  op_gpu_va_space := fun _ vs => negb (vs =? 9);
  op_ats_can_service_faults := fun _ _ _ => true;
  op_ats_in_gmmu_region := fun _ _ _ _ => false;
  op_find_vma := fun _ _ _ => Some (2 ^ 40);
  op_ats_service_faults := fun g _ base rd wr => (NV_OK, (rd ∪ wr, rd), (hw g) <| sim_ats ::= cons base |>);
  op_ats_invalidate_tlbs := fun _ => NV_OK;
|}.

#[export] Program Instance sim_va_live : VaSpaceOpsLive sim_device := {| op_retries := sim_retries |}.
Next Obligation.
  intros g blk c d. simpl. unfold sim_block_service.
  destruct (sim_retries (hw g)), (sim_restarts (hw g)); intros [= <-]; simpl; lia.
Qed.
Next Obligation.
  intros g blk c st d. simpl. unfold sim_block_service.
  destruct (sim_retries (hw g)) eqn:E, (sim_restarts (hw g)); intros [= <- <-]; simpl; lia.
Qed.
Next Obligation. done. Qed.

#[export] Program Instance sim_va_laws : VaSpaceOpsLaws sim_device := {| op_restarts := sim_restarts |}.
Next Obligation.
  intros g vs r a blk d [= <- <-]. split; [done|]. split; [done|]. simpl.
  pose proof (Z.mod_pos_bound a (2 ^ 21)). lia.
Qed.
Next Obligation. done. Qed.
Next Obligation. intros g vs a r. simpl. case Z.ltb_spec; [|done]. intros H [= <-]. simpl. lia. Qed.
Next Obligation. done. Qed.
Next Obligation.
  intros g blk c st d. simpl. unfold sim_block_service.
  destruct (sim_retries (hw g)), (sim_restarts (hw g)) eqn:E; intros [= <- <-]; simpl; rewrite ?E;
    (split; [lia|]); by try lia.
Qed.
Next Obligation. by intros g blk st d [= <- <-]. Qed.
Next Obligation. done. Qed.
Next Obligation. by intros g vs r a st blk d [= <- <- <-]. Qed.
Next Obligation. by intros g vs a st blk d [= <- <- <-]. Qed.
Next Obligation. by intros g vs base rd wr st m d [= <- <- <-]. Qed.

(** A service state for the given faults. *)
Definition sim_svc (policy : uvm_perf_fault_replay_policy_t) (retries restarts : nat)
    (b : uvm_fault_service_batch_context_t) : svc sim_device :=
  mk_svc ((sim_gpu 8 8 1 (mk_sim 0 0 [] [] retries restarts [])) <| batch := b |>
            <| replayable ::= fun r => r <| replay_policy := policy |> |>)
    empty_block_context [] ∅ ∅.

(** Two retries of the block of the first two faults. *)
Definition retry_state : svc sim_device :=
  sim_svc UVM_PERF_FAULT_REPLAY_POLICY_BATCH_FLUSH 2 0 pass_example_batch.

Definition retry_after : (NV_STATUS * nat) * svc sim_device :=
  Eval vm_compute in service_fault_batch_block default_params pass_block 0 true retry_state.

Lemma retry_after_eq : service_fault_batch_block default_params pass_block 0 true retry_state = retry_after.
Proof. vm_compute. reflexivity. Qed.

Lemma retry_state_bound : Z.of_nat (op_retries (hw (sv_gpu retry_state))) + 1 < 2 ^ 32.
Proof. vm_compute. reflexivity. Qed.

Lemma service_block_notifies_once_witness :
  retry_after.1 = (NV_OK, 2%nat) /\ sim_retries (hw (sv_gpu retry_after.2)) = 0%nat /\
  trace (sv_gpu retry_after.2) = notifications pass_example_batch 0 0 2.
Proof.
  destruct (service_block_notifies_once default_params pass_block true 0 retry_state
    retry_after.1.1 retry_after.1.2 retry_after.2 retry_state_bound retry_after_eq) as (Ht & _).
  split; [reflexivity|]. split; [reflexivity|]. rewrite Ht. vm_compute. reflexivity.
Defined.

(** The same faults, of two VA spaces, with one restart. *)
Definition serial_state : svc sim_device :=
  sim_svc UVM_PERF_FAULT_REPLAY_POLICY_BLOCK 0 1 pass_example_batch.

Definition serial_after : NV_STATUS * svc sim_device :=
  Eval vm_compute in service_fault_batch_serial default_params (sim_caps 256) 4 FAULT_SERVICE_MODE_REGULAR serial_state.

Lemma serial_after_eq :
  service_fault_batch_serial default_params (sim_caps 256) 4 FAULT_SERVICE_MODE_REGULAR serial_state = serial_after.
Proof. vm_compute. reflexivity. Qed.

Lemma serial_state_good : good_faults serial_state.
Proof.
  intros p Hp. change (p < 3)%nat in Hp. unfold fault_at.
  destruct p as [|[|[|p]]]; [| | |lia]; (split; [discriminate|]); vm_compute; split; congruence.
Qed.

Lemma service_fault_batch_serial_unlocks_witness :
  serial_after.1 = NV_OK /\
  (filter is_lock_event (trace (sv_gpu serial_after.2)) =
   [EvVaSpaceUnlock 2; EvVaSpaceLock 2; EvVaSpaceUnlock 1; EvVaSpaceLock 1; EvVaSpaceUnlock 1;
    EvVaSpaceLock 1]) /\
  gpu_held (sv_gpu serial_after.2) = Some None.
Proof.
  destruct (service_fault_batch_serial_unlocks default_params (sim_caps 256) 4 FAULT_SERVICE_MODE_REGULAR
    serial_state serial_after.1 serial_after.2 serial_state_good eq_refl serial_after_eq) as [Hh _].
  split; [reflexivity|]. split; [reflexivity|exact Hh].
Defined.

(** Faults of a managed block, of an ATS address and of a VA space with no GPU VA
    space, with one restart. *)
Definition loop_state : svc sim_device :=
  sim_svc UVM_PERF_FAULT_REPLAY_POLICY_BATCH_FLUSH 0 1
    ((example_batch
      [(example_entry 1 0 UVM_FAULT_ACCESS_TYPE_READ) <| access_type_mask := 2 |>;
       (example_entry 1 4096 UVM_FAULT_ACCESS_TYPE_WRITE) <| access_type_mask := 6 |>;
       (example_entry 2 (2 ^ 30) UVM_FAULT_ACCESS_TYPE_READ) <| access_type_mask := 2 |>;
       (example_entry 9 0 UVM_FAULT_ACCESS_TYPE_READ) <| access_type_mask := 2 |>])
     <| utlbs := [zero_utlb] |>).

Definition loop_after : (NV_STATUS * option held_space * nat) * svc sim_device :=
  Eval vm_compute in batch_loop default_params (sim_caps 256) 5 false 0 None true loop_state.

Lemma loop_after_eq : batch_loop default_params (sim_caps 256) 5 false 0 None true loop_state = loop_after.
Proof. vm_compute. reflexivity. Qed.

Lemma loop_state_good : good_faults loop_state.
Proof.
  intros p Hp. change (p < 4)%nat in Hp. unfold fault_at.
  destruct p as [|[|[|[|p]]]]; [| | | |lia]; (split; [discriminate|]); vm_compute; split; congruence.
Qed.

Lemma loop_fuel_enough :
  (Z.to_nat (num_coalesced_faults (svc_batch loop_state)) + op_restarts (hw (sv_gpu loop_state)) <= 5)%nat.
Proof. vm_compute. lia. Qed.

Lemma sim_gpu_va_spaces (g : uvm_gpu sim_device) vs : op_gpu_va_space g vs = negb (vs =? 9).
Proof. reflexivity. Qed.

Lemma sim_policies_fixed : policies_fixed (D := sim_device).
Proof. done. Qed.

Lemma batch_loop_complete_witness :
  loop_after.1.2 = 4%nat /\ loop_after.1.1.1 = NV_OK /\
  exists dup, EvFaultNotify 2 (2 ^ 30) UVM_FAULT_ACCESS_TYPE_READ dup ∈ trace (sv_gpu loop_after.2).
Proof.
  destruct (batch_loop_complete default_params (sim_caps 256) (fun vs => negb (vs =? 9)) sim_gpu_va_spaces
    5 false loop_state loop_after.1.1.2 loop_after.1.2 loop_after.2 sim_policies_fixed loop_state_good eq_refl
    (fun H => ltac:(discriminate H)) loop_fuel_enough loop_after_eq) as (Hi & l & Ht & Hl).
  split; [exact Hi|]. split; [reflexivity|].
  destruct (Hl 2%nat) as [H|[H|[dup H]]]; [vm_compute; lia|discriminate H|discriminate H|].
  exists dup. rewrite Ht. apply elem_of_app. left. exact H.
Defined.

(** Three ATS faults in two 2 MiB regions. *)
Definition ats_batch : uvm_fault_service_batch_context_t :=
  (example_batch
    [(example_entry 1 (2 ^ 30) UVM_FAULT_ACCESS_TYPE_READ) <| access_type_mask := 2 |>;
     (example_entry 1 (2 ^ 30 + 2 ^ 21) UVM_FAULT_ACCESS_TYPE_READ) <| access_type_mask := 2 |>;
     (example_entry 1 (2 ^ 30 + 2 ^ 21 + 4096) UVM_FAULT_ACCESS_TYPE_READ) <| access_type_mask := 2 |>])
  <| utlbs := [zero_utlb] |>.

Definition ats_state (policy : uvm_perf_fault_replay_policy_t) : svc sim_device := sim_svc policy 0 0 ats_batch.

Definition ats_after : (NV_STATUS * nat) * svc sim_device :=
  Eval vm_compute in
    service_fault_batch_ats_sub 1 (2 ^ 40) 0 (2 ^ 40) (ats_state UVM_PERF_FAULT_REPLAY_POLICY_BATCH_FLUSH).

Lemma ats_after_eq :
  service_fault_batch_ats_sub 1 (2 ^ 40) 0 (2 ^ 40) (ats_state UVM_PERF_FAULT_REPLAY_POLICY_BATCH_FLUSH) = ats_after.
Proof. vm_compute. reflexivity. Qed.

Lemma ats_state_first :
  let s := ats_state UVM_PERF_FAULT_REPLAY_POLICY_BATCH_FLUSH in
  (0 < Z.to_nat (num_coalesced_faults (svc_batch s)))%nat /\ 0 <= fault_address (fault_at s 0) < 2 ^ 64.
Proof. split; [vm_compute; lia|]. vm_compute. split; congruence. Qed.

Lemma ats_sub_counts_faults_witness :
  ats_after.1 = (NV_OK, 3%nat) /\ sim_ats (hw (sv_gpu ats_after.2)) = [2 ^ 30 + 2 ^ 21; 2 ^ 30] /\
  trace (sv_gpu ats_after.2) = notifications ats_batch 0 0 3.
Proof.
  split; [reflexivity|]. split; [reflexivity|].
  destruct (ats_sub_counts_faults 1 (2 ^ 40) 0 (2 ^ 40)
    (ats_state UVM_PERF_FAULT_REPLAY_POLICY_BATCH_FLUSH) 3 ats_after.2 ltac:(discriminate)
    (proj1 ats_state_first) (proj2 ats_state_first) ats_after_eq) as [_ Ht].
  rewrite Ht. reflexivity.
Defined.

(** With the per-block replay policy the first region is serviced twice and
    its faults are counted twice: all three faults are reported as handled
    although the region of the last two is never serviced. *)
Theorem ats_block_policy_skips_faults :
  exists s', service_fault_batch_ats 1 0 (2 ^ 40) (ats_state UVM_PERF_FAULT_REPLAY_POLICY_BLOCK) = ((NV_OK, 3%nat), s') /\
    sim_ats (hw (sv_gpu s')) = [2 ^ 30; 2 ^ 30] /\
    trace (sv_gpu s') = notifications ats_batch 0 0 2.
Proof.
  exists (service_fault_batch_ats 1 0 (2 ^ 40) (ats_state UVM_PERF_FAULT_REPLAY_POLICY_BLOCK)).2.
  split; [vm_compute; reflexivity|]. split; vm_compute; reflexivity.
Qed.
