(* ===== verification/Cancel.v ===== *)
(** * Cancelling faults

    Cancelling all the faults of a batch, cancelling precisely by virtual address
    or by uTLB, and servicing the faults of the VA space that has fatal ones
    ([uvm_gpu_replayable_faults.c], lines 3427-3640 and 4594-5100). *)

From stdpp Require Import gmap.
From S2P Require Import Prelude FaultTypes Gpu SimDevice Sorting FaultBuffer Frames Predictor Fetch Coalesce Channels Preprocess Stale Service Dispatch.

Local Open Scope Z_scope.

(** ** Searching the fault cache by uTLB *)

Definition utlb_of (b : uvm_fault_service_batch_context_t) (i : nat) : Z :=
  utlb_id (fault_source (cache_at b i)).

Definition is_first_fault_in_utlb (b : uvm_fault_service_batch_context_t) (i : nat) : bool :=
  forallb (fun k => negb (utlb_of b k =? utlb_of b i)) (seq 0 i).

(** The numbers of fatal and of other faults on a page in a uTLB. *)
Definition faults_for_page_in_utlb (b : uvm_fault_service_batch_context_t) (vs : option Z)
    (addr utlb : Z) : Z * Z :=
  foldl (fun '(fatal_faults, non_fatal_faults) k =>
      let e := cache_at b k in
      if (utlb_of b k =? utlb) && bool_decide (va_space e = vs) && (fault_address e =? addr)
      then if is_fatal e then (u32 (fatal_faults + 1), non_fatal_faults)
           else (fatal_faults, u32 (non_fatal_faults + 1))
      else (fatal_faults, non_fatal_faults))
    (0, 0) (seq 0 (Z.to_nat (num_cached_faults b))).

(** Whether some page at [start] or after it has faults that are not fatal only. *)
Definition no_fatal_pages_in_utlb (b : uvm_fault_service_batch_context_t) (start : nat) (utlb : Z) : bool :=
  existsb (fun k =>
      if utlb_of b k =? utlb then
        let '(fatal_faults, non_fatal_faults) :=
          faults_for_page_in_utlb b (va_space (cache_at b k)) (fault_address (cache_at b k)) utlb in
        (0 <? non_fatal_faults) && (fatal_faults =? 0)
      else false)
    (seq start (Z.to_nat (num_cached_faults b) - start)).

(** The first fatal fault of the uTLB, or the number of cached faults. *)
Definition find_fatal_fault_in_utlb (b : uvm_fault_service_batch_context_t) (utlb : Z) : nat :=
  let n := Z.to_nat (num_cached_faults b) in
  default n (head (filter (fun k => is_fatal (cache_at b k) && (utlb_of b k =? utlb) = true) (seq 0 n))).

Definition is_fatal_fault_in_buffer (b : uvm_fault_service_batch_context_t)
    (fault : uvm_fault_buffer_entry_t) : bool :=
  existsb (fun k =>
      let e := cache_at b k in
      (cmp_fault_instance_ptr e fault =? 0) && (fault_address e =? fault_address fault) &&
      bool_decide (fault_access_type e = fault_access_type fault) &&
      (utlb_id (fault_source e) =? utlb_id (fault_source fault)))
    (seq 0 (Z.to_nat (num_cached_faults b))).

(** The counters every batch starts from. *)
Definition reset_batch_counters (b : uvm_fault_service_batch_context_t) : uvm_fault_service_batch_context_t :=
  b <| num_invalid_prefetch_faults := 0 |> <| num_duplicate_faults := 0 |> <| stale := zero_stale |>
    <| pred := zero_pred |> <| num_replays := 0 |> <| fatal_va_space := None |>
    <| has_throttled_faults := false |>.

(** An address no fault has: [(NvU64)-1]. *)
Definition no_address : Z := 2 ^ 64 - 1.

Section Cancel.
  Context {D : Type} `{Hal : FaultBufferHal D} `{!FaultBufferHalLive D} `{Ops : GpuOps D}
    `{Va : VaSpaceOps D} `{!VaSpaceOpsLive D} `{!VaSpaceOpsLaws D} `{KernelSort}.
  Variable P : module_params.
  Variable caps : gpu_caps.
  Variable channels_at : uvm_gpu D -> channel_tables.

  Abbreviation M := (ST (uvm_gpu D)).
  Abbreviation N := (ST (svc D)).

Definition down_read (vs : option Z) : M unit := emit (EvVaSpaceLock (default 0 vs)).
Definition up_read (vs : option Z) : M unit := emit (EvVaSpaceUnlock (default 0 vs)).

(** [uvm_tracker_wait(&batch_context->tracker)] empties the tracker, whatever it returns. *)
Definition batch_tracker_wait : M NV_STATUS :=
  st ← gets op_tracker_wait;
  upd_batch (fun b => b <| batch_tracker := [] |>) ;;
  mret st.

(** ** Cancelling a uTLB *)

Definition record_fatal_fault_helper (e : uvm_fault_buffer_entry_t) (reason : UvmEventFatalReason) : M unit :=
  down_read (va_space e) ;; emit (EvFatalFault e reason) ;; up_read (va_space e).

(** The body of the loop of [try_to_cancel_utlbs]. *)
Definition try_to_cancel_utlb (i : nat) : M NV_STATUS :=
  b ← gets batch;
  let e := cache_at b i in
  let src := fault_source e in
  let utlb := utlb_at b (utlb_id src) in
  if negb (is_fatal e) || negb (in_lockdown utlb) || cancelled utlb then mret NV_OK
  else if is_first_fault_in_utlb b i && negb (no_fatal_pages_in_utlb b (S i) (utlb_id src)) then
    record_fatal_fault_helper e (fatal_reason e) ;;
    try (push_cancel_on_gpu_targeted (instance_ptr e) (gpc_id src) (client_id src)) (
    upd_batch (upd_utlb (utlb_id src) (fun t => t <| cancelled := true |>)) ;;
    mret NV_OK)
  else mret NV_OK.

Definition try_to_cancel_utlbs : M NV_STATUS :=
  b ← gets batch; for_status (seq 0 (Z.to_nat (num_cached_faults b))) try_to_cancel_utlb.

(** ** Cancelling every fault *)

(** A fault that was not marked fatal is cancelled for the given reason. *)
Definition cancel_entry (reason : UvmEventFatalReason) (cur : nat) : M NV_STATUS :=
  e ← gets (fun g => cache_at (batch g) cur);
  when (negb (is_fatal e)) (upd_batch (upd_entry cur (fun e => e <| fatal_reason := reason |>))) ;;
  cancel_fault_precise_va cur (if is_fatal e then cancel_va_mode e else UVM_FAULT_CANCEL_VA_MODE_ALL).

(** The faults of one VA space from position [i] on, at most [n]. *)
Fixpoint cancel_va_space (n : nat) (vs : option Z) (skip_va_space : bool) (reason : UvmEventFatalReason)
    (i : nat) : M (NV_STATUS * nat) :=
  match n with
  | O => mret (NV_OK, i)
  | S n =>
      b ← gets batch;
      let cur := ordered_fault_cache b !!! i in
      let e := cache_at b cur in
      if (Z.of_nat i <? num_coalesced_faults b) && bool_decide (va_space e = vs) then
        if skip_va_space then cancel_va_space n vs skip_va_space reason (S i)
        else
          st ← cancel_entry reason cur;
          if is_ok st then cancel_va_space n vs skip_va_space reason (S i) else mret (st, i)
      else mret (NV_OK, i)
  end.

(** The loop over the VA spaces; [fuel] bounds their number. *)
Fixpoint cancel_all_loop (fuel : nat) (reason : UvmEventFatalReason) (i : nat) : M NV_STATUS :=
  match fuel with
  | O => mret NV_OK
  | S fuel =>
      b ← gets batch;
      if Z.of_nat i <? num_coalesced_faults b then
        let vs := va_space (cache_at b (ordered_fault_cache b !!! i)) in
        down_read vs ;;
        gvs ← gets (fun g => op_gpu_va_space g (default 0 vs));
        r ← cancel_va_space (Z.to_nat (num_coalesced_faults b) - i) vs (negb gvs) reason i;
        up_read vs ;;
        if is_ok r.1 then cancel_all_loop fuel reason r.2 else mret r.1
      else mret NV_OK
  end.

(** The first error is reported. *)
Definition cancel_faults_all (reason : UvmEventFatalReason) : M NV_STATUS :=
  b ← gets batch;
  status ← cancel_all_loop (Z.to_nat (num_coalesced_faults b)) reason 0;
  fault_status ← fault_buffer_flush_locked caps UVM_GPU_BUFFER_FLUSH_MODE_UPDATE_PUT
                   UVM_FAULT_REPLAY_TYPE_START true;
  mret (if is_ok status then fault_status else status).

(** The fault at [i] and the ones merged into it are reported, then its instance
    pointer is cancelled. *)
Definition cancel_fault_tlb (reason : UvmEventFatalReason) (i : nat) : M NV_STATUS :=
  b ← gets batch;
  let e := cache_at b i in
  down_read (va_space e) ;;
  emit (EvFatalFault e reason) ;;
  for_each (merged_instances (fault_cache b) i) (fun k => emit (EvFatalFault (cache_at b k) reason)) ;;
  up_read (va_space e) ;;
  push_cancel_on_gpu_global (instance_ptr e).

Definition cancel_fault_batch_tlb (reason : UvmEventFatalReason) : M unit :=
  b ← gets batch;
  for_status (take (Z.to_nat (num_coalesced_faults b)) (ordered_fault_cache b)) (cancel_fault_tlb reason) ;;
  mret tt.

Definition cancel_fault_batch (reason : UvmEventFatalReason) : M unit :=
  if fault_cancel_va_supported caps then cancel_faults_all reason ;; mret tt
  else cancel_fault_batch_tlb reason.

(** ** Cancelling precisely by virtual address *)

(** The faults just dispatched that turned out to be fatal; [n] are left.  On an
    error the loop is left at the fault that failed. *)
Fixpoint cancel_dispatched (n i : nat) : N (NV_STATUS * nat) :=
  match n with
  | O => mret (NV_OK, i)
  | S n =>
      b ← gets svc_batch;
      let cur := ordered_fault_cache b !!! i in
      st ← (if is_fatal (cache_at b cur)
            then on_gpu (cancel_fault_precise_va cur (cancel_va_mode (cache_at b cur)))
            else mret NV_OK);
      if is_ok st then cancel_dispatched n (S i) else mret (st, i)
  end.

(** How an iteration of the loop over the target VA space ends: with the status
    of the function, or with the status and the position the loop goes on with. *)
Inductive target_exit : Type :=
| Leave (status : NV_STATUS)
| Go (status : NV_STATUS) (i : nat).

Definition cancel_target_step (vs : Z) (mm : bool) (i : nat) : N target_exit :=
  b ← gets svc_batch;
  let cur := ordered_fault_cache b !!! i in
  if is_fatal (cache_at b cur) then
    st ← on_gpu (cancel_fault_precise_va cur UVM_FAULT_CANCEL_VA_MODE_ALL);
    mret (if is_ok st then Go NV_OK (S i) else Leave st)
  else
    r ← service_fault_batch_dispatch P vs mm i true;
    if is_restart r.1 then mret (Leave NV_OK)
    else if negb (is_ok r.1) then mret (Leave r.1)
    else
      st ← gets (fun s => op_ats_invalidate_tlbs (sv_gpu s));
      if negb (is_ok st) then mret (Leave st)
      else
        c ← cancel_dispatched r.2 i;
        mret (Go c.1 c.2).

(** The loop over the faults of the target VA space.  An error of
    [cancel_dispatched] only ends the inner loop: the status is lost unless this
    one ends too. *)
Fixpoint cancel_target_loop (fuel : nat) (vs : Z) (mm : bool) (status : NV_STATUS) (i : nat) : N NV_STATUS :=
  match fuel with
  | O => mret status
  | S fuel =>
      b ← gets svc_batch;
      let e := cache_at b (ordered_fault_cache b !!! i) in
      if (Z.of_nat i <? num_coalesced_faults b) && bool_decide (va_space e = Some vs) then
        x ← cancel_target_step vs mm i;
        match x with
        | Leave status => mret status
        | Go status i => cancel_target_loop fuel vs mm status i
        end
      else mret status
  end.

(** The position of the first fault of the VA space. *)
Definition find_target (b : uvm_fault_service_batch_context_t) (vs : Z) : nat :=
  let n := Z.to_nat (num_coalesced_faults b) in
  default n (head (filter (fun p => va_space (cache_at b (ordered_fault_cache b !!! p)) = Some vs) (seq 0 n))).

(** Fetch and preprocess the faults that came back, then service and cancel
    those of the VA space. *)
Definition for_cancel_refetch (vs : Z) (mm : bool) : N NV_STATUS :=
  upd_svc_batch reset_batch_counters ;;
  try (on_gpu (fetch_fault_buffer_entries P caps FAULT_FETCH_MODE_ALL)) (
  n ← gets (fun s => num_cached_faults (svc_batch s));
  if n =? 0 then mret NV_OK
  else
    upd_svc_batch (fun b => b <| batch_id ::= fun n => u32 (n + 1) |>) ;;
    st ← on_gpu (preprocess_fault_batch P caps channels_at);
    if bool_decide (st = NV_WARN_MORE_PROCESSING_REQUIRED) then mret NV_OK
    else if negb (is_ok st) then mret st
    else
      b ← gets svc_batch;
      cancel_target_loop (2 * Z.to_nat (num_coalesced_faults b)) vs mm NV_OK (find_target b vs)).

(** The code between the lock and the label [done]. *)
Definition for_cancel_locked (vs : Z) (mm : bool) : N NV_STATUS :=
  try (on_gpu (fault_buffer_flush_locked caps UVM_GPU_BUFFER_FLUSH_MODE_WAIT_UPDATE_PUT
                 UVM_FAULT_REPLAY_TYPE_START true)) (
  try (on_gpu replay_tracker_wait) (
  try (on_gpu (hw_fault_buffer_flush_locked caps true)) (
  gvs ← gets (fun s => op_gpu_va_space (sv_gpu s) vs);
  if negb gvs then mret NV_OK else for_cancel_refetch vs mm))).

Definition service_fault_batch_for_cancel : N NV_STATUS :=
  vs ← gets (fun s => default 0 (fatal_va_space (svc_batch s)));
  mm ← gets (fun s => op_va_space_mm (sv_gpu s) vs);
  on_gpu (down_read (Some vs)) ;;
  status ← for_cancel_locked vs mm;
  on_gpu (up_read (Some vs)) ;;
  if is_ok status then
    on_gpu (fault_buffer_flush_locked caps UVM_GPU_BUFFER_FLUSH_MODE_UPDATE_PUT
              UVM_FAULT_REPLAY_TYPE_START true)
  else mret status.

(** ** Cancelling precisely by uTLB *)

(** Step 2: remember a fatal fault per uTLB. *)
Definition record_fatal_faults (first : bool) (b : uvm_fault_service_batch_context_t)
  : uvm_fault_service_batch_context_t :=
  b <| utlbs ::= imap (fun u t =>
    if Z.of_nat u <=? max_utlb_id b then
      if negb first && has_fatal_faults t
      then t <| prev_fatal_fault := cache_at b (find_fatal_fault_in_utlb b (Z.of_nat u)) |>
      else t <| prev_fatal_fault ::= fun e => e <| fault_address := no_address |> |>
    else t) |>.

(** Step 6: which uTLBs are in lockdown. *)
Definition check_lockdown (b : uvm_fault_service_batch_context_t) : uvm_fault_service_batch_context_t :=
  b <| utlbs ::= imap (fun u t =>
    if Z.of_nat u <=? max_utlb_id b then
      t <| in_lockdown := negb (fault_address (prev_fatal_fault t) =? no_address) &&
                          is_fatal_fault_in_buffer b (prev_fatal_fault t) |>
        <| cancelled := false |>
    else t) |>.

(** [service_fault_batch] in cancel mode, with an iteration for every fault and
    restart. *)
Definition service_fault_batch_cancel : N NV_STATUS :=
  fuel ← gets (fun s => (Z.to_nat (num_coalesced_faults (svc_batch s)) + op_restarts (hw (sv_gpu s)))%nat);
  service_fault_batch_serial P caps fuel FAULT_SERVICE_MODE_CANCEL.

(** One iteration: [None] goes on with the next one. *)
Definition precise_tlb_step (first : bool) : N (option NV_STATUS) :=
  upd_svc_batch (record_fatal_faults first) ;;
  st ← try (on_gpu (fault_buffer_flush_locked caps UVM_GPU_BUFFER_FLUSH_MODE_UPDATE_PUT
                      UVM_FAULT_REPLAY_TYPE_START_ACK_ALL true)) (
       try (on_gpu replay_tracker_wait) (
       upd_svc_batch reset_batch_counters ;;
       on_gpu (fetch_fault_buffer_entries P caps FAULT_FETCH_MODE_ALL)));
  if negb (is_ok st) then mret (Some st)
  else
    upd_svc_batch (fun b => b <| batch_id ::= fun n => u32 (n + 1) |>) ;;
    n ← gets (fun s => num_cached_faults (svc_batch s));
    if n =? 0 then mret (Some NV_OK)
    else
      upd_svc_batch check_lockdown ;;
      st ← on_gpu (preprocess_fault_batch P caps channels_at);
      if bool_decide (st = NV_WARN_MORE_PROCESSING_REQUIRED) then mret None
      else if negb (is_ok st) then mret (Some st)
      else
        st ← service_fault_batch_cancel;
        if bool_decide (st = NV_ERR_NO_MEMORY) then mret None
        else if negb (is_ok st) then mret (Some st)
        else
          fatal ← gets (fun s => fatal_va_space (svc_batch s));
          if bool_decide (fatal = None) then mret (Some NV_OK)
          else on_gpu try_to_cancel_utlbs ;; mret None.

(** [while (1)]; [fuel] iterations at most. *)
Fixpoint precise_tlb_loop (fuel : nat) (first : bool) : N NV_STATUS :=
  match fuel with
  | O => mret NV_OK
  | S fuel =>
      x ← precise_tlb_step first;
      match x with
      | Some st => mret st
      | None => precise_tlb_loop fuel false
      end
  end.

Definition cancel_faults_precise_tlb (fuel : nat) : N NV_STATUS :=
  en ← gets (fun s => prefetch_faults_enabled (sv_gpu s));
  when en (on_gpu (set_prefetch_faults false)) ;;
  status ← precise_tlb_loop fuel true;
  en ← gets (fun s => prefetch_faults_enabled (sv_gpu s));
  when en (on_gpu (set_prefetch_faults true)) ;;
  status ← (if is_ok status then on_gpu (push_replay_on_gpu caps UVM_FAULT_REPLAY_TYPE_START true)
            else mret status);
  tracker_status ← on_gpu batch_tracker_wait;
  mret (if is_ok status then tracker_status else status).

Definition cancel_faults_precise (fuel : nat) : N NV_STATUS :=
  if fault_cancel_va_supported caps then service_fault_batch_for_cancel
  else cancel_faults_precise_tlb fuel.

End Cancel.

(** ** Cancelling every fault *)

(** What a cancel by virtual address names. *)
Definition cancel_key : Type := option Z * Z * uvm_fault_cancel_va_mode_t.

Definition cancel_event (e : event) : option cancel_key :=
  match e with EvCancelVa _ e mode => Some (va_space e, fault_address e, mode) | _ => None end.

Definition cancels (t : list event) : list cancel_key := omap cancel_event t.

Lemma grows_cancels {D} (g g' : uvm_gpu D) : grows g g' -> cancels (trace g') = cancels (trace g).
Proof.
  intros (l & -> & Hl & _ & _). unfold cancels. rewrite omap_app.
  induction Hl as [|e l He Hl IH]; [done|]. simpl. by destruct e.
Qed.

(** The part of a fault that decides its cancel. *)
Definition cancel_part (e : uvm_fault_buffer_entry_t) : option Z * Z * bool * uvm_fault_cancel_va_mode_t :=
  (va_space e, fault_address e, is_fatal e, cancel_va_mode e).

Definition cancel_of (b : uvm_fault_service_batch_context_t) (i : nat) : cancel_key :=
  let e := cache_at b i in
  (va_space e, fault_address e, if is_fatal e then cancel_va_mode e else UVM_FAULT_CANCEL_VA_MODE_ALL).

Record same_cancels (b b' : uvm_fault_service_batch_context_t) : Prop := {
  sc_cache : cancel_part <$> fault_cache b' = cancel_part <$> fault_cache b;
  sc_ordered : ordered_fault_cache b' = ordered_fault_cache b;
  sc_coalesced : num_coalesced_faults b' = num_coalesced_faults b;
}.

#[export] Instance same_cancels_preorder : PreOrder same_cancels.
Proof. split; [by split|]. intros a b c [] []. split; congruence. Qed.

Lemma same_cancels_at b b' i : same_cancels b b' -> cancel_part (cache_at b' i) = cancel_part (cache_at b i).
Proof.
  intros [Hc _ _]. unfold cache_at. rewrite !list_lookup_total_alt.
  assert (cancel_part <$> (fault_cache b' !! i) = cancel_part <$> (fault_cache b !! i)) as H
    by (rewrite <- !list_lookup_fmap; by rewrite Hc).
  destruct (fault_cache b' !! i), (fault_cache b !! i); simpl in *; congruence.
Qed.

Lemma same_cancels_of b b' i : same_cancels b b' -> cancel_of b' i = cancel_of b i.
Proof. intros [= E1 E2 E3 E4]%(same_cancels_at _ _ i). unfold cancel_of. by rewrite E1, E2, E3, E4. Qed.

Lemma same_cancels_upd i f b :
  (forall e, cancel_part (f e) = cancel_part e) -> same_cancels b (upd_entry i f b).
Proof.
  intros Hf. split; try done. simpl.
  rewrite (list_fmap_alter cancel_part _ (fun e => e)) by (apply Forall_true; done). by rewrite list_alter_id.
Qed.

(** A page address, as faults have. *)
Definition page_address (a : Z) : Prop := a mod 4096 = 0 /\ 0 <= a < 2 ^ 64 - 4096.

(** The address of an entry is moved by 4K and back. *)
Lemma cancel_address a : page_address a -> UVM_PAGE_ALIGN_DOWN (u64 (u64 (a + UVM_PAGE_SIZE_4K) - 1)) = a.
Proof.
  intros [Hm Hr]. unfold UVM_PAGE_SIZE_4K, UVM_PAGE_ALIGN_DOWN, wrap.
  rewrite (Z.mod_small (a + 4096)), Z.mod_small by lia. change PAGE_SIZE with (2 ^ 12).
  rewrite align_down_spec by lia. change (2 ^ 12) with 4096.
  replace (a + 4096 - 1) with (4095 + (a / 4096) * 4096) by (pose proof (Z.div_mod a 4096); lia).
  rewrite Z.mod_add by lia. change (4095 mod 4096) with 4095. pose proof (Z.div_mod a 4096). lia.
Qed.

Lemma view_positions (o : list nat) n : (n <= length o)%nat -> (fun p => o !!! p) <$> seq 0 n = take n o.
Proof.
  intros Hn. apply list_eq. intros k. rewrite list_lookup_fmap.
  destruct (decide (k < n)%nat).
  - rewrite lookup_seq_lt by done. rewrite lookup_take_lt by done. simpl.
    symmetry. apply list_lookup_lookup_total_lt. lia.
  - rewrite lookup_seq_ge, lookup_take_ge by lia. done.
Qed.

Section CancelAll.
  Context {D : Type} `{Hal : FaultBufferHal D} `{!FaultBufferHalLive D} `{Ops : GpuOps D} `{Va : VaSpaceOps D}.
  Variable caps : gpu_caps.

(** The pushes of the cancels succeed. *)
Definition pushes_ok : Prop :=
  forall g : uvm_gpu D, op_push_begin_acquire g = NV_OK /\ op_push_end_and_wait g = NV_OK.

(** A precise cancel that fails has not been pushed, or has and was not waited for. *)
Lemma cancel_precise_spec i mode (g : uvm_gpu D) st g' :
  page_address (fault_address (cache_at (batch g) i)) -> (i < length (fault_cache (batch g)))%nat ->
  cancel_fault_precise_va i mode g = (st, g') ->
  same_cancels (batch g) (batch g') /\ (pushes_ok -> st = NV_OK) /\
  let fatal := EvFatalFault (cache_at (batch g) i) (fatal_reason (cache_at (batch g) i)) in
  (st <> NV_OK /\ trace g' = fatal :: trace g \/
   exists pdb, trace g' = EvCancelVa pdb (cache_at (batch g) i) mode :: fatal :: trace g).
Proof.
  intros Ha Hi. unfold cancel_fault_precise_va, try, uvm_push_begin_acquire, uvm_push_end_and_wait.
  change (Z.to_nat (PAGE_SIZE / UVM_PAGE_SIZE_4K)) with 1%nat.
  unfold mbind, ST_bind, gets, emit, modify. simpl.
  destruct (is_ok (op_push_begin_acquire _)) eqn:Hb; simpl; rewrite Hb; simpl.
  2:{ intros [= <- <-]. split; [done|]. split; [intros Hp; by rewrite (proj1 (Hp _)) in Hb|].
      left. split; [|done]. intros E. by rewrite E in Hb. }
  intros [= <- <-]. split; [|split; [intros Hp; apply Hp|right; by eexists]].
  split; [|done|done]. simpl. apply list_eq. intros k. rewrite !list_lookup_fmap. destruct (decide (k = i)) as [->|Hne].
  - rewrite !list_lookup_alter_eq. destruct (lookup_lt_is_Some_2 _ _ Hi) as [e He]. rewrite He. simpl.
    unfold cache_at in Ha. rewrite (list_lookup_total_correct _ _ _ He) in Ha.
    unfold cancel_part. simpl. by rewrite cancel_address.
  - by rewrite !list_lookup_alter_ne.
Qed.

(** The VA spaces that still have a GPU VA space do not change meanwhile. *)
  Variable live : Z -> bool.
  Hypothesis live_spec : forall (g : uvm_gpu D) vs, op_gpu_va_space g vs = live vs.

Definition is_live (b : uvm_fault_service_batch_context_t) (i : nat) : bool :=
  live (default 0 (va_space (cache_at b i))).

(** The cancels for [k] positions of the view from [p] on. *)
Definition targets (b : uvm_fault_service_batch_context_t) (p k : nat) : list cancel_key :=
  cancel_of b <$> filter (fun i => is_live b i = true)
    ((fun p => ordered_fault_cache b !!! p) <$> seq p k).

Definition cancellable (b : uvm_fault_service_batch_context_t) : Prop :=
  forall p, (p < Z.to_nat (num_coalesced_faults b))%nat ->
    let i := ordered_fault_cache b !!! p in
    (i < length (fault_cache b))%nat /\ page_address (fault_address (cache_at b i)).

Lemma same_cancels_live b b' i : same_cancels b b' -> is_live b' i = is_live b i.
Proof. intros [= E _ _ _]%(same_cancels_at _ _ i). unfold is_live. by rewrite E. Qed.

Lemma same_cancels_targets b b' p k : same_cancels b b' -> targets b' p k = targets b p k.
Proof.
  intros H. unfold targets. rewrite (sc_ordered _ _ H).
  rewrite (list_filter_iff _ (fun i => is_live b i = true)) by (intros i; by rewrite (same_cancels_live _ _ i H)).
  apply list_fmap_ext. intros j x _. by apply same_cancels_of.
Qed.

Lemma same_cancels_cancellable b b' : same_cancels b b' -> cancellable b -> cancellable b'.
Proof.
  intros H Hc p. rewrite (sc_coalesced _ _ H), (sc_ordered _ _ H). intros [H1 H2]%Hc. simpl in *.
  pose proof (f_equal length (sc_cache _ _ H)) as Hl. rewrite !length_fmap in Hl.
  pose proof (same_cancels_at _ _ (ordered_fault_cache b !!! p) H) as [= _ -> _ _]. by rewrite Hl.
Qed.

Lemma targets_app b p k k' : targets b p (k + k') = targets b p k ++ targets b (p + k) k'.
Proof. unfold targets. by rewrite seq_app, fmap_app, filter_app, fmap_app. Qed.

Lemma targets_one b p : targets b p 1 =
  let i := ordered_fault_cache b !!! p in if is_live b i then [cancel_of b i] else [].
Proof.
  unfold targets. simpl. rewrite filter_cons, filter_nil. by destruct (is_live _ _).
Qed.

(** The faults of the positions from [i] up to [m] have been cancelled. *)
Record cancelled_to (i : nat) (g : uvm_gpu D) (m : nat) (g' : uvm_gpu D) : Prop := {
  ct_from : (i <= m)%nat;
  ct_to : (i <= Z.to_nat (num_coalesced_faults (batch g)) -> m <= Z.to_nat (num_coalesced_faults (batch g)))%nat;
  ct_same : same_cancels (batch g) (batch g');
  ct_cancels : cancels (trace g') = rev (targets (batch g) i (m - i)) ++ cancels (trace g);
}.

Lemma cancelled_to_stop i (g : uvm_gpu D) : cancelled_to i g i g.
Proof. split; simpl; [lia|lia|done|]. by rewrite Nat.sub_diag. Qed.

Lemma cancelled_to_trans i (g : uvm_gpu D) k g1 m g' :
  cancelled_to i g k g1 -> cancelled_to k g1 m g' -> cancelled_to i g m g'.
Proof.
  intros [A2 A3 A4 A5] [B2 B3 B4 B5]. rewrite (sc_coalesced _ _ A4) in B3.
  split; [lia|lia|by etrans|].
  rewrite B5, A5, (same_cancels_targets _ _ _ _ A4), app_assoc, <- rev_app_distr.
  replace (m - i)%nat with ((k - i) + (m - k))%nat by lia.
  rewrite targets_app. by replace (i + (k - i))%nat with k by lia.
Qed.

(** One fault of a VA space that is live. *)
Lemma cancel_one_spec i vs reason (g : uvm_gpu D) st g' :
  let cur := ordered_fault_cache (batch g) !!! i in
  let e := cache_at (batch g) cur in
  cancellable (batch g) -> (i < Z.to_nat (num_coalesced_faults (batch g)))%nat ->
  va_space e = vs -> live (default 0 vs) = true ->
  cancel_entry reason cur g = (st, g') ->
  exists m, cancelled_to i g m g' /\ (st = NV_OK -> m = S i) /\ (pushes_ok -> st = NV_OK).
Proof.
  intros cur e Hok Hi Hvs Hl. unfold cancel_entry, mbind, ST_bind, gets. fold e.
  destruct (when _ _ g) as [u g1] eqn:E1.
  assert (same_cancels (batch g) (batch g1) /\ trace g1 = trace g) as [Hs Ht].
  { unfold when in E1. destruct (negb (is_fatal e)); injection E1 as <- <-; [|done].
    split; [by apply same_cancels_upd|done]. }
  intros H. pose proof (same_cancels_cancellable _ _ Hs Hok) as Hok1.
  destruct (Hok1 i) as [Hlen Ha]; [by rewrite (sc_coalesced _ _ Hs)|]. rewrite (sc_ordered _ _ Hs) in Hlen, Ha.
  apply cancel_precise_spec in H as (Hs1 & Hp & [[Hst Ht1]|[pdb Ht1]]); [exists i|exists (S i)|done|done].
  - split; [|done]. split; [lia|lia|by etrans|]. rewrite Nat.sub_diag. simpl. by rewrite Ht1, Ht.
  - split; [|done]. split; simpl; [lia|lia|by etrans|]. replace (S i - i)%nat with 1%nat by lia.
    rewrite Ht1, targets_one. simpl. fold cur. unfold is_live. fold e. rewrite Hvs, Hl, Ht. simpl.
    unfold cancel_of. fold e. pose proof (same_cancels_at _ _ cur Hs) as [= -> -> _ _]. done.
Qed.

Lemma cancel_va_space_spec n vs skip reason : skip = negb (live (default 0 vs)) -> forall i (g : uvm_gpu D) r g',
  cancellable (batch g) -> cancel_va_space n vs skip reason i g = (r, g') ->
  exists m, cancelled_to i g m g' /\ (r.1 = NV_OK -> m = r.2) /\ (pushes_ok -> r.1 = NV_OK) /\
  (r.1 = NV_OK -> (0 < n)%nat -> (i < Z.to_nat (num_coalesced_faults (batch g)))%nat ->
   va_space (cache_at (batch g) (ordered_fault_cache (batch g) !!! i)) = vs -> (i < r.2)%nat).
Proof.
  intros Hskip. induction n as [|n IH]; intros i g r g' Hok; simpl.
  { intros [= <- <-]. exists i. split_and!; [apply cancelled_to_stop|done|done|lia]. }
  unfold mbind at 1, ST_bind at 1, gets at 1. set (cur := ordered_fault_cache (batch g) !!! i).
  destruct (Z.ltb_spec (Z.of_nat i) (num_coalesced_faults (batch g))) as [Hi|Hi]; simpl.
  2:{ intros [= <- <-]. exists i. split_and!; [apply cancelled_to_stop|done|done|lia]. }
  case_bool_decide as Hvs; [|intros [= <- <-]; exists i; by split_and!; [apply cancelled_to_stop| | |]].
  assert (forall g1, cancelled_to i g (S i) g1 -> cancel_va_space n vs skip reason (S i) g1 = (r, g') ->
    exists m, cancelled_to i g m g' /\ (r.1 = NV_OK -> m = r.2) /\ (pushes_ok -> r.1 = NV_OK) /\
      (r.1 = NV_OK -> (i < r.2)%nat)) as Hgo.
  { intros g1 H1 H2. apply IH in H2 as (m & H2 & Hm & Hp & _); [|by eapply same_cancels_cancellable; [apply H1|]].
    exists m. split_and!; [by eapply cancelled_to_trans|done|done|].
    intros Hst. rewrite <- (Hm Hst). apply (ct_from _ _ _ _ H2). }
  destruct skip.
  - intros (m & H1 & H2 & H3 & H4)%Hgo; [exists m; by split_and!; auto|]. split; simpl; [lia|lia|done|].
    replace (S i - i)%nat with 1%nat by lia. rewrite targets_one. simpl. fold cur. unfold is_live.
    rewrite Hvs. by destruct (live _).
  - unfold mbind, ST_bind. destruct (cancel_entry reason cur g) as [st g1] eqn:E.
    apply (cancel_one_spec i vs) in E as (m & E' & Hm & Hp); [|done|lia|done|by destruct (live _)].
    destruct (is_ok st) eqn:Hst.
    + apply is_ok_true in Hst. rewrite (Hm Hst) in E'. intros (m' & H1 & H2 & H3 & H4)%(Hgo _ E'). exists m'. by split_and!; auto.
    + intros [= <- <-]. assert (st <> NV_OK) as Hne by (intros ->; done).
      exists m. split_and!; [done|by intros ?%Hne|done|by intros ?%Hne].
Qed.

Lemma cancel_all_loop_spec fuel reason : forall i (g : uvm_gpu D) st g',
  cancellable (batch g) -> (i <= Z.to_nat (num_coalesced_faults (batch g)))%nat ->
  (Z.to_nat (num_coalesced_faults (batch g)) - i <= fuel)%nat ->
  cancel_all_loop fuel reason i g = (st, g') ->
  exists m, cancelled_to i g m g' /\ (st = NV_OK -> m = Z.to_nat (num_coalesced_faults (batch g))) /\
    (pushes_ok -> st = NV_OK).
Proof.
  induction fuel as [|fuel IH]; intros i g st g' Hok Hi Hf; simpl.
  { intros [= <- <-]. exists i. split_and!; [apply cancelled_to_stop|lia|done]. }
  unfold mbind at 1, ST_bind at 1, gets at 1.
  destruct (Z.ltb_spec (Z.of_nat i) (num_coalesced_faults (batch g))) as [Hlt|Hge].
  2:{ intros [= <- <-]. exists i. split_and!; [apply cancelled_to_stop|lia|done]. }
  set (vs := va_space _). unfold mbind, ST_bind, gets, down_read, up_read, emit, modify. rewrite live_spec.
  set (g0 := g <| trace ::= _ |>).
  destruct (cancel_va_space _ vs _ reason i g0) as [r g1] eqn:E.
  apply cancel_va_space_spec in E as (m & E & Hm & Hp & Hlt1); [|done|done].
  set (g2 := g1 <| trace ::= _ |>). destruct E as [E2 E3 E4 E5].
  assert (cancelled_to i g m g2) as H2 by (by split). simpl in E3.
  destruct (is_ok r.1) eqn:Hst.
  2:{ intros [= <- <-]. exists m. split_and!; [done| |done]. intros E. by rewrite E in Hst. }
  apply is_ok_true in Hst. specialize (Hlt1 Hst ltac:(simpl; lia) ltac:(simpl; lia) eq_refl). rewrite (Hm Hst) in *.
  intros H. pose proof (sc_coalesced _ _ E4) as Hc. simpl in Hc.
  apply IH in H as (m' & H & Hm' & Hp'); [|by apply (same_cancels_cancellable (batch g))|simpl; lia|simpl; lia].
  exists m'. split_and!; [by eapply cancelled_to_trans| |done]. intros Hs. rewrite (Hm' Hs). simpl. by rewrite Hc.
Qed.

(** C17: When the batch is given up, the coalesced faults whose VA space has a GPU
    VA space are cancelled exactly once each, in the order of the view, with their
    own mode if they were fatal already and for all accesses otherwise, up to the
    first fault whose cancel could not be pushed; no other fault is cancelled.  If
    the function succeeds, and whenever the pushes succeed, that is every fault of
    the view.  The registered GPU VA spaces do not change meanwhile ([live]). *)
Theorem cancel_faults_all_exact reason (g : uvm_gpu D) st g' :
  cancellable (batch g) ->
  (Z.to_nat (num_coalesced_faults (batch g)) <= length (ordered_fault_cache (batch g)))%nat ->
  cancel_faults_all caps reason g = (st, g') ->
  exists m, cancels (trace g') =
    rev (cancel_of (batch g) <$> filter (fun i => is_live (batch g) i = true) (take m (ordered_view (batch g))))
    ++ cancels (trace g) /\
    (m <= Z.to_nat (num_coalesced_faults (batch g)))%nat /\
    (st = NV_OK \/ pushes_ok -> m = Z.to_nat (num_coalesced_faults (batch g))).
Proof.
  intros Hok Hlen. unfold cancel_faults_all, mbind, ST_bind, gets.
  destruct (cancel_all_loop _ _ _ g) as [st1 g1] eqn:E1.
  apply cancel_all_loop_spec in E1 as (m & [_ E2 _ E1] & Hm & Hp); [|done|lia|lia].
  destruct (fault_buffer_flush_locked _ _ _ _ g1) as [st2 g2] eqn:Ef. intros [= <- <-]. specialize (E2 ltac:(lia)).
  apply flush_locked_grows in Ef as ->%grows_cancels. exists m. split_and!; [|done|].
  - rewrite E1, Nat.sub_0_r. unfold targets. rewrite view_positions by lia. rewrite take_take, Nat.min_l by done. done.
  - destruct (is_ok st1) eqn:Hst; [intros _; apply Hm; by apply is_ok_true|].
    intros [->|Hpo]; [done|]. by rewrite (Hp Hpo) in Hst.
Qed.

End CancelAll.

(** *** A concrete cancel

    The write of the second fault was found fatal, the third fault is in a VA
    space without a GPU VA space. *)

Definition cancel_example_gpu : uvm_gpu sim_device :=
  (sim_gpu 8 8 1 (mk_sim 0 0 [] [] 0 0 []))
    <| batch := example_batch
         [example_entry 1 0 UVM_FAULT_ACCESS_TYPE_READ;
          (example_entry 1 4096 UVM_FAULT_ACCESS_TYPE_WRITE)
            <| is_fatal := true |> <| cancel_va_mode := UVM_FAULT_CANCEL_VA_MODE_WRITE_AND_ATOMIC |>;
          example_entry 9 8192 UVM_FAULT_ACCESS_TYPE_ATOMIC_STRONG] |>.

Definition cancel_after : NV_STATUS * uvm_gpu sim_device :=
  Eval vm_compute in cancel_faults_all (sim_caps 256) UvmEventFatalReasonOutOfMemory cancel_example_gpu.

Lemma cancel_after_eq :
  cancel_faults_all (sim_caps 256) UvmEventFatalReasonOutOfMemory cancel_example_gpu = cancel_after.
Proof. vm_compute. reflexivity. Qed.

Lemma cancel_example_cancellable : cancellable (batch cancel_example_gpu).
Proof.
  intros p Hp. change (p < 3)%nat in Hp. destruct p as [|[|[|p]]]; [| | |lia];
    (split; [simpl; lia|]); split; vm_compute; try done; split; congruence.
Qed.

Lemma sim_live (g : uvm_gpu sim_device) vs : op_gpu_va_space g vs = negb (vs =? 9).
Proof. reflexivity. Qed.

Lemma cancel_faults_all_exact_witness :
  cancel_after.1 = NV_OK /\
  cancels (trace cancel_after.2) =
    [(Some 1, 4096, UVM_FAULT_CANCEL_VA_MODE_WRITE_AND_ATOMIC); (Some 1, 0, UVM_FAULT_CANCEL_VA_MODE_ALL)].
Proof.
  split; [reflexivity|].
  destruct (cancel_faults_all_exact (sim_caps 256) (fun vs => negb (vs =? 9)) sim_live
    UvmEventFatalReasonOutOfMemory cancel_example_gpu cancel_after.1 cancel_after.2
    cancel_example_cancellable (le_n 3) cancel_after_eq) as (m & -> & _ & Hm).
  rewrite Hm by (left; reflexivity). reflexivity.
Defined.

(** ** Cancelling uTLBs *)

(** The fault at [k] is on the given page and in the given uTLB. *)
Definition on_page (b : uvm_fault_service_batch_context_t) (vs : option Z) (addr utlb : Z) (k : nat) : bool :=
  (utlb_of b k =? utlb) && bool_decide (va_space (cache_at b k) = vs) && (fault_address (cache_at b k) =? addr).

(** A fault a uTLB can be cancelled for: it is fatal, the uTLB is locked down, no
    fault of the uTLB is before it, and every page of the uTLB that has faults
    after it has a fatal one. *)
Record precise (b : uvm_fault_service_batch_context_t) (i : nat) : Prop := {
  pr_cached : (i < Z.to_nat (num_cached_faults b))%nat;
  pr_fatal : is_fatal (cache_at b i) = true;
  pr_lockdown : in_lockdown (utlb_at b (utlb_of b i)) = true;
  pr_first : forall k, (k < i)%nat -> utlb_of b k <> utlb_of b i;
  pr_pages : forall k, (i < k < Z.to_nat (num_cached_faults b))%nat -> utlb_of b k = utlb_of b i ->
    exists j, (j < Z.to_nat (num_cached_faults b))%nat /\ is_fatal (cache_at b j) = true /\
      on_page b (va_space (cache_at b k)) (fault_address (cache_at b k)) (utlb_of b i) j = true;
}.

(** The counts of a list of faults. *)
Lemma page_counts b vs addr utlb l : forall f n,
  0 <= f -> 0 <= n -> f + n + Z.of_nat (length l) < 2 ^ 32 ->
  foldl (fun '(fatal_faults, non_fatal_faults) k =>
      let e := cache_at b k in
      if (utlb_of b k =? utlb) && bool_decide (va_space e = vs) && (fault_address e =? addr)
      then if is_fatal e then (u32 (fatal_faults + 1), non_fatal_faults)
           else (fatal_faults, u32 (non_fatal_faults + 1))
      else (fatal_faults, non_fatal_faults)) (f, n) l =
  (f + Z.of_nat (length (filter (fun k => on_page b vs addr utlb k && is_fatal (cache_at b k) = true) l)),
   n + Z.of_nat (length (filter (fun k => on_page b vs addr utlb k && negb (is_fatal (cache_at b k)) = true) l))).
Proof.
  induction l as [|k l IH]; intros f n Hf Hn Hb; [simpl; f_equal; lia|]. rewrite !filter_cons. simpl in Hb.
  simpl foldl. fold (on_page b vs addr utlb k). destruct (on_page b vs addr utlb k); simpl.
  - destruct (is_fatal (cache_at b k)); simpl; rewrite u32_small by lia; rewrite IH by lia; simpl; f_equal; lia.
  - by rewrite IH by lia.
Qed.

Lemma filter_none {A} (f : A -> bool) l :
  length (filter (fun x => f x = true) l) = 0%nat <-> forall x, x ∈ l -> f x = false.
Proof.
  rewrite length_zero_iff_nil. split.
  - intros Hn x Hx. destruct (f x) eqn:E; [|done].
    assert (x ∈ filter (fun x => f x = true) l) as Hin by (by apply list_elem_of_filter).
    rewrite Hn in Hin. by apply elem_of_nil in Hin.
  - intros H. induction l as [|x l IH]; [done|]. rewrite filter_cons.
    rewrite decide_False by (rewrite (H x) by left; done). apply IH. intros y Hy. apply H. by right.
Qed.

Lemma filter_some {A} (f : A -> bool) l :
  length (filter (fun x => f x = true) l) <> 0%nat -> exists x, x ∈ l /\ f x = true.
Proof.
  intros Hn. destruct (filter (fun x => f x = true) l) as [|x r] eqn:E; [done|].
  assert (x ∈ filter (fun x => f x = true) l) as Hin by (rewrite E; left).
  apply list_elem_of_filter in Hin as [? ?]. by exists x.
Qed.

(** A page with a fault has a fatal one, or only others. *)
Lemma page_has_fatal b k u :
  num_cached_faults b < 2 ^ 32 -> (k < Z.to_nat (num_cached_faults b))%nat -> utlb_of b k = u ->
  (let '(f, m) := faults_for_page_in_utlb b (va_space (cache_at b k)) (fault_address (cache_at b k)) u in
   (0 <? m) && (f =? 0)) = false <->
  exists j, (j < Z.to_nat (num_cached_faults b))%nat /\ is_fatal (cache_at b j) = true /\
    on_page b (va_space (cache_at b k)) (fault_address (cache_at b k)) u j = true.
Proof.
  intros Hn Hk Hu. unfold faults_for_page_in_utlb. set (n := Z.to_nat (num_cached_faults b)) in *.
  rewrite page_counts by (rewrite ?length_seq; lia). set (page := on_page _ _ _ _).
  assert (page k = true) as Hself.
  { unfold page, on_page. rewrite Hu, !Z.eqb_refl, bool_decide_true by done. done. }
  set (fatal := length (filter (fun k => page k && is_fatal (cache_at b k) = true) (seq 0 n))).
  set (other := length (filter (fun k => page k && negb (is_fatal (cache_at b k)) = true) (seq 0 n))).
  split.
  - intros Hf. assert (fatal <> 0%nat) as (j & Hj & Hp)%filter_some.
    { intros E0. assert (other = 0%nat) as E by lia. unfold other in E. rewrite filter_none in E.
      unfold fatal in E0. rewrite filter_none in E0.
      specialize (E k ltac:(apply elem_of_seq; lia)). specialize (E0 k ltac:(apply elem_of_seq; lia)).
      rewrite Hself in E, E0. by destruct (is_fatal (cache_at b k)). }
    apply elem_of_seq in Hj. apply andb_true_iff in Hp as [? ?]. exists j. split; [lia|done].
  - intros (j & Hj & Hf & Hp). destruct (decide (fatal = 0%nat)) as [E|]; [|lia]. unfold fatal in E.
    rewrite filter_none in E. specialize (E j ltac:(apply elem_of_seq; lia)). by rewrite Hp, Hf in E.
Qed.

(** Every page of the uTLB with faults from [start] on has a fatal one. *)
Lemma no_fatal_pages_spec b start u :
  num_cached_faults b < 2 ^ 32 ->
  no_fatal_pages_in_utlb b start u = false <->
  forall k, (start <= k < Z.to_nat (num_cached_faults b))%nat -> utlb_of b k = u ->
    exists j, (j < Z.to_nat (num_cached_faults b))%nat /\ is_fatal (cache_at b j) = true /\
      on_page b (va_space (cache_at b k)) (fault_address (cache_at b k)) u j = true.
Proof.
  intros Hn. unfold no_fatal_pages_in_utlb. rewrite <- not_true_iff_false, existsb_exists. split.
  - intros Hno k Hk Hu. apply page_has_fatal; [done|lia|done|].
    apply not_true_iff_false. intros Ht. apply Hno. exists k. split; [apply in_seq; lia|].
    by rewrite (proj2 (Z.eqb_eq _ _) Hu).
  - intros Hall (k & Hk%in_seq & Ht). destruct (Z.eqb_spec (utlb_of b k) u) as [Hu|]; [|done].
    destruct (page_has_fatal b k u Hn ltac:(lia) Hu) as [_ Hp]. rewrite Hp in Ht; [done|]. apply Hall; [lia|done].
Qed.

Lemma is_first_spec b i : is_first_fault_in_utlb b i = true <-> forall k, (k < i)%nat -> utlb_of b k <> utlb_of b i.
Proof.
  unfold is_first_fault_in_utlb. rewrite forallb_forall. split.
  - intros H k Hk. specialize (H k ltac:(apply in_seq; lia)). by apply negb_true_iff, Z.eqb_neq in H.
  - intros H k Hk%in_seq. by apply negb_true_iff, Z.eqb_neq, H; lia.
Qed.

(** The condition of the code, without the flag of the uTLB. *)
Definition can_cancel (b : uvm_fault_service_batch_context_t) (i : nat) : bool :=
  is_fatal (cache_at b i) && in_lockdown (utlb_at b (utlb_of b i)) && is_first_fault_in_utlb b i &&
  negb (no_fatal_pages_in_utlb b (S i) (utlb_of b i)).

Lemma can_cancel_spec b i :
  num_cached_faults b < 2 ^ 32 -> (i < Z.to_nat (num_cached_faults b))%nat -> can_cancel b i = true <-> precise b i.
Proof.
  intros Hn Hi. unfold can_cancel. rewrite !andb_true_iff, negb_true_iff, is_first_spec, no_fatal_pages_spec by done.
  split.
  - intros [[[H1 H2] H3] H4]. by split.
  - by intros [_ H1 H2 H3 H4].
Qed.

Definition targeted_event (e : event) : option (uvm_gpu_phys_address_t * Z * Z) :=
  match e with EvCancelTargeted inst gpc client => Some (inst, gpc, client) | _ => None end.

(** The uTLB cancels of a trace. *)
Definition utlb_cancels (t : list event) : list (uvm_gpu_phys_address_t * Z * Z) := omap targeted_event t.

Definition utlb_cancel_of (b : uvm_fault_service_batch_context_t) (i : nat) : uvm_gpu_phys_address_t * Z * Z :=
  let e := cache_at b i in (instance_ptr e, gpc_id (fault_source e), client_id (fault_source e)).

Section CancelUtlbs.
  Context {D : Type} `{Ops : GpuOps D} `{!GpuOpsOk D}.
  Variable b : uvm_fault_service_batch_context_t.
  Hypothesis cached_bound : num_cached_faults b < 2 ^ 32.
  Hypothesis utlbs_range : forall i, (i < Z.to_nat (num_cached_faults b))%nat ->
    (Z.to_nat (utlb_of b i) < length (utlbs b))%nat /\ 0 <= utlb_of b i.

(** After the first [k] faults of the cache: those that could be cancelled for
    have been, and only uTLBs of earlier faults are flagged. *)
Record utlbs_cancelled (k : nat) (g0 g : uvm_gpu D) : Prop := {
  uc_cache : fault_cache (batch g) = fault_cache b;
  uc_count : num_cached_faults (batch g) = num_cached_faults b;
  uc_utlbs : in_lockdown <$> utlbs (batch g) = in_lockdown <$> utlbs b;
  uc_flags : forall u, 0 <= u -> cancelled (utlb_at (batch g) u) = true -> exists j, (j < k)%nat /\ utlb_of b j = u;
  uc_cancels : utlb_cancels (trace g) =
    rev (utlb_cancel_of b <$> filter (fun i => can_cancel b i = true) (seq 0 k)) ++ utlb_cancels (trace g0);
}.

Lemma utlbs_cancelled_can k g0 (g : uvm_gpu D) i : utlbs_cancelled k g0 g ->
  utlb_of (batch g) i = utlb_of b i /\ cache_at (batch g) i = cache_at b i /\
  in_lockdown (utlb_at (batch g) (utlb_of b i)) = in_lockdown (utlb_at b (utlb_of b i)) /\
  is_first_fault_in_utlb (batch g) i = is_first_fault_in_utlb b i /\
  forall u, no_fatal_pages_in_utlb (batch g) (S i) u = no_fatal_pages_in_utlb b (S i) u.
Proof.
  intros [E1 E2 E3 _ _]. assert (forall j, cache_at (batch g) j = cache_at b j) as Hc
    by (intros j; unfold cache_at; by rewrite E1).
  assert (forall j, utlb_of (batch g) j = utlb_of b j) as Hu by (intros j; unfold utlb_of; by rewrite Hc).
  split; [done|]. split; [done|]. split.
  { unfold utlb_at. rewrite !list_lookup_total_alt. set (n := Z.to_nat (utlb_of b i)).
    assert (in_lockdown <$> (utlbs (batch g) !! n) = in_lockdown <$> (utlbs b !! n)) as H
      by (rewrite <- !list_lookup_fmap; by rewrite E3).
    destruct (utlbs (batch g) !! n), (utlbs b !! n); simpl in *; congruence. }
  split; [unfold is_first_fault_in_utlb, utlb_of, cache_at; by rewrite E1|].
  intros u. unfold no_fatal_pages_in_utlb, faults_for_page_in_utlb. rewrite E2.
  unfold utlb_of, cache_at. by rewrite E1.
Qed.

Lemma can_cancel_next k :
  filter (fun i => can_cancel b i = true) (seq 0 (S k)) =
  filter (fun i => can_cancel b i = true) (seq 0 k) ++ (if can_cancel b k then [k] else []).
Proof. rewrite seq_S, filter_app, filter_cons, filter_nil. simpl. by destruct (can_cancel b k). Qed.

Lemma utlbs_cancelled_skip k g0 (g : uvm_gpu D) :
  can_cancel b k = false -> utlbs_cancelled k g0 g -> utlbs_cancelled (S k) g0 g.
Proof.
  intros Hk [E1 E2 E3 E4 E5]. split; try done.
  - intros u Hu (j & Hj & Hju)%E4; [|done]. exists j. split; [lia|done].
  - by rewrite can_cancel_next, Hk, app_nil_r.
Qed.

Lemma utlbs_cancelled_push k g0 (g g' : uvm_gpu D) :
  (k < Z.to_nat (num_cached_faults b))%nat -> can_cancel b k = true -> utlbs_cancelled k g0 g ->
  batch g' = upd_utlb (utlb_of b k) (fun t => t <| cancelled := true |>) (batch g) ->
  utlb_cancels (trace g') = utlb_cancel_of b k :: utlb_cancels (trace g) -> utlbs_cancelled (S k) g0 g'.
Proof.
  intros Hk Hcan [E1 E2 E3 E4 E5] Eb Et. destruct (utlbs_range k Hk) as [Hr H0].
  split; rewrite ?Eb; try done.
  - simpl. rewrite <- E3, (list_fmap_alter in_lockdown _ (fun x => x)) by (apply Forall_true; done).
    by rewrite list_alter_id.
  - intros u Hu. destruct (decide (u = utlb_of b k)) as [->|Hne].
    + intros _. exists k. split; [lia|done].
    + unfold utlb_at. simpl. rewrite list_lookup_total_alter_ne by (intros E; apply Hne; lia).
      intros (j & Hj & Hju)%E4; [|done]. exists j. split; [lia|done].
  - by rewrite can_cancel_next, Hcan, fmap_app, rev_app_distr, Et, E5.
Qed.

Lemma try_to_cancel_utlb_step k g0 (g : uvm_gpu D) st g' :
  (k < Z.to_nat (num_cached_faults b))%nat -> utlbs_cancelled k g0 g ->
  try_to_cancel_utlb k g = (st, g') -> st = NV_OK /\ utlbs_cancelled (S k) g0 g'.
Proof.
  intros Hk H. destruct (utlbs_cancelled_can _ _ _ k H) as (Hu & Hc & Hl & Hf & Hp).
  unfold try_to_cancel_utlb. unfold mbind at 1, ST_bind at 1, gets at 1. rewrite Hc. fold (utlb_of b k).
  rewrite Hl, Hf, Hp. destruct (can_cancel b k) eqn:Hcan.
  - pose proof Hcan as Hcan'. unfold can_cancel in Hcan'. rewrite !andb_true_iff, negb_true_iff in Hcan'.
    destruct Hcan' as [[[-> ->] Hfirst] ->]. rewrite Hfirst. simpl.
    destruct (cancelled _) eqn:Hflag.
    { apply (uc_flags _ _ _ H) in Hflag as (j & Hj & Hju); [|by apply utlbs_range].
      by destruct (proj1 (is_first_spec b k) Hfirst j Hj). }
    unfold record_fatal_fault_helper, down_read, up_read, push_cancel_on_gpu_targeted, push_cancel_on_gpu, try,
      uvm_push_begin_acquire, uvm_push_end_and_wait.
    unfold mbind, ST_bind, gets, emit, modify. rewrite ok_push_begin. simpl. rewrite ok_push_wait. simpl.
    intros [= <- <-]. split; [done|]. by apply (utlbs_cancelled_push k g0 g).
  - intros E. assert ((NV_OK, g) = (st, g')) as [= <- <-].
    { rewrite <- E. unfold can_cancel in Hcan. clear Hl Hf Hp E.
      destruct (is_fatal _), (in_lockdown _); simpl in *; try reflexivity.
      destruct (cancelled _); [reflexivity|]. by rewrite Hcan. }
    split; [done|by apply utlbs_cancelled_skip].
Qed.

Lemma try_loop_spec n : forall k g0 (g : uvm_gpu D) st g',
  (k + n <= Z.to_nat (num_cached_faults b))%nat -> utlbs_cancelled k g0 g ->
  for_status (seq k n) try_to_cancel_utlb g = (st, g') -> st = NV_OK /\ utlbs_cancelled (k + n) g0 g'.
Proof.
  induction n as [|n IH]; intros k g0 g st g' Hk H; simpl; [intros [= <- <-]; by rewrite Nat.add_0_r|].
  unfold try, mbind, ST_bind. destruct (try_to_cancel_utlb k g) as [st1 g1] eqn:E.
  apply (try_to_cancel_utlb_step _ g0) in E as [-> H1]; [|lia|done]. simpl. intros E.
  apply (IH _ g0) in E; [|lia|done]. by rewrite Nat.add_succ_r.
Qed.

(** With the flags of the uTLBs clear, a uTLB is cancelled exactly when it
    has a fault that allows precise attribution, and at most once: the fault is
    fatal and the first of its uTLB, the uTLB is locked down, and every page with
    later faults of the uTLB has a fatal one. *)
Theorem try_to_cancel_utlbs_precise (g : uvm_gpu D) st g' :
  batch g = b -> (forall u, 0 <= u -> cancelled (utlb_at b u) = false) ->
  try_to_cancel_utlbs g = (st, g') ->
  st = NV_OK /\
  exists l, utlb_cancels (trace g') = rev (utlb_cancel_of b <$> l) ++ utlb_cancels (trace g) /\
    NoDup (utlb_of b <$> l) /\ forall i, i ∈ l <-> precise b i.
Proof.
  intros Hb Hfl. unfold try_to_cancel_utlbs, mbind, ST_bind, gets. rewrite Hb. intros E.
  apply (try_loop_spec _ 0 g) in E as [-> H]; [|lia|].
  2:{ split; rewrite ?Hb; try done. intros u Hu. by rewrite Hfl. }
  split; [done|]. simpl in H. exists (filter (fun i => can_cancel b i = true) (seq 0 (Z.to_nat (num_cached_faults b)))).
  split; [apply H|]. split.
  - apply NoDup_fmap_2_strong; [|apply NoDup_filter, NoDup_seq].
    intros i j [Hi Hi'%elem_of_seq]%list_elem_of_filter [Hj Hj'%elem_of_seq]%list_elem_of_filter Heq.
    apply can_cancel_spec in Hi as [_ _ _ Hi _]; [|done|lia].
    apply can_cancel_spec in Hj as [_ _ _ Hj _]; [|done|lia].
    destruct (lt_eq_lt_dec i j) as [[Hlt|?]|Hlt]; [by destruct (Hj i Hlt)|done|by destruct (Hi j Hlt)].
  - intros i. rewrite list_elem_of_filter, elem_of_seq. split.
    + intros [Hi Hr]. apply can_cancel_spec; [done|lia|done].
    + intros Hi. pose proof (pr_cached _ _ Hi). split; [by apply can_cancel_spec|lia].
Qed.

End CancelUtlbs.

(** *** A concrete uTLB cancel

    uTLB 0 is locked down; both its faults are on the same page and the first is
    fatal.  uTLB 1 has a fatal fault but is not locked down. *)

Definition utlb_entry (utlb addr : Z) (fatal : bool) : uvm_fault_buffer_entry_t :=
  (example_entry 1 addr UVM_FAULT_ACCESS_TYPE_WRITE) <| is_fatal := fatal |>
    <| fault_source := mk_source UVM_FAULT_CLIENT_TYPE_GPC UVM_MMU_ENGINE_TYPE_GRAPHICS 0 (5 + utlb) utlb 3 0 |>.

Definition utlb_example_batch : uvm_fault_service_batch_context_t :=
  (example_batch [utlb_entry 0 4096 true; utlb_entry 1 8192 true; utlb_entry 0 4096 false])
    <| utlbs := [zero_utlb <| in_lockdown := true |>; zero_utlb] |>.

Definition utlb_example_gpu : uvm_gpu sim_device :=
  (sim_gpu 8 8 2 (mk_sim 0 0 [] [] 0 0 [])) <| batch := utlb_example_batch |>.

Definition utlb_after : NV_STATUS * uvm_gpu sim_device :=
  Eval vm_compute in try_to_cancel_utlbs utlb_example_gpu.

Lemma utlb_after_eq : try_to_cancel_utlbs utlb_example_gpu = utlb_after.
Proof. vm_compute. reflexivity. Qed.

Lemma utlb_example_range i : (i < Z.to_nat (num_cached_faults utlb_example_batch))%nat ->
  (Z.to_nat (utlb_of utlb_example_batch i) < length (utlbs utlb_example_batch))%nat /\
  0 <= utlb_of utlb_example_batch i.
Proof.
  intros Hi. change (i < 3)%nat in Hi. destruct i as [|[|[|i]]]; [| | |lia]; vm_compute; split; (lia || congruence).
Qed.

Lemma utlb_example_flags u : 0 <= u -> cancelled (utlb_at utlb_example_batch u) = false.
Proof.
  intros Hu. unfold utlb_at. simpl. destruct (Z.to_nat u) as [|[|n]]; [done|done|].
  by rewrite list_lookup_total_alt.
Qed.

Lemma try_to_cancel_utlbs_precise_witness :
  precise utlb_example_batch 0 /\
  utlb_cancels (trace utlb_after.2) = [utlb_cancel_of utlb_example_batch 0].
Proof.
  destruct (try_to_cancel_utlbs_precise (D := sim_device) utlb_example_batch eq_refl utlb_example_range
    utlb_example_gpu utlb_after.1 utlb_after.2 eq_refl utlb_example_flags utlb_after_eq) as [_ (l & Hl & _ & Hp)].
  split; [|reflexivity]. apply Hp. destruct l as [|i l]; [discriminate Hl|].
  assert (i :: l = [0%nat]) as ->; [|left].
  assert (forall j, j ∈ i :: l -> j = 0%nat) as Hz.
  { intros j Hj. apply Hp in Hj as [H1 H2 H3 _ _]. change (j < 3)%nat in H1.
    destruct j as [|[|[|j]]]; [done|discriminate H3|discriminate H2|lia]. }
  pose proof (f_equal length Hl) as Hlen. rewrite length_app, length_rev, length_fmap in Hlen.
  change (1 = length (i :: l) + 0)%nat in Hlen. simpl in Hlen. destruct l; [|simpl in Hlen; lia].
  f_equal. apply Hz. left.
Defined.
