(* ===== verification/Isolation.v ===== *)
(** * What the precise cancel touches

    [service_fault_batch_for_cancel] cancels faults only while it holds the VA
    space that had the fatal fault, and its loop cancels only faults of that VA
    space. *)

From stdpp Require Import gmap.
From S2P Require Import Prelude FaultTypes Gpu SimDevice Sorting FaultBuffer Frames Predictor Fetch Coalesce Channels Preprocess PathFrames Stale Service Dispatch Cancel.

Local Open Scope Z_scope.

(** Only events that satisfy [ok] are added to the trace. *)
Definition adds (ok : event -> Prop) {D} (g g' : uvm_gpu D) : Prop :=
  exists l, trace g' = l ++ trace g /\ Forall ok l.

#[export] Instance adds_preorder ok D : PreOrder (adds ok (D := D)).
Proof.
  split; [by exists []|]. intros a b c (l & E1 & F1) (m & E2 & F2). exists (m ++ l).
  split; [by rewrite E2, E1, app_assoc|by apply Forall_app].
Qed.

Lemma grows_adds (ok : event -> Prop) {D} (g g' : uvm_gpu D) :
  (forall e, background e = true -> ok e) -> grows g g' -> adds ok g g'.
Proof. intros Hok (l & E & F & _). exists l. split; [done|]. by eapply Forall_impl. Qed.

Lemma emit_adds (ok : event -> Prop) {D} e : ok e -> respects (adds ok (D := D)) (emit e).
Proof. intros He g a g' [= <- <-]. exists [e]. split; [done|by constructor]. Qed.

(** ** Locks *)

Abbreviation no_locks := (adds (fun e => is_lock_event e = false)).
Definition svc_no_locks {D} (s s' : svc D) : Prop := no_locks (sv_gpu s) (sv_gpu s').

#[export] Instance svc_no_locks_preorder D : PreOrder (svc_no_locks (D := D)).
Proof. split; [intros s|intros a b c]; unfold svc_no_locks; [reflexivity|apply transitivity]. Qed.

(** From [t] to [t'] the VA space is taken once and released once, no other is taken
    or released meanwhile, and what follows the release are only flushes and replays. *)
Definition locked_once (vs : Z) (t t' : list event) : Prop :=
  exists inside after,
    t' = after ++ EvVaSpaceUnlock vs :: inside ++ EvVaSpaceLock vs :: t /\
    Forall (fun e => is_lock_event e = false) inside /\
    Forall (fun e => background e = true) after.

Section Locks.
  Context {D : Type} `{Hal : FaultBufferHal D} `{!FaultBufferHalLive D} `{Ops : GpuOps D}
    `{Va : VaSpaceOps D} `{!VaSpaceOpsLive D} `{!VaSpaceOpsLaws D} `{KernelSort}.
  Variable P : module_params.
  Variable caps : gpu_caps.
  Variable channels_at : uvm_gpu D -> channel_tables.

Lemma grows_no_locks {A} (m : ST (uvm_gpu D) A) : respects grows m -> respects no_locks m.
Proof. intros Hm g a g' E%Hm. eapply grows_adds; [|exact E]. by intros []. Qed.

Lemma on_gpu_no_locks {A} (m : ST (uvm_gpu D) A) : respects no_locks m -> respects svc_no_locks (on_gpu m).
Proof. apply on_gpu_lift. Qed.

Lemma on_gpu_grows {A} (m : ST (uvm_gpu D) A) : respects grows m -> respects svc_no_locks (on_gpu m).
Proof. intros Hm. by apply on_gpu_no_locks, grows_no_locks. Qed.

Lemma frame_no_locks {A} (m : ST (svc D) A) : respects frame m -> respects svc_no_locks m.
Proof. intros Hm s a s' [_ E _]%Hm. eapply grows_adds; [|exact E]. by intros []. Qed.

Lemma upd_svc_batch_no_locks f : respects (svc_no_locks (D := D)) (upd_svc_batch f).
Proof. intros s a s' [= <- <-]. by exists []. Qed.

Lemma upd_batch_no_locks f : respects no_locks (upd_batch (D := D) f).
Proof. intros g a g' [= <- <-]. by exists []. Qed.

#[local] Hint Resolve on_gpu_grows upd_svc_batch_no_locks upd_batch_no_locks : respects.

Lemma cancel_va_loop_no_locks n : forall offset i pdb mode,
  respects no_locks (cancel_va_loop (D := D) n offset i pdb mode).
Proof.
  induction n as [|n IH]; intros; simpl; unfold skip; respects. by apply emit_adds.
Qed.

Lemma cancel_precise_no_locks i mode : respects no_locks (cancel_fault_precise_va (D := D) i mode).
Proof.
  unfold cancel_fault_precise_va, uvm_push_end_and_wait.
  assert (respects no_locks (uvm_push_begin_acquire (D := D))) by (apply grows_no_locks; respects).
  assert (respects no_locks (replay_tracker_clear (D := D)))
    by (apply grows_no_locks; unfold replay_tracker_clear; respects).
  pose proof cancel_va_loop_no_locks. respects. by apply emit_adds.
Qed.

Lemma on_gpu_cancel_no_locks i mode : respects svc_no_locks (on_gpu (cancel_fault_precise_va (D := D) i mode)).
Proof. apply on_gpu_no_locks, cancel_precise_no_locks. Qed.

Lemma dispatch_no_locks vs mm i h : respects svc_no_locks (service_fault_batch_dispatch P vs mm i h).
Proof. apply frame_no_locks, dispatch_frame. Qed.

#[local] Hint Resolve on_gpu_cancel_no_locks dispatch_no_locks : respects.

Lemma cancel_dispatched_no_locks n : forall i, respects svc_no_locks (cancel_dispatched (D := D) n i).
Proof. induction n as [|n IH]; intros; simpl; respects. Qed.

#[local] Hint Resolve cancel_dispatched_no_locks : respects.

Lemma target_loop_no_locks fuel : forall vs mm st i, respects svc_no_locks (cancel_target_loop P fuel vs mm st i).
Proof. induction fuel as [|fuel IH]; intros; simpl; unfold cancel_target_step; respects. Qed.

#[local] Hint Resolve target_loop_no_locks : respects.

Lemma for_cancel_locked_no_locks vs mm : respects svc_no_locks (for_cancel_locked P caps channels_at vs mm).
Proof.
  unfold for_cancel_locked, for_cancel_refetch. respects; apply on_gpu_grows; respects.
Qed.

(** The precise cancel takes the VA space of the fatal fault once, emits
    every cancel and fatal fault report while it holds it, and releases it on
    every path, whatever fails; after the release it only flushes and replays. *)
Theorem service_fault_batch_for_cancel_locked (s : svc D) st s' :
  service_fault_batch_for_cancel P caps channels_at s = (st, s') ->
  locked_once (default 0 (fatal_va_space (svc_batch s))) (trace (sv_gpu s)) (trace (sv_gpu s')).
Proof.
  unfold service_fault_batch_for_cancel. unfold mbind at 1, ST_bind at 1, gets at 1.
  set (vs := default 0 _). unfold mbind, ST_bind, gets.
  destruct (on_gpu (down_read (Some vs)) s) as [u1 s1] eqn:E1.
  destruct (for_cancel_locked _ _ _ _ _ s1) as [st1 s2] eqn:E2.
  apply for_cancel_locked_no_locks in E2 as (inside & Ht & Hin).
  destruct (on_gpu (up_read (Some vs)) s2) as [u2 s3] eqn:E3.
  assert (trace (sv_gpu s3) = EvVaSpaceUnlock vs :: inside ++ EvVaSpaceLock vs :: trace (sv_gpu s)) as Ht3.
  { injection E3 as _ <-. simpl. rewrite Ht. injection E1 as _ <-. done. }
  destruct (is_ok st1).
  - unfold on_gpu. destruct (fault_buffer_flush_locked _ _ _ _ (sv_gpu s3)) as [st2 g] eqn:E4.
    intros [= <- <-]. apply flush_locked_grows in E4 as (after & Ha & Hf & _).
    exists inside, after. simpl. by rewrite Ha, Ht3.
  - intros [= <- <-]. exists inside, []. by rewrite Ht3.
Qed.

End Locks.

(** ** VA spaces *)

(** Cancels and reports are for faults of the VA space. *)
Definition own (vs : Z) (e : event) : Prop :=
  match e with
  | EvCancelVa _ f _ | EvFatalFault f _ => va_space f = Some vs
  | e => background e = true
  end.

(** The faults and the policy are the same and [own vs] holds of the new events. *)
Record isolated (vs : Z) {D} (s s' : svc D) : Prop := {
  is_faults : faults_view (svc_batch s') = faults_view (svc_batch s);
  is_policy : replay_policy (replayable (sv_gpu s')) = replay_policy (replayable (sv_gpu s));
  is_adds : adds (own vs) (sv_gpu s) (sv_gpu s');
}.

#[export] Instance isolated_preorder vs D : PreOrder (isolated vs (D := D)).
Proof. split; [by split|]. intros a b c [] []. split; [congruence|congruence|by etrans]. Qed.

Section Spaces.
  Context {D : Type} `{Hal : FaultBufferHal D} `{!FaultBufferHalLive D} `{Ops : GpuOps D}
    `{Va : VaSpaceOps D} `{!VaSpaceOpsLive D} `{!VaSpaceOpsLaws D}.
  Variable P : module_params.
  Variable vs : Z.

(** The faults of the view have VA spaces, all of the cache page addresses. *)
Definition cancel_ready (s : svc D) : Prop :=
  good_faults s /\ replay_policy (replayable (sv_gpu s)) <> UVM_PERF_FAULT_REPLAY_POLICY_BLOCK /\
  forall i, page_address (fault_address (cache_at (svc_batch s) i)).

Lemma isolated_ready (s s' : svc D) : isolated vs s s' -> cancel_ready s -> cancel_ready s'.
Proof.
  intros [E1 E2 _] (H1 & H2 & H3). split; [by eapply good_faults_view|]. split; [by rewrite E2|].
  intros i. destruct (same_faults_fields _ _ i (view_same _ _ E1)) as (_ & E & _).
  specialize (H3 i). rewrite <- E in H3. exact H3.
Qed.

Lemma frame_isolated {A} (m : ST (svc D) A) s a s' : respects frame m -> m s = (a, s') -> isolated vs s s'.
Proof.
  intros Hm [E1 E2 _]%Hm. split; [done|by destruct E2 as (? & _ & _ & _ & [= ? _])|].
  eapply grows_adds; [|exact E2]. by intros [].
Qed.

(** The address of the entry is moved by 4K and back. *)
Lemma moved_back i b : page_address (fault_address (cache_at b i)) ->
  faults_view (upd_entry i (fun e => e <| fault_address ::= fun a => UVM_PAGE_ALIGN_DOWN (u64 (a - 1)) |>)
    (upd_entry i (fun e => e <| fault_address ::= fun a => u64 (a + UVM_PAGE_SIZE_4K) |>) b)) = faults_view b.
Proof.
  intros Ha. unfold faults_view. simpl. f_equal. f_equal. apply list_eq. intros k. rewrite !list_lookup_fmap.
  destruct (decide (k = i)) as [->|Hne]; [|by rewrite !list_lookup_alter_ne].
  rewrite !list_lookup_alter_eq. destruct (fault_cache b !! i) as [e|] eqn:He; [|done]. simpl. f_equal.
  unfold cache_at in Ha. rewrite (list_lookup_total_correct _ _ _ He) in Ha.
  apply cancel_address in Ha. destruct e as [a ? ? ? ? ? ? ? ? ? ? ? ? ? ? ? ? ? ? ? ? ?]. simpl in Ha.
  cbn -[UVM_PAGE_ALIGN_DOWN wrap UVM_PAGE_SIZE_4K Z.add Z.sub]. unfold upd, unflagged. simpl. by rewrite Ha.
Qed.

Lemma cancel_precise_isolated i mode (s : svc D) st s' :
  page_address (fault_address (cache_at (svc_batch s) i)) -> va_space (cache_at (svc_batch s) i) = Some vs ->
  on_gpu (cancel_fault_precise_va i mode) s = (st, s') -> isolated vs s s'.
Proof.
  intros Ha Hv. unfold on_gpu, cancel_fault_precise_va, try, uvm_push_begin_acquire, uvm_push_end_and_wait.
  change (Z.to_nat (PAGE_SIZE / UVM_PAGE_SIZE_4K)) with 1%nat.
  unfold mbind, ST_bind, gets, emit, modify. simpl.
  destruct (op_push_begin_acquire _) eqn:Hp; simpl; intros [= <- <-]; (split; simpl; [|done|]);
    try (exists [EvFatalFault (cache_at (svc_batch s) i) (fatal_reason (cache_at (svc_batch s) i))];
         split; [done|by repeat constructor]); try done.
  - by apply moved_back.
  - eexists [_; _]. split; [reflexivity|]. by repeat constructor.
Qed.

Lemma cancel_dispatched_isolated n : forall i (s : svc D) r s',
  cancel_ready s -> (forall p, (i <= p < i + n)%nat -> va_space (fault_at s p) = Some vs) ->
  cancel_dispatched n i s = (r, s') -> isolated vs s s'.
Proof.
  induction n as [|n IH]; intros i s r s' Hr Hs; simpl; [by intros [= _ <-]|].
  unfold mbind at 1, ST_bind at 1, gets at 1. fold (fault_at s i). unfold mbind, ST_bind.
  match goal with |- context [(if is_fatal ?e then ?m else ?k) s] =>
    destruct ((if is_fatal e then m else k) s) as [st s1] eqn:E1 end.
  assert (isolated vs s s1) as H1.
  { destruct (is_fatal _); [|by injection E1 as _ <-].
    eapply cancel_precise_isolated; [|apply Hs|exact E1]; [apply Hr|lia]. }
  destruct (is_ok st); [|by intros [= _ <-]]. intros H. etrans; [exact H1|].
  eapply (IH (S i)); [by eapply isolated_ready|..|exact H].
  intros p Hp. rewrite (view_space s) by apply H1. apply Hs. lia.
Qed.

Lemma target_step_isolated mm i (s : svc D) x s' :
  cancel_ready s -> va_space (fault_at s i) = Some vs ->
  cancel_target_step P vs mm i s = (x, s') -> isolated vs s s'.
Proof.
  intros Hr Hv. unfold cancel_target_step. unfold mbind at 1, ST_bind at 1, gets at 1. fold (fault_at s i).
  destruct (is_fatal (fault_at s i)).
  - unfold mbind, ST_bind. destruct (on_gpu _ s) as [st s1] eqn:E. intros [= _ <-].
    by eapply cancel_precise_isolated; [apply Hr|exact Hv|exact E].
  - unfold mbind at 1, ST_bind at 1.
    destruct (service_fault_batch_dispatch P vs mm i true s) as [[st k] s1] eqn:E1.
    pose proof (frame_isolated _ _ _ _ (dispatch_frame P vs mm i true) E1) as H1. simpl.
    destruct (is_restart st); [by intros [= _ <-]|]. destruct (is_ok st) eqn:Hok; simpl; [|by intros [= _ <-]].
    apply is_ok_true in Hok as ->. unfold mbind at 1, ST_bind at 1, gets at 1.
    destruct (negb _); [by intros [= _ <-]|]. unfold mbind, ST_bind.
    destruct (cancel_dispatched k i s1) as [c s2] eqn:E2. intros [= _ <-]. etrans; [exact H1|].
    apply cancel_dispatched_isolated in E2; [done|by eapply isolated_ready|].
    intros p Hp. rewrite (view_space s) by apply H1.
    eapply (dispatch_space P vs mm i true s); [apply Hr|apply Hr|done|exact E1|done].
Qed.

(** From any position, the loop of the precise cancel cancels and reports
    only faults of the VA space that had the fatal fault, also when a push or a
    cancel fails; the faults of the batch stay as they are but for their flags.
    The replay policy is not the one per block, which counts ATS faults twice. *)
Theorem cancel_target_loop_isolated fuel : forall mm st i (s : svc D) st' s',
  cancel_ready s -> cancel_target_loop P fuel vs mm st i s = (st', s') ->
  faults_view (svc_batch s') = faults_view (svc_batch s) /\
  exists l, trace (sv_gpu s') = l ++ trace (sv_gpu s) /\ Forall (own vs) l.
Proof.
  intros mm st i s st' s' Hr H. cut (isolated vs s s'); [by intros [? _ ?]|]. revert st i s Hr H.
  induction fuel as [|fuel IH]; intros st i s Hr; simpl; [by intros [= _ <-]|].
  unfold mbind at 1, ST_bind at 1, gets at 1. fold (fault_at s i).
  destruct (_ <? _); simpl; [|by intros [= _ <-]]. case_bool_decide as Hv; [|by intros [= _ <-]].
  unfold mbind, ST_bind. destruct (cancel_target_step P vs mm i s) as [x s1] eqn:E.
  apply target_step_isolated in E; [|done|done]. destruct x as [st1|st1 j]; [by intros [= _ <-]|].
  intros H. etrans; [exact E|]. eapply IH; [by eapply isolated_ready|exact H].
Qed.

End Spaces.

(** ** Concrete cancels

    The write of the second fault is not permitted; the third fault is in VA
    space 2. *)

Definition target_state : svc sim_device :=
  sim_svc UVM_PERF_FAULT_REPLAY_POLICY_BATCH_FLUSH 0 0 pass_example_batch.

Definition target_after : NV_STATUS * svc sim_device :=
  Eval vm_compute in cancel_target_loop default_params 6 1 true NV_OK 0 target_state.

Lemma target_after_eq : cancel_target_loop default_params 6 1 true NV_OK 0 target_state = target_after.
Proof. vm_compute. reflexivity. Qed.

Lemma pass_example_pages i : page_address (fault_address (cache_at pass_example_batch i)).
Proof.
  destruct i as [|[|[|i]]]; split; vm_compute; try done; split; congruence.
Qed.

Lemma target_state_ready : cancel_ready target_state.
Proof.
  split; [|split; [discriminate|exact pass_example_pages]].
  intros p Hp. change (p < 3)%nat in Hp. unfold fault_at.
  destruct p as [|[|[|p]]]; [| | |lia]; (split; [discriminate|]); vm_compute; split; congruence.
Qed.

Lemma cancel_target_loop_isolated_witness :
  cancels (trace (sv_gpu target_after.2)) = [(Some 1, 4096, UVM_FAULT_CANCEL_VA_MODE_WRITE_AND_ATOMIC)] /\
  faults_view (svc_batch target_after.2) = faults_view pass_example_batch.
Proof.
  split; [reflexivity|].
  exact (proj1 (cancel_target_loop_isolated (D := sim_device) default_params 1 6 true NV_OK 0 target_state
    target_after.1 target_after.2 target_state_ready target_after_eq)).
Defined.

(** After the replay of the flush, the fatal write and a read of VA space 10 come
    back. *)
Definition refetch_state : svc sim_device :=
  mk_svc ((sim_gpu 8 8 1 (mk_sim 0 0 [0; 2] [sim_full_slot 1 (sim_packet 0 4096 UVM_FAULT_ACCESS_TYPE_WRITE);
      sim_full_slot 0 (sim_packet 0 0 UVM_FAULT_ACCESS_TYPE_READ)] 0 0 []))
     <| replayable ::= fun r => r <| prev_batch_keys := replicate 8 (mk_batch_key None 0) |> |>
     <| batch ::= fun b => b <| fatal_va_space := Some 10 |> <| utlbs := [zero_utlb] |> |>)
    empty_block_context [] ∅ ∅.

Definition refetch_after : NV_STATUS * svc sim_device :=
  Eval vm_compute in service_fault_batch_for_cancel default_params (sim_caps 256) (fun _ => example_added)
    refetch_state.

Lemma refetch_after_eq :
  service_fault_batch_for_cancel default_params (sim_caps 256) (fun _ => example_added) refetch_state =
  refetch_after.
Proof. vm_compute. reflexivity. Qed.

Lemma service_fault_batch_for_cancel_locked_witness :
  refetch_after.1 = NV_OK /\
  cancels (trace (sv_gpu refetch_after.2)) = [(Some 10, 4096, UVM_FAULT_CANCEL_VA_MODE_WRITE_AND_ATOMIC)] /\
  exists inside after,
    trace (sv_gpu refetch_after.2) = after ++ EvVaSpaceUnlock 10 :: inside ++ [EvVaSpaceLock 10].
Proof.
  split; [reflexivity|]. split; [reflexivity|].
  destruct (service_fault_batch_for_cancel_locked (D := sim_device) default_params (sim_caps 256)
    (fun _ => example_added) refetch_state refetch_after.1 refetch_after.2 refetch_after_eq)
    as (inside & after & Ht & _). exists inside, after. exact Ht.
Defined.

(** ** A failed cancel

    Waiting for the first push fails. *)

Definition flaky_ops : GpuOps sim_device := {|
  op_push_begin_acquire := fun _ => NV_OK;
  op_push_end_and_wait := fun g => if push_seq g =? 1 then NV_ERR_GENERIC else NV_OK;
  op_tracker_add_push_safe := fun _ => NV_OK;
  op_tracker_wait := fun _ => NV_OK;
  op_flush_replayable_fault_buffer := fun _ _ => NV_OK;
  op_pdb := fun _ _ => mk_phys 0 UVM_APERTURE_VID;
|}.

(** The loop loses the error of a cancel that follows a dispatch: the write
    that could not be cancelled is cancelled again, then for all accesses and not
    only writes and atomics, and the loop reports success. *)
Theorem cancel_error_is_lost :
  let r := cancel_target_loop (Ops := flaky_ops) default_params 6 1 true NV_OK 0 target_state in
  r.1 = NV_OK /\
  cancels (trace (sv_gpu r.2)) =
    [(Some 1, 4096, UVM_FAULT_CANCEL_VA_MODE_ALL); (Some 1, 4096, UVM_FAULT_CANCEL_VA_MODE_WRITE_AND_ATOMIC)].
Proof. vm_compute. done. Qed.
