(* ===== verification/ServiceLoop.v ===== *)
(** * The replayable fault service loop

    Prefetch fault throttling, the choice between the serial and the parallel
    path, and the loop that fetches, preprocesses and services batches and replays
    them ([uvm_gpu_replayable_faults.c], lines 3748-3763, 4198-4261 and
    5102-5490). *)

From stdpp Require Import gmap.
From S2P Require Import Prelude FaultTypes Gpu SimDevice Sorting FaultBuffer Frames Predictor Fetch Coalesce Channels Preprocess PathFrames Stale Service Dispatch Cancel Isolation.

Local Open Scope Z_scope.

(** The module parameters only this part of the code reads, and whether the GPU
    is simulated. *)
Record service_params : Type := mk_service_params {
  uvm_enable_builtin_tests : bool;
  rm_is_simulated : bool;
  uvm_parallel_enabled : bool;
  uvm_parallel_tiny_batch_fallback : Z;
  uvm_parallel_prescan : bool;
  uvm_parallel_block_threshold : Z;
}.

(** [NV_GETTIME()] *)
Class Clock (D : Type) : Type := op_gettime : uvm_gpu D -> Z.

(** ** The parallel path

    What the service loop relies on: replays are counted in the batch context and
    prefetch faults are left alone. *)

(** Prefetch faults are not touched. *)
Definition is_prefetch_event (e : event) : bool := match e with EvPrefetchFaults _ => true | _ => false end.

Record steady {D} (g g' : uvm_gpu D) : Prop := {
  st_trace : adds (fun e => is_prefetch_event e = false) g g';
  st_enabled : prefetch_faults_enabled g' = prefetch_faults_enabled g;
}.

(** The batch counts a replay only if one was pushed. *)
Record gpu_counted {D} (g g' : uvm_gpu D) : Prop := {
  co_steady : steady g g';
  co_replays : exists l, trace g' = l ++ trace g /\
    (num_replays (batch g') <> num_replays (batch g) -> Exists (fun e => is_replay e = true) l);
}.

Definition counted {D} (s s' : svc D) : Prop := gpu_counted (sv_gpu s) (sv_gpu s').

Class ParallelService (D : Type) : Type := {
  service_fault_batch_parallel : ST (svc D) NV_STATUS;
  parallel_counted : respects counted service_fault_batch_parallel;
}.

(** ** Prefetch faults *)

(** More than two thirds of a batch are invalid prefetches. *)
Definition too_many_invalid_prefetch (Q : service_params) (max_batch : Z)
    (b : uvm_fault_service_batch_context_t) : bool :=
  (u32 (max_batch * 2) <? u32 (num_invalid_prefetch_faults b * 3)) ||
  (uvm_enable_builtin_tests Q && rm_is_simulated Q && (5 <? num_invalid_prefetch_faults b)).

(** ** Choosing the path *)

Definition estimate_unique_blocks (b : uvm_fault_service_batch_context_t) : Z :=
  (foldl (fun '(count, last_block_start) i =>
      let block_start := UVM_VA_BLOCK_ALIGN_DOWN (fault_address (cache_at b i)) in
      if block_start =? last_block_start then (count, last_block_start)
      else (u32 (count + 1), block_start))
    (0, 2 ^ 64 - 1) (take (Z.to_nat (num_coalesced_faults b)) (ordered_fault_cache b))).1.

Definition uses_parallel (Q : service_params) (mode : fault_service_mode_t)
    (b : uvm_fault_service_batch_context_t) : bool :=
  uvm_parallel_enabled Q && bool_decide (mode = FAULT_SERVICE_MODE_REGULAR) &&
  negb ((0 <? uvm_parallel_tiny_batch_fallback Q) &&
        (num_coalesced_faults b <=? uvm_parallel_tiny_batch_fallback Q)) &&
  negb (uvm_parallel_prescan Q && (0 <? uvm_parallel_block_threshold Q) &&
        (estimate_unique_blocks b <=? uvm_parallel_block_threshold Q)).

(** ** The flush mode of a batch *)

Definition batch_flush_mode (P : module_params) (ratio : Z) (b : uvm_fault_service_batch_context_t)
  : uvm_gpu_buffer_flush_mode_t :=
  if uvm_perf_fault_replay_force_update_put P then UVM_GPU_BUFFER_FLUSH_MODE_UPDATE_PUT
  else
    let redundant :=
      if uvm_perf_fault_replay_stale_update_put_enable P
      then u32 (num_duplicate_faults b + num_stale_faults (stale b)) else num_duplicate_faults b in
    if u32 (num_cached_faults b * ratio) <? u32 (redundant * 100)
    then UVM_GPU_BUFFER_FLUSH_MODE_UPDATE_PUT else UVM_GPU_BUFFER_FLUSH_MODE_CACHED_PUT.

(** The local counters of the loop. *)
Record service_locals : Type := mk_locals {
  l_replays : Z;
  l_batches : Z;
  l_throttled : Z;
}.

#[export] Instance service_locals_eta : Eta service_locals := fun l =>
  mk_locals (l_replays l) (l_batches l) (l_throttled l).

Definition count_batch (throttled : bool) (l : service_locals) : service_locals :=
  (if throttled then l <| l_throttled ::= fun n => u32 (n + 1) |> else l)
    <| l_batches ::= fun n => u32 (n + 1) |>.

(** How an iteration ends: the loop is left, or goes on after a flush that made
    the batch obsolete, or after a batch. *)
Inductive iteration : Type :=
| Stop (status : NV_STATUS) (l : service_locals)
| Restart (l : service_locals)
| Again (l : service_locals).

(** How the loop ends: the status, the counters, the number of restarts, and
    whether it was left by the code and not for lack of fuel. *)
Record loop_result : Type := mk_loop_result {
  res_status : NV_STATUS;
  res_locals : service_locals;
  res_restarts : nat;
  res_left : bool;
}.

#[export] Instance loop_result_eta : Eta loop_result := fun r =>
  mk_loop_result (res_status r) (res_locals r) (res_restarts r) (res_left r).

Section ServiceLoop.
  Context {D : Type} `{Hal : FaultBufferHal D} `{!FaultBufferHalLive D} `{Ops : GpuOps D}
    `{Va : VaSpaceOps D} `{!VaSpaceOpsLive D} `{!VaSpaceOpsLaws D} `{KernelSort}
    `{Time : Clock D} `{Par : ParallelService D}.
  Variable P : module_params.
  Variable Q : service_params.
  Variable caps : gpu_caps.
  Variable channels_at : uvm_gpu D -> channel_tables.

  Abbreviation M := (ST (uvm_gpu D)).
  Abbreviation N := (ST (svc D)).

Definition uvm_parent_gpu_enable_prefetch_faults : M unit :=
  en ← gets prefetch_faults_enabled;
  when (negb en) (set_prefetch_faults true ;; modify (fun g => g <| prefetch_faults_enabled := true |>)).

Definition uvm_parent_gpu_disable_prefetch_faults : M unit :=
  en ← gets prefetch_faults_enabled;
  when en (
    set_prefetch_faults false ;;
    modify (fun g => g <| prefetch_faults_enabled := false |>
                       <| disable_prefetch_faults_timestamp := op_gettime g |>)).

Definition enable_disable_prefetch_faults : M unit :=
  when (prefetch_fault_supported caps) (
    g ← gets id;
    if prefetch_faults_enabled g && (0 <? uvm_perf_reenable_prefetch_faults_lapse_msec P) &&
       too_many_invalid_prefetch Q (max_batch_size g) (batch g)
    then uvm_parent_gpu_disable_prefetch_faults
    else when (negb (prefetch_faults_enabled g)) (
      let lapse := u64 (op_gettime g - disable_prefetch_faults_timestamp g) in
      when (u64 (uvm_perf_reenable_prefetch_faults_lapse_msec P * (1000 * 1000)) <? lapse)
        uvm_parent_gpu_enable_prefetch_faults)).

(** The serial loop has an iteration for every fault and restart. *)
Definition service_fault_batch (mode : fault_service_mode_t) : N NV_STATUS :=
  b ← gets svc_batch;
  if uses_parallel Q mode b then service_fault_batch_parallel
  else
    restarts ← gets (fun s => op_restarts (hw (sv_gpu s)));
    service_fault_batch_serial P caps (Z.to_nat (num_coalesced_faults b) + restarts) mode.

(** The replay after a batch, which the policies other than these leave to the
    end or have done per block. *)
Definition replay_batch (l : service_locals) : N (NV_STATUS * service_locals) :=
  g ← gets sv_gpu;
  match replay_policy (replayable g) with
  | UVM_PERF_FAULT_REPLAY_POLICY_BATCH =>
      st ← on_gpu (push_replay_on_gpu caps UVM_FAULT_REPLAY_TYPE_START true);
      mret (st, if is_ok st then l <| l_replays ::= fun n => u32 (n + 1) |> else l)
  | UVM_PERF_FAULT_REPLAY_POLICY_BATCH_FLUSH =>
      let mode := batch_flush_mode P (replay_update_put_ratio (replayable g)) (batch g) in
      st ← on_gpu (fault_buffer_flush_locked caps mode UVM_FAULT_REPLAY_TYPE_START true);
      if is_ok st then
        st ← on_gpu replay_tracker_wait;
        mret (st, l <| l_replays ::= fun n => u32 (n + 1) |>)
      else mret (st, l)
  | _ => mret (NV_OK, l)
  end.

Definition add_replays (l : service_locals) : N service_locals :=
  n ← gets (fun s => num_replays (svc_batch s));
  mret (l <| l_replays ::= (fun m : Z => u32 (m + n)) |>).

(** What follows the service of a batch. *)
Definition finish_batch (cancel_fuel : nat) (status : NV_STATUS) (l : service_locals) : N iteration :=
  if negb (is_ok status) then
    on_gpu (cancel_fault_batch caps (uvm_tools_status_to_fatal_fault_reason status)) ;;
    mret (Stop status l)
  else
    fatal ← gets (fun s => fatal_va_space (svc_batch s));
    if bool_decide (fatal <> None) then
      st ← on_gpu batch_tracker_wait;
      st ← (if is_ok st then cancel_faults_precise P caps channels_at cancel_fuel else mret st);
      mret (if is_ok st then Again (l <| l_batches ::= (fun n : Z => u32 (n + 1)) |>) else Stop st l)
    else
      r ← replay_batch l;
      throttled ← gets (fun s => has_throttled_faults (svc_batch s));
      mret (if is_ok r.1 then Again (count_batch throttled r.2) else Stop r.1 r.2).

Definition service_iteration (cancel_fuel : nat) (l : service_locals) : N iteration :=
  upd_svc_batch reset_batch_counters ;;
  st ← on_gpu (fetch_fault_buffer_entries P caps FAULT_FETCH_MODE_BATCH_READY);
  if negb (is_ok st) then mret (Stop st l)
  else
    n ← gets (fun s => num_cached_faults (svc_batch s));
    if n =? 0 then mret (Stop NV_OK l)
    else
      upd_svc_batch (fun b => b <| batch_id ::= fun n => u32 (n + 1) |>) ;;
      st ← on_gpu (preprocess_fault_batch P caps channels_at);
      l ← add_replays l;
      if bool_decide (st = NV_WARN_MORE_PROCESSING_REQUIRED) then mret (Restart l)
      else if negb (is_ok st) then mret (Stop st l)
      else
        st ← service_fault_batch FAULT_SERVICE_MODE_REGULAR;
        l ← add_replays l;
        on_gpu enable_disable_prefetch_faults ;;
        finish_batch cancel_fuel st l.

Definition limits_reached (l : service_locals) : bool :=
  (uvm_perf_fault_max_throttle_per_service P <=? l_throttled l) ||
  (uvm_perf_fault_max_batches_per_service P <=? l_batches l).

(** [while (1)] *)
Fixpoint service_replayable_loop (fuel cancel_fuel : nat) (status : NV_STATUS) (l : service_locals) : N loop_result :=
  if limits_reached l then mret (mk_loop_result status l 0 true)
  else
    match fuel with
    | O => mret (mk_loop_result status l 0 false)
    | S fuel =>
        x ← service_iteration cancel_fuel l;
        match x with
        | Stop status l => mret (mk_loop_result status l 0 true)
        | Restart l =>
            r ← service_replayable_loop fuel cancel_fuel NV_WARN_MORE_PROCESSING_REQUIRED l;
            mret (r <| res_restarts ::= S |>)
        | Again l => service_replayable_loop fuel cancel_fuel NV_OK l
        end
    end.

(** The final replay. *)
Definition final_replay (status : NV_STATUS) (l : service_locals) : N NV_STATUS :=
  policy ← gets (fun s => replay_policy (replayable (sv_gpu s)));
  let status := if bool_decide (status = NV_WARN_MORE_PROCESSING_REQUIRED) then NV_OK else status in
  if (is_ok status && bool_decide (policy = UVM_PERF_FAULT_REPLAY_POLICY_ONCE)) || (l_replays l =? 0)
  then on_gpu (push_replay_on_gpu caps UVM_FAULT_REPLAY_TYPE_START true)
  else mret status.

Definition uvm_gpu_service_replayable_faults (fuel cancel_fuel : nat) : N (NV_STATUS * loop_result) :=
  upd_svc_batch (fun b => b <| batch_tracker := [] |>) ;;
  r ← service_replayable_loop fuel cancel_fuel NV_OK (mk_locals 0 0 0);
  st ← final_replay (res_status r) (res_locals r);
  upd_svc_batch (fun b => b <| batch_tracker := [] |>) ;;
  mret (st, r).

End ServiceLoop.

(** ** Replays are counted *)

#[export] Instance steady_preorder D : PreOrder (steady (D := D)).
Proof. split; [by split|]. intros a b c [] []. split; [by etrans|congruence]. Qed.

#[export] Instance gpu_counted_preorder D : PreOrder (gpu_counted (D := D)).
Proof.
  split; [intros g; split; [done|by exists []]|].
  intros a b c [S1 (l & E1 & R1)] [S2 (m & E2 & R2)]. split; [by etrans|]. exists (m ++ l).
  split; [by rewrite E2, E1, app_assoc|]. intros Hne. apply Exists_app.
  destruct (decide (num_replays (batch b) = num_replays (batch a))) as [E|]; [|by right; apply R1].
  left. apply R2. congruence.
Qed.

#[export] Instance counted_preorder D : PreOrder (counted (D := D)).
Proof. split; [intros s|intros a b c]; unfold counted; [reflexivity|apply transitivity]. Qed.

Lemma grows_steady {D} (g g' : uvm_gpu D) : grows g g' -> steady g g'.
Proof.
  intros Hg. split; [eapply grows_adds; [|exact Hg]; by intros []|]. by destruct Hg as (l & _ & _ & _ & [= _ ->]).
Qed.

Lemma grows_counted {D} (g g' : uvm_gpu D) : grows g g' -> gpu_counted g g'.
Proof. intros Hg. split; [by apply grows_steady|]. destruct Hg as (l & E & _ & R & _). by exists l. Qed.

Definition svc_steady {D} (s s' : svc D) : Prop := steady (sv_gpu s) (sv_gpu s').

#[export] Instance svc_steady_preorder D : PreOrder (svc_steady (D := D)).
Proof. split; [intros s|intros a b c]; unfold svc_steady; [reflexivity|apply transitivity]. Qed.

(** What the hardware was told last, [d] before the trace began. *)
Fixpoint prefetch_hw (d : bool) (t : list event) : bool :=
  match t with
  | [] => d
  | EvPrefetchFaults en :: _ => en
  | _ :: t => prefetch_hw d t
  end.

(** The hardware reports prefetch faults exactly when the driver thinks it does. *)
Definition prefetch_synced (d : bool) {D} (g : uvm_gpu D) : Prop :=
  prefetch_hw d (trace g) = prefetch_faults_enabled g.

Abbreviation extends := (adds (fun _ => True)).

(** The trace is extended and prefetch faults stay synchronised. *)
Record tame {D} (g g' : uvm_gpu D) : Prop := {
  ta_trace : extends g g';
  ta_synced : forall d, prefetch_synced d g -> prefetch_synced d g';
}.

#[export] Instance tame_preorder D : PreOrder (tame (D := D)).
Proof. split; [by split|]. intros a b c [] []. split; [by etrans|auto]. Qed.

Lemma adds_extends ok {D} (g g' : uvm_gpu D) : adds ok g g' -> extends g g'.
Proof. intros (l & E & _). exists l. split; [done|by apply Forall_true]. Qed.

Lemma steady_tame {D} (g g' : uvm_gpu D) : steady g g' -> tame g g'.
Proof.
  intros [H1 H2]. split; [by eapply adds_extends|]. intros d. unfold prefetch_synced. rewrite H2. intros <-.
  destruct H1 as (l & -> & Hl). induction Hl as [|e l He Hl IH]; [done|]. by destruct e.
Qed.

Definition svc_tame {D} (s s' : svc D) : Prop := tame (sv_gpu s) (sv_gpu s').

#[export] Instance svc_tame_preorder D : PreOrder (svc_tame (D := D)).
Proof. split; [intros s|intros a b c]; unfold svc_tame; [reflexivity|apply transitivity]. Qed.

Section Replays.
  Context {D : Type} `{Hal : FaultBufferHal D} `{!FaultBufferHalLive D} `{Ops : GpuOps D}
    `{Va : VaSpaceOps D} `{!VaSpaceOpsLive D} `{!VaSpaceOpsLaws D} `{KernelSort}
    `{Time : Clock D} `{Par : ParallelService D}.
  Variable P : module_params.
  Variable Q : service_params.
  Variable caps : gpu_caps.
  Variable channels_at : uvm_gpu D -> channel_tables.

  Abbreviation C := (respects (counted (D := D))).
  Abbreviation E := (respects (svc_steady (D := D))).

Lemma on_gpu_counted {A} (m : ST (uvm_gpu D) A) : respects gpu_counted m -> C (on_gpu m).
Proof. apply on_gpu_lift. Qed.

Lemma on_gpu_grows_counted {A} (m : ST (uvm_gpu D) A) : respects grows m -> C (on_gpu m).
Proof. intros Hm. apply on_gpu_counted. intros g a g' E1%Hm. by apply grows_counted. Qed.

Lemma frame_counted {A} (m : ST (svc D) A) : respects frame m -> C m.
Proof. intros Hm s a s' [_ E1 _]%Hm. by apply grows_counted. Qed.

Lemma emit_steady e : is_prefetch_event e = false -> respects steady (emit (D := D) e).
Proof. intros He g a g' [= <- <-]. split; [|done]. exists [e]. split; [done|by constructor]. Qed.

Lemma emit_counted e : is_prefetch_event e = false -> C (on_gpu (emit e)).
Proof.
  intros He. apply on_gpu_counted. intros g a g' E1. split; [exact (emit_steady e He _ _ _ E1)|].
  injection E1 as _ <-. by exists [e].
Qed.

Lemma upd_svc_batch_counted f : (forall b, num_replays (f b) = num_replays b) -> C (upd_svc_batch f).
Proof.
  intros Hf s a s' [= <- <-]. split; [split; [by exists []|done]|]. exists []. split; [done|]. intros Hn.
  by destruct Hn; apply Hf.
Qed.

#[local] Hint Resolve on_gpu_grows_counted emit_counted upd_svc_batch_counted : respects.

(** *** The serial path *)

Lemma dispatch_counted vs mm i h : C (service_fault_batch_dispatch P vs mm i h).
Proof. apply frame_counted, dispatch_frame. Qed.

Lemma replay_block_counted per : C (replay_block caps per).
Proof. apply frame_counted, replay_block_frame. Qed.

#[local] Hint Resolve dispatch_counted replay_block_counted : respects.

Lemma switch_counted held vs : C (switch_va_space held vs).
Proof. unfold switch_va_space, lock_va_space, unlock_va_space. respects. Qed.

#[local] Hint Resolve switch_counted : respects.

Lemma note_fatal_replays vs i b : num_replays (note_fatal_fault vs i b) = num_replays b.
Proof. unfold note_fatal_fault. by destruct (fatal_va_space b). Qed.

#[local] Hint Resolve note_fatal_replays : respects.

Lemma batch_step_counted per i held h : C (batch_step P caps per i held h).
Proof. unfold batch_step, batch_dispatch, unlock_va_space. respects. Qed.

#[local] Hint Resolve batch_step_counted : respects.

Lemma batch_loop_counted fuel : forall per i held h, C (batch_loop P caps fuel per i held h).
Proof. induction fuel as [|fuel IH]; intros; simpl; respects. Qed.

#[local] Hint Resolve batch_loop_counted : respects.

Lemma serial_counted fuel mode : C (service_fault_batch_serial P caps fuel mode).
Proof. unfold service_fault_batch_serial, end_batch, unlock_va_space. respects. Qed.

Lemma service_counted mode : C (service_fault_batch P Q caps mode).
Proof.
  pose proof serial_counted. pose proof parallel_counted. unfold service_fault_batch. respects.
Qed.

(** *** Cancels leave prefetch faults alone *)

Lemma counted_steady {A} (m : ST (svc D) A) : C m -> E m.
Proof. by intros Hm s a s' [E1 _]%Hm. Qed.

Lemma on_gpu_steady {A} (m : ST (uvm_gpu D) A) : respects steady m -> E (on_gpu m).
Proof. apply on_gpu_lift. Qed.

Lemma grows_respects_steady {A} (m : ST (uvm_gpu D) A) : respects grows m -> respects steady m.
Proof. intros Hm g a g' E1%Hm. by apply grows_steady. Qed.

Lemma upd_batch_steady f : respects steady (upd_batch (D := D) f).
Proof. intros g a g' [= <- <-]. split; [by exists []|done]. Qed.

Lemma upd_svc_batch_steady f : E (upd_svc_batch f).
Proof. intros s a s' [= <- <-]. split; [by exists []|done]. Qed.

#[local] Hint Resolve on_gpu_steady emit_steady upd_batch_steady upd_svc_batch_steady : respects.

Lemma cancel_va_loop_steady n : forall offset i pdb mode,
  respects steady (cancel_va_loop (D := D) n offset i pdb mode).
Proof. induction n as [|n IH]; intros; simpl; unfold skip; respects. Qed.

Lemma precise_va_steady i mode : respects steady (cancel_fault_precise_va (D := D) i mode).
Proof.
  assert (respects steady (uvm_push_begin_acquire (D := D))) by (apply grows_respects_steady; respects).
  assert (respects steady (replay_tracker_clear (D := D)))
    by (apply grows_respects_steady; unfold replay_tracker_clear; respects).
  pose proof cancel_va_loop_steady. unfold cancel_fault_precise_va, uvm_push_end_and_wait. respects.
Qed.

#[local] Hint Resolve precise_va_steady : respects.

Lemma for_each_steady {A} (l : list A) (f : A -> ST (uvm_gpu D) unit) :
  (forall a, respects steady (f a)) -> respects steady (for_each l f).
Proof. intros Hf. induction l as [|x l IH]; simpl; unfold skip; respects. Qed.

Lemma for_status_steady {A} (l : list A) (f : A -> ST (uvm_gpu D) NV_STATUS) :
  (forall a, respects steady (f a)) -> respects steady (for_status l f).
Proof. intros Hf. induction l as [|x l IH]; simpl; respects. Qed.

Lemma push_cancel_steady inst global gpc client :
  respects steady (push_cancel_on_gpu (D := D) inst global gpc client).
Proof. apply grows_respects_steady, push_cancel_grows. Qed.

Lemma flush_steady mode type ctx : respects steady (fault_buffer_flush_locked caps mode type ctx (D := D)).
Proof. apply grows_respects_steady, flush_locked_grows. Qed.

#[local] Hint Resolve for_each_steady for_status_steady push_cancel_steady flush_steady : respects.

Lemma cancel_va_space_steady n : forall vs skip reason i,
  respects steady (cancel_va_space (D := D) n vs skip reason i).
Proof. induction n as [|n IH]; intros; simpl; unfold cancel_entry; respects. Qed.

#[local] Hint Resolve cancel_va_space_steady : respects.

Lemma cancel_all_loop_steady fuel : forall reason i, respects steady (cancel_all_loop (D := D) fuel reason i).
Proof. induction fuel as [|fuel IH]; intros; simpl; unfold down_read, up_read; respects. Qed.

#[local] Hint Resolve cancel_all_loop_steady : respects.

Lemma cancel_fault_tlb_steady reason i : respects steady (cancel_fault_tlb reason i (D := D)).
Proof. unfold cancel_fault_tlb, down_read, up_read, push_cancel_on_gpu_global. respects. Qed.

Lemma try_utlb_steady i : respects steady (try_to_cancel_utlb i (D := D)).
Proof.
  unfold try_to_cancel_utlb, record_fatal_fault_helper, down_read, up_read, push_cancel_on_gpu_targeted. respects.
Qed.

#[local] Hint Resolve cancel_fault_tlb_steady try_utlb_steady : respects.

Lemma cancel_batch_steady reason : respects steady (cancel_fault_batch caps reason (D := D)).
Proof.
  unfold cancel_fault_batch, cancel_faults_all, cancel_fault_batch_tlb. respects.
Qed.

Lemma cancel_dispatched_steady n : forall i, E (cancel_dispatched n i).
Proof. induction n as [|n IH]; intros; simpl; respects. Qed.

#[local] Hint Resolve cancel_dispatched_steady : respects.

Lemma target_loop_steady fuel : forall vs mm st i, E (cancel_target_loop P fuel vs mm st i).
Proof.
  pose proof (fun vs mm i h => counted_steady _ (dispatch_counted vs mm i h)).
  induction fuel as [|fuel IH]; intros; simpl; unfold cancel_target_step; respects.
Qed.

Lemma fetch_steady mode : respects steady (fetch_fault_buffer_entries P caps mode (D := D)).
Proof. apply grows_respects_steady, fetch_grows. Qed.

Lemma preprocess_steady : respects steady (preprocess_fault_batch P caps channels_at (D := D)).
Proof. apply grows_respects_steady, preprocess_grows. Qed.

Lemma tracker_wait_steady : respects steady (replay_tracker_wait (D := D)).
Proof. apply grows_respects_steady, tracker_wait_grows. Qed.

#[local] Hint Resolve target_loop_steady fetch_steady preprocess_steady tracker_wait_steady : respects.

Lemma for_cancel_steady : E (service_fault_batch_for_cancel P caps channels_at).
Proof.
  assert (respects steady (hw_fault_buffer_flush_locked caps true (D := D)))
    by (apply grows_respects_steady; respects).
  unfold service_fault_batch_for_cancel, for_cancel_locked, for_cancel_refetch, down_read, up_read. respects.
Qed.

Lemma try_utlbs_steady : respects steady (try_to_cancel_utlbs (D := D)).
Proof. unfold try_to_cancel_utlbs. respects. Qed.

Lemma precise_tlb_loop_steady fuel : forall first, E (precise_tlb_loop P caps channels_at fuel first).
Proof.
  pose proof try_utlbs_steady. pose proof (fun f m => counted_steady _ (serial_counted f m)).
  induction fuel as [|fuel IH]; intros; simpl; unfold precise_tlb_step, service_fault_batch_cancel; respects.
Qed.

Lemma batch_tracker_wait_steady : respects steady (batch_tracker_wait (D := D)).
Proof. unfold batch_tracker_wait. respects. Qed.

#[local] Hint Resolve batch_tracker_wait_steady : respects.

(** Prefetch faults are turned off for the loop, and on again. *)
Lemma steady_between (m : ST (svc D) NV_STATUS) s st s' : E m ->
  (en ← gets (fun s => prefetch_faults_enabled (sv_gpu s));
   when en (on_gpu (set_prefetch_faults false)) ;;
   status ← m;
   en ← gets (fun s => prefetch_faults_enabled (sv_gpu s));
   when en (on_gpu (set_prefetch_faults true)) ;;
   mret status) s = (st, s') -> svc_tame s s'.
Proof.
  intros Hm. unfold mbind, ST_bind, gets. destruct (prefetch_faults_enabled (sv_gpu s)) eqn:En; simpl.
  - set (s0 := s <| sv_gpu ::= _ |>). destruct (m s0) as [st1 s1] eqn:E1. apply Hm in E1 as [E1 E2].
    rewrite E2. simpl. rewrite En. intros [= <- <-]. split.
    + apply adds_extends in E1 as (l & E3 & _). exists (EvPrefetchFaults true :: l ++ [EvPrefetchFaults false]).
      split; [|by apply Forall_true]. simpl. rewrite E3. simpl. by rewrite <- app_assoc.
    + intros d _. unfold prefetch_synced. simpl. by rewrite E2.
  - destruct (m s) as [st1 s1] eqn:E1. apply Hm in E1 as E2. rewrite (st_enabled _ _ E2), En.
    intros [= <- <-]. by apply steady_tame.
Qed.

Lemma cancel_precise_tame fuel : respects svc_tame (cancel_faults_precise P caps channels_at fuel).
Proof.
  assert (forall type ctx, respects steady (push_replay_on_gpu caps type ctx (D := D)))
    by (intros; apply grows_respects_steady; respects).
  intros s st s'. unfold cancel_faults_precise. destruct (fault_cancel_va_supported caps).
  { intros E1%for_cancel_steady. by apply steady_tame. }
  unfold cancel_faults_precise_tlb. intros Hrun.
  assert (exists st1 s1, svc_tame s s1 /\
    (status ← (if is_ok st1 then on_gpu (push_replay_on_gpu caps UVM_FAULT_REPLAY_TYPE_START true) else mret st1);
     tracker_status ← on_gpu batch_tracker_wait;
     mret (if is_ok status then tracker_status else status)) s1 = (st, s')) as (st1 & s1 & T & Hend).
  { pose proof (steady_between (precise_tlb_loop P caps channels_at fuel true) s) as Hb.
    revert Hrun Hb. unfold mbind, ST_bind, gets.
    destruct (when _ _ s) as [u0 s0]. destruct (precise_tlb_loop _ _ _ _ _ s0) as [st1 s1].
    destruct (when _ _ s1) as [u2 s2]. intros Hrun Hb. exists st1, s2. split; [|exact Hrun].
    by apply (Hb st1 s2); [apply precise_tlb_loop_steady|]. }
  etrans; [exact T|]. apply steady_tame. revert Hend.
  match goal with |- ?m s1 = _ -> _ => enough (E m) as Hm by apply Hm end. respects.
Qed.

(** *** Replays that succeed are in the trace *)

Definition replayed (g g' : uvm_gpu D) : Prop :=
  exists l, trace g' = l ++ trace g /\ Exists (fun e => is_replay e = true) l.

Lemma replayed_then g g1 g2 : replayed g g1 -> extends g1 g2 -> replayed g g2.
Proof.
  intros (l & E1 & R) (m & E2 & _). exists (m ++ l). split; [by rewrite E2, E1, app_assoc|].
  apply Exists_app. by right.
Qed.

Lemma then_replayed g g1 g2 : extends g g1 -> replayed g1 g2 -> replayed g g2.
Proof.
  intros (l & E1 & _) (m & E2 & R). exists (m ++ l). split; [by rewrite E2, E1, app_assoc|].
  apply Exists_app. by left.
Qed.

Lemma grows_extends {A} (m : ST (uvm_gpu D) A) : respects grows m -> respects extends m.
Proof. intros Hm g a g' E1%Hm. by eapply grows_adds. Qed.

Lemma push_replay_replayed type ctx (g : uvm_gpu D) st g' :
  push_replay_on_gpu caps type ctx g = (st, g') -> st = NV_OK \/ op_push_begin_acquire g = NV_OK -> replayed g g'.
Proof.
  unfold push_replay_on_gpu, try. unfold mbind at 1, ST_bind at 1.
  destruct (uvm_push_begin_acquire g) as [st0 g0] eqn:E0.
  assert (st0 = op_push_begin_acquire g) as Hst.
  { revert E0. unfold uvm_push_begin_acquire, mbind, ST_bind, gets. by destruct (when _ _ g); intros [= <- _]. }
  apply (grows_extends _ push_begin_grows) in E0.
  destruct (is_ok st0) eqn:Hok.
  2:{ intros [= <- <-] Ho. rewrite <- Hst in Ho. by destruct Ho as [Ho|Ho]; rewrite Ho in Hok. }
  unfold mbind at 1, ST_bind at 1. destruct (emit _ g0) as [u g1] eqn:E1. intros Hrun _.
  eapply then_replayed; [exact E0|]. apply (replayed_then _ g1).
  - injection E1 as _ <-. exists [EvReplay type]. split; [done|by constructor].
  - revert Hrun. match goal with |- ?m g1 = _ -> _ => enough (respects extends m) as Hm by apply Hm end.
    assert (respects extends (replay_tracker_add_push_safe (D := D))) by (apply grows_extends; respects).
    assert (forall f, respects extends (upd_replayable (D := D) f)) by (intros f a b c [= <- <-]; by exists []).
    assert (forall f, respects extends (upd_batch (D := D) f)) by (intros f a b c [= <- <-]; by exists []).
    respects.
Qed.

Lemma flush_locked_replayed mode type ctx (g : uvm_gpu D) g' :
  fault_buffer_flush_locked caps mode type ctx g = (NV_OK, g') -> replayed g g'.
Proof.
  unfold fault_buffer_flush_locked, try.
  match goal with |- (?m ≫= ?k) g = _ -> _ => assert (respects extends m) as H1 end.
  { apply grows_extends. respects. }
  unfold mbind at 1, ST_bind at 1. match goal with |- context [(let (_, _) := ?m g in _) = _] => destruct (m g) as [st1 g1] eqn:E1 end.
  apply H1 in E1. destruct (is_ok st1) eqn:Hok1; [|intros [= -> _]; done].
  unfold mbind at 1, ST_bind at 1.
  match goal with |- context [(let (_, _) := ?m g1 in _) = _] => destruct (m g1) as [st2 g2] eqn:E2 end.
  apply (grows_extends _) in E2; [|respects].
  destruct (is_ok st2) eqn:Hok2; [|intros [= -> _]; done].
  unfold mbind at 1, ST_bind at 1, gets at 1. unfold mbind at 1, ST_bind at 1.
  destruct (flush_loop _ _ _ _ g2) as [get g3] eqn:E3. apply (grows_extends _ (flush_loop_grows _ _ _ _)) in E3.
  unfold mbind at 1, ST_bind at 1. destruct (write_get get g3) as [u g4] eqn:E4.
  apply (grows_extends _ (write_get_grows _)) in E4. intros Hrun%push_replay_replayed; [|by left].
  do 4 (eapply then_replayed; [eassumption|]). exact Hrun.
Qed.

Lemma on_gpu_tame {A} (m : ST (uvm_gpu D) A) : respects tame m -> respects svc_tame (on_gpu m).
Proof. apply on_gpu_lift. Qed.

Lemma prefetch_tame : respects tame (enable_disable_prefetch_faults P Q caps (D := D)).
Proof.
  assert (respects tame (uvm_parent_gpu_enable_prefetch_faults (D := D))) as Hen.
  { intros g a g'. unfold uvm_parent_gpu_enable_prefetch_faults, mbind, ST_bind, gets.
    destruct (prefetch_faults_enabled g); intros [= <- <-]; [done|].
    split; [|done]. exists [EvPrefetchFaults true]. by split; [|repeat constructor]. }
  assert (respects tame (uvm_parent_gpu_disable_prefetch_faults (D := D))) as Hdis.
  { intros g a g'. unfold uvm_parent_gpu_disable_prefetch_faults, mbind, ST_bind, gets.
    destruct (prefetch_faults_enabled g); intros [= <- <-]; [|done].
    split; [|done]. exists [EvPrefetchFaults false]. by split; [|repeat constructor]. }
  unfold enable_disable_prefetch_faults. respects.
Qed.

(** *** The local count *)

(** If the count becomes nonzero, a replay was pushed. *)
Record tallied (s : svc D) (l l' : service_locals) (s' : svc D) : Prop := {
  ta_tame : svc_tame s s';
  ta_replays : l_replays l' <> 0 -> l_replays l = 0 -> replayed (sv_gpu s) (sv_gpu s');
}.

Lemma tallied_then s l l1 s1 l2 s2 : tallied s l l1 s1 -> tallied s1 l1 l2 s2 -> tallied s l l2 s2.
Proof.
  intros [A1 A2] [B1 B2]. split; [by etrans|]. intros Hn H0.
  destruct (decide (l_replays l1 = 0)) as [E1|E1].
  - eapply then_replayed; [apply A1|by apply B2].
  - eapply replayed_then; [by apply A2|apply B1].
Qed.

Lemma tallied_same s l l' s' : svc_tame s s' -> l_replays l' = l_replays l -> tallied s l l' s'.
Proof. intros He E1. split; [done|congruence]. Qed.

Lemma add_replays_tallied s0 s l l1 s1 :
  num_replays (svc_batch s0) = 0 -> counted s0 s -> add_replays l s = (l1, s1) -> s1 = s /\ tallied s0 l l1 s.
Proof.
  intros H0 [S1 (t & E1 & R1)] [= <- <-]. split; [done|]. split.
  - by apply steady_tame.
  - simpl. intros Hn Hl. exists t. split; [done|]. apply R1. fold (svc_batch s0). rewrite H0. intros E2.
    apply Hn. unfold svc_batch. by rewrite Hl, E2.
Qed.

Lemma replay_batch_tallied l s r s' : replay_batch P caps l s = (r, s') -> tallied s l r.2 s'.
Proof.
  unfold replay_batch. unfold mbind at 1, ST_bind at 1, gets at 1.
  destruct (replay_policy _); try (intros [= <- <-]; by apply tallied_same).
  - unfold mbind, ST_bind, on_gpu. destruct (push_replay_on_gpu _ _ _ _) as [st g] eqn:E1. intros [= <- <-].
    pose proof (steady_tame _ _ (grows_steady _ _ (push_replay_grows _ _ _ _ _ _ E1))) as He. simpl.
    destruct (is_ok st) eqn:Hok; [|by apply tallied_same]. apply is_ok_true in Hok as ->.
    split; [done|]. intros _ _. by eapply push_replay_replayed; [|left].
  - unfold mbind at 1, ST_bind at 1. unfold on_gpu at 1.
    destruct (fault_buffer_flush_locked _ _ _ _ _) as [st g] eqn:E1.
    pose proof (steady_tame _ _ (flush_steady _ _ _ _ _ _ E1)) as He. destruct (is_ok st) eqn:Hok.
    2:{ intros [= <- <-]. by apply tallied_same. }
    apply is_ok_true in Hok as ->. apply flush_locked_replayed in E1. unfold mbind, ST_bind, on_gpu.
    destruct (replay_tracker_wait _) as [st2 g2] eqn:E2. intros [= <- <-].
    apply tracker_wait_steady, steady_tame in E2. simpl in *.
    split; [unfold svc_tame; simpl; by etrans|]. intros _ _. eapply replayed_then; [done|apply E2].
Qed.

Definition locals_of (x : iteration) : service_locals :=
  match x with Stop _ l | Restart l | Again l => l end.

Lemma finish_batch_tallied cf st l s x s' :
  finish_batch P caps channels_at cf st l s = (x, s') -> tallied s l (locals_of x) s'.
Proof.
  unfold finish_batch. destruct (negb (is_ok st)).
  { unfold mbind, ST_bind. destruct (on_gpu _ s) as [u s1] eqn:E1. intros [= <- <-].
    apply tallied_same; [|done]. apply steady_tame. eapply on_gpu_steady; [apply cancel_batch_steady|exact E1]. }
  unfold mbind at 1, ST_bind at 1, gets at 1. case_bool_decide.
  - unfold mbind at 1, ST_bind at 1. destruct (on_gpu batch_tracker_wait s) as [st1 s1] eqn:E1.
    apply (on_gpu_steady _ batch_tracker_wait_steady), steady_tame in E1. unfold mbind, ST_bind.
    match goal with |- context [(if is_ok st1 then ?m else ?k) s1] =>
      destruct ((if is_ok st1 then m else k) s1) as [st2 s2] eqn:E2 end.
    assert (svc_tame s1 s2) as E3.
    { destruct (is_ok st1); [by apply cancel_precise_tame in E2|by injection E2 as _ <-]. }
    intros [= <- <-]. apply tallied_same; [unfold svc_tame; by etrans|by destruct (is_ok st2)].
  - unfold mbind, ST_bind. destruct (replay_batch P caps l s) as [r s1] eqn:E1. unfold gets.
    apply replay_batch_tallied in E1. intros [= <- <-]. destruct (is_ok r.1); [|done].
    eapply tallied_then; [exact E1|]. apply tallied_same; [done|].
    unfold locals_of, count_batch. by destruct (has_throttled_faults _).
Qed.

Lemma service_iteration_tallied cf l s x s' :
  service_iteration P Q caps channels_at cf l s = (x, s') -> tallied s l (locals_of x) s'.
Proof.
  unfold service_iteration. unfold mbind at 1, ST_bind at 1.
  destruct (upd_svc_batch reset_batch_counters s) as [u s0] eqn:E0.
  assert (num_replays (svc_batch s0) = 0) as H0 by (by injection E0 as _ <-).
  apply upd_svc_batch_steady, steady_tame in E0. intros Hrun. cut (tallied s0 l (locals_of x) s').
  { intros Ht. eapply tallied_then; [|exact Ht]. by apply tallied_same. }
  revert Hrun. clear E0 s. unfold mbind at 1, ST_bind at 1.
  destruct (on_gpu (fetch_fault_buffer_entries _ _ _) s0) as [st1 s1] eqn:E1.
  apply (on_gpu_grows_counted _ (fetch_grows _ _ _)) in E1.
  destruct (negb (is_ok st1)).
  { intros [= <- <-]. by apply tallied_same; [apply steady_tame, E1|]. }
  unfold mbind at 1, ST_bind at 1, gets at 1. destruct (_ =? 0).
  { intros [= <- <-]. by apply tallied_same; [apply steady_tame, E1|]. }
  unfold mbind at 1, ST_bind at 1. destruct (upd_svc_batch _ s1) as [u1 s2] eqn:E2.
  apply upd_svc_batch_counted in E2; [|done]. unfold mbind at 1, ST_bind at 1.
  destruct (on_gpu (preprocess_fault_batch _ _ _) s2) as [st2 s3] eqn:E3.
  apply (on_gpu_grows_counted _ (preprocess_grows _ _ _)) in E3.
  assert (counted s0 s3) as H3 by (by do 2 (etrans; [eassumption|])).
  unfold mbind at 1, ST_bind at 1. destruct (add_replays l s3) as [l1 s3'] eqn:E4.
  apply (add_replays_tallied s0) in E4 as [-> T1]; [|done|done].
  case_bool_decide; [by intros [= <- <-]|]. destruct (negb (is_ok st2)); [by intros [= <- <-]|].
  unfold mbind at 1, ST_bind at 1. destruct (service_fault_batch _ _ _ _ s3) as [st3 s4] eqn:E5.
  apply service_counted in E5. unfold mbind at 1, ST_bind at 1. destruct (add_replays l1 s4) as [l2 s4'] eqn:E6.
  apply (add_replays_tallied s0) in E6 as [-> T2]; [|done|by etrans].
  unfold mbind at 1, ST_bind at 1. destruct (on_gpu (enable_disable_prefetch_faults _ _ _) s4) as [u2 s5] eqn:E7.
  intros E8%finish_batch_tallied. eapply tallied_then; [|exact E8].
  apply (on_gpu_tame _ prefetch_tame) in E7.
  eapply (tallied_then _ _ l2 s4); [|by apply tallied_same].
  split; [apply T2|]. intros Hn Hl. destruct (decide (l_replays l1 = 0)) as [E9|E9]; [by apply T2|].
  eapply replayed_then; [by apply T1|apply steady_tame, E5].
Qed.

Lemma service_loop_tallied cf fuel : forall st l s r s',
  service_replayable_loop P Q caps channels_at fuel cf st l s = (r, s') -> tallied s l (res_locals r) s'.
Proof.
  induction fuel as [|fuel IH]; intros st l s r s'; simpl; destruct (limits_reached P l);
    try (intros [= <- <-]; by apply tallied_same).
  unfold mbind at 1, ST_bind at 1.
  destruct (service_iteration P Q caps channels_at cf l s) as [x s1] eqn:E1.
  apply service_iteration_tallied in E1. destruct x as [st1 l1|l1|l1]; simpl in E1.
  - by intros [= <- <-].
  - unfold mbind, ST_bind. destruct (service_replayable_loop _ _ _ _ _ _ _ _ s1) as [r1 s2] eqn:E2.
    apply IH in E2. intros [= <- <-]. by eapply tallied_then.
  - intros E2%IH. by eapply tallied_then.
Qed.

(** C9: Servicing the faults of a GPU always ends with a replay having been
    pushed, so that no fault that is not in the buffer is left waiting: whatever
    the policy, and also when fetching, servicing or cancelling failed, unless no
    push can be started, and then an error is returned. *)
Theorem service_always_replays fuel cf (s : svc D) st r s' :
  uvm_gpu_service_replayable_faults P Q caps channels_at fuel cf s = ((st, r), s') ->
  st = NV_OK \/ (forall g, op_push_begin_acquire g = NV_OK) ->
  exists l, trace (sv_gpu s') = l ++ trace (sv_gpu s) /\ Exists (fun e => is_replay e = true) l.
Proof.
  unfold uvm_gpu_service_replayable_faults. unfold mbind at 1, ST_bind at 1.
  destruct (upd_svc_batch _ s) as [u s0] eqn:E0. apply upd_svc_batch_steady, steady_tame in E0.
  unfold mbind at 1, ST_bind at 1.
  destruct (service_replayable_loop _ _ _ _ _ _ _ _ s0) as [r0 s1] eqn:E1. apply service_loop_tallied in E1 as [T1 T2].
  unfold mbind at 1, ST_bind at 1.
  destruct (final_replay caps _ _ s1) as [st2 s2] eqn:E2.
  intros [= <- <- <-] Hok. change (replayed (sv_gpu s) (sv_gpu s2)).
  eapply then_replayed; [apply E0|]. unfold final_replay in E2. unfold mbind, ST_bind, gets in E2.
  destruct (_ || _) eqn:Hc.
  - eapply then_replayed; [apply T1|]. unfold on_gpu in E2.
    destruct (push_replay_on_gpu _ _ _ _) as [st3 g] eqn:E3. injection E2 as <- <-. simpl.
    eapply push_replay_replayed; [exact E3|]. destruct Hok as [->|Hok]; [by left|right; apply Hok].
  - apply orb_false_iff in Hc as [_ Hc%Z.eqb_neq]. injection E2 as _ <-. by apply T2.
Qed.

(** The hardware reports prefetch faults exactly when the driver believes it
    does: the routine keeps that so, although it turns them off when most of a
    batch were invalid, on again later, and off while it cancels by uTLB. *)
Theorem service_keeps_prefetch_synced fuel cf d (s : svc D) r s' :
  uvm_gpu_service_replayable_faults P Q caps channels_at fuel cf s = (r, s') ->
  prefetch_synced d (sv_gpu s) -> prefetch_synced d (sv_gpu s').
Proof.
  unfold uvm_gpu_service_replayable_faults, mbind, ST_bind.
  destruct (upd_svc_batch _ s) as [u s0] eqn:E0. apply upd_svc_batch_steady, steady_tame in E0.
  destruct (service_replayable_loop _ _ _ _ _ _ _ _ s0) as [r0 s1] eqn:E1. apply service_loop_tallied in E1 as [T1 _].
  destruct (final_replay caps _ _ s1) as [st2 s2] eqn:E2.
  assert (E (final_replay caps (res_status r0) (res_locals r0) (D := D))) as Hf.
  { assert (respects steady (push_replay_on_gpu caps UVM_FAULT_REPLAY_TYPE_START true (D := D)))
      by (apply grows_respects_steady; respects).
    unfold final_replay. respects. }
  apply Hf, steady_tame in E2. intros [= _ <-] Hs. change (prefetch_synced d (sv_gpu s2)).
  by apply E2, T1, E0.
Qed.

End Replays.

(** ** How long it runs *)

Section Bounds.
  Context {D : Type} `{Hal : FaultBufferHal D} `{!FaultBufferHalLive D} `{Ops : GpuOps D}
    `{Va : VaSpaceOps D} `{!VaSpaceOpsLive D} `{!VaSpaceOpsLaws D} `{KernelSort}
    `{Time : Clock D} `{Par : ParallelService D}.
  Variable P : module_params.
  Variable Q : service_params.
  Variable caps : gpu_caps.
  Variable channels_at : uvm_gpu D -> channel_tables.

(** The batches and throttled batches an iteration counts. *)
Definition same_counts (l l' : service_locals) : Prop :=
  l_batches l' = l_batches l /\ l_throttled l' = l_throttled l.

Definition counts (l : service_locals) (x : iteration) : Prop :=
  match x with
  | Stop _ l' | Restart l' => same_counts l l'
  | Again l' => l_batches l' = u32 (l_batches l + 1) /\
                (l_throttled l' = l_throttled l \/ l_throttled l' = u32 (l_throttled l + 1))
  end.

Lemma replay_batch_counts l : returns (fun r => same_counts l r.2) (replay_batch P caps l (D := D)).
Proof.
  unfold replay_batch. apply returns_any. intros g. destruct (replay_policy _); try by apply returns_ret.
  - apply returns_any. intros st. apply returns_ret. by destruct (is_ok st).
  - apply returns_any. intros st. destruct (is_ok st); [|by apply returns_ret].
    apply returns_any. intros st2. by apply returns_ret.
Qed.

Lemma finish_batch_counts cf st l l0 : same_counts l0 l ->
  returns (counts l0) (finish_batch P caps channels_at cf st l (D := D)).
Proof.
  intros [E1 E2]. unfold finish_batch. destruct (negb (is_ok st)); [by apply returns_any; intros; apply returns_ret|].
  apply returns_any. intros fatal. case_bool_decide.
  - apply returns_any. intros st1. apply returns_any. intros st2. apply returns_ret.
    destruct (is_ok st2); [|done]. simpl. rewrite E1, E2. by split; [|left].
  - eapply returns_bind; [apply replay_batch_counts|]. intros r [F1 F2]. apply returns_any. intros th.
    apply returns_ret. destruct (is_ok r.1).
    + unfold count_batch. destruct th; simpl; rewrite ?F1, ?F2, ?E1, ?E2; split; auto.
    + split; congruence.
Qed.

Lemma service_iteration_counts cf l : returns (counts l) (service_iteration P Q caps channels_at cf l (D := D)).
Proof.
  assert (forall l0 l, same_counts l0 l -> returns (same_counts l0) (add_replays l (D := D))) as Hadd.
  { intros l0 l1 [E1 E2]. unfold add_replays. apply returns_any. intros n. apply returns_ret. done. }
  unfold service_iteration. apply returns_any. intros u. apply returns_any. intros st.
  destruct (negb (is_ok st)); [by apply returns_ret|]. apply returns_any. intros n.
  destruct (n =? 0); [by apply returns_ret|]. apply returns_any. intros u1. apply returns_any. intros st1.
  eapply returns_bind; [by apply (Hadd l)|]. intros l1 H1. case_bool_decide; [by apply returns_ret|].
  destruct (negb (is_ok st1)); [by apply returns_ret|]. apply returns_any. intros st2.
  eapply returns_bind; [by apply (Hadd l)|]. intros l2 H2. apply returns_any. intros u2.
  by apply finish_batch_counts.
Qed.

Hypothesis max_batches : 0 <= uvm_perf_fault_max_batches_per_service P < 2 ^ 32.
Hypothesis max_throttle : 0 <= uvm_perf_fault_max_throttle_per_service P < 2 ^ 32.

Definition within_limits (l : service_locals) : Prop :=
  0 <= l_batches l <= uvm_perf_fault_max_batches_per_service P /\
  0 <= l_throttled l <= uvm_perf_fault_max_throttle_per_service P.

Lemma service_loop_bounds cf fuel : forall st l s r s',
  within_limits l -> service_replayable_loop P Q caps channels_at fuel cf st l s = (r, s') ->
  within_limits (res_locals r) /\
  (res_left r = false ->
   Z.of_nat fuel + l_batches l <= uvm_perf_fault_max_batches_per_service P + Z.of_nat (res_restarts r)).
Proof.
  induction fuel as [|fuel IH]; intros st l s r s' Hl; simpl; destruct (limits_reached P l) eqn:Hlim;
    try (intros [= <- <-]; split; [done|simpl; unfold within_limits in Hl; lia]).
  unfold limits_reached in Hlim. apply orb_false_iff in Hlim as [H1%Z.leb_gt H2%Z.leb_gt].
  unfold mbind at 1, ST_bind at 1.
  destruct (service_iteration P Q caps channels_at cf l s) as [x s1] eqn:E1.
  apply service_iteration_counts in E1. destruct x as [st1 l1|l1|l1]; simpl in E1; destruct E1 as [F1 F2].
  - intros [= <- <-]. unfold within_limits in *. simpl. rewrite F1, F2. by split.
  - unfold mbind, ST_bind. destruct (service_replayable_loop _ _ _ _ _ _ _ _ s1) as [r1 s2] eqn:E2.
    apply IH in E2 as [G1 G2]; [|unfold within_limits in *; by rewrite F1, F2].
    intros [= <- <-]. simpl. split; [done|]. intros Hf. specialize (G2 Hf). lia.
  - unfold within_limits in Hl. rewrite u32_small in F1 by lia.
    assert (within_limits l1) as Hl1.
    { unfold within_limits. destruct F2 as [F2|F2]; rewrite F2; [|rewrite u32_small by lia]; lia. }
    intros E2. apply IH in E2 as [G1 G2]; [|done]. split; [done|]. intros Hf. specialize (G2 Hf). lia.
Qed.

(** A call of the service routine is bounded: it handles at most
    [uvm_perf_fault_max_batches_per_service] batches and
    [uvm_perf_fault_max_throttle_per_service] throttled ones, and leaves its loop
    after one iteration per batch, plus those that had to start over because
    faults of a removed channel made it flush the buffer. *)
Theorem service_loop_terminates fuel cf (s : svc D) st r s' :
  uvm_gpu_service_replayable_faults P Q caps channels_at fuel cf s = ((st, r), s') ->
  l_batches (res_locals r) <= uvm_perf_fault_max_batches_per_service P /\
  l_throttled (res_locals r) <= uvm_perf_fault_max_throttle_per_service P /\
  (uvm_perf_fault_max_batches_per_service P + Z.of_nat (res_restarts r) < Z.of_nat fuel -> res_left r = true).
Proof.
  unfold uvm_gpu_service_replayable_faults, mbind, ST_bind.
  destruct (upd_svc_batch _ s) as [u s0]. destruct (service_replayable_loop _ _ _ _ _ _ _ _ s0) as [r0 s1] eqn:E1.
  destruct (final_replay _ _ _ s1) as [st2 s2]. intros [= _ <- _].
  apply service_loop_bounds in E1 as [[G1 G2] G3]; [|by unfold within_limits; simpl; lia].
  split; [lia|]. split; [lia|]. intros Hf. destruct (res_left r0); [done|]. specialize (G3 eq_refl). simpl in G3. lia.
Qed.

End Bounds.

(** ** Estimating the number of blocks *)

Definition count_changes (st : Z * Z) (x : Z) : Z * Z :=
  if x =? st.2 then st else (u32 (st.1 + 1), x).

Lemma size_insert (x : Z) (X : gset Z) : x ∉ X -> size ({[x]} ∪ X) = S (size X).
Proof.
  intros Hx. rewrite (@size_union Z (gset Z) _ _ _ _ _ _ _ _ gset_fin_set) by set_solver.
  by rewrite (@size_singleton Z (gset Z) _ _ _ _ _ _ _ _ gset_fin_set).
Qed.

(** Counting the changes in a sorted list counts its elements. *)
Lemma count_changes_sorted (l : list Z) : forall c last,
  StronglySorted Z.le l -> last ∉ l \/ (forall x, x ∈ l -> last <= x) ->
  0 <= c -> c + Z.of_nat (length l) < 2 ^ 32 ->
  (foldl count_changes (c, last) l).1 = c + Z.of_nat (size (list_to_set l ∖ {[last]} : gset Z)).
Proof.
  induction l as [|x l IH]; intros c last Hs Hlast Hc Hb; simpl in Hb; 
    [replace (list_to_set [] ∖ {[last]} : gset Z) with (∅ : gset Z) by set_solver;
     rewrite (@size_empty Z (gset Z) _ _ _ _ _ _ _ _ gset_fin_set); simpl; lia|].
  apply StronglySorted_inv in Hs as [Hs Hx]. rewrite Forall_forall in Hx. simpl foldl. unfold count_changes at 2. simpl.
  destruct (Z.eqb_spec x last) as [->|Hne].
  - rewrite IH; [|done|right; exact Hx|lia|lia].
    do 2 f_equal. f_equal. set_solver.
  - assert (last ∉ l) as Hn.
    { destruct Hlast as [Hlast|Hlast]; [set_solver|]. intros Hin.
      specialize (Hx _ Hin). specialize (Hlast x ltac:(left)). lia. }
    rewrite u32_small by lia.
    rewrite IH; [|done|right; exact Hx|lia|lia].
    replace (({[x]} ∪ list_to_set l) ∖ {[last]} : gset Z) with ({[x]} ∪ (list_to_set l ∖ {[x]}) : gset Z).
    + rewrite size_insert by set_solver. lia.
    + apply set_eq. intros y. destruct (decide (y = x)); set_solver.
Qed.

Lemma block_start_mono a b : 0 <= a < 2 ^ 64 -> 0 <= b < 2 ^ 64 -> a <= b ->
  UVM_VA_BLOCK_ALIGN_DOWN a <= UVM_VA_BLOCK_ALIGN_DOWN b.
Proof.
  intros Ha Hb Hab. unfold UVM_VA_BLOCK_ALIGN_DOWN, UVM_VA_BLOCK_SIZE. rewrite !align_down_spec by lia.
  pose proof (Z.div_le_mono a b (2 ^ 21) ltac:(lia) Hab). pose proof (Z.div_mod a (2 ^ 21)).
  pose proof (Z.div_mod b (2 ^ 21)). lia.
Qed.

Lemma estimate_changes b :
  estimate_unique_blocks b = (foldl count_changes (0, 2 ^ 64 - 1)
    (UVM_VA_BLOCK_ALIGN_DOWN <$> ((fun i => fault_address (cache_at b i)) <$> ordered_view b))).1.
Proof.
  unfold estimate_unique_blocks. f_equal. generalize (0, 2 ^ 64 - 1). generalize (ordered_view b).
  induction l as [|i l IH]; intros [c last]; [done|]. simpl. by rewrite <- IH.
Qed.

Lemma block_start_range a : 0 <= a < 2 ^ 64 -> 0 <= UVM_VA_BLOCK_ALIGN_DOWN a < 2 ^ 64 - 1.
Proof.
  intros Ha. unfold UVM_VA_BLOCK_ALIGN_DOWN, UVM_VA_BLOCK_SIZE. rewrite align_down_spec by lia.
  pose proof (Z.mod_pos_bound a (2 ^ 21) ltac:(lia)). pose proof (Z.div_mod a (2 ^ 21) ltac:(lia)).
  assert (a / 2 ^ 21 < 2 ^ 43) by (apply Z.div_lt_upper_bound; lia). lia.
Qed.

Lemma block_starts_sorted l : StronglySorted Z.le l -> Forall (fun a => 0 <= a < 2 ^ 64) l ->
  StronglySorted Z.le (UVM_VA_BLOCK_ALIGN_DOWN <$> l).
Proof.
  induction 1 as [|a l Hs IH Hl]; intros Ha; simpl; constructor.
  - apply IH. by inversion Ha.
  - inversion Ha as [|? ? H0 H1]; subst. rewrite Forall_fmap. rewrite Forall_forall in *. intros c Hc. simpl.
    apply block_start_mono; auto.
Qed.

(** When the faults are in the order of their addresses, the pre-scan that
    decides between the serial and the parallel path counts the distinct VA block
    addresses of the batch exactly. *)
Theorem estimate_unique_blocks_exact (b : uvm_fault_service_batch_context_t) :
  let addresses := (fun i => fault_address (cache_at b i)) <$> ordered_view b in
  StronglySorted Z.le addresses -> Forall (fun a => 0 <= a < 2 ^ 64) addresses -> num_coalesced_faults b < 2 ^ 32 ->
  estimate_unique_blocks b = Z.of_nat (size (list_to_set (UVM_VA_BLOCK_ALIGN_DOWN <$> addresses) : gset Z)).
Proof.
  intros addresses Hs Ha Hn. rewrite estimate_changes. fold addresses.
  assert (2 ^ 64 - 1 ∉ UVM_VA_BLOCK_ALIGN_DOWN <$> addresses) as Hlast.
  { intros (a & Hy & Hin)%list_elem_of_fmap. rewrite Forall_forall in Ha. apply Ha, block_start_range in Hin. lia. }
  rewrite count_changes_sorted; [|by apply block_starts_sorted|by left|lia|].
  - rewrite Z.add_0_l. do 2 f_equal. apply set_eq. intros y. rewrite elem_of_difference, elem_of_list_to_set.
    set_solver.
  - unfold addresses. rewrite !length_fmap, length_take. lia.
Qed.

Definition two_block_batch : uvm_fault_service_batch_context_t :=
  example_batch [example_entry 1 4096 UVM_FAULT_ACCESS_TYPE_READ; example_entry 1 8192 UVM_FAULT_ACCESS_TYPE_READ;
                 example_entry 1 (2 ^ 21) UVM_FAULT_ACCESS_TYPE_READ].

Lemma estimate_unique_blocks_exact_witness : estimate_unique_blocks two_block_batch = 2.
Proof.
  rewrite (estimate_unique_blocks_exact two_block_batch).
  - reflexivity.
  - change (StronglySorted Z.le [4096; 8192; 2 ^ 21]). repeat constructor; lia.
  - change (Forall (fun a => 0 <= a < 2 ^ 64) [4096; 8192; 2 ^ 21]). repeat constructor; lia.
  - reflexivity.
Defined.

(** ** A concrete call

    Two faults of VA space 10, the second a write that is not permitted; after the
    flush of the cancel only the write comes back. *)

#[export] Instance sim_clock : Clock sim_device := fun _ => 0.

(** Without a parallel context the parallel path fails. *)
#[export] Program Instance sim_parallel : ParallelService sim_device := {|
  service_fault_batch_parallel := mret NV_ERR_INVALID_STATE;
|}.
Next Obligation. apply respects_ret, _. Qed.

Definition loop_params : service_params := mk_service_params false false false 16 true 4.

Definition loop_state : svc sim_device :=
  mk_svc ((sim_gpu 8 8 1 (mk_sim 0 0 [2; 2; 3] [sim_full_slot 1 (sim_packet 0 0 UVM_FAULT_ACCESS_TYPE_READ);
      sim_full_slot 0 (sim_packet 0 4096 UVM_FAULT_ACCESS_TYPE_WRITE);
      sim_full_slot 2 (sim_packet 0 4096 UVM_FAULT_ACCESS_TYPE_WRITE)] 0 0 []))
     <| replayable ::= fun r => r <| prev_batch_keys := replicate 8 (mk_batch_key None 0) |> |>
     <| batch ::= fun b => b <| utlbs := [zero_utlb] |> |>)
    empty_block_context [] ∅ ∅.

Definition call_after : (NV_STATUS * loop_result) * svc sim_device :=
  Eval vm_compute in uvm_gpu_service_replayable_faults default_params loop_params (sim_caps 256)
    (fun _ => example_added) 21 4 loop_state.

Lemma call_after_eq :
  uvm_gpu_service_replayable_faults default_params loop_params (sim_caps 256) (fun _ => example_added) 21 4
    loop_state = call_after.
Proof. vm_compute. reflexivity. Qed.

Lemma call_after_pair :
  uvm_gpu_service_replayable_faults default_params loop_params (sim_caps 256) (fun _ => example_added) 21 4
    loop_state = (call_after.1.1, call_after.1.2, call_after.2).
Proof. exact call_after_eq. Qed.

Lemma service_always_replays_witness :
  call_after.1.1 = NV_OK /\ Exists (fun e => is_replay e = true) (trace (sv_gpu call_after.2)).
Proof.
  split; [reflexivity|].
  destruct (service_always_replays (D := sim_device) default_params loop_params (sim_caps 256) (fun _ => example_added)
    21 4 loop_state call_after.1.1 call_after.1.2 call_after.2 call_after_pair (or_introl eq_refl)) as (l & E & Hl).
  rewrite app_nil_r in E. rewrite E. exact Hl.
Defined.

Lemma default_batches : 0 <= uvm_perf_fault_max_batches_per_service default_params < 2 ^ 32.
Proof. vm_compute. split; congruence. Qed.

Lemma default_throttle : 0 <= uvm_perf_fault_max_throttle_per_service default_params < 2 ^ 32.
Proof. vm_compute. split; congruence. Qed.

Lemma service_loop_terminates_witness :
  res_left call_after.1.2 = true /\ l_batches (res_locals call_after.1.2) <= 20.
Proof.
  destruct (service_loop_terminates (D := sim_device) default_params loop_params (sim_caps 256) (fun _ => example_added)
    default_batches default_throttle 21 4 loop_state call_after.1.1 call_after.1.2 call_after.2 call_after_pair)
    as (H1 & _ & H3).
  split; [apply H3; reflexivity|exact H1].
Defined.

Lemma service_keeps_prefetch_synced_witness :
  prefetch_faults_enabled (sv_gpu loop_state) = true /\ prefetch_synced true (sv_gpu call_after.2).
Proof.
  split; [reflexivity|].
  exact (service_keeps_prefetch_synced (D := sim_device) default_params loop_params (sim_caps 256)
    (fun _ => example_added) 21 4 true loop_state call_after.1 call_after.2 call_after_eq eq_refl).
Defined.
