(* ===== verification/Schedule.v ===== *)
(** * Scheduling block faults on the worker pool

    How [uvm_kthread_dispatch_and_wait] splits the blocks of a batch into segments,
    allocates workers to them, and which blocks every worker id goes through
    ([uvm_gpu_replayable_faults_parallel.c], lines 640-679, 1056-1375 and
    1869-2970). *)

From S2P Require Import Prelude FaultTypes Service.

Local Open Scope Z_scope.

(** ** Blocks and parameters *)

Record uvm_block_fault_group_t : Type := mk_group {
  group_block : uvm_va_block_t;
  first_fault_index : nat;
  num_faults : Z;
}.

Record merge_params : Type := mk_merge_params {
  uvm_parallel_fault_max_workers : Z;
  uvm_merge_segment_size : Z;
  uvm_merge_heavy_block_bypass : bool;
  uvm_merge_heavy_block_min_faults : Z;
  uvm_merge_heavy_block_min_pct : Z;
  uvm_merge_dynamic_segment_enable : bool;
  uvm_merge_dynamic_segment_min_faults : Z;
  uvm_merge_dynamic_segment_target_segments : Z;
  uvm_merge_group_seg_max_segments : Z;
}.

Definition default_merge_params : merge_params := mk_merge_params 0 0 false 16 50 false 8 3 3.

Definition UVM_KTHREAD_MAX_WORKERS : Z := 32.
Definition UVM_KTHREAD_SEGMENT_SIZE : Z := 16.
Definition UVM_PARALLEL_FAULT_MAX_BLOCKS : nat := 1024.

Section Segments.
  Variable X : merge_params.

Definition merge_block_is_heavy (grp : uvm_block_fault_group_t) (batch_total_faults : Z) : bool :=
  uvm_merge_heavy_block_bypass X && negb (batch_total_faults =? 0) &&
  (uvm_merge_heavy_block_min_faults X <=? num_faults grp) &&
  (u64 (uvm_merge_heavy_block_min_pct X * batch_total_faults) <=? u64 (num_faults grp * 100)).

(** [DIV_ROUND_UP] on 32-bit values. *)
Definition DIV_ROUND_UP (n d : Z) : Z := u32 (n + d - 1) / d.

Definition merge_effective_segment_threshold (batch_total_faults num_items : Z) : Z :=
  let threshold := if uvm_merge_segment_size X =? 0 then UVM_KTHREAD_SEGMENT_SIZE else uvm_merge_segment_size X in
  if negb (uvm_merge_dynamic_segment_enable X) || (batch_total_faults =? 0) || (num_items =? 0) then threshold
  else if 0 <? uvm_merge_dynamic_segment_target_segments X then
    let target_segments := Z.min (Z.max 1 (uvm_merge_dynamic_segment_target_segments X)) num_items in
    Z.max (Z.max 1 (uvm_merge_dynamic_segment_min_faults X)) (DIV_ROUND_UP batch_total_faults target_segments)
  else threshold.

(** The segment boundaries of the group-segment and the segment-parallel path:
    blocks are taken until the threshold is reached; the last of [max_seg]
    segments takes the rest. *)
Fixpoint segment_bounds (threshold : Z) (max_seg : nat) (groups : list uvm_block_fault_group_t)
    (start block_idx : nat) (seg_faults : Z) (num_segments : nat) : list (nat * nat) :=
  match groups with
  | [] => []
  | grp :: rest =>
      let seg_faults := u32 (seg_faults + num_faults grp) in
      if (threshold <=? seg_faults) || bool_decide (rest = []) then
        let count := (block_idx + 1 - start)%nat in
        if (max_seg <=? S num_segments)%nat && negb (bool_decide (rest = []))
        then [(start, (count + length rest)%nat)]
        else (start, count) :: segment_bounds threshold max_seg rest (S block_idx) (S block_idx) 0 (S num_segments)
      else segment_bounds threshold max_seg rest start (S block_idx) seg_faults num_segments
  end.

(** The segment ids of the dynamic path, with the number of blocks of each
    segment that use its shared push. *)
Fixpoint dynamic_segments (threshold batch_total_faults : Z) (max_seg : nat) (groups : list uvm_block_fault_group_t)
    (cur_seg : nat) (seg_faults : Z) (merged : list Z) : list nat * list Z * nat :=
  match groups with
  | [] => ([], merged, cur_seg)
  | grp :: rest =>
      let note seg grp merged :=
        if merge_block_is_heavy grp batch_total_faults then merged else alter (fun n => u32 (n + 1)) seg merged in
      let merged := note cur_seg grp merged in
      let seg_faults := u32 (seg_faults + num_faults grp) in
      if (threshold <=? seg_faults) || bool_decide (rest = []) then
        if (max_seg <=? S cur_seg)%nat && negb (bool_decide (rest = []))
        then (cur_seg :: replicate (length rest) cur_seg, foldl (fun m grp => note cur_seg grp m) merged rest, S cur_seg)
        else let '(ids, merged, n) := dynamic_segments threshold batch_total_faults max_seg rest (S cur_seg) 0 merged in
             (cur_seg :: ids, merged, n)
      else let '(ids, merged, n) := dynamic_segments threshold batch_total_faults max_seg rest cur_seg seg_faults merged in
           (cur_seg :: ids, merged, n)
  end.

(** The segments of the segmented merge, which are dispatched one after the
    other: one is closed when it has enough faults and enough are left. *)
Fixpoint merge_segments (threshold batch_total_faults : Z) (groups : list uvm_block_fault_group_t)
    (seg_start cursor : nat) (running_faults faults_so_far : Z) : list (nat * nat) :=
  match groups with
  | [] => []
  | grp :: rest =>
      let running_faults := u32 (running_faults + num_faults grp) in
      let faults_so_far := u32 (faults_so_far + num_faults grp) in
      let remaining_faults := u32 (batch_total_faults - faults_so_far) in
      if negb (bool_decide (rest = [])) && ((running_faults <? threshold) || (remaining_faults <? threshold))
      then merge_segments threshold batch_total_faults rest seg_start (S cursor) running_faults faults_so_far
      else (seg_start, (cursor - seg_start + 1)%nat)
             :: merge_segments threshold batch_total_faults rest (S cursor) (S cursor) 0 faults_so_far
  end.

(** ** Workers *)

Definition limit_workers (workers : Z) : Z :=
  if 0 <? uvm_parallel_fault_max_workers X then Z.min (uvm_parallel_fault_max_workers X) workers else workers.

(** The number of workers [dispatch_start_inner] wakes for [num_items] blocks. *)
Definition num_active_workers (workers num_items : Z) : Z := Z.min (limit_workers workers) num_items.

(** The number of segments the group-segment and the segment-parallel path use at
    most, and the dynamic path. *)
Definition max_segments (workers : Z) : nat :=
  Z.to_nat (Z.min (limit_workers workers) (Z.max 1 (uvm_merge_group_seg_max_segments X))).
Definition max_dynamic_segments : nat :=
  Z.to_nat (Z.min UVM_KTHREAD_MAX_WORKERS (Z.max 1 (uvm_merge_group_seg_max_segments X))).

(** The proportional allocation of [total_workers] to segments. *)
Fixpoint allocate_workers (total_workers num_items : Z) (seg_counts : list Z) (workers_assigned : Z) : list Z :=
  match seg_counts with
  | [] => []
  | seg_blocks :: rest =>
      let w :=
        if bool_decide (rest = []) then u32 (total_workers - workers_assigned)
        else
          let w := u32 (u64 (seg_blocks * total_workers) / num_items) in
          let w := if w =? 0 then 1 else w in
          Z.min w seg_blocks in
      let w := if w =? 0 then 1 else w in
      let w := Z.min w seg_blocks in
      w :: allocate_workers total_workers num_items rest (u32 (workers_assigned + w))
  end.

(** The tables [worker_seg_id] and [worker_local_id]. *)
Definition worker_table (workers_per_seg : list Z) : list (nat * nat) :=
  concat (imap (fun seg w => (fun l => (seg, l)) <$> seq 0 (Z.to_nat w)) workers_per_seg).

(** [for (i = start; i < bound; i += step)], for a positive step. *)
Fixpoint stride (fuel i step bound : nat) : list nat :=
  match fuel with
  | O => []
  | S fuel => if (i <? bound)%nat then i :: stride fuel (i + step) step bound else []
  end.

(** The blocks the worker with batch id [id] goes through. *)
Definition strided_items (num_active num_items id : nat) : list nat := stride num_items id num_active num_items.

Definition segment_items (segs : list (nat * nat)) (id : nat) : list nat :=
  match segs !! id with
  | Some (sp_start, sp_count) => stride sp_count sp_start 1 (sp_start + sp_count)
  | None => []
  end.

Definition group_seg_items (segs : list (nat * nat)) (workers_per_seg : list Z) (id : nat) : list nat :=
  match worker_table workers_per_seg !! id with
  | Some (seg_id, local_id) =>
      let '(sp_start, sp_count) := segs !!! seg_id in
      stride sp_count (sp_start + local_id) (Z.to_nat (workers_per_seg !!! seg_id)) (sp_start + sp_count)
  | None => []
  end.

(** The ways a batch is dispatched. *)
Inductive dispatch_mode : Type :=
| Strided
| SegmentParallel
| GroupSegParallel
| DynamicCursor.

#[export] Instance dispatch_mode_eq_dec : EqDecision dispatch_mode.
Proof. solve_decision. Defined.

(** The total number of faults of the blocks. *)
Definition total_faults (groups : list uvm_block_fault_group_t) : Z :=
  foldl (fun n grp => u32 (n + num_faults grp)) 0 groups.

Definition batch_segments (workers : Z) (groups : list uvm_block_fault_group_t) : list (nat * nat) :=
  segment_bounds (merge_effective_segment_threshold (total_faults groups) (Z.of_nat (length groups)))
    (max_segments workers) groups 0 0 0 0.

Definition batch_workers_per_seg (workers : Z) (groups : list uvm_block_fault_group_t) : list Z :=
  let num_items := Z.of_nat (length groups) in
  allocate_workers (Z.min (limit_workers workers) num_items) num_items
    ((fun s => Z.of_nat s.2) <$> batch_segments workers groups) 0.

(** The lists of blocks of the workers that are active; with the cursor there are
    none. *)
Definition worker_items (mode : dispatch_mode) (workers : Z) (groups : list uvm_block_fault_group_t)
  : list (list nat) :=
  let num_items := length groups in
  let num_active := Z.to_nat (num_active_workers workers (Z.of_nat num_items)) in
  (match mode with
   | Strided => strided_items num_active num_items
   | SegmentParallel => segment_items (batch_segments workers groups)
   | GroupSegParallel => group_seg_items (batch_segments workers groups) (batch_workers_per_seg workers groups)
   | DynamicCursor => fun _ => []
   end) <$> seq 0 num_active.

End Segments.

(** ** Every block has one worker *)

Lemma stride_elem fuel : forall i step bound x, (0 < step)%nat -> (bound - i <= fuel)%nat ->
  x ∈ stride fuel i step bound <-> (x < bound)%nat /\ exists k, x = (i + k * step)%nat.
Proof.
  induction fuel as [|fuel IH]; intros i step bound x Hs Hf; simpl.
  - rewrite elem_of_nil. split; [done|]. intros [Hx [k ->]]. lia.
  - destruct (Nat.ltb_spec i bound) as [Hi|Hi].
    + rewrite elem_of_cons, IH by lia. split.
      * intros [->|[Hx [k ->]]]; [split; [done|by exists 0%nat; lia]|]. split; [done|]. exists (S k). lia.
      * intros [Hx [[|k] ->]]; [left; lia|right]. split; [done|]. exists k. lia.
    + rewrite elem_of_nil. split; [done|]. intros [Hx [k ->]]. lia.
Qed.

Lemma stride_NoDup fuel : forall i step bound, (0 < step)%nat -> NoDup (stride fuel i step bound).
Proof.
  assert (forall f i step bound x, x ∈ stride f i step bound -> (i <= x)%nat) as Hge.
  { intros f. induction f as [|f IH]; intros i step bound x; simpl; [by intros ?%elem_of_nil|].
    destruct (i <? bound)%nat; [|by intros ?%elem_of_nil]. rewrite elem_of_cons. intros [->|Hx%IH]; lia. }
  induction fuel as [|fuel IH]; intros i step bound Hs; simpl; [constructor|].
  destruct (i <? bound)%nat; constructor; [|by apply IH]. intros Hx%Hge. lia.
Qed.

Lemma elem_of_concat {A} (x : A) (ls : list (list A)) : x ∈ concat ls <-> exists l, x ∈ l /\ l ∈ ls.
Proof.
  induction ls as [|l ls IH]; simpl; [set_solver|]. rewrite elem_of_app, IH. set_solver.
Qed.

(** Lists whose elements know which list they are in. *)
Lemma NoDup_concat_owner {A B} (f : A -> list B) (owner : B -> A) (ids : list A) :
  NoDup ids -> (forall id, id ∈ ids -> NoDup (f id)) ->
  (forall id x, id ∈ ids -> x ∈ f id -> owner x = id) -> NoDup (concat (f <$> ids)).
Proof.
  induction 1 as [|id ids Hid Hn IH]; intros Hf Ho; simpl; [constructor|]. apply NoDup_app. split_and!.
  - apply Hf. left.
  - intros x Hx Hc. apply Ho in Hx as <-; [|left].
    apply elem_of_concat in Hc as (l & Hl & (id' & -> & Hin)%list_elem_of_fmap).
    apply Ho in Hl; [|by right]. by rewrite Hl in Hid.
  - apply IH; intros; [apply Hf|apply Ho]; set_solver.
Qed.

(** [w] workers that stride over [c] blocks go through each of them once. *)
Lemma stride_partition s c w : (0 < w)%nat ->
  concat ((fun l => stride c (s + l) w (s + c)) <$> seq 0 w) ≡ₚ seq s c.
Proof.
  intros Hw. apply NoDup_Permutation; [|apply NoDup_seq|].
  - apply (NoDup_concat_owner _ (fun x => (x - s) mod w)%nat).
    + apply NoDup_seq.
    + intros l _. by apply stride_NoDup.
    + intros l x Hl%elem_of_seq [_ [k ->]]%stride_elem; [|done|lia].
      replace (s + l + k * w - s)%nat with (l + k * w)%nat by lia.
      rewrite Nat.Div0.mod_add. apply Nat.mod_small. lia.
  - intros x. rewrite elem_of_concat, elem_of_seq. split.
    + intros (l & Hx & (i & -> & Hi%elem_of_seq)%list_elem_of_fmap). apply stride_elem in Hx as [? [k ->]]; lia.
    + intros Hx. exists (stride c (s + (x - s) mod w)%nat w (s + c)). split.
      * apply stride_elem; [done|lia|]. split; [lia|]. exists ((x - s) / w)%nat.
        pose proof (Nat.div_mod (x - s) w). lia.
      * apply list_elem_of_fmap. exists ((x - s) mod w)%nat. split; [done|]. apply elem_of_seq.
        pose proof (Nat.mod_upper_bound (x - s) w). lia.
Qed.

(** ** Segments *)

(** Segments that follow each other from [start] to [stop]. *)
Fixpoint consecutive (start stop : nat) (segs : list (nat * nat)) : Prop :=
  match segs with
  | [] => start = stop
  | (s, c) :: segs => s = start /\ (0 < c)%nat /\ consecutive (s + c) stop segs
  end.

Definition seg_blocks (s : nat * nat) : list nat := seq s.1 s.2.

Lemma consecutive_blocks segs : forall start stop, consecutive start stop segs ->
  (start <= stop)%nat /\ concat (seg_blocks <$> segs) = seq start (stop - start).
Proof.
  induction segs as [|[s c] segs IH]; intros start stop; cbn [consecutive].
  - intros ->. split; [done|]. by rewrite Nat.sub_diag.
  - intros (-> & Hc & [Hle E]%IH). split; [lia|].
    replace (stop - start)%nat with (c + (stop - (start + c)))%nat by lia.
    rewrite fmap_cons, seq_app. cbn [concat]. by rewrite E.
Qed.

Lemma consecutive_length segs : forall start stop, consecutive start stop segs ->
  (start + length segs <= stop)%nat.
Proof.
  induction segs as [|[s c] segs IH]; intros start stop; simpl; [lia|]. intros (-> & Hc & H%IH). lia.
Qed.

Lemma segment_bounds_consecutive threshold max_seg groups : forall start idx sf n,
  (start <= idx)%nat -> groups <> [] \/ start = idx ->
  consecutive start (idx + length groups) (segment_bounds threshold max_seg groups start idx sf n).
Proof.
  induction groups as [|grp rest IH]; intros start idx sf n Hle Hne; simpl; [destruct Hne; [done|lia]|].
  destruct ((threshold <=? _) || _) eqn:Hc.
  - destruct ((max_seg <=? S n)%nat && _); simpl.
    + split_and!; [done|lia|lia].
    + split_and!; [done|lia|]. replace (start + (idx + 1 - start))%nat with (S idx) by lia.
      replace (idx + S (length rest))%nat with (S idx + length rest)%nat by lia. apply IH; [done|by right].
  - replace (idx + S (length rest))%nat with (S idx + length rest)%nat by lia.
    apply IH; [lia|]. left. intros ->. by rewrite bool_decide_true, orb_true_r in Hc.
Qed.

Lemma segment_bounds_length threshold max_seg groups : forall start idx sf n,
  (n < max_seg)%nat -> (n + length (segment_bounds threshold max_seg groups start idx sf n) <= max_seg)%nat.
Proof.
  induction groups as [|grp rest IH]; intros start idx sf n Hn; simpl; [lia|].
  destruct ((threshold <=? _) || _); [|by apply IH].
  destruct (Nat.leb_spec max_seg (S n)) as [Hm|Hm]; simpl.
  - case_bool_decide as Hr; simpl; [|lia]. subst rest. simpl. lia.
  - specialize (IH (S idx) (S idx) 0 (S n) ltac:(lia)). lia.
Qed.

Lemma stride_one c : forall s, stride c s 1 (s + c) = seq s c.
Proof.
  induction c as [|c IH]; intros s; simpl; [done|]. rewrite (proj2 (Nat.ltb_lt _ _)) by lia. f_equal.
  replace (s + 1)%nat with (S s) by lia. rewrite <- IH. f_equal. lia.
Qed.

(** Lists indexed by the ids below a bound. *)
Lemma concat_by_id {A} (l : list A) (g : A -> list nat) : forall m, (length l <= m)%nat ->
  concat ((fun id => match l !! id with Some x => g x | None => [] end) <$> seq 0 m) = concat (g <$> l).
Proof.
  induction l as [|x l IH]; intros m Hm.
  - generalize 0%nat. induction m as [|m IHm]; intros k; [done|]. simpl. apply IHm. simpl. lia.
  - destruct m as [|m]; [simpl in Hm; lia|]. simpl in Hm. rewrite fmap_cons. simpl seq.
    rewrite <- fmap_S_seq, fmap_cons, <- list_fmap_compose. cbn [concat]. f_equal. rewrite <- (IH m) by lia. done.
Qed.

Lemma concat_imap {A B} (F : nat -> A -> list B) (g : B -> list nat) (h : nat -> list nat) (l : list A) :
  (forall i x, l !! i = Some x -> concat (g <$> F i x) ≡ₚ h i) ->
  concat (g <$> concat (imap F l)) ≡ₚ concat (h <$> seq 0 (length l)).
Proof.
  revert F h. induction l as [|x l IH]; intros F h Hf; [done|]. simpl length. simpl seq.
  rewrite imap_cons, <- fmap_S_seq, fmap_cons, <- list_fmap_compose. cbn [concat].
  rewrite fmap_app, concat_app. rewrite (Hf 0%nat x) by done. rewrite (IH _ (h ∘ S)); [done|].
  intros i y Hy. by apply (Hf (S i)).
Qed.

Lemma fmap_total_seq {A B} `{Inhabited A} (f : A -> B) (l : list A) :
  (fun i => f (l !!! i)) <$> seq 0 (length l) = f <$> l.
Proof.
  induction l as [|x l IH]; [done|]. simpl length. simpl seq.
  rewrite <- fmap_S_seq, !fmap_cons, <- list_fmap_compose. f_equal. exact IH.
Qed.

Section Workers.
  Variable X : merge_params.
  Variable workers : Z.
  Variable groups : list uvm_block_fault_group_t.
  Hypothesis has_blocks : groups <> [].
  Hypothesis has_workers : 0 < limit_workers X workers.

Let num_items := length groups.
Let active := Z.to_nat (num_active_workers X workers (Z.of_nat num_items)).

Lemma active_pos : (0 < active)%nat /\ (active <= num_items)%nat /\ (active <= Z.to_nat (limit_workers X workers))%nat.
Proof.
  unfold active, num_active_workers. assert (0 < num_items)%nat.
  { unfold num_items. destruct groups; [done|simpl; lia]. }
  lia.
Qed.

Lemma batch_segments_spec :
  consecutive 0 num_items (batch_segments X workers groups) /\
  (length (batch_segments X workers groups) <= active)%nat.
Proof.
  unfold batch_segments. split.
  - apply (segment_bounds_consecutive _ _ groups 0 0); [done|by left].
  - pose proof (segment_bounds_consecutive
      (merge_effective_segment_threshold X (total_faults groups) (Z.of_nat (length groups)))
      (max_segments X workers) groups 0 0 0 0 ltac:(done) ltac:(by left)) as H1%consecutive_length.
    pose proof (segment_bounds_length
      (merge_effective_segment_threshold X (total_faults groups) (Z.of_nat (length groups)))
      (max_segments X workers) groups 0 0 0 0) as H2.
    unfold max_segments in *. unfold active, num_active_workers, num_items. simpl in H1. lia.
Qed.

Lemma strided_partition : concat (worker_items X Strided workers groups) ≡ₚ seq 0 num_items.
Proof. apply (stride_partition 0). apply active_pos. Qed.

Lemma segment_partition : concat (worker_items X SegmentParallel workers groups) ≡ₚ seq 0 num_items.
Proof.
  destruct batch_segments_spec as [[_ Hc]%consecutive_blocks Hl].
  rewrite Nat.sub_0_r in Hc. rewrite <- Hc, <- (concat_by_id _ seg_blocks active Hl).
  unfold worker_items. fold num_items. fold active.
  apply Permutation_refl'. f_equal. apply list_fmap_ext. intros i x _. unfold segment_items.
  destruct (_ !! x) as [[s c]|]; [apply stride_one|done].
Qed.

(** *** Proportional allocation *)

Lemma allocate_workers_spec total items counts : forall assigned,
  Forall (fun c => 0 < c) counts ->
  Forall2 (fun w c => 1 <= w <= c) (allocate_workers total items counts assigned) counts.
Proof.
  induction counts as [|c counts IH]; intros assigned Hc; simpl; [constructor|].
  inversion Hc as [|? ? Hc1 Hc2]; subst. constructor; [|by apply IH].
  match goal with |- 1 <= Z.min (if ?w =? 0 then 1 else ?w) c <= c => set (x := w) end.
  assert (0 <= x) as Hx.
  { unfold x. case_bool_decide; [apply wrap_in_width; lia|].
    match goal with |- 0 <= Z.min (if ?w =? 0 then 1 else ?w) c => set (y := w) end.
    assert (0 <= y) by (apply wrap_in_width; lia). destruct (y =? 0); lia. }
  destruct (Z.eqb_spec x 0); lia.
Qed.

Lemma group_seg_partition :
  (length (worker_table (batch_workers_per_seg X workers groups)) <= active)%nat ->
  concat (worker_items X GroupSegParallel workers groups) ≡ₚ seq 0 num_items.
Proof.
  intros Htotal. destruct batch_segments_spec as [Hcons _].
  pose proof (consecutive_blocks _ _ _ Hcons) as [_ Hc]. rewrite Nat.sub_0_r in Hc. rewrite <- Hc.
  set (segs := batch_segments X workers groups) in *. set (ws := batch_workers_per_seg X workers groups) in *.
  assert (Forall2 (fun w c => 1 <= w <= c) ws ((fun s => Z.of_nat s.2) <$> segs)) as Hws.
  { unfold ws, batch_workers_per_seg. apply allocate_workers_spec. apply Forall_fmap. clear -Hcons.
    revert Hcons. generalize 0%nat. induction segs as [|[s c] l IH]; intros k; [constructor|].
    intros (_ & Hc & H). constructor; [simpl; lia|by eapply IH]. }
  assert (length ws = length segs) as Hlen by (apply Forall2_length in Hws; by rewrite length_fmap in Hws).
  rewrite <- (fmap_total_seq seg_blocks segs), <- Hlen.
  rewrite <- (concat_imap (fun seg w => (fun l => (seg, l)) <$> seq 0 (Z.to_nat w))
    (fun '(seg, l) => stride (segs !!! seg).2 ((segs !!! seg).1 + l) (Z.to_nat (ws !!! seg))
                        ((segs !!! seg).1 + (segs !!! seg).2))).
  - fold (worker_table ws). rewrite <- (concat_by_id _ _ active Htotal).
    unfold worker_items. fold num_items. fold active.
    apply Permutation_refl'. f_equal. apply list_fmap_ext. intros i x _. unfold group_seg_items. fold segs ws.
    destruct (worker_table ws !! x) as [[seg l]|]; [|done]. by destruct (segs !!! seg).
  - intros i w Hw. rewrite <- list_fmap_compose.
    destruct (Forall2_lookup_l _ _ _ _ _ Hws Hw) as (c & Hcl & Hwc). rewrite list_lookup_fmap in Hcl.
    destruct (segs !! i) as [[s n]|] eqn:Hs; [|done]. injection Hcl as <-.
    rewrite (list_lookup_total_correct _ _ _ Hs). unfold seg_blocks. simpl.
    rewrite <- (stride_partition s n (Z.to_nat w)) by lia. apply Permutation_refl'. f_equal.
    apply list_fmap_ext. intros j l _. simpl.
    by rewrite (list_lookup_total_correct _ _ _ Hs), (list_lookup_total_correct _ _ _ Hw).
Qed.

End Workers.

(** The lists of a mode go through every block once, or there is the cursor. *)
Lemma worker_items_cases (X : merge_params) mode workers groups :
  groups <> [] -> 0 < limit_workers X workers ->
  (mode = GroupSegParallel -> (length (worker_table (batch_workers_per_seg X workers groups)) <=
     Z.to_nat (num_active_workers X workers (Z.of_nat (length groups))))%nat) ->
  let items := worker_items X mode workers groups in
  let dynamic := bool_decide (mode = DynamicCursor) in
  concat items ≡ₚ seq 0 (length groups) /\ dynamic = false \/ dynamic = true /\ Forall (fun l => l = []) items.
Proof.
  intros Hg Hw Hok. destruct mode; simpl; [left|left|left|right].
  - by split; [apply strided_partition|].
  - by split; [apply segment_partition|].
  - split; [apply group_seg_partition; auto|done].
  - split; [done|]. apply Forall_fmap, Forall_true. done.
Qed.

(** ** Cutting a batch into segments *)

Definition sample_block : uvm_va_block_t := mk_va_block 0 (2 ^ 21 - 1) 1 false.
Definition sample_group (n : Z) : uvm_block_fault_group_t := mk_group sample_block 0 n.

Definition sum_faults (groups : list uvm_block_fault_group_t) : Z := foldr (fun grp n => num_faults grp + n) 0 groups.

(** The faults of the blocks of a segment. *)
Definition segment_faults (groups : list uvm_block_fault_group_t) (s : nat * nat) : Z :=
  sum_faults (take s.2 (drop s.1 groups)).

Lemma sum_faults_app l l' : sum_faults (l ++ l') = sum_faults l + sum_faults l'.
Proof. induction l as [|x l IH]; simpl; [done|]. rewrite IH. lia. Qed.

Lemma sum_faults_nonneg l : Forall (fun grp => 0 <= num_faults grp) l -> 0 <= sum_faults l.
Proof. induction 1; simpl; lia. Qed.

(** The open segment has [running] faults, [pre] are the blocks before. *)
Lemma merge_segments_spec threshold all total : 
  Forall (fun grp => 0 <= num_faults grp) all -> total = sum_faults all -> total < 2 ^ 32 ->
  forall groups pre seg_start running so_far,
  all = pre ++ groups -> (seg_start <= length pre)%nat -> groups <> [] \/ seg_start = length pre ->
  running = sum_faults (drop seg_start pre) -> so_far = sum_faults pre ->
  (groups <> [] -> threshold <= running + sum_faults groups) ->
  let segs := merge_segments threshold total groups seg_start (length pre) running so_far in
  consecutive seg_start (length all) segs /\ Forall (fun s => threshold <= segment_faults all s) segs.
Proof.
  intros Hnn Ht Hb. induction groups as [|grp rest IH]; intros pre seg_start running so_far Hall Hle Hne Hr Hs Hth;
    cbn [merge_segments].
  { destruct Hne as [|Hne]; [done|]. subst. rewrite app_nil_r. by split. }
  assert (Forall (fun grp => 0 <= num_faults grp) pre /\ 0 <= num_faults grp /\
          Forall (fun grp => 0 <= num_faults grp) rest) as (Hp & Hg & Hrest).
  { rewrite Hall in Hnn. apply Forall_app in Hnn as [? H]. by inversion H. }
  assert (total = sum_faults pre + num_faults grp + sum_faults rest) as Htot.
  { rewrite Ht, Hall, sum_faults_app. simpl. lia. }
  pose proof (sum_faults_nonneg _ Hp). pose proof (sum_faults_nonneg _ Hrest).
  assert (0 <= sum_faults (drop seg_start pre) <= sum_faults pre) as Hd.
  { pose proof (sum_faults_app (take seg_start pre) (drop seg_start pre)) as E. rewrite take_drop in E.
    pose proof (sum_faults_nonneg (take seg_start pre) (Forall_take _ _ _ Hp)).
    pose proof (sum_faults_nonneg (drop seg_start pre) (Forall_drop _ _ _ Hp)). lia. }
  assert (u32 (running + num_faults grp) = sum_faults (drop seg_start (pre ++ [grp]))) as Hr'.
  { rewrite drop_app_le by done. rewrite sum_faults_app. simpl. rewrite Hr, u32_small by lia. lia. }
  assert (u32 (so_far + num_faults grp) = sum_faults (pre ++ [grp])) as Hs'.
  { rewrite sum_faults_app. simpl. rewrite Hs, u32_small by lia. lia. }
  assert (all = (pre ++ [grp]) ++ rest) as Hall' by (by rewrite <- app_assoc).
  assert (S (length pre) = length (pre ++ [grp])) as Hl by (rewrite length_app; simpl; lia).
  rewrite Hr', Hs', Hl.
  destruct (negb _ && _) eqn:Hc.
  - apply IH; [done|lia|left; intros ->; by rewrite bool_decide_true in Hc|done|done|]. intros _.
    rewrite drop_app_le by done. rewrite sum_faults_app. simpl. specialize (Hth ltac:(done)). simpl in Hth. lia.
  - replace (length pre - seg_start + 1)%nat with (length (pre ++ [grp]) - seg_start)%nat by lia.
    assert (threshold <= sum_faults (drop seg_start (pre ++ [grp])) /\
            (rest <> [] -> threshold <= sum_faults rest)) as [Hth1 Hth2].
    { rewrite andb_false_iff, negb_false_iff, orb_false_iff, !Z.ltb_ge, bool_decide_eq_true in Hc.
      destruct Hc as [->|[H1 H2]].
      - split; [|done]. specialize (Hth ltac:(done)). simpl in Hth. rewrite drop_app_le by done.
        rewrite sum_faults_app. simpl. lia.
      - split; [done|]. intros _. rewrite sum_faults_app in H2. simpl in H2. rewrite u32_small in H2 by lia. lia. }
    destruct (IH (pre ++ [grp]) (length (pre ++ [grp])) 0 (sum_faults (pre ++ [grp]))) as [IH1 IH2];
      [done|done|by right|by rewrite drop_all|done|intros ?%Hth2; lia|].
    split; [|constructor; [|done]].
    + cbn [consecutive]. split_and!; [done|rewrite <- Hl; lia|].
      by replace (seg_start + (length (pre ++ [grp]) - seg_start))%nat with (length (pre ++ [grp])) by lia.
    + unfold segment_faults. simpl. rewrite Hall', drop_app_le, take_app_le by (rewrite ?length_drop; lia).
      rewrite take_ge by (rewrite length_drop; lia). done.
Qed.

(** The 32-bit total is exact. *)
Lemma total_faults_sum groups :
  Forall (fun grp => 0 <= num_faults grp) groups -> sum_faults groups < 2 ^ 32 -> total_faults groups = sum_faults groups.
Proof.
  intros Hnn Hb. unfold total_faults. enough (forall k, 0 <= k -> k + sum_faults groups < 2 ^ 32 ->
    foldl (fun n grp => u32 (n + num_faults grp)) k groups = k + sum_faults groups) as E by (rewrite E; lia).
  clear Hb. induction Hnn as [|x l Hx Hl IH]; intros k Hk Hb; simpl in *; [lia|].
  pose proof (sum_faults_nonneg _ Hl). rewrite u32_small by lia. rewrite IH by lia. lia.
Qed.

(** The segments of the segmented merge cut the blocks of a batch into
    consecutive runs that cover all of them, and none is below the fault
    threshold, the last one included. *)
Theorem merge_segments_full threshold groups :
  groups <> [] -> Forall (fun grp => 0 <= num_faults grp) groups ->
  threshold <= sum_faults groups -> sum_faults groups < 2 ^ 32 ->
  let segs := merge_segments threshold (total_faults groups) groups 0 0 0 0 in
  consecutive 0 (length groups) segs /\ Forall (fun s => threshold <= segment_faults groups s) segs.
Proof.
  intros Hne Hnn Hth Hb. rewrite total_faults_sum by done.
  apply (merge_segments_spec threshold groups (sum_faults groups) Hnn eq_refl Hb groups []);
    [done|simpl; lia|by left|done|done|intros _; simpl; lia].
Qed.

Definition merged_groups : list uvm_block_fault_group_t :=
  [sample_group 10; sample_group 9; sample_group 20; sample_group 3].

Lemma merge_segments_full_witness :
  merge_segments 16 (total_faults merged_groups) merged_groups 0 0 0 0 = [(0%nat, 2%nat); (2%nat, 2%nat)] /\
  Forall (fun s => 16 <= segment_faults merged_groups s)
    (merge_segments 16 (total_faults merged_groups) merged_groups 0 0 0 0).
Proof.
  split; [by vm_compute|].
  refine (proj2 (merge_segments_full 16 merged_groups _ _ _ _)); [done| |by vm_compute|by vm_compute].
  repeat constructor; simpl; lia.
Defined.

(** The segment of each block, for segments numbered from [cur]. *)
Definition expand_segments (cur : nat) (segs : list (nat * nat)) : list nat :=
  concat (imap (fun k s => replicate s.2 (cur + k)%nat) segs).

Lemma expand_segments_cons cur s segs :
  expand_segments cur (s :: segs) = replicate s.2 cur ++ expand_segments (S cur) segs.
Proof.
  unfold expand_segments. rewrite imap_cons. simpl. rewrite Nat.add_0_r. f_equal. f_equal.
  apply imap_ext. intros k x _. simpl. by rewrite Nat.add_succ_r.
Qed.

Lemma replicate_snoc_app {A} k (x : A) l : replicate k x ++ x :: l = replicate (k + 1) x ++ l.
Proof. by rewrite replicate_add, <- app_assoc. Qed.

Lemma dynamic_segments_expand X threshold total max_seg groups : forall cur start idx seg_faults merged,
  (start <= idx)%nat -> groups <> [] \/ start = idx ->
  let d := dynamic_segments X threshold total max_seg groups cur seg_faults merged in
  let segs := segment_bounds threshold max_seg groups start idx seg_faults cur in
  replicate (idx - start) cur ++ d.1.1 = expand_segments cur segs /\ d.2 = (cur + length segs)%nat.
Proof.
  induction groups as [|grp rest IH]; intros cur start idx seg_faults merged Hle Hne;
    cbn [dynamic_segments segment_bounds].
  { destruct Hne as [Hne|Hne]; [done|]. subst. rewrite Nat.sub_diag. simpl. split; [done|lia]. }
  cbv zeta. case_match eqn:Hc.
  - case_match.
    + rewrite expand_segments_cons. simpl. rewrite app_nil_r, replicate_snoc_app, <- replicate_add.
      split; [f_equal|]; lia.
    + match goal with |- context [dynamic_segments X threshold total max_seg rest (S cur) 0 ?m] =>
        destruct (IH (S cur) (S idx) (S idx) 0 m) as [E1 E2]; [lia|by right|];
        destruct (dynamic_segments X threshold total max_seg rest (S cur) 0 m) as [[ids m'] n'] end.
      simpl in *. rewrite Nat.sub_diag in E1. simpl in E1.
      rewrite expand_segments_cons, <- E1. simpl. rewrite replicate_snoc_app. split; [do 2 f_equal|]; lia.
  - apply orb_false_iff in Hc as [_ Hr]. apply bool_decide_eq_false in Hr.
    match goal with |- context [dynamic_segments X threshold total max_seg rest cur ?sf ?m] =>
      destruct (IH cur start (S idx) sf m) as [E1 E2]; [lia|by left|];
      destruct (dynamic_segments X threshold total max_seg rest cur sf m) as [[ids m'] n'] end.
    simpl in *. rewrite replicate_snoc_app, <- E1. split; [do 2 f_equal; lia|done].
Qed.

(** The dynamic path and the paths that give each segment its workers cut a
    batch at the same places: a block's push is the one of the segment it is in. *)
Theorem dynamic_segments_bounds X threshold max_seg groups :
  let d := dynamic_segments X threshold (total_faults groups) max_seg groups 0 0 (replicate max_seg 0) in
  let segs := segment_bounds threshold max_seg groups 0 0 0 0 in
  d.1.1 = expand_segments 0 segs /\ d.2 = length segs.
Proof.
  destruct (dynamic_segments_expand X threshold (total_faults groups) max_seg groups 0 0 0 0 (replicate max_seg 0))
    as [E1 E2]; [done|by right|done].
Qed.
