(* ===== verification/WorkerPool.v ===== *)
(** * The worker pool

    The threads of the pool claim an id in the batch with an atomic counter, read
    the parameters of the batch, go through the blocks of their id and signal
    completion ([uvm_kthread_worker_fn] and [dispatch_start_inner],
    [uvm_gpu_replayable_faults_parallel.c], lines 898-1055, 1376-1450 and
    1683-1731).  A thread that is done goes back to the wait, which lets it
    through as long as the batch is marked ready, so threads keep claiming ids
    after the last one that has work, and a thread may still have a claim of an
    earlier dispatch when the next one starts. *)

From S2P Require Import Prelude FaultTypes Service Schedule.

Local Open Scope Z_scope.

(** ** Threads *)

(** The loop a thread is in, with its local variables: over the blocks of its id,
    or over the cursor up to the number of blocks it has read. *)
Inductive loop_t : Type :=
| Items (items : list nat)
| Cursor (num_items : nat).

(** A thread waits for a batch, has claimed an id, is in its loop, or services a
    block in it. *)
Inductive worker_t : Type :=
| Idle
| Claimed (my_batch_id : Z)
| Looping (l : loop_t)
| Busy (item : nat) (l : loop_t).

#[export] Instance loop_eq_dec : EqDecision loop_t.
Proof. solve_decision. Defined.
#[export] Instance worker_eq_dec : EqDecision worker_t.
Proof. solve_decision. Defined.

Inductive worker_event : Type :=
| Claims
| Services (item : nat)
| Leaves.

Record pool_t : Type := mk_pool {
  pool_workers : list worker_t;
  batch_worker_counter : Z;
  batch_items : list (list nat);
  batch_num_groups : nat;
  dynamic_active : bool;
  work_cursor : nat;
  items_remaining : Z;
  all_done : bool;
  pool_log : list (nat * worker_event);
}.

#[export] Instance pool_eta : Eta pool_t := fun p =>
  mk_pool (pool_workers p) (batch_worker_counter p) (batch_items p) (batch_num_groups p) (dynamic_active p)
    (work_cursor p) (items_remaining p) (all_done p) (pool_log p).

(** The blocks serviced and the ids claimed since the batch was started. *)
Definition service_of (e : nat * worker_event) : option nat :=
  match e.2 with Services i => Some i | _ => None end.
Definition serviced (p : pool_t) : list nat := omap service_of (pool_log p).
Definition claims (p : pool_t) : nat :=
  sum_list_with (fun e => match e.2 with Claims => 1%nat | _ => 0%nat end) (pool_log p).

(** [dispatch_start_inner]: the parameters of the batch are set and the counters
    reset; the threads are wherever they are.  [items] has the blocks of each of
    the [batch_num_active] ids. *)
Definition start_pool (dynamic : bool) (num_items : nat) (items : list (list nat)) (threads : list worker_t) : pool_t :=
  mk_pool threads 0 items num_items dynamic 0 (Z.of_nat num_items) false [].

(** The atomic step of thread [w]: it claims an id, reads the parameters of the
    batch, takes its next block or the next block of the cursor, leaves the batch,
    or has serviced a block, decrements the counter of the batch and completes it
    when the counter drops to zero. *)
Definition worker_step (p : pool_t) (w : nat) : pool_t :=
  let put x := p <| pool_workers := <[w := x]> (pool_workers p) |> in
  match pool_workers p !! w with
  | Some Idle =>
      (put (Claimed (batch_worker_counter p))) <| batch_worker_counter ::= fun c => u32 (c + 1) |>
        <| pool_log ::= cons (w, Claims) |>
  | Some (Claimed my_batch_id) =>
      put (match batch_items p !! Z.to_nat my_batch_id with
           | Some items => Looping (if dynamic_active p then Cursor (batch_num_groups p) else Items items)
           | None => Idle
           end)
  | Some (Looping (Items (item :: items))) => put (Busy item (Items items))
  | Some (Looping (Items [])) => (put Idle) <| pool_log ::= cons (w, Leaves) |>
  | Some (Looping (Cursor n)) =>
      if (work_cursor p <? n)%nat then (put (Busy (work_cursor p) (Cursor n))) <| work_cursor ::= S |>
      else (put Idle) <| work_cursor ::= S |> <| pool_log ::= cons (w, Leaves) |>
  | Some (Busy item l) =>
      (put (Looping l)) <| pool_log ::= cons (w, Services item) |> <| items_remaining ::= Z.pred |>
        <| all_done := all_done p || (items_remaining p - 1 =? 0) |>
  | None => p
  end.

(** The steps of the threads in the order of a schedule. *)
Fixpoint run_pool (schedule : list nat) (p : pool_t) : pool_t :=
  match schedule with
  | [] => p
  | w :: schedule => run_pool schedule (worker_step p w)
  end.

Lemma run_pool_app l l' p : run_pool (l ++ l') p = run_pool l' (run_pool l p).
Proof. revert p. induction l as [|w l IH]; intros p; simpl; [done|apply IH]. Qed.

(** ** Lists of threads *)

Lemma concat_insert {A B} (f : A -> list B) (l : list A) : forall i x y, l !! i = Some y ->
  exists r, concat (f <$> l) ≡ₚ f y ++ r /\ concat (f <$> <[i := x]> l) ≡ₚ f x ++ r.
Proof.
  induction l as [|z l IH]; intros [|i] x y; simpl; [done|done| |].
  - intros [= ->]. by exists (concat (f <$> l)).
  - intros (r & E1 & E2)%(IH _ x). exists (f z ++ r). unfold fmap in *. rewrite E1, E2.
    split; rewrite !app_assoc; f_equiv; apply Permutation_app_comm.
Qed.

Lemma sum_insert {A} (f : A -> nat) (l : list A) : forall w x y, l !! w = Some y ->
  exists r, sum_list_with f l = (f y + r)%nat /\ sum_list_with f (<[w := x]> l) = (f x + r)%nat.
Proof.
  induction l as [|z l IH]; intros [|w] x y; simpl; [done|done| |].
  - intros [= ->]. by eexists.
  - intros (r & E1 & E2)%(IH _ x). exists (f z + r)%nat. lia.
Qed.

Lemma Exists_insert_same {A} (P : A -> Prop) (l : list A) w x y :
  l !! w = Some y -> P x -> Exists P (<[w := x]> l).
Proof.
  intros Hw Hx. apply Exists_exists. exists x. split; [|done]. apply list_elem_of_lookup. exists w.
  apply list_lookup_insert_eq. by eapply lookup_lt_Some.
Qed.

Lemma Exists_insert_other {A} (P : A -> Prop) (l : list A) w x y :
  l !! w = Some y -> ~ P y -> Exists P l -> Exists P (<[w := x]> l).
Proof.
  intros Hw Hy (z & (i & Hi)%list_elem_of_lookup & Hz)%Exists_exists. apply Exists_exists. exists z.
  split; [|done]. apply list_elem_of_lookup. exists i. rewrite list_lookup_insert_ne; [done|]. intros <-. congruence.
Qed.

(** ** What a thread still has to do *)

Definition loop_items (l : loop_t) : list nat := match l with Items l => l | Cursor _ => [] end.

(** The blocks a thread has taken or will go through in the current batch. *)
Definition outstanding (dynamic : bool) (items : list (list nat)) (w : worker_t) : list nat :=
  match w with
  | Idle => []
  | Claimed id => if dynamic then [] else default [] (items !! Z.to_nat id)
  | Looping l => loop_items l
  | Busy i l => i :: loop_items l
  end.

(** A thread that has no claim and no block of an earlier dispatch: it waits, or
    is about to. *)
Definition settled (w : worker_t) : bool :=
  match w with Idle | Looping (Items []) => true | _ => false end.

(** A thread that has no block left to service and gives up what it holds. *)
Definition leaving (p : pool_t) (w : worker_t) : bool :=
  match w with
  | Busy _ _ | Looping (Items (_ :: _)) => false
  | Looping (Cursor n) => (n <=? work_cursor p)%nat
  | _ => true
  end.

(** A thread that may still take a block from the cursor. *)
Definition live (items : list (list nat)) (w : worker_t) : Prop :=
  match w with
  | Claimed id => (Z.to_nat id < length items)%nat
  | Looping (Cursor _) | Busy _ (Cursor _) => True
  | _ => False
  end.

Definition worker_ok (dynamic : bool) (n c : nat) (w : worker_t) : Prop :=
  match w with
  | Idle => True
  | Claimed id => 0 <= id < Z.of_nat c
  | Looping (Items l) => dynamic = true -> l = []
  | Busy _ (Items _) => dynamic = false
  | Looping (Cursor m) | Busy _ (Cursor m) => dynamic = true /\ m = n
  end.

Lemma worker_ok_mono dynamic n c c' w : (c <= c')%nat -> worker_ok dynamic n c w -> worker_ok dynamic n c' w.
Proof. intros Hc. destruct w; simpl; try done. lia. Qed.

(** The measure of a thread, and of an id that is not claimed yet. *)
Definition loop_measure (l : loop_t) : nat := 2 * length (loop_items l) + 1.

Definition worker_measure (items : list (list nat)) (w : worker_t) : nat :=
  match w with
  | Idle => 0
  | Claimed id => match items !! Z.to_nat id with Some l => 2 * length l + 2 | None => 0 end
  | Looping l => loop_measure l
  | Busy _ l => loop_measure l + 1
  end.

Definition id_measure (items : list nat) : nat := 2 * length items + 3.

(** ** Runs of the pool *)

Section Runs.
  Variable dynamic : bool.
  Variable n : nat.
  Variable items : list (list nat).
  Hypothesis has_ids : items <> [].

(** The blocks handed out so far: those of the ids claimed, or those below the
    cursor. *)
Definition handed_out (p : pool_t) : list nat :=
  if dynamic then seq 0 (Nat.min (work_cursor p) n) else concat (take (claims p) items).

Record pool_inv (p : pool_t) : Prop := {
  pi_items : batch_items p = items;
  pi_groups : batch_num_groups p = n;
  pi_dynamic : dynamic_active p = dynamic;
  pi_counter : batch_worker_counter p = Z.of_nat (claims p);
  pi_blocks : serviced p ++ concat (outstanding dynamic items <$> pool_workers p) ≡ₚ handed_out p;
  pi_remaining : items_remaining p = Z.of_nat n - Z.of_nat (length (serviced p));
  pi_done : all_done p = (items_remaining p <=? 0);
  pi_workers : Forall (worker_ok dynamic n (claims p)) (pool_workers p);
  pi_live : dynamic = true -> claims p = 0%nat \/ (n <= work_cursor p)%nat \/ Exists (live items) (pool_workers p);
}.

Lemma start_pool_inv threads : (0 < n)%nat -> Forall (fun w => settled w = true) threads ->
  pool_inv (start_pool dynamic n items threads).
Proof.
  intros Hn Hs. split; simpl; try done.
  - assert (concat (outstanding dynamic items <$> threads) = []) as ->.
    { clear -Hs. induction Hs as [|w l Hw Hl IH]; [done|]. simpl. by destruct w as [| |[[|]|]|]; try done. }
    unfold handed_out, claims, serviced. simpl. by destruct dynamic.
  - unfold serviced. simpl. lia.
  - symmetry. apply Z.leb_gt. lia.
  - eapply Forall_impl; [exact Hs|]. by intros [| |[[|]|]|].
  - by left.
Qed.

Lemma pool_claims_step p w : (claims p <= claims (worker_step p w))%nat.
Proof. unfold worker_step. repeat case_match; unfold claims; simpl; lia. Qed.

Lemma claims_bound l : forall p, (claims (run_pool l p) <= claims p + length l)%nat.
Proof.
  induction l as [|w l IH]; intros p; simpl; [lia|]. specialize (IH (worker_step p w)).
  enough (claims (worker_step p w) <= S (claims p))%nat by lia. clear.
  unfold worker_step. repeat case_match; unfold claims; simpl; lia.
Qed.

Lemma claims_run l : forall p, (claims p <= claims (run_pool l p))%nat.
Proof.
  induction l as [|w l IH]; intros p; simpl; [done|]. specialize (IH (worker_step p w)).
  pose proof (pool_claims_step p w). lia.
Qed.

#[local] Arguments Nat.min : simpl never.

(** Replacing the state of a thread by one with the same blocks left. *)
Lemma blocks_same p w x y : pool_inv p -> pool_workers p !! w = Some y ->
  outstanding dynamic items x = outstanding dynamic items y ->
  serviced p ++ concat (outstanding dynamic items <$> <[w := x]> (pool_workers p)) ≡ₚ handed_out p.
Proof.
  intros Hp Hw Ho. destruct (concat_insert (outstanding dynamic items) _ w x _ Hw) as (r & E1 & E2).
  rewrite E2, Ho, <- E1. apply Hp.
Qed.

Lemma claim_step_inv p w : pool_inv p -> pool_workers p !! w = Some Idle ->
  Z.of_nat (S (claims p)) < 2 ^ 32 -> pool_inv (worker_step p w).
Proof.
  intros [I1 I2 I3 I4 I5 I6 I7 I8 I9] Hw Hc.
  assert (claims (worker_step p w) = S (claims p)) as Hq by (unfold worker_step; by rewrite Hw).
  assert (handed_out (worker_step p w) =
    if dynamic then seq 0 (Nat.min (work_cursor p) n) else concat (take (S (claims p)) items)) as Hh
    by (unfold handed_out; rewrite Hq; unfold worker_step; by rewrite Hw).
  split; rewrite ?Hq, ?Hh; [unfold worker_step; rewrite Hw; simpl; try done..|].
  - rewrite I4, u32_small by lia. lia.
  - destruct (concat_insert (outstanding dynamic items) _ w (Claimed (batch_worker_counter p)) _ Hw) as (r & E1 & E2).
    rewrite E2. rewrite E1 in I5. simpl in *. unfold handed_out, serviced in *. simpl. rewrite I4.
    destruct dynamic; [done|]. rewrite Nat2Z.id.
    destruct (items !! claims p) as [l|] eqn:El; simpl.
    + rewrite (take_S_r _ _ _ El), concat_app, <- I5. simpl. rewrite app_nil_r, <- app_assoc.
      by rewrite (Permutation_app_comm r).
    + apply lookup_ge_None in El. rewrite take_ge in I5 |- * by lia. done.
  - apply Forall_insert; [|simpl; lia]. eapply Forall_impl; [exact I8|]. intros x. apply worker_ok_mono. lia.
  - intros Hd. right. unfold worker_step. rewrite Hw. simpl. destruct (I9 Hd) as [H|[H|H]]; [|by left|].
    + right. eapply Exists_insert_same; [exact Hw|]. simpl. rewrite I4, H. destruct items; [done|simpl; lia].
    + right. eapply Exists_insert_other; [exact Hw|by intros []|done].
Qed.

Lemma read_step_inv p w id : pool_inv p -> pool_workers p !! w = Some (Claimed id) -> pool_inv (worker_step p w).
Proof.
  intros Hp Hw. pose proof Hp as [I1 I2 I3 I4 I5 I6 I7 I8 I9]. unfold worker_step. rewrite Hw, I1, I2, I3.
  split; simpl; try done.
  - refine (blocks_same p w _ _ Hp Hw _). simpl. destruct (items !! Z.to_nat id); destruct dynamic; done.
  - apply Forall_insert; [done|]. destruct (items !! Z.to_nat id); [|done]. by destruct dynamic.
  - intros Hd. destruct (I9 Hd) as [H|[H|H]]; [by left|by right; left|right; right].
    destruct (items !! Z.to_nat id) as [l|] eqn:El.
    + eapply Exists_insert_same; [exact Hw|]. by rewrite Hd.
    + eapply Exists_insert_other; [exact Hw| |done]. simpl. apply lookup_ge_None in El. lia.
Qed.

Lemma items_step_inv p w l : pool_inv p -> pool_workers p !! w = Some (Looping (Items l)) -> pool_inv (worker_step p w).
Proof.
  intros Hp Hw. pose proof Hp as [I1 I2 I3 I4 I5 I6 I7 I8 I9]. unfold worker_step. rewrite Hw.
  pose proof (proj1 (Forall_lookup _ _) I8 _ _ Hw) as Hok. simpl in Hok. destruct l as [|i l].
  - split; simpl; try done; [exact (blocks_same p w Idle _ Hp Hw eq_refl)|by apply Forall_insert|].
    intros Hd. destruct (I9 Hd) as [H|[H|H]]; [by left|by right; left|right; right].
    eapply Exists_insert_other; [exact Hw|by intros []|done].
  - assert (dynamic = false) as Hd by (destruct dynamic; [by specialize (Hok eq_refl)|done]).
    split; simpl; try done; [exact (blocks_same p w (Busy i (Items l)) _ Hp Hw eq_refl)|by apply Forall_insert|].
    intros Ht. congruence.
Qed.

Lemma cursor_step_inv p w m : pool_inv p -> pool_workers p !! w = Some (Looping (Cursor m)) -> pool_inv (worker_step p w).
Proof.
  intros Hp Hw. pose proof Hp as [I1 I2 I3 I4 I5 I6 I7 I8 I9]. unfold worker_step. rewrite Hw.
  pose proof (proj1 (Forall_lookup _ _) I8 _ _ Hw) as [Hd ->]. destruct (Nat.ltb_spec (work_cursor p) n) as [Hc|Hc].
  - split; simpl; try done; [|by apply Forall_insert|].
    + destruct (concat_insert (outstanding dynamic items) _ w (Busy (work_cursor p) (Cursor n)) _ Hw) as (r & E1 & E2).
      rewrite E2. rewrite E1 in I5. unfold handed_out, serviced in *. simpl in *. rewrite Hd in *. simpl.
      replace (Nat.min (S (work_cursor p)) n) with (S (work_cursor p)) by lia.
      rewrite Nat.min_l in I5 by lia. rewrite seq_S, <- I5. simpl.
      by rewrite <- Permutation_middle, Permutation_cons_append.
    + intros _. right. right. by eapply Exists_insert_same.
  - split; simpl; try done; [|by apply Forall_insert|].
    + assert (seq 0 (Nat.min (S (work_cursor p)) n) = seq 0 (Nat.min (work_cursor p) n)) as E by (f_equal; lia).
      pose proof (blocks_same p w Idle _ Hp Hw eq_refl) as H. revert H. unfold handed_out. simpl.
      destruct dynamic; [by rewrite E|done].
    + intros _. right. left. lia.
Qed.

Lemma serviced_step_inv p w i l : pool_inv p -> pool_workers p !! w = Some (Busy i l) -> pool_inv (worker_step p w).
Proof.
  intros Hp Hw. pose proof Hp as [I1 I2 I3 I4 I5 I6 I7 I8 I9]. unfold worker_step. rewrite Hw.
  pose proof (proj1 (Forall_lookup _ _) I8 _ _ Hw) as Hok. split; simpl; try done.
  - destruct (concat_insert (outstanding dynamic items) _ w (Looping l) _ Hw) as (r & E1 & E2).
    rewrite E2. rewrite E1 in I5. unfold handed_out, serviced in *. simpl in *. rewrite <- I5.
    apply Permutation_middle.
  - rewrite I6. unfold serviced. simpl. unfold omap. lia.
  - rewrite I7. destruct (Z.leb_spec (items_remaining p) 0), (Z.eqb_spec (items_remaining p - 1) 0),
      (Z.leb_spec (Z.pred (items_remaining p)) 0); simpl; (done || lia).
  - apply Forall_insert; [done|]. destruct l; simpl in *; [congruence|done].
  - intros Hd. destruct (I9 Hd) as [H|[H|H]]; [by left|by right; left|right; right].
    eapply Exists_insert_same; [exact Hw|]. destruct l; simpl in *; [congruence|done].
Qed.

Lemma worker_step_inv p w : pool_inv p -> Z.of_nat (claims (worker_step p w)) < 2 ^ 32 -> pool_inv (worker_step p w).
Proof.
  intros Hp Hc. destruct (pool_workers p !! w) as [[|id|[l|m]|i l]|] eqn:Hw.
  - apply claim_step_inv; [done|done|]. revert Hc. unfold worker_step. by rewrite Hw.
  - by eapply read_step_inv.
  - by eapply items_step_inv.
  - by eapply cursor_step_inv.
  - by eapply serviced_step_inv.
  - unfold worker_step. by rewrite Hw.
Qed.

Lemma run_pool_inv l : forall p, pool_inv p -> Z.of_nat (claims (run_pool l p)) < 2 ^ 32 -> pool_inv (run_pool l p).
Proof.
  induction l as [|w l IH]; intros p Hp Hc; simpl in *; [done|]. apply IH; [|done]. apply worker_step_inv; [done|].
  pose proof (claims_run l (worker_step p w)). lia.
Qed.

(** When the ids cover every block once, or there is the cursor, the batch is
    complete exactly when every block was serviced; no block is left then. *)
Lemma pool_complete p : concat items ≡ₚ seq 0 n \/ dynamic = true -> pool_inv p ->
  (all_done p = true <-> serviced p ≡ₚ seq 0 n) /\ NoDup (serviced p) /\
  (all_done p = true -> Forall (fun w => leaving p w = true) (pool_workers p)).
Proof.
  intros Hcov [_ _ _ _ I5 I6 I7 I8 _].
  assert (exists r, handed_out p ++ r ≡ₚ seq 0 n) as [r Hr].
  { unfold handed_out. destruct dynamic.
    - exists (seq (Nat.min (work_cursor p) n) (n - Nat.min (work_cursor p) n)). rewrite <- seq_app. apply Permutation_refl'. f_equal. lia.
    - destruct Hcov as [Hcov|]; [|done]. exists (concat (drop (claims p) items)). by rewrite <- concat_app, take_drop. }
  rewrite <- I5, <- app_assoc in Hr. pose proof (Permutation_length Hr) as Hlen. rewrite !length_app, length_seq in Hlen.
  assert (all_done p = true <-> (n <= length (serviced p))%nat) as Hdone by (rewrite I7, Z.leb_le, I6; lia).
  assert (all_done p = true -> concat (outstanding dynamic items <$> pool_workers p) = [] /\ r = []) as Hnil.
  { rewrite Hdone. intros H. split; apply nil_length_inv; lia. }
  split_and!.
  - split; [intros H; destruct (Hnil H) as [E1 E2]; by rewrite E1, E2, app_nil_r in Hr|].
    rewrite Hdone. intros H%Permutation_length. by rewrite H, length_seq.
  - assert (NoDup (serviced p ++ concat (outstanding dynamic items <$> pool_workers p) ++ r)) as H by (rewrite Hr; apply NoDup_seq).
    by apply NoDup_app in H as [? _].
  - intros Hd. destruct (Hnil Hd) as [E _]. apply Forall_forall. intros w Hin.
    assert (outstanding dynamic items w = []) as Ho.
    { apply list_elem_of_split in Hin as (l1 & l2 & El). rewrite El, fmap_app, fmap_cons, concat_app in E.
      apply app_eq_nil in E as [_ E]. simpl in E. by apply app_eq_nil in E as [E _]. }
    rewrite Forall_forall in I8. specialize (I8 w Hin). destruct w as [| |[[|]|m]|]; try done. simpl in I8 |- *.
    destruct I8 as [Edyn ->]. apply Nat.leb_le. rewrite E, app_nil_r in I5. apply Permutation_length in I5.
    unfold handed_out in I5. rewrite Edyn, length_seq in I5. apply Hdone in Hd. lia.
Qed.

(** *** Runs end *)

Definition pool_measure (p : pool_t) : nat :=
  (sum_list_with (worker_measure items) (pool_workers p) + sum_list_with id_measure (drop (claims p) items) +
   if dynamic then 2 * (n - work_cursor p) else 0)%nat.

(** A thread whose step is not one of going around the wait with an id that has no
    work. *)
Definition productive (p : pool_t) (w : nat) : bool :=
  match pool_workers p !! w with
  | Some Idle => (claims p <? length items)%nat
  | Some (Claimed id) => (Z.to_nat id <? length items)%nat
  | Some _ => true
  | None => false
  end.

Lemma worker_step_measure p w : pool_inv p ->
  (pool_measure (worker_step p w) + (if productive p w then 1 else 0) <= pool_measure p)%nat.
Proof.
  intros [I1 I2 I3 I4 _ _ _ I8 _]. unfold productive. destruct (pool_workers p !! w) as [x|] eqn:Hw.
  2:{ unfold worker_step. rewrite Hw. lia. }
  pose proof (proj1 (Forall_lookup _ _) I8 _ _ Hw) as Hok. unfold pool_measure, worker_step. rewrite Hw.
  destruct x as [|id|[[|i l]|m]|i l].
  - destruct (sum_insert (worker_measure items) _ w (Claimed (batch_worker_counter p)) _ Hw) as (r & E1 & E2).
    change (claims _) with (S (claims p)) at 1. simpl pool_workers. simpl work_cursor. rewrite E1, E2. simpl.
    rewrite I4, Nat2Z.id. destruct (items !! claims p) as [l|] eqn:El.
    + rewrite (drop_S _ _ _ El). rewrite (proj2 (Nat.ltb_lt _ _)) by (by eapply lookup_lt_Some).
      simpl. unfold id_measure. lia.
    + apply lookup_ge_None in El. rewrite !drop_ge by lia. rewrite (proj2 (Nat.ltb_ge _ _)) by lia. simpl. lia.
  - rewrite I1, I2, I3. match goal with |- context [<[w := ?y]> _] =>
      destruct (sum_insert (worker_measure items) _ w y _ Hw) as (r & E1 & E2) end.
    simpl pool_workers. simpl work_cursor. rewrite E1, E2. change (claims _) with (claims p) at 1. simpl.
    destruct (items !! Z.to_nat id) as [l|] eqn:El.
    + apply lookup_lt_Some in El. rewrite (proj2 (Nat.ltb_lt _ _)) by done. unfold worker_measure, loop_measure.
      destruct dynamic; simpl; lia.
    + apply lookup_ge_None in El. rewrite (proj2 (Nat.ltb_ge _ _)) by lia. simpl. lia.
  - destruct (sum_insert (worker_measure items) _ w Idle _ Hw) as (r & E1 & E2). simpl pool_workers. simpl work_cursor.
    rewrite E1, E2. change (claims _) with (claims p) at 1. simpl. lia.
  - destruct (sum_insert (worker_measure items) _ w (Busy i (Items l)) _ Hw) as (r & E1 & E2). simpl pool_workers.
    simpl work_cursor. rewrite E1, E2. change (claims _) with (claims p) at 1. unfold worker_measure, loop_measure. simpl. lia.
  - destruct Hok as [-> ->]. destruct (Nat.ltb_spec (work_cursor p) n).
    + destruct (sum_insert (worker_measure items) _ w (Busy (work_cursor p) (Cursor n)) _ Hw) as (r & E1 & E2).
      simpl pool_workers. simpl work_cursor. rewrite E1, E2. change (claims _) with (claims p) at 1. simpl. lia.
    + destruct (sum_insert (worker_measure items) _ w Idle _ Hw) as (r & E1 & E2). simpl pool_workers.
      simpl work_cursor. rewrite E1, E2. change (claims _) with (claims p) at 1. simpl. lia.
  - destruct (sum_insert (worker_measure items) _ w (Looping l) _ Hw) as (r & E1 & E2). simpl pool_workers.
    simpl work_cursor. rewrite E1, E2. change (claims _) with (claims p) at 1. simpl. lia.
Qed.

Lemma step_other p w v : v <> w -> pool_workers (worker_step p w) !! v = pool_workers p !! v.
Proof. intros Hn. unfold worker_step. repeat case_match; simpl; by rewrite ?list_lookup_insert_ne. Qed.

(** A step that is not productive takes no id that has work, so another thread
    that could go on still can. *)
Lemma productive_kept p w v : pool_inv p -> productive p w = false -> productive p v = true ->
  productive (worker_step p w) v = true.
Proof.
  intros Hp Hw Hv. assert (v <> w) as Hn by congruence. unfold productive in *. rewrite step_other by done.
  destruct (pool_workers p !! v) as [[|id| |]|]; try done.
  assert (claims (worker_step p w) = claims p) as ->; [|done].
  unfold worker_step. destruct (pool_workers p !! w) as [[|id|[[|]|]|]|]; try done.
  apply Nat.ltb_lt in Hv. apply Nat.ltb_ge in Hw. lia.
Qed.

Abbreviation bounded q := (Z.of_nat (claims q) < 2 ^ 32).

Lemma run_pool_measure l : forall p, pool_inv p -> bounded (run_pool l p) ->
  (pool_measure (run_pool l p) <= pool_measure p)%nat.
Proof.
  induction l as [|w l IH]; intros p Hp Hb; simpl in *; [done|].
  assert (pool_inv (worker_step p w)) as Hp1.
  { apply worker_step_inv; [done|]. pose proof (claims_run l (worker_step p w)). lia. }
  specialize (IH _ Hp1 Hb). pose proof (worker_step_measure p w Hp). lia.
Qed.

(** A schedule in which a thread that can go on has a turn. *)
Lemma run_pool_decreases l : forall p v, pool_inv p -> bounded (run_pool l p) -> productive p v = true -> v ∈ l ->
  (pool_measure (run_pool l p) < pool_measure p)%nat.
Proof.
  induction l as [|w l IH]; intros p v Hp Hb Hv Hin; [by apply elem_of_nil in Hin|]. simpl in *.
  assert (pool_inv (worker_step p w)) as Hp1.
  { apply worker_step_inv; [done|]. pose proof (claims_run l (worker_step p w)). lia. }
  pose proof (worker_step_measure p w Hp) as Hm. destruct (productive p w) eqn:Hw.
  - pose proof (run_pool_measure l _ Hp1 Hb). lia.
  - assert (v ∈ l) as Hl by (apply elem_of_cons in Hin as [->|]; [congruence|done]).
    pose proof (IH _ v Hp1 Hb (productive_kept p w v Hp Hw Hv) Hl). lia.
Qed.

(** The threads that are not awake are settled. *)
Definition asleep (awake : list nat) (p : pool_t) : Prop :=
  forall w x, w ∉ awake -> pool_workers p !! w = Some x -> settled x = true.

Lemma run_pool_asleep awake l : Forall (fun w => w ∈ awake) l -> forall p, asleep awake p -> asleep awake (run_pool l p).
Proof.
  induction 1 as [|w l Hw Hl IH]; intros p Hp; simpl; [done|]. apply IH. intros v x Hv Hx. eapply Hp; [exact Hv|].
  by rewrite step_other in Hx by (intros ->; done).
Qed.

(** As long as the batch is not complete, an awake thread can go on. *)
Lemma pool_progress awake p : concat items ≡ₚ seq 0 n \/ dynamic = true -> pool_inv p -> asleep awake p ->
  awake <> [] -> Forall (fun w => w < length (pool_workers p))%nat awake -> all_done p = false ->
  exists v, v ∈ awake /\ productive p v = true.
Proof.
  intros Hcov [I1 I2 I3 I4 I5 I6 I7 I8 I9] Hs Ha Hlt Hd.
  assert ((claims p < length items)%nat -> exists v, v ∈ awake /\ productive p v = true) as Hids.
  { intros Hc. destruct awake as [|v awake]; [done|]. exists v. split; [left|].
    inversion Hlt as [|? ? Hv _]; subst. apply lookup_lt_is_Some_2 in Hv as [x Hx]. unfold productive. rewrite Hx.
    pose proof (proj1 (Forall_lookup _ _) I8 _ _ Hx) as Hok. destruct x; try done; simpl in Hok; apply Nat.ltb_lt; lia. }
  assert (forall v x, pool_workers p !! v = Some x -> settled x = false ->
    (forall id, x = Claimed id -> (Z.to_nat id < length items)%nat) -> v ∈ awake /\ productive p v = true) as Hw.
  { intros v x Hx Hset Hid. split.
    - destruct (decide (v ∈ awake)) as [|Hv]; [done|]. by rewrite (Hs _ _ Hv Hx) in Hset.
    - unfold productive. rewrite Hx. destruct x; try done. apply Nat.ltb_lt. by apply Hid. }
  destruct (concat (outstanding dynamic items <$> pool_workers p)) as [|b r] eqn:Eo.
  - rewrite app_nil_r in I5. assert (length (serviced p) < n)%nat as Hn.
    { rewrite I7 in Hd. apply Z.leb_gt in Hd. lia. }
    apply Permutation_length in I5. unfold handed_out in I5. destruct dynamic eqn:Edyn.
    + rewrite length_seq in I5. destruct (I9 eq_refl) as [H|[H|H]]; [|lia|].
      * apply Hids. rewrite H. destruct items; [done|simpl; lia].
      * apply Exists_exists in H as (x & (v & Hx)%list_elem_of_lookup & Hl). exists v. apply (Hw v x Hx).
        -- by destruct x as [| |[]|? []].
        -- by intros id ->.
    + apply Hids. destruct Hcov as [Hcov|]; [|done]. apply Nat.nle_gt. intros Hle. rewrite take_ge in I5 by done.
      apply Permutation_length in Hcov. rewrite length_seq in Hcov. lia.
  - assert (b ∈ concat (outstanding dynamic items <$> pool_workers p)) as Hb by (rewrite Eo; left).
    apply elem_of_concat in Hb as (l & Hl & (x & -> & (v & Hx)%list_elem_of_lookup)%list_elem_of_fmap).
    exists v. apply (Hw v x Hx).
    + destruct x as [| |[[|]|]|]; try done; simpl in Hl; by apply elem_of_nil in Hl.
    + intros id ->. simpl in Hl. destruct dynamic; [by apply elem_of_nil in Hl|].
      destruct (items !! Z.to_nat id) eqn:El; [by eapply lookup_lt_Some|by apply elem_of_nil in Hl].
Qed.

Lemma length_workers l : forall p, length (pool_workers (run_pool l p)) = length (pool_workers p).
Proof.
  induction l as [|w l IH]; intros p; simpl; [done|]. rewrite IH. unfold worker_step.
  repeat case_match; simpl; by rewrite ?length_insert.
Qed.

(** Rounds in each of which every awake thread, and no other, has a turn. *)
Definition fair_round (awake round : list nat) : Prop :=
  Forall (fun w => w ∈ round) awake /\ Forall (fun w => w ∈ awake) round.

Lemma done_run l : forall p, all_done p = true -> all_done (run_pool l p) = true.
Proof.
  induction l as [|w l IH]; intros p Hd; simpl; [done|]. apply IH. unfold worker_step.
  repeat case_match; simpl; by rewrite ?Hd.
Qed.

Lemma rounds_complete awake rounds : concat items ≡ₚ seq 0 n \/ dynamic = true -> awake <> [] ->
  Forall (fair_round awake) rounds -> forall p, pool_inv p -> asleep awake p ->
  Forall (fun w => w < length (pool_workers p))%nat awake -> bounded (run_pool (concat rounds) p) ->
  (pool_measure p <= length rounds)%nat -> all_done (run_pool (concat rounds) p) = true.
Proof.
  intros Hcov Ha. induction 1 as [|r rounds [Hr1 Hr2] Hrs IH]; intros p Hp Hs Hlt Hb Hm; simpl in *.
  - destruct (all_done p) eqn:Hd; [done|]. destruct (pool_progress awake p) as (v & _ & Hv); try done.
    pose proof (worker_step_measure p v Hp) as H. rewrite Hv in H. lia.
  - rewrite run_pool_app in *. assert (bounded (run_pool r p)) as Hb1.
    { pose proof (claims_run (concat rounds) (run_pool r p)). lia. }
    destruct (all_done p) eqn:Hd; [by apply done_run, done_run|].
    destruct (pool_progress awake p) as (v & Hin & Hv); try done.
    rewrite Forall_forall in Hr1. pose proof (run_pool_decreases r p v Hp Hb1 Hv (Hr1 v Hin)) as Hdec.
    apply IH; [by apply run_pool_inv|by apply run_pool_asleep|by rewrite length_workers|done|lia].
Qed.

End Runs.

Lemma start_measure dynamic n items threads : Forall (fun w => settled w = true) threads ->
  (pool_measure dynamic n items (start_pool dynamic n items threads) <=
   length threads + 2 * length (concat items) + 3 * length items + if dynamic then 2 * n else 0)%nat.
Proof.
  intros Hs. unfold pool_measure. simpl. rewrite Nat.sub_0_r.
  assert (sum_list_with (worker_measure items) threads <= length threads)%nat as H1.
  { induction Hs as [|w l Hw Hl IH]; simpl; [done|]. destruct w as [| |[[|]|]|]; try done; simpl; lia. }
  assert (sum_list_with id_measure items = 2 * length (concat items) + 3 * length items)%nat as H2.
  { clear. induction items as [|l items IH]; simpl; [done|]. rewrite length_app, IH. unfold id_measure. lia. }
  unfold claims. simpl. rewrite drop_0, H2. lia.
Qed.

(** ** Dispatching a batch *)

(** The dispatch of the blocks in a mode, from wherever the threads are. *)
Definition start_dispatch (X : merge_params) (mode : dispatch_mode) (workers : Z)
    (groups : list uvm_block_fault_group_t) (threads : list worker_t) : pool_t :=
  start_pool (bool_decide (mode = DynamicCursor)) (length groups) (worker_items X mode workers groups) threads.

(** The group-segment path allocates no more workers than ids are active. *)
Definition allocation_fits (X : merge_params) (mode : dispatch_mode) (workers : Z)
    (groups : list uvm_block_fault_group_t) : Prop :=
  mode = GroupSegParallel -> (length (worker_table (batch_workers_per_seg X workers groups)) <=
    Z.to_nat (num_active_workers X workers (Z.of_nat (length groups))))%nat.

Section Dispatches.
  Variable X : merge_params.
  Variable mode : dispatch_mode.
  Variable workers : Z.
  Variable groups : list uvm_block_fault_group_t.
  Hypothesis has_blocks : groups <> [].
  Hypothesis has_workers : 0 < limit_workers X workers.
  Hypothesis fits : allocation_fits X mode workers groups.

Let n := length groups.
Let items := worker_items X mode workers groups.
Let dynamic := bool_decide (mode = DynamicCursor).

Lemma dispatch_items : items <> [] /\ (0 < n)%nat /\ (concat items ≡ₚ seq 0 n \/ dynamic = true) /\
  (2 * length (concat items) + (if dynamic then 2 * n else 0) = 2 * n)%nat /\
  length items = Z.to_nat (num_active_workers X workers (Z.of_nat n)).
Proof.
  pose proof (active_pos X workers groups has_blocks has_workers) as (Ha & _ & _).
  assert (length items = Z.to_nat (num_active_workers X workers (Z.of_nat n))) as Hl
    by (unfold items, worker_items; by rewrite length_fmap, length_seq).
  split_and!; [|unfold n; destruct groups; [done|simpl; lia]| | |done].
  - intros E. rewrite E in Hl. simpl in Hl. unfold n in Hl. lia.
  - destruct (worker_items_cases X mode workers groups has_blocks has_workers fits) as [[? _]|[? _]]; auto.
  - destruct (worker_items_cases X mode workers groups has_blocks has_workers fits) as [[Hp Hd]|[Hd Hp]];
      fold dynamic in Hd; fold items in Hp; rewrite Hd.
    + rewrite (Permutation_length Hp), length_seq. unfold n. lia.
    + assert (concat items = []) as ->; [|simpl; lia]. clear -Hp. by induction Hp as [|x l -> Hl IH].
Qed.

Lemma dispatch_inv threads schedule : Forall (fun w => settled w = true) threads ->
  let p := run_pool schedule (start_dispatch X mode workers groups threads) in
  Z.of_nat (claims p) < 2 ^ 32 -> pool_inv dynamic n items p.
Proof.
  intros Hs p Hc. destruct dispatch_items as (Hi & Hn & _). apply run_pool_inv; [done| |exact Hc]. by apply start_pool_inv.
Qed.

(** A dispatch that is complete has serviced every block, and its threads have
    none left. *)
Lemma dispatch_complete threads schedule : Forall (fun w => settled w = true) threads ->
  let p := run_pool schedule (start_dispatch X mode workers groups threads) in
  Z.of_nat (claims p) < 2 ^ 32 -> all_done p = true ->
  serviced p ≡ₚ seq 0 n /\ Forall (fun w => leaving p w = true) (pool_workers p).
Proof.
  intros Hs p Hc Hd. destruct dispatch_items as (_ & _ & Hcov & _).
  destruct (pool_complete dynamic n items p Hcov (dispatch_inv threads schedule Hs Hc)) as (P1 & _ & P3).
  split; [by apply P1|by apply P3].
Qed.

End Dispatches.

(** The log only has threads of the pool. *)
Lemma log_threads l : forall p, Forall (fun e => e.1 < length (pool_workers p))%nat (pool_log p) ->
  Forall (fun e => e.1 < length (pool_workers p))%nat (pool_log (run_pool l p)).
Proof.
  induction l as [|w l IH]; intros p Hp; simpl; [done|].
  assert (length (pool_workers (worker_step p w)) = length (pool_workers p)) as E by apply (length_workers [w]).
  rewrite <- E. apply IH. rewrite E. unfold worker_step. destruct (pool_workers p !! w) as [x|] eqn:Hw; [|done].
  apply lookup_lt_Some in Hw. repeat case_match; simpl; by try constructor.
Qed.

(** C14: A batch dispatched to the pool while no thread has a claim of an earlier
    dispatch, with fewer than 2^32 ids claimed in it and, on the group-segment
    path, no more workers allocated than ids are active: whatever the order in
    which the threads run, no block is serviced twice and the batch is signalled
    complete exactly when every block was serviced.  It is complete after two
    rounds per block, three per id and one per thread in which every awake thread
    has a turn, however few threads are awake. *)
Theorem dispatch_completes (X : merge_params) mode workers groups threads awake rounds :
  groups <> [] -> 0 < limit_workers X workers -> allocation_fits X mode workers groups ->
  Forall (fun w => settled w = true) threads ->
  awake <> [] -> Forall (fun w => w < length threads)%nat awake -> Forall (fair_round awake) rounds ->
  let n := length groups in
  let active := Z.to_nat (num_active_workers X workers (Z.of_nat n)) in
  let p := run_pool (concat rounds) (start_dispatch X mode workers groups threads) in
  Z.of_nat (claims p) < 2 ^ 32 ->
  NoDup (serviced p) /\ (all_done p = true <-> serviced p ≡ₚ seq 0 n) /\
  ((2 * n + 3 * active + length threads <= length rounds)%nat -> all_done p = true).
Proof.
  intros Hg Hw Hfit Hs Ha Hlt Hr n active p Hc.
  destruct (dispatch_items X mode workers groups Hg Hw Hfit) as (Hi & Hn & Hcov & Hsum & Hlen).
  fold n in Hn, Hcov, Hsum, Hlen. fold active in Hlen. set (items := worker_items X mode workers groups) in *.
  set (dynamic := bool_decide (mode = DynamicCursor)) in *.
  destruct (pool_complete dynamic n items p Hcov) as (P1 & P2 & _); [by apply dispatch_inv|].
  split_and!; [done|done|]. intros Hm. eapply rounds_complete; [done|exact Hcov|exact Ha|done|by apply start_pool_inv|..]; [|done|done|].
  - intros w x _ Hx. by apply (proj1 (Forall_lookup _ _) Hs _ _ Hx).
  - pose proof (start_measure dynamic n items threads Hs). rewrite Hlen in *. unfold start_dispatch. fold n items dynamic. lia.
Qed.

(** Three blocks and two threads that take them from the cursor; the second one
    runs twice as often. *)
Definition cursor_groups : list uvm_block_fault_group_t := [sample_group 2; sample_group 20; sample_group 1].

Definition cursor_rounds : list (list nat) := replicate 14 [1; 0; 1]%nat.

Definition cursor_run : pool_t :=
  Eval vm_compute in
    run_pool (concat cursor_rounds) (start_dispatch default_merge_params DynamicCursor 2 cursor_groups [Idle; Idle]).

Lemma cursor_run_eq :
  run_pool (concat cursor_rounds) (start_dispatch default_merge_params DynamicCursor 2 cursor_groups [Idle; Idle]) = cursor_run.
Proof. vm_compute. reflexivity. Qed.

Lemma cursor_fair : Forall (fair_round [0; 1]%nat) cursor_rounds.
Proof. apply Forall_replicate. split; apply (bool_decide_unpack _); vm_compute; exact I. Qed.

Lemma dispatch_completes_witness :
  all_done cursor_run = true /\ serviced cursor_run ≡ₚ [0; 1; 2]%nat /\ (4 <= claims cursor_run)%nat.
Proof.
  pose proof (dispatch_completes default_merge_params DynamicCursor 2 cursor_groups [Idle; Idle] [0; 1]%nat cursor_rounds) as H.
  cbv zeta in H. rewrite cursor_run_eq in H. destruct H as (_ & Hs & Hd).
  - discriminate.
  - reflexivity.
  - discriminate.
  - repeat constructor.
  - discriminate.
  - repeat constructor.
  - exact cursor_fair.
  - vm_compute. reflexivity.
  - assert (all_done cursor_run = true) as E by (apply Hd; vm_compute; lia).
    split; [exact E|]. split; [apply Hs; exact E|]. vm_compute. lia.
Defined.

(** ** Allocations that do not fit *)

(** Fourteen small blocks, a large one and one more fault: with eight workers the
    first segment gets seven workers and the others one each, but only eight ids
    are active. *)
Definition starving_groups : list uvm_block_fault_group_t :=
  replicate 13 (sample_group 1) ++ [sample_group 3; sample_group 16; sample_group 1].

(** The proportional allocation of the group-segment path can assign more
    workers than there are active ids.  With the default parameters and eight
    workers there is a batch of 16 blocks of which the last is never serviced:
    however the threads run, the batch is never complete, and the coordinator
    waits until its timeout. *)
Theorem group_seg_starves threads schedule :
  Forall (fun w => settled w = true) threads ->
  let p := run_pool schedule (start_dispatch default_merge_params GroupSegParallel 8 starving_groups threads) in
  Z.of_nat (claims p) < 2 ^ 32 -> all_done p = false /\ 15%nat ∉ serviced p.
Proof.
  intros Hs p Hc. set (items := worker_items default_merge_params GroupSegParallel 8 starving_groups).
  assert (pool_inv false 16 items p) as [_ _ _ _ I5 I6 I7 _ _].
  { apply run_pool_inv; [done| |exact Hc]. apply start_pool_inv; [apply Nat.lt_0_succ|done]. }
  assert (forall b, b ∈ serviced p -> b ∈ concat items) as Hsub.
  { intros b Hb. rewrite <- (take_drop (claims p) items), concat_app. apply elem_of_app. left.
    change (b ∈ handed_out false 16 items p). rewrite <- I5. apply elem_of_app. by left. }
  split.
  - rewrite I7. apply Z.leb_gt. apply Permutation_length in I5. rewrite length_app in I5.
    change (handed_out _ _ _ _) with (concat (take (claims p) items)) in I5.
    assert (length (concat (take (claims p) items)) <= 15)%nat as Hl; [|lia].
    assert (length (concat items) = 15%nat) as H by (vm_compute; reflexivity).
    rewrite <- (take_drop (claims p) items), concat_app, length_app in H. lia.
  - intros Hb%Hsub. revert Hb. apply (bool_decide_unpack _). vm_compute. exact I.
Qed.

(** ** A stale claim *)

(** One block, for thread 0; thread 1 comes through the wait as well, claims id 1
    and is preempted. *)
Definition first_batch : pool_t :=
  run_pool [0; 1; 0; 0; 0; 0]%nat (start_dispatch default_merge_params Strided 2 [sample_group 1] [Idle; Idle]).

(** The next batch has two blocks: thread 0 claims id 0 and is about to service
    block 0; thread 1 goes on with its old id, services block 1, claims id 1 again
    and services block 1 again. *)
Definition second_batch : pool_t :=
  run_pool [0; 0; 0; 1; 1; 1; 1; 1; 1; 1; 1]%nat
    (start_dispatch default_merge_params Strided 2 [sample_group 1; sample_group 1] (pool_workers first_batch)).

(** A claim that outlives its batch lets the next batch complete early: in this
    run the second batch is signalled complete although its first block was not
    serviced, because the other block was serviced and counted twice. *)
Theorem stale_claim_completes_early :
  all_done first_batch = true /\ pool_workers first_batch = [Idle; Claimed 1] /\
  all_done second_batch = true /\ serviced second_batch = [1; 1]%nat /\
  pool_workers second_batch !! 0%nat = Some (Busy 0 (Items [])).
Proof. by vm_compute. Qed.
