(* ===== verification/PoolLife.v ===== *)
(** * Creating and destroying the worker pool

    [uvm_kthread_pool_create], [uvm_kthread_pool_destroy] and the entry points that
    call them ([uvm_gpu_replayable_faults_parallel.c], lines 706-869 and
    2987-3040), with the memory and threads they hold.  The allocator is a
    parameter: it decides for each allocation whether it succeeds. *)

From stdpp Require Import gmap.
From S2P Require Import Prelude FaultTypes Schedule.

Local Open Scope Z_scope.

(** What the pool owns: the pool and its queue, and per worker the service context,
    the block context and the thread. *)
Inductive resource : Type :=
| RPool
| RQueue
| RService (i : nat)
| RBlock (i : nat)
| RThread (i : nat).

#[export] Instance resource_eq_dec : EqDecision resource.
Proof. solve_decision. Defined.

#[export] Instance resource_countable : Countable resource.
Proof.
  refine (inj_countable'
    (fun r => match r with RPool => (0, 0) | RQueue => (1, 0) | RService i => (2, i) | RBlock i => (3, i)
              | RThread i => (4, i) end)%nat
    (fun x : nat * nat => match x with (0, _) => RPool | (1, _) => RQueue | (2, i) => RService i | (3, i) => RBlock i
              | (_, i) => RThread i end%nat) _).
  by intros [].
Defined.

(** The resources held, whether something was freed that was not held, and the
    number of allocations so far. *)
Record heap_t : Type := mk_heap {
  held_resources : gset resource;
  bad_free : bool;
  allocations : nat;
}.

#[export] Instance heap_eta : Eta heap_t := fun h => mk_heap (held_resources h) (bad_free h) (allocations h).

(** The pointers of the pool that are not null. *)
Record kthread_pool : Type := mk_kthread_pool {
  kp_num_workers : nat;
  kp_service : gset nat;
  kp_block : gset nat;
  kp_thread : gset nat;
}.

#[export] Instance kthread_pool_eta : Eta kthread_pool := fun p =>
  mk_kthread_pool (kp_num_workers p) (kp_service p) (kp_block p) (kp_thread p).

Section Pool.
  Variable available : nat -> bool.

  Abbreviation H := (ST heap_t).

Definition alloc (r : resource) : H bool := fun h =>
  let ok := available (allocations h) in
  (ok, (if ok then h <| held_resources ::= union {[ r ]} |> else h) <| allocations ::= S |>).

Definition free (r : resource) : H unit := fun h =>
  (tt, if bool_decide (r ∈ held_resources h) then h <| held_resources ::= fun s => s ∖ {[ r ]} |>
       else h <| bad_free := true |>).

(** Free the resource of worker [i] and clear the pointer, if it is set. *)
Definition stop_threads_of (i : nat) (p : kthread_pool) : H kthread_pool :=
  if bool_decide (i ∈ kp_thread p)
  then free (RThread i) ;; mret (p <| kp_thread ::= fun s => s ∖ {[ i ]} |>) else mret p.

Definition free_contexts_of (i : nat) (p : kthread_pool) : H kthread_pool :=
  when (bool_decide (i ∈ kp_block p)) (free (RBlock i)) ;;
  when (bool_decide (i ∈ kp_service p)) (free (RService i)) ;;
  mret (p <| kp_block ::= (fun s : gset nat => s ∖ {[ i ]}) |> <| kp_service ::= (fun s : gset nat => s ∖ {[ i ]}) |>).

(** [for (i = 0; i < num_workers; i++)], [n] workers from [i] on. *)
Fixpoint each_worker (body : nat -> kthread_pool -> H kthread_pool) (n i : nat) (p : kthread_pool) : H kthread_pool :=
  match n with
  | O => mret p
  | S n => p ← body i p; each_worker body n (S i) p
  end.

Definition free_pool : H unit := free RQueue ;; free RPool.

(** The label [cleanup]. *)
Definition cleanup (p : kthread_pool) : H unit :=
  each_worker free_contexts_of (kp_num_workers p) 0 p ;; free_pool.

Definition cleanup_threads (p : kthread_pool) : H unit :=
  p ← each_worker stop_threads_of (kp_num_workers p) 0 p; cleanup p.

(** Allocate the contexts of [n] workers from [i] on; [false] is a jump to
    [cleanup]. *)
Fixpoint alloc_contexts (n i : nat) (p : kthread_pool) : H (bool * kthread_pool) :=
  match n with
  | O => mret (true, p)
  | S n =>
      s ← alloc (RService i);
      if negb s then mret (false, p)
      else
        b ← alloc (RBlock i);
        if negb b then free (RService i) ;; mret (false, p)
        else alloc_contexts n (S i) (p <| kp_service ::= union {[ i ]} |> <| kp_block ::= union {[ i ]} |>)
  end.

(** [false] is a jump to [cleanup_threads]. *)
Fixpoint create_threads (n i : nat) (p : kthread_pool) : H (bool * kthread_pool) :=
  match n with
  | O => mret (true, p)
  | S n =>
      t ← alloc (RThread i);
      if negb t then mret (false, p) else create_threads n (S i) (p <| kp_thread ::= union {[ i ]} |>)
  end.

Definition pool_size (num_workers num_cpus : Z) : nat :=
  let n := Z.min num_workers UVM_KTHREAD_MAX_WORKERS in
  Z.to_nat (if n =? 0 then Z.min num_cpus UVM_KTHREAD_MAX_WORKERS else n).

Definition uvm_kthread_pool_create (num_workers num_cpus : Z) : H (NV_STATUS * option kthread_pool) :=
  a ← alloc RPool;
  if negb a then mret (NV_ERR_NO_MEMORY, None)
  else
    let n := pool_size num_workers num_cpus in
    a ← alloc RQueue;
    if negb a then free RPool ;; mret (NV_ERR_NO_MEMORY, None)
    else
      c ← alloc_contexts n 0 (mk_kthread_pool n ∅ ∅ ∅);
      if negb c.1 then cleanup c.2 ;; mret (NV_ERR_NO_MEMORY, None)
      else
        t ← create_threads n 0 c.2;
        if negb t.1 then cleanup_threads t.2 ;; mret (NV_ERR_NO_MEMORY, None)
        else mret (NV_OK, Some t.2).

Definition uvm_kthread_pool_destroy (p : kthread_pool) : H unit := cleanup_threads p.

(** The status of the creation is dropped: without a pool the serial path is
    used. *)
Definition uvm_parallel_fault_init (num_workers num_cpus : Z) : H (NV_STATUS * option kthread_pool) :=
  r ← uvm_kthread_pool_create num_workers num_cpus; mret (NV_OK, r.2).

Definition uvm_parallel_fault_exit (pool : option kthread_pool) : H unit :=
  match pool with Some p => uvm_kthread_pool_destroy p | None => mret tt end.

End Pool.

(** ** Nothing leaks *)

#[local] Arguments alloc : simpl never.
#[local] Arguments free : simpl never.

Definition owns (p : kthread_pool) (r : resource) : Prop :=
  match r with
  | RPool | RQueue => True
  | RService i => i ∈ kp_service p
  | RBlock i => i ∈ kp_block p
  | RThread i => i ∈ kp_thread p
  end.

(** The heap holds what the pool points to, and every pointer is of a worker. *)
Record consistent (p : kthread_pool) (h : heap_t) : Prop := {
  cs_bad : bad_free h = false;
  cs_owns : forall r, r ∈ held_resources h <-> owns p r;
  cs_range : forall i, i ∈ kp_service p ∪ kp_block p ∪ kp_thread p -> (i < kp_num_workers p)%nat;
}.

Definition empty_heap (h : heap_t) : Prop := bad_free h = false /\ held_resources h = ∅.

Lemma free_spec r h : r ∈ held_resources h -> free r h = (tt, h <| held_resources ::= fun s => s ∖ {[ r ]} |>).
Proof. intros Hr. unfold free. by rewrite bool_decide_true. Qed.

Lemma stop_threads_spec i p h p' h' :
  consistent p h -> stop_threads_of i p h = (p', h') ->
  consistent p' h' /\ p' = p <| kp_thread ::= fun s => s ∖ {[ i ]} |>.
Proof.
  intros [Hb Ho Hr]. unfold stop_threads_of. case_bool_decide as Hi.
  - unfold mbind, ST_bind. rewrite free_spec by (by apply Ho). intros [= <- <-]. split; [|done]. split; simpl; [done| |set_solver].
    intros r. rewrite elem_of_difference, Ho. destruct r; simpl; set_solver.
  - intros [= <- <-]. split; [done|]. destruct p as [n s b t]. unfold upd. simpl. f_equal. simpl in Hi. set_solver.
Qed.

Lemma free_contexts_spec i p h p' h' :
  consistent p h -> free_contexts_of i p h = (p', h') ->
  consistent p' h' /\ p' = p <| kp_block ::= fun s => s ∖ {[ i ]} |> <| kp_service ::= fun s => s ∖ {[ i ]} |>.
Proof.
  intros [Hb Ho Hr]. unfold free_contexts_of. unfold mbind at 1, ST_bind at 1.
  assert (exists h1, when (bool_decide (i ∈ kp_block p)) (free (RBlock i)) h = (tt, h1) /\ bad_free h1 = false /\
    forall r, r ∈ held_resources h1 <-> owns p r /\ r <> RBlock i) as (h1 & E1 & B1 & O1).
  { unfold when. destruct (bool_decide_reflect (i ∈ kp_block p)) as [Hi|Hi].
    - eexists. split; [by apply free_spec, Ho|]. split; [done|]. intros r. simpl. rewrite <- Ho. set_solver.
    - exists h. split; [done|]. split; [done|]. intros r. rewrite Ho. split; [|by intros []].
      intros Hw. split; [done|]. by intros ->. }
  rewrite E1. unfold mbind, ST_bind.
  assert (exists h2, when (bool_decide (i ∈ kp_service p)) (free (RService i)) h1 = (tt, h2) /\ bad_free h2 = false /\
    forall r, r ∈ held_resources h2 <-> owns p r /\ r <> RBlock i /\ r <> RService i) as (h2 & E2 & B2 & O2).
  { unfold when. destruct (bool_decide_reflect (i ∈ kp_service p)) as [Hi|Hi].
    - eexists. split; [by apply free_spec, O1|]. split; [done|]. intros r. simpl.
      rewrite elem_of_difference, O1, elem_of_singleton. tauto.
    - exists h1. split; [done|]. split; [done|]. intros r. rewrite O1. split; [|tauto].
      intros [Hw Hn]. split; [done|]. split; [done|]. by intros ->. }
  rewrite E2. intros [= <- <-]. split; [|done]. split; simpl; [done| |set_solver].
  intros r. rewrite O2. destruct r; simpl; set_solver.
Qed.

(** A loop that clears one set of pointers after the other. *)
Lemma each_worker_spec body (clear : nat -> kthread_pool -> kthread_pool) :
  (forall i p h p' h', consistent p h -> body i p h = (p', h') -> consistent p' h' /\ p' = clear i p) ->
  forall n i p h p' h', consistent p h -> each_worker body n i p h = (p', h') ->
  consistent p' h' /\ p' = foldl (fun q k => clear k q) p (seq i n).
Proof.
  intros Hbody. induction n as [|n IH]; intros i p h p' h' Hc; simpl; [by intros [= <- <-]|].
  unfold mbind, ST_bind. destruct (body i p h) as [p1 h1] eqn:E1. intros E2.
  destruct (Hbody _ _ _ _ _ Hc E1) as [Hc1 ->]. by apply IH in E2.
Qed.

Lemma clear_all (s : gset nat) n : (forall i, i ∈ s -> (i < n)%nat) -> s ∖ list_to_set (seq 0 n) = ∅.
Proof. intros Hs. apply set_eq. intros i. rewrite elem_of_difference, elem_of_list_to_set, elem_of_seq. set_solver by lia. Qed.

Lemma stop_all n : forall i p,
  foldl (fun q k => q <| kp_thread ::= fun s => s ∖ {[ k ]} |>) p (seq i n) =
  p <| kp_thread ::= fun s => s ∖ list_to_set (seq i n) |>.
Proof.
  induction n as [|n IH]; intros i [w s b t]; [unfold upd; simpl; f_equal; set_solver|].
  simpl seq. simpl foldl. rewrite IH. unfold upd. simpl. f_equal. set_solver.
Qed.

Lemma free_all n : forall i p,
  foldl (fun q k => q <| kp_block ::= fun s => s ∖ {[ k ]} |> <| kp_service ::= fun s => s ∖ {[ k ]} |>) p (seq i n) =
  p <| kp_block ::= fun s => s ∖ list_to_set (seq i n) |> <| kp_service ::= fun s => s ∖ list_to_set (seq i n) |>.
Proof.
  induction n as [|n IH]; intros i [w s b t]; [unfold upd; simpl; f_equal; set_solver|].
  simpl seq. simpl foldl. rewrite IH. unfold upd. simpl. f_equal; set_solver.
Qed.

Lemma cleanup_spec p h u h' : consistent p h -> kp_thread p = ∅ -> cleanup p h = (u, h') -> empty_heap h'.
Proof.
  intros Hc Ht. unfold cleanup. unfold mbind at 1, ST_bind at 1.
  destruct (each_worker free_contexts_of (kp_num_workers p) 0 p h) as [p1 h1] eqn:E1.
  apply (each_worker_spec _ _ free_contexts_spec _ _ _ _ _ _ Hc) in E1 as [[B1 O1 _] Hp1].
  rewrite free_all in Hp1. pose proof (cs_range _ _ Hc) as Hr.
  assert (forall r, r ∈ held_resources h1 <-> r = RPool \/ r = RQueue) as Hh.
  { intros r. rewrite O1, Hp1. unfold upd. destruct r; simpl; rewrite ?Ht, ?clear_all by set_solver; set_solver. }
  unfold free_pool, mbind, ST_bind. rewrite free_spec by (apply Hh; by right).
  rewrite free_spec by (simpl; apply elem_of_difference; split; [apply Hh; by left|set_solver]).
  intros [= _ <-]. split; simpl; [done|]. apply set_eq. intros r. rewrite !elem_of_difference, Hh. set_solver.
Qed.

Lemma cleanup_threads_spec p h u h' : consistent p h -> cleanup_threads p h = (u, h') -> empty_heap h'.
Proof.
  intros Hc. unfold cleanup_threads, mbind, ST_bind.
  destruct (each_worker stop_threads_of (kp_num_workers p) 0 p h) as [p1 h1] eqn:E1.
  apply (each_worker_spec _ _ stop_threads_spec _ _ _ _ _ _ Hc) in E1 as [Hc1 Hp1]. rewrite stop_all in Hp1.
  apply cleanup_spec; [done|]. rewrite Hp1. unfold upd. simpl. apply clear_all. intros i Hi. apply (cs_range _ _ Hc). set_solver.
Qed.

(** A pool whose first [i] workers have their contexts, and no thread. *)
Definition contexts_upto (n i : nat) : kthread_pool := mk_kthread_pool n (set_seq 0 i) (set_seq 0 i) ∅.
Definition threads_upto (n i : nat) : kthread_pool := mk_kthread_pool n (set_seq 0 n) (set_seq 0 n) (set_seq 0 i).

Lemma upto_S k i : k ∈ (set_seq 0 (S i) : gset nat) <-> k = i \/ k ∈ (set_seq 0 i : gset nat).
Proof. rewrite !elem_of_set_seq. lia. Qed.

Lemma upto_fresh i : i ∉ (set_seq 0 i : gset nat).
Proof. rewrite elem_of_set_seq. lia. Qed.

Section PoolSpec.
  Variable available : nat -> bool.

Lemma alloc_spec r h b h' : alloc available r h = (b, h') -> bad_free h = false ->
  bad_free h' = false /\ (b = true /\ (forall x, x ∈ held_resources h' <-> x = r \/ x ∈ held_resources h) \/
                          b = false /\ held_resources h' = held_resources h).
Proof.
  unfold alloc. intros [= <- <-] Hb. destruct (available _); simpl; split; try done; [left|by right].
  split; [done|]. set_solver.
Qed.

Lemma alloc_contexts_spec N n : forall i h r h', (i + n)%nat = N ->
  consistent (contexts_upto N i) h -> alloc_contexts available n i (contexts_upto N i) h = (r, h') ->
  consistent r.2 h' /\ kp_thread r.2 = ∅ /\ (r.1 = true -> r.2 = contexts_upto N N).
Proof.
  induction n as [|n IH]; intros i h r h' Hi Hc; cbn [alloc_contexts].
  { intros [= <- <-]. replace i with N in * by lia. by split_and!. }
  unfold mbind, ST_bind. destruct (alloc available (RService i) h) as [s h1] eqn:E1.
  destruct Hc as [Hb Ho Hr]. destruct (alloc_spec _ _ _ _ E1 Hb) as [B1 [[-> O1]|[-> O1]]]; cbn [negb].
  2:{ intros [= <- <-]. split_and!; [|done|done]. split; [done| |done]. intros x. by rewrite O1. }
  destruct (alloc available (RBlock i) h1) as [b h2] eqn:E2.
  destruct (alloc_spec _ _ _ _ E2 B1) as [B2 [[-> O2]|[-> O2]]]; cbn [negb].
  - unfold upd. cbn [kp_num_workers kp_service kp_block kp_thread kthread_pool_eta eta contexts_upto].
    assert ({[i]} ∪ set_seq 0 i = (set_seq 0 (S i) : gset nat)) as -> by (by rewrite set_seq_S_end_union_L).
    intros E. eapply (IH (S i)); [lia| |exact E]. split; [done| |].
    + intros x. rewrite O2, O1, Ho. clear. destruct x; cbn [owns contexts_upto threads_upto kp_service kp_block kp_thread]; rewrite ?upto_S; intuition congruence.
    + intros k. cbn [kp_num_workers contexts_upto kp_service kp_block kp_thread].
      rewrite !elem_of_union, !elem_of_set_seq, elem_of_empty. intros [[?|?]|?]; [lia|lia|done].
  - rewrite free_spec by (rewrite O2; apply O1; by left). intros [= <- <-]. split_and!; [|done|done].
    split; simpl; [done| |done]. intros x. rewrite elem_of_difference, O2, O1, Ho, elem_of_singleton.
    pose proof (upto_fresh i) as Hfr. clear -Hfr. destruct x; cbn [owns contexts_upto threads_upto kp_service kp_block kp_thread]; intuition congruence.
Qed.

Lemma create_threads_spec N n : forall i h r h', (i + n)%nat = N ->
  consistent (threads_upto N i) h -> create_threads available n i (threads_upto N i) h = (r, h') ->
  consistent r.2 h' /\ (r.1 = true -> r.2 = threads_upto N N).
Proof.
  induction n as [|n IH]; intros i h r h' Hi Hc; cbn [create_threads].
  { intros [= <- <-]. replace i with N in * by lia. by split. }
  unfold mbind, ST_bind. destruct (alloc available (RThread i) h) as [t h1] eqn:E1.
  destruct Hc as [Hb Ho Hr]. destruct (alloc_spec _ _ _ _ E1 Hb) as [B1 [[-> O1]|[-> O1]]]; cbn [negb].
  - unfold upd. cbn [kp_num_workers kp_service kp_block kp_thread kthread_pool_eta eta threads_upto].
    assert ({[i]} ∪ set_seq 0 i = (set_seq 0 (S i) : gset nat)) as -> by (by rewrite set_seq_S_end_union_L).
    intros E. eapply (IH (S i)); [lia| |exact E]. split; [done| |].
    + intros x. rewrite O1, Ho. clear. destruct x; cbn [owns contexts_upto threads_upto kp_service kp_block kp_thread]; rewrite ?upto_S; intuition congruence.
    + intros k. cbn [kp_num_workers threads_upto kp_service kp_block kp_thread].
      rewrite !elem_of_union, !elem_of_set_seq. intros [[?|?]|?]; lia.
  - intros [= <- <-]. split; [|done]. split; [done| |done]. intros x. by rewrite O1.
Qed.

(** C40: Creating the worker pool leaks nothing and frees nothing twice: when any
    allocation or thread creation fails everything is given back, and when it
    succeeds the pool owns the contexts and the thread of each of its workers, at
    most 32, and destroying it gives everything back. *)
Theorem pool_create_destroy num_workers num_cpus h st pool h' :
  0 <= num_workers -> 0 < num_cpus -> empty_heap h ->
  uvm_kthread_pool_create available num_workers num_cpus h = ((st, pool), h') ->
  match pool with
  | None => st = NV_ERR_NO_MEMORY /\ empty_heap h'
  | Some p =>
      st = NV_OK /\ (0 < kp_num_workers p <= 32)%nat /\ bad_free h' = false /\
      (forall r, r ∈ held_resources h' <-> owns p r) /\
      (forall i, (i < kp_num_workers p)%nat -> i ∈ kp_service p /\ i ∈ kp_block p /\ i ∈ kp_thread p) /\
      empty_heap (uvm_kthread_pool_destroy p h').2
  end.
Proof.
  intros Hw Hcpu [Hb He]. unfold uvm_kthread_pool_create. set (n := pool_size num_workers num_cpus).
  unfold mbind at 1, ST_bind at 1. destruct (alloc available RPool h) as [a h1] eqn:E1.
  destruct (alloc_spec _ _ _ _ E1 Hb) as [B1 [[-> O1]|[-> O1]]]; cbn [negb];
    [|intros [= <- <- <-]; split; [done|]; split; congruence].
  unfold mbind at 1, ST_bind at 1. destruct (alloc available RQueue h1) as [a h2] eqn:E2.
  destruct (alloc_spec _ _ _ _ E2 B1) as [B2 [[-> O2]|[-> O2]]]; cbn [negb].
  2:{ unfold mbind, ST_bind. rewrite free_spec by (rewrite O2; apply O1; by left). intros [= <- <- <-].
      split; [done|]. split; [done|]. simpl. apply set_eq. intros x. rewrite elem_of_difference, O2, O1, He. set_solver. }
  unfold mbind at 1, ST_bind at 1. change (mk_kthread_pool n ∅ ∅ ∅) with (contexts_upto n 0).
  destruct (alloc_contexts available n 0 (contexts_upto n 0) h2) as [c h3] eqn:E3.
  assert (consistent (contexts_upto n 0) h2) as Hc2.
  { split; [done| |simpl; set_solver]. intros x. rewrite O2, O1, He. destruct x; simpl; set_solver. }
  apply (alloc_contexts_spec n n) in E3 as (Hc3 & Ht3 & Hok3); [|done|done]. destruct c as [[] p3]; cbn [fst snd negb] in *.
  2:{ unfold mbind, ST_bind. destruct (cleanup p3 h3) as [u h4] eqn:E4. intros [= <- <- <-].
      split; [done|]. exact (cleanup_spec _ _ _ _ Hc3 Ht3 E4). }
  rewrite (Hok3 eq_refl) in *. unfold mbind at 1, ST_bind at 1.
  change (contexts_upto n n) with (threads_upto n 0) in *.
  destruct (create_threads available n 0 (threads_upto n 0) h3) as [t h4] eqn:E4.
  apply (create_threads_spec n n) in E4 as (Hc4 & Hok4); [|done|done]. destruct t as [[] p4]; cbn [fst snd negb] in *.
  2:{ unfold mbind, ST_bind. destruct (cleanup_threads p4 h4) as [u h5] eqn:E5. intros [= <- <- <-].
      split; [done|]. exact (cleanup_threads_spec _ _ _ _ Hc4 E5). }
  intros [= <- <- <-]. rewrite (Hok4 eq_refl) in *. split_and!; [done|..].
  - simpl. unfold n, pool_size, UVM_KTHREAD_MAX_WORKERS. destruct (Z.eqb_spec (Z.min num_workers 32) 0); lia.
  - simpl. unfold n, pool_size, UVM_KTHREAD_MAX_WORKERS. destruct (Z.eqb_spec (Z.min num_workers 32) 0); lia.
  - apply Hc4.
  - apply Hc4.
  - intros i Hi. cbn [threads_upto kp_service kp_block kp_thread kp_num_workers] in *. rewrite !elem_of_set_seq. lia.
  - unfold uvm_kthread_pool_destroy. destruct (cleanup_threads _ h4) as [u h5] eqn:E5. exact (cleanup_threads_spec _ _ _ _ Hc4 E5).
Qed.

End PoolSpec.

(** Two workers, and memory for everything; and a failing thread creation. *)
Definition heap0 : heap_t := mk_heap ∅ false 0.

Definition pool_created : NV_STATUS * option kthread_pool * heap_t :=
  Eval vm_compute in uvm_kthread_pool_create (fun _ => true) 2 4 heap0.

Definition pool_failed : NV_STATUS * option kthread_pool * heap_t :=
  Eval vm_compute in uvm_kthread_pool_create (fun k => negb (k =? 7)%nat) 2 4 heap0.

Lemma pool_create_destroy_witness :
  pool_created.1.1 = NV_OK /\ size (held_resources pool_created.2) = 8%nat /\
  pool_failed.1.1 = NV_ERR_NO_MEMORY /\ empty_heap pool_failed.2.
Proof.
  split; [reflexivity|]. split; [reflexivity|].
  exact (pool_create_destroy (fun k => negb (k =? 7)%nat) 2 4 heap0 pool_failed.1.1 pool_failed.1.2 pool_failed.2
    ltac:(lia) ltac:(lia) (conj eq_refl eq_refl) ltac:(vm_compute; reflexivity)).
Defined.
