(* ===== verification/Kthread.v ===== *)
(** * Servicing a VA block on a worker

    [service_block_faults_kthread], which a worker of the pool or the coordinator
    runs for the faults of one VA block ([uvm_gpu_replayable_faults_parallel.c],
    lines 1457-1676), and its relation to the pass of the serial path.  The
    contexts of the workers are allocated with the pool; the asynchronous copy
    pipeline is never used, because every item is migratable.
    Grouping never yields HMM blocks, so their migrate lock is left out. *)

From stdpp Require Import gmap.
From S2P Require Import Prelude FaultTypes Gpu SimDevice Sorting FaultBuffer Frames Predictor Fetch Coalesce Channels Preprocess Stale Service Dispatch.

Local Open Scope Z_scope.

(** ** The pass over the faults *)

(** The service context of the worker, the local variables and what the item
    reports. *)
Record kthread_pass_t : Type := mk_kpass {
  kp_ctx : uvm_service_block_context_t;
  kp_first_page : Z;
  kp_last_page : Z;
  faults_serviced : Z;
  has_fatal : bool;
}.

#[export] Instance kthread_pass_eta : Eta kthread_pass_t := fun s =>
  mk_kpass (kp_ctx s) (kp_first_page s) (kp_last_page s) (faults_serviced s) (has_fatal s).

Section Pass.
  Variable q : block_queries.
  Variable blk : uvm_va_block_t.
  Variable b : uvm_fault_service_batch_context_t.

Definition kthread_queue_page (pos : nat) (e : uvm_fault_buffer_entry_t) (page : Z) (s : kthread_pass_t)
  : kthread_pass_t :=
  let s := s <| kp_first_page ::= fun f => if page <? f then page else f |>
             <| kp_last_page ::= fun l => if l <? page then page else l |> in
  let '(proc, read_duplicate) := q_residency q pos page (access_type_mask e) true in
  let s := s <| kp_ctx ::= set_new_residency proc page |>
             <| kp_ctx ::= fun c => c <| block_access_type ::= insert page (fault_access_type e) |> |> in
  if read_duplicate : bool then s <| kp_ctx ::= read_duplicate_page page |> else s.

Definition kthread_page (pos : nat) (e : uvm_fault_buffer_entry_t) (s : kthread_pass_t) : kthread_pass_t :=
  let page := uvm_va_block_cpu_page_index blk (fault_address e) in
  if q_authorized q pos page (uvm_fault_access_type_to_prot (fault_access_type e)) then s
  else
    match q_hint q pos (fault_address e) with
    | UVM_PERF_THRASHING_HINT_TYPE_THROTTLE => s
    | UVM_PERF_THRASHING_HINT_TYPE_PIN => kthread_queue_page pos e page (s <| kp_ctx ::= pin_page page |>)
    | UVM_PERF_THRASHING_HINT_TYPE_NONE => kthread_queue_page pos e page s
    end.

(** The fault before [pos] has the same page and is not fatal. *)
Definition kthread_duplicate (pos : nat) (e : uvm_fault_buffer_entry_t) : bool :=
  match previous_at b pos with
  | Some p =>
      let previous := cache_at b p in
      bool_decide (va_space e = va_space previous) && (fault_address e =? fault_address previous) &&
      negb (is_fatal previous)
  | None => false
  end.

Definition kthread_entry (pos : nat) (e : uvm_fault_buffer_entry_t) (s : kthread_pass_t) : kthread_pass_t :=
  (if is_fatal e then s <| has_fatal := true |>
   else if kthread_duplicate pos e then s
   else kthread_page pos e s) <| faults_serviced ::= fun n => u32 (n + 1) |>.

Fixpoint kthread_loop (n pos : nat) (s : kthread_pass_t) : kthread_pass_t :=
  match n with
  | O => s
  | S n =>
      let e := cache_at b (ordered_fault_cache b !!! pos) in
      if (fault_address e <? block_start blk) || (block_end blk <? fault_address e) then s
      else kthread_loop n (S pos) (kthread_entry pos e s)
  end.

Definition reset_service_context (c : uvm_service_block_context_t) : uvm_service_block_context_t :=
  c <| resident_processors := ∅ |> <| thrashing_pin_count := 0 |> <| read_duplicate_count := 0 |>.

Definition kthread_pass (first n : nat) (c : uvm_service_block_context_t) : kthread_pass_t :=
  kthread_loop n first (mk_kpass (reset_service_context c) PAGES_PER_UVM_VA_BLOCK 0 0 false).

End Pass.

(** ** The item *)

(** What a worker asks of a VA block: its VA space and VA range, which are gone
    once the block is dead, and its lock.  While the worker waits for the lock the
    rest of the driver may run. *)
Class WorkerOps (D : Type) : Type := {
  op_block_va_space : uvm_gpu D -> uvm_va_block_t -> option Z;
  op_block_has_va_range : uvm_gpu D -> uvm_va_block_t -> bool;
  op_block_lock : uvm_gpu D -> uvm_va_block_t -> D;
}.

(** What an item reports. *)
Record item_result : Type := mk_item_result {
  item_status : NV_STATUS;
  item_faults_serviced : Z;
  item_has_fatal_faults : bool;
}.

Section Item.
  Context {D : Type} `{Hal : FaultBufferHal D} `{!FaultBufferHalLive D} `{Ops : GpuOps D}
    `{Va : VaSpaceOps D} `{!VaSpaceOpsLive D} `{Work : WorkerOps D}.

  Abbreviation M := (ST (uvm_gpu D)).

Definition block_alive (blk : uvm_va_block_t) (g : uvm_gpu D) : bool :=
  bool_decide (op_block_va_space g blk <> None) && (block_is_hmm blk || op_block_has_va_range g blk).

(** [UVM_VA_BLOCK_RETRY_LOCKED] around [uvm_va_block_service_locked]; [fuel] bounds
    the retries. *)
Fixpoint retry_service (fuel : nat) (blk : uvm_va_block_t) (c : uvm_service_block_context_t) : M NV_STATUS :=
  st ← (fun g => let '(st, d) := op_block_service g blk c in (st, g <| hw := d |>));
  match fuel with
  | O => mret st
  | S fuel => if bool_decide (st = NV_ERR_MORE_PROCESSING_REQUIRED) then retry_service fuel blk c else mret st
  end.

(** Service the queued pages. *)
Definition kthread_service (blk : uvm_va_block_t) (s : kthread_pass_t)
  : M (NV_STATUS * uvm_service_block_context_t) :=
  if kp_first_page s <=? kp_last_page s then
    let c := (kp_ctx s) <| region_first := kp_first_page s |> <| region_outer := kp_last_page s + 1 |> in
    fuel ← gets (fun g => op_retries (hw g));
    st ← retry_service fuel blk c;
    mret (st, c)
  else mret (NV_OK, kp_ctx s).

(** The part under the lock of the block. *)
Definition service_block_locked (blk : uvm_va_block_t) (first n : nat) (c : uvm_service_block_context_t)
  : M (item_result * uvm_service_block_context_t) :=
  alive ← gets (block_alive blk);
  if negb alive then mret (mk_item_result NV_WARN_MORE_PROCESSING_REQUIRED 0 false, c)
  else if block_is_hmm blk then
    mret (mk_item_result NV_WARN_MORE_PROCESSING_REQUIRED 0 false, reset_service_context c)
  else
    s ← gets (fun g => kthread_pass (op_block_queries g blk) blk (batch g) first n c);
    r ← kthread_service blk s;
    tracker_status ← gets (fun g => op_block_tracker_add g blk);
    mret (mk_item_result (if is_ok r.1 then tracker_status else r.1) (faults_serviced s) (has_fatal s), r.2).

Definition service_block_faults_kthread (blk : uvm_va_block_t) (first n : nat) (c : uvm_service_block_context_t)
  : M (item_result * uvm_service_block_context_t) :=
  alive ← gets (block_alive blk);
  if negb alive then mret (mk_item_result NV_WARN_MORE_PROCESSING_REQUIRED 0 false, c)
  else
    let c := c <| num_retries := 0 |> in
    modify (fun g => g <| hw := op_block_lock g blk |>) ;;
    service_block_locked blk first n c.

End Item.

(** ** The pass is the serial one *)

(** The faults up to the flags other than the fatal one. *)
Definition kept (b b' : uvm_fault_service_batch_context_t) : Prop :=
  same_faults b b' /\ forall k, is_fatal (cache_at b' k) = is_fatal (cache_at b k).

#[export] Instance kept_preorder : PreOrder kept.
Proof. split; [by split|]. intros a b c [H1 H2] [H3 H4]. split; [by etrans|]. intros k. by rewrite H4. Qed.

Lemma mark_throttled_kept i b : kept b (mark_fault_throttled i b).
Proof. split; [apply mark_throttled_same|]. intros k. by apply (is_fatal_upd b i k (fun e => e <| is_throttled := true |>)). Qed.

Lemma mark_invalid_prefetch_kept i b : kept b (mark_fault_invalid_prefetch i b).
Proof.
  split; [apply mark_invalid_prefetch_same|]. intros k.
  by apply (is_fatal_upd b i k (fun e => e <| is_invalid_prefetch := true |>)).
Qed.

Lemma duplicate_flags_kept i p b : kept b (fault_entry_duplicate_flags i p b).
Proof.
  unfold fault_entry_duplicate_flags. etrans; [|case_match; [apply mark_throttled_kept|reflexivity]].
  case_match; [apply mark_invalid_prefetch_kept|reflexivity].
Qed.

Lemma account_stale_kept P m e page ser b : kept b (account_stale_fault P m e page ser b).
Proof. split; [apply account_stale_same|]. intros k. unfold cache_at. by rewrite account_stale_cache. Qed.

(** The pass of the serial path and the one of a worker after [m] faults of the
    batch [b]. *)
Record matches (b : uvm_fault_service_batch_context_t) (m : nat) (s : block_pass) (k : kthread_pass_t) : Prop := {
  mt_kept : kept b (pass_batch s);
  mt_ctx : kp_ctx k = pass_ctx s;
  mt_first : kp_first_page k = first_page_index s;
  mt_last : kp_last_page k = last_page_index s;
  mt_count : 0 <= page_fault_count s <= Z.of_nat m;
  mt_queued : (kp_first_page k <=? kp_last_page k) = (0 <? page_fault_count s);
}.

(** A fault the worker handles as the serial path does. *)
Definition plain_fault (blk : uvm_va_block_t) (e : uvm_fault_buffer_entry_t) : Prop :=
  is_fatal e = false /\ fault_access_type e <> UVM_FAULT_ACCESS_TYPE_COUNT /\
  block_start blk <= fault_address e <= block_end blk.

Section Matching.
  Variable P : module_params.
  Variable q : block_queries.
  Variable blk : uvm_va_block_t.
  Variable b : uvm_fault_service_batch_context_t.
  Hypothesis permitted : forall pos page access m, q_permission q pos page access m = NV_OK.

Lemma matches_queue_page m pos i page s k :
  Z.of_nat m < 2 ^ 32 - 1 -> matches b m s k ->
  let e := cache_at b i in
  matches b (S m) (queue_page P q true pos i page (fault_access_type e) (access_type_mask e) s)
    (kthread_queue_page q pos e page k).
Proof.
  intros Hm [Hk Hc Hf Hl Hn Hq]. simpl.
  assert (kept b (pass_batch (queue_page P q true pos i page (fault_access_type (cache_at b i))
    (access_type_mask (cache_at b i)) s))) as Hk' by (by rewrite queue_page_batch).
  unfold queue_page, kthread_queue_page in *. destruct (q_residency _ _ _ _ _) as [proc rd].
  assert (0 < u32 (page_fault_count s + 1) <= Z.of_nat (S m)) as Hn' by (rewrite u32_small by lia; lia).
  destruct (stale_detail_enabled P), rd; split; try exact Hk'; simpl; try lia; rewrite ?Hc, ?Hf, ?Hl; try done;
    rewrite (proj2 (Z.ltb_lt _ _) (proj1 Hn')); apply Z.leb_le; repeat case_match; lia.
Qed.

Lemma matches_weaken m s k : matches b m s k -> matches b (S m) s k.
Proof. intros []. split; try done. lia. Qed.

Lemma matches_page m pos i s k :
  Z.of_nat m < 2 ^ 32 - 1 -> matches b m s k -> plain_fault blk (cache_at b i) ->
  matches b (S m) (service_page P q blk true pos i s) (kthread_page q blk pos (cache_at b i) k).
Proof.
  intros Hm Hs (_ & Ha & _). unfold service_page, kthread_page.
  destruct (same_faults_fields _ _ i (proj1 (mt_kept _ _ _ _ Hs))) as (_ & Ea & Et & Emask & _).
  unfold check_fault_access_permissions. rewrite permitted. simpl. rewrite Ea, Et, Emask.
  rewrite bool_decide_false by done. rewrite bool_decide_false by naive_solver.
  assert (s <| pass_batch := pass_batch s |> = s) as -> by (by destruct s).
  destruct (q_authorized _ _ _ _).
  - destruct Hs as [Hk Hc Hf Hl Hn Hq]. split; simpl; try done; [|lia].
    etrans; [exact Hk|apply account_stale_kept].
  - destruct (q_hint _ _ _).
    + by apply matches_queue_page.
    + apply matches_queue_page; [done|]. destruct Hs as [Hk Hc Hf Hl Hn Hq]. split; simpl; try done. by rewrite Hc.
    + apply matches_weaken. case_match; [|done]. destruct Hs as [Hk Hc Hf Hl Hn Hq]. split; simpl; try done.
      etrans; [exact Hk|apply mark_throttled_kept].
Qed.

Lemma matches_entry m pos prev s k :
  let i := ordered_fault_cache b !!! pos in
  Z.of_nat m < 2 ^ 32 - 1 -> matches b m s k -> plain_fault blk (cache_at b i) ->
  match prev with
  | Some p => previous_at b pos = Some p /\ plain_fault blk (cache_at b p)
  | None => kthread_duplicate b pos (cache_at b i) = false
  end ->
  matches b (S m) (service_entry P q blk true pos i prev s) (kthread_entry q blk b pos (cache_at b i) k).
Proof.
  intros i Hm Hs Hi Hp. unfold service_entry, kthread_entry. rewrite (proj1 Hi).
  destruct (entry_prologue P i prev s) as [d s1] eqn:E. apply entry_prologue_spec in E as [E1 E2 E3 E4 _ E6 E7 E8].
  assert (matches b m s1 k) as Hs1.
  { destruct Hs as [Hk Hc Hf Hl Hn Hq]. split; try congruence. etrans; [exact Hk|by split]. }
  assert (forall k', matches b (S m) s1 k' -> matches b (S m) s1 (k' <| faults_serviced ::= fun n => u32 (n + 1) |>))
    as Hcount by (intros k' []; by split).
  assert (forall s' k', matches b (S m) s' k' -> matches b (S m) s' (k' <| faults_serviced ::= fun n => u32 (n + 1) |>))
    as Hcount' by (intros s' k' []; by split).
  apply Hcount'. destruct prev as [p|].
  - destruct Hp as [Hp Hpp]. assert (kthread_duplicate b pos (cache_at b i) = d) as ->.
    { unfold kthread_duplicate. rewrite Hp, (proj1 Hpp), E3. simpl fmap.
      rewrite (duplicate_same _ _ i p (proj1 (mt_kept _ _ _ _ Hs))). by rewrite andb_true_r. }
    destruct d; [|by apply matches_page].
    set (s2 := s1 <| pass_batch ::= _ |>).
    assert (matches b m s2 k) as Hs2.
    { destruct Hs1 as [Hk Hc Hf Hl Hn Hq]. split; try done. etrans; [exact Hk|apply duplicate_flags_kept]. }
    rewrite (proj2 (mt_kept _ _ _ _ Hs2)), (proj1 Hpp). by apply matches_weaken.
  - rewrite Hp. by apply matches_page.
Qed.

Lemma service_loop_ge e0 first n : forall pos s, (pos <= (service_loop P q blk true e0 first n pos s).1)%nat.
Proof.
  induction n as [|n IH]; intros pos s; simpl; [done|]. case_match; [|done]. etransitivity; [|apply IH]. lia.
Qed.

Lemma kthread_entry_serviced pos e k :
  faults_serviced (kthread_entry q blk b pos e k) = u32 (faults_serviced k + 1).
Proof.
  unfold kthread_entry, kthread_page, kthread_queue_page. simpl. f_equal. f_equal. repeat case_match; done.
Qed.

Lemma matches_loop e0 first n : forall m pos s k,
  matches b m s k -> (first <= pos)%nat -> Z.of_nat (m + n) < 2 ^ 32 -> faults_serviced k = Z.of_nat m ->
  (pos = first -> kthread_duplicate b first (cache_at b (ordered_fault_cache b !!! first)) = false) ->
  let r := service_loop P q blk true e0 first n pos s in
  (forall j, (first <= j < r.1)%nat -> plain_fault blk (cache_at b (ordered_fault_cache b !!! j))) ->
  let k' := kthread_loop q blk b (r.1 - pos) pos k in
  matches b (m + n) r.2 k' /\ faults_serviced k' = Z.of_nat (m + (r.1 - pos)).
Proof.
  assert (forall m n s k, matches b m s k -> matches b (m + n) s k) as Hadd.
  { intros m n' s k H. induction n'; [by rewrite Nat.add_0_r|]. rewrite Nat.add_succ_r. by apply matches_weaken. }
  induction n as [|n IH]; intros m pos s k Hs Hle Hm Hf Hd r Hr; subst r; cbn [service_loop] in *.
  { simpl. rewrite Nat.sub_diag, !Nat.add_0_r. done. }
  pose proof (proj1 (mt_kept _ _ _ _ Hs)) as Hsame.
  revert Hr. rewrite (sf_ordered _ _ Hsame). set (i := ordered_fault_cache b !!! pos).
  destruct (_ && _) eqn:Hc; intros Hr; [|simpl; rewrite Nat.sub_diag, !Nat.add_0_r; split; [|done]; by apply Hadd].
  set (s1 := service_entry P q blk true pos i _ s) in *.
  assert (plain_fault blk (cache_at b i)) as Hi.
  { apply Hr. pose proof (service_loop_ge e0 first n (S pos) s1). lia. }
  assert (matches b (S m) s1 (kthread_entry q blk b pos (cache_at b i) k)) as Hs1.
  { apply matches_entry; [lia|done|done|]. destruct (Nat.ltb_spec first pos) as [Hlt|Hge].
    - split; [unfold previous_at; by rewrite (proj2 (Nat.ltb_lt 0 pos)) by lia|]. apply Hr.
      pose proof (service_loop_ge e0 first n (S pos) s1). lia.
    - assert (pos = first) as Epos by lia. unfold i. rewrite Epos. by apply Hd. }
  destruct (IH (S m) (S pos) s1 _ Hs1) as [IH1 IH2]; [lia|lia| |lia|exact Hr|].
  { rewrite kthread_entry_serviced, Hf, u32_small by lia. lia. }
  pose proof (service_loop_ge e0 first n (S pos) s1) as Hge.
  replace ((service_loop P q blk true e0 first n (S pos) s1).1 - pos)%nat
    with (S ((service_loop P q blk true e0 first n (S pos) s1).1 - S pos)) by lia.
  cbn [kthread_loop]. fold i. destruct Hi as (_ & _ & Hi).
  rewrite (proj2 (Z.ltb_ge _ _)) by lia. rewrite (proj2 (Z.ltb_ge (block_end blk) _)) by lia. simpl orb.
  rewrite Nat.add_succ_r. split; [exact IH1|]. rewrite IH2. f_equal. lia.
Qed.

End Matching.

(** C11: When every access is permitted, the worker queues exactly what the serial
    path queues: over the faults of a block it builds the same service context,
    the same region and services the block under the same condition. *)
Theorem kthread_pass_serial P q blk b c lag first :
  (forall pos page access m, q_permission q pos page access m = NV_OK) ->
  num_coalesced_faults b < 2 ^ 32 ->
  let r := block_pass_run P q blk true first b c lag in
  (forall j, (first <= j < r.1)%nat -> plain_fault blk (cache_at b (ordered_fault_cache b !!! j))) ->
  kthread_duplicate b first (cache_at b (ordered_fault_cache b !!! first)) = false ->
  let k := kthread_pass q blk b first (r.1 - first) c in
  kp_ctx k = pass_ctx r.2 /\ kp_first_page k = first_page_index r.2 /\ kp_last_page k = last_page_index r.2 /\
  (kp_first_page k <=? kp_last_page k) = (0 <? page_fault_count r.2) /\
  faults_serviced k = Z.of_nat (r.1 - first).
Proof.
  intros Hq Hn r Hr Hd. unfold kthread_pass.
  destruct (matches_loop P q blk b Hq (block_policy_end q blk (fault_address (cache_at b (ordered_fault_cache b !!! first))))
    first (Z.to_nat (num_coalesced_faults b) - first) 0 first
    (mk_pass b (reset_service_context c) lag [] ∅ 0 PAGES_PER_UVM_VA_BLOCK 0 (q_migratability q))
    (mk_kpass (reset_service_context c) PAGES_PER_UVM_VA_BLOCK 0 0 false)) as [[_ E1 E2 E3 _ E4] E5];
    [by split|lia|lia|done|done|exact Hr|]. by split_and!.
Qed.

(** Every access is permitted and page 1 is thrashing. *)
Definition open_queries : block_queries :=
  mk_queries (fun _ _ _ _ => NV_OK) (fun _ page _ => page =? 2)
    (fun _ a => if a =? 4096 then UVM_PERF_THRASHING_HINT_TYPE_PIN else UVM_PERF_THRASHING_HINT_TYPE_NONE)
    (fun _ page _ _ => (3, page =? 0)) (fun a => a) [(2 ^ 21 - 1, true)].

Definition worker_batch : uvm_fault_service_batch_context_t :=
  (example_batch
    [(example_entry 1 0 UVM_FAULT_ACCESS_TYPE_READ) <| access_type_mask := 2 |>;
     (example_entry 1 4096 UVM_FAULT_ACCESS_TYPE_WRITE) <| access_type_mask := 6 |>;
     (example_entry 1 4096 UVM_FAULT_ACCESS_TYPE_READ) <| access_type_mask := 2 |>;
     (example_entry 1 8192 UVM_FAULT_ACCESS_TYPE_READ) <| access_type_mask := 2 |>])
  <| utlbs := [zero_utlb] |>.

Lemma kthread_pass_serial_witness :
  let k := kthread_pass open_queries pass_block worker_batch 0 4 empty_block_context in
  faults_serviced k = 4 /\ kp_first_page k = 0 /\ kp_last_page k = 1 /\
  kp_ctx k = pass_ctx (block_pass_run default_params open_queries pass_block true 0 worker_batch
                         empty_block_context []).2.
Proof.
  assert ((block_pass_run default_params open_queries pass_block true 0 worker_batch empty_block_context []).1 = 4%nat)
    as E by (by vm_compute).
  pose proof (kthread_pass_serial default_params open_queries pass_block worker_batch empty_block_context [] 0) as H.
  cbv zeta in H. rewrite E in H. destruct H as (Hc & _ & _ & _ & Hn); [done|by vm_compute| |by vm_compute|].
  - intros j Hj. assert (j = 0 \/ j = 1 \/ j = 2 \/ j = 3)%nat as [->|[->|[->| ->]]] by lia; vm_compute;
      split_and!; (done || by intros [=]).
  - split_and!; [exact Hn|by vm_compute|by vm_compute|exact Hc].
Defined.

(** The worker never asks whether an access is permitted: on a batch in which
    a write to page 1 is denied it queues the page for writing, and reports no
    fatal fault, where the serial path grants the pending read only and marks the
    fault fatal. *)
Theorem kthread_services_denied :
  let k := kthread_pass pass_queries pass_block pass_example_batch 0 2 empty_block_context in
  let r := block_pass_run default_params pass_queries pass_block true 0 pass_example_batch empty_block_context [] in
  (forall pos m, q_permission pass_queries pos 1 UVM_FAULT_ACCESS_TYPE_WRITE m = NV_ERR_INVALID_ACCESS_TYPE) /\
  block_access_type (kp_ctx k) !! 1 = Some UVM_FAULT_ACCESS_TYPE_WRITE /\ has_fatal k = false /\
  block_access_type (pass_ctx r.2) !! 1 = Some UVM_FAULT_ACCESS_TYPE_READ /\
  is_fatal (cache_at (pass_batch r.2) 1) = true.
Proof. split_and!; [done|by vm_compute..]. Qed.

(** ** What an item changes *)

(** Only the environment moves on. *)
Definition hw_only {D} (g g' : uvm_gpu D) : Prop := g' = g <| hw := hw g' |>.

#[export] Instance hw_only_preorder D : PreOrder (hw_only (D := D)).
Proof.
  split; [intros g; by destruct g|]. intros a b c Hb Hc. unfold hw_only in *. rewrite Hc, Hb. by destruct a.
Qed.

Section ItemFrame.
  Context {D : Type} `{Hal : FaultBufferHal D} `{!FaultBufferHalLive D} `{Ops : GpuOps D}
    `{Va : VaSpaceOps D} `{!VaSpaceOpsLive D} `{Work : WorkerOps D}.

Lemma retry_service_hw fuel blk : forall c, respects (hw_only (D := D)) (retry_service fuel blk c).
Proof.
  assert (forall c, respects (hw_only (D := D))
    (fun g => let '(st, d) := op_block_service g blk c in (st, g <| hw := d |>))) as Hs.
  { intros c g a g'. destruct (op_block_service g blk c). by intros [= <- <-]. }
  induction fuel as [|fuel IH]; intros c; simpl; respects.
Qed.

Lemma service_block_faults_hw blk first n c :
  respects (hw_only (D := D)) (service_block_faults_kthread blk first n c).
Proof.
  assert (respects (hw_only (D := D)) (modify (fun g => g <| hw := op_block_lock g blk |>))).
  { by apply respects_modify. }
  pose proof retry_service_hw. unfold service_block_faults_kthread, service_block_locked, kthread_service. respects.
Qed.

(** The retries end: an item never reports that the block is to be serviced again. *)
Lemma retry_service_ends blk c : forall fuel (g : uvm_gpu D),
  (op_retries (hw g) <= fuel)%nat -> (retry_service fuel blk c g).1 <> NV_ERR_MORE_PROCESSING_REQUIRED.
Proof.
  induction fuel as [|fuel IH]; intros g Hf; simpl; unfold mbind, ST_bind;
    destruct (op_block_service g blk c) as [st d] eqn:E.
  - simpl. intros ->. apply op_retries_service in E. lia.
  - destruct (bool_decide_reflect (st = NV_ERR_MORE_PROCESSING_REQUIRED)) as [->|Hne]; [|done].
    apply IH. simpl. apply op_retries_service in E. lia.
Qed.

End ItemFrame.
