(* ===== verification/Grouping.v ===== *)
(** * Grouping the faults of a batch by VA block

    Phase 1 of [service_fault_batch_parallel]: the coordinator goes over the
    ordered view, holds the VA space of each fault and records a group for every
    run of faults on the same VA block ([uvm_gpu_replayable_faults.c], lines
    3800-3892).  A VA block is identified by its range and VA space. *)

From stdpp Require Import gmap.
From S2P Require Import Prelude FaultTypes Gpu SimDevice Sorting FaultBuffer Frames Predictor Fetch Coalesce Channels Preprocess Stale Service Dispatch Schedule.

Local Open Scope Z_scope.

#[export] Instance uvm_va_block_eq_dec : EqDecision uvm_va_block_t.
Proof. solve_decision. Defined.

(** The local variables of the phase.  The snapshot is the last VA space that has
    a GPU VA space. *)
Record group_locals : Type := mk_group_locals {
  gl_status : NV_STATUS;
  gl_held : option held_space;
  gl_snapshot : option held_space;
  gl_groups : list uvm_block_fault_group_t;
  current_block : option uvm_va_block_t;
  current_block_first_fault : nat;
  current_block_fault_count : Z;
}.

#[export] Instance group_locals_eta : Eta group_locals := fun l =>
  mk_group_locals (gl_status l) (gl_held l) (gl_snapshot l) (gl_groups l) (current_block l)
    (current_block_first_fault l) (current_block_fault_count l).

(** Record the current block, if there is room for another group. *)
Definition close_group (l : group_locals) : group_locals :=
  match current_block l with
  | Some blk =>
      if (0 <? current_block_fault_count l) && (length (gl_groups l) <? UVM_PARALLEL_FAULT_MAX_BLOCKS)%nat
      then l <| gl_groups ::= fun gs =>
                  gs ++ [mk_group blk (current_block_first_fault l) (current_block_fault_count l)] |>
      else l
  | None => l
  end.

(** A fault at position [i] whose VA block was looked up. *)
Definition join_block (i : nat) (blk : uvm_va_block_t) (l : group_locals) : group_locals :=
  if bool_decide (current_block l = Some blk)
  then l <| current_block_fault_count ::= fun n => u32 (n + 1) |>
  else (close_group l) <| current_block := Some blk |> <| current_block_first_fault := i |>
         <| current_block_fault_count := 1 |>.

Definition in_current_block (addr : Z) (l : group_locals) : bool :=
  match current_block l with
  | Some blk => (block_start blk <=? addr) && (addr <=? block_end blk)
  | None => false
  end.

Section Grouping.
  Context {D : Type} `{Hal : FaultBufferHal D} `{!FaultBufferHalLive D} `{Ops : GpuOps D}
    `{Va : VaSpaceOps D} `{!VaSpaceOpsLive D}.

  Abbreviation N := (ST (svc D)).

Definition release_held (held : option held_space) : N unit :=
  match held with Some h => unlock_va_space h | None => mret tt end.

(** [if (current_entry->va_space != va_space)] *)
Definition group_switch (vs : Z) (l : group_locals) : N group_locals :=
  let l := (close_group l) <| current_block := None |> <| current_block_fault_count := 0 |> in
  release_held (gl_held l) ;;
  h ← lock_va_space vs;
  mret (l <| gl_held := Some h |> <| gl_snapshot ::= fun x => if held_gpu_va_space h then Some h else x |>).

(** The VA block of a fault outside the current one. *)
Definition group_find (vs : Z) (i : nat) (addr : Z) (l : group_locals) : N group_locals :=
  va_range ← gets (fun s => op_va_range_first (sv_gpu s) vs addr);
  match va_range with
  | Some r =>
      if (range_start r <=? addr) && (addr <? range_end r) then
        x ← on_gpu (fun g => let '(st, blk, d) := op_block_find_create g vs r addr in ((st, blk), g <| hw := d |>));
        let l := l <| gl_status := x.1 |> in
        mret (if is_ok x.1 then join_block i x.2 l else l)
      else mret l
  | None => mret l
  end.

Definition group_fault (vs : Z) (i : nat) (addr : Z) (l : group_locals) : N group_locals :=
  if in_current_block addr l then mret (l <| current_block_fault_count ::= (fun n : Z => u32 (n + 1)) |>)
  else group_find vs i addr l.

Definition note_fatal_va_space (vs : Z) : N unit :=
  upd_svc_batch (fun b => match fatal_va_space b with None => b <| fatal_va_space := Some vs |> | Some _ => b end).

Definition holds (held : option held_space) (vs : Z) : bool :=
  match held with Some h => held_va_space h =? vs | None => false end.

Definition has_gpu_va_space (held : option held_space) : bool :=
  match held with Some h => held_gpu_va_space h | None => false end.

(** The body of the loop. *)
Definition group_step (i : nat) (l : group_locals) : N group_locals :=
  b ← gets svc_batch;
  let e := cache_at b (ordered_fault_cache b !!! i) in
  let vs := default 0 (va_space e) in
  let switch := negb (holds (gl_held l) vs) in
  l ← (if switch then group_switch vs l else mret l);
  if switch && negb (has_gpu_va_space (gl_held l)) then mret l
  else if is_fatal e then note_fatal_va_space vs ;; mret l
  else if negb (has_gpu_va_space (gl_held l)) then mret l
  else group_fault vs i (fault_address e) l.

(** The loop over positions [i], [i + 1], ...; [n] are left. *)
Fixpoint group_loop (n i : nat) (l : group_locals) : N group_locals :=
  match n with
  | O => mret l
  | S n => l ← group_step i l; group_loop n (S i) l
  end.

Definition group_faults : N group_locals :=
  b ← gets svc_batch;
  l ← group_loop (Z.to_nat (num_coalesced_faults b)) 0 (mk_group_locals NV_OK None None [] None 0 0);
  mret (close_group l).

End Grouping.

(** ** The groups cover the batch *)

Definition group_bounds (grp : uvm_block_fault_group_t) : nat * nat :=
  (first_fault_index grp, Z.to_nat (num_faults grp)).

(** The fault at a position of the view is on the block. *)
Definition on_block (b : uvm_fault_service_batch_context_t) (blk : uvm_va_block_t) (pos : nat) : Prop :=
  let e := cache_at b (ordered_fault_cache b !!! pos) in
  va_space e = Some (block_va_space blk) /\ block_start blk <= fault_address e <= block_end blk.

Definition group_on_block (b : uvm_fault_service_batch_context_t) (grp : uvm_block_fault_group_t) : Prop :=
  forall pos, (first_fault_index grp <= pos < first_fault_index grp + Z.to_nat (num_faults grp))%nat ->
    on_block b (group_block grp) pos.

(** The groups cover the first [i] faults. *)
Definition covers (b : uvm_fault_service_batch_context_t) (i : nat) (gs : list uvm_block_fault_group_t) : Prop :=
  consecutive 0 i (group_bounds <$> gs) /\ Forall (group_on_block b) gs.

Lemma consecutive_snoc segs : forall start stop c, consecutive start stop segs -> (0 < c)%nat ->
  consecutive start (stop + c) (segs ++ [(stop, c)]).
Proof.
  induction segs as [|[s k] segs IH]; intros start stop c; simpl; [by intros -> ?|].
  intros (-> & Hk & H) Hc. split_and!; [done|done|by apply IH].
Qed.

Lemma covers_snoc b i gs blk n :
  covers b i gs -> 0 < n -> (forall pos, (i <= pos < i + Z.to_nat n)%nat -> on_block b blk pos) ->
  covers b (i + Z.to_nat n) (gs ++ [mk_group blk i n]).
Proof.
  intros [H1 H2] Hn Hb. split.
  - rewrite fmap_app. apply consecutive_snoc; [done|lia].
  - apply Forall_app. split; [done|]. constructor; [exact Hb|constructor].
Qed.

(** The table is full; its groups cover some of the first [i] faults. *)
Definition table_full (b : uvm_fault_service_batch_context_t) (i : nat) (gs : list uvm_block_fault_group_t) : Prop :=
  length gs = UVM_PARALLEL_FAULT_MAX_BLOCKS /\ exists stop, (stop <= i)%nat /\ covers b stop gs.

Lemma table_full_S b i gs : table_full b i gs -> table_full b (S i) gs.
Proof. intros (Hl & stop & Hs & Hc). split; [done|]. exists stop. split; [lia|done]. Qed.

(** The state of the phase before position [i]. *)
Record grouped (b : uvm_fault_service_batch_context_t) (i : nat) (l : group_locals) : Prop := {
  gr_held : forall h, gl_held l = Some h -> held_gpu_va_space h = true;
  gr_bound : (length (gl_groups l) <= UVM_PARALLEL_FAULT_MAX_BLOCKS)%nat;
  gr_covers : table_full b i (gl_groups l) \/
    match current_block l with
    | None => covers b i (gl_groups l)
    | Some blk =>
        covers b (current_block_first_fault l) (gl_groups l) /\ 0 < current_block_fault_count l /\
        (current_block_first_fault l + Z.to_nat (current_block_fault_count l))%nat = i /\
        (forall pos, (current_block_first_fault l <= pos < i)%nat -> on_block b blk pos)
    end;
  gr_space : forall blk, current_block l = Some blk -> holds (gl_held l) (block_va_space blk) = true;
}.

Lemma close_group_covers b i l : grouped b i l ->
  (length (gl_groups (close_group l)) <= UVM_PARALLEL_FAULT_MAX_BLOCKS)%nat /\
  (table_full b i (gl_groups (close_group l)) \/ covers b i (gl_groups (close_group l))).
Proof.
  intros [_ Hb Hc _]. unfold close_group. destruct (current_block l) as [blk|]; [|done].
  destruct (Nat.ltb_spec (length (gl_groups l)) UVM_PARALLEL_FAULT_MAX_BLOCKS) as [Hl|Hl].
  - rewrite andb_true_r. destruct Hc as [[Hf _]|(Hc & Hn & <- & Hp)]; [lia|].
    rewrite (proj2 (Z.ltb_lt _ _) Hn). simpl. rewrite length_app. simpl. split; [lia|]. right. by apply covers_snoc.
  - rewrite andb_false_r. split; [done|]. left. destruct Hc as [Hf|(Hc & Hn & Hi & _)]; [done|].
    split; [lia|]. exists (current_block_first_fault l). split; [lia|done].
Qed.

Lemma close_group_held l : gl_held (close_group l) = gl_held l.
Proof. unfold close_group. by repeat case_match. Qed.

(** Another fault of the current block. *)
Lemma grouped_count b i l blk :
  grouped b i l -> Z.of_nat i < 2 ^ 32 - 1 -> current_block l = Some blk -> on_block b blk i ->
  grouped b (S i) (l <| current_block_fault_count ::= fun n => u32 (n + 1) |>).
Proof.
  intros [Hh Hb Hc Hs] Hi Eb Ho. split; simpl; [done|done| |done].
  destruct Hc as [Hf|Hc]; [left; by apply table_full_S|right]. clear Hb.
  rewrite Eb in *. destruct Hc as (Hc & Hn & Hx & Hb). rewrite u32_small by lia. split_and!; [done|lia|lia|].
  intros pos Hp. destruct (decide (pos = i)) as [->|]; [done|]. apply Hb. lia.
Qed.

(** The first fault of a block. *)
Lemma grouped_join b i l blk :
  grouped b i l -> current_block l <> Some blk -> on_block b blk i ->
  holds (gl_held l) (block_va_space blk) = true -> grouped b (S i) (join_block i blk l).
Proof.
  intros Hg Hne Ho Hh. unfold join_block. rewrite bool_decide_false by done.
  pose proof (close_group_covers _ _ _ Hg) as [Hl Hc]. split; simpl; rewrite ?close_group_held; [apply Hg|done| |by intros ? [= <-]].
  destruct Hc as [Hc|Hc]; [left; by apply table_full_S|right]. split_and!; [done|lia|lia|].
  intros pos Hp. by replace pos with i by lia.
Qed.

(** A fault of a managed block. *)
Definition managed {D} `{!VaSpaceOps D} (e : uvm_fault_buffer_entry_t) : Prop :=
  is_fatal e = false /\ exists vs, va_space e = Some vs /\ forall g : uvm_gpu D, op_gpu_va_space g vs = true /\
    exists r, op_va_range_first g vs (fault_address e) = Some r /\
      range_start r <= fault_address e < range_end r /\
      (op_block_find_create g vs r (fault_address e)).1.1 = NV_OK.

Section Cover.
  Context {D : Type} `{Hal : FaultBufferHal D} `{!FaultBufferHalLive D} `{Ops : GpuOps D}
    `{Va : VaSpaceOps D} `{!VaSpaceOpsLive D} `{Laws : !VaSpaceOpsLaws D}.

Lemma holds_eq h vs : holds (Some h) vs = true <-> held_va_space h = vs.
Proof. apply Z.eqb_eq. Qed.

(** Holding the VA space of a fault. *)
Lemma group_switch_spec b i l vs (s : svc D) l' s' :
  grouped b i l -> svc_batch s = b -> (forall g : uvm_gpu D, op_gpu_va_space g vs = true) ->
  (if negb (holds (gl_held l) vs) then group_switch vs l else mret l) s = (l', s') ->
  grouped b i l' /\ svc_batch s' = b /\ holds (gl_held l') vs = true /\ has_gpu_va_space (gl_held l') = true.
Proof.
  intros Hg Hb Hv. destruct (holds (gl_held l) vs) eqn:Hh; simpl.
  - intros [= <- <-]. split_and!; try done. unfold has_gpu_va_space, holds in *.
    destruct (gl_held l) as [h|] eqn:E; [|done]. by apply Hg.
  - intros E. assert (exists h, gl_held l' = Some h /\ held_va_space h = vs /\ held_gpu_va_space h = true /\
      svc_batch s' = svc_batch s /\ current_block l' = None /\ gl_groups l' = gl_groups (close_group l)) as
      (h & H0 & H1 & H2 & H3 & H4 & H5).
    { revert E. unfold group_switch. cbv zeta.
      set (l1 := (close_group l) <| current_block := None |> <| current_block_fault_count := 0 |>).
      unfold release_held, lock_va_space, unlock_va_space, on_gpu, emit. st_unfold.
      destruct (gl_held l1) as [h0|]; intros [= <- <-]; eexists; split_and!; try done; apply Hv. }
    rewrite H0. split_and!; [|congruence|by apply holds_eq|done]. split; rewrite ?H0, ?H4.
    + by intros h' [= <-].
    + rewrite H5. by apply close_group_covers with b i.
    + rewrite H5. by apply close_group_covers.
    + done.
Qed.

(** The fault is counted in a group. *)
Lemma group_fault_spec b i l vs (s : svc D) l' s' :
  let e := cache_at b (ordered_fault_cache b !!! i) in
  grouped b i l -> Z.of_nat i < 2 ^ 32 - 1 -> svc_batch s = b -> va_space e = Some vs ->
  holds (gl_held l) vs = true ->
  (exists r, op_va_range_first (sv_gpu s) vs (fault_address e) = Some r /\
      range_start r <= fault_address e < range_end r /\
      (op_block_find_create (sv_gpu s) vs r (fault_address e)).1.1 = NV_OK) ->
  group_fault vs i (fault_address e) l s = (l', s') -> grouped b (S i) l' /\ svc_batch s' = b.
Proof.
  intros e Hg Hi Hb Hvs Hh (r & Hr & Hin & Hok). unfold group_fault.
  destruct (in_current_block (fault_address e) l) eqn:Hc.
  - intros [= <- <-]. split; [|done]. unfold in_current_block in Hc.
    destruct (current_block l) as [blk|] eqn:Eb; [|done]. eapply grouped_count; [done|done|exact Eb|].
    unfold on_block. fold e. split; [|lia]. rewrite Hvs. f_equal. pose proof (gr_space _ _ _ Hg blk Eb) as Hs.
    destruct (gl_held l) as [h|]; [|done]. apply holds_eq in Hs as <-, Hh as <-. done.
  - unfold group_find. st_unfold. rewrite Hr.
    rewrite (proj2 (Z.leb_le _ _)), (proj2 (Z.ltb_lt _ _)) by lia. simpl andb. unfold on_gpu.
    destruct (op_block_find_create _ _ _ _) as [[st blk] d] eqn:Ef. simpl in Hok. subst st.
    simpl. rewrite Ef. simpl. intros [= <- <-]. split; [|done]. apply op_block_find_spec in Ef as (Ev & _ & Ea).
    assert (current_block l <> Some blk) as Hne.
    { intros Eb. unfold in_current_block in Hc. rewrite Eb in Hc. lia. }
    apply grouped_join; [|done|split; [by rewrite Ev|done]|by rewrite Ev]. by destruct Hg.
Qed.

Lemma group_step_spec b i l (s : svc D) l' s' :
  grouped b i l -> Z.of_nat i < 2 ^ 32 - 1 -> svc_batch s = b ->
  managed (D := D) (cache_at b (ordered_fault_cache b !!! i)) ->
  group_step i l s = (l', s') -> grouped b (S i) l' /\ svc_batch s' = b.
Proof.
  intros Hg Hi Hb (Hf & vs & Hvs & Hm). unfold group_step.
  unfold mbind, ST_bind, gets. cbv beta iota zeta. rewrite Hb, Hvs, Hf. unfold default, id. destruct ((if negb (holds (gl_held l) vs) then group_switch vs l else mret l) s)
    as [l1 s1] eqn:E.
  destruct (group_switch_spec b i l vs s l1 s1 Hg Hb ltac:(intros g; apply Hm) E) as (Hg1 & Hb1 & Hh1 & Hv1).
  rewrite Hv1, andb_false_r. simpl. intros E2.
  exact (group_fault_spec b i l1 vs s1 l' s' Hg1 Hi Hb1 Hvs Hh1 (proj2 (Hm (sv_gpu s1))) E2).
Qed.

Lemma group_loop_spec b n : forall i l (s : svc D) l' s',
  grouped b i l -> Z.of_nat (i + n) < 2 ^ 32 -> svc_batch s = b ->
  (forall pos, (i <= pos < i + n)%nat -> managed (D := D) (cache_at b (ordered_fault_cache b !!! pos))) ->
  group_loop n i l s = (l', s') -> grouped b (i + n) l' /\ svc_batch s' = b.
Proof.
  induction n as [|n IH]; intros i l s l' s' Hg Hi Hb Hm; simpl.
  { intros [= <- <-]. by rewrite Nat.add_0_r. }
  unfold mbind, ST_bind. destruct (group_step i l s) as [l1 s1] eqn:E.
  destruct (group_step_spec b i l s l1 s1) as [Hg1 Hb1]; try done; [lia|apply Hm; lia|].
  intros E2. destruct (IH (S i) l1 s1 l' s') as [IH1 IH2]; try done; [lia|intros; apply Hm; lia|].
  by rewrite Nat.add_succ_r.
Qed.


End Cover.

(** *** Two blocks in one VA space and one in another *)

Definition grouped_batch : uvm_fault_service_batch_context_t :=
  (example_batch
    [example_entry 1 0 UVM_FAULT_ACCESS_TYPE_READ; example_entry 1 4096 UVM_FAULT_ACCESS_TYPE_WRITE;
     example_entry 1 (2 ^ 21) UVM_FAULT_ACCESS_TYPE_READ; example_entry 2 (2 ^ 21) UVM_FAULT_ACCESS_TYPE_READ])
  <| utlbs := [zero_utlb] |>.

Definition grouped_state : svc sim_device := sim_svc UVM_PERF_FAULT_REPLAY_POLICY_BATCH_FLUSH 0 0 grouped_batch.

Definition grouped_after : group_locals * svc sim_device := Eval vm_compute in group_faults grouped_state.

Lemma grouped_after_eq : group_faults grouped_state = (grouped_after.1, grouped_after.2).
Proof. vm_compute. reflexivity. Qed.


(** A fatal fault is not counted although it is in the range of the group, so a
    fault after it on the same VA block is in no group; it is left to the cancel
    path, which services the VA space again. *)
Example fault_after_fatal_ungrouped :
  let e addr := example_entry 1 addr UVM_FAULT_ACCESS_TYPE_READ in
  let b := (example_batch [e 0; (e 4096) <| is_fatal := true |>; e 8192]) <| utlbs := [zero_utlb] |> in
  let '(l, s) := group_faults (sim_svc UVM_PERF_FAULT_REPLAY_POLICY_BATCH_FLUSH 0 0 b) in
  group_bounds <$> gl_groups l = [(0, 2)]%nat /\ ordered_fault_cache b = [0; 1; 2]%nat /\
  is_fatal (cache_at b 2) = false /\ fatal_va_space (svc_batch s) = Some 1.
Proof. by vm_compute. Qed.

(** ** Faults outside managed memory *)

Section Unmanaged.
  Context {D : Type} `{Hal : FaultBufferHal D} `{!FaultBufferHalLive D} `{Ops : GpuOps D}
    `{Va : VaSpaceOps D} `{!VaSpaceOpsLive D}.

Definition unmanaged (e : uvm_fault_buffer_entry_t) : Prop :=
  is_fatal e = false /\ forall g : uvm_gpu D, op_va_range_first g (default 0 (va_space e)) (fault_address e) = None.

(** Nothing is grouped. *)
Definition ungrouped (l : group_locals) : Prop :=
  gl_status l = NV_OK /\ gl_groups l = [] /\ current_block l = None.

Lemma group_step_unmanaged b i l (s : svc D) l' s' :
  ungrouped l -> svc_batch s = b -> unmanaged (cache_at b (ordered_fault_cache b !!! i)) ->
  group_step i l s = (l', s') -> ungrouped l' /\ svc_batch s' = b.
Proof.
  intros (H1 & H2 & H3) Hb [Hf Hr]. unfold group_step. st_unfold. rewrite Hb, Hf.
  set (vs := default 0 _) in *.
  assert (forall l1 s1, (if negb (holds (gl_held l) vs) then group_switch vs l else mret l) s = (l1, s1) ->
    ungrouped l1 /\ svc_batch s1 = b) as Hsw.
  { intros l1 s1. destruct (holds _ _); simpl; [intros [= <- <-]; by split|].
    unfold group_switch, close_group. rewrite H3. simpl. unfold release_held, lock_va_space, unlock_va_space, on_gpu, emit.
    st_unfold. destruct (gl_held l); simpl; intros [= <- <-]; by split. }
  destruct ((if negb (holds (gl_held l) vs) then group_switch vs l else _) s) as [l1 s1] eqn:E.
  destruct (Hsw l1 s1 eq_refl) as [(G1 & G2 & G3) Hb1].
  assert (group_fault vs i (fault_address (cache_at b (ordered_fault_cache b !!! i))) l1 s1 = (l1, s1)) as Eg.
  { unfold group_fault, in_current_block. rewrite G3. unfold group_find. st_unfold. by rewrite Hr. }
  repeat case_match; rewrite ?Eg; intros [= <- <-]; by split.
Qed.

Lemma group_loop_unmanaged b n : forall i l (s : svc D) l' s',
  ungrouped l -> svc_batch s = b ->
  (forall pos, (i <= pos < i + n)%nat -> unmanaged (cache_at b (ordered_fault_cache b !!! pos))) ->
  group_loop n i l s = (l', s') -> ungrouped l' /\ svc_batch s' = b.
Proof.
  induction n as [|n IH]; intros i l s l' s' Hl Hb Hm; simpl; [by intros [= <- <-]|].
  unfold mbind, ST_bind. destruct (group_step i l s) as [l1 s1] eqn:E.
  destruct (group_step_unmanaged b i l s l1 s1) as [Hl1 Hb1]; [done|done|apply Hm; lia|exact E|].
  apply IH; [done|done|]. intros; apply Hm; lia.
Qed.

(** The parallel path neither services nor cancels a fault outside managed
    memory: on a batch of faults without a VA range the grouping succeeds, has no
    group and leaves the batch as it is, so no fault is marked fatal, where the
    serial path services such faults through ATS or marks them fatal. *)
Theorem grouping_skips_unmanaged (s : svc D) l s' :
  let b := svc_batch s in
  (forall pos, (pos < Z.to_nat (num_coalesced_faults b))%nat ->
    unmanaged (cache_at b (ordered_fault_cache b !!! pos))) ->
  group_faults s = (l, s') -> gl_status l = NV_OK /\ gl_groups l = [] /\ svc_batch s' = b.
Proof.
  intros b Hm. unfold group_faults, mbind, ST_bind, gets. fold b.
  destruct (group_loop _ 0 _ s) as [l1 s1] eqn:E. intros [= <- <-].
  eapply group_loop_unmanaged in E as [(H1 & H2 & H3) Hb]; [|done|done|intros; apply Hm; lia].
  unfold close_group. by rewrite H3.
Qed.

End Unmanaged.

Definition ats_group_state : svc sim_device := ats_state UVM_PERF_FAULT_REPLAY_POLICY_BATCH_FLUSH.

Definition ats_group_after : group_locals * svc sim_device := Eval vm_compute in group_faults ats_group_state.

Lemma ats_group_after_eq : group_faults ats_group_state = (ats_group_after.1, ats_group_after.2).
Proof. vm_compute. reflexivity. Qed.

Lemma grouping_skips_unmanaged_witness :
  num_coalesced_faults (svc_batch ats_group_state) = 3 /\ gl_groups ats_group_after.1 = [].
Proof.
  split; [reflexivity|].
  refine (proj1 (proj2 (grouping_skips_unmanaged ats_group_state ats_group_after.1 ats_group_after.2 _ ats_group_after_eq))).
  intros pos Hpos. assert (pos = 0 \/ pos = 1 \/ pos = 2)%nat as Hp by (revert Hpos; vm_compute; lia).
  destruct Hp as [->|[->| ->]]; split; reflexivity.
Defined.
