(* ===== verification/Parallel.v ===== *)
(** * The parallel path

    The dispatch of the groups of a batch to the workers of the pool and
    [service_fault_batch_parallel] ([uvm_gpu_replayable_faults_parallel.c], lines
    880-1455 and 1683-2968; [uvm_gpu_replayable_faults.c], lines 3765-4000).

    Workers service blocks under the lock of the block; the model runs the items
    in the order in which the workers finish them.  Where the threads of the pool
    are when a dispatch starts, in which order they move and how far they are when
    the coordinator stops waiting is the choice of the scheduler.  The shared pushes of the merge modes are part of the
    environment that services a block. *)

From stdpp Require Import gmap.
From S2P Require Import Prelude FaultTypes Gpu SimDevice Sorting FaultBuffer Frames Predictor Fetch Coalesce Channels Preprocess PathFrames Stale Service Dispatch Cancel Isolation ServiceLoop Schedule WorkerPool Kthread Grouping.

Local Open Scope Z_scope.

(** ** Parameters and environment *)

Record pool_params : Type := mk_pool_params {
  uvm_merge_dispatch : bool;
  uvm_dynamic_dispatch : bool;
  uvm_merge_group_seg_parallel : bool;
  uvm_merge_segment_parallel : bool;
  uvm_merge_segmented_dispatch : bool;
  num_workers : Z;
  pool_merge : merge_params;
}.

(** What the pool asks of the rest of the driver and of the kernel. *)
Class PoolOps (D : Type) : Type := {
  (* parallel_fault_ctx was allocated *)
  op_parallel_ctx : uvm_gpu D -> bool;
  (* uvm_push_begin for the pushes of the segments *)
  op_pushes_open : uvm_gpu D -> bool;
  (* where the threads of the pool are when a dispatch starts *)
  op_threads : uvm_gpu D -> list worker_t;
  (* the steps of the threads until the wait for all_done ends *)
  op_schedule : uvm_gpu D -> list nat;
  (* what earlier batches left in the service context of a worker *)
  op_worker_context : uvm_gpu D -> nat -> uvm_service_block_context_t;
  (* uvm_tracker_add_tracker_safe on the tracker of an item *)
  op_item_tracker_add : uvm_gpu D -> NV_STATUS;
}.

(** No thread has a claim of an earlier dispatch when a dispatch starts, and fewer
    than 2^32 ids are claimed in it. *)
Definition pool_settled {D} {K : PoolOps D} : Prop := forall g : uvm_gpu D,
  Forall (fun w => settled w = true) (op_threads g) /\
  forall dynamic n items,
    Z.of_nat (claims (run_pool (op_schedule g) (start_pool dynamic n items (op_threads g)))) < 2 ^ 32.

(** ** The sub-dispatches of a batch *)

(** How the blocks from [sd_base] on are dispatched. *)
Record sub_dispatch : Type := mk_sub {
  sd_mode : dispatch_mode;
  sd_base : nat;
  sd_count : nat;
}.

Definition dispatch_plan (W : pool_params) (pushes_open : bool) (groups : list uvm_block_fault_group_t)
  : list sub_dispatch :=
  let n := length groups in
  let X := pool_merge W in
  let one mode := [mk_sub (if pushes_open then mode else Strided) 0 n] in
  if negb (uvm_merge_dispatch W) then one Strided
  else if uvm_dynamic_dispatch W then one DynamicCursor
  else if uvm_merge_group_seg_parallel W then one GroupSegParallel
  else if uvm_merge_segment_parallel W then one SegmentParallel
  else if negb (uvm_merge_segmented_dispatch W) then one Strided
  else
    let total := total_faults groups in
    (fun s => mk_sub Strided s.1 s.2) <$>
      merge_segments (merge_effective_segment_threshold X total (Z.of_nat n)) total groups 0 0 0 0.

(** ** Workers *)

Record worker_state : Type := mk_worker {
  wk_ctx : uvm_service_block_context_t;
  held_va_space_of : option Z;
}.

#[export] Instance worker_state_eta : Eta worker_state := fun w => mk_worker (wk_ctx w) (held_va_space_of w).

Section Parallel.
  Context {D : Type} `{Hal : FaultBufferHal D} `{!FaultBufferHalLive D} `{Ops : GpuOps D}
    `{Va : VaSpaceOps D} `{!VaSpaceOpsLive D} `{Work : WorkerOps D} `{Pool : PoolOps D}.
  Variable Q : service_params.
  Variable W : pool_params.
  Variable caps : gpu_caps.

  Abbreviation M := (ST (uvm_gpu D)).
  Abbreviation N := (ST (svc D)).

Definition drop_held (held : option Z) : M unit :=
  match held with Some v => emit (EvVaSpaceUnlock v) | None => mret tt end.

Definition take_held (held : option Z) : M unit :=
  match held with Some v => emit (EvVaSpaceLock v) | None => mret tt end.

(** The body of the loop of a worker: hold the VA space of the block, unless it is
    gone, and service the block. *)
Definition service_item (grp : uvm_block_fault_group_t) (w : worker_state) : M (NV_STATUS * worker_state) :=
  let blk := group_block grp in
  item_vs ← gets (fun g => op_block_va_space g blk);
  when (negb (bool_decide (item_vs = held_va_space_of w)))
    (drop_held (held_va_space_of w) ;; take_held item_vs) ;;
  let w := w <| held_va_space_of := item_vs |> in
  match item_vs with
  | None => mret (NV_WARN_MORE_PROCESSING_REQUIRED, w)
  | Some _ =>
      r ← service_block_faults_kthread blk (first_fault_index grp) (Z.to_nat (num_faults grp)) (wk_ctx w);
      mret (item_status r.1, w <| wk_ctx := r.2 |>)
  end.

(** The events of a log, oldest first: a thread services an item, or drops the VA
    space it holds as it leaves the batch.  Returns the status of each item. *)
Fixpoint service_log (groups : list uvm_block_fault_group_t) (base : nat) (log : list (nat * worker_event))
    (ws : list worker_state) : M (list (nat * NV_STATUS) * list worker_state) :=
  match log with
  | [] => mret ([], ws)
  | (w, Claims) :: log => service_log groups base log ws
  | (w, Services item) :: log =>
      match ws !! w, groups !! (base + item)%nat with
      | Some x, Some grp =>
          r ← service_item grp x;
          rest ← service_log groups base log (<[w := r.2]> ws);
          mret (((base + item)%nat, r.1) :: rest.1, rest.2)
      | _, _ => service_log groups base log ws
      end
  | (w, Leaves) :: log =>
      match ws !! w with
      | Some x =>
          drop_held (held_va_space_of x) ;;
          service_log groups base log (<[w := x <| held_va_space_of := None |>]> ws)
      | None => service_log groups base log ws
      end
  end.

(** The threads that have gone through their items leave the batch. *)
Fixpoint leave_batch (p : pool_t) (states : list worker_t) (ws : list worker_state) : M unit :=
  match states, ws with
  | x :: states, w :: ws =>
      when (leaving p x) (drop_held (held_va_space_of w)) ;; leave_batch p states ws
  | _, _ => mret tt
  end.

(** What a dispatch reports: the status, whether the workers finished in time, and
    the status of every block serviced. *)
Record dispatch_result : Type := mk_result {
  dr_status : NV_STATUS;
  dr_completed : bool;
  dr_items : list (nat * NV_STATUS);
}.

Definition status_of (items : list (nat * NV_STATUS)) (i : nat) : NV_STATUS :=
  from_option (fun x => x.2.2) NV_OK (list_find (fun x => x.1 = i) items).

(** The statuses of the items and trackers in queue order: the first failure. *)
Fixpoint collect_statuses (n i : nat) (items : list (nat * NV_STATUS)) (status : NV_STATUS) : M NV_STATUS :=
  match n with
  | O => mret status
  | S n =>
      let status := if is_ok status then status_of items i else status in
      ts ← gets op_item_tracker_add;
      collect_statuses n (S i) items (if is_ok status then ts else status)
  end.

(** [dispatch_start_inner], the workers and [dispatch_wait_inner]. *)
Definition dispatch_and_wait_inner (groups : list uvm_block_fault_group_t) (d : sub_dispatch) : M dispatch_result :=
  let sub := take (sd_count d) (drop (sd_base d) groups) in
  p ← gets (fun g => run_pool (op_schedule g)
                       (start_dispatch (pool_merge W) (sd_mode d) (num_workers W) sub (op_threads g)));
  ws ← gets (fun g => imap (fun k _ => mk_worker (op_worker_context g k) None) (op_threads g));
  r ← service_log groups (sd_base d) (rev (pool_log p)) ws;
  leave_batch p (pool_workers p) r.2 ;;
  if negb (all_done p) then mret (mk_result NV_ERR_TIMEOUT false r.1)
  else
    st ← collect_statuses (sd_count d) (sd_base d) r.1 NV_OK;
    mret (mk_result st true r.1).

(** The sub-dispatches one after the other, up to the first failure. *)
Fixpoint run_plan (groups : list uvm_block_fault_group_t) (plan : list sub_dispatch) : M dispatch_result :=
  match plan with
  | [] => mret (mk_result NV_OK true [])
  | d :: plan =>
      r ← dispatch_and_wait_inner groups d;
      if is_ok (dr_status r) then
        rest ← run_plan groups plan;
        mret (mk_result (dr_status rest) (dr_completed r && dr_completed rest) (dr_items r ++ dr_items rest))
      else mret r
  end.

Definition uvm_kthread_dispatch_and_wait (groups : list uvm_block_fault_group_t) : M dispatch_result :=
  if bool_decide (groups = []) then mret (mk_result NV_OK true [])
  else
    pushes ← gets op_pushes_open;
    run_plan groups (dispatch_plan W pushes groups).

(** Few blocks are serviced on the coordinator, with the context of worker 0. *)
Fixpoint service_inline (groups : list uvm_block_fault_group_t) (c : uvm_service_block_context_t)
    (status : NV_STATUS) : M NV_STATUS :=
  match groups with
  | [] => mret status
  | grp :: groups =>
      r ← service_block_faults_kthread (group_block grp) (first_fault_index grp) (Z.to_nat (num_faults grp)) c;
      let status := if is_ok status then item_status r.1 else status in
      ts ← gets op_item_tracker_add;
      service_inline groups r.2 (if is_ok status then ts else status)
  end.

Definition uses_inline (num_groups : Z) : bool :=
  (0 <? uvm_parallel_block_threshold Q) && (0 <? num_groups) && (num_groups <=? uvm_parallel_block_threshold Q).

(** Phase 2.  The coordinator drops its locks before it wakes the workers. *)
Definition service_groups (l : group_locals) : N dispatch_result :=
  let groups := gl_groups l in
  if uses_inline (Z.of_nat (length groups)) then
    c ← gets (fun s => op_worker_context (sv_gpu s) 0);
    st ← on_gpu (service_inline groups c (gl_status l));
    release_held (gl_held l) ;;
    mret (mk_result st true [])
  else
    release_held (gl_held l) ;;
    on_gpu (uvm_kthread_dispatch_and_wait groups).

(** Phase 3. *)
Definition parallel_replay (num_groups : nat) (status : NV_STATUS) : N NV_STATUS :=
  policy ← gets (fun s => replay_policy (replayable (sv_gpu s)));
  if is_ok status && (0 <? num_groups)%nat
  then replay_block caps (bool_decide (policy = UVM_PERF_FAULT_REPLAY_POLICY_BLOCK))
  else mret status.

Definition parallel_batch : N dispatch_result :=
  l ← group_faults;
  r ← service_groups l;
  st ← parallel_replay (length (gl_groups l)) (dr_status r);
  mret (mk_result st (dr_completed r) (dr_items r)).

(** In regular mode; with the pool in use. *)
Definition parallel_fault_batch : N NV_STATUS :=
  ctx ← gets (fun s => op_parallel_ctx (sv_gpu s));
  if negb ctx then mret NV_ERR_INVALID_STATE else r ← parallel_batch; mret (dr_status r).

End Parallel.

(** ** What the workers change

    Workers take and release VA spaces and move the environment on; they leave the
    batch and the settings alone. *)

Record worker_frame {D} (g g' : uvm_gpu D) : Prop := {
  wf_trace : adds (fun e => is_lock_event e = true) g g';
  wf_batch : batch g' = batch g;
  wf_settings : settings g' = settings g;
}.

#[export] Instance worker_frame_preorder D : PreOrder (worker_frame (D := D)).
Proof.
  split; [by split|]. intros a b c [] []. split; [by etrans|congruence|congruence].
Qed.

Lemma hw_only_worker {D} (g g' : uvm_gpu D) : hw_only g g' -> worker_frame g g'.
Proof. intros ->. split; [by exists []|done|done]. Qed.

(** The parallel path adds locks and replays to the trace, counts a replay only if
    one was pushed, and marks and counts no fault. *)
Definition marks (b : uvm_fault_service_batch_context_t) :
    list uvm_fault_buffer_entry_t * list nat * Z * Z * Z * bool :=
  (fault_cache b, ordered_fault_cache b, num_coalesced_faults b, num_duplicate_faults b,
   num_invalid_prefetch_faults b, has_throttled_faults b).

Record quiet {D} (g g' : uvm_gpu D) : Prop := {
  qu_trace : exists l, trace g' = l ++ trace g /\
    Forall (fun e => is_lock_event e || is_replay e = true) l /\
    (num_replays (batch g') <> num_replays (batch g) -> Exists (fun e => is_replay e = true) l);
  qu_settings : settings g' = settings g;
  qu_marks : marks (batch g') = marks (batch g);
}.

#[export] Instance quiet_preorder D : PreOrder (quiet (D := D)).
Proof.
  split; [intros g; split; [by exists []|done|done]|].
  intros a b c [(l & E1 & F1 & R1) S1 M1] [(m & E2 & F2 & R2) S2 M2]. split; [|congruence|congruence].
  exists (m ++ l). split; [by rewrite E2, E1, app_assoc|]. split; [by apply Forall_app|].
  intros Hne. apply Exists_app.
  destruct (decide (num_replays (batch b) = num_replays (batch a))) as [E|]; [|by right; apply R1].
  left. apply R2. congruence.
Qed.

Definition svc_quiet {D} (s s' : svc D) : Prop := quiet (sv_gpu s) (sv_gpu s').

#[export] Instance svc_quiet_preorder D : PreOrder (svc_quiet (D := D)).
Proof. split; [intros s|intros a b c]; unfold svc_quiet; [reflexivity|apply transitivity]. Qed.

Lemma worker_quiet {D} (g g' : uvm_gpu D) : worker_frame g g' -> quiet g g'.
Proof.
  intros [(l & E & Hl) Hb Hs]. split; [|done|by rewrite Hb]. exists l. split; [done|].
  split; [|by rewrite Hb]. eapply Forall_impl; [exact Hl|]. by intros e ->.
Qed.

Lemma quiet_counted {D} (g g' : uvm_gpu D) : quiet g g' -> gpu_counted g g'.
Proof.
  intros [(l & E & Hl & Hr) Hs _]. split; [split|].
  - exists l. split; [done|]. eapply Forall_impl; [exact Hl|]. by intros [].
  - by apply (f_equal snd) in Hs.
  - by exists l.
Qed.

Section ParallelFrames.
  Context {D : Type} `{Hal : FaultBufferHal D} `{!FaultBufferHalLive D} `{Ops : GpuOps D}
    `{Va : VaSpaceOps D} `{!VaSpaceOpsLive D} `{Laws : !VaSpaceOpsLaws D} `{Work : WorkerOps D} `{Pool : PoolOps D}.
  Variable Q : service_params.
  Variable W : pool_params.
  Variable caps : gpu_caps.

  Abbreviation F := (respects (worker_frame (D := D))).

Lemma emit_worker e : is_lock_event e = true -> F (emit e).
Proof. intros He g a g' E. split; [exact (emit_adds _ e He _ _ _ E)|by injection E as <- <-..]. Qed.

Lemma service_block_worker blk first n c : F (service_block_faults_kthread blk first n c).
Proof. intros g a g' E%service_block_faults_hw. by apply hw_only_worker. Qed.

#[local] Hint Resolve emit_worker service_block_worker : respects.

Lemma drop_held_worker held : F (drop_held held).
Proof. unfold drop_held. respects. Qed.

Lemma take_held_worker held : F (take_held held).
Proof. unfold take_held. respects. Qed.

#[local] Hint Resolve drop_held_worker take_held_worker : respects.

Lemma service_item_worker grp w : F (service_item grp w).
Proof.
  unfold service_item. apply respects_bind; [apply _|respects|]. intros vs.
  apply respects_bind; [apply _|respects|]. intros _. destruct vs; respects.
Qed.

#[local] Hint Resolve service_item_worker : respects.

Lemma service_log_worker groups base log : forall ws, F (service_log groups base log ws).
Proof. induction log as [|[w item] log IH]; intros ws; simpl; respects. Qed.

Lemma leave_batch_worker p states : forall ws, F (leave_batch p states ws).
Proof. induction states as [|x states IH]; intros [|w ws]; simpl; respects. Qed.

Lemma collect_worker n : forall i items st, F (collect_statuses n i items st).
Proof. induction n as [|n IH]; intros; simpl; respects. Qed.

#[local] Hint Resolve service_log_worker leave_batch_worker collect_worker : respects.

Lemma dispatch_inner_worker groups d : F (dispatch_and_wait_inner W groups d).
Proof. unfold dispatch_and_wait_inner. respects. Qed.

#[local] Hint Resolve dispatch_inner_worker : respects.

Lemma run_plan_worker groups plan : F (run_plan W groups plan).
Proof. induction plan as [|d plan IH]; simpl; respects. Qed.

#[local] Hint Resolve run_plan_worker : respects.

Lemma dispatch_worker groups : F (uvm_kthread_dispatch_and_wait W groups).
Proof. unfold uvm_kthread_dispatch_and_wait. respects. Qed.

Lemma inline_worker groups : forall c st, F (service_inline groups c st).
Proof. induction groups as [|grp groups IH]; intros c st; simpl; respects. Qed.

(** *** The coordinator *)

  Abbreviation C := (respects (svc_quiet (D := D))).

Lemma on_gpu_quiet {A} (m : ST (uvm_gpu D) A) : respects quiet m -> C (on_gpu m).
Proof. apply on_gpu_lift. Qed.

Lemma on_gpu_worker_quiet {A} (m : ST (uvm_gpu D) A) : F m -> C (on_gpu m).
Proof. intros Hm. apply on_gpu_quiet. intros g a g' E%Hm. by apply worker_quiet. Qed.

Lemma emit_lock_quiet e : is_lock_event e = true -> C (on_gpu (emit e)).
Proof. intros He. by apply on_gpu_worker_quiet, emit_worker. Qed.

Lemma upd_batch_quiet f : (forall b, marks (f b) = marks b /\ num_replays (f b) = num_replays b) ->
  respects quiet (upd_batch (D := D) f).
Proof.
  intros Hf g a g' [= <- <-]. split; [|done|apply Hf]. exists []. split; [done|]. split; [constructor|].
  intros Hn. by destruct Hn; apply Hf.
Qed.

Lemma release_held_quiet held : C (release_held held).
Proof. destruct held as [h|]; unfold release_held, unlock_va_space; [by apply emit_lock_quiet|respects]. Qed.

#[local] Hint Resolve emit_lock_quiet release_held_quiet : respects.

Lemma group_fault_quiet vs i addr l : C (group_fault vs i addr l).
Proof.
  assert (forall r, C (on_gpu (fun g =>
    let '(st, blk, d) := op_block_find_create g vs r addr in ((st, blk), g <| hw := d |>)))).
  { intros r. apply on_gpu_worker_quiet. intros g a g'. destruct (op_block_find_create _ _ _ _) as [[st blk] d].
    intros [= <- <-]. by apply hw_only_worker. }
  unfold group_fault, group_find. apply respects_if; [respects|].
  apply respects_bind; [apply _|respects|]. intros [r|]; respects.
Qed.

Lemma note_fatal_quiet vs : C (note_fatal_va_space vs).
Proof. apply on_gpu_quiet, upd_batch_quiet. intros b. by destruct (fatal_va_space b). Qed.

#[local] Hint Resolve group_fault_quiet note_fatal_quiet : respects.

Lemma group_faults_quiet : C group_faults.
Proof.
  assert (forall vs l, C (group_switch vs l)) by (intros vs l; unfold group_switch, lock_va_space; respects).
  assert (forall i l, C (group_step i l)) by (intros i l; unfold group_step; respects).
  assert (forall n i l, C (group_loop n i l)) by (intros n; induction n as [|n IH]; intros i l; simpl; respects).
  unfold group_faults. respects.
Qed.

Lemma service_groups_quiet l : C (service_groups Q W l).
Proof.
  assert (forall groups c st, C (on_gpu (service_inline groups c st))).
  { intros. apply on_gpu_worker_quiet, inline_worker. }
  assert (forall groups, C (on_gpu (uvm_kthread_dispatch_and_wait W groups))).
  { intros. apply on_gpu_worker_quiet, dispatch_worker. }
  unfold service_groups. respects.
Qed.

Lemma upd_replayable_quiet f : (forall r, replay_policy (f r) = replay_policy r) ->
  respects quiet (upd_replayable (D := D) f).
Proof.
  intros Hf g a g' [= <- <-]. split; [by exists []|unfold settings; simpl; by rewrite Hf|done].
Qed.

Lemma push_replay_quiet type : respects quiet (push_replay_on_gpu caps type true (D := D)).
Proof.
  assert (respects (quiet (D := D)) uvm_push_begin_acquire).
  { unfold uvm_push_begin_acquire. respects. by split; [exists []| |]. }
  unfold push_replay_on_gpu. apply respects_try; [apply _|done|].
  apply respects_seq; [apply _| |].
  - intros g a g'. unfold mbind, ST_bind, emit, when, upd_batch, modify, skip, mret, ST_ret. intros E.
    split; [|by destruct (true && _); simplify_eq..]. exists [EvReplay type].
    split; [by destruct (true && _); simplify_eq|by repeat constructor].
  - pose proof upd_replayable_quiet. unfold replay_tracker_add_push_safe. respects.
    apply upd_replayable_quiet. intros r. by case_match.
Qed.

Lemma parallel_fault_batch_quiet : C (parallel_fault_batch Q W caps).
Proof.
  pose proof group_faults_quiet. pose proof service_groups_quiet.
  assert (C (on_gpu (push_replay_on_gpu caps UVM_FAULT_REPLAY_TYPE_START true)))
    by (apply on_gpu_quiet, push_replay_quiet).
  assert (C (upd_svc_batch (fun b => b <| batch_id ::= fun n => u32 (n + 1) |>)))
    by (by apply on_gpu_quiet, upd_batch_quiet).
  assert (forall n st, C (parallel_replay caps n st)) by (intros n st; unfold parallel_replay, replay_block; respects).
  unfold parallel_fault_batch, parallel_batch. respects.
Qed.

(** The parallel path is what the service loop relies on. *)
Definition pool_parallel_service : ParallelService D :=
  {| service_fault_batch_parallel := parallel_fault_batch Q W caps;
     parallel_counted := fun s a s' E => quiet_counted _ _ (parallel_fault_batch_quiet s a s' E) |}.

End ParallelFrames.

(** ** Complete runs *)

(** A dispatch whose workers go through all its blocks. *)
Record sub_ok (W : pool_params) (groups : list uvm_block_fault_group_t) (d : sub_dispatch) : Prop := {
  so_count : (0 < sd_count d)%nat;
  so_range : (sd_base d + sd_count d <= length groups)%nat;
  so_group_seg : allocation_fits (pool_merge W) (sd_mode d) (num_workers W) (take (sd_count d) (drop (sd_base d) groups));
}.

(** The threads have gone through all the blocks when the dispatch is complete. *)
Lemma run_complete {D} {K : PoolOps D} W groups d (g : uvm_gpu D) :
  sub_ok W groups d -> 0 < limit_workers (pool_merge W) (num_workers W) -> pool_settled ->
  let sub := take (sd_count d) (drop (sd_base d) groups) in
  let p := run_pool (op_schedule g) (start_dispatch (pool_merge W) (sd_mode d) (num_workers W) sub (op_threads g)) in
  all_done p = true ->
  serviced p ≡ₚ seq 0 (sd_count d) /\ Forall (fun w => leaving p w = true) (pool_workers p) /\
  length (pool_workers p) = length (op_threads g) /\
  Forall (fun e => e.1 < length (op_threads g))%nat (pool_log p).
Proof.
  intros [Hc Hr Hg] Hw Hset sub p Hd. destruct (Hset g) as [Hs Hb].
  assert (length sub = sd_count d) as Hl by (unfold sub; rewrite length_take, length_drop; lia).
  assert (sub <> []) as Hne by (intros E; rewrite E in Hl; simpl in Hl; lia).
  destruct (dispatch_complete (pool_merge W) (sd_mode d) (num_workers W) sub Hne Hw Hg (op_threads g) (op_schedule g) Hs
    (Hb _ _ _) Hd) as [H1 H2]. rewrite Hl in H1. split_and!; [done|done|apply (length_workers (op_schedule g))|].
  by apply (log_threads (op_schedule g) (start_dispatch _ _ _ _ (op_threads g))).
Qed.

(** ** Locks *)

Definition lock_change (vs : Z) (e : event) : Z :=
  match e with
  | EvVaSpaceLock v => if v =? vs then 1 else 0
  | EvVaSpaceUnlock v => if v =? vs then -1 else 0
  | _ => 0
  end.

(** How many readers hold a VA space after a trace. *)
Definition lock_balance (vs : Z) {D} (g : uvm_gpu D) : Z := sumz (lock_change vs) (trace g).

Definition holding (vs : Z) (w : worker_state) : Z := if bool_decide (held_va_space_of w = Some vs) then 1 else 0.

Section Locks.
  Context {D : Type} `{Hal : FaultBufferHal D} `{!FaultBufferHalLive D} `{Ops : GpuOps D}
    `{Va : VaSpaceOps D} `{!VaSpaceOpsLive D} `{Laws : !VaSpaceOpsLaws D} `{Work : WorkerOps D}
    `{Pool : PoolOps D}.
  Hypothesis no_stale_claims : pool_settled (D := D).
  Variable Q : service_params.
  Variable W : pool_params.
  Variable caps : gpu_caps.
  Variable vs : Z.

Lemma hw_only_balance (g g' : uvm_gpu D) : hw_only g g' -> lock_balance vs g' = lock_balance vs g.
Proof. by intros ->. Qed.

Lemma collect_hw n : forall i items st, respects (hw_only (D := D)) (collect_statuses n i items st).
Proof. induction n as [|n IH]; intros; simpl; respects. Qed.

Lemma drop_held_balance c held (g : uvm_gpu D) u g' :
  drop_held held g = (u, g') -> lock_balance vs g' = lock_balance vs g - holding vs (mk_worker c held).
Proof.
  unfold drop_held, holding, lock_balance. destruct held as [v|]; intros [= <- <-]; simpl.
  - destruct (Z.eqb_spec v vs) as [->|Hne]; [rewrite bool_decide_true by done; lia|].
    rewrite bool_decide_false by congruence. lia.
  - lia.
Qed.

Lemma take_held_balance c held (g : uvm_gpu D) u g' :
  take_held held g = (u, g') -> lock_balance vs g' = lock_balance vs g + holding vs (mk_worker c held).
Proof.
  unfold take_held, holding, lock_balance. destruct held as [v|]; intros [= <- <-]; simpl.
  - destruct (Z.eqb_spec v vs) as [->|Hne]; [rewrite bool_decide_true by done; lia|].
    rewrite bool_decide_false by congruence. lia.
  - lia.
Qed.

(** The locks of a worker change as what it holds does. *)
Lemma service_item_balance grp w (g : uvm_gpu D) r g' :
  service_item grp w g = (r, g') -> lock_balance vs g' - holding vs r.2 = lock_balance vs g - holding vs w.
Proof.
  unfold service_item. unfold mbind at 1, ST_bind at 1, gets. unfold mbind at 1, ST_bind at 1.
  set (hv := op_block_va_space g (group_block grp)).
  destruct (when _ _ g) as [u g1] eqn:E1.
  assert (lock_balance vs g1 - holding vs (w <| held_va_space_of := hv |>) = lock_balance vs g - holding vs w) as H1.
  { revert E1. unfold when. case_bool_decide as Hb; simpl.
    - intros [= <- <-]. unfold holding. simpl. by rewrite Hb.
    - unfold mbind, ST_bind. destruct (drop_held _ g) as [u1 g2] eqn:E2. intros E3.
      apply (drop_held_balance (wk_ctx w)) in E2. apply (take_held_balance (wk_ctx w)) in E3.
      destruct w as [c h]. simpl in *. unfold holding in *. simpl in *. lia. }
  destruct hv as [v|]; [|by intros [= <- <-]].
  unfold mbind, ST_bind. destruct (service_block_faults_kthread _ _ _ _ g1) as [x g2] eqn:E2.
  apply service_block_faults_hw, hw_only_balance in E2. intros [= <- <-]. unfold holding in *. simpl in *. lia.
Qed.

Lemma service_log_balance groups base log : forall ws (g : uvm_gpu D) r g',
  service_log groups base log ws g = (r, g') ->
  lock_balance vs g' - sumz (holding vs) r.2 = lock_balance vs g - sumz (holding vs) ws /\ length r.2 = length ws.
Proof.
  induction log as [|[w [|item|]] log IH]; intros ws g r g'; simpl; [by intros [= <- <-]|apply IH| |].
  - destruct (ws !! w) as [x|] eqn:Ew; [|apply IH]. destruct (groups !! _) as [grp|]; [|apply IH].
    unfold mbind, ST_bind. destruct (service_item grp x g) as [y g1] eqn:E1. apply service_item_balance in E1.
    destruct (service_log groups base log _ g1) as [z g2] eqn:E2. apply IH in E2 as [E2 E3].
    intros [= <- <-]. simpl. rewrite length_insert in E3. split; [|done].
    rewrite (sumz_insert _ _ _ _ _ Ew) in E2. lia.
  - destruct (ws !! w) as [x|] eqn:Ew; [|apply IH]. unfold mbind, ST_bind.
    destruct (drop_held _ g) as [u g1] eqn:E1. apply (drop_held_balance (wk_ctx x)) in E1.
    intros [E2 E3]%IH. rewrite length_insert in E3. split; [|done]. rewrite (sumz_insert _ _ _ _ _ Ew) in E2.
    destruct x as [c h]. change (holding vs ((mk_worker c h) <| held_va_space_of := None |>)) with 0 in E2. simpl in E1. lia.
Qed.

Lemma leave_batch_balance p states : forall ws (g : uvm_gpu D) u g',
  Forall (fun w => leaving p w = true) states -> length states = length ws ->
  leave_batch p states ws g = (u, g') -> lock_balance vs g' = lock_balance vs g - sumz (holding vs) ws.
Proof.
  induction states as [|x states IH]; intros [|w ws] g u g' Hf Hl; try done; simpl.
  { intros [= <- <-]. unfold sumz. simpl. lia. }
  inversion Hf as [|? ? Hx Hf']; subst. rewrite Hx. unfold mbind, ST_bind, when.
  destruct (drop_held _ g) as [u1 g1] eqn:E1. apply (drop_held_balance (wk_ctx w)) in E1.
  intros E2%IH; [|done|simpl in Hl; lia]. destruct w. simpl in *. lia.
Qed.

Lemma dispatch_inner_balance groups d (g : uvm_gpu D) r g' :
  sub_ok W groups d -> 0 < limit_workers (pool_merge W) (num_workers W) ->
  dispatch_and_wait_inner W groups d g = (r, g') -> dr_completed r = true -> lock_balance vs g' = lock_balance vs g.
Proof.
  intros Hd Hw. unfold dispatch_and_wait_inner. unfold mbind at 1, ST_bind at 1, gets at 1.
  set (p := run_pool _ _).
  unfold mbind at 1, ST_bind at 1, gets at 1. set (ws := imap _ (op_threads g)). unfold mbind at 1, ST_bind at 1.
  destruct (service_log _ _ _ _ g) as [x g1] eqn:E1. apply service_log_balance in E1 as [E1 El].
  unfold mbind at 1, ST_bind at 1. destruct (leave_batch _ _ _ g1) as [u g2] eqn:E2.
  destruct (all_done p) eqn:Hdone; simpl; [|by intros [= <- <-]].
  destruct (run_complete W groups d g Hd Hw no_stale_claims Hdone) as (_ & Hf & Hlen & _).
  assert (length ws = length (op_threads g)) as Hws by (unfold ws; by rewrite length_imap).
  apply leave_batch_balance in E2; [|done|rewrite El, Hws; exact Hlen].
  assert (sumz (holding vs) ws = 0) as Hz.
  { assert (forall w, w ∈ ws -> holding vs w = 0) as Hall.
    { intros w (k & Hk)%list_elem_of_lookup. unfold ws in Hk. rewrite list_lookup_imap in Hk.
      destruct (op_threads g !! k); simpl in Hk; by simplify_eq. }
    clear -Hall. induction ws as [|w ws IH]; [done|]. simpl. rewrite (Hall w) by (by left).
    rewrite IH; [done|]. intros w' Hw'. apply Hall. by right. }
  unfold mbind, ST_bind. destruct (collect_statuses _ _ _ _ g2) as [st g3] eqn:E3.
  intros [= <- <-] _. assert (lock_balance vs g3 = lock_balance vs g2) as E4.
  { apply hw_only_balance. revert E3. apply collect_hw. }
  lia.
Qed.

End Locks.

(** ** The plan of a batch *)

Lemma merge_segments_consecutive threshold total groups : forall seg_start cursor running so_far,
  (seg_start <= cursor)%nat -> groups <> [] \/ seg_start = cursor ->
  consecutive seg_start (cursor + length groups) (merge_segments threshold total groups seg_start cursor running so_far).
Proof.
  induction groups as [|grp rest IH]; intros seg_start cursor running so_far Hle Hne; cbn [merge_segments].
  - destruct Hne as [Hne|Hne]; [done|]. subst. simpl. lia.
  - cbv zeta. replace (cursor + length (grp :: rest))%nat with (S cursor + length rest)%nat by (simpl; lia).
    destruct (_ && _) eqn:Hc.
    + apply IH; [lia|]. left. intros ->. by rewrite bool_decide_true in Hc.
    + cbn [consecutive]. split_and!; [done|lia|].
      replace (seg_start + (cursor - seg_start + 1))%nat with (S cursor) by lia. apply IH; [lia|by right].
Qed.

Lemma consecutive_bounds segs : forall start stop s, consecutive start stop segs -> s ∈ segs ->
  (0 < s.2 /\ s.1 + s.2 <= stop)%nat.
Proof.
  induction segs as [|[a c] segs IH]; intros start stop s; cbn [consecutive]; [by intros _ ?%elem_of_nil|].
  intros (-> & Hc & Hr) [->|Hs]%elem_of_cons; [|by eapply IH].
  simpl. split; [done|]. by apply consecutive_blocks in Hr as [? _].
Qed.

Definition sd_bounds (d : sub_dispatch) : nat * nat := (sd_base d, sd_count d).

(** The group-segment mode wakes as many workers as it allocates. *)
Definition group_seg_fits (W : pool_params) (groups : list uvm_block_fault_group_t) : Prop :=
  uvm_merge_group_seg_parallel W = true ->
  (length (worker_table (batch_workers_per_seg (pool_merge W) (num_workers W) groups)) <=
   Z.to_nat (num_active_workers (pool_merge W) (num_workers W) (Z.of_nat (length groups))))%nat.

Lemma dispatch_plan_ok W pushes groups : groups <> [] -> group_seg_fits W groups ->
  consecutive 0 (length groups) (sd_bounds <$> dispatch_plan W pushes groups) /\
  Forall (sub_ok W groups) (dispatch_plan W pushes groups).
Proof.
  intros Hne Hfit. assert (0 < length groups)%nat as Hn by (destruct groups; [done|simpl; lia]).
  assert (forall mode, (mode = GroupSegParallel -> uvm_merge_group_seg_parallel W = true) ->
    let plan := [mk_sub (if pushes then mode else Strided) 0 (length groups)] in
    consecutive 0 (length groups) (sd_bounds <$> plan) /\ Forall (sub_ok W groups) plan) as Hone.
  { intros mode Hm. split; [simpl; lia|]. constructor; [|constructor]. split; simpl; [done|done|].
    intros E. rewrite firstn_all. apply Hfit, Hm. by destruct pushes. }
  unfold dispatch_plan. destruct (uvm_merge_dispatch W); simpl; [|by apply Hone].
  destruct (uvm_dynamic_dispatch W); [by apply Hone|].
  destruct (uvm_merge_group_seg_parallel W) eqn:E; [by apply Hone|].
  destruct (uvm_merge_segment_parallel W); [by apply Hone|].
  destruct (uvm_merge_segmented_dispatch W); simpl; [|by apply Hone].
  set (segs := merge_segments _ _ _ _ _ _ _).
  assert (consecutive 0 (length groups) segs) as Hc by (apply (merge_segments_consecutive _ _ groups 0 0); [lia|by left]).
  split.
  - rewrite <- list_fmap_compose. by rewrite (list_fmap_ext _ id), list_fmap_id by (by intros ? [] _).
  - apply Forall_fmap, Forall_forall. intros s Hs. apply (consecutive_bounds _ _ _ _ Hc) in Hs as [H1 H2].
    by split.
Qed.

Section Outcome.
  Context {D : Type} `{Hal : FaultBufferHal D} `{!FaultBufferHalLive D} `{Ops : GpuOps D}
    `{Va : VaSpaceOps D} `{!VaSpaceOpsLive D} `{Laws : !VaSpaceOpsLaws D} `{Work : WorkerOps D}
    `{Pool : PoolOps D}.
  Hypothesis no_stale_claims : pool_settled (D := D).
  Variable Q : service_params.
  Variable W : pool_params.
  Variable caps : gpu_caps.

(** The items of a log are the blocks of the log. *)
Lemma service_log_items groups base log : forall ws (g : uvm_gpu D) r g',
  Forall (fun x => x.1 < length ws /\ forall i, service_of x = Some i -> base + i < length groups)%nat log ->
  service_log groups base log ws g = (r, g') -> r.1.*1 = Nat.add base <$> omap service_of log.
Proof.
  induction log as [|[w ev] log IH]; intros ws g r g' Hf; simpl; [by intros [= <- <-]|].
  inversion Hf as [|? ? [Hw Hi] Hf']; subst. simpl in Hw, Hi.
  destruct (lookup_lt_is_Some_2 ws w Hw) as [x Hx]. destruct ev as [|item|]; simpl; [by apply IH| |].
  - rewrite Hx. destruct (lookup_lt_is_Some_2 groups (base + item) (Hi item eq_refl)) as [grp ->].
    unfold mbind, ST_bind. destruct (service_item grp x g) as [y g1].
    destruct (service_log groups base log _ g1) as [z g2] eqn:E2. intros [= <- <-]. simpl. f_equal.
    eapply IH; [|exact E2]. by rewrite length_insert.
  - rewrite Hx. unfold mbind, ST_bind. destruct (drop_held _ g) as [u g1]. apply IH. by rewrite length_insert.
Qed.

Lemma collect_ok n : forall i items st (g : uvm_gpu D) g',
  collect_statuses n i items st g = (NV_OK, g') ->
  st = NV_OK /\ forall k, (i <= k < i + n)%nat -> status_of items k = NV_OK.
Proof.
  induction n as [|n IH]; intros i items st g g'; simpl.
  { intros [= -> _]. split; [done|lia]. }
  unfold mbind, ST_bind, gets. intros [H1 H2]%IH.
  assert (st = NV_OK /\ status_of items i = NV_OK) as [-> Hi].
  { destruct (is_ok st) eqn:Es; simpl in H1; [|by rewrite Es in H1; simplify_eq].
    apply is_ok_true in Es. split; [done|]. destruct (is_ok (status_of items i)) eqn:E; [by apply is_ok_true|].
    by rewrite H1 in E. }
  split; [done|]. intros k Hk. destruct (decide (k = i)) as [->|]; [done|]. apply H2. lia.
Qed.

Lemma status_of_elem items i st : NoDup items.*1 -> (i, st) ∈ items -> status_of items i = st.
Proof.
  intros Hnd Hin. unfold status_of. destruct (list_find _ items) as [[k [j st']]|] eqn:E; simpl.
  - apply list_find_Some in E as (Hk & Hj & _). simpl in Hj. subst j.
    apply list_elem_of_lookup in Hin as [k' Hk'].
    assert (k = k') as <- by (eapply NoDup_lookup; [exact Hnd|rewrite list_lookup_fmap, Hk; done|by rewrite list_lookup_fmap, Hk']).
    by simplify_eq.
  - apply list_find_None in E. rewrite Forall_forall in E. by specialize (E _ Hin).
Qed.

Lemma dispatch_inner_ok groups d (g : uvm_gpu D) r g' :
  sub_ok W groups d -> 0 < limit_workers (pool_merge W) (num_workers W) ->
  dispatch_and_wait_inner W groups d g = (r, g') -> dr_status r = NV_OK ->
  dr_completed r = true /\ (dr_items r).*1 ≡ₚ seq (sd_base d) (sd_count d) /\
  Forall (fun x => x.2 = NV_OK) (dr_items r).
Proof.
  intros Hd Hw. unfold dispatch_and_wait_inner. unfold mbind at 1, ST_bind at 1, gets at 1.
  set (p := run_pool _ _).
  unfold mbind at 1, ST_bind at 1, gets at 1. set (ws := imap _ (op_threads g)). unfold mbind at 1, ST_bind at 1.
  destruct (service_log _ _ _ _ g) as [x g1] eqn:E1.
  unfold mbind at 1, ST_bind at 1. destruct (leave_batch _ _ _ g1) as [u g2].
  destruct (all_done p) eqn:Hdone; simpl; [|by intros [= <- <-]].
  destruct (run_complete W groups d g Hd Hw no_stale_claims Hdone) as (Hs & _ & _ & Hlog). fold p in Hs, Hlog.
  unfold mbind, ST_bind. destruct (collect_statuses _ _ _ _ g2) as [st g3] eqn:E3.
  intros [= <- <-]. simpl. intros ->. apply collect_ok in E3 as [_ E3].
  assert (x.1.*1 ≡ₚ seq (sd_base d) (sd_count d)) as Hp.
  { apply service_log_items in E1.
    - rewrite E1, <- (Permutation_rev (pool_log p)). fold (serviced p). rewrite Hs, fmap_add_seq. by rewrite Nat.add_0_r.
    - apply Forall_rev, Forall_forall. intros y Hy. rewrite Forall_forall in Hlog. unfold ws. rewrite length_imap.
      split; [by apply Hlog|]. intros i Hi. assert (i ∈ seq 0 (sd_count d)) as Hin.
      { rewrite <- Hs. apply list_elem_of_omap. by exists y. }
      apply elem_of_seq in Hin. pose proof (so_range _ _ _ Hd). lia. }
  split_and!; [done|done|]. apply Forall_forall. intros [i st] Hin. simpl.
  rewrite <- (status_of_elem x.1 i st); [|rewrite Hp; apply NoDup_seq|done].
  apply E3. assert (i ∈ x.1.*1) as Hi by (by apply (list_elem_of_fmap_2 fst _ _ Hin)).
  rewrite Hp in Hi. apply elem_of_seq in Hi. lia.
Qed.

Lemma run_plan_ok groups plan : forall start stop (g : uvm_gpu D) r g',
  consecutive start stop (sd_bounds <$> plan) -> Forall (sub_ok W groups) plan ->
  0 < limit_workers (pool_merge W) (num_workers W) ->
  run_plan W groups plan g = (r, g') -> dr_status r = NV_OK ->
  (dr_items r).*1 ≡ₚ seq start (stop - start) /\ Forall (fun x => x.2 = NV_OK) (dr_items r).
Proof.
  induction plan as [|d plan IH]; intros start stop g r g' Hc Hf Hw; cbn [run_plan].
  { simpl in Hc. subst. intros [= <- <-] _. by rewrite Nat.sub_diag. }
  inversion Hf as [|? ? Hd Hf']; subst. destruct Hc as (<- & Hpos & Hc). simpl in Hpos.
  unfold mbind, ST_bind. destruct (dispatch_and_wait_inner W groups d g) as [x g1] eqn:E1.
  destruct (is_ok (dr_status x)) eqn:Ex; [|by intros [= <- <-] E; rewrite E in Ex].
  apply is_ok_true in Ex. destruct (dispatch_inner_ok groups d g x g1 Hd Hw E1 Ex) as (_ & P1 & P2).
  destruct (run_plan W groups plan g1) as [y g2] eqn:E2. intros [= <- <-] Ey. simpl in *.
  destruct (IH _ _ _ _ _ Hc Hf' Hw E2 Ey) as [P3 P4]. split; [|by apply Forall_app].
  apply consecutive_blocks in Hc as [Hle _].
  rewrite fmap_app, P1, P3. replace (stop - sd_base d)%nat with (sd_count d + (stop - (sd_base d + sd_count d)))%nat by lia.
  by rewrite seq_app.
Qed.

Lemma run_plan_balance vs groups plan : forall (g : uvm_gpu D) r g',
  Forall (sub_ok W groups) plan -> 0 < limit_workers (pool_merge W) (num_workers W) ->
  run_plan W groups plan g = (r, g') -> dr_completed r = true -> lock_balance vs g' = lock_balance vs g.
Proof.
  induction plan as [|d plan IH]; intros g r g' Hf Hw; cbn [run_plan]; [by intros [= <- <-]|].
  inversion Hf as [|? ? Hd Hf']; subst. unfold mbind, ST_bind.
  destruct (dispatch_and_wait_inner W groups d g) as [x g1] eqn:E1. destruct (is_ok (dr_status x)).
  - destruct (run_plan W groups plan g1) as [y g2] eqn:E2. intros [= <- <-] [Hx Hy]%andb_prop.
    etransitivity; [by eapply IH|by eapply dispatch_inner_balance].
  - intros [= <- <-] Hx. by eapply dispatch_inner_balance.
Qed.

(** C10: When the dispatch of a batch to the pool succeeds, every block was serviced
    exactly once and successfully, however the batch is cut into sub-dispatches
    and in whatever order the threads ran, provided that no thread has a claim of
    an earlier dispatch when a dispatch starts, that fewer than 2^32 ids are
    claimed in it ([pool_settled]), and that the group-segment mode allocates no
    more workers than ids are active ([group_seg_fits]). *)
Theorem dispatch_services_every_block groups (g : uvm_gpu D) r g' :
  0 < limit_workers (pool_merge W) (num_workers W) -> group_seg_fits W groups ->
  uvm_kthread_dispatch_and_wait W groups g = (r, g') -> dr_status r = NV_OK ->
  (dr_items r).*1 ≡ₚ seq 0 (length groups) /\ Forall (fun x => x.2 = NV_OK) (dr_items r).
Proof.
  intros Hw Hfit. unfold uvm_kthread_dispatch_and_wait.
  case_bool_decide as Hne; [intros [= <- <-] _; by subst|]. unfold mbind, ST_bind, gets.
  destruct (dispatch_plan_ok W (op_pushes_open g) groups Hne Hfit) as [H1 H2]. intros E Hok.
  rewrite <- (Nat.sub_0_r (length groups)). by eapply run_plan_ok.
Qed.

End Outcome.

(** ** The coordinator releases what it holds *)

Definition held_by (vs : Z) (held : option held_space) : Z := if holds held vs then 1 else 0.

Section Release.
  Context {D : Type} `{Hal : FaultBufferHal D} `{!FaultBufferHalLive D} `{Ops : GpuOps D}
    `{Va : VaSpaceOps D} `{!VaSpaceOpsLive D} `{Laws : !VaSpaceOpsLaws D} `{Work : WorkerOps D}
    `{Pool : PoolOps D}.
  Hypothesis no_stale_claims : pool_settled (D := D).
  Variable Q : service_params.
  Variable W : pool_params.
  Variable caps : gpu_caps.
  Variable vs : Z.

  Abbreviation balance s := (lock_balance vs (sv_gpu s)).

Lemma release_held_balance held (s : svc D) u s' :
  release_held held s = (u, s') -> balance s' = balance s - held_by vs held.
Proof.
  unfold release_held, held_by. destruct held as [h|]; [|intros [= <- <-]; simpl; lia].
  unfold unlock_va_space, on_gpu, emit. intros [= <- <-]. unfold lock_balance. simpl.
  destruct (held_va_space h =? vs); lia.
Qed.

Lemma lock_va_space_balance v (s : svc D) h s' :
  lock_va_space v s = (h, s') -> balance s' = balance s + held_by vs (Some h).
Proof.
  unfold lock_va_space, on_gpu, emit. st_unfold. intros [= <- <-]. unfold lock_balance, held_by. simpl.
  destruct (v =? vs); lia.
Qed.

(** Steps that take and release no lock. *)
Lemma group_fault_balance v i addr l (s : svc D) l' s' :
  group_fault v i addr l s = (l', s') -> balance s' = balance s /\ gl_held l' = gl_held l.
Proof.
  unfold group_fault. destruct (in_current_block addr l); [by intros [= <- <-]|].
  unfold group_find. st_unfold. destruct (op_va_range_first _ _ _) as [r|]; [|by intros [= <- <-]].
  destruct (_ && _); [|by intros [= <- <-]]. unfold on_gpu.
  destruct (op_block_find_create (sv_gpu s) v r addr) as [[st blk] d]. simpl. intros [= <- <-].
  split; [done|]. destruct (is_ok st); [|done]. unfold join_block. case_bool_decide; [done|].
  exact (close_group_held (l <| gl_status := st |>)).
Qed.

Lemma group_step_balance i l (s : svc D) l' s' :
  group_step i l s = (l', s') -> balance s' - held_by vs (gl_held l') = balance s - held_by vs (gl_held l).
Proof.
  unfold group_step. unfold mbind at 1, ST_bind at 1, gets at 1. unfold mbind at 1, ST_bind at 1.
  set (v := default 0 _). destruct ((if negb (holds (gl_held l) v) then group_switch v l else mret l) s) as [l1 s1] eqn:E.
  assert (balance s1 - held_by vs (gl_held l1) = balance s - held_by vs (gl_held l)) as H1.
  { destruct (holds (gl_held l) v); simpl in E; [by injection E as <- <-|]. revert E. unfold group_switch. cbv zeta.
    set (l0 := (close_group l) <| current_block := None |> <| current_block_fault_count := 0 |>).
    assert (gl_held l0 = gl_held l) as El by apply close_group_held. rewrite El.
    unfold mbind, ST_bind. destruct (release_held (gl_held l) s) as [u s2] eqn:E2. apply release_held_balance in E2.
    destruct (lock_va_space v s2) as [h s3] eqn:E3. apply lock_va_space_balance in E3.
    intros [= <- <-]. simpl. lia. }
  destruct (_ && _); [intros [= <- <-]; exact H1|]. destruct (is_fatal _).
  { unfold note_fatal_va_space, upd_svc_batch, on_gpu, upd_batch. st_unfold. intros [= <- <-]. exact H1. }
  destruct (has_gpu_va_space (gl_held l1)); simpl; [|intros [= <- <-]; exact H1].
  intros [E2 E3]%group_fault_balance. rewrite E2, E3. exact H1.
Qed.

Lemma group_faults_balance (s : svc D) l s' :
  group_faults s = (l, s') -> balance s' = balance s + held_by vs (gl_held l).
Proof.
  unfold group_faults. unfold mbind at 1, ST_bind at 1, gets. unfold mbind, ST_bind.
  destruct (group_loop _ _ _ s) as [l1 s1] eqn:E. intros [= <- <-]. rewrite close_group_held.
  enough (forall n i l0 (s0 : svc D) l' s', group_loop n i l0 s0 = (l', s') ->
    balance s' - held_by vs (gl_held l') = balance s0 - held_by vs (gl_held l0)) as H.
  { apply H in E. unfold held_by at 2 in E. simpl in E. lia. }
  clear. induction n as [|n IH]; intros i l0 s0 l' s'; simpl; [by intros [= <- <-]|].
  unfold mbind, ST_bind. destruct (group_step i l0 s0) as [l1 s1] eqn:E. apply group_step_balance in E.
  intros E2%IH. lia.
Qed.

Lemma quiet_replay_balance (g g' : uvm_gpu D) a :
  push_replay_on_gpu caps UVM_FAULT_REPLAY_TYPE_START true g = (a, g') -> lock_balance vs g' = lock_balance vs g.
Proof.
  intros (l & E & Hl & _)%push_replay_grows. unfold lock_balance. rewrite E, sumz_app.
  assert (sumz (lock_change vs) l = 0) as ->; [|lia].
  clear E. induction Hl as [|e l He Hl IH]; [done|]. simpl. rewrite IH. by destruct e.
Qed.

Lemma inline_balance groups : forall c st (g : uvm_gpu D) a g',
  service_inline groups c st g = (a, g') -> lock_balance vs g' = lock_balance vs g.
Proof.
  enough (forall c st, respects (hw_only (D := D)) (service_inline groups c st)) as H.
  { intros c st g a g' E%H. by apply hw_only_balance. }
  pose proof (service_block_faults_hw (D := D)).
  induction groups as [|grp groups IH]; intros c st; simpl; respects.
Qed.

Lemma parallel_replay_balance n st (s : svc D) a s' :
  parallel_replay caps n st s = (a, s') -> balance s' = balance s.
Proof.
  unfold parallel_replay, replay_block, upd_svc_batch, on_gpu, upd_batch. st_unfold.
  destruct (_ && _); [|by intros [= <- <-]]. destruct (_ && _); [|by intros [= <- <-]].
  destruct (push_replay_on_gpu _ _ _ _) as [x g] eqn:E. apply quiet_replay_balance in E.
  destruct (is_ok x); by intros [= <- <-].
Qed.

Lemma dispatch_balance groups (g : uvm_gpu D) r g' :
  0 < limit_workers (pool_merge W) (num_workers W) -> group_seg_fits W groups ->
  uvm_kthread_dispatch_and_wait W groups g = (r, g') -> dr_completed r = true ->
  lock_balance vs g' = lock_balance vs g.
Proof.
  intros Hw Hfit. unfold uvm_kthread_dispatch_and_wait. case_bool_decide as Hne; [by intros [= <- <-]|].
  unfold mbind, ST_bind, gets. destruct (dispatch_plan_ok W (op_pushes_open g) groups Hne Hfit) as [_ H2].
  intros E Hc. by eapply run_plan_balance.
Qed.

(** C12: Once the workers have finished, the parallel path has released every VA
    space it took: for every VA space the number of readers is what it was, the
    locks of the coordinator and of all workers counted, on the inline path and
    on every dispatch mode, failures included.  As for [dispatch_services_every_block]
    no thread has a claim of an earlier dispatch when a dispatch starts and the
    allocation of the group-segment mode fits. *)
Theorem parallel_releases_locks (s : svc D) r s' :
  0 < limit_workers (pool_merge W) (num_workers W) ->
  group_seg_fits W (gl_groups (group_faults s).1) ->
  parallel_batch Q W caps s = (r, s') -> dr_completed r = true -> balance s' = balance s.
Proof.
  intros Hw Hfit. unfold parallel_batch. unfold mbind at 1, ST_bind at 1.
  destruct (group_faults s) as [l s1] eqn:E1. apply group_faults_balance in E1. simpl in Hfit.
  unfold mbind at 1, ST_bind at 1. destruct (service_groups Q W l s1) as [x s2] eqn:E2.
  unfold mbind, ST_bind. destruct (parallel_replay caps _ _ s2) as [st s3] eqn:E3.
  apply parallel_replay_balance in E3. intros [= <- <-] Hc. simpl in Hc. rewrite E3. revert E2 Hc.
  unfold service_groups. destruct (uses_inline _ _).
  - st_unfold. unfold on_gpu. destruct (service_inline _ _ _ _) as [y g] eqn:E4. apply inline_balance in E4.
    destruct (release_held (gl_held l) _) as [u s4] eqn:E5. apply release_held_balance in E5.
    intros [= <- <-] _. simpl in *. lia.
  - unfold mbind, ST_bind. destruct (release_held (gl_held l) s1) as [u s4] eqn:E5. apply release_held_balance in E5.
    unfold on_gpu. destruct (uvm_kthread_dispatch_and_wait W _ _) as [y g] eqn:E4.
    intros [= <- <-] Hc. apply dispatch_balance in E4; [|done..]. simpl in *. lia.
Qed.

End Release.

(** ** The contract with the service loop *)

(** C15: The parallel path keeps the contract the service loop relies on and more:
    it only adds VA space locks and replays to the trace, counts a replay only if
    one was pushed, keeps the replay policy and the prefetch setting, and neither
    marks nor counts any fault: no fault is notified or counted as a duplicate,
    throttled or an invalid prefetch. *)
Theorem parallel_path_contract {D} `{Hal : FaultBufferHal D} `{!FaultBufferHalLive D} `{Ops : GpuOps D}
    `{Va : VaSpaceOps D} `{!VaSpaceOpsLive D} `{Laws : !VaSpaceOpsLaws D} `{Work : WorkerOps D}
    `{Pool : PoolOps D} Q W caps (s : svc D) st s' :
  service_fault_batch_parallel (ParallelService := pool_parallel_service Q W caps) s = (st, s') ->
  quiet (sv_gpu s) (sv_gpu s').
Proof. apply parallel_fault_batch_quiet. Qed.

(** ** Concrete runs

    The blocks of VA space 7 die before they are serviced; the workers run until
    they are done. *)

#[export] Instance sim_worker_ops : WorkerOps sim_device := {|
  op_block_va_space := fun _ blk => if block_va_space blk =? 7 then None else Some (block_va_space blk);
  op_block_has_va_range := fun _ _ => true;
  op_block_lock := fun g _ => hw g;
|}.

#[export] Instance sim_pool_ops : PoolOps sim_device := {|
  op_parallel_ctx := fun _ => true;
  op_pushes_open := fun _ => true;
  op_threads := fun _ => [Idle; Looping (Items []); Idle];
  op_schedule := fun _ => concat (replicate 30 [2; 0; 1; 0]%nat);
  op_worker_context := fun _ _ => empty_block_context;
  op_item_tracker_add := fun _ => NV_OK;
|}.

Lemma sim_pool_settled : pool_settled (D := sim_device).
Proof.
  intros g. split; [by repeat constructor|]. intros dynamic n items.
  pose proof (claims_bound (op_schedule g) (start_pool dynamic n items (op_threads g))) as H.
  assert (length (op_schedule g) = 120%nat) as E by reflexivity.
  assert (claims (start_pool dynamic n items (op_threads g)) = 0%nat) as E0 by reflexivity.
  rewrite E, E0 in H. revert H. generalize (claims (run_pool (op_schedule g) (start_pool dynamic n items (op_threads g)))). lia.
Qed.

(** The parallel path without the inline shortcut; merged dispatch in segments. *)
Definition pool_service_params : service_params := mk_service_params false false true 0 false 0.
Definition inline_params : service_params := mk_service_params false false true 0 false 4.
Definition merged_pool : pool_params :=
  mk_pool_params true false false false true 2 default_merge_params.

Definition merged_after : dispatch_result * svc sim_device :=
  Eval vm_compute in parallel_batch pool_service_params merged_pool (sim_caps 256) grouped_state.

Lemma merged_after_eq :
  parallel_batch pool_service_params merged_pool (sim_caps 256) grouped_state = (merged_after.1, merged_after.2).
Proof. vm_compute. reflexivity. Qed.

Lemma merged_workers : 0 < limit_workers (pool_merge merged_pool) (num_workers merged_pool).
Proof. reflexivity. Qed.

Lemma merged_fits groups : group_seg_fits merged_pool groups.
Proof. discriminate. Qed.

Lemma parallel_releases_locks_witness :
  length (trace (sv_gpu merged_after.2)) = 10%nat /\ lock_balance 1 (sv_gpu merged_after.2) = 0.
Proof.
  split; [reflexivity|].
  exact (parallel_releases_locks sim_pool_settled pool_service_params merged_pool (sim_caps 256) 1 grouped_state merged_after.1
    merged_after.2 merged_workers (merged_fits _) merged_after_eq eq_refl).
Defined.

Definition dispatched_after : dispatch_result * uvm_gpu sim_device :=
  Eval vm_compute in uvm_kthread_dispatch_and_wait merged_pool (gl_groups grouped_after.1) (sv_gpu grouped_after.2).

Lemma dispatched_after_eq :
  uvm_kthread_dispatch_and_wait merged_pool (gl_groups grouped_after.1) (sv_gpu grouped_after.2) =
  (dispatched_after.1, dispatched_after.2).
Proof. vm_compute. reflexivity. Qed.

Lemma dispatch_services_every_block_witness :
  dr_status dispatched_after.1 = NV_OK /\ (dr_items dispatched_after.1).*1 ≡ₚ [0; 1; 2]%nat.
Proof.
  split; [reflexivity|].
  exact (proj1 (dispatch_services_every_block sim_pool_settled merged_pool (gl_groups grouped_after.1) (sv_gpu grouped_after.2)
    dispatched_after.1 dispatched_after.2 merged_workers (merged_fits _) dispatched_after_eq eq_refl)).
Defined.

Definition contract_after : NV_STATUS * svc sim_device :=
  Eval vm_compute in parallel_fault_batch pool_service_params merged_pool (sim_caps 256) grouped_state.

Lemma contract_after_eq :
  parallel_fault_batch pool_service_params merged_pool (sim_caps 256) grouped_state =
  (contract_after.1, contract_after.2).
Proof. vm_compute. reflexivity. Qed.

Lemma parallel_path_contract_witness :
  contract_after.1 = NV_OK /\ marks (svc_batch contract_after.2) = marks grouped_batch.
Proof.
  split; [reflexivity|].
  exact (qu_marks _ _ (parallel_path_contract pool_service_params merged_pool (sim_caps 256) grouped_state
    contract_after.1 contract_after.2 contract_after_eq)).
Defined.

(** *** Two defects *)

Definition is_cancel (e : event) : bool :=
  match e with EvCancelGlobal _ | EvCancelTargeted _ _ _ | EvCancelVa _ _ _ => true | _ => false end.

Definition dead_state : svc sim_device :=
  sim_svc UVM_PERF_FAULT_REPLAY_POLICY_BATCH_FLUSH 0 0
    ((example_batch [example_entry 1 0 UVM_FAULT_ACCESS_TYPE_READ; example_entry 7 0 UVM_FAULT_ACCESS_TYPE_READ])
       <| utlbs := [zero_utlb] |>).

Definition dead_after : NV_STATUS * svc sim_device :=
  Eval vm_compute in parallel_fault_batch pool_service_params merged_pool (sim_caps 256) dead_state.

(** A VA block that dies between the grouping and its servicing makes the
    parallel path return the status that only asks for the fault to be started
    over.  The serial loop restarts on it; the service loop takes it for an error
    of the batch and cancels faults that could have been serviced. *)
Theorem dead_block_cancels_batch :
  parallel_fault_batch pool_service_params merged_pool (sim_caps 256) dead_state = dead_after /\
  dead_after.1 = NV_WARN_MORE_PROCESSING_REQUIRED /\ is_restart dead_after.1 = true /\
  Forall (fun e => is_cancel e = false) (trace (sv_gpu dead_after.2)) /\
  let x := finish_batch default_params (sim_caps 256) (fun _ => example_added) 1 dead_after.1 (mk_locals 0 0 0) dead_after.2 in
  x.1 = Stop NV_WARN_MORE_PROCESSING_REQUIRED (mk_locals 0 0 0) /\
  Exists (fun e => is_cancel e = true) (trace (sv_gpu x.2)).
Proof.
  split; [by vm_compute|]. split; [done|]. split; [done|]. split; [by repeat constructor|].
  cbv zeta. split; [by vm_compute|]. apply (bool_decide_unpack _). by vm_compute.
Qed.

(** The inline path services blocks of a VA space it does not hold.  The
    grouping ends with the lock of the last VA space only; with two VA spaces in
    the batch the first blocks belong to the other one. *)
Theorem inline_unlocked_va_space :
  let '(l, s) := group_faults grouped_state in
  uses_inline inline_params (Z.of_nat (length (gl_groups l))) = true /\
  held_after (trace (sv_gpu s)) = Some (Some 2) /\
  (fun grp => block_va_space (group_block grp)) <$> gl_groups l = [1; 1; 2] /\
  (parallel_batch inline_params merged_pool (sim_caps 256) grouped_state).1 = mk_result NV_OK true [].
Proof. by vm_compute. Qed.
