(* ===== verification/Frontend.v ===== *)
(** * The front-end prefault library

    The view through which a kernel accesses a managed array: before the first
    access to a page one thread touches it, so that the fault on it is raised once
    ([src/frontLib/frontend_prefault_common.cuh]).  The library keeps one word per
    page, one counter per block of 512 pages and two words for the whole array in
    one array of 32-bit words.

    Threads interleave at the granularity of one access to these words.  The
    lanes of a warp that reach the match together go on together. *)

From S2P Require Import Prelude.

Local Open Scope Z_scope.

(** ** The status words *)

Definition PF_BLK_SHIFT : Z := 9.
Definition PF_BLK_PAGES : Z := Z.shiftl 1 PF_BLK_SHIFT.

Definition PF_UNKNOWN : Z := 0.
Definition PF_PENDING : Z := 1.
Definition PF_READY : Z := 2.

Definition pf_nblks (n_pages : Z) : Z := u64 (n_pages + PF_BLK_PAGES - 1) / PF_BLK_PAGES.

(** Offsets into the words of an array of [n_pages] pages. *)
Definition pf_blk_cnt (n_pages : Z) : Z := n_pages.
Definition pf_all_resident (n_pages : Z) : Z := n_pages + pf_nblks n_pages.
Definition pf_published (n_pages : Z) : Z := pf_all_resident n_pages + 1.

Definition prefault_page_count (ptr n_elems size page_shift : Z) : Z :=
  let aligned_base := Z.land ptr (u64 (Z.lnot (Z.shiftl 1 page_shift - 1))) in
  let raw_end := u64 (ptr + u64 (n_elems * size)) in
  let page_bytes := Z.shiftl 1 page_shift in
  Z.shiftr (u64 (raw_end - aligned_base + page_bytes - 1)) page_shift.

Definition word (ws : list Z) (k : Z) : Z := nth (Z.to_nat k) ws 0.
Definition set_word (k v : Z) (ws : list Z) : list Z := <[Z.to_nat k := v]> ws.

(** A copy of [vs] to offset [off]. *)
Definition copy_words (off : Z) (vs ws : list Z) : list Z :=
  take (Z.to_nat off) ws ++ vs ++ drop (Z.to_nat off + length vs) ws.

(** ** The host side *)

Record prefault_array_host_t : Type := mk_host {
  h_ptr : Z;
  h_n_elems : Z;
  h_page_shift : Z;
  h_page_status : option (list Z);
  h_write_status : option (list Z);
  h_n_pages : Z;
}.

#[export] Instance prefault_array_host_eta : Eta prefault_array_host_t := fun a =>
  mk_host (h_ptr a) (h_n_elems a) (h_page_shift a) (h_page_status a) (h_write_status a) (h_n_pages a).

Definition blk_init (n_pages b : Z) : Z :=
  let in_blk := u64 (n_pages - b * PF_BLK_PAGES) in
  let in_blk := if PF_BLK_PAGES <? in_blk then PF_BLK_PAGES else in_blk in
  u32 (PF_BLK_PAGES - in_blk).

Definition pf_init_blk_counts (n_pages : Z) (ws : list Z) : list Z :=
  let init := blk_init n_pages <$> seqZ 0 (pf_nblks n_pages) in
  copy_words (pf_all_resident n_pages) [0; 0] (copy_words (pf_blk_cnt n_pages) init ws).

Definition clear_status (n_pages : Z) (ws : list Z) : list Z :=
  pf_init_blk_counts n_pages (copy_words 0 (replicate (Z.to_nat n_pages) 0) ws).

(** The memory that is allocated has any contents; [malloc n] are those of [n]
    words. *)
Definition prefault_array_init (malloc : Z -> list Z) (ptr n_elems size page_shift : Z)
    (enable_write_status : bool) : prefault_array_host_t :=
  let n_pages := prefault_page_count ptr n_elems size page_shift in
  let words := n_pages + pf_nblks n_pages + 2 in
  mk_host ptr n_elems page_shift (Some (clear_status n_pages (malloc words)))
    (if enable_write_status then Some (replicate (Z.to_nat n_pages) 0) else None) n_pages.

Definition prefault_array_reset (a : prefault_array_host_t) : prefault_array_host_t :=
  a <| h_page_status ::= fmap (clear_status (h_n_pages a)) |>
    <| h_write_status ::= fmap (fun _ => replicate (Z.to_nat (h_n_pages a)) 0) |>.

Definition prefault_array_destroy (a : prefault_array_host_t) : prefault_array_host_t :=
  a <| h_page_status := None |> <| h_write_status := None |>.

(** ** Warps *)

(** The lanes of [active] with the same value, [shfl l] being the value of lane
    [l]. *)
Fixpoint match_lanes (n : nat) (l active value : Z) (shfl : Z -> Z) (eq_mask : Z) : Z :=
  match n with
  | O => eq_mask
  | S n =>
      let bit := Z.shiftl 1 l in
      let eq_mask :=
        if Z.land active bit =? 0 then eq_mask
        else if shfl l =? value then Z.lor eq_mask bit else eq_mask in
      match_lanes n (l + 1) active value shfl eq_mask
  end.

Definition pf_warp_match_any_u64 (active value : Z) (shfl : Z -> Z) : Z :=
  match_lanes 32 0 active value shfl 0.

(** [__ffs]: one plus the least bit set, zero if there is none. *)
Fixpoint ffs_from (n : nat) (l x : Z) : Z :=
  match n with
  | O => 0
  | S n => if Z.testbit x l then l + 1 else ffs_from n (l + 1) x
  end.

Definition warp_ffs (x : Z) : Z := ffs_from 32 0 x.

Definition pf_lane_id (t : nat) : Z := Z.land (Z.of_nat t) 31.

(** ** Threads *)

(** Where a thread is in an access. *)
Inductive pc_t : Type :=
| New | Idle | Block | Status | Match | Cas | Win | Touch | Publish | AddBlk | AddPub | SetAll | Spin | Access.

#[export] Instance pc_eq_dec : EqDecision pc_t.
Proof. solve_decision. Defined.

Record thread_t : Type := mk_thread {
  last_page : Z;
  last_blk : Z;
  checks : bool;
  elem : Z;
  pc : pc_t;
}.

#[export] Instance thread_eta : Eta thread_t := fun t =>
  mk_thread (last_page t) (last_blk t) (checks t) (elem t) (pc t).

Definition no_hint : Z := 2 ^ 64 - 1.

Definition new_thread : thread_t := mk_thread no_hint no_hint true 0 New.

(** The words, the addresses that were touched, latest first, the counter that
    [cas_wins] points to and the threads. *)
Record pf_state : Type := mk_pf {
  words : list Z;
  touched : list Z;
  cas_wins : Z;
  threads : list thread_t;
}.

#[export] Instance pf_state_eta : Eta pf_state := fun s => mk_pf (words s) (touched s) (cas_wins s) (threads s).

(** A kernel adds threads with [Launch]; a thread starts an access with [Begin]. *)
Inductive pf_move : Type :=
| Launch
| Begin (t : nat) (i : Z)
| Step (t : nat)
| Converge (w : nat) (active : Z).

(** The array: its address, its length, the size of an element and the page
    shift. *)
Record array_t : Type := mk_array {
  ptr : Z;
  n_elems : Z;
  elem_size : Z;
  page_shift : Z;
}.

Section Array.
  Variable A : array_t.

Definition n_pages : Z := prefault_page_count (ptr A) (n_elems A) (elem_size A) (page_shift A).
Definition ptr_aligned : Z := Z.land (ptr A) (u64 (Z.lnot (Z.shiftl 1 (page_shift A) - 1))).
Definition end_addr : Z := u64 (ptr A + u64 (n_elems A * elem_size A)).

Definition page_of (i : Z) : Z := Z.shiftr (u64 (u64 (ptr A + i * elem_size A) - ptr_aligned)) (page_shift A).

Definition pf_touch_addr (page_id : Z) : Z :=
  let page_base := u64 (ptr_aligned + u64 (Z.shiftl page_id (page_shift A))) in
  if page_base <? ptr A then ptr A else page_base.

(** [pf_touch_page] *)
Definition pf_touch_page (page_id : Z) (l : list Z) : list Z :=
  if pf_touch_addr page_id <? end_addr then pf_touch_addr page_id :: l else l.

Definition pf_blk_full (ws : list Z) (blk : Z) : bool := PF_BLK_PAGES <=? word ws (pf_blk_cnt n_pages + blk).

(** The view is built on the device. *)
Definition build_view (ws : list Z) : thread_t :=
  mk_thread no_hint no_hint (word ws (pf_all_resident n_pages) =? 0) 0 Idle.

(** [load] and [store] up to the slow path of [ensure]. *)
Definition begin_access (i : Z) (th : thread_t) : thread_t :=
  let th := th <| elem := i |> in
  let page_id := page_of i in
  let blk := Z.shiftr page_id PF_BLK_SHIFT in
  if checks th then
    if (page_id =? last_page th) || (blk =? last_blk th)
    then th <| last_page := page_id |> <| pc := Access |>
    else th <| pc := Block |>
  else th <| pc := Access |>.

Definition page (th : thread_t) : Z := page_of (elem th).
Definition blk (th : thread_t) : Z := Z.shiftr (page th) PF_BLK_SHIFT.

Definition goto (t : nat) (th : thread_t) (next : pc_t) (s : pf_state) : pf_state :=
  s <| threads ::= insert t (th <| pc := next |>) |>.

(** Leave the slow path of [ensure]. *)
Definition ensured (t : nat) (th : thread_t) (full : bool) (s : pf_state) : pf_state :=
  let th := if full then th <| last_blk := blk th |> else th in
  goto t (th <| last_page := page th |>) Access s.

Definition thread_step (s : pf_state) (t : nat) (th : thread_t) : option pf_state :=
  let ws := words s in
  match pc th with
  | New => Some (s <| threads ::= insert t (build_view ws) |>)
  | Idle | Match => None
  | Block => Some (if pf_blk_full ws (blk th) then ensured t th true s else goto t th Status s)
  | Status => Some (if word ws (page th) =? PF_READY then ensured t th false s else goto t th Match s)
  | Cas =>
      Some (if word ws (page th) =? PF_UNKNOWN
            then goto t th Win (s <| words ::= set_word (page th) PF_PENDING |>)
            else goto t th Spin s)
  | Win => Some (goto t th Touch (s <| cas_wins ::= fun n => u64 (n + 1) |>))
  | Touch => Some (goto t th Publish (s <| touched ::= pf_touch_page (page th) |>))
  | Publish => Some (goto t th AddBlk (s <| words ::= set_word (page th) PF_READY |>))
  | AddBlk =>
      let k := pf_blk_cnt n_pages + blk th in
      Some (goto t th AddPub (s <| words := set_word k (u32 (word ws k + 1)) ws |>))
  | AddPub =>
      let pub := u32 (word ws (pf_published n_pages) + 1) in
      Some (goto t th (if pub =? n_pages then SetAll else Spin)
        (s <| words ::= set_word (pf_published n_pages) pub |>))
  | SetAll => Some (goto t th Spin (s <| words ::= set_word (pf_all_resident n_pages) 1 |>))
  | Spin => Some (if word ws (page th) =? PF_READY then ensured t th false s else s)
  | Access => Some (goto t th Idle s)
  end.

(** The lanes of warp [w] in [active] are all at the match; the least lane of each
    page goes on to the compare-and-swap. *)
Definition lane_page (ths : list thread_t) (w : nat) (l : Z) : Z :=
  match ths !! (32 * w + Z.to_nat l)%nat with Some th => page th | None => 0 end.

Definition in_warp (w : nat) (active : Z) (t : nat) : bool :=
  (t / 32 =? w)%nat && Z.testbit active (pf_lane_id t).

Definition master (ths : list thread_t) (w : nat) (active value : Z) : Z :=
  warp_ffs (pf_warp_match_any_u64 active value (lane_page ths w)) - 1.

Definition converged (w : nat) (active : Z) (ths : list thread_t) : bool :=
  forallb (fun l => negb (Z.testbit active l) ||
    bool_decide (pc <$> ths !! (32 * w + Z.to_nat l)%nat = Some Match)) (seqZ 0 32).

Definition match_step (w : nat) (active : Z) (ths : list thread_t) : list thread_t :=
  imap (fun t th =>
    if in_warp w active t
    then th <| pc := if pf_lane_id t =? master ths w active (page th) then Cas else Spin |>
    else th) ths.

Definition pf_step (s : pf_state) (m : pf_move) : option pf_state :=
  match m with
  | Launch => Some (s <| threads ::= fun ths => ths ++ [new_thread] |>)
  | Begin t i =>
      th ← threads s !! t;
      if bool_decide (pc th = Idle) && (0 <=? i) && (i <? n_elems A)
      then Some (s <| threads ::= insert t (begin_access i th) |>) else None
  | Step t => th ← threads s !! t; thread_step s t th
  | Converge w active =>
      if converged w active (threads s) then Some (s <| threads ::= match_step w active |>) else None
  end.

Fixpoint pf_run (s : pf_state) (ms : list pf_move) : option pf_state :=
  match ms with
  | [] => Some s
  | m :: ms => s ← pf_step s m; pf_run s ms
  end.

(** No kernel runs yet. *)
Definition pf_start (ws : list Z) : pf_state := mk_pf ws [] 0 [].

End Array.

(** ** Addresses and pages *)

(** The array and the page after it do not wrap around, and pages have at least
    512 bytes. *)
Record array_ok (A : array_t) : Prop := {
  ok_ptr : 0 <= ptr A;
  ok_elems : 0 <= n_elems A;
  ok_size : 0 < elem_size A;
  ok_shift : 9 <= page_shift A;
  ok_end : ptr A + n_elems A * elem_size A + 2 ^ page_shift A <= 2 ^ 64;
}.

Section Pages.
  Context (A : array_t) (HA : array_ok A).

Let pb := 2 ^ page_shift A.

Lemma page_bytes_bound : 512 <= pb /\ page_shift A <= 64 /\ pb < 2 ^ 64 + 1.
Proof.
  destruct HA as [H1 H2 H3 H4 H5]. unfold pb. change 512 with (2 ^ 9).
  assert (2 ^ 9 <= 2 ^ page_shift A) by (apply Z.pow_le_mono_r; lia).
  assert (0 <= n_elems A * elem_size A) by lia.
  split; [done|]. split; [|lia]. apply (Z.pow_le_mono_r_iff 2); lia.
Qed.

Lemma ptr_aligned_eq : ptr_aligned A = ptr A - ptr A mod pb.
Proof.
  destruct HA as [H1 H2 H3 H4 H5]. pose proof page_bytes_bound as (B1 & B2 & B3). fold pb in H5.
  unfold ptr_aligned. rewrite Z.shiftl_1_l. apply align_down_spec; nia.
Qed.

Lemma end_addr_eq : end_addr A = ptr A + n_elems A * elem_size A.
Proof.
  destruct HA as [H1 H2 H3 H4 H5]. pose proof page_bytes_bound as (B1 & B2 & B3). fold pb in H5.
  unfold end_addr. rewrite !wrap_id by (unfold in_width; rewrite ?wrap_id; unfold in_width; nia). done.
Qed.

Lemma n_pages_eq : n_pages A = (end_addr A - ptr_aligned A + pb - 1) / pb.
Proof.
  destruct HA as [H1 H2 H3 H4 H5]. pose proof page_bytes_bound as (B1 & B2 & B3). fold pb in H5.
  unfold n_pages, prefault_page_count. fold (end_addr A) (ptr_aligned A).
  rewrite Z.shiftl_1_l. fold pb. rewrite Z.shiftr_div_pow2 by lia. fold pb. f_equal.
  apply wrap_id. unfold in_width. rewrite end_addr_eq, ptr_aligned_eq.
  pose proof (Z.mod_pos_bound (ptr A) pb). pose proof (Z.mod_le (ptr A) pb). nia.
Qed.

Lemma n_pages_bound : 0 <= n_pages A <= 2 ^ 55.
Proof.
  destruct HA as [H1 H2 H3 H4 H5]. pose proof page_bytes_bound as (B1 & B2 & B3). fold pb in H5.
  rewrite n_pages_eq, end_addr_eq, ptr_aligned_eq.
  pose proof (Z.mod_pos_bound (ptr A) pb). pose proof (Z.mod_le (ptr A) pb).
  split; [apply Z.div_pos; nia|]. apply Z.div_le_upper_bound; nia.
Qed.

Lemma page_of_eq i : 0 <= i < n_elems A -> page_of A i = (ptr A + i * elem_size A - ptr_aligned A) / pb.
Proof.
  intros Hi. destruct HA as [H1 H2 H3 H4 H5]. pose proof page_bytes_bound as (B1 & B2 & B3). fold pb in H5.
  unfold page_of. rewrite Z.shiftr_div_pow2 by lia. fold pb. f_equal.
  assert (i * elem_size A <= n_elems A * elem_size A) by nia.
  rewrite ptr_aligned_eq. pose proof (Z.mod_pos_bound (ptr A) pb). pose proof (Z.mod_le (ptr A) pb).
  rewrite !wrap_id by (unfold in_width; rewrite ?wrap_id; unfold in_width; nia). done.
Qed.

Lemma page_of_bound i : 0 <= i < n_elems A -> 0 <= page_of A i < n_pages A.
Proof.
  intros Hi. rewrite page_of_eq, n_pages_eq by done. destruct HA as [H1 H2 H3 H4 H5].
  pose proof page_bytes_bound as (B1 & B2 & B3). rewrite end_addr_eq, ptr_aligned_eq.
  pose proof (Z.mod_pos_bound (ptr A) pb). pose proof (Z.mod_le (ptr A) pb).
  split; [apply Z.div_pos; nia|].
  apply Z.div_lt_upper_bound; [lia|]. pose proof (Z.mul_succ_div_gt (ptr A + n_elems A * elem_size A - (ptr A - ptr A mod pb) + pb - 1) pb).
  assert (i * elem_size A + elem_size A <= n_elems A * elem_size A) by nia. lia.
Qed.

(** The page an address of the array is on. *)
Definition addr_page (a : Z) : Z := (a - ptr_aligned A) / pb.

Lemma touch_addr_in_page p : 0 < n_elems A -> 0 <= p < n_pages A ->
  ptr A <= pf_touch_addr A p < end_addr A /\ addr_page (pf_touch_addr A p) = p.
Proof.
  intros Hn Hp. destruct HA as [H1 H2 H3 H4 H5]. pose proof page_bytes_bound as (B1 & B2 & B3). fold pb in H5.
  pose proof (Z.mod_pos_bound (ptr A) pb ltac:(lia)) as M1. pose proof (Z.mod_le (ptr A) pb ltac:(lia) ltac:(lia)) as M2.
  pose proof ptr_aligned_eq as Ea. pose proof end_addr_eq as Ee.
  assert (p * pb < end_addr A - ptr_aligned A) as Hlt.
  { destruct Hp as [_ Hp]. rewrite n_pages_eq in Hp.
    pose proof (Z.mul_div_le (end_addr A - ptr_aligned A + pb - 1) pb). nia. }
  unfold pf_touch_addr. rewrite Z.shiftl_mul_pow2 by lia. fold pb.
  rewrite !wrap_id by (unfold in_width; rewrite ?wrap_id; unfold in_width; nia).
  unfold addr_page. destruct (Z.ltb_spec (ptr_aligned A + p * pb) (ptr A)).
  - assert (p = 0) as -> by nia. split; [|apply Z.div_small; lia]. split; [lia|]. nia.
  - split; [lia|]. replace (ptr_aligned A + p * pb - ptr_aligned A) with (p * pb) by lia. apply Z.div_mul. lia.
Qed.

Lemma pf_nblks_eq : pf_nblks (n_pages A) = (n_pages A + 511) / 512.
Proof.
  pose proof n_pages_bound. unfold pf_nblks. change PF_BLK_PAGES with 512.
  rewrite wrap_id by (unfold in_width; lia). f_equal. lia.
Qed.

Lemma blk_bound p : 0 <= p < n_pages A -> 0 <= Z.shiftr p PF_BLK_SHIFT < pf_nblks (n_pages A).
Proof.
  intros Hp. rewrite pf_nblks_eq, Z.shiftr_div_pow2 by (unfold PF_BLK_SHIFT; lia). change (2 ^ PF_BLK_SHIFT) with 512.
  split; [apply Z.div_pos; lia|]. apply Z.div_lt_upper_bound; [lia|].
  pose proof (Z.mul_succ_div_gt (n_pages A + 511) 512). lia.
Qed.

Lemma blk_not_hint p : 0 <= p < n_pages A -> Z.shiftr p PF_BLK_SHIFT <> no_hint /\ p <> no_hint.
Proof.
  intros Hp. pose proof (blk_bound p Hp) as Hb. rewrite pf_nblks_eq in Hb. pose proof n_pages_bound.
  unfold no_hint. assert ((n_pages A + 511) / 512 <= n_pages A + 511) by (apply Z.div_le_upper_bound; lia). lia.
Qed.

End Pages.

(** ** Words *)

Lemma word_set ws k v j : 0 <= k < Z.of_nat (length ws) -> 0 <= j ->
  word (set_word k v ws) j = if j =? k then v else word ws j.
Proof.
  intros Hk Hj. unfold word, set_word. rewrite !nth_lookup.
  destruct (Z.eqb_spec j k) as [->|Hn].
  - rewrite list_lookup_insert_eq by lia. done.
  - rewrite list_lookup_insert_ne by lia. done.
Qed.

Lemma length_set_word k v ws : length (set_word k v ws) = length ws.
Proof. apply length_insert. Qed.

Lemma elem_of_insert_cases {B} (l : list B) t x y : y ∈ <[t := x]> l -> y = x \/ y ∈ l.
Proof.
  intros [k Hk]%list_elem_of_lookup. apply list_lookup_insert_Some in Hk as [(_ & <- & _)|(_ & Hk)]; [by left|].
  right. by apply list_elem_of_lookup_2 in Hk.
Qed.

(** ** The match of a warp *)

Lemma land_bit a l : 0 <= l -> (Z.land a (Z.shiftl 1 l) =? 0) = negb (Z.testbit a l).
Proof.
  intros Hl. rewrite Z.shiftl_1_l. destruct (Z.testbit a l) eqn:Ht; simpl.
  - apply Z.eqb_neq. intros He. assert (Z.testbit (Z.land a (2 ^ l)) l = true) as Hx
      by (rewrite Z.land_spec, Ht, Z.pow2_bits_true; done). by rewrite He, Z.bits_0 in Hx.
  - apply Z.eqb_eq. apply Z.bits_inj'. intros k Hk. rewrite Z.land_spec, Z.bits_0.
    destruct (decide (k = l)) as [->|Hne]; [by rewrite Ht|]. by rewrite Z.pow2_bits_false, andb_false_r by lia.
Qed.

Lemma match_lanes_spec k l active value shfl m j : 0 <= l -> 0 <= j ->
  Z.testbit (match_lanes k l active value shfl m) j =
  Z.testbit m j || ((l <=? j) && (j <? l + Z.of_nat k) && Z.testbit active j && (shfl j =? value)).
Proof.
  intros Hl Hj. revert l m Hl. induction k as [|k IH]; intros l m Hl; cbn [match_lanes].
  - destruct (Z.leb_spec l j), (Z.ltb_spec j (l + Z.of_nat 0)); try lia; simpl; by rewrite orb_false_r.
  - rewrite IH by lia. rewrite land_bit by done.
    assert (Z.testbit (if negb (Z.testbit active l) then m else if shfl l =? value then Z.lor m (Z.shiftl 1 l) else m) j =
      Z.testbit m j || ((j =? l) && Z.testbit active j && (shfl j =? value))) as ->.
    { rewrite Z.shiftl_1_l. destruct (Z.eqb_spec j l) as [->|Hne]; simpl.
      - destruct (Z.testbit active l); simpl; [|by rewrite orb_false_r]. destruct (shfl l =? value); [|by rewrite orb_false_r].
        by rewrite Z.lor_spec, Z.pow2_bits_true.
      - rewrite orb_false_r. destruct (Z.testbit active l); simpl; [|done]. destruct (shfl l =? value); [|done].
        by rewrite Z.lor_spec, Z.pow2_bits_false, orb_false_r by lia. }
    rewrite <- orb_assoc. f_equal. destruct (Z.eqb_spec j l) as [->|Hne].
    + rewrite Z.leb_refl, (proj2 (Z.leb_gt (l + 1) l)), (proj2 (Z.ltb_lt l (l + Z.of_nat (S k)))) by lia.
      simpl. by rewrite orb_false_r.
    + rewrite !andb_false_l, orb_false_l. f_equal. f_equal.
      destruct (Z.leb_spec (l + 1) j), (Z.leb_spec l j), (Z.ltb_spec j (l + 1 + Z.of_nat k)),
        (Z.ltb_spec j (l + Z.of_nat (S k))); try done; lia.
Qed.

Lemma warp_match_spec active value shfl j : 0 <= j ->
  Z.testbit (pf_warp_match_any_u64 active value shfl) j = true <->
  j < 32 /\ Z.testbit active j = true /\ shfl j = value.
Proof.
  intros Hj. unfold pf_warp_match_any_u64. rewrite match_lanes_spec, Z.bits_0 by lia. simpl.
  rewrite !andb_true_iff, Z.eqb_eq, Z.leb_le, Z.ltb_lt. naive_solver lia.
Qed.

Lemma ffs_from_spec k l x j : 0 <= l -> l <= j < l + Z.of_nat k -> Z.testbit x j = true ->
  l <= ffs_from k l x - 1 < l + Z.of_nat k /\ Z.testbit x (ffs_from k l x - 1) = true.
Proof.
  revert l. induction k as [|k IH]; intros l Hl Hj Hx; simpl; [lia|].
  destruct (Z.testbit x l) eqn:Hb.
  - replace (l + 1 - 1) with l by lia. split; [lia|done].
  - assert (l <> j) by (intros ->; congruence). destruct (IH (l + 1)) as [H1 H2]; [lia|lia|done|]. split; [lia|done].
Qed.

Lemma lane_id_mod t : pf_lane_id t = Z.of_nat (t mod 32).
Proof.
  unfold pf_lane_id. change 31 with (2 ^ 5 - 1). rewrite land_mask_mod by lia.
  rewrite Nat2Z.inj_mod. done.
Qed.

(** ** The invariant *)

Definition owning (c : pc_t) : bool := match c with Win | Touch | Publish => true | _ => false end.
Definition adding (c : pc_t) : bool := match c with AddBlk | AddPub => true | _ => false end.
Definition busy (c : pc_t) : bool := match c with New | Idle => false | _ => true end.
Definition past_ready (c : pc_t) : bool := match c with AddBlk | AddPub | SetAll | Access => true | _ => false end.

(** Threads that take no part in the counts. *)
Definition passive (c : pc_t) : bool := negb (owning c) && negb (adding c) && negb (bool_decide (c = SetAll)).

Section Inv.
  Context (A : array_t) (HA : array_ok A).

  Abbreviation n := (n_pages A).
  Abbreviation pages := (seqZ 0 n).
  Abbreviation in_range p := (0 <= p < n).
  Abbreviation blk_of p := (Z.shiftr p PF_BLK_SHIFT).

Definition all_ready (ws : list Z) : Prop := forall p, in_range p -> word ws p = PF_READY.

Definition count_pages (f : Z -> bool) : Z := sumz (fun p => Z.b2z (f p)) pages.
Definition count_threads (f : thread_t -> bool) (ths : list thread_t) : Z := sumz (fun th => Z.b2z (f th)) ths.

Definition owns (p : Z) (th : thread_t) : bool := owning (pc th) && (page A th =? p).
Definition unpublished (p : Z) (th : thread_t) : bool := bool_decide (pc th = Publish) && (page A th =? p).
Definition adds_blk (b : Z) (th : thread_t) : bool := bool_decide (pc th = AddBlk) && (blk A th =? b).
Definition adds_pub (th : thread_t) : bool := adding (pc th).
Definition won (th : thread_t) : bool := bool_decide (pc th = Win).

Definition setting (th : thread_t) : bool := bool_decide (pc th = SetAll).

Definition touches (p : Z) (l : list Z) : Z := sumz (fun a => Z.b2z (addr_page A a =? p)) l.

(** What a thread relies on; the hints are only trusted when they are right. *)
Record thread_ok (ws : list Z) (th : thread_t) : Prop := {
  tk_page : in_range (last_page th) -> word ws (last_page th) = PF_READY;
  tk_blk : forall p, in_range p -> blk_of p = last_blk th -> word ws p = PF_READY;
  tk_checks : checks th = false -> all_ready ws;
  tk_elem : busy (pc th) = true -> 0 <= elem th < n_elems A;
  tk_past : past_ready (pc th) = true -> word ws (page A th) = PF_READY;
  tk_all : pc th = SetAll -> all_ready ws;
}.

(** A thread that spins on an unclaimed page waits for one that is about to claim
    it. *)
Definition spin_ok (ws : list Z) (ths : list thread_t) : Prop :=
  forall th, th ∈ ths -> pc th = Spin -> word ws (page A th) = PF_UNKNOWN ->
    exists th', th' ∈ ths /\ pc th' = Cas /\ page A th' = page A th.

Record pf_inv (s : pf_state) : Prop := {
  iv_len : Z.of_nat (length (words s)) = n + pf_nblks n + 2;
  iv_width : Forall (in_width 32) (words s);
  iv_status : forall p, in_range p -> 0 <= word (words s) p <= 2;
  iv_owner : forall p, in_range p ->
    count_threads (owns p) (threads s) = Z.b2z (word (words s) p =? PF_PENDING);
  iv_blk : forall b, 0 <= b < pf_nblks n ->
    word (words s) (pf_blk_cnt n + b) + count_threads (adds_blk b) (threads s) =
    512 - count_pages (fun p => blk_of p =? b) +
    count_pages (fun p => (word (words s) p =? PF_READY) && (blk_of p =? b));
  iv_pub : n < 2 ^ 32 ->
    word (words s) (pf_published n) + count_threads adds_pub (threads s) =
    count_pages (fun p => word (words s) p =? PF_READY);
  iv_all : word (words s) (pf_all_resident n) <> 0 -> all_ready (words s);
  iv_set : 0 < n < 2 ^ 32 -> word (words s) (pf_published n) = n ->
    word (words s) (pf_all_resident n) <> 0 \/ 0 < count_threads setting (threads s);
  iv_touch : forall p, in_range p ->
    touches p (touched s) = Z.b2z (word (words s) p =? PF_READY) + count_threads (unpublished p) (threads s);
  iv_addrs : Forall (fun a => ptr A <= a < end_addr A) (touched s);
  iv_wins : cas_wins s + count_threads won (threads s) = count_pages (fun p => negb (word (words s) p =? PF_UNKNOWN));
  iv_wins_pos : 0 <= cas_wins s;
  iv_threads : Forall (thread_ok (words s)) (threads s);
  iv_spin : spin_ok (words s) (threads s);
}.

Lemma page_range ws th : thread_ok ws th -> busy (pc th) = true -> in_range (page A th).
Proof. intros Hth Hb. apply page_of_bound; [done|]. exact (tk_elem _ _ Hth Hb). Qed.

Lemma count_threads_insert f ths t th th' :
  ths !! t = Some th -> count_threads f (<[t := th']> ths) = count_threads f ths - Z.b2z (f th) + Z.b2z (f th').
Proof. intros Ht. unfold count_threads. by rewrite (sumz_insert _ _ _ th). Qed.

Lemma count_threads_nonneg f ths : 0 <= count_threads f ths.
Proof. apply sumz_nonneg. intros th _. destruct (f th); simpl; lia. Qed.

Lemma count_pages_ext f g : (forall p, in_range p -> f p = g p) -> count_pages f = count_pages g.
Proof. intros Hfg. apply sumz_ext. intros p Hp%elem_of_seqZ. by rewrite Hfg by lia. Qed.

Lemma count_pages_le f g : (forall p, in_range p -> f p = true -> g p = true) -> count_pages f <= count_pages g.
Proof.
  intros Hfg. apply sumz_le. intros p Hp%elem_of_seqZ. specialize (Hfg p ltac:(lia)).
  destruct (f p), (g p); simpl; lia.
Qed.

Lemma count_pages_point f g p : in_range p -> (forall q, in_range q -> q <> p -> f q = g q) ->
  count_pages g = count_pages f - Z.b2z (f p) + Z.b2z (g p).
Proof.
  intros Hp Hfg. apply (sumz_point (fun q => Z.b2z (f q)) (fun q => Z.b2z (g q)) _ p).
  - apply NoDup_seqZ.
  - apply elem_of_seqZ. lia.
  - intros q Hq%elem_of_seqZ Hne. rewrite Hfg; [done|lia|done].
Qed.

Lemma count_pages_tight f g p :
  (forall q, in_range q -> f q = true -> g q = true) -> count_pages g <= count_pages f ->
  in_range p -> g p = true -> f p = true.
Proof.
  intros Hfg Hle Hp Hg. assert (Z.b2z (f p) = Z.b2z (g p)) as He.
  { apply (sumz_tight (fun q => Z.b2z (f q)) (fun q => Z.b2z (g q)) pages); [|done|apply elem_of_seqZ; lia].
    intros q Hq%elem_of_seqZ. specialize (Hfg q ltac:(lia)). destruct (f q), (g q); simpl; lia. }
  rewrite Hg in He. by destruct (f p).
Qed.

Lemma count_pages_all : count_pages (fun _ => true) = n.
Proof.
  pose proof (n_pages_bound A HA) as [Hn _]. unfold count_pages.
  assert (forall l : list Z, sumz (fun _ => Z.b2z true) l = Z.of_nat (length l)) as ->.
  { induction l as [|x l IH]; [done|]. rewrite sumz_cons, IH. simpl. lia. }
  rewrite length_seqZ. lia.
Qed.

(** When a block counter is full, every page of the block is ready. *)
Lemma full_block ws b k : 0 <= k ->
  512 <= word ws (pf_blk_cnt n + b) ->
  word ws (pf_blk_cnt n + b) + k =
    512 - count_pages (fun p => blk_of p =? b) +
    count_pages (fun p => (word ws p =? PF_READY) && (blk_of p =? b)) ->
  forall p, in_range p -> blk_of p = b -> word ws p = PF_READY.
Proof.
  intros Hk Hf He p Hp Hb. apply Z.eqb_eq.
  assert ((word ws p =? PF_READY) && (blk_of p =? b) = true) as [? _]%andb_prop; [|done].
  apply (count_pages_tight (fun p => (word ws p =? PF_READY) && (blk_of p =? b)) (fun p => blk_of p =? b)).
  - by intros q _ [_ ?]%andb_prop.
  - lia.
  - done.
  - by apply Z.eqb_eq.
Qed.

(** ** Moves that only change threads *)

Lemma thread_ok_mono ws ws' th :
  (forall p, in_range p -> word ws p = PF_READY -> word ws' p = PF_READY) -> thread_ok ws th -> thread_ok ws' th.
Proof.
  intros Hm [K1 K2 K3 K4 K5 K6]. split; try done.
  - intros Hp. apply Hm; [done|]. by apply K1.
  - intros p Hp Hb. apply Hm; [done|]. by apply K2.
  - intros Hc p Hp. apply Hm; [done|]. by apply K3.
  - intros Hc. apply Hm; [|by apply K5].
    apply page_of_bound; [done|]. apply K4. destruct (pc th); try done.
  - intros Hc p Hp. apply Hm; [done|]. by apply K6.
Qed.

Lemma count_passive f ths ths' :
  (forall th, passive (pc th) = true -> f th = false) ->
  Forall2 (fun th th' => th = th' \/ (passive (pc th) = true /\ passive (pc th') = true)) ths ths' ->
  count_threads f ths = count_threads f ths'.
Proof.
  intros Hf Hths. apply sumz_Forall2. eapply Forall2_impl; [exact Hths|].
  intros th th' [->|[H1 H2]]; [done|]. simpl. by rewrite !Hf.
Qed.

Lemma passive_counts th : passive (pc th) = true ->
  (forall p, owns p th = false) /\ (forall p, unpublished p th = false) /\ (forall b, adds_blk b th = false) /\
  adds_pub th = false /\ won th = false /\ setting th = false.
Proof.
  unfold owns, unpublished, adds_blk, adds_pub, won, setting. destruct (pc th); try done; intros _; repeat split; done.
Qed.

Lemma inv_passive s ths' : pf_inv s ->
  Forall2 (fun th th' => th = th' \/ (passive (pc th) = true /\ passive (pc th') = true)) (threads s) ths' ->
  Forall (thread_ok (words s)) ths' -> spin_ok (words s) ths' ->
  pf_inv (s <| threads := ths' |>).
Proof.
  intros [I1 I2 I3 I4 I5 I6 I7 IS I8 I9 I10 I11 I12 I13] Hths Hok Hspin. unfold upd. split; simpl; try done.
  - intros p Hp. rewrite <- (count_passive _ (threads s)); [by apply I4| |done]. intros. by apply passive_counts.
  - intros b Hb. rewrite <- (count_passive _ (threads s)); [by apply I5| |done]. intros. by apply passive_counts.
  - intros Hn. rewrite <- (count_passive _ (threads s)); [by apply I6| |done]. intros. by apply passive_counts.
  - intros Hn. rewrite <- (count_passive _ (threads s)); [by apply IS| |done]. intros. by apply passive_counts.
  - intros p Hp. rewrite <- (count_passive _ (threads s)); [by apply I8| |done]. intros. by apply passive_counts.
  - rewrite <- (count_passive _ (threads s)); [by apply I10| |done]. intros. by apply passive_counts.
Qed.

Lemma Forall2_insert_same {B} (R : B -> B -> Prop) (l : list B) t x y :
  (forall z, R z z) -> l !! t = Some x -> R x y -> Forall2 R l (<[t := y]> l).
Proof.
  intros Hr Ht Hxy. rewrite <- (list_insert_id l t x Ht) at 1. apply Forall2_insert; [|done].
  by apply Forall_Forall2_diag, Forall_true.
Qed.

(** A thread moves on; its place is only given up by a claim. *)
Lemma spin_ok_insert ws ws' ths t th th' :
  spin_ok ws ths -> Forall (thread_ok ws) ths -> ths !! t = Some th ->
  (forall p, in_range p -> word ws' p = PF_UNKNOWN -> word ws p = PF_UNKNOWN) ->
  (pc th = Cas -> word ws' (page A th) <> PF_UNKNOWN) ->
  (pc th' = Spin -> word ws' (page A th') <> PF_UNKNOWN) ->
  spin_ok ws' (<[t := th']> ths).
Proof.
  intros Hs Hok Ht Hw Hcas Hnew x Hx Hpc Hu.
  apply elem_of_insert_cases in Hx as [->|Hx]; [by specialize (Hnew Hpc)|].
  assert (in_range (page A x)) as Hr.
  { apply (page_range ws); [by apply (proj1 (Forall_forall _ _) Hok)|by rewrite Hpc]. }
  destruct (Hs x Hx Hpc) as (y & Hy & Hyc & Hyp); [by apply Hw|].
  apply list_elem_of_lookup in Hy as [k Hk]. destruct (decide (k = t)) as [->|Hne].
  - rewrite Ht in Hk. injection Hk as <-. specialize (Hcas Hyc). by rewrite Hyp in Hcas.
  - exists y. split; [|done]. apply (list_elem_of_lookup_2 _ k). by rewrite list_lookup_insert_ne.
Qed.

Lemma inv_goto s t th th' : pf_inv s -> threads s !! t = Some th ->
  passive (pc th) = true -> passive (pc th') = true -> thread_ok (words s) th' ->
  (pc th = Cas -> word (words s) (page A th) <> PF_UNKNOWN) ->
  (pc th' = Spin -> word (words s) (page A th') <> PF_UNKNOWN) ->
  pf_inv (s <| threads ::= insert t th' |>).
Proof.
  intros Hi Ht H1 H2 Hok Hc Hs. pose proof (iv_threads _ Hi) as Hall. apply (inv_passive s (<[t := th']> (threads s)) Hi).
  - apply (Forall2_insert_same _ _ _ th); auto.
  - by apply Forall_insert.
  - by apply (spin_ok_insert (words s) _ _ _ th); try done; apply Hi.
Qed.

(** ** Claiming, touching and publishing a page *)

Lemma nblks_nonneg : 0 <= pf_nblks n.
Proof. rewrite (pf_nblks_eq A HA). pose proof (n_pages_bound A HA). apply Z.div_pos; lia. Qed.

Lemma word_set_inv s k v j : pf_inv s -> 0 <= k < n + pf_nblks n + 2 -> 0 <= j ->
  word (set_word k v (words s)) j = if j =? k then v else word (words s) j.
Proof. intros Hi Hk Hj. apply word_set; [|done]. rewrite (iv_len _ Hi). lia. Qed.

Lemma width_set ws k v : Forall (in_width 32) ws -> in_width 32 v -> Forall (in_width 32) (set_word k v ws).
Proof. apply Forall_insert. Qed.

Lemma word_width s k : pf_inv s -> in_width 32 (word (words s) k).
Proof.
  intros Hi. unfold word. destruct (nth_in_or_default (Z.to_nat k) (words s) 0) as [Hin| ->]; [|done].
  apply (proj1 (Forall_forall _ _) (iv_width _ Hi)). by apply list_elem_of_In.
Qed.

(** The status word of a page that is not ready is written. *)
Lemma inv_status_words s p v : pf_inv s -> in_range p -> word (words s) p <> PF_READY ->
  let ws := set_word p v (words s) in
  (forall q, q <> p -> 0 <= q -> word ws q = word (words s) q) /\ word ws p = v /\
  Z.of_nat (length ws) = n + pf_nblks n + 2 /\
  (forall f, count_pages (fun q => (word ws q =? PF_READY) && f q) =
    count_pages (fun q => (word (words s) q =? PF_READY) && f q) + Z.b2z ((v =? PF_READY) && f p)) /\
  (forall th, thread_ok (words s) th -> thread_ok ws th).
Proof.
  intros Hi Hp Hn ws. pose proof nblks_nonneg.
  assert (forall q, 0 <= q -> word ws q = if q =? p then v else word (words s) q) as Hw.
  { intros q Hq. apply word_set_inv; [done|lia|done]. }
  assert (word ws p = v) as Hwp by (rewrite Hw, Z.eqb_refl by lia; done).
  split; [|split; [|split; [|split]]].
  - intros q Hq H0. rewrite Hw by done. by destruct (Z.eqb_spec q p).
  - done.
  - unfold ws. rewrite length_set_word. apply (iv_len _ Hi).
  - intros f. set (f1 := fun q => (word (words s) q =? PF_READY) && f q).
    assert (f1 p = false) as Hf1 by (unfold f1; by destruct (Z.eqb_spec (word (words s) p) PF_READY)).
    rewrite (count_pages_ext _ (fun q => if q =? p then (v =? PF_READY) && f p else f1 q)).
    + rewrite (count_pages_point f1 _ p Hp).
      * rewrite Z.eqb_refl, Hf1. simpl. lia.
      * intros q _ Hq. by destruct (Z.eqb_spec q p).
    + intros q Hq. rewrite Hw by lia. unfold f1. by destruct (Z.eqb_spec q p) as [->|].
  - intros th. apply thread_ok_mono. intros q Hq Hr. rewrite Hw by lia. destruct (Z.eqb_spec q p) as [->|]; done.
Qed.

Lemma count_ready_all s p v : pf_inv s -> in_range p -> word (words s) p <> PF_READY ->
  count_pages (fun q => word (set_word p v (words s)) q =? PF_READY) =
  count_pages (fun q => word (words s) q =? PF_READY) + Z.b2z (v =? PF_READY).
Proof.
  intros Hi Hp Hn. destruct (inv_status_words s p v Hi Hp Hn) as (_ & _ & _ & Hc & _).
  specialize (Hc (fun _ => true)). rewrite andb_true_r in Hc.
  rewrite (count_pages_ext _ (fun q => (word (set_word p v (words s)) q =? PF_READY) && true)) by (intros; by rewrite andb_true_r).
  rewrite Hc. f_equal. apply count_pages_ext. intros. by rewrite andb_true_r.
Qed.

Lemma thread_ok_pc ws th c : thread_ok ws th -> busy (pc th) = true ->
  (past_ready c = true -> word ws (page A th) = PF_READY) -> (c = SetAll -> all_ready ws) ->
  thread_ok ws (th <| pc := c |>).
Proof. intros [K1 K2 K3 K4 K5 K6] Hb Hp Ha. unfold upd. split; simpl; try done. intros _. by apply K4. Qed.

Lemma thread_at s t th : pf_inv s -> threads s !! t = Some th -> thread_ok (words s) th.
Proof. intros Hi Ht. exact (Forall_lookup_1 _ _ _ _ (iv_threads _ Hi) Ht). Qed.

Lemma owns_pc q th c : owns q (th <| pc := c |>) = owning c && (page A th =? q).
Proof. done. Qed.

Lemma owner_pending s t th : pf_inv s -> threads s !! t = Some th -> owning (pc th) = true ->
  word (words s) (page A th) = PF_PENDING.
Proof.
  intros Hi Ht Hpc. pose proof (thread_at s t th Hi Ht) as Hth.
  assert (in_range (page A th)) as Hp by (apply (page_range _ _ Hth); by destruct (pc th)).
  pose proof (iv_owner _ Hi _ Hp) as Ho. apply Z.eqb_eq. destruct (word _ _ =? _); [done|].
  assert (Z.b2z (owns (page A th) th) <= count_threads (owns (page A th)) (threads s)) as Hle.
  { apply (sumz_elem_le (fun x => Z.b2z (owns (page A th) x))); [|by apply list_elem_of_lookup_2 in Ht].
    intros x _. destruct (owns _ x); simpl; lia. }
  unfold owns at 1 in Hle. rewrite Hpc, Z.eqb_refl in Hle. simpl in *. lia.
Qed.

(** The steps that write the status of a page: the old status, the new one, and
    where the thread is before and after. *)
Definition status_step (c c' : pc_t) (v v' : Z) : Prop :=
  (c = Cas /\ c' = Win /\ v = PF_UNKNOWN /\ v' = PF_PENDING) \/
  (c = Publish /\ c' = AddBlk /\ v = PF_PENDING /\ v' = PF_READY).

Lemma inv_status_step s t th c v : pf_inv s -> threads s !! t = Some th ->
  status_step (pc th) c (word (words s) (page A th)) v ->
  pf_inv (goto t th c (s <| words ::= set_word (page A th) v |>)).
Proof.
  intros Hi Ht Hs. pose proof (thread_at s t th Hi Ht) as Hth.
  assert (busy (pc th) = true) as Hb by (by destruct Hs as [(-> & _)|(-> & _)]).
  pose proof (page_range _ _ Hth Hb) as Hp.
  assert (word (words s) (page A th) <> PF_READY) as Hn by (by destruct Hs as [(_ & _ & -> & _)|(_ & _ & -> & _)]).
  destruct (inv_status_words s (page A th) v Hi Hp Hn) as (Hw & Hwp & Hl & Hc & Hok).
  pose proof (count_ready_all s (page A th) v Hi Hp Hn) as Hr. pose proof nblks_nonneg as Hnb.
  destruct Hi as [I1 I2 I3 I4 I5 I6 I7 IS I8 I9 I10 I11 I12 I13].
  assert (Forall (thread_ok (set_word (page A th) v (words s))) (threads s)) as Hall
    by (eapply Forall_impl; [exact I12|exact Hok]).
  unfold goto. split; unfold upd; cbn [words touched cas_wins threads].
  - done.
  - apply width_set; [done|]. by destruct Hs as [(_ & _ & _ & ->)|(_ & _ & _ & ->)].
  - intros q Hq. destruct (decide (q = page A th)) as [->|Hne]; [|rewrite Hw by lia; by apply I3].
    rewrite Hwp. by destruct Hs as [(_ & _ & _ & ->)|(_ & _ & _ & ->)].
  - intros q Hq. rewrite (count_threads_insert _ _ _ th), I4 by done. unfold owns in *; simpl.
    change (page A (mk_thread _ _ _ _ _)) with (page A th). destruct (Z.eqb_spec (page A th) q) as [<-|Hne].
    + rewrite Hwp. by destruct Hs as [(-> & -> & -> & ->)|(-> & -> & -> & ->)].
    + rewrite Hw, !andb_false_r by lia. simpl. lia.
  - intros b Hbr. rewrite (count_threads_insert _ _ _ th), Hc by done. unfold adds_blk, blk in *; simpl.
    change (page A (mk_thread _ _ _ _ _)) with (page A th). rewrite Hw by (unfold pf_blk_cnt; lia). specialize (I5 b Hbr).
    destruct Hs as [(-> & -> & _ & ->)|(-> & -> & _ & ->)]; simpl; lia.
  - intros Hn32. rewrite (count_threads_insert _ _ _ th), Hr by done. unfold adds_pub in *; simpl.
    rewrite Hw by (unfold pf_published, pf_all_resident; lia). specialize (I6 Hn32).
    destruct Hs as [(-> & -> & _ & ->)|(-> & -> & _ & ->)]; simpl; lia.
  - rewrite Hw by (unfold pf_all_resident; lia). intros Ha. specialize (I7 Ha (page A th) Hp). by rewrite I7 in Hn.
  - intros Hn32. rewrite !Hw by (unfold pf_published, pf_all_resident; lia). rewrite (count_threads_insert _ _ _ th) by done.
    unfold setting at 2 3; simpl. destruct Hs as [(-> & -> & _)|(-> & -> & _)]; simpl; rewrite Z.sub_0_r, Z.add_0_r; by apply IS.
  - intros q Hq. rewrite (count_threads_insert _ _ _ th), I8 by done. unfold unpublished in *; simpl.
    change (page A (mk_thread _ _ _ _ _)) with (page A th). destruct (Z.eqb_spec (page A th) q) as [<-|Hne].
    + rewrite Hwp. destruct Hs as [(-> & -> & -> & ->)|(-> & -> & -> & ->)]; simpl; lia.
    + rewrite Hw, !andb_false_r by lia. simpl. lia.
  - done.
  - rewrite (count_threads_insert _ _ _ th) by done. unfold won in *; simpl.
    rewrite (count_pages_point (fun q => negb (word (words s) q =? PF_UNKNOWN)) _ (page A th) Hp).
    + rewrite Hwp. destruct Hs as [(-> & -> & -> & ->)|(-> & -> & -> & ->)]; simpl; lia.
    + intros q Hq Hne. by rewrite Hw by lia.
  - done.
  - apply Forall_insert; [done|]. apply (thread_ok_pc _ _ c); [by apply Hok|done|..].
    + rewrite Hwp. by destruct Hs as [(_ & -> & _ & ->)|(_ & -> & _ & ->)].
    + by destruct Hs as [(_ & -> & _)|(_ & -> & _)].
  - apply (spin_ok_insert (words s) _ _ _ th); try done.
    + intros q Hq. destruct (decide (q = page A th)) as [->|Hne]; [|by rewrite Hw by lia].
      rewrite Hwp. by destruct Hs as [(_ & _ & _ & ->)|(_ & _ & _ & ->)].
    + intros _. rewrite Hwp. by destruct Hs as [(_ & _ & _ & ->)|(_ & _ & _ & ->)].
    + simpl. by destruct Hs as [(_ & -> & _)|(_ & -> & _)].
Qed.

(** The steps of the owner that leave the words alone. *)
Lemma inv_own_step s t th c wins l : pf_inv s -> threads s !! t = Some th ->
  owning (pc th) = true -> owning c = true ->
  (wins + count_threads won (<[t := th <| pc := c |>]> (threads s)) = cas_wins s + count_threads won (threads s)) ->
  0 <= wins -> Forall (fun a => ptr A <= a < end_addr A) l ->
  (forall p, in_range p -> touches p l - count_threads (unpublished p) (<[t := th <| pc := c |>]> (threads s)) =
    touches p (touched s) - count_threads (unpublished p) (threads s)) ->
  pf_inv (goto t th c (s <| cas_wins := wins |> <| touched := l |>)).
Proof.
  intros Hi Ht Ho Hc Hwins Hpos Hl Htouch. pose proof (thread_at s t th Hi Ht) as Hth.
  destruct Hi as [I1 I2 I3 I4 I5 I6 I7 IS I8 I9 I10 I11 I12 I13].
  unfold goto. split; unfold upd in *; cbn [words touched cas_wins threads]; try done.
  - intros q Hq. rewrite (count_threads_insert _ _ _ th), I4 by done. unfold owns; simpl.
    change (page A (mk_thread _ _ _ _ _)) with (page A th). rewrite Ho, Hc. lia.
  - intros b Hb. rewrite (count_threads_insert _ _ _ th) by done. unfold adds_blk at 2 3; simpl.
    rewrite !bool_decide_eq_false_2 by (by intros E; rewrite E in *). simpl. rewrite <- I5 by done. lia.
  - intros Hn. rewrite (count_threads_insert _ _ _ th) by done. unfold adds_pub at 2 3; simpl.
    destruct (pc th), c; try done; simpl; rewrite <- I6 by done; lia.
  - intros Hn. rewrite (count_threads_insert _ _ _ th) by done. unfold setting at 2 3; simpl.
    rewrite !bool_decide_eq_false_2 by (by intros E; rewrite E in *). simpl. rewrite Z.sub_0_r, Z.add_0_r. by apply IS.
  - intros p Hp. specialize (Htouch p Hp). rewrite I8 in Htouch by done. lia.
  - lia.
  - apply Forall_insert; [done|]. apply (thread_ok_pc _ _ c Hth).
    + by destruct (pc th).
    + by destruct c.
    + by destruct c.
  - apply (spin_ok_insert (words s) _ _ _ th); try done; [by destruct (pc th)|simpl; by destruct c].
Qed.

Lemma inv_win s t th : pf_inv s -> threads s !! t = Some th -> pc th = Win ->
  pf_inv (goto t th Touch (s <| cas_wins ::= fun k => u64 (k + 1) |>)).
Proof.
  intros Hi Ht Hpc.
  assert (u64 (cas_wins s + 1) = cas_wins s + 1) as Hu.
  { apply wrap_id. unfold in_width. pose proof (iv_wins _ Hi) as Hw. pose proof (iv_wins_pos _ Hi).
    pose proof (count_threads_nonneg won (threads s)). pose proof count_pages_all as Hall.
    assert (count_pages (fun q => negb (word (words s) q =? PF_UNKNOWN)) <= count_pages (fun _ => true))
      by (apply count_pages_le; done). pose proof (n_pages_bound A HA). lia. }
  pose proof (inv_own_step s t th Touch (u64 (cas_wins s + 1)) (touched s) Hi Ht) as Hs.
  unfold upd in *. simpl in *. apply Hs.
  - by rewrite Hpc.
  - done.
  - rewrite (count_threads_insert _ _ _ th), Hu by done. unfold won at 2 3; simpl. rewrite Hpc. simpl. lia.
  - rewrite Hu. pose proof (iv_wins_pos _ Hi). lia.
  - apply Hi.
  - intros p Hp. rewrite (count_threads_insert _ _ _ th) by done. unfold unpublished at 2 3; simpl. rewrite Hpc. simpl. lia.
Qed.

Lemma inv_touch_step s t th : pf_inv s -> threads s !! t = Some th -> pc th = Touch ->
  pf_inv (goto t th Publish (s <| touched ::= pf_touch_page A (page A th) |>)).
Proof.
  intros Hi Ht Hpc. pose proof (thread_at s t th Hi Ht) as Hth.
  assert (busy (pc th) = true) as Hb by (by rewrite Hpc). pose proof (page_range _ _ Hth Hb) as Hp.
  pose proof (tk_elem _ _ Hth Hb) as He.
  destruct (touch_addr_in_page A HA (page A th) ltac:(lia) Hp) as [Ha Hpg].
  assert (pf_touch_page A (page A th) (touched s) = pf_touch_addr A (page A th) :: touched s) as Htp.
  { unfold pf_touch_page. destruct (Z.ltb_spec (pf_touch_addr A (page A th)) (end_addr A)); [done|lia]. }
  pose proof (inv_own_step s t th Publish (cas_wins s) (pf_touch_addr A (page A th) :: touched s) Hi Ht) as Hs.
  unfold upd in *. simpl in *. rewrite Htp. apply Hs.
  - by rewrite Hpc.
  - done.
  - rewrite (count_threads_insert _ _ _ th) by done. unfold won at 2 3; simpl. rewrite Hpc. simpl. lia.
  - apply Hi.
  - constructor; [done|apply Hi].
  - intros q Hq. rewrite (count_threads_insert _ _ _ th) by done. unfold unpublished at 2 3; simpl.
    change (page A (mk_thread _ _ _ _ _)) with (page A th). rewrite Hpc. unfold touches, sumz. simpl. rewrite Hpg. simpl. lia.
Qed.

(** ** The counters *)

Lemma inv_counter s t th c k v : pf_inv s -> threads s !! t = Some th ->
  n <= k < n + pf_nblks n + 2 -> in_width 32 v ->
  owning (pc th) = false -> past_ready (pc th) = true -> owning c = false -> (c = SetAll -> all_ready (words s)) ->
  let ths := <[t := th <| pc := c |>]> (threads s) in
  let w j := if j =? k then v else word (words s) j in
  (forall b, 0 <= b < pf_nblks n -> w (pf_blk_cnt n + b) + count_threads (adds_blk b) ths =
    word (words s) (pf_blk_cnt n + b) + count_threads (adds_blk b) (threads s)) ->
  (n < 2 ^ 32 -> w (pf_published n) + count_threads adds_pub ths =
    word (words s) (pf_published n) + count_threads adds_pub (threads s)) ->
  (w (pf_all_resident n) <> 0 -> all_ready (words s)) ->
  (0 < n < 2 ^ 32 -> w (pf_published n) = n -> w (pf_all_resident n) <> 0 \/ 0 < count_threads setting ths) ->
  pf_inv (goto t th c (s <| words ::= set_word k v |>)).
Proof.
  intros Hi Ht Hk Hv Ho Hpast Hc Hall ths w Hblk Hpub Hres Hset. pose proof (thread_at s t th Hi Ht) as Hth.
  pose proof nblks_nonneg as Hnb. pose proof (n_pages_bound A HA) as Hnp.
  assert (forall j, 0 <= j -> word (set_word k v (words s)) j = w j) as Hw
    by (intros j Hj; apply word_set_inv; [done|lia|done]).
  assert (forall j, in_range j -> word (set_word k v (words s)) j = word (words s) j) as Hp.
  { intros j Hj. rewrite Hw by lia. unfold w. destruct (Z.eqb_spec j k); [lia|done]. }
  assert (forall f : Z -> Z -> bool, count_pages (fun q => f (word (set_word k v (words s)) q) q) = count_pages (fun q => f (word (words s) q) q)) as Hf
    by (intros f; apply count_pages_ext; intros q Hq; by rewrite Hp).
  assert (forall x, thread_ok (words s) x -> thread_ok (set_word k v (words s)) x) as Hok
    by (intros x; apply thread_ok_mono; intros q Hq; by rewrite Hp).
  destruct Hi as [I1 I2 I3 I4 I5 I6 I7 IS I8 I9 I10 I11 I12 I13].
  unfold ths, upd in Hblk, Hpub, Hset. simpl in Hblk, Hpub, Hset. clear ths.
  unfold goto. split; unfold upd; cbn [words touched cas_wins threads]; try done.
  - by rewrite length_set_word.
  - by apply width_set.
  - intros q Hq. rewrite Hp by done. by apply I3.
  - intros q Hq. rewrite (count_threads_insert _ _ _ th), Hp, <- I4 by done.
    unfold owns at 2 3; simpl. rewrite Ho, Hc. simpl. lia.
  - intros b Hb. rewrite Hw by (unfold pf_blk_cnt; lia). rewrite Hblk, I5 by done. f_equal.
    symmetry. apply (Hf (fun x q => (x =? PF_READY) && (blk_of q =? b))).
  - intros Hn. rewrite Hw by (unfold pf_published, pf_all_resident; lia). rewrite Hpub, I6 by done.
    symmetry. apply (Hf (fun x q => x =? PF_READY)).
  - rewrite Hw by (unfold pf_all_resident; lia). intros Ha q Hq. rewrite Hp by done. by apply Hres.
  - rewrite !Hw by (unfold pf_published, pf_all_resident; lia). exact Hset.
  - intros q Hq. rewrite Hp, I8 by done. rewrite (count_threads_insert _ _ _ th) by done.
    unfold unpublished at 3 4; simpl. rewrite !bool_decide_eq_false_2 by (by intros E; rewrite E in *). simpl. lia.
  - rewrite (count_threads_insert _ _ _ th) by done. unfold won at 2 3; simpl.
    rewrite !bool_decide_eq_false_2 by (by intros E; rewrite E in *). rewrite (Hf (fun x q => negb (x =? PF_UNKNOWN))). simpl. lia.
  - apply Forall_insert; [by eapply Forall_impl; [exact I12|exact Hok]|].
    pose proof (tk_past _ _ Hth Hpast) as Hr. apply Hok.
    apply (thread_ok_pc _ _ c Hth); [by destruct (pc th)|by intros _|done].
  - apply (spin_ok_insert (words s) _ _ _ th); try done.
    + intros q Hq. by rewrite Hp.
    + by destruct (pc th).
    + intros _. change (page A (mk_thread _ _ _ _ _)) with (page A th).
      assert (in_range (page A th)) as Hpr by (apply (page_range _ _ Hth); by destruct (pc th)).
      rewrite Hp, (tk_past _ _ Hth Hpast) by done. done.
Qed.

Lemma count_threads_elem f ths t th : ths !! t = Some th -> f th = true -> 1 <= count_threads f ths.
Proof.
  intros Ht Hf. assert (Z.b2z (f th) <= count_threads f ths); [|rewrite Hf in *; done].
  apply (sumz_elem_le (fun x => Z.b2z (f x))); [|by apply list_elem_of_lookup_2 in Ht].
  intros x _. destruct (f x); simpl; lia.
Qed.

Lemma inv_add_blk s t th : pf_inv s -> threads s !! t = Some th -> pc th = AddBlk ->
  let k := pf_blk_cnt n + blk A th in
  pf_inv (goto t th AddPub (s <| words ::= set_word k (u32 (word (words s) k + 1)) |>)).
Proof.
  intros Hi Ht Hpc k. pose proof (thread_at s t th Hi Ht) as Hth.
  assert (busy (pc th) = true) as Hb by (by rewrite Hpc). pose proof (page_range _ _ Hth Hb) as Hp.
  pose proof (blk_bound A HA _ Hp) as Hbl. fold (blk A th) in Hbl.
  assert (u32 (word (words s) k + 1) = word (words s) k + 1) as Hu.
  { apply wrap_id. pose proof (word_width s k Hi) as Hw. unfold in_width in *.
    pose proof (iv_blk _ Hi (blk A th) Hbl) as He. fold k in He.
    assert (count_pages (fun p => (word (words s) p =? PF_READY) && (blk_of p =? blk A th)) <=
            count_pages (fun p => blk_of p =? blk A th)) by (apply count_pages_le; by intros q _ [_ ?]%andb_prop).
    pose proof (count_threads_nonneg (adds_blk (blk A th)) (threads s)). lia. }
  unfold pf_blk_cnt in k. apply inv_counter; try done; try (rewrite Hpc; done).
  - unfold k. lia.
  - apply wrap_in_width. lia.
  - intros b Hbr. rewrite (count_threads_insert _ _ _ th) by done. unfold adds_blk at 2 3; simpl. rewrite Hpc. simpl.
    unfold pf_blk_cnt. destruct (Z.eqb_spec (n + b) k) as [He|Hne].
    + assert (blk A th = b) as -> by (unfold k in *; lia). rewrite Z.eqb_refl, Hu. unfold k.
      replace (blk A th) with b by (unfold k in *; lia). simpl. lia.
    + destruct (Z.eqb_spec (blk A th) b); [unfold k in *; lia|]. simpl. lia.
  - intros Hn. rewrite (count_threads_insert _ _ _ th) by done. unfold adds_pub at 2 3; simpl. rewrite Hpc. simpl.
    destruct (Z.eqb_spec (pf_published n) k) as [He|Hne]; [unfold k, pf_published, pf_all_resident in *; lia|lia].
  - destruct (Z.eqb_spec (pf_all_resident n) k) as [He|Hne]; [unfold k, pf_all_resident in *; lia|]. apply Hi.
  - rewrite (count_threads_insert _ _ _ th) by done. unfold setting at 2 3; simpl. rewrite Hpc. simpl. rewrite Z.sub_0_r, Z.add_0_r.
    destruct (Z.eqb_spec (pf_published n) k) as [He|_]; [unfold k, pf_published, pf_all_resident in *; lia|].
    destruct (Z.eqb_spec (pf_all_resident n) k) as [He|_]; [unfold k, pf_all_resident in *; lia|]. apply Hi.
Qed.

Lemma inv_add_pub s t th : pf_inv s -> threads s !! t = Some th -> pc th = AddPub ->
  let pub := u32 (word (words s) (pf_published n) + 1) in
  pf_inv (goto t th (if pub =? n then SetAll else Spin) (s <| words ::= set_word (pf_published n) pub |>)).
Proof.
  intros Hi Ht Hpc pub. pose proof nblks_nonneg as Hnb. pose proof (n_pages_bound A HA) as Hnp.
  pose proof (word_width s (pf_published n) Hi) as Hw. unfold in_width in Hw.
  assert (1 <= count_threads adds_pub (threads s)) as Hc
    by (apply (count_threads_elem _ _ _ _ Ht); unfold adds_pub; by rewrite Hpc).
  assert (n < 2 ^ 32 -> pub = word (words s) (pf_published n) + 1) as Hu.
  { intros Hn. apply wrap_id. unfold in_width. pose proof (iv_pub _ Hi Hn).
    assert (count_pages (fun p => word (words s) p =? PF_READY) <= count_pages (fun _ => true)) by (by apply count_pages_le).
    rewrite count_pages_all in *. lia. }
  assert (pub = n -> all_ready (words s)) as Hall.
  { intros He p Hp. pose proof (wrap_in_width 32 (word (words s) (pf_published n) + 1) ltac:(lia)) as Hpw.
    fold pub in Hpw. unfold in_width in Hpw. specialize (Hu ltac:(lia)). pose proof (iv_pub _ Hi ltac:(lia)) as Hq.
    apply Z.eqb_eq. apply (count_pages_tight (fun q => word (words s) q =? PF_READY) (fun _ => true)); try done.
    rewrite count_pages_all. lia. }
  apply inv_counter; try done; try (rewrite Hpc; done).
  - unfold pf_published, pf_all_resident. lia.
  - apply wrap_in_width. lia.
  - by destruct (pub =? n).
  - destruct (Z.eqb_spec pub n); [auto|done].
  - intros b Hb. rewrite (count_threads_insert _ _ _ th) by done. unfold adds_blk at 2 3; simpl.
    rewrite Hpc. destruct (Z.eqb_spec (pf_blk_cnt n + b) (pf_published n)) as [He|Hne].
    { unfold pf_blk_cnt, pf_published, pf_all_resident in He. lia. }
    destruct (pub =? n); simpl; lia.
  - intros Hn. rewrite (count_threads_insert _ _ _ th), Z.eqb_refl, Hu by done. unfold adds_pub at 2 3; simpl. rewrite Hpc.
    destruct (_ =? n); simpl; lia.
  - destruct (Z.eqb_spec (pf_all_resident n) (pf_published n)) as [He|Hne]; [unfold pf_published in He; lia|]. apply Hi.
  - intros Hn. rewrite Z.eqb_refl. intros He. right. rewrite He, Z.eqb_refl, (count_threads_insert _ _ _ th) by done.
    unfold setting at 2 3; simpl. rewrite Hpc. simpl. pose proof (count_threads_nonneg setting (threads s)). lia.
Qed.

Lemma inv_set_all s t th : pf_inv s -> threads s !! t = Some th -> pc th = SetAll ->
  pf_inv (goto t th Spin (s <| words ::= set_word (pf_all_resident n) 1 |>)).
Proof.
  intros Hi Ht Hpc. pose proof nblks_nonneg as Hnb. pose proof (n_pages_bound A HA) as Hnp.
  pose proof (tk_all _ _ (thread_at s t th Hi Ht) Hpc) as Hall.
  apply inv_counter; try done; try (rewrite Hpc; done).
  - unfold pf_all_resident. lia.
  - intros b Hb. rewrite (count_threads_insert _ _ _ th) by done. unfold adds_blk at 2 3; simpl. rewrite Hpc. simpl.
    destruct (Z.eqb_spec (pf_blk_cnt n + b) (pf_all_resident n)) as [He|Hne]; [unfold pf_blk_cnt, pf_all_resident in He; lia|lia].
  - intros Hn. rewrite (count_threads_insert _ _ _ th) by done. unfold adds_pub at 2 3; simpl. rewrite Hpc. simpl.
    destruct (Z.eqb_spec (pf_published n) (pf_all_resident n)) as [He|Hne]; [unfold pf_published in He; lia|lia].
  - intros _ _. left. by rewrite Z.eqb_refl.
Qed.

(** ** Every step *)

Lemma thread_ok_hint ws th (full : bool) : thread_ok ws th -> busy (pc th) = true -> word ws (page A th) = PF_READY ->
  (full = true -> forall p, in_range p -> blk_of p = blk A th -> word ws p = PF_READY) ->
  let th' := if full then th <| last_blk := blk A th |> else th in
  thread_ok ws (th' <| last_page := page A th' |> <| pc := Access |>).
Proof.
  intros [K1 K2 K3 K4 K5 K6] Hb Hr Hf th'.
  assert (page A th' = page A th) as Hp by (unfold th'; by destruct full).
  unfold upd. split; simpl.
  - by rewrite Hp.
  - intros p Hpr He. unfold th' in He. destruct full; simpl in He; [by apply Hf|by apply K2].
  - unfold th'. by destruct full.
  - intros _. unfold th'. destruct full; simpl; by apply K4.
  - intros _. change (page A (mk_thread _ _ _ _ _)) with (page A th'). by rewrite Hp.
  - done.
Qed.

Lemma inv_ensured s t th full : pf_inv s -> threads s !! t = Some th -> busy (pc th) = true -> passive (pc th) = true ->
  pc th <> Cas -> word (words s) (page A th) = PF_READY ->
  (full = true -> forall p, in_range p -> blk_of p = blk A th -> word (words s) p = PF_READY) ->
  pf_inv (ensured A t th full s).
Proof.
  intros Hi Ht Hb Hpa Hc Hr Hf. unfold ensured, goto.
  apply (inv_goto s t th); try done. apply thread_ok_hint; try done. by apply (thread_at s t).
Qed.

Lemma inv_thread_step s t th s' : pf_inv s -> threads s !! t = Some th -> thread_step A s t th = Some s' -> pf_inv s'.
Proof.
  intros Hi Ht. pose proof (thread_at s t th Hi Ht) as Hth. unfold thread_step. destruct (pc th) eqn:Hpc; intros [= <-].
  - apply (inv_goto s t th _ Hi Ht); [by rewrite Hpc|done| |by rewrite Hpc|done].
    split; simpl; try done.
    + intros Hr. unfold no_hint in Hr. pose proof (n_pages_bound A HA). lia.
    + intros p Hp He. by destruct (blk_not_hint A HA p Hp).
    + intros Hc%Z.eqb_neq. by apply (iv_all _ Hi).
  - destruct (pf_blk_full A (words s) (blk A th)) eqn:Hf.
    + assert (busy (pc th) = true) as Hb by (by rewrite Hpc). pose proof (page_range _ _ Hth Hb) as Hp.
      assert (forall p, in_range p -> blk_of p = blk A th -> word (words s) p = PF_READY) as Hall.
      { unfold pf_blk_full in Hf. apply Z.leb_le in Hf.
        pose proof (blk_bound A HA _ Hp) as Hbl. fold (blk A th) in Hbl.
        eapply full_block; [|exact Hf|exact (iv_blk _ Hi _ Hbl)]. apply count_threads_nonneg. }
      apply inv_ensured; try done; try (rewrite Hpc; done). by apply Hall.
    + apply (inv_goto s t th _ Hi Ht); try done; try (by rewrite Hpc). apply thread_ok_pc; try done. by rewrite Hpc.
  - destruct (Z.eqb_spec (word (words s) (page A th)) PF_READY) as [Hr|Hr].
    + apply inv_ensured; try done; by rewrite Hpc.
    + apply (inv_goto s t th _ Hi Ht); try done; try (by rewrite Hpc). apply thread_ok_pc; try done. by rewrite Hpc.
  - destruct (Z.eqb_spec (word (words s) (page A th)) PF_UNKNOWN) as [Hr|Hr].
    + apply inv_status_step; [done|done|]. left. by rewrite Hpc, Hr.
    + apply (inv_goto s t th _ Hi Ht); try done; try (by rewrite Hpc). apply thread_ok_pc; try done. by rewrite Hpc.
  - by apply inv_win.
  - by apply inv_touch_step.
  - apply inv_status_step; [done|done|]. right. rewrite Hpc, (owner_pending s t th Hi Ht) by (by rewrite Hpc). done.
  - by apply (inv_add_blk s t th).
  - by apply (inv_add_pub s t th).
  - by apply inv_set_all.
  - destruct (Z.eqb_spec (word (words s) (page A th)) PF_READY) as [Hr|Hr]; [|done].
    apply inv_ensured; try done; by rewrite Hpc.
  - apply (inv_goto s t th _ Hi Ht); try done; try (by rewrite Hpc).
    destruct Hth as [K1 K2 K3 K4 K5 K6]. by split.
Qed.

Lemma begin_access_ok ws i th : thread_ok ws th -> 0 <= i < n_elems A -> thread_ok ws (begin_access A i th).
Proof.
  intros Hth Hi. pose proof (page_of_bound A HA i Hi) as Hp. destruct Hth as [K1 K2 K3 K4 K5 K6]. unfold begin_access.
  assert (checks th = false \/ page_of A i = last_page th \/ blk_of (page_of A i) = last_blk th ->
    word ws (page_of A i) = PF_READY) as Hr.
  { intros [Hc|[Hc|Hc]]; [by apply K3|rewrite Hc in *; by apply K1|by apply K2]. }
  cbn [checks elem last_page last_blk upd]. destruct (checks th) eqn:Hc.
  - destruct (_ || _) eqn:Hh.
    + split; simpl; try done; try by rewrite Hc.
      * intros _. apply Hr. apply orb_true_iff in Hh as [Hh|Hh]; apply Z.eqb_eq in Hh; auto.
      * intros _. apply Hr. apply orb_true_iff in Hh as [Hh|Hh]; apply Z.eqb_eq in Hh; auto.
    + split; simpl; try done. by rewrite Hc.
  - split; simpl; try done; intros _; [by apply K3|]. apply Hr. by left.
Qed.

Lemma converged_at w active ths t th : converged w active ths = true -> ths !! t = Some th ->
  in_warp w active t = true -> pc th = Match.
Proof.
  unfold converged, in_warp. rewrite forallb_forall, andb_true_iff, Nat.eqb_eq. intros Hall Ht [Hw Hb].
  rewrite lane_id_mod in Hb. specialize (Hall (Z.of_nat (t mod 32))). rewrite Hb in Hall.
  cbn [negb orb] in Hall. rewrite Nat2Z.id in Hall.
  replace (32 * w + t mod 32)%nat with t in Hall by (subst w; apply Nat.div_mod_eq).
  rewrite Ht in Hall. cbn [fmap option_fmap option_map] in Hall. assert (bool_decide (Some (pc th) = Some Match) = true) as Hd.
  { apply Hall. apply list_elem_of_In, elem_of_seqZ. pose proof (Nat.mod_upper_bound t 32). lia. }
  apply bool_decide_eq_true in Hd. congruence.
Qed.

(** The lanes of a page have a master among them. *)
Lemma master_spec w active ths t th : converged w active ths = true -> ths !! t = Some th ->
  in_warp w active t = true ->
  exists t' th', ths !! t' = Some th' /\ in_warp w active t' = true /\ page A th' = page A th /\
    pf_lane_id t' = master A ths w active (page A th).
Proof.
  intros Hc Ht Hw. pose proof Hw as [Hw1 Hb]%andb_prop. apply Nat.eqb_eq in Hw1. rewrite lane_id_mod in Hb.
  pose proof (Nat.mod_upper_bound t 32 ltac:(done)) as Hm.
  set (x := pf_warp_match_any_u64 active (page A th) (lane_page A ths w)).
  assert (Z.testbit x (Z.of_nat (t mod 32)) = true) as Hx.
  { apply warp_match_spec; [lia|]. split; [lia|]. split; [done|]. unfold lane_page. rewrite Nat2Z.id.
    replace (32 * w + t mod 32)%nat with t by (subst w; apply Nat.div_mod_eq). by rewrite Ht. }
  destruct (ffs_from_spec 32 0 x (Z.of_nat (t mod 32))) as [Hr Hbit]; [lia|lia|done|].
  unfold master. fold x. unfold warp_ffs in *. set (m := ffs_from 32 0 x - 1) in *.
  apply warp_match_spec in Hbit as (Hm32 & Hact & Hpg); [|lia].
  assert (Z.to_nat m < 32)%nat as Hmn by lia.
  exists (32 * w + Z.to_nat m)%nat. unfold lane_page in Hpg.
  assert (converged w active ths = true) as Hc' by done. unfold converged in Hc'.
  rewrite forallb_forall in Hc'. specialize (Hc' m). rewrite Hact in Hc'. cbn [negb orb] in Hc'.
  assert (bool_decide (pc <$> ths !! (32 * w + Z.to_nat m)%nat = Some Match) = true) as Hd.
  { apply Hc'. apply list_elem_of_In, elem_of_seqZ. lia. }
  apply bool_decide_eq_true in Hd. destruct (ths !! (32 * w + Z.to_nat m)%nat) as [th'|] eqn:He; [|done].
  assert (pf_lane_id (32 * w + Z.to_nat m) = m) as Hl.
  { rewrite lane_id_mod. replace (32 * w + Z.to_nat m)%nat with (Z.to_nat m + w * 32)%nat by lia.
    rewrite Nat.Div0.mod_add, Nat.mod_small by done. lia. }
  exists th'. split; [done|]. split; [|exact (conj Hpg Hl)]. unfold in_warp. rewrite Hl, Hact, andb_true_r. apply Nat.eqb_eq.
  replace (32 * w + Z.to_nat m)%nat with (Z.to_nat m + w * 32)%nat by lia. rewrite Nat.div_add, Nat.div_small by done. lia.
Qed.

Lemma inv_converge s w active : pf_inv s -> converged w active (threads s) = true ->
  pf_inv (s <| threads ::= match_step A w active |>).
Proof.
  intros Hi Hc. apply (inv_passive s (match_step A w active (threads s)) Hi).
  - unfold match_step. apply Forall2_lookup. intros t. rewrite list_lookup_imap.
    destruct (threads s !! t) as [th|] eqn:Ht; simpl; constructor.
    destruct (in_warp w active t) eqn:Hw; [|by left]. right.
    rewrite (converged_at _ _ _ _ _ Hc Ht Hw). split; [done|]. simpl. by destruct (_ =? _).
  - apply Forall_lookup. intros t x. unfold match_step. rewrite list_lookup_imap.
    destruct (threads s !! t) as [th|] eqn:Ht; [|done]. intros [= <-].
    pose proof (thread_at s t th Hi Ht) as Hth. destruct (in_warp w active t) eqn:Hw; [|done].
    apply thread_ok_pc; [done|by rewrite (converged_at _ _ _ _ _ Hc Ht Hw)|by destruct (_ =? _)|by destruct (_ =? _)].
  - intros x Hx Hpc Hu. unfold match_step in *. apply list_elem_of_lookup in Hx as [t Hx]. rewrite list_lookup_imap in Hx.
    destruct (threads s !! t) as [th|] eqn:Ht; [|done]. injection Hx as <-.
    destruct (in_warp w active t) eqn:Hw.
    + destruct (master_spec w active (threads s) t th Hc Ht Hw) as (t' & th' & Ht' & Hw' & Hp' & Hl').
      exists (th' <| pc := Cas |>). split; [|split; [done|exact Hp']].
      apply (list_elem_of_lookup_2 _ t'). rewrite list_lookup_imap, Ht'. simpl. by rewrite Hw', Hp', Hl', Z.eqb_refl.
    + destruct (iv_spin _ Hi th) as (y & Hy & Hyc & Hyp); [by apply list_elem_of_lookup_2 in Ht|done|done|].
      apply list_elem_of_lookup in Hy as [k Hk]. exists y. split; [|done].
      apply (list_elem_of_lookup_2 _ k). rewrite list_lookup_imap, Hk. simpl.
      destruct (in_warp w active k) eqn:Hwk; [|done]. pose proof (converged_at _ _ _ _ _ Hc Hk Hwk). congruence.
Qed.

Lemma inv_launch s : pf_inv s -> pf_inv (s <| threads ::= fun ths => ths ++ [new_thread] |>).
Proof.
  intros [I1 I2 I3 I4 I5 I6 I7 IS I8 I9 I10 I11 I12 I13].
  assert (forall f ths, f new_thread = false -> count_threads f (ths ++ [new_thread]) = count_threads f ths) as Hc.
  { intros f ths Hf. unfold count_threads. rewrite sumz_app, sumz_singleton, Hf. simpl. lia. }
  unfold upd. split; simpl; try done.
  - intros p Hp. rewrite Hc by done. by apply I4.
  - intros b Hb. rewrite Hc by done. by apply I5.
  - intros Hn. rewrite Hc by done. by apply I6.
  - intros Hn. rewrite Hc by done. by apply IS.
  - intros p Hp. rewrite Hc by done. by apply I8.
  - by rewrite Hc by done.
  - apply Forall_app. split; [done|]. constructor; [|done]. pose proof (n_pages_bound A HA).
    split; simpl; try done; [unfold no_hint; lia|]. intros p Hp He. by destruct (blk_not_hint A HA p Hp).
  - intros th [Hth|Hth]%elem_of_app Hpc Hu.
    + destruct (I13 th Hth Hpc Hu) as (y & Hy & Hyc). exists y. split; [|done]. apply elem_of_app. by left.
    + apply list_elem_of_singleton in Hth as ->. done.
Qed.

Lemma inv_step s m s' : pf_inv s -> pf_step A s m = Some s' -> pf_inv s'.
Proof.
  intros Hi. destruct m as [|t i|t|w active]; simpl.
  - intros [= <-]. by apply inv_launch.
  - destruct (threads s !! t) as [th|] eqn:Ht; [|done]. simpl.
    destruct (bool_decide (pc th = Idle)) eqn:Hb; [|done]. apply bool_decide_eq_true in Hb.
    destruct (Z.leb_spec 0 i); [|done]. destruct (Z.ltb_spec i (n_elems A)); [|done]. intros [= <-].
    apply (inv_goto s t th _ Hi Ht); try (by rewrite Hb).
    + unfold begin_access. cbn [checks upd]. destruct (checks _); [|done]. by destruct (_ || _).
    + apply begin_access_ok; [by apply (thread_at s t)|done].
    + unfold begin_access. cbn [checks upd]. destruct (checks _); [|done]. by destruct (_ || _).
  - destruct (threads s !! t) as [th|] eqn:Ht; [|done]. simpl. by apply inv_thread_step.
  - destruct (converged w active (threads s)) eqn:Hc; [|done]. intros [= <-]. by apply inv_converge.
Qed.

Lemma inv_run ms : forall s s', pf_inv s -> pf_run A s ms = Some s' -> pf_inv s'.
Proof.
  induction ms as [|m ms IH]; intros s s' Hi; simpl; [by intros [= <-]|].
  destruct (pf_step A s m) as [s1|] eqn:Hs; [|done]. simpl. apply IH. by apply (inv_step s m).
Qed.

(** ** Cleared words *)

Definition fresh_words : list Z := replicate (Z.to_nat n) 0 ++ (blk_init n <$> seqZ 0 (pf_nblks n)) ++ [0; 0].

Lemma copy_words_app off a v x c : Z.to_nat off = length a -> length v = length x ->
  copy_words off v (a ++ x ++ c) = a ++ v ++ c.
Proof.
  intros Ho Hl. unfold copy_words. rewrite Ho, take_app_length. f_equal. f_equal.
  rewrite drop_app_ge by lia. replace (length a + length v - length a)%nat with (length x) by lia. apply drop_app_length.
Qed.

Lemma clear_status_fresh ws : Z.of_nat (length ws) = n + pf_nblks n + 2 -> clear_status n ws = fresh_words.
Proof.
  intros Hl. pose proof (n_pages_bound A HA). pose proof nblks_nonneg.
  assert (exists a b c, ws = a ++ b ++ c /\ length a = Z.to_nat n /\ length b = Z.to_nat (pf_nblks n) /\ length c = 2%nat)
    as (a & b & c & -> & La & Lb & Lc).
  { exists (take (Z.to_nat n) ws), (take (Z.to_nat (pf_nblks n)) (drop (Z.to_nat n) ws)),
      (drop (Z.to_nat (pf_nblks n)) (drop (Z.to_nat n) ws)).
    rewrite take_drop, take_drop. rewrite !length_take, !length_drop. split; [done|]. lia. }
  unfold clear_status, pf_init_blk_counts, fresh_words, pf_all_resident, pf_blk_cnt.
  rewrite (copy_words_app 0 [] (replicate _ _) a (b ++ c)) by (simpl; rewrite ?length_replicate; lia). rewrite app_nil_l.
  rewrite (copy_words_app n (replicate _ _) _ b c) by (rewrite ?length_replicate, ?length_fmap, ?length_seqZ; lia).
  rewrite app_assoc. rewrite <- (app_nil_r c), (copy_words_app _ _ [0; 0] c []); [by rewrite <- app_assoc| |done].
  rewrite length_app, length_replicate, length_fmap, length_seqZ. lia.
Qed.

Lemma count_blk_eq m b : 0 <= m -> 0 <= b ->
  sumz (fun p => Z.b2z (blk_of p =? b)) (seqZ 0 m) = Z.max 0 (Z.min 512 (m - 512 * b)).
Proof.
  intros Hm Hb. pattern m. apply natlike_ind; [|clear m Hm|done].
  - simpl. lia.
  - intros m Hm IH. rewrite <- Z.add_1_r, seqZ_app by lia. rewrite sumz_app, IH. rewrite (seqZ_cons _ 1) by lia. rewrite (seqZ_nil _ (Z.pred 1)) by lia.
    rewrite sumz_singleton, Z.shiftr_div_pow2 by (unfold PF_BLK_SHIFT; lia).
    change (2 ^ PF_BLK_SHIFT) with 512. pose proof (Z.div_mod m 512). pose proof (Z.mod_pos_bound m 512).
    replace (0 + m) with m by lia. destruct (Z.eqb_spec (m / 512) b); simpl; lia.
Qed.

Lemma blk_init_eq b : 0 <= b < pf_nblks n -> blk_init n b = 512 - count_pages (fun p => blk_of p =? b).
Proof.
  intros Hb. pose proof (n_pages_bound A HA). unfold count_pages. rewrite count_blk_eq by lia.
  rewrite (pf_nblks_eq A HA) in Hb. assert (512 * b < n).
  { assert (b + 1 <= (n + 511) / 512) by lia. pose proof (Z.mul_div_le (n + 511) 512). lia. }
  unfold blk_init. change PF_BLK_PAGES with 512. rewrite (wrap_id 64) by (unfold in_width; lia).
  destruct (Z.ltb_spec 512 (n - b * 512)); rewrite wrap_id by (unfold in_width; lia); lia.
Qed.

Lemma fresh_word_status p : in_range p -> word fresh_words p = 0.
Proof.
  intros Hp. unfold word, fresh_words. rewrite app_nth1 by (rewrite length_replicate; lia).
  rewrite nth_lookup, lookup_replicate_2 by lia. done.
Qed.

Lemma fresh_word_tail k : 0 <= k < 2 -> word fresh_words (pf_all_resident n + k) = 0.
Proof.
  intros Hk. pose proof (n_pages_bound A HA). pose proof nblks_nonneg. unfold word, fresh_words, pf_all_resident.
  rewrite app_nth2 by (rewrite length_replicate; lia). rewrite app_nth2 by (rewrite length_fmap, length_seqZ, length_replicate; lia).
  rewrite length_fmap, length_seqZ, length_replicate.
  replace (_ - _ - _)%nat with (Z.to_nat k) by lia. assert (k = 0 \/ k = 1) as [-> | ->] by lia; done.
Qed.

Lemma inv_fresh : pf_inv (pf_start fresh_words).
Proof.
  pose proof (n_pages_bound A HA). pose proof nblks_nonneg.
  assert (count_pages (fun q => word fresh_words q =? PF_READY) = 0) as Hr.
  { unfold count_pages. rewrite (sumz_ext _ (fun _ => 0)).
    - clear. induction pages as [|x l IH]; [done|]. by rewrite sumz_cons, IH.
    - intros q Hq%elem_of_seqZ. by rewrite fresh_word_status by lia. }
  split; simpl.
  - unfold fresh_words. rewrite !length_app, length_replicate, length_fmap, length_seqZ. simpl. lia.
  - unfold fresh_words. apply Forall_app. split; [by apply Forall_replicate|]. apply Forall_app. split; [|by repeat constructor].
    apply Forall_fmap, Forall_true. intros b. apply wrap_in_width. lia.
  - intros p Hp. by rewrite fresh_word_status.
  - intros p Hp. by rewrite fresh_word_status.
  - intros b Hb. replace (word fresh_words (pf_blk_cnt n + b)) with (blk_init n b).
    + rewrite blk_init_eq by done. assert (count_pages (fun p => (word fresh_words p =? PF_READY) && (blk_of p =? b)) <= 0) as Hle.
      { rewrite <- Hr. apply count_pages_le. by intros q _ [? _]%andb_prop. }
      assert (0 <= count_pages (fun p => (word fresh_words p =? PF_READY) && (blk_of p =? b))).
      { apply sumz_nonneg. intros x _. destruct (_ && _); simpl; lia. }
      unfold count_threads, sumz; simpl. lia.
    + unfold word, fresh_words, pf_blk_cnt. rewrite app_nth2 by (rewrite length_replicate; lia).
      rewrite length_replicate, app_nth1 by (rewrite length_fmap, length_seqZ; lia).
      rewrite nth_lookup, list_lookup_fmap, lookup_seqZ_lt by lia. simpl. f_equal. lia.
  - intros _. unfold pf_published. by rewrite Hr, fresh_word_tail.
  - replace (pf_all_resident n) with (pf_all_resident n + 0) by lia. by rewrite fresh_word_tail.
  - intros Hn. unfold pf_published. rewrite fresh_word_tail; lia.
  - intros p Hp. by rewrite fresh_word_status.
  - done.
  - unfold count_pages. rewrite (sumz_ext _ (fun _ => 0)).
    + clear. induction pages as [|x l IH]; [done|]. by rewrite sumz_cons, <- IH.
    + intros q Hq%elem_of_seqZ. by rewrite fresh_word_status by lia.
  - done.
  - done.
  - intros th Hth. by apply elem_of_nil in Hth.
Qed.

(** ** Progress *)

(** Moves of the threads that are in an access. *)
Definition internal (m : pf_move) : bool := match m with Step _ | Converge _ _ => true | _ => false end.

Lemma pf_run_app ms ms' s : pf_run A s (ms ++ ms') = pf_run A s ms ≫= fun s => pf_run A s ms'.
Proof.
  revert s. induction ms as [|m ms IH]; intros s; simpl; [done|]. destruct (pf_step A s m); simpl; [apply IH|done].
Qed.

(** How far a thread is from the access, spinning apart. *)
Definition rank (c : pc_t) : nat :=
  match c with
  | New | Idle | Access => 0 | Spin => 1 | SetAll => 2 | AddPub => 3 | AddBlk => 4 | Publish => 5 | Touch => 6
  | Win => 7 | Cas => 8 | Match => 9 | Status => 10 | Block => 11
  end.

Lemma lookup_goto s t th c : is_Some (threads s !! t) -> threads (goto t th c s) !! t = Some (th <| pc := c |>).
Proof. intros Ht. unfold goto. cbn. apply list_lookup_insert_eq. by apply lookup_lt_is_Some. Qed.

Lemma converge_alone s t th : threads s !! t = Some th -> pc th = Match ->
  let active := 2 ^ pf_lane_id t in
  converged (t / 32) active (threads s) = true /\
  exists c, (c = Cas \/ c = Spin) /\ match_step A (t / 32) active (threads s) !! t = Some (th <| pc := c |>).
Proof.
  intros Ht Hpc active. unfold active. rewrite lane_id_mod. pose proof (Nat.mod_upper_bound t 32 ltac:(done)) as Hm. split.
  - unfold converged. apply forallb_forall. intros l Hl%list_elem_of_In%elem_of_seqZ.
    destruct (decide (l = Z.of_nat (t mod 32))) as [->|Hne].
    + rewrite Nat2Z.id. replace (32 * (t / 32) + t mod 32)%nat with t by apply Nat.div_mod_eq.
      rewrite Ht. cbn [fmap option_fmap option_map]. rewrite Hpc. by rewrite orb_true_r.
    + by rewrite Z.pow2_bits_false by lia.
  - unfold match_step. rewrite list_lookup_imap, Ht. cbn [fmap option_fmap option_map].
    assert (in_warp (t / 32) (2 ^ Z.of_nat (t mod 32)) t = true) as ->.
    { unfold in_warp. rewrite Nat.eqb_refl, lane_id_mod, Z.pow2_bits_true by lia. done. }
    destruct (_ =? _); [exists Cas|exists Spin]; split; auto.
Qed.

(** A thread in an access that does not spin can go on. *)
Lemma step_ahead s t th : threads s !! t = Some th -> busy (pc th) = true -> pc th <> Access -> pc th <> Spin ->
  exists m s' th', internal m = true /\ pf_step A s m = Some s' /\ threads s' !! t = Some th' /\
    busy (pc th') = true /\ (rank (pc th') < rank (pc th))%nat.
Proof.
  intros Ht Hb Ha Hs. assert (is_Some (threads s !! t)) as Hsome by eauto.
  destruct (decide (pc th = Match)) as [Hm|Hm].
  { destruct (converge_alone s t th Ht Hm) as [Hc (c & Hcs & Hl)].
    exists (Converge (t / 32) (2 ^ pf_lane_id t)), (s <| threads ::= match_step A (t / 32) (2 ^ pf_lane_id t) |>), (th <| pc := c |>).
    split; [done|]. split; [unfold pf_step; by rewrite Hc|]. split; [exact Hl|]. rewrite Hm. destruct Hcs as [-> | ->]; simpl; split; auto; lia. }
  exists (Step t). simpl. rewrite Ht. simpl. unfold thread_step, ensured.
  assert (forall c s1, threads s1 = threads s -> threads (goto t th c s1) !! t = Some (th <| pc := c |>)) as Hg
    by (intros c s1 E; apply lookup_goto; by rewrite E).
  destruct (pc th) eqn:Hpc; try done.
  - destruct (pf_blk_full _ _ _); eexists _, _; (split; [done|split; [done|]]).
    + split; [apply lookup_goto; done|]. simpl. split; [done|lia].
    + split; [by apply Hg|]. simpl. split; [done|lia].
  - destruct (_ =? _); eexists _, _; (split; [done|split; [done|]]).
    + split; [apply lookup_goto; done|]. simpl. split; [done|lia].
    + split; [by apply Hg|]. simpl. split; [done|lia].
  - destruct (_ =? _); eexists _, _; (split; [done|split; [done|]]); (split; [by apply Hg|]); simpl; (split; [done|lia]).
  - eexists _, _. split; [done|]. split; [done|]. split; [by apply Hg|]. simpl. split; [done|lia].
  - eexists _, _. split; [done|]. split; [done|]. split; [by apply Hg|]. simpl. split; [done|lia].
  - eexists _, _. split; [done|]. split; [done|]. split; [by apply Hg|]. simpl. split; [done|lia].
  - eexists _, _. split; [done|]. split; [done|]. split; [by apply Hg|]. simpl. split; [done|lia].
  - eexists _, _. split; [done|]. split; [done|]. split; [by apply Hg|]. simpl. destruct (_ =? _); simpl; (split; [done|lia]).
  - eexists _, _. split; [done|]. split; [done|]. split; [by apply Hg|]. simpl. split; [done|lia].
Qed.

(** The owner of a page, or the thread that is about to claim it, makes it ready
    on its own. *)
Definition claims (s : pf_state) (th : thread_t) : Prop :=
  owning (pc th) = true \/ (pc th = Cas /\ word (words s) (page A th) = PF_UNKNOWN).

Lemma claims_step s t th : pf_inv s -> threads s !! t = Some th -> claims s th ->
  exists s', pf_step A s (Step t) = Some s' /\ (forall u, u <> t -> threads s' !! u = threads s !! u) /\
    (word (words s') (page A th) = PF_READY \/
     exists th', threads s' !! t = Some th' /\ claims s' th' /\ page A th' = page A th /\ (rank (pc th') < rank (pc th))%nat).
Proof.
  intros Hi Ht Hc. pose proof (thread_at s t th Hi Ht) as Hth.
  assert (busy (pc th) = true) as Hb by (destruct Hc as [Hc|[-> _]]; [by destruct (pc th)|done]).
  pose proof (page_range _ _ Hth Hb) as Hp. pose proof nblks_nonneg.
  assert (forall c s1, threads s1 = threads s ->
    (forall u, u <> t -> threads (goto t th c s1) !! u = threads s !! u) /\ threads (goto t th c s1) !! t = Some (th <| pc := c |>)) as Hg.
  { intros c s1 E. split; [|apply lookup_goto; rewrite E; eauto].
    intros u Hu. unfold goto. cbn. rewrite E. by apply list_lookup_insert_ne. }
  simpl. rewrite Ht. simpl. unfold thread_step. destruct Hc as [Hc|[Hc Hu]].
  - destruct (pc th) eqn:Hpc; try done; (eexists; split; [done|]).
    + split; [by apply Hg|]. right. exists (th <| pc := Touch |>). split; [by apply Hg|]. split; [by left|]. split; [done|simpl; lia].
    + split; [by apply Hg|]. right. exists (th <| pc := Publish |>). split; [by apply Hg|]. split; [by left|]. split; [done|simpl; lia].
    + split; [by apply Hg|]. left.
      change (word (set_word (page A th) PF_READY (words s)) (page A th) = PF_READY).
      rewrite word_set_inv by (done || lia). by rewrite Z.eqb_refl.
  - rewrite Hc, Hu. simpl. eexists. split; [done|]. split; [by apply Hg|]. right.
    exists (th <| pc := Win |>). split; [by apply Hg|]. split; [by left|]. split; [done|simpl; lia].
Qed.

Lemma publish_soon k : forall s t th, pf_inv s -> threads s !! t = Some th -> claims s th -> (rank (pc th) <= k)%nat ->
  exists ms s', forallb internal ms = true /\ (length ms <= k)%nat /\ pf_run A s ms = Some s' /\
    word (words s') (page A th) = PF_READY /\ (forall u, u <> t -> threads s' !! u = threads s !! u).
Proof.
  induction k as [|k IH]; intros s t th Hi Ht Hc Hr.
  { exfalso. destruct Hc as [Hc|[Hc _]]; [destruct (pc th); simpl in *; try done; lia|rewrite Hc in Hr; simpl in Hr; lia]. }
  destruct (claims_step s t th Hi Ht Hc) as (s1 & Hs & Hu & [Hw|(th1 & Ht1 & Hc1 & Hp1 & Hr1)]).
  - exists [Step t], s1. cbn [forallb internal length pf_run]. rewrite Hs. simpl. repeat split; auto. lia.
  - destruct (IH s1 t th1) as (ms & s2 & Hms & Hlen & Hrun & Hw & Hoth); [by apply (inv_step s (Step t))|done|done|lia|].
    exists (Step t :: ms), s2. cbn [forallb internal length pf_run]. rewrite Hs. simpl. rewrite <- Hp1. repeat split; auto; [lia|].
    intros u Hne. rewrite Hoth by done. by apply Hu.
Qed.

(** A page that a thread spins on and that is not ready has a thread that makes it
    ready. *)
Lemma claimer_exists s t th : pf_inv s -> threads s !! t = Some th -> pc th = Spin ->
  word (words s) (page A th) <> PF_READY ->
  exists t' th', t' <> t /\ threads s !! t' = Some th' /\ claims s th' /\ page A th' = page A th.
Proof.
  intros Hi Ht Hpc Hr. pose proof (thread_at s t th Hi Ht) as Hth.
  assert (in_range (page A th)) as Hp by (apply (page_range _ _ Hth); by rewrite Hpc).
  assert (exists t' th', threads s !! t' = Some th' /\ claims s th' /\ page A th' = page A th) as (t' & th' & Ht' & Hc & Hpg).
  { pose proof (iv_status _ Hi _ Hp) as Hst. destruct (decide (word (words s) (page A th) = PF_UNKNOWN)) as [Hu|Hu].
    - destruct (iv_spin _ Hi th) as (y & Hy & Hyc & Hyp); [by apply list_elem_of_lookup_2 in Ht|done|done|].
      apply list_elem_of_lookup in Hy as [t' Hy]. exists t', y. split; [done|]. split; [|done]. right. by rewrite Hyp.
    - assert (word (words s) (page A th) = PF_PENDING) as Hpd by (unfold PF_READY, PF_UNKNOWN, PF_PENDING in *; lia).
      pose proof (iv_owner _ Hi _ Hp) as Ho. rewrite Hpd in Ho.
      destruct (decide (Exists (fun x => owns (page A th) x = true) (threads s))) as [He|He].
      + apply Exists_exists in He as (y & [t' Hy]%list_elem_of_lookup & [Hoy Hyp]%andb_prop).
        exists t', y. split; [done|]. split; [by left|]. by apply Z.eqb_eq.
      + exfalso. assert (count_threads (owns (page A th)) (threads s) = 0); [|simpl in Ho; lia].
        unfold count_threads. rewrite (sumz_ext _ (fun _ => 0)).
        * clear. induction (threads s) as [|x l IH]; [done|]. by rewrite sumz_cons, IH.
        * intros y Hy. destruct (owns _ y) eqn:Hoy; [|done]. destruct He. apply Exists_exists. by exists y. }
  exists t', th'. split; [|done]. intros ->. rewrite Ht in Ht'. injection Ht' as <-.
  destruct Hc as [Hc|[Hc _]]; by rewrite Hpc in Hc.
Qed.

Lemma spinner_soon s t th : pf_inv s -> threads s !! t = Some th -> pc th = Spin ->
  exists ms s' th', forallb internal ms = true /\ (length ms <= 9)%nat /\ pf_run A s ms = Some s' /\
    threads s' !! t = Some th' /\ pc th' = Access.
Proof.
  intros Hi Ht Hpc.
  assert (exists ms s1, forallb internal ms = true /\ (length ms <= 8)%nat /\ pf_run A s ms = Some s1 /\
    word (words s1) (page A th) = PF_READY /\ threads s1 !! t = Some th) as (ms & s1 & Hms & Hlen & Hrun & Hw & Ht1).
  { destruct (decide (word (words s) (page A th) = PF_READY)) as [Hr|Hr].
    { exists [], s. simpl. repeat split; auto. lia. }
    destruct (claimer_exists s t th Hi Ht Hpc Hr) as (t' & th' & Hne & Ht' & Hc & Hpg).
    destruct (publish_soon 8 s t' th' Hi Ht' Hc) as (ms & s1 & ? & ? & ? & Hw & Hoth).
    { destruct Hc as [Hc|[-> _]]; [destruct (pc th'); simpl in *; try done; lia|simpl; lia]. }
    exists ms, s1. rewrite <- Hpg. repeat split; auto. by rewrite Hoth. }
  exists (ms ++ [Step t]), (ensured A t th false s1), (th <| last_page := page A th |> <| pc := Access |>).
  rewrite forallb_app, Hms, length_app, pf_run_app, Hrun. cbn [forallb internal length pf_run mbind option_bind pf_step].
  rewrite Ht1. cbn [mbind option_bind]. unfold thread_step. rewrite Hpc, Hw. simpl. split; [done|]. split; [lia|]. split; [done|].
  split; [|done]. apply lookup_goto. eauto.
Qed.

Lemma access_soon k : forall s t th, pf_inv s -> threads s !! t = Some th -> busy (pc th) = true -> (rank (pc th) <= k)%nat ->
  exists ms s' th', forallb internal ms = true /\ (length ms <= k + 9)%nat /\ pf_run A s ms = Some s' /\
    threads s' !! t = Some th' /\ pc th' = Access.
Proof.
  induction k as [|k IH]; intros s t th Hi Ht Hb Hr.
  - assert (pc th = Access) as Hpc by (destruct (pc th); simpl in *; try done; lia).
    exists [], s, th. simpl. repeat split; auto. lia.
  - destruct (decide (pc th = Access)) as [Hpc|Ha]; [exists [], s, th; simpl; repeat split; auto; lia|].
    destruct (decide (pc th = Spin)) as [Hpc|Hs].
    { destruct (spinner_soon s t th Hi Ht Hpc) as (ms & s1 & th1 & ? & ? & ?). exists ms, s1, th1. repeat split; try tauto. lia. }
    destruct (step_ahead s t th Ht Hb Ha Hs) as (m & s1 & th1 & Hm & Hst & Ht1 & Hb1 & Hr1).
    destruct (IH s1 t th1) as (ms & s2 & th2 & Hms & Hlen & Hrun & Hfin); [by apply (inv_step s m)|done|done|lia|].
    exists (m :: ms), s2, th2. cbn [forallb length pf_run]. rewrite Hm, Hst. simpl. repeat split; try tauto. lia.
Qed.

End Inv.

(** ** Correctness *)

(** The words of an array that was just initialised. *)
Definition array_words (A : array_t) (malloc : Z -> list Z) (write : bool) : list Z :=
  default [] (h_page_status (prefault_array_init malloc (ptr A) (n_elems A) (elem_size A) (page_shift A) write)).

Definition malloc_ok (malloc : Z -> list Z) : Prop := forall k, 0 <= k -> Z.of_nat (length (malloc k)) = k.

(** A state that kernels on a newly initialised array can reach. *)
Definition pf_reached (A : array_t) (malloc : Z -> list Z) (write : bool) (s : pf_state) : Prop :=
  exists ms, pf_run A (pf_start (array_words A malloc write)) ms = Some s.

Section Correct.
  Context (A : array_t) (HA : array_ok A) (malloc : Z -> list Z) (Hm : malloc_ok malloc) (write : bool).

Lemma array_words_fresh : array_words A malloc write = fresh_words A.
Proof.
  unfold array_words, prefault_array_init. simpl. apply (clear_status_fresh A HA). apply Hm.
  fold (n_pages A). pose proof (n_pages_bound A HA). pose proof (nblks_nonneg A HA). lia.
Qed.

Lemma reached_inv s : pf_reached A malloc write s -> pf_inv A s.
Proof.
  intros [ms Hr]. rewrite array_words_fresh in Hr. eapply (inv_run A HA); [|exact Hr]. by apply inv_fresh.
Qed.

(** A reset array is a newly initialised one, whatever the kernels left in it. *)
Lemma reset_is_init s : pf_reached A malloc write s ->
  let a := prefault_array_init malloc (ptr A) (n_elems A) (elem_size A) (page_shift A) write in
  prefault_array_reset (a <| h_page_status := Some (words s) |>) = a.
Proof.
  intros Hs%reached_inv a. pose proof array_words_fresh as Hf. unfold array_words in Hf. fold a in Hf.
  pose proof (clear_status_fresh A HA (words s) (iv_len _ _ Hs)) as Hw.
  unfold prefault_array_reset, upd, a, prefault_array_init in *.
  cbn [h_ptr h_n_elems h_page_shift h_page_status h_write_status h_n_pages default fmap option_fmap option_map] in *.
  unfold id in Hf. f_equal; [|by destruct write]. f_equal. by rewrite Hf.
Qed.

Lemma touches_le s p : pf_inv A s -> 0 <= p < n_pages A -> touches A p (touched s) <= 1.
Proof.
  intros Hi Hp. rewrite (iv_touch _ _ Hi p Hp). pose proof (iv_owner _ _ Hi p Hp) as Ho.
  assert (count_threads (unpublished A p) (threads s) <= count_threads (owns A p) (threads s)).
  { apply sumz_le. intros th _. unfold unpublished, owns. destruct (pc th), (page A th =? p); simpl; lia. }
  destruct (Z.eqb_spec (word (words s) p) PF_READY) as [Hr|Hr]; simpl.
  - rewrite Hr in Ho. simpl in Ho. lia.
  - destruct (_ =? PF_PENDING); simpl in Ho; lia.
Qed.

Lemma addr_page_range a : ptr A <= a < end_addr A -> 0 <= addr_page A a < n_pages A.
Proof.
  intros Ha. pose proof (page_bytes_bound A HA) as (B1 & B2 & B3). pose proof (ptr_aligned_eq A HA) as Ea.
  rewrite (n_pages_eq A HA). unfold addr_page. set (pb := 2 ^ page_shift A) in *.
  pose proof (Z.mod_pos_bound (ptr A) pb ltac:(lia)). split; [apply Z.div_pos; lia|].
  apply Z.div_lt_upper_bound; [lia|]. pose proof (Z.mul_succ_div_gt (end_addr A - ptr_aligned A + pb - 1) pb). lia.
Qed.

Lemma NoDup_touches l : (forall a, a ∈ l -> touches A (addr_page A a) l <= 1) -> NoDup (addr_page A <$> l).
Proof.
  assert (forall p l, 0 <= touches A p l) as Hnn.
  { intros p l'. apply sumz_nonneg. intros x _. destruct (_ =? _); simpl; lia. }
  induction l as [|a l IH]; intros Hl; [constructor|]. rewrite fmap_cons. constructor.
  - intros (b & Hb & Hin)%list_elem_of_fmap. specialize (Hl a ltac:(by left)).
    unfold touches in Hl. rewrite sumz_cons, Z.eqb_refl in Hl. rewrite Hb in Hl.
    assert (1 <= touches A (addr_page A b) l) as Hge.
    { apply list_elem_of_split in Hin as (l1 & l2 & ->). unfold touches. rewrite sumz_app, sumz_cons, Z.eqb_refl.
      pose proof (Hnn (addr_page A b) l1). pose proof (Hnn (addr_page A b) l2). unfold touches in *. simpl. lia. }
    unfold touches in Hge. simpl in Hl. lia.
  - apply IH. intros b Hb. specialize (Hl b ltac:(by right)). unfold touches in *. rewrite sumz_cons in Hl.
    destruct (addr_page A a =? addr_page A b); simpl in Hl; lia.
Qed.

(** C20: An element is only accessed after its page was touched, and it was touched
    exactly once: however the threads of any number of kernels interleave, and
    whether the access went through the per-thread hints, the block counter, the
    status word, or a view that skips the check. *)
Theorem access_after_touch s t th : pf_reached A malloc write s ->
  threads s !! t = Some th -> pc th = Access -> touches A (page A th) (touched s) = 1.
Proof.
  intros Hs%reached_inv Ht Hpc. pose proof (thread_at A s t th Hs Ht) as Hth.
  assert (0 <= page A th < n_pages A) as Hp by (apply (page_range A HA _ _ Hth); by rewrite Hpc).
  pose proof (touches_le s _ Hs Hp). pose proof (iv_touch _ _ Hs _ Hp) as He.
  rewrite (tk_past _ _ _ Hth) in He by (by rewrite Hpc). pose proof (count_threads_nonneg (unpublished A (page A th)) (threads s)).
  simpl in He. lia.
Qed.

(** No page is touched twice, and only addresses of the array are touched. *)
Theorem pages_touched_once s : pf_reached A malloc write s ->
  NoDup (addr_page A <$> touched s) /\ Forall (fun a => ptr A <= a < end_addr A) (touched s).
Proof.
  intros Hs%reached_inv. pose proof (iv_addrs _ _ Hs) as Ha. split; [|done]. apply NoDup_touches.
  intros a Hin. apply touches_le; [done|]. apply addr_page_range. by apply (proj1 (Forall_forall _ _) Ha).
Qed.

(** C21: A thread that wants to access an element can always do so: the threads
    that are in an access, taking at most 20 steps and starting no new access,
    bring it there. *)
Theorem access_never_stuck s t th : pf_reached A malloc write s ->
  threads s !! t = Some th -> busy (pc th) = true ->
  exists ms s' th', forallb internal ms = true /\ (length ms <= 20)%nat /\ pf_run A s ms = Some s' /\
    threads s' !! t = Some th' /\ pc th' = Access.
Proof.
  intros Hs%reached_inv Ht Hb. apply (access_soon A HA 11 s t th Hs Ht Hb). destruct (pc th); simpl; lia.
Qed.

(** While no thread is in an access, the counters are exact: a block is marked
    full exactly when all of its pages are ready, and the array is marked resident
    exactly when all pages are. *)
Theorem counters_exact s : pf_reached A malloc write s -> 0 < n_pages A < 2 ^ 32 ->
  (forall th, th ∈ threads s -> busy (pc th) = false) ->
  (forall b, 0 <= b < pf_nblks (n_pages A) -> pf_blk_full A (words s) b = true <->
    forall p, 0 <= p < n_pages A -> Z.shiftr p PF_BLK_SHIFT = b -> word (words s) p = PF_READY) /\
  (word (words s) (pf_all_resident (n_pages A)) <> 0 <-> all_ready A (words s)).
Proof.
  intros Hs%reached_inv Hn Hidle.
  assert (forall f, (forall th, busy (pc th) = false -> f th = false) -> count_threads f (threads s) = 0) as Hz.
  { intros f Hf. unfold count_threads. rewrite (sumz_ext _ (fun _ => 0)).
    - clear. induction (threads s) as [|x l IH]; [done|]. by rewrite sumz_cons, IH.
    - intros th Hth. by rewrite Hf by (by apply Hidle). }
  split.
  - intros b Hb. pose proof (iv_blk _ _ Hs b Hb) as He.
    rewrite Hz in He by (intros th; unfold adds_blk; by destruct (pc th)).
    unfold pf_blk_full. change PF_BLK_PAGES with 512. rewrite Z.leb_le. split.
    + intros Hf. by apply (full_block A (words s) b 0).
    + intros Hall. rewrite (count_pages_ext A (fun p => (word (words s) p =? PF_READY) && (Z.shiftr p PF_BLK_SHIFT =? b))
        (fun p => Z.shiftr p PF_BLK_SHIFT =? b)) in He; [lia|].
      intros p Hp. destruct (Z.eqb_spec (Z.shiftr p PF_BLK_SHIFT) b) as [Hb'|]; [|by rewrite andb_false_r].
      by rewrite (Hall p Hp Hb').
  - split; [apply Hs|]. intros Hall. pose proof (iv_pub _ _ Hs ltac:(lia)) as He.
    rewrite Hz in He by (intros th; unfold adds_pub; by destruct (pc th)).
    rewrite (count_pages_ext A _ (fun _ => true)), (count_pages_all A HA) in He by (intros p Hp; by rewrite Hall).
    destruct (iv_set _ _ Hs Hn ltac:(lia)) as [?|Hc]; [done|].
    rewrite Hz in Hc by (intros th; unfold setting; by destruct (pc th)). lia.
Qed.

End Correct.

(** ** A run

    Two lanes of a warp access elements of the same page of an array that starts
    inside a page; the first lane wins and the second spins until the page is
    ready. *)

Definition sample_array : array_t := mk_array 12388 1000 8 12.
Definition sample_malloc (k : Z) : list Z := replicate (Z.to_nat k) 7.

Definition sample_moves : list pf_move :=
  [Launch; Launch; Step 0; Step 1; Begin 0 3; Begin 1 5; Step 0; Step 1; Step 0; Step 1; Converge 0 3;
   Step 1; Step 0; Step 0; Step 1; Step 0; Step 0; Step 1].

Definition sample_start : pf_state := pf_start (array_words sample_array sample_malloc false).

Definition sample_state : pf_state :=
  Eval vm_compute in default (pf_start []) (pf_run sample_array sample_start sample_moves).

Lemma sample_array_ok : array_ok sample_array.
Proof. by split. Qed.

Lemma sample_malloc_ok : malloc_ok sample_malloc.
Proof. intros k Hk. unfold sample_malloc. rewrite length_replicate. lia. Qed.

Lemma sample_reached : pf_reached sample_array sample_malloc false sample_state.
Proof. exists sample_moves. vm_compute. reflexivity. Qed.

Lemma access_after_touch_witness :
  touched sample_state = [12388] /\ (pc <$> threads sample_state) = [AddBlk; Access] /\
  touches sample_array 0 (touched sample_state) = 1.
Proof.
  split; [reflexivity|]. split; [reflexivity|].
  exact (access_after_touch sample_array sample_array_ok sample_malloc sample_malloc_ok false sample_state 1
    (mk_thread 0 no_hint true 5 Access) sample_reached eq_refl eq_refl).
Defined.

Lemma pages_touched_once_witness : NoDup (addr_page sample_array <$> touched sample_state) /\
  (addr_page sample_array <$> touched sample_state) = [0].
Proof.
  split; [|reflexivity].
  exact (proj1 (pages_touched_once sample_array sample_array_ok sample_malloc sample_malloc_ok false sample_state sample_reached)).
Defined.

Lemma access_never_stuck_witness : exists ms s' th', (length ms <= 20)%nat /\
  pf_run sample_array sample_state ms = Some s' /\ threads s' !! 0%nat = Some th' /\ pc th' = Access.
Proof.
  destruct (access_never_stuck sample_array sample_array_ok sample_malloc sample_malloc_ok false sample_state 0
    (mk_thread no_hint no_hint true 3 AddBlk) sample_reached eq_refl eq_refl)
    as (ms & s' & th' & _ & Hlen & Hrun & Hth). exists ms, s', th'. exact (conj Hlen (conj Hrun Hth)).
Defined.

(** The same lanes run to the end; the first touches the other page, and the second
    finds the block full. *)
Definition final_moves : list pf_move :=
  sample_moves ++ [Step 0; Step 0; Step 0; Step 0; Step 1] ++
  [Begin 0 600; Step 0; Step 0; Converge 0 1] ++ replicate 8 (Step 0) ++ [Step 0] ++
  [Begin 1 999; Step 1; Step 1].

Definition final_state : pf_state :=
  Eval vm_compute in default (pf_start []) (pf_run sample_array sample_start final_moves).

Lemma final_reached : pf_reached sample_array sample_malloc false final_state.
Proof. exists final_moves. vm_compute. reflexivity. Qed.

Lemma final_idle th : th ∈ threads final_state -> busy (pc th) = false.
Proof. apply (proj1 (Forall_forall (fun th => busy (pc th) = false) _)). by repeat constructor. Qed.

Lemma counters_exact_witness :
  pf_blk_full sample_array (words final_state) 0 = true /\ all_ready sample_array (words final_state).
Proof.
  split; [reflexivity|].
  apply (proj2 (counters_exact sample_array sample_array_ok sample_malloc sample_malloc_ok false final_state final_reached
    ltac:(vm_compute; done) final_idle)). vm_compute. discriminate.
Defined.
