(* ===== verification/RangeTree.v ===== *)
(** * Range trees

    Objects with disjoint address ranges, in a red-black tree and a list that share
    their nodes ([uvm_range_tree.c], [uvm_range_tree.h]).  A node is a key of
    [rt_nodes], so a change of its bounds is seen through the tree and the list
    alike.  Rebalancing is the kernel's: [RbTree] says that it keeps the nodes in
    order. *)

From stdpp Require Import gmap.
From S2P Require Import Prelude.

Local Open Scope Z_scope.

(** ** Data *)

Inductive rb_tree : Type :=
| rb_null
| rb_node (rb_left : rb_tree) (node : Z) (rb_right : rb_tree).

Fixpoint inorder (t : rb_tree) : list Z :=
  match t with
  | rb_null => []
  | rb_node l n r => inorder l ++ n :: inorder r
  end.

Record uvm_range_tree_node_t : Type := mk_range {
  rn_start : Z;
  rn_end : Z;
}.

#[export] Instance range_node_eta : Eta uvm_range_tree_node_t := fun n => mk_range (rn_start n) (rn_end n).
#[export] Instance range_node_inhabited : Inhabited uvm_range_tree_node_t := populate (mk_range 0 0).

Record uvm_range_tree_t : Type := mk_range_tree {
  rt_root : rb_tree;
  rt_head : list Z;
  rt_nodes : gmap Z uvm_range_tree_node_t;
}.

#[export] Instance range_tree_eta : Eta uvm_range_tree_t := fun t => mk_range_tree (rt_root t) (rt_head t) (rt_nodes t).

(** [rb_insert_color] and [rb_erase] of the kernel. *)
Class RbTree : Type := {
  rb_insert_color : Z -> rb_tree -> rb_tree;
  rb_erase : Z -> rb_tree -> rb_tree;
}.

Class RbTreeLaws `{RbTree} : Prop := {
  rb_insert_color_inorder : forall n t, inorder (rb_insert_color n t) = inorder t;
  rb_erase_inorder : forall n t l1 l2, NoDup (inorder t) -> inorder t = l1 ++ n :: l2 -> inorder (rb_erase n t) = l1 ++ l2;
}.

(** ** The list *)

Fixpoint next_in (n : Z) (l : list Z) : option Z :=
  match l with
  | x :: l => if x =? n then head l else next_in n l
  | [] => None
  end.

Fixpoint prev_in (n : Z) (l : list Z) : option Z :=
  match l with
  | x :: l =>
      match l with
      | y :: _ => if y =? n then Some x else prev_in n l
      | [] => None
      end
  | [] => None
  end.

(** [list_add] and [list_add_tail] next to a node. *)
Fixpoint add_after (p n : Z) (l : list Z) : list Z :=
  match l with
  | x :: l => if x =? p then x :: n :: l else x :: add_after p n l
  | [] => []
  end.

Fixpoint add_before (p n : Z) (l : list Z) : list Z :=
  match l with
  | x :: l => if x =? p then n :: x :: l else x :: add_before p n l
  | [] => []
  end.

Definition list_del (n : Z) (l : list Z) : list Z := filter (fun x => x <> n) l.

(** [rb_link_node] under [p], on the left or on the right. *)
Fixpoint rb_link_node (left : bool) (p n : Z) (t : rb_tree) : rb_tree :=
  match t with
  | rb_null => rb_null
  | rb_node l m r =>
      if m =? p then
        if left then rb_node (rb_node rb_null n rb_null) m r else rb_node l m (rb_node rb_null n rb_null)
      else rb_node (rb_link_node left p n l) m (rb_link_node left p n r)
  end.

Definition uvm_ranges_overlap (a_start a_end b_start b_end : Z) : bool := (b_start <=? a_end) && (a_start <=? b_end).

Definition ULLONG_MAX : Z := 2 ^ 64 - 1.

(** ** Operations *)

Section Ops.
  Context `{RbTree}.

Definition node_of (s : uvm_range_tree_t) (n : Z) : uvm_range_tree_node_t := rt_nodes s !!! n.
Definition start_of (s : uvm_range_tree_t) (n : Z) : Z := rn_start (node_of s n).
Definition end_of (s : uvm_range_tree_t) (n : Z) : Z := rn_end (node_of s n).

Definition set_node (n : Z) (r : uvm_range_tree_node_t) (s : uvm_range_tree_t) : uvm_range_tree_t :=
  s <| rt_nodes ::= insert n r |>.

Definition uvm_range_tree_prev (s : uvm_range_tree_t) (n : Z) : option Z := prev_in n (rt_head s).
Definition uvm_range_tree_next (s : uvm_range_tree_t) (n : Z) : option Z := next_in n (rt_head s).
Definition uvm_range_tree_last (s : uvm_range_tree_t) : option Z := last (rt_head s).

Definition range_nodes_overlap (s : uvm_range_tree_t) (a b : Z) : bool :=
  uvm_ranges_overlap (start_of s a) (end_of s a) (start_of s b) (end_of s b).

(** The walk of [range_node_find]: the node with [addr] and its parent. *)
Fixpoint find_walk (s : uvm_range_tree_t) (addr : Z) (t : rb_tree) (parent : option Z) : option Z * option Z :=
  match t with
  | rb_null => (None, parent)
  | rb_node l n r =>
      if addr <? start_of s n then find_walk s addr l (Some n)
      else if end_of s n <? addr then find_walk s addr r (Some n)
      else (Some n, parent)
  end.

(** The node, its parent and the next node. *)
Definition range_node_find (s : uvm_range_tree_t) (addr : Z) : option Z * option Z * option Z :=
  let '(node, parent) := find_walk s addr (rt_root s) None in
  let next :=
    match node, parent with
    | Some n, _ => uvm_range_tree_next s n
    | None, Some p => if addr <? start_of s p then Some p else uvm_range_tree_next s p
    | None, None => None
    end in
  (node, parent, next).

Definition uvm_range_tree_init (s : uvm_range_tree_t) : uvm_range_tree_t :=
  s <| rt_root := rb_null |> <| rt_head := [] |>.

Definition link_node (left : bool) (p n : Z) (s : uvm_range_tree_t) : uvm_range_tree_t :=
  s <| rt_root ::= fun t => rb_insert_color n (rb_link_node left p n t) |>
    <| rt_head ::= if left then add_before p n else add_after p n |>.

Definition uvm_range_tree_add (s : uvm_range_tree_t) (n : Z) : NV_STATUS * uvm_range_tree_t :=
  let '(found, parent, _) := range_node_find s (start_of s n) in
  match found, parent with
  | Some _, _ => (NV_ERR_UVM_ADDRESS_IN_USE, s)
  | None, None =>
      (NV_OK, s <| rt_root := rb_insert_color n (rb_node rb_null n rb_null) |> <| rt_head ::= cons n |>)
  | None, Some p =>
      if range_nodes_overlap s n p then (NV_ERR_UVM_ADDRESS_IN_USE, s)
      else if start_of s n <? start_of s p then (NV_OK, link_node true p n s)
      else
        match uvm_range_tree_next s p with
        | Some next =>
            if range_nodes_overlap s n next then (NV_ERR_UVM_ADDRESS_IN_USE, s)
            else (NV_OK, link_node false p n s)
        | None => (NV_OK, link_node false p n s)
        end
  end.

Definition uvm_range_tree_remove (n : Z) (s : uvm_range_tree_t) : uvm_range_tree_t :=
  s <| rt_root ::= rb_erase n |> <| rt_head ::= list_del n |>.

Definition uvm_range_tree_shrink_node (n new_start new_end : Z) (s : uvm_range_tree_t) : uvm_range_tree_t :=
  set_node n (mk_range new_start new_end) s.

Definition uvm_range_tree_split (s : uvm_range_tree_t) (existing new : Z) : uvm_range_tree_t :=
  let s := set_node new (mk_range (start_of s new) (end_of s existing)) s in
  let s := set_node existing (mk_range (start_of s existing) (u64 (start_of s new - 1))) s in
  (uvm_range_tree_add s new).2.

Definition uvm_range_tree_merge_prev (s : uvm_range_tree_t) (n : Z) : option Z * uvm_range_tree_t :=
  match uvm_range_tree_prev s n with
  | Some prev =>
      if end_of s prev =? u64 (start_of s n - 1) then
        let s := uvm_range_tree_remove prev s in
        (Some prev, set_node n (mk_range (start_of s prev) (end_of s n)) s)
      else (None, s)
  | None => (None, s)
  end.

Definition uvm_range_tree_merge_next (s : uvm_range_tree_t) (n : Z) : option Z * uvm_range_tree_t :=
  match uvm_range_tree_next s n with
  | Some next =>
      if start_of s next =? u64 (end_of s n + 1) then
        let s := uvm_range_tree_remove next s in
        (Some next, set_node n (mk_range (start_of s n) (end_of s next)) s)
      else (None, s)
  | None => (None, s)
  end.

Definition uvm_range_tree_find (s : uvm_range_tree_t) (addr : Z) : option Z := (range_node_find s addr).1.1.

Definition uvm_range_tree_iter_first (s : uvm_range_tree_t) (a b : Z) : option Z :=
  let '(node, _, next) := range_node_find s a in
  match node, next with
  | Some n, _ => Some n
  | None, Some n => if start_of s n <=? b then Some n else None
  | None, None => None
  end.

Definition uvm_range_tree_iter_next (s : uvm_range_tree_t) (n b : Z) : option Z :=
  match uvm_range_tree_next s n with
  | Some next => if start_of s next <=? b then Some next else None
  | None => None
  end.

(** The nodes [uvm_range_tree_for_each_in] visits; there are no more than nodes in
    the tree. *)
Fixpoint iter_from (fuel : nat) (s : uvm_range_tree_t) (b : Z) (n : option Z) : list Z :=
  match fuel, n with
  | S fuel, Some n => n :: iter_from fuel s b (uvm_range_tree_iter_next s n b)
  | _, _ => []
  end.

Definition uvm_range_tree_for_each_in (s : uvm_range_tree_t) (a b : Z) : list Z :=
  iter_from (length (rt_head s)) s b (uvm_range_tree_iter_first s a b).

(** The hole that contains [addr]. *)
Definition uvm_range_tree_find_hole (s : uvm_range_tree_t) (addr : Z) : NV_STATUS * (Z * Z) :=
  match uvm_range_tree_iter_first s addr ULLONG_MAX with
  | Some n =>
      if start_of s n <=? addr then (NV_ERR_UVM_ADDRESS_IN_USE, (0, 0))
      else
        let hole_end := u64 (start_of s n - 1) in
        (NV_OK, (match uvm_range_tree_prev s n with Some p => u64 (end_of s p + 1) | None => 0 end, hole_end))
  | None =>
      (NV_OK, (match uvm_range_tree_last s with Some p => u64 (end_of s p + 1) | None => 0 end, ULLONG_MAX))
  end.

Definition uvm_range_tree_find_hole_in (s : uvm_range_tree_t) (addr a b : Z) : NV_STATUS * (Z * Z) :=
  let '(status, (hs, he)) := uvm_range_tree_find_hole s addr in
  (status, if is_ok status then (Z.max hs a, Z.min he b) else (a, b)).

End Ops.

(** ** List lemmas *)


Lemma next_in_app n l1 l2 : n ∉ l1 -> next_in n (l1 ++ n :: l2) = head l2.
Proof.
  induction l1 as [|x l1 IH]; intros Hn; simpl; [by rewrite Z.eqb_refl|].
  apply not_elem_of_cons in Hn as [Hx Hn]. destruct (Z.eqb_spec x n); [done|]. by apply IH.
Qed.

Lemma prev_in_absent n x l : n ∉ l -> prev_in n (x :: l) = None.
Proof.
  revert x. induction l as [|y l IH]; intros x Hn; [done|]. apply not_elem_of_cons in Hn as [Hy Hn]. simpl.
  destruct (Z.eqb_spec y n); [congruence|]. by apply IH.
Qed.

Lemma prev_in_app n l1 l2 : n ∉ l1 -> n ∉ l2 -> prev_in n (l1 ++ n :: l2) = last l1.
Proof.
  intros Hn H2. induction l1 as [|x l1 IH]; [by apply prev_in_absent|]. apply not_elem_of_cons in Hn as [Hx Hn].
  destruct l1 as [|y l1]; simpl; [by rewrite Z.eqb_refl|].
  destruct (Z.eqb_spec y n) as [->|_]; [by destruct Hn; left|]. by apply IH.
Qed.

Lemma add_after_app p n l1 l2 : p ∉ l1 -> add_after p n (l1 ++ p :: l2) = l1 ++ p :: n :: l2.
Proof.
  induction l1 as [|x l1 IH]; intros Hn; simpl; [by rewrite Z.eqb_refl|].
  apply not_elem_of_cons in Hn as [Hx Hn]. destruct (Z.eqb_spec x p); [done|]. by rewrite IH.
Qed.

Lemma add_before_app p n l1 l2 : p ∉ l1 -> add_before p n (l1 ++ p :: l2) = l1 ++ n :: p :: l2.
Proof.
  induction l1 as [|x l1 IH]; intros Hn; simpl; [by rewrite Z.eqb_refl|].
  apply not_elem_of_cons in Hn as [Hx Hn]. destruct (Z.eqb_spec x p); [done|]. by rewrite IH.
Qed.

Lemma list_del_app n l1 l2 : n ∉ l1 -> n ∉ l2 -> list_del n (l1 ++ n :: l2) = l1 ++ l2.
Proof.
  intros H1 H2. unfold list_del. rewrite filter_app, filter_cons_False by naive_solver.
  by rewrite !filter_full by (intros x Hx ->; done).
Qed.

Lemma rb_link_absent left p n t : p ∉ inorder t -> rb_link_node left p n t = t.
Proof.
  induction t as [|l IHl m r IHr]; simpl; intros Hp; [done|].
  apply not_elem_of_app in Hp as [Hl [Hm Hr]%not_elem_of_cons].
  destruct (Z.eqb_spec m p); [congruence|]. by rewrite IHl, IHr.
Qed.

(** ** Well-formed trees *)

Section Ordered.
  Variable s : uvm_range_tree_t.

Definition valid_node (n : Z) : Prop := 0 <= start_of s n <= end_of s n /\ end_of s n < 2 ^ 64.

Definition before (a b : Z) : Prop := end_of s a < start_of s b.

Definition ordered (l : list Z) : Prop := StronglySorted before l.

Definition covers (addr n : Z) : Prop := start_of s n <= addr <= end_of s n.

Definition below (addr : Z) (l : list Z) : Prop := Forall (fun n => end_of s n < addr) l.
Definition above (addr : Z) (l : list Z) : Prop := Forall (fun n => addr < start_of s n) l.

Lemma ordered_app l1 l2 : ordered (l1 ++ l2) <->
  ordered l1 /\ ordered l2 /\ forall a b, a ∈ l1 -> b ∈ l2 -> before a b.
Proof.
  unfold ordered. induction l1 as [|x l1 IH]; simpl.
  - split; [intros Hs|by intros (_ & ? & _)]. split; [constructor|]. split; [done|]. by intros a b ?%elem_of_nil.
  - rewrite !StronglySorted_cons, IH, Forall_app, !Forall_forall. split.
    + intros [[Hx1 Hx2] (H1 & H2 & H3)]. repeat split; auto. intros a b [->|Ha]%elem_of_cons Hb; auto.
    + intros [[Hx H1] [H2 H3]]. repeat split; auto.
      * intros b Hb. apply H3; [by left|done].
      * intros a b Ha Hb. apply H3; [by right|done].
Qed.

Lemma ordered_cons n l : ordered (n :: l) <-> ordered l /\ Forall (before n) l.
Proof. unfold ordered. rewrite StronglySorted_cons. tauto. Qed.

(** What the walk finds: the node that covers the address, or the place for it
    next to its parent. *)
Lemma find_walk_spec addr t p :
  ordered (inorder t) -> (forall n, n ∈ inorder t -> valid_node n) ->
  match find_walk s addr t p with
  | (Some n, _) => n ∈ inorder t /\ covers addr n
  | (None, q) => exists l1 l2, inorder t = l1 ++ l2 /\ below addr l1 /\ above addr l2 /\
      ((t = rb_null /\ q = p) \/
       exists m, q = Some m /\
         (forall x, NoDup (inorder t) -> inorder (rb_link_node (addr <? start_of s m) m x t) = l1 ++ x :: l2) /\
         (if addr <? start_of s m then head l2 = Some m else last l1 = Some m))
  end.
Proof.
  revert p. induction t as [|l IHl n r IHr]; intros p Ho Hv; simpl in *.
  { exists [], []. split; [done|]. split; [constructor|]. split; [constructor|]. by left. }
  apply ordered_app in Ho as (Hol & [Hor Hn]%ordered_cons & Hlr).
  assert (valid_node n) as Hvn by (apply Hv; set_solver).
  destruct (Z.ltb_spec addr (start_of s n)) as [Hlt|Hge].
  - specialize (IHl (Some n) Hol ltac:(intros; apply Hv; set_solver)).
    assert (above addr (n :: inorder r)) as Hab.
    { constructor; [done|]. apply Forall_forall. intros b Hb. apply (proj1 (Forall_forall _ _) Hn) in Hb as Hnb.
      unfold before in Hnb. destruct Hvn. lia. }
    destruct (find_walk s addr l (Some n)) as [[m|] q]; [destruct IHl; split; [set_solver|done]|].
    destruct IHl as (l1 & l2 & He & Hb1 & Ha2 & Hq). exists l1, (l2 ++ n :: inorder r).
    split; [by rewrite He, app_assoc|]. split; [done|]. split; [by apply Forall_app|]. right.
    destruct Hq as [[-> ->]|(m & -> & Hlink & Hm)].
    + exists n. split; [done|]. simpl in He. symmetry in He. apply app_nil in He as [-> ->].
      rewrite (proj2 (Z.ltb_lt _ _) Hlt). split; [|done]. intros x _. by rewrite Z.eqb_refl.
    + assert (m ∈ inorder l) as Hin.
      { rewrite He. destruct (addr <? start_of s m).
        - destruct l2; [done|]. injection Hm as ->. set_solver.
        - apply last_Some in Hm as [l' ->]. set_solver. }
      exists m. split; [done|]. split.
      * intros x [Hnl [Hnd _]]%NoDup_app. assert (m <> n) by (intros ->; apply (Hnd n Hin); by left).
        destruct (Z.eqb_spec n m); [congruence|]. simpl.
        rewrite Hlink by done. rewrite rb_link_absent by (intros Hr; apply (Hnd m Hin); by right). by rewrite <- app_assoc.
      * destruct (addr <? start_of s m); [by destruct l2|done].
  - destruct (Z.ltb_spec (end_of s n) addr) as [Hgt|Hle]; [|split; [set_solver|unfold covers; lia]].
    specialize (IHr (Some n) Hor ltac:(intros; apply Hv; set_solver)).
    assert (below addr (inorder l ++ [n])) as Hbe.
    { apply Forall_app. split; [|by repeat constructor]. apply Forall_forall. intros a Ha.
      specialize (Hlr a n Ha ltac:(by left)). unfold before in Hlr. destruct Hvn. lia. }
    destruct (find_walk s addr r (Some n)) as [[m|] q]; [destruct IHr; split; [set_solver|done]|].
    destruct IHr as (l1 & l2 & He & Hb1 & Ha2 & Hq). exists ((inorder l ++ [n]) ++ l1), l2.
    split; [by rewrite He, <- !app_assoc|]. split; [by apply Forall_app|]. split; [done|]. right.
    destruct Hq as [[-> ->]|(m & -> & Hlink & Hm)].
    + exists n. split; [done|]. simpl in He. symmetry in He. apply app_nil in He as [-> ->].
      rewrite (proj2 (Z.ltb_ge _ _)) by lia. rewrite app_nil_r. split; [|by rewrite last_snoc].
      intros x _. rewrite Z.eqb_refl. simpl. by rewrite <- app_assoc.
    + assert (m ∈ inorder r) as Hin.
      { rewrite He. destruct (addr <? start_of s m).
        - destruct l2; [done|]. injection Hm as ->. set_solver.
        - apply last_Some in Hm as [l' ->]. set_solver. }
      exists m. split; [done|]. split.
      * intros x [Hnl [Hnd [Hnr Hr]%NoDup_cons]]%NoDup_app. assert (m <> n) by congruence.
        destruct (Z.eqb_spec n m); [congruence|]. simpl.
        rewrite Hlink by done. rewrite rb_link_absent by (intros Hl; apply (Hnd m Hl); by right). by rewrite <- !app_assoc.
      * destruct (addr <? start_of s m); [done|]. by rewrite last_app, Hm.
Qed.

End Ordered.

(** The tree and the list agree, and the ranges are valid, disjoint and in order. *)
Record rt_ok (s : uvm_range_tree_t) : Prop := {
  rt_same : inorder (rt_root s) = rt_head s;
  rt_nodup : NoDup (rt_head s);
  rt_order : ordered s (rt_head s);
  rt_valid : forall n, n ∈ rt_head s -> valid_node s n;
}.

Section Find.
  Context (s : uvm_range_tree_t) (Hs : rt_ok s).

Lemma range_node_find_spec addr :
  match range_node_find s addr with
  | (Some n, _, next) => n ∈ rt_head s /\ covers s addr n /\ next = next_in n (rt_head s)
  | (None, parent, next) => exists l1 l2, rt_head s = l1 ++ l2 /\ below s addr l1 /\ above s addr l2 /\ next = head l2 /\
      ((rt_root s = rb_null /\ parent = None) \/
       exists m, parent = Some m /\
         (forall x, inorder (rb_link_node (addr <? start_of s m) m x (rt_root s)) = l1 ++ x :: l2) /\
         (if addr <? start_of s m then head l2 = Some m else last l1 = Some m))
  end.
Proof.
  pose proof (find_walk_spec s addr (rt_root s) None) as Hw. rewrite (rt_same _ Hs) in Hw.
  specialize (Hw (rt_order _ Hs) (rt_valid _ Hs)). unfold range_node_find.
  destruct (find_walk s addr (rt_root s) None) as [[n|] q]; [by destruct Hw|].
  destruct Hw as (l1 & l2 & He & Hb & Ha & Hq). exists l1, l2. split; [done|]. split; [done|]. split; [done|].
  destruct Hq as [[Hr ->]|(m & -> & Hlink & Hm)].
  - assert (rt_head s = []) as Hn by (by rewrite <- (rt_same _ Hs), Hr). rewrite Hn in He.
    symmetry in He. apply app_nil in He as [-> ->]. split; [done|]. by left.
  - split; [|right; exists m; split; [done|]; split; [|done]; intros x; apply Hlink, (rt_nodup _ Hs)].
    destruct (addr <? start_of s m); [by rewrite Hm|]. unfold uvm_range_tree_next. rewrite He.
    apply last_Some in Hm as [l' ->]. rewrite <- app_assoc. simpl. apply next_in_app.
    pose proof (rt_nodup _ Hs) as Hnd. rewrite He, <- app_assoc in Hnd. apply NoDup_app in Hnd as (_ & Hnd & _).
    intros Hin. apply (Hnd m Hin). by left.
Qed.

Lemma covers_unique addr n m : n ∈ rt_head s -> m ∈ rt_head s -> covers s addr n -> covers s addr m -> n = m.
Proof.
  intros Hn Hm Cn Cm. pose proof (rt_order _ Hs) as Ho.
  apply list_elem_of_split in Hn as (l1 & l2 & He). rewrite He in Hm, Ho.
  apply ordered_app in Ho as (_ & [_ H2]%ordered_cons & H1).
  apply elem_of_app in Hm as [Hm|[->|Hm]%elem_of_cons]; [|done|].
  - specialize (H1 m n Hm ltac:(by left)). unfold before, covers in *. lia.
  - apply (proj1 (Forall_forall _ _) H2) in Hm. unfold before, covers in *. lia.
Qed.

(** An address that is between the ranges is in none. *)
Lemma between_none addr l1 l2 n : rt_head s = l1 ++ l2 -> below s addr l1 -> above s addr l2 ->
  n ∈ rt_head s -> ~ covers s addr n.
Proof.
  intros -> Hb Ha [Hn|Hn]%elem_of_app.
  - apply (proj1 (Forall_forall _ _) Hb) in Hn. unfold covers. lia.
  - apply (proj1 (Forall_forall _ _) Ha) in Hn. unfold covers. lia.
Qed.

Lemma find_iff addr n : uvm_range_tree_find s addr = Some n <-> n ∈ rt_head s /\ covers s addr n.
Proof.
  pose proof (range_node_find_spec addr) as Hf. unfold uvm_range_tree_find.
  destruct (range_node_find s addr) as [[[m|] q] nx]; simpl.
  - destruct Hf as (Hm & Hc & _). split; [by intros [= <-]|]. intros [Hn Hcn]. f_equal. by apply (covers_unique addr).
  - destruct Hf as (l1 & l2 & He & Hb & Ha & _). split; [done|]. intros [Hn Hc].
    by destruct (between_none addr l1 l2 n He Hb Ha Hn).
Qed.

Lemma find_none addr : uvm_range_tree_find s addr = None <-> forall n, n ∈ rt_head s -> ~ covers s addr n.
Proof.
  split.
  - intros Hf n Hn Hc. assert (uvm_range_tree_find s addr = Some n) by (by apply find_iff). congruence.
  - intros Hall. destruct (uvm_range_tree_find s addr) as [n|] eqn:Hf; [|done]. apply find_iff in Hf as [Hn Hc]. by destruct (Hall n Hn).
Qed.

(** The first node at or after an address. *)
Lemma iter_first_split a b : a <= b ->
  exists l1 l2, rt_head s = l1 ++ l2 /\ below s a l1 /\ Forall (fun n => a <= end_of s n) l2 /\
    uvm_range_tree_iter_first s a b = (n ← head l2; if start_of s n <=? b then Some n else None).
Proof.
  intros Hab. pose proof (range_node_find_spec a) as Hf. unfold uvm_range_tree_iter_first.
  destruct (range_node_find s a) as [[[m|] q] nx].
  - destruct Hf as (Hm & Hc & _). pose proof (rt_order _ Hs) as Ho. pose proof (rt_valid _ Hs) as Hv.
    apply list_elem_of_split in Hm as (l1 & l2 & He). exists l1, (m :: l2). split; [done|]. rewrite He in Ho, Hv.
    apply ordered_app in Ho as (_ & [_ H2]%ordered_cons & H1). unfold covers in Hc. split; [|split].
    + apply Forall_forall. intros x Hx. specialize (H1 x m Hx ltac:(by left)). unfold before in H1. lia.
    + constructor; [lia|]. apply Forall_forall. intros x Hx. apply (proj1 (Forall_forall _ _) H2) in Hx as Hxb.
      specialize (Hv x ltac:(set_solver)). unfold before, valid_node in *. lia.
    + simpl. destruct (Z.leb_spec (start_of s m) b); [done|lia].
  - destruct Hf as (l1 & l2 & He & Hb & Ha & -> & _). exists l1, l2. split; [done|]. split; [done|]. split.
    + apply Forall_forall. intros x Hx. apply (proj1 (Forall_forall _ _) Ha) in Hx as Hxa.
      pose proof (rt_valid _ Hs x) as Hv. rewrite He in Hv. specialize (Hv ltac:(set_solver)). unfold valid_node in Hv. lia.
    + by destruct l2.
Qed.

(** The nodes visited from a node of the list on. *)
Lemma iter_from_spec b l2 : forall l1 fuel, rt_head s = l1 ++ l2 -> (length l2 <= fuel)%nat ->
  iter_from fuel s b (n ← head l2; if start_of s n <=? b then Some n else None) = filter (fun n => start_of s n <= b) l2.
Proof.
  induction l2 as [|n l2 IH]; intros l1 fuel He Hf; [by destruct fuel|]. destruct fuel as [|fuel]; [simpl in Hf; lia|].
  cbn [head mbind option_bind]. destruct (Z.leb_spec (start_of s n) b) as [Hle|Hgt].
  - rewrite filter_cons_True by done. cbn [iter_from]. f_equal.
    unfold uvm_range_tree_iter_next, uvm_range_tree_next. rewrite He, next_in_app.
    + rewrite <- (IH (l1 ++ [n]) fuel); [by destruct l2|by rewrite <- app_assoc|simpl in Hf; lia].
    + pose proof (rt_nodup _ Hs) as Hnd. rewrite He in Hnd. apply NoDup_app in Hnd as (_ & Hnd & _).
      intros Hin. apply (Hnd n Hin). by left.
  - rewrite filter_cons_False by lia. pose proof (rt_order _ Hs) as Ho. pose proof (rt_valid _ Hs) as Hv. rewrite He in Ho, Hv.
    apply ordered_app in Ho as (_ & [_ H2]%ordered_cons & _).
    assert (filter (fun n => start_of s n <= b) l2 = []) as ->; [|done].
    apply filter_empty. intros x Hx. apply (proj1 (Forall_forall _ _) H2) in Hx as Hxb.
    specialize (Hv n ltac:(set_solver)). unfold before, valid_node in *. lia.
Qed.

(** [uvm_range_tree_for_each_in] visits exactly the nodes that overlap the range, in
    address order. *)
Lemma for_each_in_spec a b : a <= b ->
  uvm_range_tree_for_each_in s a b = filter (fun n => start_of s n <= b /\ a <= end_of s n) (rt_head s).
Proof.
  intros Hab. destruct (iter_first_split a b Hab) as (l1 & l2 & He & Hb & Ha & Hi).
  unfold uvm_range_tree_for_each_in. rewrite Hi, (iter_from_spec b l2 l1) by (done || rewrite He, length_app; lia).
  rewrite He, filter_app, (filter_empty _ l1), app_nil_l.
  - clear -Ha. induction l2 as [|x l2 IH]; [done|]. apply Forall_cons in Ha as [Hx Ha]. rewrite !filter_cons, IH by done.
    repeat case_decide; try done; lia.
  - intros x Hx [_ Hle]. apply (proj1 (Forall_forall _ _) Hb) in Hx. lia.
Qed.

End Find.

(** ** Changes *)

Section Changes.
  Context `{Laws : RbTreeLaws}.

Definition overlap (s : uvm_range_tree_t) (a b : Z) : Prop := start_of s b <= end_of s a /\ start_of s a <= end_of s b.

Lemma overlap_spec s a b : range_nodes_overlap s a b = true <-> overlap s a b.
Proof. unfold range_nodes_overlap, uvm_ranges_overlap, overlap. by rewrite andb_true_iff, !Z.leb_le. Qed.

(** A list in the place of the node keeps the tree well-formed. *)
Lemma rt_ok_place s s' l1 l2 n : rt_ok s -> rt_head s = l1 ++ l2 -> n ∉ rt_head s -> valid_node s n ->
  below s (start_of s n) l1 -> above s (end_of s n) l2 ->
  rt_nodes s' = rt_nodes s -> rt_head s' = l1 ++ n :: l2 -> inorder (rt_root s') = l1 ++ n :: l2 -> rt_ok s'.
Proof.
  intros Hs He Hn Hv Hb Ha Hnodes Hh Hr.
  assert (forall m, node_of s' m = node_of s m) as Hno by (intros m; unfold node_of; by rewrite Hnodes).
  assert (forall m, start_of s' m = start_of s m) as Hst by (intros m; unfold start_of; by rewrite Hno).
  assert (forall m, end_of s' m = end_of s m) as Hen by (intros m; unfold end_of; by rewrite Hno).
  pose proof (rt_order _ Hs) as Ho. pose proof (rt_nodup _ Hs) as Hnd. pose proof (rt_valid _ Hs) as Hva. rewrite He in *.
  split; rewrite ?Hh.
  - by rewrite Hr.
  - apply NoDup_app in Hnd as (H1 & H12 & H2). apply not_elem_of_app in Hn as [Hn1 Hn2].
    apply NoDup_app. split; [done|]. split; [|by constructor].
    intros x Hx [->|Hx2]%elem_of_cons; [done|]. by apply (H12 x).
  - assert (ordered s (l1 ++ n :: l2)) as Hord.
    { apply ordered_app in Ho as (O1 & O2 & O12). apply ordered_app. split; [done|]. split.
      - apply ordered_cons. split; [done|]. eapply Forall_impl; [exact Ha|]. intros x. unfold before. lia.
      - intros a b Ha1 [->|Hb2]%elem_of_cons; [|by apply O12].
        apply (proj1 (Forall_forall _ _) Hb) in Ha1. unfold before. lia. }
    unfold ordered in *. clear -Hord Hst Hen. induction Hord as [|x l _ IH Hx]; constructor; [done|].
    eapply Forall_impl; [exact Hx|]. intros y. unfold before. by rewrite Hst, Hen.
  - intros m Hm. unfold valid_node. rewrite Hst, Hen.
    apply elem_of_app in Hm as [Hm|[->|Hm]%elem_of_cons]; [apply Hva; set_solver|done|apply Hva; set_solver].
Qed.

Lemma NoDup_split_notin {A} (l1 l2 : list A) x : NoDup (l1 ++ x :: l2) -> (x ∉ l1) /\ (x ∉ l2).
Proof.
  intros (_ & H12 & [Hx _]%NoDup_cons)%NoDup_app. split; [|done]. intros Hin. apply (H12 x Hin). by left.
Qed.

Lemma link_node_ok s n l1 l2 (left : bool) p : rt_ok s -> rt_head s = l1 ++ l2 -> n ∉ rt_head s -> valid_node s n ->
  below s (start_of s n) l1 -> above s (end_of s n) l2 ->
  inorder (rb_link_node left p n (rt_root s)) = l1 ++ n :: l2 ->
  (if left then head l2 = Some p else last l1 = Some p) ->
  rt_ok (link_node left p n s) /\ rt_head (link_node left p n s) = l1 ++ n :: l2.
Proof.
  intros Hs He Hn Hv Hb Ha Hin Hpos.
  assert (rt_head (link_node left p n s) = l1 ++ n :: l2) as Hh.
  { unfold link_node. cbn. rewrite He. pose proof (rt_nodup _ Hs) as Hnd. rewrite He in Hnd. destruct left.
    - destruct l2 as [|y l2]; [done|]. injection Hpos as ->. by apply add_before_app, (NoDup_split_notin l1 l2).
    - apply last_Some in Hpos as [l' ->]. rewrite <- app_assoc in *. simpl in *. rewrite <- app_assoc. simpl.
      by apply add_after_app, (NoDup_split_notin l' l2). }
  split; [|done]. apply (rt_ok_place s _ l1 l2 n); try done. cbn. by rewrite rb_insert_color_inorder.
Qed.

(** A range that starts before [l2] and does not overlap its first node lies
    before it. *)
Lemma above_head s n l1 l2 : rt_ok s -> rt_head s = l1 ++ l2 -> valid_node s n -> above s (start_of s n) l2 ->
  (forall x, head l2 = Some x -> ~ overlap s n x) -> above s (end_of s n) l2.
Proof.
  intros Hs He Hv Ha Hx. destruct l2 as [|x l2]; [constructor|]. specialize (Hx x eq_refl).
  pose proof (rt_order _ Hs) as Ho. pose proof (rt_valid _ Hs) as Hva. rewrite He in Ho, Hva.
  apply ordered_app in Ho as (_ & [_ O2]%ordered_cons & _). apply Forall_cons in Ha as [Hax _].
  assert (valid_node s x) as Hvx by (apply Hva; set_solver).
  assert (end_of s n < start_of s x) by (unfold overlap, valid_node in *; lia). constructor; [done|].
  eapply Forall_impl; [exact O2|]. intros y. unfold before, valid_node in *. lia.
Qed.

Lemma between_free s n l1 l2 m : valid_node s n -> below s (start_of s n) l1 -> above s (end_of s n) l2 ->
  m ∈ l1 ++ l2 -> ~ overlap s n m.
Proof.
  intros Hv Hb Ha [Hm|Hm]%elem_of_app.
  - apply (proj1 (Forall_forall _ _) Hb) in Hm. unfold overlap, valid_node in *. lia.
  - apply (proj1 (Forall_forall _ _) Ha) in Hm. unfold overlap. lia.
Qed.

(** What an insertion does: it puts the node in its place, or it fails because of
    an overlap. *)
Definition add_post (s : uvm_range_tree_t) (n : Z) (st : NV_STATUS) (s' : uvm_range_tree_t) : Prop :=
  (st = NV_OK /\ rt_ok s' /\ rt_nodes s' = rt_nodes s /\ (forall m, m ∈ rt_head s -> ~ overlap s n m) /\
   exists l1 l2, rt_head s = l1 ++ l2 /\ rt_head s' = l1 ++ n :: l2) \/
  (st = NV_ERR_UVM_ADDRESS_IN_USE /\ s' = s /\ exists m, m ∈ rt_head s /\ overlap s n m).

Lemma add_post_link s n l1 l2 (left : bool) p : rt_ok s -> rt_head s = l1 ++ l2 -> n ∉ rt_head s -> valid_node s n ->
  below s (start_of s n) l1 -> above s (start_of s n) l2 -> (forall x, head l2 = Some x -> ~ overlap s n x) ->
  inorder (rb_link_node left p n (rt_root s)) = l1 ++ n :: l2 ->
  (if left then head l2 = Some p else last l1 = Some p) ->
  add_post s n NV_OK (link_node left p n s).
Proof.
  intros Hs He Hn Hv Hb Ha Hx Hin Hpos. pose proof (above_head s n l1 l2 Hs He Hv Ha Hx) as Ha2.
  destruct (link_node_ok s n l1 l2 left p) as [Hok Hh]; try done. left. split; [done|]. split; [done|]. split; [done|].
  split; [rewrite He; intros m; by apply between_free|]. by exists l1, l2.
Qed.

Lemma add_spec s n : rt_ok s -> n ∉ rt_head s -> valid_node s n ->
  add_post s n (uvm_range_tree_add s n).1 (uvm_range_tree_add s n).2.
Proof.
  intros Hs Hn Hv. pose proof (range_node_find_spec s Hs (start_of s n)) as Hf. unfold uvm_range_tree_add.
  assert (forall m, m ∈ rt_head s -> overlap s n m -> add_post s n NV_ERR_UVM_ADDRESS_IN_USE s) as Hfail
    by (intros m Hm Ho; right; split; [done|]; split; [done|]; by exists m).
  destruct (range_node_find s (start_of s n)) as [[[m|] q] nx].
  { destruct Hf as (Hm & Hc & _). apply (Hfail m Hm). unfold overlap, covers, valid_node in *. lia. }
  destruct Hf as (l1 & l2 & He & Hb & Ha & _ & [[Hr ->]|(p & -> & Hin & Hpos)]).
  { assert (rt_head s = []) as Hnil by (by rewrite <- (rt_same _ Hs), Hr).
    left. simpl. split; [done|]. split; [|split; [done|]; split].
    - apply (rt_ok_place s _ [] [] n); try done; [constructor|constructor|cbn; by rewrite Hnil|cbn; by rewrite rb_insert_color_inorder].
    - rewrite Hnil. by intros m ?%elem_of_nil.
    - exists [], []. cbn. by rewrite Hnil. }
  assert (p ∈ rt_head s) as Hp.
  { rewrite He. destruct (start_of s n <? start_of s p); [destruct l2; [done|]; injection Hpos as ->; set_solver|].
    apply last_Some in Hpos as [l' ->]. set_solver. }
  destruct (range_nodes_overlap s n p) eqn:Hov; [apply (Hfail p Hp); by apply overlap_spec|].
  assert (~ overlap s n p) as Hnp by (rewrite <- overlap_spec; congruence).
  specialize (Hin n). destruct (start_of s n <? start_of s p) eqn:Hlt.
  { apply (add_post_link s n l1 l2); try done. intros x Hx. congruence. }
  assert (uvm_range_tree_next s p = head l2) as ->.
  { unfold uvm_range_tree_next. pose proof (rt_nodup _ Hs) as Hnd. rewrite He in *. apply last_Some in Hpos as [l' ->].
    rewrite <- app_assoc in *. simpl in *. by apply next_in_app, (NoDup_split_notin l' l2). }
  destruct (head l2) as [y|] eqn:Hy; [|apply (add_post_link s n l1 l2); try done; by rewrite Hy].
  destruct (range_nodes_overlap s n y) eqn:Hovy.
  - apply (Hfail y); [destruct l2; [done|]; injection Hy as ->; rewrite He; set_solver|by apply overlap_spec].
  - apply (add_post_link s n l1 l2); try done. rewrite Hy. intros x [= <-]. rewrite <- overlap_spec. congruence.
Qed.

Lemma node_of_set n r s m : node_of (set_node n r s) m = if m =? n then r else node_of s m.
Proof.
  unfold node_of, set_node. cbn. destruct (Z.eqb_spec m n) as [->|Hne].
  - apply lookup_total_insert_eq.
  - by apply lookup_total_insert_ne.
Qed.

Lemma start_of_set n r s m : start_of (set_node n r s) m = if m =? n then rn_start r else start_of s m.
Proof. unfold start_of. rewrite node_of_set. by destruct (m =? n). Qed.

Lemma end_of_set n r s m : end_of (set_node n r s) m = if m =? n then rn_end r else end_of s m.
Proof. unfold end_of. rewrite node_of_set. by destruct (m =? n). Qed.

(** Trees whose nodes of the list have the same bounds. *)
Lemma ordered_same s s' l : (forall m, m ∈ l -> node_of s' m = node_of s m) -> ordered s l -> ordered s' l.
Proof.
  unfold ordered. intros Hm Ho. induction Ho as [|x l Ho IH Hx]; constructor.
  - apply IH. intros m Hin. apply Hm. by right.
  - apply Forall_forall. intros y Hy. apply (proj1 (Forall_forall _ _) Hx) in Hy as Hxy. unfold before, start_of, end_of in *.
    rewrite !Hm; [done|by right|by left].
Qed.

Lemma rt_ok_same s s' : rt_root s' = rt_root s -> rt_head s' = rt_head s ->
  (forall m, m ∈ rt_head s -> node_of s' m = node_of s m) -> rt_ok s -> rt_ok s'.
Proof.
  intros Hr Hh Hm Hs. split; rewrite ?Hr, ?Hh; try apply Hs.
  - apply (ordered_same s); [done|apply Hs].
  - intros m Hin. pose proof (rt_valid _ Hs m Hin) as Hv. unfold valid_node, start_of, end_of in *. by rewrite Hm.
Qed.

Lemma set_absent_ok s n r : rt_ok s -> n ∉ rt_head s -> rt_ok (set_node n r s).
Proof.
  intros Hs Hn. apply (rt_ok_same s); try done. intros m Hin. rewrite node_of_set.
  by destruct (Z.eqb_spec m n) as [->|].
Qed.

Lemma set_node_ok s n r l1 l2 : rt_ok s -> rt_head s = l1 ++ n :: l2 -> 0 <= rn_start r <= rn_end r -> rn_end r < 2 ^ 64 ->
  below s (rn_start r) l1 -> above s (rn_end r) l2 -> rt_ok (set_node n r s).
Proof.
  intros Hs He Hr Hr2 Hb Ha. pose proof (rt_nodup _ Hs) as Hnd. rewrite He in Hnd. apply NoDup_split_notin in Hnd as [N1 N2].
  assert (forall m, m ∈ l1 \/ m ∈ l2 -> node_of (set_node n r s) m = node_of s m) as Hm.
  { intros m Hin. rewrite node_of_set. destruct (Z.eqb_spec m n) as [->|]; [|done]. by destruct Hin. }
  pose proof (rt_order _ Hs) as Ho. rewrite He in Ho. apply ordered_app in Ho as (O1 & [O2 _]%ordered_cons & O12).
  split; try apply Hs.
  - change (rt_head (set_node n r s)) with (rt_head s). rewrite He. apply ordered_app. split; [|split].
    + apply (ordered_same s); [intros; apply Hm; by left|done].
    + apply ordered_cons. split; [apply (ordered_same s); [intros; apply Hm; by right|done]|].
      apply Forall_forall. intros y Hy. apply (proj1 (Forall_forall _ _) Ha) in Hy as Hya.
      unfold before, end_of, start_of in *. rewrite node_of_set, Z.eqb_refl, Hm by (by right). done.
    + intros a b Hin [->|Hb2]%elem_of_cons.
      * apply (proj1 (Forall_forall _ _) Hb) in Hin as Hab. unfold before, end_of, start_of in *.
        rewrite Hm by (by left). rewrite node_of_set, Z.eqb_refl. done.
      * specialize (O12 a b Hin ltac:(by right)). unfold before, end_of, start_of in *. by rewrite !Hm by auto.
  - intros m Hin. change (rt_head (set_node n r s)) with (rt_head s) in Hin.
    unfold valid_node. rewrite start_of_set, end_of_set. destruct (m =? n); [done|]. by apply (rt_valid _ Hs).
Qed.

Lemma remove_ok s n l1 l2 : rt_ok s -> rt_head s = l1 ++ n :: l2 ->
  rt_ok (uvm_range_tree_remove n s) /\ rt_head (uvm_range_tree_remove n s) = l1 ++ l2.
Proof.
  intros Hs He. pose proof (rt_nodup _ Hs) as Hnd. pose proof Hnd as Hnd'. rewrite He in Hnd'.
  pose proof (NoDup_split_notin _ _ _ Hnd') as [N1 N2].
  assert (rt_head (uvm_range_tree_remove n s) = l1 ++ l2) as Hh by (cbn; rewrite He; by apply list_del_app).
  pose proof (rt_order _ Hs) as Ho. rewrite He in Ho. apply ordered_app in Ho as (O1 & [O2 _]%ordered_cons & O12).
  split; [|done]. split; rewrite ?Hh.
  - cbn. apply rb_erase_inorder; rewrite (rt_same _ Hs); done.
  - apply NoDup_app in Hnd' as (A1 & A12 & [_ A2]%NoDup_cons). apply NoDup_app. split; [done|]. split; [|done].
    intros x Hx Hx2. apply (A12 x Hx). by right.
  - apply ordered_app. split; [done|]. split; [done|]. intros a b Ha Hb. apply O12; [done|by right].
  - intros m Hm. apply (rt_valid _ Hs). rewrite He. set_solver.
Qed.

Lemma neighbours s n l1 l2 : rt_ok s -> rt_head s = l1 ++ n :: l2 ->
  below s (start_of s n) l1 /\ above s (end_of s n) l2 /\
  uvm_range_tree_prev s n = last l1 /\ uvm_range_tree_next s n = head l2.
Proof.
  intros Hs He. pose proof (rt_nodup _ Hs) as Hnd. rewrite He in Hnd. apply NoDup_split_notin in Hnd as [N1 N2].
  pose proof (rt_order _ Hs) as Ho. rewrite He in Ho. apply ordered_app in Ho as (O1 & [O2 O2n]%ordered_cons & O12).
  split; [|split; [|split]].
  - apply Forall_forall. intros x Hx. apply (O12 x n Hx). by left.
  - done.
  - unfold uvm_range_tree_prev. rewrite He. by apply prev_in_app.
  - unfold uvm_range_tree_next. rewrite He. by apply next_in_app.
Qed.

Lemma merge_next_spec s n l1 l2 : rt_ok s -> rt_head s = l1 ++ n :: l2 ->
  (exists nx l, l2 = nx :: l /\ start_of s nx = end_of s n + 1 /\ (uvm_range_tree_merge_next s n).1 = Some nx /\
    rt_ok (uvm_range_tree_merge_next s n).2 /\ rt_head (uvm_range_tree_merge_next s n).2 = l1 ++ n :: l /\
    forall m, node_of (uvm_range_tree_merge_next s n).2 m = if m =? n then mk_range (start_of s n) (end_of s nx) else node_of s m) \/
  (uvm_range_tree_merge_next s n = (None, s) /\ forall nx, head l2 = Some nx -> end_of s n + 1 < start_of s nx).
Proof.
  intros Hs He. destruct (neighbours s n l1 l2 Hs He) as (Hb & Ha & _ & Hnx). unfold uvm_range_tree_merge_next. rewrite Hnx.
  destruct l2 as [|nx l]; simpl; [right; by split|].
  assert (valid_node s n) as Hv by (apply (rt_valid _ Hs); rewrite He; set_solver).
  assert (valid_node s nx) as Hvx by (apply (rt_valid _ Hs); rewrite He; set_solver).
  apply Forall_cons in Ha as [Hanx Hal]. unfold valid_node in Hv, Hvx.
  rewrite wrap_id by (unfold in_width; lia). destruct (Z.eqb_spec (start_of s nx) (end_of s n + 1)) as [Heq|Hne].
  - left. exists nx, l. split; [done|]. split; [done|]. split; [done|].
    destruct (remove_ok s nx (l1 ++ [n]) l) as [Hok Hh]; [done|by rewrite <- app_assoc|]. rewrite <- app_assoc in Hh. simpl in Hh.
    change (start_of (uvm_range_tree_remove nx s)) with (start_of s). change (end_of (uvm_range_tree_remove nx s)) with (end_of s).
    split; [|split; [done|intros m; cbn [fst snd]; rewrite node_of_set; by destruct (m =? n)]].
    apply (set_node_ok _ n _ l1 l Hok Hh); simpl; [lia|lia|done|].
    pose proof (rt_order _ Hs) as Ho. rewrite He in Ho. apply ordered_app in Ho as (_ & [[_ O3]%ordered_cons _]%ordered_cons & _).
    exact O3.
  - right. split; [done|]. intros x [= <-]. lia.
Qed.

Lemma merge_prev_spec s n l1 l2 : rt_ok s -> rt_head s = l1 ++ n :: l2 ->
  (exists pv l, l1 = l ++ [pv] /\ start_of s n = end_of s pv + 1 /\ (uvm_range_tree_merge_prev s n).1 = Some pv /\
    rt_ok (uvm_range_tree_merge_prev s n).2 /\ rt_head (uvm_range_tree_merge_prev s n).2 = l ++ n :: l2 /\
    forall m, node_of (uvm_range_tree_merge_prev s n).2 m = if m =? n then mk_range (start_of s pv) (end_of s n) else node_of s m) \/
  (uvm_range_tree_merge_prev s n = (None, s) /\ forall pv, last l1 = Some pv -> end_of s pv + 1 < start_of s n).
Proof.
  intros Hs He. destruct (neighbours s n l1 l2 Hs He) as (Hb & Ha & Hpv & _). unfold uvm_range_tree_merge_prev. rewrite Hpv.
  destruct (last l1) as [pv|] eqn:Hl; [|right; by split]. apply last_Some in Hl as [l ->].
  assert (valid_node s n) as Hv by (apply (rt_valid _ Hs); rewrite He; set_solver).
  assert (valid_node s pv) as Hvx by (apply (rt_valid _ Hs); rewrite He; set_solver).
  apply Forall_app in Hb as [Hbl [Hbp _]%Forall_cons]. unfold valid_node in Hv, Hvx.
  rewrite wrap_id by (unfold in_width; lia). destruct (Z.eqb_spec (end_of s pv) (start_of s n - 1)) as [Heq|Hne].
  - left. exists pv, l. split; [done|]. split; [lia|]. split; [done|].
    destruct (remove_ok s pv l (n :: l2)) as [Hok Hh]; [done|by rewrite He, <- app_assoc|].
    change (start_of (uvm_range_tree_remove pv s)) with (start_of s). change (end_of (uvm_range_tree_remove pv s)) with (end_of s).
    split; [|split; [done|intros m; cbn [fst snd]; rewrite node_of_set; by destruct (m =? n)]].
    apply (set_node_ok _ n _ l l2 Hok Hh); simpl; [lia|lia| |done].
    pose proof (rt_order _ Hs) as Ho. rewrite He, <- app_assoc in Ho. apply ordered_app in Ho as (_ & _ & O).
    apply Forall_forall. intros x Hx. specialize (O x pv Hx ltac:(by left)). exact O.
  - right. split; [done|]. intros x [= <-]. lia.
Qed.

(** An insertion into a known gap. *)
Lemma add_at s n l1 l2 : rt_ok s -> n ∉ rt_head s -> valid_node s n -> rt_head s = l1 ++ l2 ->
  below s (start_of s n) l1 -> above s (end_of s n) l2 ->
  (uvm_range_tree_add s n).1 = NV_OK /\ rt_ok (uvm_range_tree_add s n).2 /\
  rt_nodes (uvm_range_tree_add s n).2 = rt_nodes s /\ rt_head (uvm_range_tree_add s n).2 = l1 ++ n :: l2.
Proof.
  intros Hs Hn Hv He Hb Ha. pose proof (add_spec s n Hs Hn Hv) as Hadd. destruct (uvm_range_tree_add s n) as [st s'].
  cbn [fst snd] in *. destruct Hadd as [(Hst & Hok & Hno & _ & k1 & k2 & Hk & Hh)|(_ & _ & m & Hm & Ho)].
  2:{ rewrite He in Hm. by destruct (between_free s n l1 l2 m Hv Hb Ha Hm). }
  split; [done|]. split; [done|]. split; [done|]. rewrite Hh. pose proof (rt_order _ Hok) as Ho. rewrite Hh in Ho.
  assert (forall m, node_of s' m = node_of s m) as Hnode by (intros m; unfold node_of; by rewrite Hno).
  apply ordered_app in Ho as (_ & [_ O2]%ordered_cons & O1). unfold valid_node in Hv. rewrite He in Hk.
  assert (forall x, x ∈ l1 -> x ∉ k2) as H12.
  { intros x Hx Hk2. apply (proj1 (Forall_forall _ _) Hb) in Hx as Hbx. apply (proj1 (Forall_forall _ _) O2) in Hk2.
    assert (valid_node s x) as Hvx by (apply (rt_valid _ Hs); rewrite He; set_solver).
    unfold before, valid_node, start_of, end_of in *. rewrite !Hnode in Hk2. lia. }
  assert (forall x, x ∈ l2 -> x ∉ k1) as H21.
  { intros x Hx Hk1. apply (proj1 (Forall_forall _ _) Ha) in Hx as Hax. specialize (O1 x n Hk1 ltac:(by left)).
    assert (valid_node s x) as Hvx by (apply (rt_valid _ Hs); rewrite He; set_solver).
    unfold before, valid_node, start_of, end_of in *. rewrite !Hnode in O1. lia. }
  apply app_eq_inv in Hk as [(k & -> & ->)|(k & -> & ->)]; (destruct k as [|x k]; [by rewrite ?app_nil_r|]).
  - destruct (H12 x); set_solver.
  - destruct (H21 x); set_solver.
Qed.

(** A split leaves the first part in the node and puts the rest right after it. *)
Lemma split_spec s e n l1 l2 : rt_ok s -> rt_head s = l1 ++ e :: l2 -> n ∉ rt_head s ->
  start_of s e < start_of s n <= end_of s e ->
  rt_ok (uvm_range_tree_split s e n) /\ rt_head (uvm_range_tree_split s e n) = l1 ++ e :: n :: l2 /\
  forall m, node_of (uvm_range_tree_split s e n) m =
    if m =? e then mk_range (start_of s e) (start_of s n - 1)
    else if m =? n then mk_range (start_of s n) (end_of s e) else node_of s m.
Proof.
  intros Hs He Hn Hr. destruct (neighbours s e l1 l2 Hs He) as (Hb & Ha & _).
  assert (e ∈ rt_head s) as Hin by (rewrite He; set_solver). assert (e <> n) as Hne by congruence.
  pose proof (rt_valid _ Hs e Hin) as Hv. unfold valid_node in Hv. unfold uvm_range_tree_split.
  rewrite !start_of_set, Z.eqb_refl, (proj2 (Z.eqb_neq e n) Hne). cbn [rn_start].
  rewrite wrap_id by (unfold in_width; lia). set (s1 := set_node n _ s). set (s2 := set_node e _ s1).
  assert (forall m, node_of s2 m = if m =? e then mk_range (start_of s e) (start_of s n - 1)
    else if m =? n then mk_range (start_of s n) (end_of s e) else node_of s m) as Hno
    by (intros m; unfold s2, s1; by rewrite !node_of_set).
  assert (forall m, m <> e -> m ∈ rt_head s -> node_of s2 m = node_of s m) as Hsame.
  { intros m Hme Hm. rewrite Hno. destruct (Z.eqb_spec m e), (Z.eqb_spec m n) as [->|]; done. }
  pose proof (rt_nodup _ Hs) as Hnd. rewrite He in Hnd. apply NoDup_split_notin in Hnd as [N1 N2].
  assert (forall x, x ∈ l1 -> end_of s2 x < start_of s e) as Hb2.
  { intros x Hx. apply (proj1 (Forall_forall _ _) Hb) in Hx as Hlt. unfold end_of in *.
    rewrite Hsame; [done|congruence|rewrite He; set_solver]. }
  assert (forall x, x ∈ l2 -> end_of s e < start_of s2 x) as Ha2.
  { intros x Hx. apply (proj1 (Forall_forall _ _) Ha) in Hx as Hlt. unfold start_of in *.
    rewrite Hsame; [done|congruence|rewrite He; set_solver]. }
  assert (rt_ok s2) as H2.
  { apply (set_node_ok s1 e _ l1 l2); simpl; [by apply set_absent_ok|done|lia|lia| |].
    - apply Forall_forall. intros x Hx. specialize (Hb2 x Hx). unfold s2 in Hb2. rewrite end_of_set in Hb2.
      by destruct (Z.eqb_spec x e); [congruence|].
    - apply Forall_forall. intros x Hx. specialize (Ha2 x Hx). unfold s2 in Ha2. rewrite start_of_set in Ha2.
      destruct (Z.eqb_spec x e); [congruence|lia]. }
  assert (start_of s2 n = start_of s n /\ end_of s2 n = end_of s e) as [Hsn Hen].
  { unfold start_of, end_of. rewrite Hno, Z.eqb_refl. by destruct (Z.eqb_spec n e); [congruence|]. }
  assert (end_of s2 e = start_of s n - 1) as Hee by (unfold end_of; by rewrite Hno, Z.eqb_refl).
  destruct (add_at s2 n (l1 ++ [e]) l2 H2 Hn) as (_ & Hok & Hnodes & Hh).
  - unfold valid_node. lia.
  - by rewrite <- app_assoc.
  - rewrite Hsn. apply Forall_app. split; [|constructor; [lia|constructor]].
    apply Forall_forall. intros x Hx. specialize (Hb2 x Hx). simpl. lia.
  - rewrite Hen. by apply Forall_forall.
  - split; [done|]. split; [by rewrite Hh, <- app_assoc|]. intros m. rewrite <- Hno. unfold node_of. by rewrite Hnodes.
Qed.

(** The start of the hole after the nodes [l1] that end before [addr]. *)
Lemma hole_start s addr l1 l2 : rt_ok s -> 0 <= addr <= ULLONG_MAX -> rt_head s = l1 ++ l2 -> below s addr l1 ->
  let a := match last l1 with Some p => u64 (end_of s p + 1) | None => 0 end in
  0 <= a <= addr /\ (forall p, p ∈ l1 -> end_of s p < a) /\ (a = 0 \/ uvm_range_tree_find s (a - 1) <> None).
Proof.
  intros Hs Haddr He Hb a. unfold a. destruct (last l1) as [p|] eqn:Hl.
  - apply last_Some in Hl as [l ->]. assert (p ∈ rt_head s) as Hp by (rewrite He; apply elem_of_app; left; apply elem_of_app; right; by left).
    pose proof (rt_valid _ Hs p Hp) as Hvp. unfold valid_node in Hvp.
    apply Forall_app in Hb as [_ [Hbp _]%Forall_cons]. unfold ULLONG_MAX in Haddr. rewrite wrap_id by (unfold in_width; lia).
    split; [lia|]. split.
    + pose proof (rt_order _ Hs) as Ho. rewrite He in Ho. apply ordered_app in Ho as ((_ & _ & O)%ordered_app & _ & _).
      intros x [Hx|Hx]%elem_of_app; [|apply list_elem_of_singleton in Hx as ->; lia].
      specialize (O x p Hx ltac:(by left)). unfold before in O. lia.
    + right. replace (end_of s p + 1 - 1) with (end_of s p) by lia.
      assert (uvm_range_tree_find s (end_of s p) = Some p) as ->; [|done].
      apply (find_iff s Hs). split; [done|unfold covers; lia].
  - apply last_None in Hl as ->. split; [lia|]. split; [by intros p ?%elem_of_nil|by left].
Qed.

(** ** Correctness *)

(** C34: An insertion succeeds exactly when no address of the new range is taken;
    then exactly the addresses of the range are looked up as the new node, and
    otherwise nothing changes.  The tree stays well-formed. *)
Theorem range_tree_add_refines s n : rt_ok s -> n ∉ rt_head s -> valid_node s n ->
  let st := (uvm_range_tree_add s n).1 in
  let s' := (uvm_range_tree_add s n).2 in
  rt_ok s' /\
  (st = NV_OK <-> forall addr, covers s addr n -> uvm_range_tree_find s addr = None) /\
  (st = NV_OK -> forall addr, uvm_range_tree_find s' addr =
     if (start_of s n <=? addr) && (addr <=? end_of s n) then Some n else uvm_range_tree_find s addr) /\
  (st <> NV_OK -> st = NV_ERR_UVM_ADDRESS_IN_USE /\ s' = s).
Proof.
  intros Hs Hn Hv. pose proof (add_spec s n Hs Hn Hv) as Hadd. destruct (uvm_range_tree_add s n) as [st s']. cbn [fst snd] in *.
  destruct Hadd as [(Hst & Hok & Hno & Hfree & l1 & l2 & He & Hh)|(Hst & Heq & m & Hm & Ho)].
  - split; [done|]. split; [|split; [|congruence]].
    + split; [|done]. intros _ addr Hc. apply (find_none s Hs). intros m Hm Hcm. apply (Hfree m Hm).
      unfold covers, overlap in *. lia.
    + intros _ addr. apply option_eq. intros m. rewrite (find_iff s' Hok), Hh.
      assert (covers s' addr m <-> covers s addr m) as Hc by (unfold covers, start_of, end_of, node_of; by rewrite Hno).
      rewrite Hc. assert (m ∈ l1 ++ n :: l2 <-> m = n \/ m ∈ rt_head s) as -> by (rewrite He; set_solver).
      destruct (Z.leb_spec (start_of s n) addr), (Z.leb_spec addr (end_of s n)); simpl.
      1:{ assert (covers s addr n) as Hcn by (unfold covers; lia). split.
        - intros [[->|Hm] Hcm]; [done|]. destruct (Hfree m Hm). unfold covers, overlap in *. lia.
        - intros [= ->]. auto. }
      all: rewrite (find_iff s Hs); split; [|tauto]; intros [[->|Hm] Hcm]; [unfold covers in Hcm; lia|done].
  - rewrite Hst, Heq. split; [done|]. split; [|split; [done|done]]. split; [done|]. intros Hfree.
    (* the first common address is taken *)
    set (a := Z.max (start_of s n) (start_of s m)). pose proof (rt_valid _ Hs m Hm) as Hvm.
    assert (covers s a n) as Ha by (unfold covers, overlap, valid_node, a in *; lia).
    apply Hfree in Ha. apply (find_none s Hs) with (n := m) in Ha; [|done]. destruct Ha.
    unfold covers, overlap, valid_node, a in *. lia.
Qed.

(** A hole is found exactly for the addresses in no range; it contains the address
    and no address of a range, and it cannot be extended. *)
Lemma find_hole_spec s addr : rt_ok s -> 0 <= addr <= ULLONG_MAX ->
  match uvm_range_tree_find_hole s addr with
  | (st, (a, b)) =>
      (st = NV_OK <-> uvm_range_tree_find s addr = None) /\ (st <> NV_OK -> st = NV_ERR_UVM_ADDRESS_IN_USE) /\
      (st = NV_OK -> 0 <= a <= addr /\ addr <= b <= ULLONG_MAX /\
         (forall x, a <= x <= b -> uvm_range_tree_find s x = None) /\
         (a = 0 \/ uvm_range_tree_find s (a - 1) <> None) /\
         (b = ULLONG_MAX \/ uvm_range_tree_find s (b + 1) <> None))
  end.
Proof.
  intros Hs Haddr. destruct (iter_first_split s Hs addr ULLONG_MAX ltac:(lia)) as (l1 & l2 & He & Hb & Ha & Hi).
  unfold uvm_range_tree_find_hole. rewrite Hi. clear Hi.
  destruct (hole_start s addr l1 l2 Hs Haddr He Hb) as (Ha1 & Ha2 & Ha3).
  set (a := match last l1 with Some p => u64 (end_of s p + 1) | None => 0 end) in *.
  assert (forall b, (forall p, p ∈ l2 -> b < start_of s p) -> forall x, a <= x <= b -> uvm_range_tree_find s x = None) as Hfree.
  { intros b Hb2 x Hx. apply (find_none s Hs). intros p. rewrite He. intros [Hp|Hp]%elem_of_app Hc; unfold covers in Hc.
    - specialize (Ha2 p Hp). lia.
    - specialize (Hb2 p Hp). lia. }
  destruct l2 as [|n l2]; cbn [head mbind option_bind].
  - unfold uvm_range_tree_last. rewrite He, app_nil_r. fold a. assert (forall p : Z, p ∈ [] -> ULLONG_MAX < start_of s p) as Hnil
      by (by intros p ?%elem_of_nil). specialize (Hfree ULLONG_MAX Hnil). split; [split; [intros _; apply Hfree; lia|done]|].
    split; [done|]. intros _. split; [lia|]. split; [lia|]. split; [done|]. auto.
  - assert (n ∈ rt_head s) as Hn by (rewrite He; apply elem_of_app; right; by left).
    pose proof (rt_valid _ Hs n Hn) as Hvn. unfold valid_node in Hvn. apply Forall_cons in Ha as [Han Ha].
    destruct (Z.leb_spec (start_of s n) ULLONG_MAX) as [_|Hbig]; [|unfold ULLONG_MAX in *; lia]. simpl.
    assert (uvm_range_tree_prev s n = last l1) as -> by (by apply (neighbours s n l1 l2)). fold a.
    destruct (Z.leb_spec (start_of s n) addr) as [Hin|Hout].
    + assert (uvm_range_tree_find s addr = Some n) as ->
        by (apply (find_iff s Hs); split; [done|unfold covers; lia]). repeat split; try done.
    + rewrite wrap_id by (unfold in_width; lia).
      assert (forall p, p ∈ n :: l2 -> start_of s n - 1 < start_of s p) as Hlt.
      { intros p [->|Hp]%elem_of_cons; [lia|]. destruct (neighbours s n l1 l2 Hs He) as (_ & Hab & _).
        apply (proj1 (Forall_forall _ _) Hab) in Hp. lia. }
      specialize (Hfree _ Hlt). split; [split; [intros _; apply Hfree; lia|done]|]. split; [done|]. intros _.
      unfold ULLONG_MAX. split; [lia|]. split; [lia|]. split; [done|]. split; [done|]. right.
      replace (start_of s n - 1 + 1) with (start_of s n) by lia.
      assert (uvm_range_tree_find s (start_of s n) = Some n) as ->; [|done].
      apply (find_iff s Hs). split; [done|unfold covers; lia].
Qed.

(** A hole is found in a range exactly when the address is in no node; what
    is returned contains the address and no address of a node, and it ends only at
    a node or at the bounds that were passed, which are otherwise left as they
    were. *)
Theorem find_hole_in_maximal s addr a b : rt_ok s -> 0 <= a <= addr -> addr <= b <= ULLONG_MAX ->
  match uvm_range_tree_find_hole_in s addr a b with
  | (st, (x, y)) =>
      (st = NV_OK <-> uvm_range_tree_find s addr = None) /\
      (st <> NV_OK -> st = NV_ERR_UVM_ADDRESS_IN_USE /\ (x, y) = (a, b)) /\
      (st = NV_OK -> a <= x <= addr /\ addr <= y <= b /\ (forall z, x <= z <= y -> uvm_range_tree_find s z = None) /\
         (x = a \/ uvm_range_tree_find s (x - 1) <> None) /\ (y = b \/ uvm_range_tree_find s (y + 1) <> None))
  end.
Proof.
  intros Hs Ha Hb. pose proof (find_hole_spec s addr Hs ltac:(lia)) as Hh. unfold uvm_range_tree_find_hole_in.
  destruct (uvm_range_tree_find_hole s addr) as [st [hs he]]. destruct Hh as (Hst & Herr & Hok).
  destruct (is_ok st) eqn:Hi; (split; [done|]); [apply is_ok_true in Hi as ->|].
  - split; [done|]. intros _. destruct (Hok eq_refl) as (Hhs & Hhe & Hfree & Hl & Hr). split; [lia|]. split; [lia|]. split.
    + intros z Hz. apply Hfree. lia.
    + split; [destruct (Z.max_spec hs a) as [[? ->]|[? ->]]|destruct (Z.min_spec he b) as [[? ->]|[? ->]]]; try (by left).
      * destruct Hl as [->|]; [left; lia|by right].
      * destruct Hr as [->|]; [left; unfold ULLONG_MAX in *; lia|by right].
  - assert (st <> NV_OK) as Hne by (intros Heq; by rewrite Heq in Hi).
    split; [intros Hbad; split; [by apply Herr|done]|intros Heq; by destruct Hne].
Qed.

(** Splitting a node and merging the halves again gives back the tree: after
    the split each half is found as its own node, and [uvm_range_tree_merge_next]
    then removes the new node and restores every lookup. *)
Theorem split_merge_roundtrip s e n : rt_ok s -> e ∈ rt_head s -> n ∉ rt_head s ->
  start_of s e < start_of s n <= end_of s e ->
  let s1 := uvm_range_tree_split s e n in
  let r := uvm_range_tree_merge_next s1 e in
  rt_ok s1 /\
  (forall addr, uvm_range_tree_find s1 addr =
     if (start_of s n <=? addr) && (addr <=? end_of s e) then Some n else uvm_range_tree_find s addr) /\
  r.1 = Some n /\ rt_ok r.2 /\ rt_head r.2 = rt_head s /\ forall m, m <> n -> node_of r.2 m = node_of s m.
Proof.
  intros Hs Hin Hn Hr s1 r. apply list_elem_of_split in Hin as (l1 & l2 & He).
  assert (forall m, m ∈ l1 ++ e :: n :: l2 <-> m = n \/ m ∈ rt_head s) as Hmem by (intros m; rewrite He; set_solver).
  destruct (split_spec s e n l1 l2 Hs He Hn Hr) as (H1 & Hh1 & Hno). fold s1 in H1, Hh1, Hno.
  assert (e <> n) as Hne by (rewrite He in Hn; set_solver).
  assert (node_of s1 e = mk_range (start_of s e) (start_of s n - 1)) as He1 by (by rewrite Hno, Z.eqb_refl).
  assert (node_of s1 n = mk_range (start_of s n) (end_of s e)) as Hn1
    by (rewrite Hno, Z.eqb_refl; by destruct (Z.eqb_spec n e); [congruence|]).
  split; [done|]. split.
  - intros addr. apply option_eq. intros m. rewrite (find_iff s1 H1), Hh1, Hmem.
    assert (m <> e -> m <> n -> covers s1 addr m = covers s addr m) as Hcm.
    { intros ? ?. unfold covers, start_of, end_of. rewrite Hno. by destruct (Z.eqb_spec m e), (Z.eqb_spec m n). }
    assert (covers s1 addr n <-> start_of s n <= addr <= end_of s e) as Hcn by (unfold covers, start_of, end_of; by rewrite Hn1).
    assert (covers s1 addr e <-> start_of s e <= addr < start_of s n) as Hce
      by (unfold covers, start_of, end_of in *; rewrite He1; simpl; lia).
    assert (e ∈ rt_head s) as Hin by (rewrite He; set_solver).
    destruct (Z.leb_spec (start_of s n) addr), (Z.leb_spec addr (end_of s e)); simpl.
    1:{ split; [|intros [= <-]; rewrite Hcn; split; [by left|done]].
      intros [[->|Hm] Hc]; [done|]. f_equal.
      apply (covers_unique s1 H1 addr n m); [rewrite Hh1, Hmem; by left|rewrite Hh1, Hmem; by right|by apply Hcn|done]. }
    all: rewrite (find_iff s Hs); destruct (decide (m = n)) as [->|Hmn]; [by rewrite Hcn; split; [lia|intros []]|].
    all: destruct (decide (m = e)) as [->|Hme]; [rewrite Hce; unfold covers; split; intros [_ ?]; (split; [auto|lia])|].
    all: rewrite Hcm by done; intuition congruence.
  - unfold r. destruct (merge_next_spec s1 e l1 (n :: l2) H1 Hh1) as [(nx & l & [= <- <-] & _ & Hst & Hok & Hh & Hno2)|[_ Hgap]].
    + split; [done|]. split; [done|]. split; [by rewrite Hh, He|]. intros m Hm. rewrite Hno2, Hno.
      destruct (Z.eqb_spec m e) as [->|_]; [|by destruct (Z.eqb_spec m n)].
      unfold start_of at 1, end_of at 1. rewrite He1, Hn1. simpl. unfold start_of, end_of. by destruct (node_of s e).
    + specialize (Hgap n eq_refl). unfold start_of, end_of in Hgap. rewrite He1, Hn1 in Hgap. simpl in Hgap. unfold start_of in Hgap. lia.
Qed.

End Changes.

(** ** A tree on which the laws hold *)

Fixpoint right_spine (l : list Z) : rb_tree :=
  match l with
  | x :: l => rb_node rb_null x (right_spine l)
  | [] => rb_null
  end.

Lemma right_spine_inorder l : inorder (right_spine l) = l.
Proof. induction l as [|x l IH]; [done|]. simpl. by rewrite IH. Qed.

(** A tree that is never rebalanced, and rebuilt when a node goes. *)
Definition flat_tree : RbTree := {|
  rb_insert_color := fun _ t => t;
  rb_erase := fun n t => right_spine (list_del n (inorder t));
|}.

Lemma flat_tree_laws : @RbTreeLaws flat_tree.
Proof.
  split; [done|]. intros n t l1 l2 Hnd He. simpl. rewrite right_spine_inorder, He in *.
  apply NoDup_split_notin in Hnd as []. by apply list_del_app.
Qed.

(** Three ranges, and the bounds of a fourth node that is not in the tree. *)
Definition sample_tree : uvm_range_tree_t :=
  mk_range_tree (rb_node (rb_node rb_null 1 rb_null) 3 (rb_node rb_null 2 rb_null)) [1; 3; 2]
    (<[1 := mk_range 16 31]> (<[2 := mk_range 64 79]> (<[3 := mk_range 32 47]> (<[4 := mk_range 48 63]> (<[5 := mk_range 36 36]> ∅))))).

Lemma sample_tree_ok : rt_ok sample_tree.
Proof.
  split; [done|by apply (bool_decide_unpack _); vm_compute| |].
  - by repeat constructor.
  - intros n Hn. unfold valid_node. cbn [rt_head sample_tree] in Hn.
    repeat (apply elem_of_cons in Hn as [->|Hn]; [vm_compute; intuition congruence|]). by apply elem_of_nil in Hn.
Qed.

Lemma sample_valid : valid_node sample_tree 4.
Proof. vm_compute. intuition congruence. Qed.

Lemma sample_absent n : bool_decide (n ∉ rt_head sample_tree) = true -> n ∉ rt_head sample_tree.
Proof. apply bool_decide_eq_true_1. Qed.

Lemma range_tree_add_refines_witness :
  (uvm_range_tree_add (H := flat_tree) sample_tree 4).1 = NV_OK /\
  uvm_range_tree_find (uvm_range_tree_add (H := flat_tree) sample_tree 4).2 50 = Some 4.
Proof.
  destruct (range_tree_add_refines (Laws := flat_tree_laws) sample_tree 4 sample_tree_ok (sample_absent 4 eq_refl) sample_valid)
    as (_ & _ & Hf & _).
  split; [by vm_compute|]. by rewrite Hf by (by vm_compute).
Defined.

Lemma find_hole_in_maximal_witness :
  uvm_range_tree_find_hole_in sample_tree 50 0 60 = (NV_OK, (48, 60)) /\ uvm_range_tree_find sample_tree 55 = None.
Proof.
  pose proof (find_hole_in_maximal sample_tree 50 0 60 sample_tree_ok ltac:(lia) ltac:(unfold ULLONG_MAX; lia)) as Hh.
  assert (uvm_range_tree_find_hole_in sample_tree 50 0 60 = (NV_OK, (48, 60))) as He by (by vm_compute).
  split; [done|]. rewrite He in Hh. destruct Hh as (_ & _ & Hin). destruct (Hin eq_refl) as (_ & _ & Hfree & _). apply Hfree. lia.
Defined.

Lemma split_merge_roundtrip_witness :
  (uvm_range_tree_merge_next (H := flat_tree) (uvm_range_tree_split (H := flat_tree) sample_tree 3 5) 3).1 = Some 5.
Proof.
  apply (split_merge_roundtrip (Laws := flat_tree_laws) sample_tree 3 5 sample_tree_ok).
  - by apply (bool_decide_unpack _); vm_compute.
  - by apply sample_absent.
  - vm_compute. intuition congruence.
Defined.
