(* ===== verification/RangeAllocator.v ===== *)
(** * The range allocator

    First-fit allocation of address ranges ([uvm_range_allocator.c],
    [uvm_range_allocator.h]).  The free ranges are the nodes of a range tree; an
    allocation holds the node that its release puts back.  [rt_nodes] is the heap
    of nodes: [uvm_kvfree] deletes from it, and the pointer that [uvm_kvmalloc]
    returned is an argument of the operations that call it. *)

From stdpp Require Import gmap.
From S2P Require Import Prelude RangeTree.

Local Open Scope Z_scope.

(** ** Data *)

Record uvm_range_allocator_t : Type := mk_allocator {
  ra_size : Z;
  ra_tree : uvm_range_tree_t;
}.

#[export] Instance allocator_eta : Eta uvm_range_allocator_t := fun a => mk_allocator (ra_size a) (ra_tree a).

Record uvm_range_allocation_t : Type := mk_allocation {
  aligned_start : Z;
  al_node : option Z;
}.

#[export] Instance allocation_eta : Eta uvm_range_allocation_t := fun a => mk_allocation (aligned_start a) (al_node a).

(** ** Operations *)

Definition uvm_kvfree (n : Z) (t : uvm_range_tree_t) : uvm_range_tree_t := t <| rt_nodes ::= delete n |>.

Definition kvfree_opt (n : option Z) (t : uvm_range_tree_t) : uvm_range_tree_t :=
  match n with Some n => uvm_kvfree n t | None => t end.

Section Ops.
  Context `{RbTree}.

Definition uvm_range_allocator_init (size : Z) (new : option Z) (ra : uvm_range_allocator_t) : NV_STATUS * uvm_range_allocator_t :=
  let ra := ra <| ra_tree ::= uvm_range_tree_init |> in
  match new with
  | None => (NV_ERR_NO_MEMORY, ra)
  | Some n =>
      let t := set_node n (mk_range 0 (u64 (size - 1))) (ra_tree ra) in
      (NV_OK, ra <| ra_tree := (uvm_range_tree_add t n).2 |> <| ra_size := size |>)
  end.

(** The node that [deinit] removes; the assertions on it are [deinit_asserts]. *)
Definition deinit_node (ra : uvm_range_allocator_t) : option Z :=
  uvm_range_tree_iter_first (ra_tree ra) 0 (u64 (ra_size ra - 1)).

Definition deinit_asserts (ra : uvm_range_allocator_t) : bool :=
  match deinit_node ra with
  | Some n => (start_of (ra_tree ra) n =? 0) && (end_of (ra_tree ra) n =? u64 (ra_size ra - 1))
  | None => false
  end.

Definition uvm_range_allocator_deinit (ra : uvm_range_allocator_t) : uvm_range_allocator_t :=
  match deinit_node ra with
  | Some n => ra <| ra_tree ::= fun t => uvm_kvfree n (uvm_range_tree_remove n t) |>
  | None => ra
  end.

(** Whether the request fits in the node, and where. *)
Definition node_fits (t : uvm_range_tree_t) (size alignment n : Z) : option Z :=
  let start := UVM_ALIGN_UP (start_of t n) alignment in
  let aligned_end := u64 (start + size - 1) in
  if (start <? start_of t n) || (aligned_end <? start) then None
  else if end_of t n <? aligned_end then None
  else Some start.

Fixpoint first_fit (t : uvm_range_tree_t) (size alignment : Z) (l : list Z) : option (Z * Z) :=
  match l with
  | n :: l =>
      match node_fits t size alignment n with
      | Some start => Some (n, start)
      | None => first_fit t size alignment l
      end
  | [] => None
  end.

(** The body of the loop for the node that fits. *)
Definition claim_node (size n start new : Z) (t : uvm_range_tree_t) : uvm_range_tree_t :=
  let aligned_end := u64 (start + size - 1) in
  let t := set_node new (mk_range (start_of t n) aligned_end) t in
  if aligned_end <? end_of t n then uvm_range_tree_shrink_node n (u64 (aligned_end + 1)) (end_of t n) t
  else uvm_kvfree n (uvm_range_tree_remove n t).

Definition uvm_range_allocator_alloc (ra : uvm_range_allocator_t) (size alignment : Z) (new : option Z) (al : uvm_range_allocation_t) :
    NV_STATUS * (uvm_range_allocator_t * uvm_range_allocation_t) :=
  let alignment := if alignment =? 0 then 1 else alignment in
  if ra_size ra <? size then (NV_ERR_UVM_ADDRESS_IN_USE, (ra, al))
  else
    let al := al <| al_node := new |> in
    match new with
    | None => (NV_ERR_NO_MEMORY, (ra, al))
    | Some m =>
        match first_fit (ra_tree ra) size alignment (uvm_range_tree_for_each_in (ra_tree ra) 0 (u64 (ra_size ra - size))) with
        | Some (n, start) =>
            (NV_OK, (ra <| ra_tree ::= claim_node size n start m |>, al <| aligned_start := start |>))
        | None => (NV_ERR_UVM_ADDRESS_IN_USE, (ra <| ra_tree ::= uvm_kvfree m |>, al <| al_node := None |>))
        end
    end.

Definition release_node (n : Z) (t : uvm_range_tree_t) : uvm_range_tree_t :=
  let t := (uvm_range_tree_add t n).2 in
  let '(adjacent_node, t) := uvm_range_tree_merge_prev t n in
  let t := kvfree_opt adjacent_node t in
  let '(adjacent_node, t) := uvm_range_tree_merge_next t n in
  kvfree_opt adjacent_node t.

(** [al] is [None] for a null pointer; an allocation that is released has its node. *)
Definition uvm_range_allocator_free (ra : uvm_range_allocator_t) (al : option uvm_range_allocation_t) :
    uvm_range_allocator_t * option uvm_range_allocation_t :=
  match al with
  | Some (mk_allocation start (Some n)) => (ra <| ra_tree ::= release_node n |>, Some (mk_allocation start None))
  | _ => (ra, al)
  end.

End Ops.

(** ** The tiling

    How many of the nodes cover an address: exactly one of the free and the
    allocated nodes covers each address below the size. *)

Definition cover (t : uvm_range_tree_t) (addr n : Z) : Z :=
  if (start_of t n <=? addr) && (addr <=? end_of t n) then 1 else 0.

Lemma cover_bound t addr n : 0 <= cover t addr n <= 1.
Proof. unfold cover. destruct (_ && _); lia. Qed.

Lemma cover_iff t addr n : cover t addr n = 1 <-> covers t addr n.
Proof.
  unfold cover, covers. destruct (Z.leb_spec (start_of t n) addr), (Z.leb_spec addr (end_of t n)); simpl; lia.
Qed.

Lemma cover_same t t' addr n : node_of t' n = node_of t n -> cover t' addr n = cover t addr n.
Proof. unfold cover, start_of, end_of. by intros ->. Qed.

Lemma sum_cover_same t t' addr l : (forall m, m ∈ l -> node_of t' m = node_of t m) -> sumz (cover t' addr) l = sumz (cover t addr) l.
Proof. intros Hm. apply sumz_ext. intros m Hin. by apply cover_same, Hm. Qed.

Lemma sum_cover_nonneg t addr l : 0 <= sumz (cover t addr) l.
Proof. apply sumz_nonneg. intros m _. apply cover_bound. Qed.

Lemma sum_cover_elem t addr l n : n ∈ l -> covers t addr n -> 1 <= sumz (cover t addr) l.
Proof.
  intros Hn Hc. apply cover_iff in Hc. rewrite <- Hc. apply (sumz_elem_le (cover t addr)); [|done]. intros m _. apply cover_bound.
Qed.

Lemma sum_cover_pos t addr l : 0 < sumz (cover t addr) l -> exists n, n ∈ l /\ covers t addr n.
Proof.
  induction l as [|x l IH]; [simpl; lia|]. rewrite sumz_cons. intros Hp. pose proof (cover_bound t addr x).
  destruct (decide (cover t addr x = 1)) as [Hx%cover_iff|Hx]; [exists x; split; [by left|done]|].
  destruct IH as (n & Hn & Hc); [lia|]. exists n. split; [by right|done].
Qed.

Record ra_base (ra : uvm_range_allocator_t) (live : list Z) : Prop := {
  ra_rt : rt_ok (ra_tree ra);
  ra_width : 0 < ra_size ra < 2 ^ 64;
  ra_nodup : NoDup (rt_head (ra_tree ra) ++ live);
  ra_heap : forall n, n ∈ dom (rt_nodes (ra_tree ra)) <-> n ∈ rt_head (ra_tree ra) ++ live;
  ra_live : forall n, n ∈ live -> valid_node (ra_tree ra) n;
  ra_tiles : forall addr, sumz (cover (ra_tree ra) addr) (rt_head (ra_tree ra)) + sumz (cover (ra_tree ra) addr) live =
    if (0 <=? addr) && (addr <? ra_size ra) then 1 else 0;
}.

(** Free nodes do not touch: they are merged when they are freed. *)
Record ra_ok (ra : uvm_range_allocator_t) (live : list Z) : Prop := {
  ra_ok_base :> ra_base ra live;
  ra_gaps : forall a b, a ∈ rt_head (ra_tree ra) -> b ∈ rt_head (ra_tree ra) -> start_of (ra_tree ra) b <> end_of (ra_tree ra) a + 1;
}.

Lemma sum_cover_two t addr l n m : NoDup l -> n ∈ l -> m ∈ l -> n <> m -> covers t addr n -> covers t addr m ->
  2 <= sumz (cover t addr) l.
Proof.
  intros Hnd Hn Hm Hne Cn Cm. apply list_elem_of_split in Hn as (l1 & l2 & ->).
  assert (m ∈ l1 ++ l2) as Hin by set_solver. pose proof (sum_cover_elem t addr _ m Hin Cm) as Hs.
  rewrite sumz_app, sumz_cons. rewrite sumz_app in Hs. apply cover_iff in Cn. lia.
Qed.

Section Ok.
  Context (ra : uvm_range_allocator_t) (live : list Z) (Hok : ra_base ra live).
Abbreviation t := (ra_tree ra).
Abbreviation all := (rt_head t ++ live).

Lemma tiles_all addr : sumz (cover t addr) all = if (0 <=? addr) && (addr <? ra_size ra) then 1 else 0.
Proof. rewrite sumz_app. apply (ra_tiles _ _ Hok). Qed.

Lemma tile_unique addr n m : n ∈ all -> m ∈ all -> covers t addr n -> covers t addr m -> n = m.
Proof.
  intros Hn Hm Cn Cm. destruct (decide (n = m)) as [|Hne]; [done|].
  pose proof (sum_cover_two t addr all n m (ra_nodup _ _ Hok) Hn Hm Hne Cn Cm) as H2. rewrite tiles_all in H2.
  destruct (_ && _); lia.
Qed.

Lemma tile_bound addr n : n ∈ all -> covers t addr n -> 0 <= addr < ra_size ra.
Proof.
  intros Hn Hc. pose proof (sum_cover_elem t addr all n Hn Hc) as H1. rewrite tiles_all in H1.
  destruct (Z.leb_spec 0 addr), (Z.ltb_spec addr (ra_size ra)); simpl in *; lia.
Qed.

Lemma tile_valid n : n ∈ all -> valid_node t n.
Proof. intros [Hn|Hn]%elem_of_app; [by apply (rt_valid _ (ra_rt _ _ Hok))|by apply (ra_live _ _ Hok)]. Qed.

Lemma tile_end n : n ∈ all -> end_of t n < ra_size ra.
Proof.
  intros Hn. apply tile_valid in Hn as Hv. unfold valid_node in Hv. apply (tile_bound (end_of t n) n Hn). unfold covers. lia.
Qed.

End Ok.

(** A block of free addresses lies in one node, because free nodes never touch. *)
Lemma free_block_in_node ra live a len : ra_ok ra live -> 0 < len -> (forall x, a <= x < a + len -> uvm_range_tree_find (ra_tree ra) x <> None) ->
  exists n, n ∈ rt_head (ra_tree ra) /\ start_of (ra_tree ra) n <= a /\ a + len - 1 <= end_of (ra_tree ra) n.
Proof.
  intros Hok Hlen Hfree. pose proof (ra_rt _ _ Hok) as Ht.
  destruct (uvm_range_tree_find (ra_tree ra) a) as [n|] eqn:Hn; [|by destruct (Hfree a ltac:(lia))].
  apply (find_iff (ra_tree ra) Ht) in Hn as [Hn Cn]. unfold covers in Cn. exists n. split; [done|]. split; [lia|].
  destruct (Z.le_gt_cases (a + len - 1) (end_of (ra_tree ra) n)) as [|Hgt]; [done|].
  destruct (uvm_range_tree_find (ra_tree ra) (end_of (ra_tree ra) n + 1)) as [m|] eqn:Hm; [|by destruct (Hfree (end_of (ra_tree ra) n + 1) ltac:(lia))].
  apply (find_iff (ra_tree ra) Ht) in Hm as [Hm Cm]. pose proof (ra_gaps _ _ Hok n m Hn Hm) as Hg. unfold covers in Cm.
  assert (n = m) as <-; [|lia]. apply (covers_unique (ra_tree ra) Ht (end_of (ra_tree ra) n)); try done; unfold covers; lia.
Qed.

Lemma node_of_kvfree n t m : m <> n -> node_of (uvm_kvfree n t) m = node_of t m.
Proof. intros Hne. unfold node_of, uvm_kvfree. cbn. by rewrite lookup_total_delete_ne. Qed.

Lemma kvfree_ok n t : rt_ok t -> n ∉ rt_head t -> rt_ok (uvm_kvfree n t).
Proof. intros Ht Hn. apply (rt_ok_same t); try done. intros m Hm. apply node_of_kvfree. congruence. Qed.

(** ** Allocation *)

Lemma node_fits_spec t size k n : valid_node t n -> 0 < size < 2 ^ 64 -> 0 <= k < 64 ->
  match node_fits t size (2 ^ k) n with
  | Some a => start_of t n <= a /\ (2 ^ k | a) /\ a + size - 1 <= end_of t n
  | None => forall a, (2 ^ k | a) -> start_of t n <= a -> a + size - 1 <= end_of t n -> False
  end.
Proof.
  intros Hv Hsz Hk. unfold valid_node in Hv. unfold node_fits. assert (0 < 2 ^ k) as Hp by lia.
  destruct (align_up_spec (start_of t n) k) as [(Hle & Hr & Hd)|[Hover Hz]]; [lia|done| |].
  - set (r := UVM_ALIGN_UP (start_of t n) (2 ^ k)) in *. assert (0 <= r < 2 ^ 64) as Hrw by lia.
    assert (forall a, (2 ^ k | a) -> start_of t n <= a -> r <= a) as Hleast
      by (intros a Hda Ha; apply (divide_le (2 ^ k)); [done|done|done|lia]).
    destruct (Z.ltb_spec r (start_of t n)); [lia|]. simpl.
    assert (u64 (r + size - 1) = r + size - 1 \/ (2 ^ 64 <= r + size - 1 /\ u64 (r + size - 1) < r)) as [->|[Ho Hw]].
    { destruct (Z.lt_ge_cases (r + size - 1) (2 ^ 64)) as [Hlt|Hge]; [left; apply wrap_id; unfold in_width; lia|right].
      split; [done|]. unfold wrap. rewrite <- (Z.mod_unique (r + size - 1) (2 ^ 64) 1 (r + size - 1 - 2 ^ 64)) by lia. lia. }
    + destruct (Z.ltb_spec (r + size - 1) r); [lia|]. destruct (Z.ltb_spec (end_of t n) (r + size - 1)) as [Hlt|Hge]; [|by repeat split].
      intros a Ha Hsa He. specialize (Hleast a Ha Hsa). lia.
    + destruct (Z.ltb_spec (u64 (r + size - 1)) r); [|lia]. intros a Ha Hsa He. specialize (Hleast a Ha Hsa). lia.
  - rewrite Hz. destruct (Z.ltb_spec 0 (start_of t n)) as [_|Hs0]; simpl.
    + intros a Hda Hsa He. assert (2 ^ 64 <= a); [|lia]. apply (divide_le (2 ^ k)); [done| |done|lia].
      exists (2 ^ (64 - k)). rewrite <- Z.pow_add_r by lia. f_equal. lia.
    + assert (2 ^ k < 2 ^ 64) by (apply Z.pow_lt_mono_r; lia). lia.
Qed.

Lemma first_fit_spec t size alignment l :
  match first_fit t size alignment l with
  | Some (n, a) => n ∈ l /\ node_fits t size alignment n = Some a
  | None => forall n, n ∈ l -> node_fits t size alignment n = None
  end.
Proof.
  induction l as [|x l IH]; simpl; [by intros n ?%elem_of_nil|].
  destruct (node_fits t size alignment x) as [a|] eqn:Hx; [split; [by left|done]|].
  destruct (first_fit t size alignment l) as [[n a]|]; [destruct IH; split; [by right|done]|].
  intros n [->|Hn]%elem_of_cons; [done|]. by apply IH.
Qed.

Lemma dom_set n r t x : x ∈ dom (rt_nodes (set_node n r t)) <-> x = n \/ x ∈ dom (rt_nodes t).
Proof. cbn. rewrite dom_insert_L. set_solver. Qed.

Lemma dom_kvfree n t x : x ∈ dom (rt_nodes (uvm_kvfree n t)) <-> x <> n /\ x ∈ dom (rt_nodes t).
Proof. cbn. rewrite dom_delete_L. set_solver. Qed.

Section Alloc.
  Context `{Laws : RbTreeLaws}.

(** The node that fits, [n], is replaced by the allocated node [m] and its rest. *)
Section Claim.
  Context (ra : uvm_range_allocator_t) (live : list Z) (Hok : ra_ok ra live) (n m e : Z).
Abbreviation t := (ra_tree ra).
  Hypothesis Hn : n ∈ rt_head t.
  Hypothesis Hm : m ∉ dom (rt_nodes t).
  Hypothesis He : start_of t n <= e <= end_of t n.

Let t1 := set_node m (mk_range (start_of t n) e) t.

Lemma claim_fresh : (m ∉ rt_head t) /\ (m ∉ live) /\ m <> n.
Proof.
  clear -Hok Hm Hn. rewrite (ra_heap _ _ Hok), not_elem_of_app in Hm. destruct Hm. split; [done|]. split; [done|congruence].
Qed.

Lemma claim_live x : x ∈ live -> x <> m /\ x <> n.
Proof.
  clear -Hok Hm Hn. intros Hx. destruct claim_fresh as (_ & Hml & _). split; [congruence|]. intros ->.
  pose proof (ra_nodup _ _ Hok) as (_ & Hnd & _)%NoDup_app. by apply (Hnd n).
Qed.

Lemma claim_shrink_ok : e < end_of t n ->
  ra_ok (ra <| ra_tree := set_node n (mk_range (e + 1) (end_of t n)) t1 |>) (m :: live).
Proof.
  intros Hlt. destruct claim_fresh as (Hmh & Hml & Hmn). pose proof (ra_rt _ _ Hok) as Ht.
  pose proof (rt_valid _ Ht n Hn) as Hv. unfold valid_node in Hv. set (t2 := set_node n _ t1).
  assert (forall x, node_of t2 x = if x =? n then mk_range (e + 1) (end_of t n)
    else if x =? m then mk_range (start_of t n) e else node_of t x) as Hno by (intros x; unfold t2, t1; by rewrite !node_of_set).
  assert (forall x, x <> n -> x <> m -> node_of t2 x = node_of t x) as Hsame
    by (intros x ? ?; rewrite Hno; by destruct (Z.eqb_spec x n), (Z.eqb_spec x m)).
  assert (node_of t2 n = mk_range (e + 1) (end_of t n)) as Hn2 by (by rewrite Hno, Z.eqb_refl).
  assert (node_of t2 m = mk_range (start_of t n) e) as Hm2 by (rewrite Hno, Z.eqb_refl; by destruct (Z.eqb_spec m n)).
  split; [split|]; unfold upd; cbn [ra_tree ra_size].
  - destruct (list_elem_of_split _ _ Hn) as (l1 & l2 & Hh). destruct (neighbours t n l1 l2 Ht Hh) as (Hb & Ha & _).
    apply (set_node_ok t1 n _ l1 l2); simpl; [by apply set_absent_ok|done|lia|lia| |].
    + apply Forall_forall. intros x Hx. apply (proj1 (Forall_forall _ _) Hb) in Hx as Hbx.
      unfold t1. rewrite end_of_set. destruct (Z.eqb_spec x m) as [->|_]; [|lia]. destruct Hmh. rewrite Hh. set_solver.
    + apply Forall_forall. intros x Hx. apply (proj1 (Forall_forall _ _) Ha) in Hx as Hbx.
      unfold t1. rewrite start_of_set. destruct (Z.eqb_spec x m) as [->|_]; [|lia]. destruct Hmh. rewrite Hh. set_solver.
  - apply (ra_width _ _ Hok).
  - change (rt_head t2) with (rt_head t). pose proof (ra_nodup _ _ Hok) as (N1 & N2 & N3)%NoDup_app.
    apply NoDup_app. split; [done|]. split; [|by constructor]. intros x Hx [->|Hxl]%elem_of_cons; [done|]. by apply (N2 x).
  - intros x. unfold t2, t1. rewrite !dom_set, (ra_heap _ _ Hok). change (rt_head (set_node _ _ _)) with (rt_head t). set_solver.
  - intros x [->|Hx]%elem_of_cons; unfold valid_node, start_of, end_of.
    + rewrite Hm2. simpl. unfold start_of, end_of in *. lia.
    + apply claim_live in Hx as Hne. rewrite Hsame by tauto. by apply (ra_live _ _ Hok).
  - intros addr. change (rt_head t2) with (rt_head t). rewrite <- (ra_tiles _ _ Hok addr), sumz_cons.
    rewrite (sum_cover_same t t2 addr live) by (intros x [? ?]%claim_live; by apply Hsame).
    rewrite (sumz_point (cover t addr) (cover t2 addr) (rt_head t) n); [|apply Ht|done|].
    + assert (cover t2 addr n + cover t2 addr m = cover t addr n) as Hc; [|lia].
      unfold cover, start_of, end_of. rewrite Hn2, Hm2. simpl. unfold start_of, end_of in *.
      destruct (Z.leb_spec (rn_start (node_of t n)) addr), (Z.leb_spec addr (rn_end (node_of t n))),
        (Z.leb_spec (e + 1) addr), (Z.leb_spec addr e); simpl; lia.
    + intros x Hx Hxn. symmetry. apply cover_same, Hsame; [done|congruence].
  - change (rt_head t2) with (rt_head t). intros a b Ha Hb. assert (end_of t2 a = end_of t a) as ->.
    { unfold end_of. rewrite Hno. destruct (Z.eqb_spec a n) as [->|_]; [done|]. by destruct (Z.eqb_spec a m) as [->|]. }
    destruct (decide (b = n)) as [->|Hbn].
    + unfold start_of. rewrite Hn2. simpl. intros Heq. assert (a = n) as ->; [|lia].
      pose proof (rt_valid _ Ht a Ha) as Hva. unfold valid_node in Hva.
      apply (covers_unique t Ht e); try done; unfold covers; lia.
    + unfold start_of. rewrite Hsame; [by apply (ra_gaps _ _ Hok)|done|congruence].
Qed.

Lemma claim_remove_ok : e = end_of t n -> ra_ok (ra <| ra_tree := uvm_kvfree n (uvm_range_tree_remove n t1) |>) (m :: live).
Proof.
  intros ->. destruct claim_fresh as (Hmh & Hml & Hmn). pose proof (ra_rt _ _ Hok) as Ht.
  pose proof (rt_valid _ Ht n Hn) as Hv. unfold valid_node in Hv. set (t2 := uvm_kvfree n _).
  assert (rt_ok t1) as Ht1 by (by apply set_absent_ok).
  destruct (list_elem_of_split _ _ Hn) as (l1 & l2 & Hh). destruct (remove_ok t1 n l1 l2 Ht1 Hh) as [Hr Hhr].
  pose proof (rt_nodup _ Ht) as Hnd. rewrite Hh in Hnd. apply NoDup_split_notin in Hnd as [N1 N2].
  assert (rt_head t2 = l1 ++ l2) as Hh2 by exact Hhr.
  assert (forall x, x <> n -> x <> m -> node_of t2 x = node_of t x) as Hsame.
  { intros x ? ?. unfold t2. rewrite node_of_kvfree by done. change (node_of (uvm_range_tree_remove n t1)) with (node_of t1).
    unfold t1. rewrite node_of_set. by destruct (Z.eqb_spec x m). }
  assert (node_of t2 m = node_of t n) as Hm2.
  { unfold t2. rewrite node_of_kvfree by done. change (node_of (uvm_range_tree_remove n t1)) with (node_of t1).
    unfold t1. rewrite node_of_set, Z.eqb_refl. unfold start_of, end_of. by destruct (node_of t n). }
  assert (forall x, x ∈ l1 ++ l2 -> x ∈ rt_head t /\ node_of t2 x = node_of t x) as Hin.
  { intros x Hx. assert (x ∈ rt_head t) as Hxt by (rewrite Hh; set_solver). split; [done|].
    apply Hsame; [|congruence]. intros ->. apply elem_of_app in Hx. by destruct Hx. }
  split; [split|]; unfold upd; cbn [ra_tree ra_size]; rewrite ?Hh2.
  - apply kvfree_ok; [done|]. rewrite Hhr. set_solver.
  - apply (ra_width _ _ Hok).
  - pose proof (ra_nodup _ _ Hok) as Hnd. rewrite Hh in Hnd, Hmh. rewrite !NoDup_app, !NoDup_cons in *. set_solver.
  - intros x. unfold t2. rewrite dom_kvfree. change (rt_nodes (uvm_range_tree_remove n t1)) with (rt_nodes t1). unfold t1.
    rewrite dom_set, (ra_heap _ _ Hok), Hh. pose proof (claim_live n) as Hnl. set_solver.
  - intros x [->|Hx]%elem_of_cons; unfold valid_node, start_of, end_of; [by rewrite Hm2|].
    apply claim_live in Hx as Hne. rewrite Hsame by tauto. by apply (ra_live _ _ Hok).
  - intros addr. rewrite <- (ra_tiles _ _ Hok addr), sumz_cons, Hh.
    rewrite (sum_cover_same t t2 addr live) by (intros x [? ?]%claim_live; by apply Hsame).
    rewrite (sum_cover_same t t2 addr (l1 ++ l2)) by (intros x Hx; by apply Hin).
    assert (cover t2 addr m = cover t addr n) as -> by (unfold cover, start_of, end_of; by rewrite Hm2).
    rewrite !sumz_app, sumz_cons. lia.
  - intros a b [Ha Hna]%Hin [Hb Hnb]%Hin. unfold start_of, end_of. rewrite Hna, Hnb. by apply (ra_gaps _ _ Hok).
Qed.

End Claim.
Lemma claim_node_ok ra live n m size a : ra_ok ra live -> n ∈ rt_head (ra_tree ra) -> m ∉ dom (rt_nodes (ra_tree ra)) ->
  0 < size -> start_of (ra_tree ra) n <= a -> a + size - 1 <= end_of (ra_tree ra) n ->
  ra_ok (ra <| ra_tree ::= claim_node size n a m |>) (m :: live) /\
  node_of (claim_node size n a m (ra_tree ra)) m = mk_range (start_of (ra_tree ra) n) (a + size - 1) /\
  forall x, x ∈ live -> node_of (claim_node size n a m (ra_tree ra)) x = node_of (ra_tree ra) x.
Proof.
  intros Hok Hn Hm Hsz Ha He. pose proof (rt_valid _ (ra_rt _ _ Hok) n Hn) as Hv. unfold valid_node in Hv.
  destruct (claim_fresh ra live Hok n m Hn Hm) as (_ & _ & Hmn). pose proof (claim_live ra live Hok n m Hn Hm) as Hl.
  unfold upd. cbn [ra_size ra_tree]. unfold claim_node.
  rewrite (wrap_id 64 (a + size - 1)) by (unfold in_width; lia). rewrite end_of_set, (proj2 (Z.eqb_neq n m)) by done.
  destruct (Z.ltb_spec (a + size - 1) (end_of (ra_tree ra) n)) as [Hlt|Hge].
  - rewrite wrap_id by (unfold in_width; lia). unfold uvm_range_tree_shrink_node.
    split; [apply (claim_shrink_ok ra live Hok n m); done || lia|]. split.
    + rewrite !node_of_set, Z.eqb_refl. by rewrite (proj2 (Z.eqb_neq m n)).
    + intros x [? ?]%Hl. rewrite !node_of_set. by destruct (Z.eqb_spec x n), (Z.eqb_spec x m).
  - split; [apply (claim_remove_ok ra live Hok n m); done || lia|]. split.
    + rewrite node_of_kvfree by done. change (node_of (uvm_range_tree_remove n ?t)) with (node_of t). by rewrite node_of_set, Z.eqb_refl.
    + intros x [? ?]%Hl. rewrite node_of_kvfree by done. change (node_of (uvm_range_tree_remove n ?t)) with (node_of t).
      rewrite node_of_set. by destruct (Z.eqb_spec x m).
Qed.

(** ** Release *)

(** A node takes over the range of a neighbour, which is freed. *)
Lemma absorb_base ra live n x t' r : ra_base ra live -> n ∈ rt_head (ra_tree ra) -> n <> x -> rt_ok t' ->
  rt_head (ra_tree ra) ≡ₚ x :: rt_head t' ->
  (forall y, node_of t' y = if y =? n then r else node_of (ra_tree ra) y) ->
  (forall y, y ∈ dom (rt_nodes t') <-> y = n \/ y ∈ dom (rt_nodes (ra_tree ra))) ->
  (forall addr, (if (rn_start r <=? addr) && (addr <=? rn_end r) then 1 else 0) = cover (ra_tree ra) addr n + cover (ra_tree ra) addr x) ->
  ra_base (ra <| ra_tree := uvm_kvfree x t' |>) live.
Proof.
  intros Hok Hn Hnx Ht' Hp Hno Hdom Hcov. pose proof (ra_nodup _ _ Hok) as Hnd. rewrite Hp in Hnd.
  apply NoDup_app in Hnd as ([Hxh Hndh]%NoDup_cons & Hhl & Hndl).
  assert (n ∈ rt_head t') as Hn' by (rewrite Hp in Hn; set_solver).
  assert (forall y, y ∈ live -> y <> n /\ y <> x) as Hl.
  { intros y Hy. split; intros ->; [apply (Hhl n)|apply (Hhl x)]; set_solver. }
  assert (forall y, y ∈ live -> node_of (uvm_kvfree x t') y = node_of (ra_tree ra) y) as Hsame.
  { intros y [? ?]%Hl. rewrite node_of_kvfree, Hno by done. by destruct (Z.eqb_spec y n). }
  split; unfold upd; cbn [ra_tree ra_size].
  - by apply kvfree_ok.
  - apply (ra_width _ _ Hok).
  - apply NoDup_app. split; [done|]. split; [|done]. intros y Hy. apply Hhl. by right.
  - intros y. rewrite dom_kvfree, Hdom, (ra_heap _ _ Hok), !elem_of_app, Hp.
    change (rt_head (uvm_kvfree x t')) with (rt_head t'). specialize (Hl y). rewrite elem_of_cons.
    split; [intuition congruence|]. intros [Hy|Hy]; [|tauto]. split; [congruence|tauto].
  - intros y Hy. unfold valid_node, start_of, end_of. rewrite (Hsame y Hy). by apply (ra_live _ _ Hok).
  - intros addr. change (rt_head (uvm_kvfree x t')) with (rt_head t'). rewrite <- (ra_tiles _ _ Hok addr).
    rewrite (sum_cover_same (ra_tree ra) _ addr live) by done. f_equal.
    rewrite (sumz_perm _ _ _ Hp), sumz_cons.
    rewrite (sumz_point (cover (ra_tree ra) addr) _ (rt_head t') n); [|done|done|].
    + assert (cover (uvm_kvfree x t') addr n = cover (ra_tree ra) addr n + cover (ra_tree ra) addr x) as ->; [|lia].
      rewrite <- Hcov. unfold cover, start_of, end_of. by rewrite node_of_kvfree, Hno, Z.eqb_refl by done.
    + intros y Hy Hyn. symmetry. apply cover_same. rewrite node_of_kvfree, Hno by congruence. by destruct (Z.eqb_spec y n).
Qed.

Lemma cover_join t addr a b : valid_node t a -> valid_node t b -> start_of t b = end_of t a + 1 ->
  (if (start_of t a <=? addr) && (addr <=? end_of t b) then 1 else 0) = cover t addr a + cover t addr b.
Proof.
  unfold valid_node, cover. intros Ha Hb Heq.
  destruct (Z.leb_spec (start_of t a) addr), (Z.leb_spec addr (end_of t a)), (Z.leb_spec (start_of t b) addr),
    (Z.leb_spec addr (end_of t b)); simpl; lia.
Qed.

Lemma merge_next_dom t n x y : (uvm_range_tree_merge_next t n).1 = Some x ->
  y ∈ dom (rt_nodes (uvm_range_tree_merge_next t n).2) <-> y = n \/ y ∈ dom (rt_nodes t).
Proof.
  unfold uvm_range_tree_merge_next. destruct (uvm_range_tree_next t n) as [nx|]; [|done].
  destruct (_ =? _); [|done]. intros _. simpl snd. rewrite dom_set. done.
Qed.

Lemma merge_prev_dom t n x y : (uvm_range_tree_merge_prev t n).1 = Some x ->
  y ∈ dom (rt_nodes (uvm_range_tree_merge_prev t n).2) <-> y = n \/ y ∈ dom (rt_nodes t).
Proof.
  unfold uvm_range_tree_merge_prev. destruct (uvm_range_tree_prev t n) as [nx|]; [|done].
  destruct (_ =? _); [|done]. intros _. simpl snd. rewrite dom_set. done.
Qed.

(** Free nodes other than [n] do not touch. *)
Definition gaps_but (n : Z) (t : uvm_range_tree_t) : Prop :=
  forall a b, a ∈ rt_head t -> b ∈ rt_head t -> a <> n -> b <> n -> start_of t b <> end_of t a + 1.

Lemma release_add ra k1 n k2 : ra_ok ra (k1 ++ n :: k2) ->
  let t1 := (uvm_range_tree_add (ra_tree ra) n).2 in
  ra_base (ra <| ra_tree := t1 |>) (k1 ++ k2) /\ n ∈ rt_head t1 /\ gaps_but n t1 /\ rt_nodes t1 = rt_nodes (ra_tree ra).
Proof.
  intros Hok t1. pose proof (ra_nodup _ _ Hok) as Hnd. apply NoDup_app in Hnd as (N1 & N12 & N2).
  assert (n ∉ rt_head (ra_tree ra)) as Hn by (intros Hin; apply (N12 n Hin); set_solver).
  pose proof (ra_live _ _ Hok n ltac:(set_solver)) as Hv. pose proof (add_spec (ra_tree ra) n (ra_rt _ _ Hok) Hn Hv) as Hadd.
  fold t1 in Hadd. destruct Hadd as [(_ & Ht1 & Hno & _ & l1 & l2 & Hh & Hh1)|(_ & _ & m & Hm & Ho)].
  2:{ (* the range of the node is free in the tree *)
    set (a := Z.max (start_of (ra_tree ra) n) (start_of (ra_tree ra) m)).
    pose proof (rt_valid _ (ra_rt _ _ Hok) m Hm) as Hvm. assert (n = m) as <-; [|done].
    unfold valid_node, overlap in *.
    apply (tile_unique ra _ (ra_ok_base _ _ Hok) a); [set_solver|set_solver|unfold covers, a; lia|unfold covers, a; lia]. }
  assert (forall x, node_of t1 x = node_of (ra_tree ra) x) as Hnode by (intros x; unfold node_of; by rewrite Hno).
  assert (rt_head t1 ++ k1 ++ k2 ≡ₚ rt_head (ra_tree ra) ++ k1 ++ n :: k2) as Hp.
  { by rewrite Hh1, Hh, <- !Permutation_middle. }
  split; [|split; [rewrite Hh1; set_solver|split; [|done]]].
  - split; unfold upd; cbn [ra_tree ra_size]; [done|apply (ra_width _ _ Hok)| | | |].
    + rewrite Hp. apply (ra_nodup _ _ Hok).
    + intros x. rewrite Hp, Hno. apply (ra_heap _ _ Hok).
    + intros x Hx. unfold valid_node, start_of, end_of. rewrite Hnode. apply (ra_live _ _ Hok). set_solver.
    + intros addr. rewrite <- (ra_tiles _ _ Hok addr), <- !sumz_app, (sumz_perm _ _ _ Hp). by apply sum_cover_same.
  - intros a b Ha Hb Han Hbn. unfold start_of, end_of. rewrite !Hnode. apply (ra_gaps _ _ Hok); rewrite Hh; rewrite Hh1 in *; set_solver.
Qed.

Lemma release_prev ra live n : ra_base ra live -> n ∈ rt_head (ra_tree ra) -> gaps_but n (ra_tree ra) ->
  let r := uvm_range_tree_merge_prev (ra_tree ra) n in
  let t' := kvfree_opt r.1 r.2 in
  ra_base (ra <| ra_tree := t' |>) live /\ n ∈ rt_head t' /\ gaps_but n t' /\
  (forall a, a ∈ rt_head t' -> start_of t' n <> end_of t' a + 1) /\ forall x, x ∈ live -> node_of t' x = node_of (ra_tree ra) x.
Proof.
  intros Hok Hn Hg r t'. pose proof (ra_rt _ _ Hok) as Ht. destruct (list_elem_of_split _ _ Hn) as (l1 & l2 & Hh).
  destruct (merge_prev_spec (ra_tree ra) n l1 l2 Ht Hh) as [(pv & l & -> & Htouch & Hr & Hrok & Hrh & Hno)|[Hr Hgap]].
  - assert (pv ∈ rt_head (ra_tree ra)) as Hpv by (rewrite Hh; set_solver).
    pose proof (rt_nodup _ Ht) as Hnd. rewrite Hh, <- app_assoc in Hnd. apply NoDup_split_notin in Hnd as [P1 P2].
    assert (n <> pv) as Hne by set_solver. unfold t', r. rewrite Hr. cbn [kvfree_opt].
    set (tm := (uvm_range_tree_merge_prev (ra_tree ra) n).2) in *.
    assert (forall x, x ∈ rt_head (uvm_kvfree pv tm) -> x ∈ rt_head (ra_tree ra) /\ x <> pv) as Hin
      by (intros x Hx; change (x ∈ rt_head tm) in Hx; rewrite Hrh in Hx; rewrite Hh; set_solver).
    assert (forall x, x <> pv -> x <> n -> node_of (uvm_kvfree pv tm) x = node_of (ra_tree ra) x) as Hsame.
    { intros x ? ?. rewrite node_of_kvfree, Hno by done. by destruct (Z.eqb_spec x n). }
    assert (node_of (uvm_kvfree pv tm) n = mk_range (start_of (ra_tree ra) pv) (end_of (ra_tree ra) n)) as Hnn
      by (by rewrite node_of_kvfree, Hno, Z.eqb_refl by done).
    split; [|split; [change (n ∈ rt_head tm); rewrite Hrh; set_solver|split; [|split]]].
    + apply (absorb_base ra live n pv tm (mk_range (start_of (ra_tree ra) pv) (end_of (ra_tree ra) n))); try done.
      * rewrite Hh, Hrh, <- app_assoc. simpl. by rewrite <- Permutation_middle.
      * intros y. by apply (merge_prev_dom _ _ pv).
      * intros addr. simpl. rewrite (cover_join (ra_tree ra) addr pv n); [lia| | |done]; by apply (rt_valid _ Ht).
    + intros a b [Ha Hap]%Hin [Hb Hbp]%Hin Han Hbn. unfold start_of, end_of. rewrite !Hsame by done. by apply Hg.
    + intros a [Ha Hap]%Hin. unfold start_of, end_of. rewrite Hnn. simpl. destruct (decide (a = n)) as [->|Han].
      * rewrite Hnn. simpl. pose proof (rt_valid _ Ht pv Hpv). pose proof (rt_valid _ Ht n Hn). unfold valid_node in *. lia.
      * rewrite Hsame by done. apply (Hg a pv); try done.
    + intros x Hx. apply Hsame; intros ->.
      * pose proof (ra_nodup _ _ Hok) as (_ & N & _)%NoDup_app. by apply (N pv).
      * pose proof (ra_nodup _ _ Hok) as (_ & N & _)%NoDup_app. by apply (N n).
  - unfold t', r. rewrite Hr. cbn [kvfree_opt fst snd]. split; [by destruct ra|]. split; [done|]. split; [done|]. split; [|done].
    destruct (neighbours (ra_tree ra) n l1 l2 Ht Hh) as (Hb & Ha & _). intros a Hin Heq.
    pose proof (rt_valid _ Ht a Hin) as Hva. pose proof (rt_valid _ Ht n Hn) as Hvn. unfold valid_node in *. rewrite Hh in Hin.
    apply elem_of_app in Hin as [Hin|[->|Hin]%elem_of_cons]; [|lia|apply (proj1 (Forall_forall _ _) Ha) in Hin; lia].
    destruct (last l1) as [pv|] eqn:Hl; [|apply last_None in Hl as ->; by apply elem_of_nil in Hin].
    specialize (Hgap pv eq_refl). apply last_Some in Hl as [l ->]. apply elem_of_app in Hin as [Hin|Hin].
    + pose proof (rt_order _ Ht) as Ho. rewrite Hh in Ho. apply ordered_app in Ho as ((_ & _ & O)%ordered_app & _).
      specialize (O a pv Hin ltac:(by left)). unfold before in O.
      pose proof (rt_valid _ Ht pv ltac:(rewrite Hh; set_solver)) as Hvp. unfold valid_node in Hvp. lia.
    + apply list_elem_of_singleton in Hin as ->. lia.
Qed.

Lemma release_next ra live n : ra_base ra live -> n ∈ rt_head (ra_tree ra) -> gaps_but n (ra_tree ra) ->
  (forall a, a ∈ rt_head (ra_tree ra) -> start_of (ra_tree ra) n <> end_of (ra_tree ra) a + 1) ->
  let r := uvm_range_tree_merge_next (ra_tree ra) n in
  let t' := kvfree_opt r.1 r.2 in
  ra_ok (ra <| ra_tree := t' |>) live /\ forall x, x ∈ live -> node_of t' x = node_of (ra_tree ra) x.
Proof.
  intros Hok Hn Hg Hleft r t'. pose proof (ra_rt _ _ Hok) as Ht. destruct (list_elem_of_split _ _ Hn) as (l1 & l2 & Hh).
  destruct (merge_next_spec (ra_tree ra) n l1 l2 Ht Hh) as [(nx & l & -> & Htouch & Hr & Hrok & Hrh & Hno)|[Hr Hgap]].
  - assert (nx ∈ rt_head (ra_tree ra)) as Hnx by (rewrite Hh; set_solver).
    pose proof (rt_nodup _ Ht) as Hnd. rewrite Hh, cons_middle, app_assoc in Hnd. apply NoDup_split_notin in Hnd as [P1 P2].
    assert (n <> nx) as Hne by set_solver. unfold t', r. rewrite Hr. cbn [kvfree_opt].
    set (tm := (uvm_range_tree_merge_next (ra_tree ra) n).2) in *.
    assert (forall x, x ∈ rt_head (uvm_kvfree nx tm) -> x ∈ rt_head (ra_tree ra) /\ x <> nx) as Hin
      by (intros x Hx; change (x ∈ rt_head tm) in Hx; rewrite Hrh in Hx; rewrite Hh; set_solver).
    assert (forall x, x <> nx -> x <> n -> node_of (uvm_kvfree nx tm) x = node_of (ra_tree ra) x) as Hsame.
    { intros x ? ?. rewrite node_of_kvfree, Hno by done. by destruct (Z.eqb_spec x n). }
    assert (node_of (uvm_kvfree nx tm) n = mk_range (start_of (ra_tree ra) n) (end_of (ra_tree ra) nx)) as Hnn
      by (by rewrite node_of_kvfree, Hno, Z.eqb_refl by done).
    pose proof (rt_valid _ Ht nx Hnx) as Hvx. pose proof (rt_valid _ Ht n Hn) as Hvn. unfold valid_node in Hvx, Hvn.
    split; [split|].
    + apply (absorb_base ra live n nx tm (mk_range (start_of (ra_tree ra) n) (end_of (ra_tree ra) nx))); try done.
      * rewrite Hh, Hrh. by rewrite cons_middle, app_assoc, <- Permutation_middle, <- app_assoc.
      * intros y. by apply (merge_next_dom _ _ nx).
      * intros addr. simpl. by rewrite (cover_join (ra_tree ra) addr n nx).
    + unfold upd. cbn [ra_tree]. intros a b [Ha Hap]%Hin [Hb Hbp]%Hin. unfold start_of, end_of.
      destruct (decide (a = n)) as [->|Han], (decide (b = n)) as [->|Hbn]; rewrite ?Hnn, ?Hsame by done; simpl.
      * lia.
      * by apply (Hg nx b).
      * by apply Hleft.
      * by apply Hg.
    + intros x Hx. pose proof (ra_nodup _ _ Hok) as (_ & N & _)%NoDup_app.
      apply Hsame; intros ->; [by apply (N nx)|by apply (N n)].
  - unfold t', r. rewrite Hr. cbn [kvfree_opt fst snd]. split; [|done]. split; [by destruct ra|]. unfold upd. cbn [ra_tree].
    destruct (neighbours (ra_tree ra) n l1 l2 Ht Hh) as (Hb & Ha & _). intros a b Hina Hinb.
    destruct (decide (b = n)) as [->|Hbn]; [by apply Hleft|]. destruct (decide (a = n)) as [->|Han]; [|by apply Hg].
    intros Heq. pose proof (rt_valid _ Ht b Hinb) as Hvb. pose proof (rt_valid _ Ht n Hn) as Hvn. unfold valid_node in *.
    rewrite Hh in Hinb. apply elem_of_app in Hinb as [Hin|[->|Hin]%elem_of_cons];
      [apply (proj1 (Forall_forall _ _) Hb) in Hin; lia|done|].
    destruct l2 as [|nx l2]; [by apply elem_of_nil in Hin|]. specialize (Hgap nx eq_refl).
    apply elem_of_cons in Hin as [->|Hin]; [lia|].
    pose proof (rt_order _ Ht) as Ho. rewrite Hh in Ho. apply ordered_app in Ho as (_ & [[_ O]%ordered_cons _]%ordered_cons & _).
    apply (proj1 (Forall_forall _ _) O) in Hin as Hxb. unfold before in Hxb.
    pose proof (rt_valid _ Ht nx ltac:(rewrite Hh; set_solver)) as Hvp. unfold valid_node in Hvp. lia.
Qed.

Lemma release_ok ra k1 n k2 : ra_ok ra (k1 ++ n :: k2) ->
  ra_ok (ra <| ra_tree ::= release_node n |>) (k1 ++ k2) /\
  forall x, x ∈ k1 ++ k2 -> node_of (release_node n (ra_tree ra)) x = node_of (ra_tree ra) x.
Proof.
  intros Hok. unfold upd. cbn [ra_tree ra_size]. destruct (release_add ra k1 n k2 Hok) as (H1 & Hn1 & Hg1 & Hno1). unfold release_node.
  set (t1 := (uvm_range_tree_add (ra_tree ra) n).2) in *.
  destruct (release_prev (ra <| ra_tree := t1 |>) (k1 ++ k2) n H1 Hn1 Hg1) as (H2 & Hn2 & Hg2 & Hleft & Hno2).
  change (ra_tree (ra <| ra_tree := t1 |>)) with t1 in *. destruct (uvm_range_tree_merge_prev t1 n) as [pv tp]. cbn [fst snd] in *.
  set (t2 := kvfree_opt pv tp) in *. set (ra2 := ra <| ra_tree := t1 |> <| ra_tree := t2 |>) in *.
  destruct (release_next ra2 (k1 ++ k2) n H2 Hn2 Hg2 Hleft) as [H3 Hno3].
  change (ra_tree ra2) with t2 in *. destruct (uvm_range_tree_merge_next t2 n) as [nx tn]. cbn [fst snd] in *.
  split; [exact H3|]. intros x Hx. rewrite (Hno3 x Hx), (Hno2 x Hx). unfold node_of. by rewrite Hno1.
Qed.

(** ** Correctness of an allocation *)

Definition request_ok (size alignment : Z) : Prop :=
  0 < size < 2 ^ 64 /\ (alignment = 0 \/ exists k, 0 <= k < 64 /\ alignment = 2 ^ k).

(** The alignment that is used, as a divisor. *)
Definition aligned (alignment a : Z) : Prop := ((if (alignment =? 0)%Z then 1 else alignment) | a).

Lemma request_pow size alignment : request_ok size alignment ->
  exists k, 0 <= k < 64 /\ (if alignment =? 0 then 1 else alignment) = 2 ^ k.
Proof.
  intros [_ [->|(k & Hk & ->)]]; [by exists 0|]. exists k. split; [done|].
  destruct (Z.eqb_spec (2 ^ k) 0) as [H0|_]; [|done]. assert (0 < 2 ^ k) by lia. lia.
Qed.

(** What the scan of the free nodes finds. *)
Lemma scan_spec ra live size alignment : ra_ok ra live -> request_ok size alignment -> size <= ra_size ra ->
  match first_fit (ra_tree ra) size (if alignment =? 0 then 1 else alignment)
    (uvm_range_tree_for_each_in (ra_tree ra) 0 (u64 (ra_size ra - size))) with
  | Some (n, a) => n ∈ rt_head (ra_tree ra) /\ start_of (ra_tree ra) n <= a /\ aligned alignment a /\ a + size - 1 <= end_of (ra_tree ra) n
  | None => forall a, aligned alignment a -> ~ (forall x, a <= x < a + size -> uvm_range_tree_find (ra_tree ra) x <> None)
  end.
Proof.
  intros Hok Hreq Hle. destruct (request_pow _ _ Hreq) as (k & Hk & Hal). unfold aligned. rewrite Hal.
  destruct Hreq as [Hsz _]. pose proof (ra_width _ _ Hok) as Hw. pose proof (ra_rt _ _ Hok) as Ht.
  rewrite wrap_id by (unfold in_width; lia). rewrite (for_each_in_spec (ra_tree ra) Ht) by lia.
  set (l := filter _ _). pose proof (first_fit_spec (ra_tree ra) size (2 ^ k) l) as Hf.
  destruct (first_fit (ra_tree ra) size (2 ^ k) l) as [[n a]|].
  - destruct Hf as [Hin Hfit]. unfold l in Hin. apply list_elem_of_filter in Hin as [_ Hin].
    pose proof (node_fits_spec (ra_tree ra) size k n (rt_valid _ Ht n Hin) Hsz Hk) as Hs. rewrite Hfit in Hs. tauto.
  - intros a Ha Hfree. destruct (free_block_in_node ra live a size Hok ltac:(lia) Hfree) as (n & Hn & Hs & He).
    pose proof (rt_valid _ Ht n Hn) as Hv. pose proof (tile_end ra live Hok n ltac:(set_solver)) as Hend.
    pose proof (node_fits_spec (ra_tree ra) size k n Hv Hsz Hk) as Hfit. unfold valid_node in Hv.
    rewrite Hf in Hfit; [by apply (Hfit a)|]. apply list_elem_of_filter. split; [lia|done].
Qed.

(** An allocation whose node could be allocated. *)
Lemma alloc_with_node ra live size alignment m al : ra_ok ra live -> request_ok size alignment -> m ∉ dom (rt_nodes (ra_tree ra)) ->
  match uvm_range_allocator_alloc ra size alignment (Some m) al with
  | (st, (ra', al')) =>
      (st = NV_OK <-> exists a, aligned alignment a /\ forall x, a <= x < a + size -> uvm_range_tree_find (ra_tree ra) x <> None) /\
      (st = NV_OK ->
         let a := aligned_start al' in
         aligned alignment a /\ 0 <= a /\ a + size <= ra_size ra /\ al_node al' = Some m /\ ra_ok ra' (m :: live) /\
         (forall x, a <= x < a + size -> uvm_range_tree_find (ra_tree ra) x <> None /\ uvm_range_tree_find (ra_tree ra') x = None) /\
         forall n, n ∈ live -> node_of (ra_tree ra') n = node_of (ra_tree ra) n) /\
      (st <> NV_OK -> st = NV_ERR_UVM_ADDRESS_IN_USE /\ ra' = ra)
  end.
Proof.
  intros Hok Hreq Hm. pose proof (scan_spec ra live size alignment Hok Hreq) as Hscan. unfold uvm_range_allocator_alloc.
  assert (0 < size) as Hsz by apply Hreq. destruct (Z.ltb_spec (ra_size ra) size) as [Hbig|Hle].
  - split; [|done]. split; [done|]. intros (a & _ & Hfree).
    destruct (free_block_in_node ra live a size Hok Hsz Hfree) as (n & Hn & Hs & He).
    pose proof (tile_end ra live Hok n ltac:(set_solver)) as Hend. pose proof (rt_valid _ (ra_rt _ _ Hok) n Hn) as Hv.
    unfold valid_node in Hv. lia.
  - specialize (Hscan Hle). destruct (first_fit _ _ _ _) as [[n a]|].
    + destruct Hscan as (Hn & Hs & Ha & He). pose proof (rt_valid _ (ra_rt _ _ Hok) n Hn) as Hv. unfold valid_node in Hv.
      pose proof (tile_end ra live Hok n ltac:(set_solver)) as Hend.
      assert (forall x, a <= x < a + size -> uvm_range_tree_find (ra_tree ra) x <> None) as Hfree.
      { intros x Hx Hnone. apply (find_none _ (ra_rt _ _ Hok) x) with n in Hnone; [|done]. apply Hnone. unfold covers. lia. }
      split; [split; [intros _; by exists a|done]|]. split; [|done]. intros _. unfold upd. cbn [aligned_start al_node].
      destruct (claim_node_ok ra live n m size a Hok Hn Hm Hsz Hs He) as (Hok' & Hnm & Hlive). unfold upd in Hok'.
      split; [done|]. split; [lia|]. split; [lia|]. split; [done|]. split; [done|]. split; [|done]. intros x Hx. split; [by apply Hfree|].
      apply (find_none _ (ra_rt _ _ Hok')). intros y Hy Hc. cbn [ra_tree] in *.
      pose proof (ra_nodup _ _ Hok') as (_ & Hnd & _)%NoDup_app. apply (Hnd y Hy).
      assert (m = y) as <-; [|by left]. apply (tile_unique _ _ (ra_ok_base _ _ Hok') x); [set_solver|set_solver| |done].
      unfold covers, start_of, end_of. cbn [ra_tree]. rewrite Hnm. simpl. lia.
    + split; [split; [done|]|split; [done|]].
      * intros (a & Ha & Hfree). by destruct (Hscan a Ha).
      * intros _. split; [done|]. destruct ra as [sz t]. unfold upd, uvm_kvfree, upd. cbn [ra_size ra_tree] in *. f_equal.
        destruct t as [r h nodes]. cbn [rt_root rt_head rt_nodes] in *. f_equal. apply delete_id. by apply not_elem_of_dom.
Qed.

(** C33: [uvm_range_allocator_alloc] succeeds exactly when the node could be allocated
    and some aligned block of free addresses exists.  The block it returns is
    aligned, within the allocator and was free; afterwards none of it is free, and
    the other allocations keep their nodes.  It returns [NV_ERR_NO_MEMORY] exactly
    when the node could not be allocated and the size is not above the allocator's,
    and [NV_ERR_UVM_ADDRESS_IN_USE] otherwise; on every error the allocator and the
    heap are as before. *)
Theorem alloc_first_fit ra live size alignment new al : ra_ok ra live -> request_ok size alignment ->
  (forall m, new = Some m -> m ∉ dom (rt_nodes (ra_tree ra))) ->
  match uvm_range_allocator_alloc ra size alignment new al with
  | (st, (ra', al')) =>
      (st = NV_OK <-> new <> None /\ exists a, aligned alignment a /\ forall x, a <= x < a + size -> uvm_range_tree_find (ra_tree ra) x <> None) /\
      (st = NV_ERR_NO_MEMORY <-> new = None /\ size <= ra_size ra) /\
      (st = NV_OK -> exists m, new = Some m /\
         let a := aligned_start al' in
         aligned alignment a /\ 0 <= a /\ a + size <= ra_size ra /\ al_node al' = Some m /\ ra_ok ra' (m :: live) /\
         (forall x, a <= x < a + size -> uvm_range_tree_find (ra_tree ra) x <> None /\ uvm_range_tree_find (ra_tree ra') x = None) /\
         forall n, n ∈ live -> node_of (ra_tree ra') n = node_of (ra_tree ra) n) /\
      (st <> NV_OK -> (st = NV_ERR_NO_MEMORY \/ st = NV_ERR_UVM_ADDRESS_IN_USE) /\ ra' = ra)
  end.
Proof.
  intros Hok Hreq Hm. destruct new as [m|].
  - pose proof (alloc_with_node ra live size alignment m al Hok Hreq (Hm m eq_refl)) as Ha.
    destruct (uvm_range_allocator_alloc ra size alignment (Some m) al) as [st [ra' al']]. destruct Ha as (H1 & H2 & H3). split_and!.
    + rewrite H1. by split; [|intros []].
    + split; [|by intros []]. intros ->. by destruct H3 as [? _].
    + intros Hst. exists m. split; [done|]. by apply H2.
    + intros Hst. destruct (H3 Hst) as [-> ->]. by split; [right|].
  - unfold uvm_range_allocator_alloc. destruct (Z.ltb_spec (ra_size ra) size) as [Hbig|Hle].
    + split_and!; [by split; [|intros []]|split; [done|intros []; lia]|done|]. by split; [right|].
    + split_and!; [by split; [|intros []]|by split|done|]. by split; [left|].
Qed.

(** ** Histories

    Any sequence of requests and releases; an allocation is listed with its size. *)

Inductive ra_reach (size : Z) : uvm_range_allocator_t -> list (uvm_range_allocation_t * Z) -> Prop :=
| reach_init ra n : rt_nodes (ra_tree ra) = ∅ -> ra_reach size (uvm_range_allocator_init size (Some n) ra).2 []
| reach_alloc ra als sz alignment new al st ra' al' :
    ra_reach size ra als -> request_ok sz alignment -> (forall m, new = Some m -> m ∉ dom (rt_nodes (ra_tree ra))) ->
    uvm_range_allocator_alloc ra sz alignment new al = (st, (ra', al')) ->
    ra_reach size ra' (if is_ok st then (al', sz) :: als else als)
| reach_free ra k1 al sz k2 :
    ra_reach size ra (k1 ++ (al, sz) :: k2) -> ra_reach size (uvm_range_allocator_free ra (Some al)).1 (k1 ++ k2).

(** The node of an allocation: its range ends where the allocation ends. *)
Definition holds_range (t : uvm_range_tree_t) (al : uvm_range_allocation_t * Z) (n : Z) : Prop :=
  al_node al.1 = Some n /\ 0 < al.2 /\ start_of t n <= aligned_start al.1 /\ aligned_start al.1 + al.2 - 1 = end_of t n.

Lemma holds_same t t' als live : (forall n, n ∈ live -> node_of t' n = node_of t n) -> Forall2 (holds_range t) als live -> Forall2 (holds_range t') als live.
Proof.
  intros Hn Hf. induction Hf as [|al n als live Hh _ IH]; constructor.
  - unfold holds_range, start_of, end_of in *. by rewrite Hn by (by left).
  - apply IH. intros m Hm. apply Hn. by right.
Qed.

Lemma init_ok size n ra : 0 < size < 2 ^ 64 -> rt_nodes (ra_tree ra) = ∅ -> ra_ok (uvm_range_allocator_init size (Some n) ra).2 [].
Proof.
  intros Hsz Hnil. unfold uvm_range_allocator_init. rewrite wrap_id by (unfold in_width; lia).
  set (t0 := set_node n _ _). assert (rt_ok t0) as Ht0 by (split; [done|apply NoDup_nil_2|constructor|by intros ? ?%elem_of_nil]).
  assert (node_of t0 n = mk_range 0 (size - 1)) as Hn by (unfold t0; by rewrite node_of_set, Z.eqb_refl).
  destruct (add_at t0 n [] []) as (_ & Hok & Hno & Hh); try done.
  - by intros ?%elem_of_nil.
  - unfold valid_node, start_of, end_of. rewrite Hn. simpl. lia.
  - constructor.
  - constructor.
  - assert (node_of (uvm_range_tree_add t0 n).2 n = mk_range 0 (size - 1)) as Hn1 by (unfold node_of; by rewrite Hno).
    split; [split|]; unfold upd; cbn [snd ra_tree ra_size]; try done; rewrite ?Hh; cbn [app].
    + apply NoDup_singleton.
    + intros x. rewrite Hno. unfold t0. rewrite dom_set. unfold upd. cbn [ra_tree uvm_range_tree_init]. cbn.
      rewrite Hnil. set_solver.
    + by intros x ?%elem_of_nil.
    + intros addr. rewrite sumz_singleton. change (sumz ?f []) with 0. unfold cover, start_of, end_of. rewrite Hn1. simpl.
      destruct (Z.leb_spec 0 addr), (Z.leb_spec addr (size - 1)), (Z.ltb_spec addr size); simpl; lia.
    + intros a b ->%list_elem_of_singleton ->%list_elem_of_singleton. unfold start_of, end_of. rewrite Hn1. simpl. lia.
Qed.

Lemma reach_inv size ra als : 0 < size < 2 ^ 64 -> ra_reach size ra als ->
  ra_size ra = size /\ exists live, ra_ok ra live /\ Forall2 (holds_range (ra_tree ra)) als live.
Proof.
  intros Hsz. induction 1 as [ra n Hnil|ra als sz alignment new al st ra' al' _ (Hs & live & Hok & Hf) Hreq Hnew Halloc|ra k1 al sz k2 _ (Hs & live & Hok & Hf)].
  - split; [done|]. exists []. split; [by apply init_ok|constructor].
  - unfold uvm_range_allocator_alloc in Halloc. destruct (Z.ltb_spec (ra_size ra) sz) as [|Hle]; [simplify_eq; eauto|].
    destruct new as [m|]; [|simplify_eq; eauto]. specialize (Hnew m eq_refl).
    pose proof (scan_spec ra live sz alignment Hok Hreq Hle) as Hscan. destruct (first_fit _ _ _ _) as [[n a]|]; simplify_eq; simpl.
    + destruct Hscan as (Hn & Hst & _ & He). split; [done|]. assert (0 < sz) as Hp by apply Hreq.
      destruct (claim_node_ok ra live n m sz a Hok Hn Hnew Hp Hst He) as (Hok' & Hnm & Hlive).
      exists (m :: live). split; [done|]. constructor; [|by apply (holds_same (ra_tree ra))].
      unfold holds_range, start_of, end_of, upd. cbn [ra_tree al_node aligned_start fst snd]. rewrite Hnm. simpl.
      unfold start_of in Hst. split; [done|]. split; [done|]. split; [done|lia].
    + split; [done|]. exists live. split; [|exact Hf || (apply (holds_same (ra_tree ra)); [|done])].
      * destruct ra as [s t]. destruct t as [r h nodes]. unfold upd, uvm_kvfree, upd in *. cbn in *.
        by rewrite delete_id by (by apply not_elem_of_dom).
      * intros n Hn. unfold upd. cbn [ra_tree]. apply node_of_kvfree. intros ->. apply Hnew, (ra_heap _ _ Hok). set_solver.
  - apply Forall2_app_inv_l in Hf as (v1 & v2 & Hf1 & Hf2 & ->). apply Forall2_cons_inv_l in Hf2 as (n & v3 & Hn & Hf2 & ->).
    destruct al as [start node]. destruct Hn as (Hnode & _). simpl in Hnode. subst node. simpl.
    destruct (release_ok ra v1 n v3 Hok) as [Hok' Hno]. split; [done|]. exists (v1 ++ v3). split; [done|].
    apply (holds_same (ra_tree ra)); [done|by apply Forall2_app].
Qed.

(** C32: In every history the outstanding allocations lie within the allocator and
    are pairwise disjoint. *)
Theorem allocations_disjoint size ra als : 0 < size < 2 ^ 64 -> ra_reach size ra als ->
  (forall al sz, (al, sz) ∈ als -> 0 <= aligned_start al /\ aligned_start al + sz <= size) /\
  forall i j a b sa sb, i <> j -> als !! i = Some (a, sa) -> als !! j = Some (b, sb) ->
    aligned_start a + sa <= aligned_start b \/ aligned_start b + sb <= aligned_start a.
Proof.
  intros Hsz Hreach. destruct (reach_inv size ra als Hsz Hreach) as (<- & live & Hok & Hf). split.
  - intros al sz [i Hi]%list_elem_of_lookup. destruct (Forall2_lookup_l _ _ _ _ _ Hf Hi) as (n & Hn & Hh).
    apply list_elem_of_lookup_2 in Hn. destruct Hh as (_ & Hp & Hst & He). simpl in *.
    pose proof (ra_live _ _ Hok n Hn) as Hv. pose proof (tile_end ra live Hok n ltac:(set_solver)). unfold valid_node in Hv. lia.
  - intros i j a b sa sb Hij Hi Hj. destruct (Forall2_lookup_l _ _ _ _ _ Hf Hi) as (n & Hn & _ & Hpa & Hsa & Hea).
    destruct (Forall2_lookup_l _ _ _ _ _ Hf Hj) as (m & Hm & _ & Hpb & Hsb & Heb). cbn [fst snd] in *.
    assert (n <> m) as Hne.
    { intros <-. apply Hij. pose proof (ra_nodup _ _ Hok) as (_ & _ & Hnd)%NoDup_app. by apply (NoDup_lookup live i j n). }
    destruct (Z.le_gt_cases (aligned_start a + sa) (aligned_start b)) as [|H1]; [by left|].
    destruct (Z.le_gt_cases (aligned_start b + sb) (aligned_start a)) as [|H2]; [by right|].
    apply list_elem_of_lookup_2 in Hn, Hm. destruct Hne.
    apply (tile_unique ra live Hok (Z.max (aligned_start a) (aligned_start b))); [set_solver|set_solver|unfold covers; lia|unfold covers; lia].
Qed.

(** When every allocation has been released the free ranges are merged back
    into one that is the whole range: the assertions of
    [uvm_range_allocator_deinit] hold, and it leaves no node allocated. *)
Theorem deinit_after_frees size ra : 0 < size < 2 ^ 64 -> ra_reach size ra [] ->
  deinit_asserts ra = true /\ rt_nodes (ra_tree (uvm_range_allocator_deinit ra)) = ∅ /\ rt_head (ra_tree (uvm_range_allocator_deinit ra)) = [].
Proof.
  intros Hsz Hreach. destruct (reach_inv size ra [] Hsz Hreach) as (Hs & live & Hok & ->%Forall2_nil_inv_l).
  pose proof (ra_rt _ _ Hok) as Ht.
  destruct (free_block_in_node ra [] 0 size Hok ltac:(lia)) as (n & Hn & Hst & Hen).
  { intros x Hx Hnone. pose proof (tiles_all ra [] Hok x) as Hsum. rewrite app_nil_r, Hs in Hsum.
    destruct (sum_cover_pos (ra_tree ra) x (rt_head (ra_tree ra))) as (n & Hn & Hc).
    { rewrite Hsum. destruct (Z.leb_spec 0 x), (Z.ltb_spec x size); simpl; lia. }
    by apply (find_none _ Ht x) with n in Hnone. }
  pose proof (rt_valid _ Ht n Hn) as Hv. pose proof (tile_end ra [] Hok n ltac:(set_solver)) as Hend. unfold valid_node in Hv.
  assert (start_of (ra_tree ra) n = 0 /\ end_of (ra_tree ra) n = size - 1) as [Hs0 He0] by lia.
  assert (rt_head (ra_tree ra) = [n]) as Hh.
  { destruct (list_elem_of_split _ _ Hn) as (l1 & l2 & Hh). destruct (neighbours _ n l1 l2 Ht Hh) as (Hb & Ha & _).
    assert (forall x, x ∈ rt_head (ra_tree ra) -> x = n) as Hall.
    { intros x Hx. pose proof (rt_valid _ Ht x Hx) as Hvx. pose proof (tile_end ra [] Hok x ltac:(set_solver)). unfold valid_node in Hvx.
      apply (covers_unique _ Ht (start_of (ra_tree ra) x)); [done|done|unfold covers; lia|unfold covers; lia]. }
    pose proof (rt_nodup _ Ht) as Hnd. rewrite Hh in Hnd, Hall. apply NoDup_split_notin in Hnd as [N1 N2].
    destruct l1 as [|x l1]; [|destruct N1; rewrite <- (Hall x); set_solver].
    destruct l2 as [|x l2]; [done|destruct N2; rewrite <- (Hall x); set_solver]. }
  assert (deinit_node ra = Some n) as Hd.
  { unfold deinit_node. rewrite Hs. rewrite (wrap_id 64) by (unfold in_width; lia).
    destruct (iter_first_split (ra_tree ra) Ht 0 (size - 1) ltac:(lia)) as (l1 & l2 & He & Hb & _ & ->). rewrite Hh in He.
    destruct l1 as [|x l1]; simpl in He.
    - rewrite <- He. simpl. rewrite Hs0. destruct (Z.leb_spec 0 (size - 1)); [done|lia].
    - injection He as <- _. apply Forall_cons in Hb as [Hb _]. lia. }
  unfold deinit_asserts, uvm_range_allocator_deinit. rewrite Hd. split; [|split].
  - rewrite Hs0, He0, Hs, wrap_id, !Z.eqb_refl by (unfold in_width; lia). done.
  - apply dom_empty_inv_L. apply set_eq. intros x. unfold upd. cbn [ra_tree]. rewrite dom_kvfree.
    change (rt_nodes (uvm_range_tree_remove n ?t)) with (rt_nodes t). rewrite (ra_heap _ _ Hok), Hh. set_solver.
  - unfold upd. cbn [ra_tree]. change (rt_head (uvm_kvfree n ?t)) with (rt_head t).
    apply (remove_ok (ra_tree ra) n [] [] Ht Hh).
Qed.

End Alloc.

(** ** A run *)

Section Run.
  #[local] Existing Instance flat_tree.

Definition empty_allocator : uvm_range_allocator_t := mk_allocator 0 (mk_range_tree rb_null [] ∅).
Definition no_allocation : uvm_range_allocation_t := mk_allocation 0 None.

Definition run_init : uvm_range_allocator_t := (uvm_range_allocator_init 100 (Some 1) empty_allocator).2.
Definition run_1 := (uvm_range_allocator_alloc run_init 10 16 (Some 2) no_allocation).2.
Definition run_2 := (uvm_range_allocator_alloc run_1.1 5 8 (Some 3) no_allocation).2.
Definition run_3 : uvm_range_allocator_t := (uvm_range_allocator_free run_2.1 (Some run_1.2)).1.
Definition run_4 : uvm_range_allocator_t := (uvm_range_allocator_free run_3 (Some run_2.2)).1.

Lemma run_init_ok : ra_ok run_init [].
Proof. by apply (init_ok (Laws := flat_tree_laws)). Qed.

Lemma request_pow2 size k : 0 < size < 2 ^ 64 -> 0 <= k < 64 -> request_ok size (2 ^ k).
Proof. intros Hs Hk. split; [done|]. right. by exists k. Qed.

Lemma run_2_reach : ra_reach 100 run_2.1 [(run_2.2, 5); (run_1.2, 10)].
Proof.
  apply (reach_alloc 100 run_1.1 [(run_1.2, 10)] 5 8 (Some 3) no_allocation NV_OK run_2.1 run_2.2).
  - apply (reach_alloc 100 run_init [] 10 16 (Some 2) no_allocation NV_OK run_1.1 run_1.2).
    + by apply (reach_init 100 empty_allocator 1).
    + by apply (request_pow2 10 4).
    + intros m [= <-]. by apply (bool_decide_unpack _); vm_compute.
    + by vm_compute.
  - by apply (request_pow2 5 3).
  - intros m [= <-]. by apply (bool_decide_unpack _); vm_compute.
  - by vm_compute.
Qed.

Lemma run_4_reach : ra_reach 100 run_4 [].
Proof.
  apply (reach_free 100 run_3 [] run_2.2 5 []). apply (reach_free 100 run_2.1 [(run_2.2, 5)] run_1.2 10 []). apply run_2_reach.
Qed.

Lemma alloc_first_fit_witness : aligned 16 (aligned_start (uvm_range_allocator_alloc run_init 10 16 (Some 2) no_allocation).2.2) /\
  (uvm_range_allocator_alloc run_init 10 16 None no_allocation).1 = NV_ERR_NO_MEMORY.
Proof.
  pose proof (fun new => alloc_first_fit (Laws := flat_tree_laws) run_init [] 10 16 new no_allocation run_init_ok (request_pow2 10 4 ltac:(lia) ltac:(lia))) as Ha.
  assert (forall m, Some 2 = Some m -> m ∉ dom (rt_nodes (ra_tree run_init))) as Hm by (intros m [= <-]; by apply (bool_decide_unpack _); vm_compute).
  pose proof (Ha (Some 2) Hm) as H1. pose proof (Ha None ltac:(done)) as H2. clear Ha.
  destruct (uvm_range_allocator_alloc run_init 10 16 (Some 2) no_allocation) as [st [ra' al']] eqn:He.
  destruct (uvm_range_allocator_alloc run_init 10 16 None no_allocation) as [st2 [ra2 al2]]. split; [|apply H2; by split; [|vm_compute]].
  destruct H1 as (_ & _ & Hst & _). destruct Hst as (m & _ & Hal & _); [|exact Hal]. by vm_compute in He; simplify_eq.
Defined.

Lemma allocations_disjoint_witness : aligned_start run_1.2 + 10 <= aligned_start run_2.2 \/ aligned_start run_2.2 + 5 <= aligned_start run_1.2.
Proof.
  apply (proj2 (allocations_disjoint (Laws := flat_tree_laws) 100 run_2.1 _ ltac:(lia) run_2_reach) 1%nat 0%nat); done.
Defined.

Lemma deinit_after_frees_witness : deinit_asserts run_4 = true /\ rt_nodes (ra_tree (uvm_range_allocator_deinit run_4)) = ∅.
Proof.
  destruct (deinit_after_frees (Laws := flat_tree_laws) 100 run_4 ltac:(lia) run_4_reach) as (Ha & Hn & _). exact (conj Ha Hn).
Defined.

End Run.
