(* ===== verification/PageMask.v ===== *)
(** * Regions and page masks of a VA block

    [uvm_va_block_region_t] and [uvm_page_mask_t] with their helpers
    ([uvm_va_block.h], lines 1629-1900, [uvm_va_block_types.h]).  A mask is the set
    of its bits; the kernel's bitmap functions are written out on it. *)

From stdpp Require Import gmap.
From S2P Require Import Prelude Service.

Local Open Scope Z_scope.

(** ** Regions *)

Record uvm_va_block_region_t : Type := mk_region {
  first : Z;
  outer : Z;
}.

Abbreviation uvm_page_mask_t := (gset Z).

Definition uvm_va_block_region (f o : Z) : uvm_va_block_region_t := mk_region (u16 f) (u16 o).

Definition uvm_va_block_region_num_pages (r : uvm_va_block_region_t) : Z := u64 (outer r - first r).

Definition uvm_va_block_region_start (blk : uvm_va_block_t) (r : uvm_va_block_region_t) : Z :=
  u64 (block_start blk + first r * PAGE_SIZE).

Definition uvm_va_block_region_end (blk : uvm_va_block_t) (r : uvm_va_block_region_t) : Z :=
  u64 (block_start blk + outer r * PAGE_SIZE - 1).

Definition uvm_va_block_region_from_start_end (blk : uvm_va_block_t) (a b : Z) : uvm_va_block_region_t :=
  mk_region (u16 (uvm_va_block_cpu_page_index blk a)) (u16 (uvm_va_block_cpu_page_index blk b + 1)).

Definition uvm_va_block_size (blk : uvm_va_block_t) : Z := u64 (block_end blk - block_start blk + 1).

Definition uvm_va_block_num_cpu_pages (blk : uvm_va_block_t) : Z := uvm_va_block_size blk / PAGE_SIZE.

Definition uvm_va_block_region_from_block (blk : uvm_va_block_t) : uvm_va_block_region_t :=
  uvm_va_block_region 0 (uvm_va_block_num_cpu_pages blk).

(** The pages of a region. *)
Definition region_pages (r : uvm_va_block_region_t) : list Z := seqZ (first r) (outer r - first r).
Definition region_set (r : uvm_va_block_region_t) : uvm_page_mask_t := list_to_set (region_pages r).

(** ** Masks *)

Definition bitmap_weight (m : uvm_page_mask_t) (nbits : Z) : Z := Z.of_nat (size (filter (fun p => p < nbits) m)).

Definition uvm_page_mask_region_weight (m : uvm_page_mask_t) (r : uvm_va_block_region_t) : Z :=
  let weight_before := if 0 <? first r then bitmap_weight m (first r) else 0 in
  u32 (bitmap_weight m (outer r) - weight_before).

Definition uvm_page_mask_region_empty (m : uvm_page_mask_t) (r : uvm_va_block_region_t) : bool :=
  forallb (fun p => negb (bool_decide (p ∈ m))) (region_pages r).

Definition uvm_page_mask_region_fill (m : uvm_page_mask_t) (r : uvm_va_block_region_t) : uvm_page_mask_t := m ∪ region_set r.
Definition uvm_page_mask_region_clear (m : uvm_page_mask_t) (r : uvm_va_block_region_t) : uvm_page_mask_t := m ∖ region_set r.

Definition uvm_page_mask_weight (m : uvm_page_mask_t) : Z := bitmap_weight m PAGES_PER_UVM_VA_BLOCK.

Definition uvm_page_mask_shift_right (m : uvm_page_mask_t) (shift : Z) : uvm_page_mask_t :=
  set_map (fun p => p - shift) (filter (fun p => shift <= p) m).

Definition uvm_page_mask_shift_left (m : uvm_page_mask_t) (shift : Z) : uvm_page_mask_t :=
  filter (fun p => p < PAGES_PER_UVM_VA_BLOCK) (set_map (fun p => p + shift) m).

(** The pages that [for_each_va_block_page_in_region_mask] visits, in order. *)
Definition pages_in_region_mask (m : uvm_page_mask_t) (r : uvm_va_block_region_t) : list Z :=
  filter (fun p => p ∈ m) (region_pages r).

(** ** Lemmas *)

Lemma elem_of_region_pages r p : p ∈ region_pages r <-> first r <= p < outer r.
Proof. unfold region_pages. rewrite elem_of_seqZ. lia. Qed.

Lemma elem_of_region_set r p : p ∈ region_set r <-> first r <= p < outer r.
Proof. unfold region_set. by rewrite elem_of_list_to_set, elem_of_region_pages. Qed.

Lemma elem_of_pages m r p : p ∈ pages_in_region_mask m r <-> p ∈ m /\ first r <= p < outer r.
Proof. unfold pages_in_region_mask. by rewrite list_elem_of_filter, elem_of_region_pages. Qed.

Lemma elem_of_region_fill m r p : p ∈ uvm_page_mask_region_fill m r <-> p ∈ m \/ first r <= p < outer r.
Proof. unfold uvm_page_mask_region_fill. by rewrite elem_of_union, elem_of_region_set. Qed.

Lemma elem_of_region_clear m r p : p ∈ uvm_page_mask_region_clear m r <-> p ∈ m /\ ~ (first r <= p < outer r).
Proof. unfold uvm_page_mask_region_clear. by rewrite elem_of_difference, elem_of_region_set. Qed.

Lemma elem_of_shift_right m n p : p ∈ uvm_page_mask_shift_right m n <-> p + n ∈ m /\ 0 <= p.
Proof.
  unfold uvm_page_mask_shift_right. rewrite elem_of_map. split.
  - intros (q & -> & [Hq Hin]%elem_of_filter). replace (q - n + n) with q by lia. split; [done|lia].
  - intros [Hin Hp]. exists (p + n). split; [lia|]. apply elem_of_filter. split; [lia|done].
Qed.

Lemma elem_of_shift_left m n p : p ∈ uvm_page_mask_shift_left m n <-> p - n ∈ m /\ p < PAGES_PER_UVM_VA_BLOCK.
Proof.
  unfold uvm_page_mask_shift_left. rewrite elem_of_filter, elem_of_map. split.
  - intros [Hp (q & -> & Hq)]. by replace (q + n - n) with q by lia.
  - intros [Hin Hp]. split; [done|]. exists (p - n). split; [lia|done].
Qed.

Lemma region_empty_spec m r : uvm_page_mask_region_empty m r = true <-> forall p, p ∈ m -> ~ (first r <= p < outer r).
Proof.
  unfold uvm_page_mask_region_empty. rewrite forallb_forall. split.
  - intros Hall p Hp Hr. apply elem_of_region_pages, list_elem_of_In in Hr. apply Hall in Hr. by rewrite bool_decide_true in Hr.
  - intros Hall p Hp%list_elem_of_In%elem_of_region_pages. rewrite bool_decide_false; [done|]. intros Hin. by apply (Hall p).
Qed.

Lemma region_nonempty m r : uvm_page_mask_region_empty m r = false -> exists p, p ∈ m /\ p ∈ region_set r.
Proof.
  intros He. destruct (set_choose_or_empty (m ∩ region_set r)) as [[p [Hp Hr]%elem_of_intersection]|Hempty]; [by exists p|].
  assert (uvm_page_mask_region_empty m r = true); [|congruence]. apply region_empty_spec. intros p Hp Hr%elem_of_region_set. set_solver.
Qed.

(** The weight of a region counts the pages of the mask in it. *)
Lemma region_weight_spec m r : first r <= outer r -> outer r - first r < 2 ^ 32 -> (forall p, p ∈ m -> 0 <= p) ->
  uvm_page_mask_region_weight m r = Z.of_nat (size (filter (fun p => first r <= p < outer r) m)).
Proof.
  intros Hle Hb Hpos. unfold uvm_page_mask_region_weight, bitmap_weight.
  set (lo := filter (fun p => p < first r) m). set (mid := filter (fun p => first r <= p < outer r) m).
  assert (size (filter (fun p => p < outer r) m) = (size lo + size mid)%nat) as Hs.
  { rewrite <- size_union by set_solver by lia. f_equal. apply set_eq. intros p. unfold lo, mid.
    rewrite elem_of_union, !elem_of_filter. split; [|naive_solver lia]. intros [Hp Hin].
    destruct (Z.lt_ge_cases p (first r)); [left|right]; split; try done; lia. }
  assert (size mid <= size (region_set r))%nat as Hmid.
  { apply subseteq_size. intros p Hp. unfold mid in Hp. apply elem_of_filter in Hp as [Hp _]. by apply elem_of_region_set. }
  assert (size (region_set r) = Z.to_nat (outer r - first r)) as Hrs.
  { unfold region_set. rewrite size_list_to_set by apply NoDup_seqZ. unfold region_pages. apply length_seqZ. }
  assert ((if 0 <? first r then Z.of_nat (size lo) else 0) = Z.of_nat (size lo)) as Hlo.
  { destruct (Z.ltb_spec 0 (first r)) as [|Hf]; [done|]. assert (lo = ∅) as ->; [|done].
    apply set_eq. intros p. unfold lo. rewrite elem_of_filter. split; [|set_solver]. intros [Hp Hin%Hpos]. lia. }
  fold lo. rewrite Hlo, Hs. rewrite u32_small; lia.
Qed.
