(* ===== verification/Prefetch.v ===== *)
(** * The prefetching heuristic

    The pages to prefetch with a fault migration ([uvm_perf_prefetch.c],
    [uvm_perf_prefetch.h], the tree macros of [uvm_perf_utils.h], the big page
    regions of [uvm_va_block.c] and [uvm_hmm_get_prefetch_region]): a binary tree of
    densities over the page mask of a block, from which each faulted page takes the
    widest dense subtree.  Range groups and HMM policies are range trees. *)

From stdpp Require Import gmap.
From S2P Require Import Prelude Service RangeTree PageMask.

Local Open Scope Z_scope.

(** ** Tunables *)

Definition UVM_PREFETCH_THRESHOLD_DEFAULT : Z := 51.
Definition UVM_PREFETCH_MIN_FAULTS_MIN : Z := 1.
Definition UVM_PREFETCH_MIN_FAULTS_DEFAULT : Z := 1.
Definition UVM_PREFETCH_MIN_FAULTS_MAX : Z := 20.

Record prefetch_tunables : Type := mk_tunables {
  g_uvm_perf_prefetch_enable : bool;
  g_uvm_perf_prefetch_threshold : Z;
  g_uvm_perf_prefetch_min_faults : Z;
}.

#[export] Instance tunables_eta : Eta prefetch_tunables := fun g =>
  mk_tunables (g_uvm_perf_prefetch_enable g) (g_uvm_perf_prefetch_threshold g) (g_uvm_perf_prefetch_min_faults g).

(** The module parameters are [enable], [threshold] and [min_faults]. *)
Definition uvm_perf_prefetch_init (enable threshold min_faults : Z) (g : prefetch_tunables) : NV_STATUS * prefetch_tunables :=
  let g := g <| g_uvm_perf_prefetch_enable := negb (enable =? 0) |> in
  if negb (g_uvm_perf_prefetch_enable g) then (NV_OK, g)
  else
    let g := g <| g_uvm_perf_prefetch_threshold := if threshold <=? 100 then threshold else UVM_PREFETCH_THRESHOLD_DEFAULT |> in
    (NV_OK, g <| g_uvm_perf_prefetch_min_faults :=
       if (UVM_PREFETCH_MIN_FAULTS_MIN <=? min_faults) && (min_faults <=? UVM_PREFETCH_MIN_FAULTS_MAX) then min_faults
       else UVM_PREFETCH_MIN_FAULTS_DEFAULT |>).

(** ** The bitmap tree *)

Record uvm_perf_prefetch_bitmap_tree_t : Type := mk_bitmap_tree {
  pages : uvm_page_mask_t;
  offset : Z;
  leaf_count : Z;
  level_count : Z;
}.

#[export] Instance bitmap_tree_eta : Eta uvm_perf_prefetch_bitmap_tree_t := fun t =>
  mk_bitmap_tree (pages t) (offset t) (leaf_count t) (level_count t).

Record uvm_perf_prefetch_bitmap_tree_iter_t : Type := mk_iter {
  level_idx : Z;
  node_idx : Z;
}.

Definition uvm_perf_prefetch_bitmap_tree_iter_init (t : uvm_perf_prefetch_bitmap_tree_t) (page : Z) : uvm_perf_prefetch_bitmap_tree_iter_t :=
  mk_iter (level_count t - 1) (u16 page).

Definition uvm_perf_tree_iter_max_leaves (t : uvm_perf_prefetch_bitmap_tree_t) (it : uvm_perf_prefetch_bitmap_tree_iter_t) : Z :=
  u16 (Z.shiftl 1 (level_count t - 1 - level_idx it)).

Definition uvm_perf_tree_iter_leaf_range_start (t : uvm_perf_prefetch_bitmap_tree_t) (it : uvm_perf_prefetch_bitmap_tree_iter_t) : Z :=
  UVM_ALIGN_DOWN (node_idx it) (uvm_perf_tree_iter_max_leaves t it).

Definition uvm_perf_tree_iter_leaf_range (t : uvm_perf_prefetch_bitmap_tree_t) (it : uvm_perf_prefetch_bitmap_tree_iter_t) : Z :=
  let range_leaves := uvm_perf_tree_iter_max_leaves t it in
  let range_start := uvm_perf_tree_iter_leaf_range_start t it in
  let range_end_max := u16 (range_start + range_leaves) in
  let range_end := Z.min range_end_max (leaf_count t) in
  u16 (range_end - range_start).

Definition uvm_perf_prefetch_bitmap_tree_iter_get_range (t : uvm_perf_prefetch_bitmap_tree_t) (it : uvm_perf_prefetch_bitmap_tree_iter_t) : uvm_va_block_region_t :=
  let range_leaves := uvm_perf_tree_iter_leaf_range t it in
  let range_start := uvm_perf_tree_iter_leaf_range_start t it in
  uvm_va_block_region range_start (range_start + range_leaves).

Definition uvm_perf_prefetch_bitmap_tree_iter_get_count (t : uvm_perf_prefetch_bitmap_tree_t) (it : uvm_perf_prefetch_bitmap_tree_iter_t) : Z :=
  u16 (uvm_page_mask_region_weight (pages t) (uvm_perf_prefetch_bitmap_tree_iter_get_range t it)).

(** The body of the traversal at level [level]. *)
Definition visit_level (threshold : Z) (t : uvm_perf_prefetch_bitmap_tree_t) (node level : Z) (r : uvm_va_block_region_t) : uvm_va_block_region_t :=
  let it := mk_iter level node in
  let counter := uvm_perf_prefetch_bitmap_tree_iter_get_count t it in
  let subregion := uvm_perf_prefetch_bitmap_tree_iter_get_range t it in
  let subregion_pages := u16 (uvm_va_block_region_num_pages subregion) in
  if u32 (subregion_pages * threshold) <? u32 (counter * 100) then subregion else r.

(** From level [n - 1] to the root. *)
Fixpoint traverse_counters (threshold : Z) (t : uvm_perf_prefetch_bitmap_tree_t) (node : Z) (n : nat) (r : uvm_va_block_region_t) : uvm_va_block_region_t :=
  match n with
  | O => r
  | S n => traverse_counters threshold t node n (visit_level threshold t node (Z.of_nat n) r)
  end.

Definition clamp_first (t : uvm_perf_prefetch_bitmap_tree_t) (max_prefetch_region : uvm_va_block_region_t) (f : Z) : Z :=
  let f := u16 (f + first max_prefetch_region) in
  if f <? offset t then offset t
  else
    let f := u16 (f - offset t) in
    if f <? first max_prefetch_region then first max_prefetch_region else f.

Definition clamp_outer (t : uvm_perf_prefetch_bitmap_tree_t) (max_prefetch_region : uvm_va_block_region_t) (o : Z) : Z :=
  let o := u16 (o + first max_prefetch_region) in
  if o <? offset t then offset t
  else
    let o := u16 (o - offset t) in
    if outer max_prefetch_region <? o then outer max_prefetch_region else o.

Definition compute_prefetch_region (threshold : Z) (page_index : Z) (t : uvm_perf_prefetch_bitmap_tree_t)
    (max_prefetch_region : uvm_va_block_region_t) : uvm_va_block_region_t :=
  let it := uvm_perf_prefetch_bitmap_tree_iter_init t (page_index - first max_prefetch_region + offset t) in
  let r := traverse_counters threshold t (node_idx it) (Z.to_nat (level_idx it + 1)) (uvm_va_block_region 0 0) in
  if outer r =? 0 then r
  else mk_region (clamp_first t max_prefetch_region (first r)) (clamp_outer t max_prefetch_region (outer r)).

(** ** Growing the granularity of faults *)

Definition no_page (m : option uvm_page_mask_t) (r : uvm_va_block_region_t) : bool :=
  match m with Some m => uvm_page_mask_region_empty m r | None => true end.

Definition grow_fault_granularity_if_no_thrashing (region : uvm_va_block_region_t) (f : Z)
    (faulted_pages : uvm_page_mask_t) (thrashing_pages : option uvm_page_mask_t)
    (t : uvm_perf_prefetch_bitmap_tree_t) : uvm_perf_prefetch_bitmap_tree_t :=
  if negb (uvm_page_mask_region_empty faulted_pages region) && no_page thrashing_pages region then
    let region := mk_region (u16 (first region - f + offset t)) (u16 (outer region - f + offset t)) in
    t <| pages ::= fun m => uvm_page_mask_region_fill m region |>
  else t.

(** The loop over the big pages; a block has no more of them than pages. *)
Fixpoint grow_big_pages (fuel : nat) (page_index pages_per_big_page big_outer f : Z)
    (faulted_pages : uvm_page_mask_t) (thrashing_pages : option uvm_page_mask_t)
    (t : uvm_perf_prefetch_bitmap_tree_t) : uvm_perf_prefetch_bitmap_tree_t :=
  match fuel with
  | O => t
  | S fuel =>
      if page_index <? big_outer then
        let big_region := uvm_va_block_region page_index (page_index + pages_per_big_page) in
        let t := grow_fault_granularity_if_no_thrashing big_region f faulted_pages thrashing_pages t in
        grow_big_pages fuel (u16 (page_index + pages_per_big_page)) pages_per_big_page big_outer f faulted_pages thrashing_pages t
      else t
  end.

Definition grow_fault_granularity (big_page_size : Z) (big_pages_region max_prefetch_region : uvm_va_block_region_t)
    (faulted_pages : uvm_page_mask_t) (thrashing_pages : option uvm_page_mask_t)
    (t : uvm_perf_prefetch_bitmap_tree_t) : uvm_perf_prefetch_bitmap_tree_t :=
  let pages_per_big_page := u16 (big_page_size / PAGE_SIZE) in
  let f := first max_prefetch_region in
  let grow r := grow_fault_granularity_if_no_thrashing r f faulted_pages thrashing_pages in
  if outer big_pages_region =? 0 then grow max_prefetch_region t
  else
    let t := if f <? first big_pages_region then grow (uvm_va_block_region f (first big_pages_region)) t else t in
    let t := grow_big_pages (Z.to_nat PAGES_PER_UVM_VA_BLOCK) (first big_pages_region) pages_per_big_page (outer big_pages_region)
               f faulted_pages thrashing_pages t in
    if outer big_pages_region <? outer max_prefetch_region then
      grow (uvm_va_block_region (outer big_pages_region) (outer max_prefetch_region)) t
    else t.

(** ** Building the tree *)

Definition tree_levels (leaves : Z) : Z := u8 (Z.log2 (roundup_pow_of_two leaves) + 1).

Definition init_bitmap_tree_from_region (max_prefetch_region : uvm_va_block_region_t) (resident_mask : option uvm_page_mask_t)
    (faulted_pages : uvm_page_mask_t) : uvm_perf_prefetch_bitmap_tree_t :=
  let m := match resident_mask with Some r => r ∪ faulted_pages | None => faulted_pages end in
  let leaves := u16 (uvm_va_block_region_num_pages max_prefetch_region) in
  mk_bitmap_tree (uvm_page_mask_shift_right m (first max_prefetch_region)) 0 leaves (tree_levels leaves).

Definition range_big_page_region_all (a b big_page_size : Z) : uvm_va_block_region_t :=
  let first_addr := UVM_ALIGN_UP a big_page_size in
  let outer_addr := UVM_ALIGN_DOWN (u64 (b + 1)) big_page_size in
  if outer_addr <=? first_addr then uvm_va_block_region 0 0
  else uvm_va_block_region (u64 (first_addr - a) / PAGE_SIZE) (u64 (outer_addr - a) / PAGE_SIZE).

Definition uvm_va_block_big_page_region_subset (blk : uvm_va_block_t) (region : uvm_va_block_region_t) (big_page_size : Z) : uvm_va_block_region_t :=
  let big_region := range_big_page_region_all (uvm_va_block_region_start blk region) (uvm_va_block_region_end blk region) big_page_size in
  if outer big_region =? 0 then big_region
  else mk_region (u16 (first big_region + first region)) (u16 (outer big_region + first region)).

(** Aligning the tree to the big pages. *)
Definition align_tree (big_page_size : Z) (big_pages_region max_prefetch_region : uvm_va_block_region_t)
    (t : uvm_perf_prefetch_bitmap_tree_t) : uvm_perf_prefetch_bitmap_tree_t :=
  let prefix := first big_pages_region - first max_prefetch_region in
  if 0 <? prefix then
    let off := u16 (big_page_size / PAGE_SIZE - prefix) in
    let leaves := u16 (uvm_va_block_region_num_pages max_prefetch_region + off) in
    mk_bitmap_tree (uvm_page_mask_shift_left (pages t) off) off leaves (tree_levels leaves)
  else t.

Definition update_bitmap_tree_from_va_block (blk : uvm_va_block_t) (big_page_size : Z) (thrashing_pages : option uvm_page_mask_t)
    (faulted_pages : uvm_page_mask_t) (max_prefetch_region : uvm_va_block_region_t)
    (t : uvm_perf_prefetch_bitmap_tree_t) : uvm_perf_prefetch_bitmap_tree_t :=
  let big_pages_region := uvm_va_block_big_page_region_subset blk max_prefetch_region big_page_size in
  let t := align_tree big_page_size big_pages_region max_prefetch_region t in
  grow_fault_granularity big_page_size big_pages_region max_prefetch_region faulted_pages thrashing_pages t.

Fixpoint prefetch_loop (threshold : Z) (t : uvm_perf_prefetch_bitmap_tree_t) (max_prefetch_region : uvm_va_block_region_t)
    (l : list Z) (out : uvm_page_mask_t) : uvm_page_mask_t :=
  match l with
  | [] => out
  | page_index :: l =>
      let region := compute_prefetch_region threshold page_index t max_prefetch_region in
      let out := uvm_page_mask_region_fill out region in
      if outer region =? outer max_prefetch_region then out
      else prefetch_loop threshold t max_prefetch_region l out
  end.

Definition compute_prefetch_mask (threshold : Z) (faulted_region max_prefetch_region : uvm_va_block_region_t)
    (t : uvm_perf_prefetch_bitmap_tree_t) (faulted_pages : uvm_page_mask_t) : uvm_page_mask_t :=
  prefetch_loop threshold t max_prefetch_region (pages_in_region_mask faulted_pages faulted_region) ∅.

(** ** Blocks *)

Definition UVM_ID_CPU : Z := 0.
Definition UVM_ID_INVALID : Z := 257.
Definition UVM_ID_IS_GPU (id : Z) : bool := negb (id =? UVM_ID_CPU) && negb (id =? UVM_ID_INVALID).

Definition UVM_PAGE_SIZE_64K : Z := 65536.

(** A policy, with the node of the HMM policy tree that holds it; the default
    policy has none. *)
Record uvm_va_policy_t : Type := mk_policy {
  policy_node : option Z;
  preferred_location : Z;
}.

Definition uvm_va_policy_default : uvm_va_policy_t := mk_policy None UVM_ID_INVALID.

(** The state of a block that the heuristic reads and writes.  [pb_range_policy] is
    the policy of the VA range, [pb_vma] the first address of the [vma] and the one
    after its last, [pb_thrashing] what
    [uvm_perf_thrashing_get_thrashing_pages] returns. *)
Record prefetch_block_t : Type := mk_prefetch_block {
  pb_block : uvm_va_block_t;
  pb_policy_tree : uvm_range_tree_t;
  pb_node_location : gmap Z Z;
  pb_range_policy : uvm_va_policy_t;
  pb_vma : Z * Z;
  pb_resident : gset Z;
  pb_resident_mask : gmap Z uvm_page_mask_t;
  pb_gpus : gset Z;
  pb_cpu_read : uvm_page_mask_t;
  pb_thrashing : option uvm_page_mask_t;
  last_migration_proc_id : Z;
  fault_migrations_to_last_proc : Z;
}.

#[export] Instance prefetch_block_eta : Eta prefetch_block_t := fun b =>
  mk_prefetch_block (pb_block b) (pb_policy_tree b) (pb_node_location b) (pb_range_policy b) (pb_vma b) (pb_resident b)
    (pb_resident_mask b) (pb_gpus b) (pb_cpu_read b) (pb_thrashing b) (last_migration_proc_id b) (fault_migrations_to_last_proc b).

Record prefetch_space_t : Type := mk_prefetch_space {
  page_prefetch_enabled : bool;
  registered_gpu_va_spaces : gset Z;
  gpu_big_page_size : Z -> Z;
  range_group_ranges : uvm_range_tree_t;
}.

Definition uvm_va_policy_get_region (b : prefetch_block_t) (region : uvm_va_block_region_t) : uvm_va_policy_t :=
  if block_is_hmm (pb_block b) then
    match uvm_range_tree_find (pb_policy_tree b) (uvm_va_block_region_start (pb_block b) region) with
    | Some n => mk_policy (Some n) (pb_node_location b !!! n)
    | None => uvm_va_policy_default
    end
  else pb_range_policy b.

Definition uvm_hmm_get_prefetch_region (b : prefetch_block_t) (policy : uvm_va_policy_t) (address : Z) : uvm_va_block_region_t :=
  let blk := pb_block b in
  let a := Z.max (block_start blk) (pb_vma b).1 in
  let e := Z.min (block_end blk) (u64 ((pb_vma b).2 - 1)) in
  let '(a, e) :=
    match policy_node policy with
    | None => (uvm_range_tree_find_hole_in (pb_policy_tree b) address a e).2
    | Some n => (Z.max a (start_of (pb_policy_tree b) n), Z.min e (end_of (pb_policy_tree b) n))
    end in
  uvm_va_block_region_from_start_end blk a e.

Definition mask_andnot (m : uvm_page_mask_t) (n : option uvm_page_mask_t) : uvm_page_mask_t :=
  match n with Some n => m ∖ n | None => m end.

(** The big page size that [update_bitmap_tree_from_va_block] uses. *)
Definition residency_big_page_size (va : prefetch_space_t) (residency : Z) : Z :=
  if UVM_ID_IS_GPU residency && bool_decide (residency ∈ registered_gpu_va_spaces va) then gpu_big_page_size va residency
  else UVM_PAGE_SIZE_64K.

Definition max_prefetch_region_of (b : prefetch_block_t) (faulted_region : uvm_va_block_region_t) : uvm_va_block_region_t :=
  if block_is_hmm (pb_block b) then
    uvm_hmm_get_prefetch_region b (uvm_va_policy_get_region b faulted_region) (uvm_va_block_region_start (pb_block b) faulted_region)
  else uvm_va_block_region_from_block (pb_block b).

Definition resident_mask_of (b : prefetch_block_t) (residency : Z) : option uvm_page_mask_t :=
  if (residency =? UVM_ID_CPU) || bool_decide (residency ∈ pb_gpus b) then Some (pb_resident_mask b !!! residency) else None.

(** The new state of the block, the mask and its weight. *)
Definition uvm_perf_prefetch_prenotify_fault_migrations (g : prefetch_tunables) (va : prefetch_space_t) (b : prefetch_block_t)
    (residency : Z) (faulted_pages : uvm_page_mask_t) (faulted_region : uvm_va_block_region_t) :
    prefetch_block_t * uvm_page_mask_t * Z :=
  let policy := uvm_va_policy_get_region b faulted_region in
  let thrashing_pages := pb_thrashing b in
  let b := if last_migration_proc_id b =? residency then b
           else b <| last_migration_proc_id := residency |> <| fault_migrations_to_last_proc := 0 |> in
  let max_prefetch_region := max_prefetch_region_of b faulted_region in
  let resident_mask := resident_mask_of b residency in
  let prefetch_pages :=
    if bool_decide (pb_resident b = ∅) && (residency =? preferred_location policy) then
      uvm_page_mask_region_fill ∅ max_prefetch_region
    else
      let t := init_bitmap_tree_from_region max_prefetch_region resident_mask faulted_pages in
      let t := update_bitmap_tree_from_va_block (pb_block b) (residency_big_page_size va residency) thrashing_pages
                 faulted_pages max_prefetch_region t in
      compute_prefetch_mask (g_uvm_perf_prefetch_threshold g) faulted_region max_prefetch_region t (mask_andnot faulted_pages thrashing_pages) in
  let prefetch_pages := prefetch_pages ∖ faulted_pages in
  let prefetch_pages :=
    if (residency =? UVM_ID_CPU) && negb (block_is_hmm (pb_block b)) then prefetch_pages ∖ (default ∅ resident_mask ∩ pb_cpu_read b)
    else prefetch_pages in
  let prefetch_pages := mask_andnot prefetch_pages thrashing_pages in
  let b := b <| fault_migrations_to_last_proc ::= fun n => u16 (n + uvm_page_mask_region_weight faulted_pages faulted_region) |> in
  (b, prefetch_pages, uvm_page_mask_weight prefetch_pages).

Definition uvm_perf_prefetch_enabled (g : prefetch_tunables) (va : prefetch_space_t) : bool :=
  g_uvm_perf_prefetch_enable g && page_prefetch_enabled va.

Definition uvm_perf_prefetch_compute_ats (g : prefetch_tunables) (va : prefetch_space_t) (faulted_pages : uvm_page_mask_t)
    (faulted_region max_prefetch_region : uvm_va_block_region_t) (residency_mask : option uvm_page_mask_t) : uvm_page_mask_t :=
  if negb (uvm_perf_prefetch_enabled g va) then ∅
  else
    let t := init_bitmap_tree_from_region max_prefetch_region residency_mask faulted_pages in
    compute_prefetch_mask (g_uvm_perf_prefetch_threshold g) faulted_region max_prefetch_region t faulted_pages.

Record uvm_perf_prefetch_hint_t : Type := mk_hint {
  prefetch_pages_mask : uvm_page_mask_t;
  hint_residency : Z;
}.

(** The pages of a range group range in the block. *)
Definition range_group_region (va : prefetch_space_t) (blk : uvm_va_block_t) (rgr : Z) : uvm_va_block_region_t :=
  uvm_va_block_region_from_start_end blk (Z.max (start_of (range_group_ranges va) rgr) (block_start blk))
    (Z.min (end_of (range_group_ranges va) rgr) (block_end blk)).

(** One range group range: no prefetching in it when nothing of it moves. *)
Definition range_group_step (va : prefetch_space_t) (blk : uvm_va_block_t) (faulted_pages : uvm_page_mask_t)
    (acc : uvm_page_mask_t * bool) (rgr : Z) : uvm_page_mask_t * bool :=
  let '(prefetch_pages, changed) := acc in
  let region := range_group_region va blk rgr in
  if uvm_page_mask_region_empty faulted_pages region && negb (uvm_page_mask_region_empty prefetch_pages region) then
    (uvm_page_mask_region_clear prefetch_pages region, true)
  else acc.

Definition uvm_perf_prefetch_get_hint_va_block (g : prefetch_tunables) (va : prefetch_space_t) (b : prefetch_block_t)
    (residency : Z) (faulted_pages : uvm_page_mask_t) (faulted_region : uvm_va_block_region_t) :
    prefetch_block_t * uvm_perf_prefetch_hint_t :=
  if negb (uvm_perf_prefetch_enabled g va) then (b, mk_hint ∅ UVM_ID_INVALID)
  else
    let '(b, prefetch_pages, pending) := uvm_perf_prefetch_prenotify_fault_migrations g va b residency faulted_pages faulted_region in
    if (g_uvm_perf_prefetch_min_faults g <=? fault_migrations_to_last_proc b) && (0 <? pending) then
      let ranges := uvm_range_tree_for_each_in (range_group_ranges va) (block_start (pb_block b)) (block_end (pb_block b)) in
      let '(prefetch_pages, changed) := foldl (range_group_step va (pb_block b) faulted_pages) (prefetch_pages, false) ranges in
      let pending := if changed then uvm_page_mask_weight prefetch_pages else pending in
      (b, mk_hint prefetch_pages (if 0 <? pending then last_migration_proc_id b else UVM_ID_INVALID))
    else (b, mk_hint prefetch_pages UVM_ID_INVALID).

(** ** Well-formed trees *)

Record tree_ok (t : uvm_perf_prefetch_bitmap_tree_t) (max : uvm_va_block_region_t) : Prop := {
  tree_max : 0 <= first max < outer max;
  tree_outer : outer max <= PAGES_PER_UVM_VA_BLOCK;
  tree_offset : 0 <= offset t;
  tree_leaves : leaf_count t = outer max - first max + offset t;
  tree_bound : leaf_count t <= PAGES_PER_UVM_VA_BLOCK;
  tree_levels_ok : 1 <= level_count t <= 10 /\ leaf_count t <= 2 ^ (level_count t - 1);
  tree_pages : forall p, p ∈ pages t -> 0 <= p;
}.

Lemma pow2_width k : 0 <= k <= 9 -> 1 <= 2 ^ k <= 512.
Proof. intros Hk. split; [lia|]. change 512 with (2 ^ 9). apply Z.pow_le_mono_r; lia. Qed.

Section Tree.
  Context (t : uvm_perf_prefetch_bitmap_tree_t) (max : uvm_va_block_region_t) (Ht : tree_ok t max) (threshold : Z).
  Hypothesis Hthr : 0 <= threshold <= 100.

(** The subtree of level [l] over the leaf [x]. *)
Definition span (l : Z) : Z := 2 ^ (level_count t - 1 - l).
Definition node_region (x l : Z) : uvm_va_block_region_t :=
  mk_region (x - x mod span l) (Z.min (x - x mod span l + span l) (leaf_count t)).

(** More than the threshold of its pages are set. *)
Definition dense (r : uvm_va_block_region_t) : Prop :=
  (outer r - first r) * threshold < Z.of_nat (size (filter (fun p => first r <= p < outer r) (pages t))) * 100.

#[local] Instance dense_dec r : Decision (dense r).
Proof. unfold dense. apply _. Defined.

Lemma span_bound l : 0 <= l < level_count t -> 1 <= span l <= 512.
Proof. intros Hl. pose proof (tree_levels_ok _ _ Ht). apply pow2_width. lia. Qed.

Lemma node_region_bound x l : 0 <= x < leaf_count t -> 0 <= l < level_count t ->
  0 <= first (node_region x l) <= x /\ x < outer (node_region x l) <= leaf_count t.
Proof.
  intros Hx Hl. pose proof (span_bound l Hl). pose proof (Z.mod_pos_bound x (span l)). pose proof (Z.mod_le x (span l)).
  simpl. lia.
Qed.

Lemma get_range_spec x l : 0 <= x < leaf_count t -> 0 <= l < level_count t ->
  uvm_perf_prefetch_bitmap_tree_iter_get_range t (mk_iter l x) = node_region x l.
Proof.
  intros Hx Hl. pose proof (span_bound l Hl) as Hs. pose proof (tree_bound _ _ Ht) as Hb. unfold PAGES_PER_UVM_VA_BLOCK in Hb.
  destruct (node_region_bound x l Hx Hl) as [Hf Ho]. simpl in Hf, Ho.
  unfold uvm_perf_prefetch_bitmap_tree_iter_get_range, uvm_perf_tree_iter_leaf_range, uvm_perf_tree_iter_leaf_range_start,
    uvm_perf_tree_iter_max_leaves. cbn [level_idx node_idx].
  pose proof (tree_levels_ok _ _ Ht) as [Hlev _]. rewrite Z.shiftl_mul_pow2, Z.mul_1_l by lia. fold (span l).
  rewrite (wrap_id 16 (span l)) by (unfold in_width; lia). 
  assert (UVM_ALIGN_DOWN x (span l) = x - x mod span l) as -> by (apply align_down_spec; lia).
  rewrite (wrap_id 16 (_ + span l)) by (unfold in_width; lia).
  rewrite (wrap_id 16 (Z.min _ _ - _)) by (unfold in_width; lia).
  unfold uvm_va_block_region, node_region. rewrite !wrap_id by (unfold in_width; lia). f_equal. lia.
Qed.

Lemma weight_bound r : first r <= outer r ->
  Z.of_nat (size (filter (fun p => first r <= p < outer r) (pages t))) <= outer r - first r.
Proof.
  intros Hr. assert (size (filter (fun p => first r <= p < outer r)%Z (pages t)) <= size (region_set r))%nat as Hle.
  { apply subseteq_size. intros p [Hp _]%elem_of_filter. by apply elem_of_region_set. }
  unfold region_set in Hle. rewrite size_list_to_set in Hle by apply NoDup_seqZ. unfold region_pages in Hle. rewrite length_seqZ in Hle. lia.
Qed.

Lemma visit_level_spec x l r : 0 <= x < leaf_count t -> 0 <= l < level_count t ->
  visit_level threshold t x l r = if decide (dense (node_region x l)) then node_region x l else r.
Proof.
  intros Hx Hl. unfold visit_level, uvm_perf_prefetch_bitmap_tree_iter_get_count. rewrite get_range_spec by done.
  destruct (node_region_bound x l Hx Hl) as [Hf Ho]. set (n := node_region x l) in *.
  pose proof (tree_bound _ _ Ht) as Hb. unfold PAGES_PER_UVM_VA_BLOCK in Hb. pose proof (weight_bound n ltac:(lia)) as Hw.
  rewrite region_weight_spec by (apply (tree_pages _ _ Ht) || lia). unfold uvm_va_block_region_num_pages.
  rewrite (wrap_id 64) by (unfold in_width; lia). rewrite !(wrap_id 16) by (unfold in_width; lia).
  rewrite !u32_small by nia. unfold dense. case_decide as Hd.
  - by rewrite (proj2 (Z.ltb_lt _ _) Hd).
  - by rewrite (proj2 (Z.ltb_ge _ _)) by lia.
Qed.

(** The traversal ends with the widest dense subtree. *)
Lemma traverse_spec x n r : 0 <= x < leaf_count t -> Z.of_nat n <= level_count t ->
  (exists l, 0 <= l < Z.of_nat n /\ dense (node_region x l) /\ (forall l', 0 <= l' < l -> ~ dense (node_region x l')) /\
     traverse_counters threshold t x n r = node_region x l) \/
  ((forall l, 0 <= l < Z.of_nat n -> ~ dense (node_region x l)) /\ traverse_counters threshold t x n r = r).
Proof.
  intros Hx. revert r. induction n as [|n IH]; intros r Hn; [right; split; [lia|done]|]. simpl.
  rewrite visit_level_spec by (done || lia).
  destruct (IH (if decide (dense (node_region x (Z.of_nat n))) then node_region x (Z.of_nat n) else r) ltac:(lia))
    as [(l & Hl & Hd & Hmin & ->)|[Hnone ->]].
  - left. exists l. split; [lia|]. done.
  - case_decide as Hd.
    + left. exists (Z.of_nat n). split; [lia|]. done.
    + right. split; [|done]. intros l Hl. destruct (decide (l = Z.of_nat n)) as [->|]; [done|]. apply Hnone. lia.
Qed.

(** Leaves of one subtree have the same subtrees at that level and above. *)
Lemma node_region_same x y l l' : 0 <= x < leaf_count t -> 0 <= y < leaf_count t -> 0 <= l' <= l -> l < level_count t ->
  first (node_region x l) <= y < outer (node_region x l) -> node_region y l' = node_region x l'.
Proof.
  intros Hx Hy Hl Hlev Hin. simpl in Hin. pose proof (span_bound l ltac:(lia)) as Hs. pose proof (span_bound l' ltac:(lia)) as Hs'.
  assert (y / span l = x / span l) as Hdiv.
  { symmetry. apply Z.div_unique with (y - (x - x mod span l)); [lia|]. pose proof (Z.div_mod x (span l)). lia. }
  assert (span l' = span l * 2 ^ (l - l')) as Hmul.
  { unfold span. rewrite <- Z.pow_add_r by lia. f_equal. lia. }
  assert (y / span l' = x / span l') as Hdiv'.
  { rewrite Hmul, <- !Z.div_div, Hdiv by lia. done. }
  unfold node_region. pose proof (Z.div_mod x (span l')). pose proof (Z.div_mod y (span l')).
  assert (x - x mod span l' = y - y mod span l') as -> by (rewrite Hdiv' in *; lia). done.
Qed.

(** ** Clamping *)

Lemma clamp_outer_spec s e x : 0 <= s <= x -> x < e <= leaf_count t -> offset t <= x -> clamp_outer t max e = e + first max - offset t.
Proof.
  intros Hs He Hx. pose proof (tree_max _ _ Ht) as Hm. pose proof (tree_outer _ _ Ht) as Ho. pose proof (tree_leaves _ _ Ht) as Hl.
  pose proof (tree_bound _ _ Ht) as Hb. pose proof (tree_offset _ _ Ht) as Hoff. unfold PAGES_PER_UVM_VA_BLOCK in *.
  unfold clamp_outer. rewrite (wrap_id 16 (e + _)) by (unfold in_width; lia).
  destruct (Z.ltb_spec (e + first max) (offset t)); [lia|]. rewrite wrap_id by (unfold in_width; lia).
  destruct (Z.ltb_spec (outer max) (e + first max - offset t)); lia.
Qed.

Lemma clamp_first_spec s x : 0 <= s <= x -> x < leaf_count t ->
  clamp_first t max s = if s + first max <? offset t then offset t else Z.max (s + first max - offset t) (first max).
Proof.
  intros Hs Hx. pose proof (tree_max _ _ Ht) as Hm. pose proof (tree_outer _ _ Ht) as Ho.
  pose proof (tree_bound _ _ Ht) as Hb. pose proof (tree_offset _ _ Ht) as Hoff. unfold PAGES_PER_UVM_VA_BLOCK in *.
  unfold clamp_first. rewrite (wrap_id 16 (s + _)) by (unfold in_width; lia).
  destruct (Z.ltb_spec (s + first max) (offset t)); [done|]. rewrite wrap_id by (unfold in_width; lia).
  destruct (Z.ltb_spec (s + first max - offset t) (first max)); lia.
Qed.

(** The leaf of a page. *)
Definition leaf (p : Z) : Z := p - first max + offset t.

Lemma leaf_bound p : first max <= p < outer max -> offset t <= leaf p < leaf_count t.
Proof. pose proof (tree_leaves _ _ Ht). unfold leaf. lia. Qed.

(** What [compute_prefetch_region] returns for a page. *)
Lemma compute_region_spec p : first max <= p < outer max ->
  (exists l, 0 <= l < level_count t /\ dense (node_region (leaf p) l) /\
     (forall l', 0 <= l' < l -> ~ dense (node_region (leaf p) l')) /\
     compute_prefetch_region threshold p t max =
       mk_region (clamp_first t max (first (node_region (leaf p) l))) (outer (node_region (leaf p) l) + first max - offset t)) \/
  ((forall l, 0 <= l < level_count t -> ~ dense (node_region (leaf p) l)) /\ compute_prefetch_region threshold p t max = mk_region 0 0).
Proof.
  intros Hp. pose proof (leaf_bound p Hp) as Hx. pose proof (tree_offset _ _ Ht) as Hoff. pose proof (tree_bound _ _ Ht) as Hb.
  unfold PAGES_PER_UVM_VA_BLOCK in Hb. pose proof (tree_levels_ok _ _ Ht) as [Hlev _]. unfold compute_prefetch_region.
  cbn [uvm_perf_prefetch_bitmap_tree_iter_init level_idx node_idx]. fold (leaf p).
  rewrite wrap_id by (unfold in_width; lia). replace (level_count t - 1 + 1) with (level_count t) by lia.
  destruct (traverse_spec (leaf p) (Z.to_nat (level_count t)) (uvm_va_block_region 0 0) ltac:(lia) ltac:(lia)) as [(l & Hl & Hd & Hmin & ->)|[Hnone ->]].
  - left. exists l. rewrite Z2Nat.id in Hl by lia. split; [done|]. split; [done|]. split; [done|].
    destruct (node_region_bound (leaf p) l ltac:(lia) Hl) as [Hf Ho].
    destruct (Z.eqb_spec (outer (node_region (leaf p) l)) 0); [lia|]. f_equal.
    apply (clamp_outer_spec (first (node_region (leaf p) l)) _ (leaf p)); lia.
  - right. rewrite Z2Nat.id in Hnone by lia. done.
Qed.

Lemma compute_region_within p q : first max <= p < outer max ->
  first (compute_prefetch_region threshold p t max) <= q < outer (compute_prefetch_region threshold p t max) -> first max <= q < outer max.
Proof.
  intros Hp. pose proof (leaf_bound p Hp) as Hx. pose proof (tree_offset _ _ Ht) as Hoff. pose proof (tree_leaves _ _ Ht) as Hl.
  destruct (compute_region_spec p Hp) as [(l & Hlev & _ & _ & ->)|[_ ->]]; [|simpl; lia].
  destruct (node_region_bound (leaf p) l ltac:(lia) Hlev) as [Hf Ho]. set (n := node_region (leaf p) l) in *.
  cbn [first outer]. rewrite (clamp_first_spec (first n) (leaf p)) by lia.
  destruct (Z.ltb_spec (first n + first max) (offset t)); lia.
Qed.

(** When the region of a page reaches the end, the later pages have the same one. *)
Lemma early_out p q : first max <= p <= q -> q < outer max -> outer (compute_prefetch_region threshold p t max) = outer max ->
  compute_prefetch_region threshold q t max = compute_prefetch_region threshold p t max.
Proof.
  intros Hpq Hq Hout. assert (first max <= p < outer max) as Hp by lia. pose proof (leaf_bound p Hp) as Hxp.
  pose proof (leaf_bound q ltac:(lia)) as Hxq. pose proof (tree_offset _ _ Ht) as Hoff. pose proof (tree_leaves _ _ Ht) as Hl.
  pose proof (tree_max _ _ Ht) as Hm.
  destruct (compute_region_spec p Hp) as [(l & Hlev & Hd & Hmin & Hrp)|[_ Hrp]]; rewrite Hrp in Hout; cbn [outer] in Hout; [|lia].
  destruct (node_region_bound (leaf p) l ltac:(lia) Hlev) as [Hf Ho].
  assert (first (node_region (leaf p) l) <= leaf q < outer (node_region (leaf p) l)) as Hin by (unfold leaf in *; lia).
  assert (forall l', 0 <= l' <= l -> node_region (leaf q) l' = node_region (leaf p) l') as Hsame
    by (intros l' Hl'; apply (node_region_same (leaf p) (leaf q) l); lia).
  rewrite Hrp. destruct (compute_region_spec q ltac:(lia)) as [(l' & Hlev' & Hd' & Hmin' & ->)|[Hnone _]].
  - assert (l' = l) as ->; [|by rewrite Hsame by lia].
    destruct (Z.lt_trichotomy l l') as [Hlt|[Heq|Hgt]]; [|done|].
    + destruct (Hmin' l ltac:(lia)). by rewrite Hsame by lia.
    + destruct (Hmin l' ltac:(lia)). by rewrite <- Hsame by lia.
  - destruct (Hnone l Hlev). by rewrite Hsame by lia.
Qed.

(** The loop fills the region of every page, whether it stops early or not. *)
Lemma prefetch_loop_spec l out q : (forall p, p ∈ l -> first max <= p < outer max) -> StronglySorted Z.le l ->
  q ∈ prefetch_loop threshold t max l out <->
  q ∈ out \/ exists p, p ∈ l /\ first (compute_prefetch_region threshold p t max) <= q < outer (compute_prefetch_region threshold p t max).
Proof.
  revert out. induction l as [|p l IH]; intros out Hin Hs; cbn [prefetch_loop].
  - split; [by left|]. intros [|(p & Hp & _)]; [done|]. by apply elem_of_nil in Hp.
  - apply StronglySorted_cons in Hs as [Hall Hs]. set (r := compute_prefetch_region threshold p t max).
    destruct (Z.eqb_spec (outer r) (outer max)) as [Hout|_].
    + rewrite elem_of_region_fill. split.
      * intros [|Hr]; [by left|]. right. exists p. split; [by left|done].
      * intros [|(p' & Hp' & Hr)]; [by left|]. right. apply elem_of_cons in Hp' as [->|Hp']; [done|].
        pose proof (proj1 (Forall_forall _ _) Hall p' Hp'). pose proof (Hin p ltac:(by left)). pose proof (Hin p' ltac:(by right)).
        rewrite (early_out p p') in Hr; [done|lia|lia|done].
    + rewrite IH; [|intros p' Hp'; apply Hin; by right|done]. rewrite elem_of_region_fill. split.
      * intros [[|Hr]|(p' & Hp' & Hr)]; [by left|right; exists p; split; [by left|done]|right; exists p'; split; [by right|done]].
      * intros [|(p' & Hp' & Hr)]; [by left; left|]. apply elem_of_cons in Hp' as [->|Hp']; [by left; right|]. right. by exists p'.
Qed.

End Tree.

(** ** The trees that are built *)

Definition nonneg (m : uvm_page_mask_t) : Prop := forall p, p ∈ m -> 0 <= p.

Lemma tree_levels_spec n : 1 <= n <= 512 -> 1 <= tree_levels n <= 10 /\ n <= 2 ^ (tree_levels n - 1).
Proof.
  intros Hn. unfold tree_levels, roundup_pow_of_two. destruct (Z.leb_spec n 1) as [Hle|Hgt].
  - assert (n = 1) as -> by lia. vm_compute. intuition congruence.
  - pose proof (Z.log2_up_nonneg n) as H0. pose proof (Z.log2_up_spec n Hgt) as [_ Hup].
    assert (Z.log2_up n <= 9) as H9 by (change 9 with (Z.log2_up 512); apply Z.log2_up_le_mono; lia).
    rewrite Z.log2_pow2, wrap_id by (unfold in_width; lia).
    replace (Z.log2_up n + 1 - 1) with (Z.log2_up n) by lia. lia.
Qed.

Lemma init_tree_ok max resident faulted : 0 <= first max < outer max -> outer max <= PAGES_PER_UVM_VA_BLOCK ->
  tree_ok (init_bitmap_tree_from_region max resident faulted) max.
Proof.
  intros Hm Ho. unfold PAGES_PER_UVM_VA_BLOCK in Ho. unfold init_bitmap_tree_from_region, uvm_va_block_region_num_pages.
  rewrite (wrap_id 64), (wrap_id 16) by (unfold in_width; lia).
  split; cbn [pages offset leaf_count level_count]; try (unfold PAGES_PER_UVM_VA_BLOCK; lia).
  - apply tree_levels_spec. lia.
  - intros p [_ Hp]%elem_of_shift_right. done.
Qed.

Lemma grow_pages t max r f faulted thrashing : tree_ok t max ->
  tree_ok (grow_fault_granularity_if_no_thrashing r f faulted thrashing t) max.
Proof.
  intros Ht. unfold grow_fault_granularity_if_no_thrashing. destruct (_ && _); [|done].
  split; try apply Ht. cbn. intros p [Hp|Hp]%elem_of_region_fill; [by apply (tree_pages _ _ Ht)|].
  cbn [first] in Hp. pose proof (wrap_in_width 16 (first r - f + offset t) ltac:(lia)) as Hw. unfold in_width in Hw. lia.
Qed.

Lemma grow_big_pages_ok fuel : forall t max i n o f faulted thrashing, tree_ok t max -> tree_ok (grow_big_pages fuel i n o f faulted thrashing t) max.
Proof.
  induction fuel as [|fuel IH]; intros t max i n o f faulted thrashing Ht; [done|]. cbn [grow_big_pages].
  destruct (_ <? _); [|done]. by apply IH, grow_pages.
Qed.

(** The loop ends: beyond the number of pages left the fuel does not matter, so
    [PAGES_PER_UVM_VA_BLOCK] is enough for every region of a block. *)
Lemma grow_big_pages_enough n o f faulted thrashing : 1 <= n <= PAGES_PER_UVM_VA_BLOCK -> o <= PAGES_PER_UVM_VA_BLOCK ->
  forall fuel fuel' i t, 0 <= i -> o - i <= Z.of_nat fuel -> o - i <= Z.of_nat fuel' ->
  grow_big_pages fuel i n o f faulted thrashing t = grow_big_pages fuel' i n o f faulted thrashing t.
Proof.
  intros Hn Ho. unfold PAGES_PER_UVM_VA_BLOCK in *.
  induction fuel as [|fuel IH]; intros [|fuel'] i t Hi Hf Hf'; cbn [grow_big_pages]; [done| | |];
    destruct (Z.ltb_spec i o) as [Hlt|Hge]; [lia|done|lia|done| |done].
  rewrite wrap_id by (unfold in_width; lia). apply IH; lia.
Qed.

Lemma grow_ok t max size big mx faulted thrashing : tree_ok t max -> tree_ok (grow_fault_granularity size big mx faulted thrashing t) max.
Proof.
  intros Ht. unfold grow_fault_granularity. destruct (_ =? 0); [by apply grow_pages|].
  assert (forall (c : bool) r t', tree_ok t' max ->
    tree_ok (if c then grow_fault_granularity_if_no_thrashing r (first mx) faulted thrashing t' else t') max) as Hc
    by (intros [] r t' Ht'; [by apply grow_pages|done]).
  by apply Hc, grow_big_pages_ok, Hc.
Qed.

Lemma grow_pages_offset r f faulted thrashing t : offset (grow_fault_granularity_if_no_thrashing r f faulted thrashing t) = offset t.
Proof. unfold grow_fault_granularity_if_no_thrashing. by destruct (_ && _). Qed.

Lemma grow_offset size big mx faulted thrashing t : offset (grow_fault_granularity size big mx faulted thrashing t) = offset t.
Proof.
  assert (forall fuel i n o f t', offset (grow_big_pages fuel i n o f faulted thrashing t') = offset t') as Hbig.
  { induction fuel as [|fuel IH]; intros i n o f t'; [done|]. cbn [grow_big_pages]. destruct (_ <? _); [|done].
    by rewrite IH, grow_pages_offset. }
  unfold grow_fault_granularity. destruct (_ =? 0); [apply grow_pages_offset|].
  destruct (_ <? _), (_ <? _); by rewrite ?grow_pages_offset, Hbig, ?grow_pages_offset.
Qed.

(** A block lies within 2MB and consists of whole pages; a region of it. *)
Record block_ok (blk : uvm_va_block_t) : Prop := {
  block_page : (PAGE_SIZE | block_start blk);
  block_base : exists d, (2 ^ 21 | d) /\ 0 <= d <= block_start blk /\ block_start blk <= block_end blk < d + 2 ^ 21 /\ d + 2 ^ 21 < 2 ^ 64;
}.

Definition region_in (blk : uvm_va_block_t) (r : uvm_va_block_region_t) : Prop :=
  0 <= first r < outer r /\ block_start blk + outer r * PAGE_SIZE <= block_end blk + 1.

Lemma region_in_pages blk r : block_ok blk -> region_in blk r -> outer r <= PAGES_PER_UVM_VA_BLOCK.
Proof. intros [_ (d & _ & Hd & He & _)] [Hr Ho]. unfold PAGE_SIZE, PAGES_PER_UVM_VA_BLOCK in *. lia. Qed.

(** The first big page at or after the start of the region: the leaves before it
    are those of the big page that the region starts in. *)
Lemma big_first blk r k : block_ok blk -> region_in blk r -> 12 <= k <= 21 ->
  let a := block_start blk + first r * PAGE_SIZE in
  a <= UVM_ALIGN_UP a (2 ^ k) < a + 2 ^ k /\ (2 ^ k | UVM_ALIGN_UP a (2 ^ k)) /\
  (UVM_ALIGN_UP a (2 ^ k) <> a -> block_end blk < UVM_ALIGN_UP a (2 ^ k) - 2 ^ k + 2 ^ 21).
Proof.
  intros [Hpg (d & Hd & Hds & Hde & Hdw)] [Hr Ho] Hk a. unfold PAGE_SIZE in *.
  assert (0 < 2 ^ k <= 2 ^ 21) as Hp by (split; [lia|apply Z.pow_le_mono_r; lia]).
  assert ((2 ^ k | 2 ^ 21)) as Hdiv.
  { exists (2 ^ (21 - k)). rewrite <- Z.pow_add_r by lia. f_equal. lia. }
  assert ((2 ^ k | d)) as Hkd by (by apply (Z.divide_trans _ (2 ^ 21))).
  assert (d <= a < d + 2 ^ 21) as Ha by (unfold a; lia).
  destruct (align_up_spec a k ltac:(lia) ltac:(lia)) as [(Hle & Hup & Hmul)|[Hov _]]; [|].
  2:{ assert (d + 2 ^ 21 + 2 ^ k <= 2 ^ 64 + 2 ^ k) by lia.
      assert (2 ^ 64 <= d + 2 ^ 21); [|lia]. apply (divide_le (2 ^ k)); [lia| | |lia].
      - exists (2 ^ (64 - k)). rewrite <- Z.pow_add_r by lia. f_equal. lia.
      - by apply Z.divide_add_r. }
  split; [done|]. split; [done|]. intros Hne.
  assert (d <= UVM_ALIGN_UP a (2 ^ k) - 2 ^ k); [|lia].
  apply (divide_le (2 ^ k)); [lia|done| |lia]. apply Z.divide_sub_r; [done|]. apply Z.divide_refl.
Qed.

(** The big pages of a region: none, or from [q] pages after its start on. *)
Lemma big_subset_spec blk max k : block_ok blk -> region_in blk max -> 12 <= k <= 21 ->
  let r := uvm_va_block_big_page_region_subset blk max (2 ^ k) in
  let n := 2 ^ k / PAGE_SIZE in
  r = mk_region 0 0 \/
  exists q, 0 <= q < n /\ n <= 512 /\ first r = first max + q /\ first r < outer r <= outer max /\
    (0 < q -> outer max - first max + (n - q) <= PAGES_PER_UVM_VA_BLOCK).
Proof.
  intros Hblk Hmax Hk r n. pose proof (big_first blk max k Hblk Hmax Hk) as (Hup & Hmul & Hlast).
  pose proof (region_in_pages blk max Hblk Hmax) as H512. destruct Hblk as [Hpg (d & Hd & Hds & Hde & Hdw)].
  destruct Hmax as [Hr Ho]. unfold PAGES_PER_UVM_VA_BLOCK in *.
  assert ((PAGE_SIZE | 2 ^ k)) as Hpk.
  { exists (2 ^ (k - 12)). change PAGE_SIZE with (2 ^ 12). rewrite <- Z.pow_add_r by lia. f_equal. lia. }
  assert (PAGE_SIZE <= 2 ^ k <= 2 ^ 21) as Hkb by (change PAGE_SIZE with (2 ^ 12); split; apply Z.pow_le_mono_r; lia).
  set (a := block_start blk + first max * PAGE_SIZE) in *. set (b := UVM_ALIGN_UP a (2 ^ k)) in *.
  assert ((PAGE_SIZE | a)) as Hpa by (apply Z.divide_add_r; [done|apply Z.divide_factor_r]).
  assert ((PAGE_SIZE | b - a)) as [q Hq] by (apply Z.divide_sub_r; [by apply (Z.divide_trans _ (2 ^ k))|done]).
  set (x := block_start blk + outer max * PAGE_SIZE). assert (u64 (x - 1 + 1) = x) as Hx.
  { replace (x - 1 + 1) with x by lia. apply wrap_id. unfold in_width, x, PAGE_SIZE in *. lia. }
  assert (UVM_ALIGN_DOWN x (2 ^ k) = x - x mod 2 ^ k) as Hdown by (apply align_down_spec; unfold x, PAGE_SIZE in *; lia).
  pose proof (Z.mod_pos_bound x (2 ^ k) ltac:(lia)) as Hxm.
  unfold r, uvm_va_block_big_page_region_subset, range_big_page_region_all, uvm_va_block_region_start, uvm_va_block_region_end.
  fold a. fold x. rewrite (wrap_id 64 a), (wrap_id 64 (x - 1)) by (unfold in_width, a, x, PAGE_SIZE in *; lia). fold b. rewrite Hx, Hdown.
  destruct (Z.leb_spec (x - x mod 2 ^ k) b) as [Hno|Hbig]; [by left|]. right.
  assert ((PAGE_SIZE | x - x mod 2 ^ k - a)) as [o Hoq].
  { apply Z.divide_sub_r; [|done]. apply (Z.divide_trans _ (2 ^ k)); [done|]. exists (x / 2 ^ k). pose proof (Z.div_mod x (2 ^ k)). lia. }
  destruct Hpk as [m Hm]. assert (n = m) as -> by (unfold n; rewrite Hm; apply Z.div_mul; unfold PAGE_SIZE; lia).
  clear Hx Hdown. set (xm := x mod 2 ^ k) in *. clearbody xm.
  rewrite Hq, Hoq. unfold a, x in *. unfold PAGE_SIZE in *.
  assert (0 <= q < o) as Hqo by lia. assert (o <= outer max - first max) as Hom by lia.
  rewrite (wrap_id 64 (q * 4096)), (wrap_id 64 (o * 4096)), !Z.div_mul by (unfold in_width; lia).
  unfold uvm_va_block_region. rewrite (wrap_id 16 q), (wrap_id 16 o) by (unfold in_width; lia). cbn [first outer].
  destruct (Z.eqb_spec o 0); [lia|]. cbn [first outer]. rewrite !wrap_id by (unfold in_width; lia).
  exists q. split; [lia|]. split; [lia|]. split; [lia|]. split; [lia|]. intros Hq0.
  assert (b <> block_start blk + first max * 4096) as Hne by lia. specialize (Hlast Hne). lia.
Qed.

(** The two assertions of [update_bitmap_tree_from_va_block] hold when it aligns
    the tree to the big pages. *)
Lemma align_ok blk max k t : block_ok blk -> region_in blk max -> 12 <= k <= 21 -> tree_ok t max -> offset t = 0 -> 
  let t' := align_tree (2 ^ k) (uvm_va_block_big_page_region_subset blk max (2 ^ k)) max t in
  tree_ok t' max /\ offset t' < 2 ^ k / PAGE_SIZE.
Proof.
  intros Hblk Hmax Hk Ht H0 t'. assert (1 <= 2 ^ k / PAGE_SIZE) as Hn1.
  { change PAGE_SIZE with (2 ^ 12). apply Z.div_le_lower_bound; [lia|]. rewrite Z.mul_1_r. apply Z.pow_le_mono_r; lia. }
  pose proof (tree_max _ _ Ht) as Hm. pose proof (tree_outer _ _ Ht) as Ho. unfold PAGES_PER_UVM_VA_BLOCK in Ho.
  unfold t', align_tree. destruct (big_subset_spec blk max k Hblk Hmax Hk) as [->|(q & Hq & Hn & -> & _ & Hfit)].
  { cbn [first]. destruct (Z.ltb_spec 0 (0 - first max)); [lia|]. split; [done|lia]. }
  replace (first max + q - first max) with q by lia. unfold PAGES_PER_UVM_VA_BLOCK in Hfit.
  destruct (Z.ltb_spec 0 q) as [Hpos|_]; [|split; [done|lia]]. specialize (Hfit Hpos).
  unfold uvm_va_block_region_num_pages. rewrite (wrap_id 64) by (unfold in_width; lia). rewrite !(wrap_id 16) by (unfold in_width; lia).
  cbn [offset]. split; [|lia]. split; cbn [pages offset leaf_count level_count]; try (unfold PAGES_PER_UVM_VA_BLOCK; lia).
  - apply tree_levels_spec. lia.
  - intros p [Hp _]%elem_of_shift_left. apply (tree_pages _ _ Ht) in Hp. lia.
Qed.

Lemma update_tree_ok blk max k resident faulted thrashing : block_ok blk -> region_in blk max -> 12 <= k <= 21 ->
  let t := update_bitmap_tree_from_va_block blk (2 ^ k) thrashing faulted max (init_bitmap_tree_from_region max resident faulted) in
  tree_ok t max /\ offset t < 2 ^ k / PAGE_SIZE.
Proof.
  intros Hblk Hmax Hk t. assert (tree_ok (init_bitmap_tree_from_region max resident faulted) max) as H0
    by (apply init_tree_ok; [apply Hmax|by apply (region_in_pages blk)]).
  destruct (align_ok blk max k _ Hblk Hmax Hk H0 eq_refl) as [H1 Hoff].
  split; [by apply grow_ok|]. unfold t, update_bitmap_tree_from_va_block. by rewrite grow_offset.
Qed.

(** ** Correctness *)

Lemma pages_sorted m r : StronglySorted Z.le (pages_in_region_mask m r).
Proof.
  unfold pages_in_region_mask, region_pages. remember (outer r - first r) as n eqn:Hn. clear Hn. generalize (first r). intros i.
  destruct (Z.le_gt_cases 0 n) as [Hpos|Hneg]; [|rewrite seqZ_nil by lia; constructor].
  revert i. pattern n. apply natlike_ind; [intros i; constructor| |done]. clear n Hpos. intros n Hn IH i.
  rewrite seqZ_cons by lia. replace (Z.pred (Z.succ n)) with n by lia. rewrite filter_cons. case_decide; [|by apply IH].
  constructor; [by apply IH|]. apply Forall_forall. intros x [_ Hx%elem_of_seqZ]%list_elem_of_filter. lia.
Qed.

(** C36: Stopping at the first region that reaches the end of the block loses
    nothing: the mask is the union of the regions of all the faulted pages. *)
Theorem prefetch_mask_all threshold fr max t faulted q : tree_ok t max -> 0 <= threshold <= 100 ->
  first max <= first fr -> outer fr <= outer max ->
  q ∈ compute_prefetch_mask threshold fr max t faulted <->
  exists p, p ∈ faulted /\ first fr <= p < outer fr /\ q ∈ region_set (compute_prefetch_region threshold p t max).
Proof.
  intros Ht Hthr Hf Ho. unfold compute_prefetch_mask.
  rewrite (prefetch_loop_spec t max Ht threshold Hthr); [|intros p [_ Hp]%elem_of_pages; lia|apply pages_sorted].
  split.
  - intros [?%elem_of_empty|(p & [Hp Hr]%elem_of_pages & Hq)]; [done|]. exists p. by rewrite elem_of_region_set.
  - intros (p & Hp & Hr & Hq%elem_of_region_set). right. exists p. by rewrite elem_of_pages.
Qed.

(** C37: The region of a faulted page is the part of the block under the widest
    dense subtree over the page, or nothing when none is dense.  It holds while the
    start of the region is clamped correctly: the tree is not shifted by more than
    the start of the prefetch region. *)
Theorem region_widest_dense threshold p t max : tree_ok t max -> 0 <= threshold <= 100 -> first max <= p < outer max -> offset t <= first max ->
  (exists l, 0 <= l < level_count t /\ dense t threshold (node_region t (leaf t max p) l) /\
     (forall l', 0 <= l' < l -> ~ dense t threshold (node_region t (leaf t max p) l')) /\
     forall q, q ∈ region_set (compute_prefetch_region threshold p t max) <->
       first max <= q < outer max /\ leaf t max q ∈ region_set (node_region t (leaf t max p) l)) \/
  ((forall l, 0 <= l < level_count t -> ~ dense t threshold (node_region t (leaf t max p) l)) /\
   region_set (compute_prefetch_region threshold p t max) = ∅).
Proof.
  intros Ht Hthr Hp Hoff. pose proof (leaf_bound t max Ht p Hp) as Hx. pose proof (tree_offset _ _ Ht) as H0.
  pose proof (tree_leaves _ _ Ht) as Hl.
  destruct (compute_region_spec t max Ht threshold Hthr p Hp) as [(l & Hlev & Hd & Hmin & ->)|[Hnone ->]]; [left|by right].
  exists l. split; [done|]. split; [done|]. split; [done|]. intros q. rewrite !elem_of_region_set.
  destruct (node_region_bound t max Ht (leaf t max p) l ltac:(lia) Hlev) as [Hf Ho].
  set (n := node_region t (leaf t max p) l) in *. cbn [first outer].
  rewrite (clamp_first_spec t max Ht (first n) (leaf t max p)) by lia.
  destruct (Z.ltb_spec (first n + first max) (offset t)); [lia|]. unfold leaf in *. lia.
Qed.

(** C38: For a block within 2MB and any big page size the tree that is built is
    well-formed: the assertions on its shift and its leaf count hold, and every page
    of the region has a leaf below the root. *)
Theorem update_tree_bounds blk max k resident faulted thrashing : block_ok blk -> region_in blk max -> 12 <= k <= 21 ->
  let t := update_bitmap_tree_from_va_block blk (2 ^ k) thrashing faulted max (init_bitmap_tree_from_region max resident faulted) in
  tree_ok t max /\ offset t < 2 ^ k / PAGE_SIZE /\ leaf_count t <= PAGES_PER_UVM_VA_BLOCK /\ leaf_count t <= 2 ^ (level_count t - 1) /\
  forall p, first max <= p < outer max -> 0 <= leaf t max p < leaf_count t.
Proof.
  intros Hblk Hmax Hk t. destruct (update_tree_ok blk max k resident faulted thrashing Hblk Hmax Hk) as [Ht Hoff]. fold t in Ht, Hoff.
  split; [done|]. split; [done|]. split; [apply Ht|]. split; [apply (tree_levels_ok _ _ Ht)|].
  intros p Hp. pose proof (leaf_bound t max Ht p Hp). pose proof (tree_offset _ _ Ht). lia.
Qed.

(** ** Hints *)

Lemma compute_mask_within threshold fr max t faulted q : tree_ok t max -> 0 <= threshold <= 100 ->
  first max <= first fr -> outer fr <= outer max -> q ∈ compute_prefetch_mask threshold fr max t faulted -> first max <= q < outer max.
Proof.
  intros Ht Hthr Hf Ho. unfold compute_prefetch_mask.
  rewrite (prefetch_loop_spec t max Ht threshold Hthr); [|intros p [_ Hp]%elem_of_pages; lia|apply pages_sorted].
  intros [?%elem_of_empty|(p & [Hp Hr]%elem_of_pages & Hq)]; [done|].
  apply (compute_region_within t max Ht threshold Hthr p q); [lia|done].
Qed.

(** Where faults may lie: within the block and, under HMM, within the [vma] and one
    policy, so that the prefetch region contains them. *)
Record faults_ok (b : prefetch_block_t) (fr : uvm_va_block_region_t) : Prop := {
  faults_block : block_ok (pb_block b);
  faults_end : (PAGE_SIZE | block_end (pb_block b) + 1);
  faults_region : region_in (pb_block b) (max_prefetch_region_of b fr);
  faults_first : first (max_prefetch_region_of b fr) <= first fr;
  faults_outer : outer fr <= outer (max_prefetch_region_of b fr);
}.

Lemma weight_pos m : 0 < uvm_page_mask_weight m -> m <> ∅.
Proof. unfold uvm_page_mask_weight, bitmap_weight. intros Hp ->. by vm_compute in Hp. Qed.

(** The prefetch region does not depend on the migration counters. *)
Lemma max_region_same b n c fr : max_prefetch_region_of (b <| last_migration_proc_id := n |> <| fault_migrations_to_last_proc := c |>) fr = max_prefetch_region_of b fr.
Proof. done. Qed.

(** What the hint may contain. *)
Definition may_prefetch (b : prefetch_block_t) (residency : Z) (faulted : uvm_page_mask_t) (fr : uvm_va_block_region_t) (q : Z) : Prop :=
  first (max_prefetch_region_of b fr) <= q < outer (max_prefetch_region_of b fr) /\ (q ∉ faulted) /\
  (forall th, pb_thrashing b = Some th -> q ∉ th) /\
  (residency = UVM_ID_CPU -> block_is_hmm (pb_block b) = false -> q ∈ pb_resident_mask b !!! UVM_ID_CPU -> q ∉ pb_cpu_read b).

Lemma prenotify_spec g va b residency faulted fr k : faults_ok b fr -> 0 <= g_uvm_perf_prefetch_threshold g <= 100 ->
  12 <= k <= 21 -> residency_big_page_size va residency = 2 ^ k ->
  match uvm_perf_prefetch_prenotify_fault_migrations g va b residency faulted fr with
  | (b', m, w) => last_migration_proc_id b' = residency /\ pb_block b' = pb_block b /\ w = uvm_page_mask_weight m /\
      forall q, q ∈ m -> may_prefetch b residency faulted fr q
  end.
Proof.
  intros Hf Hthr Hk Hbig. unfold uvm_perf_prefetch_prenotify_fault_migrations. rewrite Hbig.
  set (b1 := if last_migration_proc_id b =? residency then b else _).
  assert (last_migration_proc_id b1 = residency) as Hlast by (unfold b1; by destruct (Z.eqb_spec (last_migration_proc_id b) residency)).
  assert (pb_block b1 = pb_block b /\ max_prefetch_region_of b1 fr = max_prefetch_region_of b fr /\ pb_resident b1 = pb_resident b /\
    pb_cpu_read b1 = pb_cpu_read b /\ resident_mask_of b1 residency = resident_mask_of b residency) as (-> & -> & -> & -> & ->)
    by (unfold b1; by destruct (_ =? _)).
  set (max := max_prefetch_region_of b fr) in *.
  split; [done|]. split; [unfold b1; by destruct (_ =? _)|]. split; [done|]. intros q Hq.
  set (m0 := if _ && _ then uvm_page_mask_region_fill ∅ max else _) in Hq.
  assert (forall x, x ∈ m0 -> first max <= x < outer max) as Hm0.
  { intros x. unfold m0. destruct (_ && _).
    - rewrite elem_of_region_fill. intros [?%elem_of_empty|]; done.
    - destruct (update_tree_ok (pb_block b) max k (resident_mask_of b residency) faulted (pb_thrashing b) (faults_block _ _ Hf)
        (faults_region _ _ Hf) Hk) as [Ht _].
      by apply (compute_mask_within _ _ _ _ _ _ Ht Hthr (faults_first _ _ Hf) (faults_outer _ _ Hf)). }
  clearbody m0. set (m1 := if _ && _ then _ else _) in Hq.
  assert (q ∈ m1 /\ forall th, pb_thrashing b = Some th -> q ∉ th) as [Hm1 Hth].
  { unfold mask_andnot in Hq. destruct (pb_thrashing b) as [th|]; [|done]. apply elem_of_difference in Hq as [Hq Hn].
    split; [done|]. by intros th' [= <-]. }
  assert (q ∈ m0 ∖ faulted) as Hqf by (unfold m1 in Hm1; destruct (_ && _); [by apply elem_of_difference in Hm1 as [Hm1 _]|done]).
  apply elem_of_difference in Hqf as [Hq0 Hqf]. split; [by apply Hm0|]. split; [done|]. split; [done|].
  intros -> Hhmm Hres Hread. unfold m1 in Hm1. rewrite Hhmm in Hm1. simpl in Hm1. apply elem_of_difference in Hm1 as [_ Hno].
  apply Hno. by apply elem_of_intersection.
Qed.

Lemma range_group_fold va blk faulted l : forall m changed,
  let r := foldl (range_group_step va blk faulted) (m, changed) l in
  r.1 ⊆ m /\ (r.2 = false -> r.1 = m) /\
  forall rgr q, rgr ∈ l -> q ∈ r.1 -> q ∈ region_set (range_group_region va blk rgr) ->
    exists p, p ∈ faulted /\ p ∈ region_set (range_group_region va blk rgr).
Proof.
  induction l as [|x l IH]; intros m changed r.
  { split; [done|]. split; [done|]. by intros rgr q ?%elem_of_nil. }
  unfold r. set (reg := range_group_region va blk x). cbn [foldl].
  assert (range_group_step va blk faulted (m, changed) x =
    if uvm_page_mask_region_empty faulted reg && negb (uvm_page_mask_region_empty m reg)
    then (uvm_page_mask_region_clear m reg, true) else (m, changed)) as -> by done.
  destruct (uvm_page_mask_region_empty faulted reg) eqn:Hfe; simpl;
    [destruct (uvm_page_mask_region_empty m reg) eqn:Hme; simpl|].
  - destruct (IH m changed) as (Hsub & Hsame & Hin). split; [exact Hsub|]. split; [exact Hsame|].
    intros rgr q [->|Hr]%elem_of_cons Hq Hreg; [|by apply (Hin rgr q)].
    fold reg in Hreg. apply elem_of_region_set in Hreg. destruct (proj1 (region_empty_spec m reg) Hme q); [by apply Hsub|done].
  - destruct (IH (uvm_page_mask_region_clear m reg) true) as (Hsub & Hsame & Hin). split; [|split].
    + etransitivity; [exact Hsub|]. intros q [Hq _]%elem_of_region_clear. done.
    + intros Hc. exfalso. clear -Hc. revert Hc. generalize (uvm_page_mask_region_clear m reg).
      induction l as [|y l IH]; intros m'; [done|]. cbn [foldl]. simpl. destruct (_ && _); apply IH.
    + intros rgr q [->|Hr]%elem_of_cons Hq Hreg; [|by apply (Hin rgr q)].
      fold reg in Hreg. apply elem_of_region_set in Hreg. apply Hsub, elem_of_region_clear in Hq as [_ Hno]. done.
  - destruct (IH m changed) as (Hsub & Hsame & Hin). split; [exact Hsub|]. split; [exact Hsame|].
    intros rgr q [->|Hr]%elem_of_cons Hq Hreg; [|by apply (Hin rgr q)].
    by apply region_nonempty.
Qed.

(** C35: The hint is sound.  Its pages lie in the prefetch region, are not faulted,
    not thrashing and, when the CPU is the target of a managed block, not already
    mapped there.  A residency is given only together with at least one page; it is
    the processor that the faults migrate to, and then every range group range that
    has a page in the hint has a faulted page as well. *)
Theorem hint_sound g va b residency faulted fr k : faults_ok b fr -> 0 <= g_uvm_perf_prefetch_threshold g <= 100 ->
  12 <= k <= 21 -> residency_big_page_size va residency = 2 ^ k -> rt_ok (range_group_ranges va) ->
  let hint := (uvm_perf_prefetch_get_hint_va_block g va b residency faulted fr).2 in
  (forall q, q ∈ prefetch_pages_mask hint -> may_prefetch b residency faulted fr q) /\
  (hint_residency hint <> UVM_ID_INVALID ->
     hint_residency hint = residency /\ prefetch_pages_mask hint <> ∅ /\
     forall rgr q, rgr ∈ rt_head (range_group_ranges va) ->
       start_of (range_group_ranges va) rgr <= block_end (pb_block b) -> block_start (pb_block b) <= end_of (range_group_ranges va) rgr ->
       q ∈ prefetch_pages_mask hint -> q ∈ region_set (range_group_region va (pb_block b) rgr) ->
       exists p, p ∈ faulted /\ p ∈ region_set (range_group_region va (pb_block b) rgr)).
Proof.
  intros Hf Hthr Hk Hbig Hrt hint. unfold hint, uvm_perf_prefetch_get_hint_va_block. clear hint.
  destruct (uvm_perf_prefetch_enabled g va); cbn [negb]; [|split; [by intros q ?%elem_of_empty|done]].
  pose proof (prenotify_spec g va b residency faulted fr k Hf Hthr Hk Hbig) as Hp.
  destruct (uvm_perf_prefetch_prenotify_fault_migrations g va b residency faulted fr) as [[b' m] w].
  destruct Hp as (Hlast & Hblk & Hw & Hm). destruct (_ && _); [|split; [done|by cbn]]. rewrite Hblk.
  destruct (block_base _ (faults_block _ _ Hf)) as (d & _ & Hds & Hde & _).
  pose proof (range_group_fold va (pb_block b) faulted
    (uvm_range_tree_for_each_in (range_group_ranges va) (block_start (pb_block b)) (block_end (pb_block b))) m false) as Hfold.
  rewrite (for_each_in_spec _ Hrt) in Hfold |- * by lia. destruct (foldl _ _ _) as [m' changed]. cbn [fst snd] in Hfold.
  destruct Hfold as (Hsub & Hsame & Hin). cbn [snd prefetch_pages_mask hint_residency].
  split; [intros q Hq; by apply Hm, Hsub|]. intros Hres. set (pending := if changed then _ else w) in Hres |- *.
  assert (pending = uvm_page_mask_weight m') as Hpend by (unfold pending; destruct changed; [done|by rewrite Hsame]).
  destruct (Z.ltb_spec 0 pending) as [Hpos|]; [|done]. split; [done|]. split; [apply weight_pos; lia|].
  intros rgr q Hr H1 H2 Hq Hreg. apply (Hin rgr q); [|done|done]. apply list_elem_of_filter. done.
Qed.

(** Faults on a managed block. *)
Lemma faults_ok_managed b fr : block_ok (pb_block b) -> (PAGE_SIZE | block_end (pb_block b) + 1) -> block_is_hmm (pb_block b) = false ->
  0 <= first fr -> outer fr <= uvm_va_block_num_cpu_pages (pb_block b) -> faults_ok b fr.
Proof.
  intros Hblk Hend Hhmm Hf Ho. destruct (block_base _ Hblk) as (d & _ & Hds & Hde & Hdw). pose proof (block_page _ Hblk) as Hpg.
  assert (max_prefetch_region_of b fr = mk_region 0 (uvm_va_block_num_cpu_pages (pb_block b)) /\
    uvm_va_block_num_cpu_pages (pb_block b) * PAGE_SIZE = block_end (pb_block b) + 1 - block_start (pb_block b) /\
    0 < uvm_va_block_num_cpu_pages (pb_block b)) as (Hmax & Hsize & Hpos).
  { unfold max_prefetch_region_of. rewrite Hhmm. unfold uvm_va_block_region_from_block, uvm_va_block_region, uvm_va_block_num_cpu_pages, uvm_va_block_size.
    destruct Hpg as [s Hs]. destruct Hend as [e He]. unfold PAGE_SIZE in *.
    rewrite (wrap_id 64) by (unfold in_width; lia).
    replace (block_end (pb_block b) - block_start (pb_block b) + 1) with ((e - s) * 4096) by lia. rewrite Z.div_mul by lia.
    rewrite !wrap_id by (unfold in_width; lia). split; [done|lia]. }
  split; try done; rewrite Hmax; cbn [first outer]; [|lia|lia]. split; cbn [first outer]; lia.
Qed.

(** The prefetch region of an HMM block is within the block and contains the
    faulted address, when the [vma] does and the policy covers it. *)
Lemma hmm_region_in b fr : block_ok (pb_block b) -> (PAGE_SIZE | block_end (pb_block b) + 1) -> block_is_hmm (pb_block b) = true ->
  rt_ok (pb_policy_tree b) -> let a := uvm_va_block_region_start (pb_block b) fr in
  (pb_vma b).1 <= a <= (pb_vma b).2 - 1 -> 0 < (pb_vma b).2 < 2 ^ 64 -> block_start (pb_block b) <= a <= block_end (pb_block b) ->
  region_in (pb_block b) (max_prefetch_region_of b fr) /\
  first (max_prefetch_region_of b fr) <= uvm_va_block_cpu_page_index (pb_block b) a < outer (max_prefetch_region_of b fr).
Proof.
  intros Hblk Hend Hhmm Hrt a Hv Hv2 Ha. destruct (block_base _ Hblk) as (d & _ & Hds & Hde & Hdw).
  unfold max_prefetch_region_of. rewrite Hhmm. fold a. unfold uvm_hmm_get_prefetch_region, uvm_va_policy_get_region. rewrite Hhmm. fold a.
  rewrite (wrap_id 64 ((pb_vma b).2 - 1)) by (unfold in_width; lia). set (blk := pb_block b) in *.
  (* in both cases the bounds enclose the address *)
  assert (forall x y, block_start blk <= x <= a -> a <= y <= block_end blk ->
    region_in blk (uvm_va_block_region_from_start_end blk x y) /\
    first (uvm_va_block_region_from_start_end blk x y) <= uvm_va_block_cpu_page_index blk a < outer (uvm_va_block_region_from_start_end blk x y)) as Hfin.
  { intros x y Hx Hy. unfold region_in, uvm_va_block_region_from_start_end, uvm_va_block_cpu_page_index. cbn [first outer].
    destruct Hend as [e He]. destruct (block_page _ Hblk) as [s Hs]. fold blk in He, Hs. unfold PAGE_SIZE in *.
    rewrite !(wrap_id 64) by (unfold in_width; lia).
    assert ((x - block_start blk) / 4096 <= (a - block_start blk) / 4096 <= (y - block_start blk) / 4096)
      by (split; apply Z.div_le_mono; lia).
    assert ((y - block_start blk) / 4096 <= e - s - 1) by (apply Z.lt_succ_r, Z.div_lt_upper_bound; lia).
    assert (0 <= (x - block_start blk) / 4096) by (apply Z.div_pos; lia).
    rewrite !wrap_id by (unfold in_width; lia). lia. }
  destruct (uvm_range_tree_find (pb_policy_tree b) a) as [n|] eqn:Hn; cbn [policy_node].
  - apply (find_iff _ Hrt) in Hn as [_ Hc]. unfold covers in Hc. apply Hfin; lia.
  - cbn [policy_node uvm_va_policy_default]. pose proof (find_hole_spec (pb_policy_tree b) a Hrt ltac:(unfold ULLONG_MAX; lia)) as Hh.
    unfold uvm_range_tree_find_hole_in. destruct (uvm_range_tree_find_hole (pb_policy_tree b) a) as [st [hs he]].
    destruct Hh as (Hst & _ & Hok). apply Hst in Hn as ->. destruct (Hok eq_refl) as (H1 & H2 & _). cbn. apply Hfin; lia.
Qed.

(** The threshold that the parameters give. *)
Lemma prefetch_init_threshold enable threshold min_faults g : 0 <= threshold -> 0 <= g_uvm_perf_prefetch_threshold g <= 100 ->
  0 <= g_uvm_perf_prefetch_threshold (uvm_perf_prefetch_init enable threshold min_faults g).2 <= 100.
Proof.
  intros Ht Hg. unfold uvm_perf_prefetch_init, upd. destruct (enable =? 0); cbn; [done|].
  destruct (Z.leb_spec threshold 100); cbn; [done|]. unfold UVM_PREFETCH_THRESHOLD_DEFAULT. lia.
Qed.

(** ** Runs *)

Definition sample_max : uvm_va_block_region_t := mk_region 0 16.
Definition sample_faults : uvm_page_mask_t := list_to_set (seqZ 0 9).
Definition sample_bitmap_tree : uvm_perf_prefetch_bitmap_tree_t := init_bitmap_tree_from_region sample_max None sample_faults.

Lemma sample_bitmap_tree_ok : tree_ok sample_bitmap_tree sample_max.
Proof. apply init_tree_ok; [simpl; lia|done]. Qed.

Lemma prefetch_mask_all_witness : 12 ∈ compute_prefetch_mask 51 sample_max sample_max sample_bitmap_tree sample_faults.
Proof.
  apply (prefetch_mask_all 51 sample_max sample_max sample_bitmap_tree sample_faults 12 sample_bitmap_tree_ok); [lia|simpl; lia|simpl; lia|].
  exists 3. split; [by apply (bool_decide_unpack _); vm_compute|]. split; [simpl; lia|]. by apply (bool_decide_unpack _); vm_compute.
Defined.

Lemma region_widest_dense_witness :
  exists l, 0 <= l < level_count sample_bitmap_tree /\ dense sample_bitmap_tree 51 (node_region sample_bitmap_tree (leaf sample_bitmap_tree sample_max 3) l).
Proof.
  destruct (region_widest_dense 51 3 sample_bitmap_tree sample_max sample_bitmap_tree_ok) as [(l & Hl & Hd & _)|[_ Hn]];
    [lia|simpl; lia|done|by exists l|by vm_compute in Hn].
Defined.

(** A managed block that starts five pages into a 64K page. *)
Definition unaligned_block : uvm_va_block_t := mk_va_block (5 * 4096) (2 ^ 21 - 1) 1 false.

Lemma unaligned_block_ok : block_ok unaligned_block.
Proof.
  split; [by exists 5|]. exists 0. split; [apply Z.divide_0_r|]. simpl. lia.
Qed.

Definition unaligned_state : prefetch_block_t :=
  mk_prefetch_block unaligned_block (mk_range_tree rb_null [] ∅) ∅ uvm_va_policy_default (0, 0) {[ UVM_ID_CPU ]} ∅ ∅ ∅ None UVM_ID_INVALID 0.

Definition sample_space : prefetch_space_t := mk_prefetch_space true {[ 1 ]} (fun _ => 65536) sample_tree.
Definition default_tunables : prefetch_tunables := (uvm_perf_prefetch_init 1 51 1 (mk_tunables false 0 0)).2.

Lemma unaligned_region_in : region_in unaligned_block (mk_region 0 507).
Proof. split; simpl; unfold PAGE_SIZE; lia. Qed.

Lemma update_tree_bounds_witness :
  leaf_count (update_bitmap_tree_from_va_block unaligned_block (2 ^ 16) None {[ 0 ]} (mk_region 0 507)
    (init_bitmap_tree_from_region (mk_region 0 507) None {[ 0 ]})) <= PAGES_PER_UVM_VA_BLOCK.
Proof.
  destruct (update_tree_bounds unaligned_block (mk_region 0 507) 16 None {[ 0 ]} None unaligned_block_ok unaligned_region_in ltac:(lia))
    as (_ & _ & Hl & _). exact Hl.
Defined.

Lemma hint_sound_witness : may_prefetch unaligned_state 1 {[ 0 ]} (mk_region 0 1) 5.
Proof.
  destruct (hint_sound default_tunables sample_space unaligned_state 1 {[ 0 ]} (mk_region 0 1) 16) as [Hm _];
    [..|apply Hm; by apply (bool_decide_unpack _); vm_compute].
  - apply faults_ok_managed; [apply unaligned_block_ok|by exists 512|done|simpl; lia|by vm_compute].
  - change (0 <= 51 <= 100). lia.
  - lia.
  - exact eq_refl.
  - apply sample_tree_ok.
Defined.

(** The pages before the first big page are clamped away: of the eleven pages of
    the dense subtree over page 0 the hint has only the last six. *)
Lemma unaligned_prefix_lost :
  compute_prefetch_region 51 0
    (update_bitmap_tree_from_va_block unaligned_block (2 ^ 16) None {[ 0 ]} (mk_region 0 507)
      (init_bitmap_tree_from_region (mk_region 0 507) None {[ 0 ]})) (mk_region 0 507) = mk_region 5 11 /\
  prefetch_pages_mask (uvm_perf_prefetch_get_hint_va_block default_tunables sample_space unaligned_state 1 {[ 0 ]} (mk_region 0 1)).2 = list_to_set (seqZ 5 6).
Proof. split; [by vm_compute|]. by apply (bool_decide_unpack _); vm_compute. Qed.
