(* ===== verification/Merge.v ===== *)
(** * Shared pushes of a batch

    The coordinator side of [uvm_kthread_dispatch_and_wait] with the pushes that
    the blocks of a segment share ([uvm_gpu_replayable_faults_parallel.c]): every
    merge mode with its push pairs, the overlap of the next segment's pushes with
    the workers, the continuous workers, and the fallbacks when a push cannot be
    begun.  What the workers do in a dispatch, and whether a push can be begun, are
    parameters.  [Parallel.v] has the workers and the collection of their results;
    its plan of a batch is the specification here. *)

From stdpp Require Import gmap.
From S2P Require Import Prelude FaultTypes Service Schedule Parallel.

Local Open Scope Z_scope.

(** ** Pushes *)

Inductive push_kind : Type := CopyPush | MapPush.

#[export] Instance push_kind_eq_dec : EqDecision push_kind.
Proof. solve_decision. Defined.

#[export] Instance push_kind_countable : Countable push_kind.
Proof.
  refine (inj_countable' (fun k => match k with CopyPush => true | MapPush => false end)
    (fun b : bool => if b then CopyPush else MapPush) _). by intros [].
Defined.

(** [open_pushes] are the elements of [merge_state.copy_push] and
    [merge_state.map_push] between [uvm_push_begin] and [uvm_push_end];
    [bad_push] says that one was begun while it was open or ended while it was
    not. *)
Record pushes_t : Type := mk_pushes {
  open_pushes : gset (push_kind * nat);
  bad_push : bool;
  num_begins : nat;
}.

(** The fields of the pool that the coordinator writes; [batch_groups] is the
    offset of the pointer in the groups of the batch, and [dispatched] has, for
    each dispatch, [queue_base] and how the workers go through the blocks. *)
Record coord_t : Type := mk_coord {
  pushes : pushes_t;
  dispatched : list (nat * sub_dispatch);
  batch_groups : nat;
  queue_base : nat;
  batch_ready : bool;
  dynamic_active : bool;
  seg_parallel_active : bool;
  merge_dispatch_active : bool;
  merge_state_state : Z;
  merge_state_active : nat;
  dynamic_copy_pushed_end : gset nat;
  seg_copy_pushed_end : gset nat;
  continuous_active : bool;
  continuous_batch_gen : Z;
  seg_generation : Z;
  seg_finished : bool;
}.

#[export] Instance coord_eta : Eta coord_t := fun s =>
  mk_coord (pushes s) (dispatched s) (batch_groups s) (queue_base s) (batch_ready s) (dynamic_active s)
    (seg_parallel_active s) (merge_dispatch_active s) (merge_state_state s) (merge_state_active s)
    (dynamic_copy_pushed_end s) (seg_copy_pushed_end s)
    (continuous_active s) (continuous_batch_gen s) (seg_generation s) (seg_finished s).

Record merge_opts : Type := mk_merge_opts {
  uvm_merge_pipeline_overlap : bool;
  uvm_merge_continuous_workers : bool;
  uvm_merge_copy_map_split : bool;
}.

(** The locals of the segment loop. *)
Record seg_locals : Type := mk_seg_locals {
  cur_slot : nat;
  cur_push_open : bool;
  continuous : bool;
  is_first_seg : bool;
}.

#[export] Instance seg_locals_eta : Eta seg_locals := fun l =>
  mk_seg_locals (cur_slot l) (cur_push_open l) (continuous l) (is_first_seg l).

Section Coordinator.
  Variable W : pool_params.
  Variable Opts : merge_opts.
  (** The status of the n-th [uvm_push_begin]; what the n-th dispatch ends with,
      [None] when the workers are not done in time; the segments whose copy push
      the workers of the n-th dispatch have ended when the coordinator has waited,
      and those whose copy push they end later, which they can only do when the wait
      has timed out. *)
  Variable op_push_begin : nat -> NV_STATUS.
  Variable op_dispatch : nat -> option NV_STATUS.
  Variable op_workers_end : nat -> nat -> bool.
  Variable op_workers_late : nat -> nat -> bool.

  Abbreviation P := (ST pushes_t).
  Abbreviation C := (ST coord_t).

Definition uvm_push_begin (k : push_kind) (i : nat) : P NV_STATUS := fun p =>
  let st := op_push_begin (num_begins p) in
  (st, if is_ok st
       then mk_pushes ({[ (k, i) ]} ∪ open_pushes p) (bad_push p || bool_decide ((k, i) ∈ open_pushes p)) (S (num_begins p))
       else mk_pushes (open_pushes p) (bad_push p) (S (num_begins p))).

Definition uvm_push_end (k : push_kind) (i : nat) : P unit := fun p =>
  (tt, mk_pushes (open_pushes p ∖ {[ (k, i) ]}) (bad_push p || negb (bool_decide ((k, i) ∈ open_pushes p))) (num_begins p)).

(** The pairs of the segments from [i] on; returns the status, the index reached
    and whether the copy push of that index is open. *)
Fixpoint open_pairs (n i : nat) : P (NV_STATUS * nat * bool) :=
  match n with
  | O => mret (NV_OK, i, false)
  | S n =>
      ps ← uvm_push_begin CopyPush i;
      if is_ok ps then
        ps ← uvm_push_begin MapPush i;
        if is_ok ps then open_pairs n (S i) else mret (ps, i, true)
      else mret (ps, i, false)
  end.

Fixpoint end_pairs (n i : nat) : P unit :=
  match n with
  | O => mret tt
  | S n => uvm_push_end CopyPush i ;; uvm_push_end MapPush i ;; end_pairs n (S i)
  end.

(** The cleanup when a push could not be begun. *)
Definition end_opened (sp_i : nat) (current_copy_open : bool) : P unit :=
  when current_copy_open (uvm_push_end CopyPush sp_i) ;; end_pairs sp_i 0.

(** Closing the pairs after the dispatch; a copy push in [pushed_end] was ended by
    a worker. *)
Fixpoint close_pairs (split : bool) (merged : nat -> bool) (pushed_end : gset nat) (n i : nat) : P unit :=
  match n with
  | O => mret tt
  | S n =>
      let copy_closed_by_worker := split && merged i && bool_decide (i ∈ pushed_end) in
      when (negb split || negb (merged i) || negb copy_closed_by_worker) (uvm_push_end CopyPush i) ;;
      uvm_push_end MapPush i ;;
      close_pairs split merged pushed_end n (S i)
  end.

(** The workers end the copy pushes of these segments. *)
Definition workers_end (segs : list nat) : P unit := for_each segs (uvm_push_end CopyPush).

(** The pair of a segment of the segmented merge. *)
Definition begin_slot (slot : nat) : P NV_STATUS :=
  ps ← uvm_push_begin CopyPush slot;
  if is_ok ps then
    ps ← uvm_push_begin MapPush slot;
    when (negb (is_ok ps)) (uvm_push_end CopyPush slot) ;;
    mret ps
  else mret ps.

Definition end_slot (slot : nat) : P unit := uvm_push_end CopyPush slot ;; uvm_push_end MapPush slot.

(** ** Dispatches *)

Definition on_pushes {A} (m : P A) : C A := fun s => let '(a, p) := m (pushes s) in (a, s <| pushes := p |>).

(** [use_merge] of a worker: whether it takes the shared pushes of a segment. *)
Definition use_merge (s : coord_t) : bool := merge_dispatch_active s && (merge_state_state s =? 2).

(** How the workers go through the blocks, from the flags they read. *)
Definition worker_mode (s : coord_t) : dispatch_mode :=
  if dynamic_active s && uvm_dynamic_dispatch W then DynamicCursor
  else if seg_parallel_active s && uvm_merge_group_seg_parallel W then GroupSegParallel
  else if seg_parallel_active s then SegmentParallel
  else Strided.

Definition log_dispatch (count : nat) : C unit :=
  modify (fun s => s <| dispatched := dispatched s ++ [(queue_base s, mk_sub (worker_mode s) (batch_groups s) count)] |>).

Definition dispatch_start_inner (count : nat) : C unit :=
  if (count =? 0)%nat then mret tt else log_dispatch count ;; modify (fun s => s <| batch_ready := true |>).

(** The status of the n-th dispatch. *)
Definition dispatch_status (n : nat) : NV_STATUS := default NV_ERR_TIMEOUT (op_dispatch n).

Definition dispatch_wait_inner (count : nat) : C NV_STATUS := fun s =>
  if (count =? 0)%nat then (NV_OK, s)
  else
    let n := Nat.pred (length (dispatched s)) in
    (dispatch_status n,
     if bool_decide (op_dispatch n = None) || negb (continuous_active s) then s <| batch_ready := false |> else s).

Definition coord_dispatch_and_wait (count : nat) : C NV_STATUS :=
  if (count =? 0)%nat then mret NV_OK else dispatch_start_inner count ;; dispatch_wait_inner count.

Definition dispatch_flags (active : bool) (st : Z) : C unit :=
  modify (fun s => s <| merge_dispatch_active := active |> <| merge_state_state := st |>).

(** The dynamic path; [merged] has the number of blocks of each segment that use
    its shared pushes.  The workers end copy pushes during the dispatch; those of a
    dispatch that timed out go on, and [late] are the copy pushes they end after the
    coordinator has closed the pairs. *)
Definition dispatch_dynamic (num_items num_segments : nat) (merged : list Z) : C NV_STATUS :=
  modify (fun s => s <| dynamic_active := false |>) ;;
  if (num_segments =? 0)%nat then mret NV_OK
  else
    r ← on_pushes (open_pairs num_segments 0);
    let '(ps, sp_i, current_copy_open) := r in
    if is_ok ps then
      let split := uvm_merge_copy_map_split Opts in
      let uses i := negb (default 0 (merged !! i) =? 0) in
      when split (modify (fun s => s <| dynamic_copy_pushed_end := dynamic_copy_pushed_end s ∖ set_seq 0 num_segments |>)) ;;
      modify (fun s => s <| batch_groups := 0%nat |> <| queue_base := 0%nat |> <| dynamic_active := true |>) ;;
      dispatch_flags true 2 ;;
      d ← gets (fun s => length (dispatched s));
      st ← coord_dispatch_and_wait num_items;
      let ended := if split then filter (fun i => uses i && op_workers_end d i) (seq 0 num_segments) else [] in
      on_pushes (workers_end ended) ;;
      modify (fun s => s <| dynamic_copy_pushed_end := dynamic_copy_pushed_end s ∪ list_to_set ended |>) ;;
      e ← gets dynamic_copy_pushed_end;
      on_pushes (close_pairs split uses e num_segments 0) ;;
      let late := if split && bool_decide (op_dispatch d = None)
                  then filter (fun i => uses i && negb (op_workers_end d i) && op_workers_late d i) (seq 0 num_segments) else [] in
      on_pushes (workers_end late) ;;
      modify (fun s => s <| dynamic_copy_pushed_end := dynamic_copy_pushed_end s ∪ list_to_set late |>) ;;
      modify (fun s => s <| dynamic_active := false |>) ;;
      dispatch_flags false 0 ;;
      mret st
    else
      on_pushes (end_opened sp_i current_copy_open) ;;
      modify (fun s => s <| dynamic_active := false |>) ;;
      coord_dispatch_and_wait num_items.

(** The group-segment and the segment-parallel path.  Their workers have no
    counter to end a copy push with. *)
Definition dispatch_seg_parallel (split : bool) (safe : nat -> bool) (num_items num_segments : nat) : C NV_STATUS :=
  modify (fun s => s <| seg_parallel_active := false |>) ;;
  if (num_segments =? 0)%nat then modify (fun s => s <| seg_parallel_active := false |>) ;; mret NV_OK
  else
    r ← on_pushes (open_pairs num_segments 0);
    let '(ps, sp_i, current_copy_open) := r in
    if is_ok ps then
      when split (modify (fun s => s <| seg_copy_pushed_end := seg_copy_pushed_end s ∖ set_seq 0 num_segments |>)) ;;
      modify (fun s => s <| batch_groups := 0%nat |> <| queue_base := 0%nat |> <| seg_parallel_active := true |>) ;;
      dispatch_flags true 2 ;;
      st ← coord_dispatch_and_wait num_items;
      e ← gets seg_copy_pushed_end;
      on_pushes (close_pairs split safe e num_segments 0) ;;
      modify (fun s => s <| seg_parallel_active := false |>) ;;
      dispatch_flags false 0 ;;
      mret st
    else
      on_pushes (end_opened sp_i current_copy_open) ;;
      modify (fun s => s <| seg_parallel_active := false |>) ;;
      coord_dispatch_and_wait num_items.

(** [seg_copy_split_safe], for the blocks of a segment. *)
Definition seg_copy_split_safe (heavy : uvm_block_fault_group_t -> bool) (segs : list (nat * nat))
    (groups : list uvm_block_fault_group_t) (seg_id : nat) : bool :=
  match segs !! seg_id with
  | Some (seg_start, seg_count) =>
      let merged_blocks := length (filter (fun grp => negb (heavy grp)) (take seg_count (drop seg_start groups))) in
      (0 <? merged_blocks)%nat && (merged_blocks =? seg_count)%nat
  | None => false
  end.

(** One pair for the whole batch. *)
Definition dispatch_batch_pair (num_items : nat) : C NV_STATUS :=
  modify (fun s => s <| batch_groups := 0%nat |> <| queue_base := 0%nat |>) ;;
  ps ← on_pushes (begin_slot 0);
  if is_ok ps then
    modify (fun s => s <| merge_state_active := 0%nat |>) ;;
    dispatch_flags true 2 ;;
    st ← coord_dispatch_and_wait num_items;
    on_pushes (end_slot 0) ;;
    dispatch_flags false 0 ;;
    mret st
  else
    dispatch_flags false 0 ;;
    coord_dispatch_and_wait num_items.

(** ** The segmented merge *)

Definition dispatch_continuous_finish : C unit :=
  modify (fun s => s <| seg_finished := true |> <| seg_generation := seg_generation s + 1 |>
                     <| continuous_active := false |> <| batch_ready := false |>).

Definition dispatch_continuous_first (count : nat) : C unit := dispatch_start_inner count.

Definition dispatch_continuous_next (count : nat) : C unit :=
  log_dispatch count ;; modify (fun s => s <| seg_generation := seg_generation s + 1 |>).

(** A segment whose pushes could not be begun. *)
Definition segment_fallback (count : nat) (l : seg_locals) : C (NV_STATUS * seg_locals) :=
  dispatch_flags false 0 ;;
  when (continuous l)
    (if is_first_seg l then modify (fun s => s <| continuous_active := false |>) else dispatch_continuous_finish) ;;
  st ← coord_dispatch_and_wait count;
  mret (st, l <| continuous := false |>).

(** The dispatch of a segment whose pushes are open. *)
Definition segment_dispatch (count : nat) (at_end : bool) (l : seg_locals) : C (NV_STATUS * seg_locals) :=
  if continuous l then
    (if is_first_seg l then dispatch_continuous_first count else dispatch_continuous_next count) ;;
    st ← dispatch_wait_inner count;
    mret (st, l <| is_first_seg := false |>)
  else if uvm_merge_pipeline_overlap Opts then
    dispatch_start_inner count ;;
    let next_slot := (1 - cur_slot l)%nat in
    next_push_ok ← (if at_end then mret false else ns ← on_pushes (begin_slot next_slot); mret (is_ok ns));
    st ← dispatch_wait_inner count;
    mret (st, l <| cur_push_open := next_push_ok |> <| cur_slot := if next_push_ok : bool then next_slot else cur_slot l |>)
  else
    st ← coord_dispatch_and_wait count;
    mret (st, l).

Definition segment_failed (l : seg_locals) : C unit :=
  when (uvm_merge_pipeline_overlap Opts && cur_push_open l) (on_pushes (end_slot (cur_slot l))) ;;
  active ← gets continuous_active;
  when (continuous l && active) dispatch_continuous_finish.

(** The pushes of a segment, unless they were opened with the previous one. *)
Definition open_segment (l : seg_locals) : C NV_STATUS :=
  if cur_push_open l then mret NV_OK else on_pushes (begin_slot (cur_slot l)).

(** A segment with its pushes. *)
Definition segment_merged (count : nat) (at_end : bool) (l : seg_locals) : C (NV_STATUS * seg_locals) :=
  let dispatch_slot := cur_slot l in
  modify (fun s => s <| merge_state_active := dispatch_slot |>) ;;
  dispatch_flags true 2 ;;
  r ← segment_dispatch count at_end (l <| cur_push_open := false |>);
  on_pushes (end_slot dispatch_slot) ;;
  modify (fun s => s <| merge_state_state := 0 |>) ;;
  when (negb (is_ok r.1)) (segment_failed r.2) ;;
  mret r.

Definition segment_body (seg_start count : nat) (at_end : bool) (l : seg_locals) : C (NV_STATUS * seg_locals) :=
  modify (fun s => s <| batch_groups := seg_start |> <| queue_base := seg_start |>) ;;
  ps ← open_segment l;
  if is_ok ps then segment_merged count at_end l else segment_fallback count l.

(** The loop over the blocks. *)
Fixpoint segment_loop (threshold batch_total_faults : Z) (groups : list uvm_block_fault_group_t)
    (seg_start cursor : nat) (running_faults faults_so_far : Z) (l : seg_locals) : C NV_STATUS :=
  match groups with
  | [] =>
      active ← gets continuous_active;
      when (continuous l && active) dispatch_continuous_finish ;;
      mret NV_OK
  | grp :: rest =>
      let running_faults := u32 (running_faults + num_faults grp) in
      let faults_so_far := u32 (faults_so_far + num_faults grp) in
      let at_end := bool_decide (rest = []) in
      let remaining_faults := u32 (batch_total_faults - faults_so_far) in
      if negb at_end && ((running_faults <? threshold) || (remaining_faults <? threshold))
      then segment_loop threshold batch_total_faults rest seg_start (S cursor) running_faults faults_so_far l
      else
        r ← segment_body seg_start (cursor - seg_start + 1) at_end l;
        let '(st, l) := r in
        if is_ok st then segment_loop threshold batch_total_faults rest (S cursor) (S cursor) 0 faults_so_far l
        else mret st
  end.

Definition dispatch_segmented (threshold batch_total_faults : Z) (groups : list uvm_block_fault_group_t) : C NV_STATUS :=
  let continuous := uvm_merge_continuous_workers Opts in
  when continuous (modify (fun s => s <| continuous_active := true |> <| continuous_batch_gen := continuous_batch_gen s + 1 |>
                                      <| seg_finished := false |>)) ;;
  segment_loop threshold batch_total_faults groups 0 0 0 0 (mk_seg_locals 0 false continuous true).

(** [uvm_kthread_dispatch_and_wait] *)
Definition dispatch_and_wait_mode (groups : list uvm_block_fault_group_t) : C NV_STATUS :=
  let n := length groups in
  let X := pool_merge W in
  let total := total_faults groups in
  let threshold := merge_effective_segment_threshold X total (Z.of_nat n) in
  let segs := batch_segments X (num_workers W) groups in
  if negb (uvm_merge_dispatch W) then
    modify (fun s => s <| batch_groups := 0%nat |> <| queue_base := 0%nat |>) ;;
    dispatch_flags false 0 ;;
    coord_dispatch_and_wait n
  else if uvm_dynamic_dispatch W then
    let max_seg := max_dynamic_segments X in
    let '(_, merged, num_segments) := dynamic_segments X threshold total max_seg groups 0 0 (replicate max_seg 0) in
    dispatch_dynamic n num_segments merged
  else if uvm_merge_group_seg_parallel W then
    let heavy := fun grp => merge_block_is_heavy X grp total in
    dispatch_seg_parallel (uvm_merge_copy_map_split Opts) (seg_copy_split_safe heavy segs groups) n (length segs)
  else if uvm_merge_segment_parallel W then dispatch_seg_parallel false (fun _ => false) n (length segs)
  else if negb (uvm_merge_segmented_dispatch W) then dispatch_batch_pair n
  else dispatch_segmented threshold total groups.

Definition coordinate (groups : list uvm_block_fault_group_t) : C NV_STATUS :=
  if (length groups =? 0)%nat then mret NV_OK
  else
    st ← dispatch_and_wait_mode groups;
    modify (fun s => s <| batch_groups := 0%nat |>) ;;
    mret st.

End Coordinator.

(** ** Pushes are balanced *)

(** Exactly the pushes of [Q] are open, and none was misused. *)
Definition opened (Q : push_kind -> nat -> Prop) (p : pushes_t) : Prop :=
  bad_push p = false /\ forall k i, (k, i) ∈ open_pushes p <-> Q k i.

Definition none_open (k : push_kind) (i : nat) : Prop := False.

#[export] Instance opened_proper : Proper (pointwise_relation push_kind (pointwise_relation nat iff) ==> eq ==> iff) opened.
Proof.
  intros Q Q' HQ p p' ->. unfold opened. split; intros [Hb Hp]; (split; [done|]); intros k i; rewrite Hp; specialize (HQ k i); tauto.
Qed.

Lemma opened_iff Q Q' p : opened Q p -> (forall k i, Q k i <-> Q' k i) -> opened Q' p.
Proof. intros H HQ. eapply opened_proper; [|done|exact H]. intros k i. symmetry. apply HQ. Qed.

Lemma uvm_push_begin_spec op_push_begin Q k i p : opened Q p -> ~ Q k i ->
  let '(st, p') := uvm_push_begin op_push_begin k i p in
  ((forall n, op_push_begin n = NV_OK) -> st = NV_OK) /\ opened (fun k' i' => Q k' i' \/ st = NV_OK /\ k' = k /\ i' = i) p'.
Proof.
  intros [Hb Ho] Hn. unfold uvm_push_begin. split; [done|].
  destruct (is_ok _) eqn:Hok; [apply is_ok_true in Hok|]; split; simpl.
  - rewrite Hb. simpl. apply bool_decide_eq_false_2. by rewrite Ho.
  - intros k' i'. rewrite elem_of_union, elem_of_singleton, Ho. split; [intros [[= -> ->]|]; tauto|].
    intros [|(_ & -> & ->)]; tauto.
  - done.
  - intros k' i'. rewrite Ho. split; [tauto|]. intros [|(H & _)]; [done|]. apply is_ok_true in H. congruence.
Qed.

Lemma uvm_push_end_spec Q k i p : opened Q p -> Q k i ->
  opened (fun k' i' => Q k' i' /\ ~ (k' = k /\ i' = i)) (uvm_push_end k i p).2.
Proof.
  intros [Hb Ho] Hi. split; simpl.
  - rewrite Hb. simpl. rewrite bool_decide_eq_true_2; [done|]. by rewrite Ho.
  - intros k' i'. rewrite elem_of_difference, elem_of_singleton, Ho. split; intros [H1 H2]; (split; [done|]).
    + intros [-> ->]. by apply H2.
    + intros [= -> ->]. by apply H2.
Qed.

(** [end_push H k i]: the push is ended in [H : opened Q p]. *)
Ltac end_push H k i :=
  match type of H with opened ?Q ?p =>
    let Hq := fresh in let H' := fresh in
    rename H into H'; assert (Q k i) as Hq; [|pose proof (uvm_push_end_spec Q k i p H' Hq) as H; clear H' Hq];
    cycle 1
  end.

(** The pairs from [i] up to [j]. *)
Definition pairs_open (i j : nat) (k : push_kind) (x : nat) : Prop := (i <= x < j)%nat.

Lemma open_pairs_spec op_push_begin n : forall i Q p, opened Q p -> (forall k x, Q k x -> (x < i)%nat) ->
  let '((ps, j, c), p') := open_pairs op_push_begin n i p in
  ((forall n, op_push_begin n = NV_OK) -> ps = NV_OK) /\ (i <= j <= i + n)%nat /\ (ps = NV_OK -> j = (i + n)%nat /\ c = false) /\
  opened (fun k x => Q k x \/ pairs_open i j k x \/ c = true /\ k = CopyPush /\ x = j) p'.
Proof.
  induction n as [|n IH]; intros i Q p Hp HQ; cbn [open_pairs]; st_unfold.
  { split_and!; [done|lia|lia|split; [lia|done]|]. eapply opened_iff; [exact Hp|]. unfold pairs_open. intros k x.
    split; [tauto|]. intros [?|[?|[? _]]]; [done|lia|done]. }
  pose proof (uvm_push_begin_spec op_push_begin Q CopyPush i p Hp ltac:(intros H%HQ; lia)) as H1.
  destruct (uvm_push_begin _ CopyPush i p) as [ps p1]. destruct H1 as [Hb1 H1].
  destruct (is_ok ps) eqn:Hok.
  2: { assert (ps <> NV_OK) as Hps by (intros H%is_ok_true; congruence).
    split_and!; [done|lia|lia|done|]. eapply opened_iff; [exact H1|]. unfold pairs_open. intros k x.
    split; [tauto|]. intros [?|[?|[? _]]]; [tauto|lia|done]. }
  apply is_ok_true in Hok. subst ps.
  match type of H1 with opened ?Q1 _ => pose proof (uvm_push_begin_spec op_push_begin Q1 MapPush i p1 H1 ltac:(intros [H%HQ|(_ & H & _)]; [lia|done])) as H2 end.
  destruct (uvm_push_begin _ MapPush i p1) as [ps p2]. destruct H2 as [Hb2 H2].
  destruct (is_ok ps) eqn:Hok.
  2: { assert (ps <> NV_OK) as Hps by (intros H%is_ok_true; congruence).
    split_and!; [done|lia|lia|done|]. eapply opened_iff; [exact H2|]. unfold pairs_open. intros k x.
    split; [tauto|]. intros [?|[?|[? ?]]]; [tauto|lia|tauto]. }
  apply is_ok_true in Hok. subst ps.
  match type of H2 with opened ?Q2 _ => specialize (IH (S i) Q2 p2 H2) end.
  destruct (open_pairs _ n (S i) p2) as [[[ps j] c] p'].
  destruct IH as (Hb & Hj & Hok & Ho); [intros k x [[H%HQ|(_ & _ & ->)]|(_ & _ & ->)]; lia|].
  split_and!; [done|lia|lia|intros H; apply Hok in H as [-> ->]; split; [lia|done]|].
  eapply opened_iff; [exact Ho|]. unfold pairs_open. intros k x. destruct k.
  all: split; [intros [[[?|(_ & _ & ->)]|(_ & ? & ->)]|[?|?]]|intros [?|[?|?]]]; try tauto; try (right; left; lia);
    destruct (decide (x = i)); try tauto; right; left; lia.
Qed.

Lemma end_pairs_spec n : forall i Q p, opened (fun k x => Q k x \/ pairs_open i (i + n) k x) p ->
  (forall k x, Q k x -> (x < i)%nat) -> opened Q (end_pairs n i p).2.
Proof.
  induction n as [|n IH]; intros i Q p Hp HQ; cbn [end_pairs]; st_unfold.
  { eapply opened_iff; [exact Hp|]. unfold pairs_open. intros k x. split; [intros [?|?]; [done|lia]|tauto]. }
  end_push Hp CopyPush i; [|right; unfold pairs_open; lia].
  destruct (uvm_push_end CopyPush i p) as [[] p1]. simpl in Hp.
  end_push Hp MapPush i; [|split; [right; unfold pairs_open; lia|by intros [? _]]].
  destruct (uvm_push_end MapPush i p1) as [[] p2]. simpl in Hp.
  apply IH; [|intros k x H%HQ; lia]. eapply opened_iff; [exact Hp|]. unfold pairs_open. intros k x.
  split.
  - intros [[[?|?] H1] H2]; [tauto|]. right. destruct (decide (x = i)) as [->|]; [|lia]. destruct k; tauto.
  - intros [H|?].
    + pose proof (HQ k x H). split; [split; [by left|]|]; lia.
    + split; [split; [right; lia|]|]; lia.
Qed.

Lemma end_opened_spec c j p :
  opened (fun k x => pairs_open 0 j k x \/ c = true /\ k = CopyPush /\ x = j) p ->
  opened none_open (end_opened j c p).2.
Proof.
  intros Hp. unfold end_opened. st_unfold.
  assert (opened (pairs_open 0 j) ((if c then uvm_push_end CopyPush j else fun s => (tt, s)) p).2) as H.
  { destruct c; [|eapply opened_iff; [exact Hp|]; intros k x; tauto || (split; [intros [?|[? _]]; done|tauto])].
    end_push Hp CopyPush j; [|by right].
    eapply opened_iff; [exact Hp|]. unfold pairs_open. intros k x. split; [intros [[?|(_ & ? & ?)] ?]; [done|tauto]|].
    intros. split; [by left|lia]. }
  destruct c.
  - destruct (uvm_push_end CopyPush j p) as [[] p1]. apply end_pairs_spec; [|by intros]. 
    eapply opened_iff; [exact H|]. unfold none_open. tauto.
  - apply end_pairs_spec; [|by intros]. eapply opened_iff; [exact H|]. unfold none_open. tauto.
Qed.

Lemma close_pairs_spec split merged e n : forall i Q p,
  opened (fun k x => Q k x \/ pairs_open i (i + n) k x /\ ~ (k = CopyPush /\ split && merged x = true /\ x ∈ e)) p ->
  (forall k x, Q k x -> (x < i)%nat) -> opened Q (close_pairs split merged e n i p).2.
Proof.
  induction n as [|n IH]; intros i Q p Hp HQ; cbn [close_pairs]; st_unfold.
  { eapply opened_iff; [exact Hp|]. unfold pairs_open. intros k x. split; [intros [?|[? _]]; [done|lia]|tauto]. }
  set (b := negb split || negb (merged i) || negb (split && merged i && bool_decide (i ∈ e))).
  assert (b = true <-> ~ (split && merged i = true /\ i ∈ e)) as Hb.
  { subst b. destruct split, (merged i); simpl; rewrite ?orb_false_r, ?negb_true_iff, ?bool_decide_eq_false; naive_solver. }
  assert (opened (fun k x => (Q k x \/ pairs_open i (i + S n) k x /\ ~ (k = CopyPush /\ split && merged x = true /\ x ∈ e)) /\
    ~ (k = CopyPush /\ x = i)) ((if b then uvm_push_end CopyPush i else fun s => (tt, s)) p).2) as H1.
  { destruct b.
    - apply uvm_push_end_spec; [done|]. right. split; [unfold pairs_open; lia|]. naive_solver.
    - eapply opened_iff; [exact Hp|]. intros k x. split; [|tauto]. intros H. split; [done|]. intros [-> ->].
      destruct H as [H%HQ|[_ H]]; [lia|]. destruct Hb as [_ Hb]. discriminate Hb. tauto. }
  destruct ((if b then uvm_push_end CopyPush i else fun s => (tt, s)) p) as [[] p1]. simpl in H1.
  end_push H1 MapPush i;
    [|split; [right; split; [unfold pairs_open; lia|by intros [? _]]|by intros [? _]]].
  destruct (uvm_push_end MapPush i p1) as [[] p2]. simpl in H1.
  apply IH; [|intros k x H%HQ; lia]. eapply opened_iff; [exact H1|]. unfold pairs_open. intros k x. split.
  - intros [[[?|[? ?]] ?] ?]; [tauto|]. right. split; [|done]. destruct (decide (x = i)) as [->|]; [|lia]. destruct k; tauto.
  - intros [H|[? ?]].
    + pose proof (HQ k x H). split; [split; [by left|]|]; lia.
    + split; [split; [right; split; [lia|done]|]|]; lia.
Qed.

Lemma workers_end_spec segs : forall Q p, opened Q p -> NoDup segs -> (forall i, i ∈ segs -> Q CopyPush i) ->
  opened (fun k x => Q k x /\ ~ (k = CopyPush /\ x ∈ segs)) (workers_end segs p).2.
Proof.
  induction segs as [|i segs IH]; intros Q p Hp Hnd Hi; cbn [workers_end for_each]; st_unfold.
  { eapply opened_iff; [exact Hp|]. intros k x. rewrite elem_of_nil. tauto. }
  apply NoDup_cons in Hnd as [Hni Hnd].
  end_push Hp CopyPush i; [|apply Hi; left].
  destruct (uvm_push_end CopyPush i p) as [[] p1]. apply IH in Hp; [|done|].
  - eapply opened_iff; [exact Hp|]. intros k x. rewrite elem_of_cons. tauto.
  - intros j Hj. split; [apply Hi; by right|]. intros [_ ->]. done.
Qed.

Lemma begin_slot_spec op_push_begin Q slot p : opened Q p -> ~ Q CopyPush slot -> ~ Q MapPush slot ->
  let '(ps, p') := begin_slot op_push_begin slot p in
  ((forall n, op_push_begin n = NV_OK) -> ps = NV_OK) /\ opened (fun k x => Q k x \/ ps = NV_OK /\ x = slot) p'.
Proof.
  intros Hp Hc Hm. unfold begin_slot. st_unfold.
  pose proof (uvm_push_begin_spec op_push_begin Q CopyPush slot p Hp Hc) as H1.
  destruct (uvm_push_begin _ CopyPush slot p) as [ps p1]. destruct H1 as [Hb1 H1].
  destruct (is_ok ps) eqn:Hok.
  2: { split; [done|]. eapply opened_iff; [exact H1|]. intros k x.
    assert (ps <> NV_OK) by (intros H%is_ok_true; congruence). tauto. }
  apply is_ok_true in Hok. subst ps.
  match type of H1 with opened ?Q1 _ => pose proof (uvm_push_begin_spec op_push_begin Q1 MapPush slot p1 H1 ltac:(naive_solver)) as H2 end.
  destruct (uvm_push_begin _ MapPush slot p1) as [ps p2]. destruct H2 as [Hb2 H2].
  destruct (is_ok ps) eqn:Hok; simpl.
  - apply is_ok_true in Hok. subst ps. split; [done|]. eapply opened_iff; [exact H2|]. intros [] x; naive_solver.
  - assert (ps <> NV_OK) as Hps by (intros H%is_ok_true; congruence). split; [done|].
    end_push H2 CopyPush slot; [|naive_solver]. simpl in H2.
    eapply opened_iff; [exact H2|]. intros k x. split; [naive_solver|]. intros [H|[? _]]; [|done].
    split; [tauto|]. intros [-> ->]. done.
Qed.

Lemma end_slot_spec Q slot p : opened (fun k x => Q k x \/ x = slot) p -> ~ Q CopyPush slot -> ~ Q MapPush slot ->
  opened Q (end_slot slot p).2.
Proof.
  intros Hp Hc Hm. unfold end_slot. st_unfold.
  end_push Hp CopyPush slot; [|by right].
  destruct (uvm_push_end CopyPush slot p) as [[] p1]. simpl in Hp.
  end_push Hp MapPush slot; [|naive_solver].
  eapply opened_iff; [exact Hp|]. intros k x. split.
  - intros [[[?| ->] ?] ?]; [done|]. destruct k; tauto.
  - intros H. split; [split; [by left|]|]; intros [-> ->]; done.
Qed.


(** ** The coordinator follows the plan *)

(** What the dispatches of a plan end with, and those that are made: the first one
    that fails is the last. *)
Fixpoint plan_run (status : nat -> NV_STATUS) (n : nat) (plan : list sub_dispatch) : NV_STATUS * list sub_dispatch :=
  match plan with
  | [] => (NV_OK, [])
  | d :: plan =>
      if is_ok (status n) then let '(st, l) := plan_run status (S n) plan in (st, d :: l)
      else (status n, [d])
  end.

(** From [s] to [s'] the dispatches of the plan were made, each with the results at
    the index of its first block. *)
Definition follows (status : nat -> NV_STATUS) (plan : list sub_dispatch) (s : coord_t) (st : NV_STATUS) (s' : coord_t) : Prop :=
  let r := plan_run status (length (dispatched s)) plan in
  st = r.1 /\ dispatched s' = dispatched s ++ ((fun d => (sd_base d, d)) <$> r.2).

(** The modes that leave [queue_base] alone when they fall back. *)
Definition base_kept (W : pool_params) : bool :=
  uvm_merge_dispatch W && (uvm_dynamic_dispatch W || uvm_merge_group_seg_parallel W || uvm_merge_segment_parallel W).

(** The coordinator between two batches: no push is open, no dispatch is announced,
    the workers' loops are the default ones and [merge_state.state] is 0.
    [merge_dispatch_active] may be set, as it is after a segmented batch; without the
    state it has no effect. *)
Record coord_ready (W : pool_params) (s : coord_t) : Prop := {
  cr_pushes : opened none_open (pushes s);
  cr_dynamic : dynamic_active s = false;
  cr_seg_parallel : seg_parallel_active s = false;
  cr_continuous : continuous_active s = false;
  cr_batch_ready : batch_ready s = false;
  cr_state : merge_state_state s = 0;
  cr_groups : batch_groups s = 0%nat;
  cr_base : base_kept W = true -> queue_base s = 0%nat;
}.

Section Modes.
  Variable W : pool_params.
  Variable Opts : merge_opts.
  Variable op_push_begin : nat -> NV_STATUS.
  Variable op_dispatch : nat -> option NV_STATUS.
  Variable op_workers_end : nat -> nat -> bool.
  Variable op_workers_late : nat -> nat -> bool.
  Abbreviation begins := (forall n, op_push_begin n = NV_OK).
  Abbreviation status := (dispatch_status op_dispatch).
  Abbreviation no_late := (forall n i, op_dispatch n = None -> op_workers_late n i = false).

Lemma worker_mode_dynamic s : dynamic_active s = true -> uvm_dynamic_dispatch W = true -> worker_mode W s = DynamicCursor.
Proof. unfold worker_mode. by intros -> ->. Qed.

Lemma worker_mode_seg s : dynamic_active s = false -> seg_parallel_active s = true ->
  worker_mode W s = if uvm_merge_group_seg_parallel W then GroupSegParallel else SegmentParallel.
Proof. unfold worker_mode. by intros -> ->. Qed.

Lemma worker_mode_strided s : dynamic_active s = false -> seg_parallel_active s = false -> worker_mode W s = Strided.
Proof. unfold worker_mode. by intros -> ->. Qed.

Lemma dispatch_and_wait_eq mode base n s : worker_mode W s = mode -> queue_base s = base -> batch_groups s = base ->
  continuous_active s = false -> (0 < n)%nat ->
  coord_dispatch_and_wait W op_dispatch n s =
    (status (length (dispatched s)),
     s <| dispatched := dispatched s ++ [(base, mk_sub mode base n)] |> <| batch_ready := false |>).
Proof.
  intros <- Hq Hg Hc Hn. unfold coord_dispatch_and_wait, dispatch_start_inner, dispatch_wait_inner, log_dispatch. st_unfold.
  destruct (Nat.eqb_spec n 0) as [?|_]; [lia|]. cbn -[Nat.pred]. rewrite length_app, Nat.add_1_r, Hc, Hq, Hg. simpl.
  by rewrite orb_true_r.
Qed.

Lemma follows_one d s st s' : st = status (length (dispatched s)) -> dispatched s' = dispatched s ++ [(sd_base d, d)] ->
  follows status [d] s st s'.
Proof. intros -> E. unfold follows. simpl. destruct (is_ok _) eqn:H; [apply is_ok_true in H as ->|]; done. Qed.

(** What a mode with one dispatch has to give. *)
Definition one_dispatch (mode : dispatch_mode) (n : nat) (s : coord_t) (r : NV_STATUS * coord_t) : Prop :=
  exists pushes_open : bool, (begins -> pushes_open = true) /\
    follows status [mk_sub (if pushes_open then mode else Strided) 0 n] s r.1 r.2 /\ (no_late -> coord_ready W r.2).

(** The workers and the coordinator end the pairs between them. *)
Lemma close_after_workers split uses e ended n p : opened (pairs_open 0 n) p ->
  NoDup ended -> (forall x, x ∈ ended -> (x < n)%nat /\ split && uses x = true) ->
  (forall x, (x < n)%nat -> split && uses x = true -> x ∈ e <-> x ∈ ended) ->
  opened none_open (close_pairs split uses e n 0 (workers_end ended p).2).2.
Proof.
  intros Hp Hnd Hended He. apply close_pairs_spec; [|by intros ?? []].
  pose proof (workers_end_spec ended (pairs_open 0 n) p Hp Hnd) as H.
  eapply opened_iff; [apply H|]; clear H.
  - intros x Hx%Hended. unfold pairs_open. lia.
  - unfold pairs_open, none_open. intros k x. simpl. split.
    + intros [Hx Hk]. right. split; [done|]. intros (-> & Hu & Hxe). apply Hk. split; [done|]. by (apply He; [lia|..]).
    + intros [[]|[Hx Hk]]. split; [done|]. intros (-> & Hxe). apply Hk. destruct (Hended x Hxe) as [_ Hu].
      split; [done|]. split; [done|]. by (apply He; [lia|..]).
Qed.

(** The flags were cleared before the dispatch. *)
Lemma ended_seen (e : gset nat) n ended x : (x < n)%nat -> x ∈ (e ∖ set_seq 0 n) ∪ list_to_set ended <-> x ∈ ended.
Proof.
  intros Hx. rewrite elem_of_union, elem_of_list_to_set. split; [|tauto]. intros [H|?]; [|done].
  apply elem_of_difference in H as [_ H]. contradict H. apply elem_of_set_seq. lia.
Qed.

Lemma late_nil split d (uses : nat -> bool) l : no_late ->
  (if split && bool_decide (op_dispatch d = None) then filter (fun i => uses i && negb (op_workers_end d i) && op_workers_late d i) l else []) = [].
Proof.
  intros Hn. destruct split; [|done]. case_bool_decide as Hd; [|done]. cbn [andb]. induction l as [|i l IH]; [done|].
  rewrite filter_cons_False; [exact IH|]. rewrite (Hn d i Hd), andb_false_r. by intros [].
Qed.

(** The fields of the state after updates. *)
Ltac field_eq := first [reflexivity | assumption].

Lemma dispatch_dynamic_ok n num_segments merged s : coord_ready W s -> (0 < n)%nat -> (0 < num_segments)%nat ->
  uvm_merge_dispatch W = true -> uvm_dynamic_dispatch W = true ->
  one_dispatch DynamicCursor n s (dispatch_dynamic W Opts op_push_begin op_dispatch op_workers_end op_workers_late n num_segments merged s).
Proof.
  intros [Hp Hd Hsp Hc Hbr Hst Hg Hq] Hn Hseg Hmd Hdyn. specialize (Hq ltac:(unfold base_kept; by rewrite Hmd, Hdyn)).
  unfold dispatch_dynamic, on_pushes, dispatch_flags. st_unfold. destruct (Nat.eqb_spec num_segments 0) as [?|_]; [lia|].
  pose proof (open_pairs_spec op_push_begin num_segments 0 none_open (pushes s) Hp ltac:(by intros ?? [])) as H.
  change (pushes (s <| dynamic_active := false |>)) with (pushes s).
  destruct (open_pairs _ num_segments 0 (pushes s)) as [[[ps j] c] p1]. destruct H as (Hb & Hj & Hok & Ho).
  cbv beta iota zeta. destruct (is_ok ps) eqn:Eok.
  - apply is_ok_true in Eok as ->. destruct (Hok eq_refl) as [-> ->].
    assert (opened (pairs_open 0 num_segments) p1) as Ho'.
    { eapply opened_iff; [exact Ho|]. unfold none_open. simpl. naive_solver. }
    exists true. split; [done|]. destruct (uvm_merge_copy_map_split Opts) eqn:Esplit; cbv beta iota zeta;
      (rewrite (dispatch_and_wait_eq DynamicCursor 0); [|by apply worker_mode_dynamic|reflexivity|reflexivity|exact Hc|exact Hn]);
      cbv beta iota zeta.
    + match goal with |- context [workers_end ?l ?p] => change p with p1; set (ended := l) end.
      destruct (workers_end ended p1) as [[] p2] eqn:Ew. cbv beta iota zeta.
      match goal with |- context [close_pairs _ ?uses ?e _ _ ?p] => change p with p2;
        pose proof (close_after_workers true uses e ended num_segments p1 Ho') as Hend; rewrite Ew in Hend;
        destruct (close_pairs true uses e num_segments 0 p2) as [[] p3] eqn:Ec end.
      cbv beta iota zeta. cbn [snd] in Hend. rewrite Ec in Hend. cbn [snd] in Hend.
      match goal with |- context [workers_end ?l ?p] => change p with p3; set (late := l) end.
      destruct (workers_end late p3) as [[] p4] eqn:El. cbv beta iota zeta.
      split; [apply follows_one; reflexivity|]. intros Hlate. split; try field_eq.
      assert (late = []) as Hnil.
      { subst late. change (length _) with (length (dispatched s)). by apply late_nil. }
      rewrite Hnil in El. injection El as <-. apply Hend; clear Hend Ew Ec.
      * subst ended. apply NoDup_filter, NoDup_seq.
      * intros x. subst ended. rewrite list_elem_of_filter, elem_of_seq. intros [Hx ?]. apply Is_true_true, andb_true_iff in Hx. split; [lia|tauto].
      * intros x Hx _. by apply (ended_seen (dynamic_copy_pushed_end s) num_segments).
    + destruct (workers_end [] _) as [[] p2] eqn:Ew. injection Ew as <-. cbv beta iota zeta.
      match goal with |- context [close_pairs _ ?uses ?e _ _ ?p] => change p with p1;
        pose proof (close_after_workers false uses e [] num_segments p1 Ho' (NoDup_nil_2)) as Hend;
        destruct (close_pairs false uses e num_segments 0 p1) as [[] p3] eqn:Ec end.
      cbv beta iota zeta. destruct (workers_end [] _) as [[] p4] eqn:El. injection El as <-. cbv beta iota zeta.
      split; [apply follows_one; reflexivity|]. intros _. split; try field_eq.
      cbn [workers_end for_each skip mret ST_ret snd] in Hend. rewrite Ec in Hend. apply Hend; [by intros ? ?%not_elem_of_nil|done].
  - exists false. split; [intros Hbb; rewrite (Hb Hbb) in Eok; done|].
    pose proof (end_opened_spec c j p1) as Hend. cbn [pushes].
    match goal with |- context [end_opened j c ?p] => change p with p1 end.
    destruct (end_opened j c p1) as [[] p2]. cbv beta iota zeta.
    rewrite (dispatch_and_wait_eq Strided 0); [|by apply worker_mode_strided|exact Hq|exact Hg|exact Hc|exact Hn].
    split; [apply follows_one; reflexivity|]. intros _. split; try field_eq; [|by intros].
    apply Hend. eapply opened_iff; [exact Ho|]. unfold none_open. naive_solver.
Qed.

Lemma dispatch_seg_parallel_ok split safe n num_segments s : coord_ready W s -> (0 < n)%nat -> (0 < num_segments)%nat ->
  base_kept W = true ->
  one_dispatch (if uvm_merge_group_seg_parallel W then GroupSegParallel else SegmentParallel) n s
    (dispatch_seg_parallel W op_push_begin op_dispatch split safe n num_segments s).
Proof.
  intros [Hp Hd Hsp Hc Hbr Hst Hg Hq] Hn Hseg Hbk. specialize (Hq Hbk).
  unfold dispatch_seg_parallel, on_pushes, dispatch_flags. st_unfold. destruct (Nat.eqb_spec num_segments 0) as [?|_]; [lia|].
  pose proof (open_pairs_spec op_push_begin num_segments 0 none_open (pushes s) Hp ltac:(by intros ?? [])) as H.
  change (pushes (s <| seg_parallel_active := false |>)) with (pushes s).
  destruct (open_pairs _ num_segments 0 (pushes s)) as [[[ps j] c] p1]. destruct H as (Hb & Hj & Hok & Ho).
  cbv beta iota zeta. destruct (is_ok ps) eqn:Eok.
  - apply is_ok_true in Eok as ->. destruct (Hok eq_refl) as [-> ->].
    assert (opened (pairs_open 0 num_segments) p1) as Ho'.
    { eapply opened_iff; [exact Ho|]. unfold none_open. simpl. naive_solver. }
    exists true. split; [done|]. destruct split; cbv beta iota zeta;
      (rewrite (dispatch_and_wait_eq (if uvm_merge_group_seg_parallel W then GroupSegParallel else SegmentParallel) 0);
         [|by apply worker_mode_seg|reflexivity|reflexivity|exact Hc|exact Hn]);
      cbv beta iota zeta;
      match goal with |- context [close_pairs ?b _ ?e _ _ ?p] => change p with p1;
        pose proof (close_after_workers b safe e [] num_segments p1 Ho' (NoDup_nil_2)) as Hend;
        cbn [workers_end for_each skip mret ST_ret snd] in Hend;
        destruct (close_pairs b safe e num_segments 0 p1) as [[] p3] end;
      cbv beta iota zeta; (split; [apply follows_one; reflexivity|]); intros _; split; try field_eq;
      (apply Hend; [by intros ? ?%not_elem_of_nil|]); [|done].
    intros x Hx _. rewrite elem_of_nil. split; [|done].
    change (x ∈ seg_copy_pushed_end s ∖ set_seq 0 num_segments -> False). intros [_ H]%elem_of_difference.
    apply H, elem_of_set_seq. lia.
  - exists false. split; [intros Hbb; rewrite (Hb Hbb) in Eok; done|].
    pose proof (end_opened_spec c j p1) as Hend.
    match goal with |- context [end_opened j c ?p] => change p with p1 end.
    destruct (end_opened j c p1) as [[] p2]. cbv beta iota zeta.
    rewrite (dispatch_and_wait_eq Strided 0); [|by apply worker_mode_strided|exact Hq|exact Hg|exact Hc|exact Hn].
    split; [apply follows_one; reflexivity|]. intros _. split; try field_eq; [|by intros].
    apply Hend. eapply opened_iff; [exact Ho|]. unfold none_open. naive_solver.
Qed.

Lemma dispatch_batch_pair_ok n s : coord_ready W s -> (0 < n)%nat ->
  one_dispatch Strided n s (dispatch_batch_pair W op_push_begin op_dispatch n s).
Proof.
  intros [Hp Hd Hsp Hc Hbr Hst Hg Hq] Hn. unfold dispatch_batch_pair, on_pushes, dispatch_flags. st_unfold.
  pose proof (begin_slot_spec op_push_begin none_open 0 (pushes s) Hp ltac:(by intros []) ltac:(by intros [])) as H.
  match goal with |- context [begin_slot _ 0 ?p] => change p with (pushes s) end.
  destruct (begin_slot _ 0 (pushes s)) as [ps p1]. destruct H as [Hb Ho]. cbv beta iota zeta.
  destruct (is_ok ps) eqn:Eok.
  - apply is_ok_true in Eok as ->. exists true. split; [done|].
    rewrite (dispatch_and_wait_eq Strided 0); [|by apply worker_mode_strided|reflexivity|reflexivity|exact Hc|exact Hn].
    cbv beta iota zeta. pose proof (end_slot_spec none_open 0 p1) as Hend.
    match goal with |- context [end_slot 0 ?p] => change p with p1 end.
    destruct (end_slot 0 p1) as [[] p2]. cbv beta iota zeta.
    split; [apply follows_one; reflexivity|]. intros _. split; try field_eq.
    apply Hend; [|by intros []..]. eapply opened_iff; [exact Ho|]. naive_solver.
  - exists false. split; [intros Hbb; rewrite (Hb Hbb) in Eok; done|].
    rewrite (dispatch_and_wait_eq Strided 0); [|by apply worker_mode_strided|reflexivity|reflexivity|exact Hc|exact Hn].
    split; [apply follows_one; reflexivity|]. intros _. split; try field_eq.
    eapply opened_iff; [exact Ho|]. assert (ps <> NV_OK) by (intros H%is_ok_true; congruence). unfold none_open. tauto.
Qed.

Lemma dispatch_off_ok n s : coord_ready W s -> (0 < n)%nat ->
  one_dispatch Strided n s
    (coord_dispatch_and_wait W op_dispatch n
       (s <| batch_groups := 0%nat |> <| queue_base := 0%nat |> <| merge_dispatch_active := false |> <| merge_state_state := 0 |>)).
Proof.
  intros [Hp Hd Hsp Hc Hbr Hst Hg Hq] Hn. exists true. split; [done|].
  rewrite (dispatch_and_wait_eq Strided 0); [|by apply worker_mode_strided|reflexivity|reflexivity|exact Hc|exact Hn].
  split; [apply follows_one; reflexivity|]. intros _. split; field_eq.
Qed.

(** *** The segmented merge *)

(** Between two segments: the pushes of the next one may be open. *)
Record seg_inv (l : seg_locals) (s : coord_t) : Prop := {
  si_pushes : opened (fun _ x => cur_push_open l = true /\ x = cur_slot l) (pushes s);
  si_dynamic : dynamic_active s = false;
  si_seg_parallel : seg_parallel_active s = false;
  si_continuous : continuous_active s = continuous l;
  si_batch_ready : batch_ready s = true -> continuous l = true;
  si_state : merge_state_state s = 0;
  si_slot : (cur_slot l <= 1)%nat;
  si_overlap : cur_push_open l = true -> uvm_merge_pipeline_overlap Opts = true;
}.

(** The coordinator after the last segment. *)
Record seg_done (s : coord_t) : Prop := {
  sd_pushes : opened none_open (pushes s);
  sd_dynamic : dynamic_active s = false;
  sd_seg_parallel : seg_parallel_active s = false;
  sd_continuous : continuous_active s = false;
  sd_batch_ready : batch_ready s = false;
  sd_state : merge_state_state s = 0;
}.

(** A dispatch of a segment: what it logs and its status. *)
Definition segment_logged (seg_start count : nat) (s : coord_t) (st : NV_STATUS) (s' : coord_t) : Prop :=
  st = status (length (dispatched s)) /\ dispatched s' = dispatched s ++ [(seg_start, mk_sub Strided seg_start count)].

Lemma segment_fallback_ok seg_start count l s :
  seg_inv l s -> cur_push_open l = false -> batch_groups s = seg_start -> queue_base s = seg_start -> (0 < count)%nat ->
  let r := segment_fallback W op_dispatch count l s in
  segment_logged seg_start count s r.1.1 r.2 /\ seg_inv r.1.2 r.2 /\ cur_push_open r.1.2 = false /\ continuous r.1.2 = false.
Proof.
  intros [Hp Hd Hsp Hc Hbr Hst Hsl Hov] Hcl Hg Hq Hn. unfold segment_fallback, dispatch_flags, dispatch_continuous_finish.
  st_unfold. cbv beta iota zeta. destruct (continuous l) eqn:El; [destruct (is_first_seg l)|]; cbv beta iota zeta;
    (rewrite (dispatch_and_wait_eq Strided seg_start);
      [|by apply worker_mode_strided|exact Hq|exact Hg|first [reflexivity|exact Hc]|exact Hn]);
    cbv beta iota zeta; (split; [by split|]);
    (split; [split; first [reflexivity|assumption|discriminate]|by split]).
Qed.

Lemma dispatch_wait_eq L x count s : dispatched s = L ++ [x] -> (0 < count)%nat ->
  exists b, dispatch_wait_inner op_dispatch count s =
    (status (length L), s <| batch_ready := if b : bool then false else batch_ready s |>) /\
    (continuous_active s = false -> b = true).
Proof.
  intros Hl Hn. unfold dispatch_wait_inner. destruct (Nat.eqb_spec count 0) as [?|_]; [lia|].
  rewrite Hl, length_app, Nat.add_1_r. cbn [Nat.pred].
  exists (bool_decide (op_dispatch (length L) = None) || negb (continuous_active s)).
  split; [by destruct (_ || _); [|destruct s]|]. intros ->. by rewrite orb_true_r.
Qed.

(** The state while the workers have a segment. *)
Record seg_mid (Q : nat -> Prop) (l : seg_locals) (s : coord_t) : Prop := {
  sm_pushes : opened (fun _ x => Q x \/ cur_push_open l = true /\ x = cur_slot l) (pushes s);
  sm_dynamic : dynamic_active s = false;
  sm_seg_parallel : seg_parallel_active s = false;
  sm_continuous : continuous_active s = continuous l;
  sm_batch_ready : batch_ready s = true -> continuous l = true;
  sm_slot : (cur_slot l <= 1)%nat;
  sm_overlap : cur_push_open l = true -> uvm_merge_pipeline_overlap Opts = true /\ ~ Q (cur_slot l);
}.

Lemma segment_dispatch_ok seg_start count at_end l s (Q := fun x => x = cur_slot l) :
  seg_mid Q l s -> cur_push_open l = false -> batch_groups s = seg_start -> queue_base s = seg_start -> (0 < count)%nat ->
  let r := segment_dispatch W Opts op_push_begin op_dispatch count at_end l s in
  segment_logged seg_start count s r.1.1 r.2 /\ seg_mid Q r.1.2 r.2 /\ (at_end = true -> cur_push_open r.1.2 = false).
Proof.
  intros [Hp Hd Hsp Hc Hbr Hsl Hov] Hcl Hg Hq Hn.
  assert (worker_mode W s = Strided) as Hmode by (by apply worker_mode_strided).
  unfold segment_dispatch, dispatch_continuous_first, dispatch_continuous_next, dispatch_start_inner, log_dispatch, on_pushes.
  st_unfold. destruct (Nat.eqb_spec count 0) as [?|_]; [lia|]. destruct (continuous l) eqn:El.
  - destruct (is_first_seg l); cbv beta iota zeta; rewrite Hmode, Hq, Hg;
      match goal with |- context [dispatch_wait_inner _ _ ?st] =>
        destruct (dispatch_wait_eq (dispatched s) (seg_start, mk_sub Strided seg_start count) count st)
          as (b & E & _); [reflexivity|exact Hn|]; rewrite E end;
      cbv beta iota zeta; (split; [by split|]); (split; [split; first [field_eq|exact (eq_trans Hc (eq_sym El))|intros _; exact El]|by intros]).
  - destruct (uvm_merge_pipeline_overlap Opts) eqn:Epipe; cbv beta iota zeta.
    + rewrite Hmode, Hq, Hg.
      set (next := (1 - cur_slot l)%nat). set (Q' := fun (k : push_kind) x => x = cur_slot l).
      assert (opened Q' (pushes s)) as Hp' by (eapply opened_iff; [exact Hp|]; subst Q Q'; naive_solver).
      destruct at_end; cbv beta iota zeta.
      * match goal with |- context [dispatch_wait_inner _ _ ?st] =>
          destruct (dispatch_wait_eq (dispatched s) (seg_start, mk_sub Strided seg_start count) count st)
            as (b & E & Hb); [reflexivity|exact Hn|]; rewrite E; specialize (Hb Hc); subst b end.
        cbv beta iota zeta. split; [by split|]. split; [|done]. split; first [field_eq|exact (eq_trans Hc (eq_sym El))|discriminate|idtac].
        eapply opened_iff; [exact Hp'|]. subst Q'. naive_solver.
      * pose proof (begin_slot_spec op_push_begin Q' next (pushes s) Hp' ltac:(subst Q' next; simpl; lia) ltac:(subst Q' next; simpl; lia)) as H.
        match goal with |- context [begin_slot _ next ?p] => change p with (pushes s) end.
        destruct (begin_slot _ next (pushes s)) as [ns p1]. destruct H as [_ Ho]. cbv beta iota zeta.
        match goal with |- context [dispatch_wait_inner _ _ ?st] =>
          destruct (dispatch_wait_eq (dispatched s) (seg_start, mk_sub Strided seg_start count) count st)
            as (b & E & Hb); [reflexivity|exact Hn|]; rewrite E; specialize (Hb Hc); subst b end.
        cbv beta iota zeta. split; [by split|]. split; [|done].
        destruct (is_ok ns) eqn:Eok; [apply is_ok_true in Eok as ->|assert (ns <> NV_OK) by (intros H%is_ok_true; congruence)].
        all: split; first [field_eq|exact (eq_trans Hc (eq_sym El))|discriminate|idtac].
        all: try (eapply opened_iff; [exact Ho|]; subst Q Q' next; simpl; naive_solver).
        all: subst next; simpl; first [lia|split; [done|subst Q; simpl; lia]].
    + rewrite (dispatch_and_wait_eq Strided seg_start); [|exact Hmode|exact Hq|exact Hg|exact Hc|exact Hn].
      cbv beta iota zeta. split; [by split|]. split; [|done]. split; first [field_eq|exact (eq_trans Hc (eq_sym El))|discriminate|idtac].
      intros H. change (cur_push_open l = true) in H. congruence.
Qed.

Lemma segment_failed_ok l s : seg_mid (fun _ => False) l s -> merge_state_state s = 0 ->
  seg_done (segment_failed Opts l s).2 /\ dispatched (segment_failed Opts l s).2 = dispatched s.
Proof.
  intros [Hp Hd Hsp Hc Hbr Hsl Hov] Hst.
  assert (exists p', when (uvm_merge_pipeline_overlap Opts && cur_push_open l) (on_pushes (end_slot (cur_slot l))) s =
    (tt, s <| pushes := p' |>) /\ opened none_open p') as (p' & E & Hp').
  { unfold on_pushes. st_unfold. destruct (cur_push_open l) eqn:Eo; rewrite ?andb_false_r, ?andb_true_r.
    - destruct (Hov eq_refl) as [-> _]. pose proof (end_slot_spec none_open (cur_slot l) (pushes s)) as He.
      destruct (end_slot _ _) as [[] p']. exists p'. split; [done|]. apply He; [|by intros []..].
      eapply opened_iff; [exact Hp|]. unfold none_open. naive_solver.
    - exists (pushes s). split; [by destruct s|]. eapply opened_iff; [exact Hp|]. unfold none_open. naive_solver. }
  unfold segment_failed, mbind, ST_bind. rewrite E. unfold dispatch_continuous_finish. st_unfold.
  cbv beta iota zeta. change (continuous_active (s <| pushes := p' |>)) with (continuous_active s). rewrite Hc.
  destruct (continuous l) eqn:El; cbn [andb]; cbv beta iota zeta; (split; [|reflexivity]); split; first [field_eq|idtac].
  change (batch_ready s = false). destruct (batch_ready s); [|done]. discriminate Hbr. done.
Qed.

Lemma open_segment_ok l s : seg_inv l s ->
  exists ps p, open_segment op_push_begin l s = (ps, s <| pushes := p |>) /\
    opened (fun _ x => ps = NV_OK /\ x = cur_slot l) p /\ (is_ok ps = false -> cur_push_open l = false).
Proof.
  intros [Hp _ _ _ _ _ _ _]. unfold open_segment. destruct (cur_push_open l) eqn:Eo.
  - exists NV_OK, (pushes s). split; [by destruct s|]. split; [|done]. eapply opened_iff; [exact Hp|]. naive_solver.
  - pose proof (begin_slot_spec op_push_begin none_open (cur_slot l) (pushes s)) as H. unfold on_pushes.
    destruct (begin_slot _ _ _) as [ps p1]. exists ps, p1. split; [done|]. split; [|done].
    destruct H as [_ H]; [|by intros []..|].
    + eapply opened_iff; [exact Hp|]. unfold none_open. naive_solver.
    + eapply opened_iff; [exact H|]. unfold none_open. naive_solver.
Qed.

Lemma segment_merged_ok seg_start count at_end l s :
  seg_mid (fun x => x = cur_slot l) (l <| cur_push_open := false |>) s ->
  batch_groups s = seg_start -> queue_base s = seg_start -> (0 < count)%nat ->
  let r := segment_merged W Opts op_push_begin op_dispatch count at_end l s in
  segment_logged seg_start count s r.1.1 r.2 /\
  (if is_ok r.1.1 then seg_inv r.1.2 r.2 /\ (at_end = true -> cur_push_open r.1.2 = false) else seg_done r.2).
Proof.
  intros [Hp Hd Hsp Hc Hbr Hsl Hov] Hg Hq Hn. unfold segment_merged, dispatch_flags, modify, mbind, ST_bind. cbv beta iota zeta.
  match goal with |- context [segment_dispatch _ _ _ _ _ _ ?l' ?s'] =>
    pose proof (segment_dispatch_ok seg_start count at_end l' s') as H;
    destruct (segment_dispatch W Opts op_push_begin op_dispatch count at_end l' s') as [[st l1] s1] end.
  cbn [fst snd] in H. destruct H as ((Hst & Hlog) & Hmid & Hend); [by split|done|done|done|done|].
  cbv beta iota zeta. unfold on_pushes.
  destruct Hmid as [Hp1 Hd1 Hsp1 Hc1 Hbr1 Hsl1 Hov1].
  pose proof (end_slot_spec (fun _ x => cur_push_open l1 = true /\ x = cur_slot l1) (cur_slot l) (pushes s1)) as He.
  destruct (end_slot (cur_slot l) (pushes s1)) as [[] p2]. cbv beta iota zeta. cbn [fst snd] in *.
  assert (opened (fun _ x => cur_push_open l1 = true /\ x = cur_slot l1) p2) as Hp2.
  { apply He; [eapply opened_iff; [exact Hp1|]; naive_solver|..]; intros [Ho1 E]; by apply (Hov1 Ho1). }
  unfold when, skip, mret, ST_ret. destruct (is_ok st) eqn:Eok; cbn [negb]; cbv beta iota zeta.
  - split; [by split|]. cbn [fst snd]. rewrite Eok. split; [|done]. split; first [field_eq|idtac]. intros H; by apply Hov1.
  - pose proof (segment_failed_ok l1 (s1 <| pushes := p2 |> <| merge_state_state := 0 |>)) as Hf.
    destruct (segment_failed Opts l1 _) as [[] s2]. destruct Hf as [Hdone Hlog2]; [|reflexivity|].
    + split; first [field_eq|idtac]; [eapply opened_iff; [exact Hp2|]; naive_solver|].
      intros H. split; [by apply Hov1|by intros []].
    + cbn [fst snd] in *. split; [split; [done|]|by rewrite Eok]. by rewrite Hlog2.
Qed.

Lemma segment_body_ok seg_start count at_end l s : seg_inv l s -> (0 < count)%nat ->
  let r := segment_body W Opts op_push_begin op_dispatch seg_start count at_end l s in
  segment_logged seg_start count s r.1.1 r.2 /\
  (if is_ok r.1.1 then seg_inv r.1.2 r.2 /\ (at_end = true -> cur_push_open r.1.2 = false) else seg_done r.2).
Proof.
  intros Hi Hn. unfold segment_body, modify, mbind, ST_bind. cbv beta iota zeta.
  set (s1 := s <| batch_groups := seg_start |> <| queue_base := seg_start |>).
  assert (seg_inv l s1) as Hi1 by (by destruct Hi).
  destruct (open_segment_ok l s1 Hi1) as (ps & p1 & E & Hp1 & Hcl). rewrite E. cbv beta iota zeta.
  destruct Hi1 as [Hp Hd Hsp Hc Hbr Hst Hsl Hov]. destruct (is_ok ps) eqn:Eok.
  - apply is_ok_true in Eok as ->.
    destruct (segment_merged_ok seg_start count at_end l (s1 <| pushes := p1 |>)) as [Hl Hr]; try done.
    split; try field_eq; [|done]. eapply opened_iff; [exact Hp1|]. simpl. naive_solver.
  - destruct (segment_fallback_ok seg_start count l (s1 <| pushes := p1 |>)) as (Hl & Hi2 & Hc2 & Hk2); try done; [|by apply Hcl|].
    + split; try field_eq. eapply opened_iff; [exact Hp1|]. rewrite (Hcl eq_refl).
      assert (ps <> NV_OK) by (intros H%is_ok_true; congruence). naive_solver.
    + destruct (segment_fallback _ _ _ _ _) as [[st l2] s2]. cbn [fst snd] in *. split; [done|].
      destruct (is_ok st); [done|]. destruct Hi2 as [Hp2 Hd2 Hsp2 Hc2' Hbr2 Hst2 Hsl2 Hov2].
      split; try done; [|congruence|].
      * eapply opened_iff; [exact Hp2|]. rewrite Hc2. unfold none_open. naive_solver.
      * destruct (batch_ready s2); [|done]. rewrite Hk2 in Hbr2. discriminate Hbr2. done.
Qed.

Lemma follows_cons d plan s1 s st s' : is_ok (status (length (dispatched s))) = true ->
  dispatched s1 = dispatched s ++ [(sd_base d, d)] -> follows status plan s1 st s' -> follows status (d :: plan) s st s'.
Proof.
  intros Hok Hs1. unfold follows. cbn [plan_run]. rewrite Hok, Hs1, length_app, Nat.add_1_r.
  destruct (plan_run _ _ plan) as [st1 l]. cbn [fst snd]. intros [-> ->]. split; [done|]. by rewrite <- app_assoc.
Qed.

Lemma segment_loop_ok threshold total groups : forall seg_start cursor running so_far l s,
  seg_inv l s -> (cur_push_open l = true -> groups <> []) -> (seg_start <= cursor)%nat ->
  let r := segment_loop W Opts op_push_begin op_dispatch threshold total groups seg_start cursor running so_far l s in
  follows status ((fun x => mk_sub Strided x.1 x.2) <$> merge_segments threshold total groups seg_start cursor running so_far) s r.1 r.2 /\
  seg_done r.2.
Proof.
  induction groups as [|grp rest IH]; intros seg_start cursor running so_far l s Hi Hne Hle; cbn [segment_loop merge_segments].
  - destruct Hi as [Hp Hd Hsp Hc Hbr Hst Hsl Hov]. unfold dispatch_continuous_finish. st_unfold. rewrite Hc.
    assert (opened none_open (pushes s)) as Hp'.
    { eapply opened_iff; [exact Hp|]. unfold none_open. intros k x. split; [|done]. intros [H _]. by apply Hne. }
    destruct (continuous l) eqn:El; cbn [andb]; cbv beta iota zeta; cbn [fst snd];
      (split; [unfold follows; cbn; by rewrite app_nil_r|]); split; try field_eq.
    destruct (batch_ready s); [|done]. discriminate Hbr. done.
  - cbv zeta. destruct (negb _ && _) eqn:Hcont.
    { apply IH; [done| |lia]. intros _ ->. by rewrite bool_decide_true in Hcont. }
    set (at_end := bool_decide (rest = [])).
    pose proof (segment_body_ok seg_start (cursor - seg_start + 1) at_end l s Hi ltac:(lia)) as H.
    unfold mbind, ST_bind. destruct (segment_body _ _ _ _ _ _ _ _ s) as [[st l1] s1]. cbv beta iota zeta. cbn [fst snd] in H.
    destruct H as ([-> Hlog] & H). rewrite fmap_cons. destruct (is_ok (status _)) eqn:Eok.
    + destruct H as [Hi1 Hend].
      destruct (IH (S cursor) (S cursor) 0 (u32 (so_far + num_faults grp)) l1 s1 Hi1) as [Hf Hdone]; [|done|].
      * intros Ho ->. rewrite Hend in Ho; [done|]. by apply bool_decide_eq_true_2.
      * split; [|done]. by eapply follows_cons.
    + split; [|done]. unfold mret, ST_ret. cbn [fst snd]. unfold follows. cbn [plan_run]. by rewrite Eok.
Qed.

Lemma dispatch_segmented_ok threshold total groups s : coord_ready W s ->
  let r := dispatch_segmented W Opts op_push_begin op_dispatch threshold total groups s in
  follows status ((fun x => mk_sub Strided x.1 x.2) <$> merge_segments threshold total groups 0 0 0 0) s r.1 r.2 /\ seg_done r.2.
Proof.
  intros [Hp Hd Hsp Hc Hbr Hst Hg Hq]. unfold dispatch_segmented, when, skip, mret, ST_ret, modify, mbind, ST_bind.
  assert (opened (fun _ x => false = true /\ x = 0%nat) (pushes s)) as Hp'.
  { eapply opened_iff; [exact Hp|]. unfold none_open. naive_solver. }
  destruct (uvm_merge_continuous_workers Opts); cbv beta iota zeta;
    match goal with |- context [segment_loop _ _ _ _ _ _ _ _ _ _ _ ?l ?st] =>
      destruct (segment_loop_ok threshold total groups 0 0 0 0 l st) as [Hf Hdone]; [|done|lia|by split] end.
  - split; try field_eq; [cbn; lia|done].
  - split; try field_eq; [|cbn; lia|done]. cbn. congruence.
Qed.

(** Every mode makes the dispatches of the plan of the batch and leaves the
    coordinator ready for the next one. *)
Lemma coordinate_spec groups s : coord_ready W s -> groups <> [] ->
  let r := coordinate W Opts op_push_begin op_dispatch op_workers_end op_workers_late groups s in
  (exists pushes_open : bool, (begins -> pushes_open = true) /\
     follows status (dispatch_plan W pushes_open groups) s r.1 r.2) /\ (no_late -> coord_ready W r.2).
Proof.
  intros Hr Hne. assert (0 < length groups)%nat as Hn by (destruct groups; [done|simpl; lia]).
  unfold coordinate. destruct (Nat.eqb_spec (length groups) 0) as [?|_]; [lia|].
  enough (let r := dispatch_and_wait_mode W Opts op_push_begin op_dispatch op_workers_end op_workers_late groups s in
    (exists pushes_open : bool, (begins -> pushes_open = true) /\
       follows status (dispatch_plan W pushes_open groups) s r.1 r.2) /\
    (no_late -> coord_ready W r.2 \/ base_kept W = false /\ seg_done r.2)) as H.
  { unfold mbind, ST_bind, modify, mret, ST_ret. destruct (dispatch_and_wait_mode _ _ _ _ _ _ groups s) as [st s1].
    cbn [fst snd] in *. destruct H as [H Hl]. split; [exact H|]. intros [[]|[Hb []]]%Hl; split; try field_eq. by rewrite Hb. }
  cbv zeta. unfold dispatch_and_wait_mode, dispatch_plan, base_kept.
  assert (0 < length (batch_segments (pool_merge W) (num_workers W) groups))%nat as Hsegs.
  { unfold batch_segments. match goal with |- context [segment_bounds ?t ?m _ _ _ _ _] =>
      pose proof (segment_bounds_consecutive t m groups 0 0 0 0 ltac:(done) ltac:(by left)) as H;
      destruct (segment_bounds t m groups 0 0 0 0); [simpl in H; lia|simpl; lia] end. }
  destruct (uvm_merge_dispatch W) eqn:Emd; cbn [negb].
  2: { destruct (dispatch_off_ok (length groups) s Hr Hn) as (b & Hb & Hf & Hr'). split; [|by intros ?%Hr'; left].
       exists b. split; [done|]. by destruct b. }
  destruct (uvm_dynamic_dispatch W) eqn:Edy.
  { match goal with |- context [dynamic_segments ?X ?t ?tot ?m _ _ _ _] =>
      destruct (dynamic_segments_expand X t tot m groups 0 0 0 0 (replicate m 0)) as [_ Hseg]; [done|by left|];
      pose proof (segment_bounds_consecutive t m groups 0 0 0 0 ltac:(done) ltac:(by left)) as Hcons;
      destruct (dynamic_segments X t tot m groups 0 0 (replicate m 0)) as [[ids merged] num] end.
    cbn [snd] in Hseg. destruct (dispatch_dynamic_ok (length groups) num merged s) as (b & Hb & Hf & Hr'); try done.
    - destruct (segment_bounds _ _ _ _ _ _ _); simpl in *; lia.
    - split; [by exists b|by intros ?%Hr'; left]. }
  destruct (uvm_merge_group_seg_parallel W) eqn:Egs.
  { destruct (dispatch_seg_parallel_ok (uvm_merge_copy_map_split Opts)
      (seg_copy_split_safe (fun grp => merge_block_is_heavy (pool_merge W) grp (total_faults groups))
         (batch_segments (pool_merge W) (num_workers W) groups) groups)
      (length groups) (length (batch_segments (pool_merge W) (num_workers W) groups)) s) as (b & Hb & Hf & Hr'); try done.
    - unfold base_kept. by rewrite Emd, Egs, orb_true_r.
    - rewrite Egs in Hf. split; [by exists b|by intros ?%Hr'; left]. }
  destruct (uvm_merge_segment_parallel W) eqn:Esp.
  { destruct (dispatch_seg_parallel_ok false (fun _ => false) (length groups)
      (length (batch_segments (pool_merge W) (num_workers W) groups)) s) as (b & Hb & Hf & Hr'); try done.
    - unfold base_kept. by rewrite Emd, Esp, orb_true_r.
    - rewrite Egs in Hf. split; [by exists b|by intros ?%Hr'; left]. }
  destruct (uvm_merge_segmented_dispatch W); cbn [negb].
  - split; [exists true; split; [done|]|intros _; right; split; [done|]]; by apply dispatch_segmented_ok.
  - destruct (dispatch_batch_pair_ok (length groups) s Hr Hn) as (b & Hb & Hf & Hr'). split; [|by intros ?%Hr'; left].
    exists b. split; [done|]. by destruct b.
Qed.

End Modes.

(** The batches of a pool, one after the other; each has its number, from which its
    parameters are taken. *)
Fixpoint coordinate_batches (W : pool_params) (Opts : merge_opts) (begin_status : nat -> nat -> NV_STATUS)
    (wait_status : nat -> nat -> option NV_STATUS) (workers_ended workers_late : nat -> nat -> nat -> bool)
    (n : nat) (batches : list (list uvm_block_fault_group_t)) : ST coord_t (list NV_STATUS) :=
  match batches with
  | [] => mret []
  | groups :: batches =>
      st ← coordinate W Opts (begin_status n) (wait_status n) (workers_ended n) (workers_late n) groups;
      l ← coordinate_batches W Opts begin_status wait_status workers_ended workers_late (S n) batches;
      mret (st :: l)
  end.

(** C29: Suppose that no worker of a dispatch that timed out ends a copy push after
    the coordinator has closed the pairs.  Whichever pushes cannot be begun,
    dispatches fail or time out and copy pushes the workers end themselves in time,
    in any sequence of batches and in every merge mode (dynamic, group-segment,
    segment-parallel, one pair for the batch, segments with or without overlap and
    continuous workers, merging off): no push is begun while it is open or ended
    while it is not, and after the batches none is left open, no dispatch is
    announced, the dynamic, segment-parallel and continuous flags are clear, and no
    worker would take the shared pushes ([merge_dispatch_active] can stay set, with
    [merge_state.state] 0). *)
Theorem pushes_balanced W Opts begin_status wait_status workers_ended workers_late n batches s :
  coord_ready W s -> (forall b d i, wait_status b d = None -> workers_late b d i = false) ->
  let s' := (coordinate_batches W Opts begin_status wait_status workers_ended workers_late n batches s).2 in
  coord_ready W s' /\ use_merge s' = false.
Proof.
  intros Hr Hl s'. assert (coord_ready W s') as Hr'; [|by split; [|unfold use_merge; rewrite (cr_state _ _ Hr'), andb_false_r]].
  subst s'. revert n s Hr. induction batches as [|groups batches IH]; intros n s Hr; cbn [coordinate_batches]; st_unfold; [done|].
  assert (coord_ready W (coordinate W Opts (begin_status n) (wait_status n) (workers_ended n) (workers_late n) groups s).2) as H1.
  { destruct groups; [done|]. apply coordinate_spec; [done|done|]. intros d i. apply Hl. }
  destruct (coordinate _ _ _ _ _ _ groups s) as [st s1]. specialize (IH (S n) s1 H1).
  by destruct (coordinate_batches _ _ _ _ _ _ _ _ s1) as [l s2].
Qed.

(** C30: The coordinator makes the dispatches of the plan of the batch, in its
    order and up to the first one that fails, whose status it returns; the workers
    read the mode of the plan from the flags, and every dispatch puts the results
    of its blocks at the index of its first block.  The plan is the one with shared
    pushes when all pushes can be begun. *)
Theorem coordinate_follows_plan W Opts begin_status wait_status workers_ended workers_late groups s :
  coord_ready W s -> groups <> [] ->
  let r := coordinate W Opts begin_status wait_status workers_ended workers_late groups s in
  exists pushes_open : bool, ((forall n, begin_status n = NV_OK) -> pushes_open = true) /\
    follows (dispatch_status wait_status) (dispatch_plan W pushes_open groups) s r.1 r.2.
Proof. intros Hr Hne. by apply coordinate_spec. Qed.

(** *** Runs *)

Definition idle_coord : coord_t :=
  mk_coord (mk_pushes ∅ false 0) [] 0 0 false false false false 0 0 ∅ ∅ false 0 0 false.

Lemma idle_coord_ready W : coord_ready W idle_coord.
Proof. by split. Qed.

(** Segments of four faults; overlap of the pushes with the workers. *)
Definition segmented_pool : pool_params :=
  mk_pool_params true false false false true 2 (mk_merge_params 0 4 false 16 50 false 8 3 3).
Definition dynamic_pool : pool_params :=
  mk_pool_params true true false false false 2 (mk_merge_params 0 4 false 16 50 false 8 3 3).
Definition overlap_opts : merge_opts := mk_merge_opts true false true.

Definition sample_groups : list uvm_block_fault_group_t :=
  (fun i => mk_group (mk_va_block (Z.of_nat i * 0x200000) (Z.of_nat i * 0x200000 + 0x1fffff) 1 false) (3 * i) 3) <$> seq 0 6.

Definition third_begin_fails (n : nat) : NV_STATUS := if (n =? 2)%nat then NV_ERR_NO_MEMORY else NV_OK.

Definition sample_run (W : pool_params) : list NV_STATUS * coord_t :=
  coordinate_batches W overlap_opts (fun _ => third_begin_fails) (fun n d => if (n =? 1)%nat && (d =? 4)%nat then None else Some NV_OK)
    (fun _ _ i => (i =? 0)%nat) (fun _ _ _ => false) 0 [sample_groups; sample_groups] idle_coord.

Lemma pushes_balanced_witness :
  (sample_run segmented_pool).1 = [NV_OK; NV_ERR_TIMEOUT] /\ merge_dispatch_active (sample_run segmented_pool).2 = true /\
  (coord_ready segmented_pool (sample_run segmented_pool).2 /\ use_merge (sample_run segmented_pool).2 = false) /\
  (coord_ready dynamic_pool (sample_run dynamic_pool).2 /\ use_merge (sample_run dynamic_pool).2 = false).
Proof.
  split; [vm_compute; reflexivity|]. split; [vm_compute; reflexivity|]. split.
  - exact (pushes_balanced segmented_pool overlap_opts _ _ _ _ 0 [sample_groups; sample_groups] idle_coord (idle_coord_ready _) (fun _ _ _ _ => eq_refl)).
  - exact (pushes_balanced dynamic_pool overlap_opts _ _ _ _ 0 [sample_groups; sample_groups] idle_coord (idle_coord_ready _) (fun _ _ _ _ => eq_refl)).
Defined.

(** A dispatch that times out: the coordinator ends the copy push of the first
    segment, and then the worker that finishes its copies ends it again. *)
Lemma late_worker_ends_twice :
  let r := coordinate dynamic_pool overlap_opts (fun _ => NV_OK) (fun _ => None) (fun _ _ => false) (fun _ i => (i =? 0)%nat) sample_groups idle_coord in
  r.1 = NV_ERR_TIMEOUT /\ bad_push (pushes r.2) = true.
Proof. vm_compute. by split. Qed.

Lemma sample_groups_cons : sample_groups <> [].
Proof. discriminate. Qed.

Lemma coordinate_follows_plan_witness :
  let r := coordinate segmented_pool overlap_opts third_begin_fails (fun _ => Some NV_OK) (fun _ _ => false) (fun _ _ => false) sample_groups idle_coord in
  dispatched r.2 = [(0, mk_sub Strided 0 2); (2, mk_sub Strided 2 2); (4, mk_sub Strided 4 2)]%nat /\
  exists pushes_open : bool, ((forall n, third_begin_fails n = NV_OK) -> pushes_open = true) /\
    follows (dispatch_status (fun _ => Some NV_OK)) (dispatch_plan segmented_pool pushes_open sample_groups) idle_coord r.1 r.2.
Proof.
  split; [vm_compute; reflexivity|].
  exact (coordinate_follows_plan segmented_pool overlap_opts third_begin_fails (fun _ => Some NV_OK) (fun _ _ => false) (fun _ _ => false)
    sample_groups idle_coord (idle_coord_ready _) sample_groups_cons).
Defined.

(** The parameters can be changed between two batches.  A dynamic batch that falls
    back after a segmented one puts its results at the index where the last segment
    began, beyond the blocks of the batch. *)
Lemma stale_queue_base :
  let s1 := (coordinate segmented_pool overlap_opts (fun _ => NV_OK) (fun _ => Some NV_OK) (fun _ _ => false) (fun _ _ => false) sample_groups idle_coord).2 in
  let s2 := (coordinate dynamic_pool overlap_opts (fun _ => NV_ERR_NO_MEMORY) (fun _ => Some NV_OK) (fun _ _ => false) (fun _ _ => false) sample_groups s1).2 in
  last (dispatched s2) = Some (4, mk_sub Strided 0 6)%nat.
Proof. vm_compute. reflexivity. Qed.
