(* ===== verification/CopySplit.v ===== *)
(** * Early end of a shared copy push

    With [uvm_merge_copy_map_split] the blocks of a segment count down when they
    have added their copies to the shared copy push, and the last one ends it while
    the others still map ([uvm_va_block_service_locked] in [uvm_va_block.c]; the
    counters are set up by the coordinator of [Merge.v]).  The model takes what each
    attempt of a block does, and interleaves the blocks at the operations on the
    shared push and on the counter. *)

From stdpp Require Import list.
From S2P Require Import Prelude FaultTypes.

Local Open Scope Z_scope.

(** ** A block *)

(** The operations on what blocks share: commands are added to the copy push, or
    the counter is decremented (and, at zero, the push ended). *)
Inductive split_op : Type := AddCopies | DecCounter.

(** What servicing one new residency does: for every copy whether there was space
    in the shared push ([copy_ext_used]) or a push of its own was taken
    ([copy_ext_fallback]); the status of the copy phase; the status of the mapping
    phase.  A block of HMM does both in [uvm_hmm_va_block_service_locked], whose
    status is then the first. *)
Record residency_run : Type := mk_residency {
  rr_copies : list bool;
  rr_copy_status : NV_STATUS;
  rr_finish_status : NV_STATUS;
}.

(** [block_copy_resident_pages_between], for the copies of a residency. *)
Definition shared_copies (r : residency_run) : nat := length (filter Is_true (rr_copies r)).

(** The loop over the new residencies; returns the status, the operations, the
    count of shared copies and [copy_counter_decremented].  A block of HMM goes on
    with the next residency before the counter. *)
Fixpoint service_residencies (is_hmm : bool) (runs : list residency_run) (copy_phases_left : nat) (copy_ext_used : nat)
  : NV_STATUS * list split_op * nat * bool :=
  match runs with
  | [] => (NV_OK, [], copy_ext_used, false)
  | r :: runs =>
      let adds := replicate (shared_copies r) AddCopies in
      let copy_ext_used := (copy_ext_used + shared_copies r)%nat in
      if is_ok (rr_copy_status r) then
        if is_hmm then
          let '(st, ops', used, dec) := service_residencies is_hmm runs copy_phases_left copy_ext_used in
          (st, adds ++ ops', used, dec)
        else
          let copy_phases_left := Nat.pred copy_phases_left in
          let dec := (copy_phases_left =? 0)%nat && (0 <? copy_ext_used)%nat in
          let ops := adds ++ if dec then [DecCounter] else [] in
          if is_ok (rr_finish_status r) then
            let '(st, ops', used, dec') := service_residencies is_hmm runs copy_phases_left copy_ext_used in
            (st, ops ++ ops', used, dec || dec')
          else (rr_finish_status r, ops, copy_ext_used, dec)
      else (rr_copy_status r, adds, copy_ext_used, false)
  end.

(** [uvm_va_block_service_locked] of a block that has the counter. *)
Definition uvm_va_block_service_locked (is_hmm : bool) (runs : list residency_run) (copy_ext_used : nat) : NV_STATUS * list split_op * nat :=
  let '(st, ops, used, copy_counter_decremented) := service_residencies is_hmm runs (length runs) copy_ext_used in
  (st, ops ++ (if negb copy_counter_decremented && (0 <? used)%nat then [DecCounter] else []), used).

(** [UVM_VA_BLOCK_RETRY_LOCKED]: the attempts until one does not ask for another. *)
Fixpoint service_retry_locked (is_hmm : bool) (attempts : list (list residency_run)) (copy_ext_used : nat) : NV_STATUS * list split_op :=
  match attempts with
  | [] => (NV_ERR_MORE_PROCESSING_REQUIRED, [])
  | runs :: attempts =>
      let '(st, ops, used) := uvm_va_block_service_locked is_hmm runs copy_ext_used in
      if bool_decide (st = NV_ERR_MORE_PROCESSING_REQUIRED)
      then let '(st, ops') := service_retry_locked is_hmm attempts used in (st, ops ++ ops')
      else (st, ops)
  end.

(** ** The blocks of a segment *)

(** [th_ends]: the block has brought the counter to zero and is about to end the
    push; [th_decs] counts its decrements. *)
Record block_thread : Type := mk_thread {
  th_ops : list split_op;
  th_ends : bool;
  th_decs : nat;
}.

Record segment_t : Type := mk_segment {
  copy_done_counter : Z;
  copy_pushed_end : bool;
  push_ends : nat;
  copies : nat;
  late_copies : nat;
  threads : list block_thread;
}.

#[export] Instance segment_eta : Eta segment_t := fun s =>
  mk_segment (copy_done_counter s) (copy_pushed_end s) (push_ends s) (copies s) (late_copies s) (threads s).

(** The coordinator seeds the counter with the blocks that may share the push. *)
Definition start_segment (merged_blocks : nat) (programs : list (list split_op)) : segment_t :=
  mk_segment (Z.of_nat merged_blocks) false 0 0 0 ((fun ops => mk_thread ops false 0) <$> programs).

(** The next operation of a block. *)
Definition block_step (j : nat) (s : segment_t) : segment_t :=
  match threads s !! j with
  | Some (mk_thread ops ends decs) =>
      if ends : bool then
        s <| threads := <[j := mk_thread ops false decs]> (threads s) |> <| push_ends := S (push_ends s) |> <| copy_pushed_end := true |>
      else
        match ops with
        | AddCopies :: ops =>
            let s := s <| threads := <[j := mk_thread ops false decs]> (threads s) |> in
            if (push_ends s =? 0)%nat then s <| copies := S (copies s) |> else s <| late_copies := S (late_copies s) |>
        | DecCounter :: ops =>
            let counter := copy_done_counter s - 1 in
            s <| copy_done_counter := counter |> <| threads := <[j := mk_thread ops (counter =? 0) (S decs)]> (threads s) |>
        | [] => s
        end
  | None => s
  end.

Definition run_schedule (schedule : list nat) (s : segment_t) : segment_t := foldl (fun s j => block_step j s) s schedule.

(** The coordinator after the dispatch: it ends the push unless a block has. *)
Definition coordinator_end (merged_blocks : nat) (s : segment_t) : segment_t :=
  if (merged_blocks =? 0)%nat || negb (copy_pushed_end s) then s <| push_ends := S (push_ends s) |> else s.

(** ** One attempt *)

(** The operations of an attempt: copies, then at most one decrement, which there
    is exactly when a copy was shared. *)
Definition split_program (a : nat) (dec : bool) : list split_op :=
  replicate a AddCopies ++ if dec then [DecCounter] else [].

Lemma split_program_adds b a dec : replicate b AddCopies ++ split_program a dec = split_program (b + a) dec.
Proof. unfold split_program. by rewrite replicate_add, app_assoc. Qed.

Lemma service_hmm_ops runs n : forall used0 st ops used dec,
  service_residencies true runs n used0 = (st, ops, used, dec) -> exists a, used = (used0 + a)%nat /\ ops = split_program a dec /\ dec = false.
Proof.
  induction runs as [|r runs IH]; intros used0 st ops used dec; cbn [service_residencies].
  { intros [= <- <- <- <-]. exists 0%nat. split_and!; [lia|done|done]. }
  destruct (is_ok (rr_copy_status r)).
  2: { intros [= <- <- <- <-]. exists (shared_copies r). split_and!; [done| |done]. unfold split_program. by rewrite app_nil_r. }
  destruct (service_residencies true runs n (used0 + shared_copies r)) as [[[st' ops'] used'] dec'] eqn:E.
  intros [= <- <- <- <-]. apply IH in E as (a & -> & -> & Hd). exists (shared_copies r + a)%nat. split_and!; [lia|apply split_program_adds|done].
Qed.

Lemma service_residencies_ops runs : forall used0 st ops used dec,
  service_residencies false runs (length runs) used0 = (st, ops, used, dec) ->
  exists a, used = (used0 + a)%nat /\ ops = split_program a dec /\ (dec = true -> (0 < used)%nat).
Proof.
  induction runs as [|r runs IH]; intros used0 st ops used dec; cbn [service_residencies length].
  { intros [= <- <- <- <-]. exists 0%nat. split_and!; [lia|done|done]. }
  cbn [Nat.pred]. destruct (is_ok (rr_copy_status r)).
  2: { intros [= <- <- <- <-]. exists (shared_copies r). split_and!; [done| |done]. unfold split_program. by rewrite app_nil_r. }
  destruct (is_ok (rr_finish_status r)).
  2: { intros [= <- <- <- <-]. exists (shared_copies r). split_and!; [done|done|]. intros [_ ?%Nat.ltb_lt]%andb_true_iff. lia. }
  destruct (service_residencies false runs (length runs) (used0 + shared_copies r)) as [[[st' ops'] used'] dec'] eqn:E.
  intros [= <- <- <- <-]. destruct runs as [|r' runs].
  - injection E as <- <- <- <-. rewrite orb_false_r, app_nil_r. exists (shared_copies r). split_and!; [done|done|].
    intros [_ ?%Nat.ltb_lt]%andb_true_iff. lia.
  - apply IH in E as (a & -> & -> & Hd). simpl. rewrite app_nil_r. exists (shared_copies r + a)%nat.
    split_and!; [lia|apply split_program_adds|done].
Qed.

Lemma service_locked_ops is_hmm runs :
  let '(_, ops, used) := uvm_va_block_service_locked is_hmm runs 0 in ops = split_program used (0 <? used)%nat.
Proof.
  unfold uvm_va_block_service_locked. destruct (service_residencies is_hmm runs (length runs) 0) as [[[st ops] used] dec] eqn:E.
  assert (exists a, used = a /\ ops = split_program a dec /\ (dec = true -> (0 < used)%nat)) as (a & -> & -> & Hd).
  { destruct is_hmm; [apply service_hmm_ops in E as (a & ? & ? & ->)|apply service_residencies_ops in E as (a & ? & ? & ?)]; by exists a. }
  unfold split_program. destruct dec; simpl.
  - rewrite app_nil_r. by destruct (Nat.ltb_spec 0 a) as [|?]; [|specialize (Hd eq_refl); lia].
  - by rewrite app_nil_r.
Qed.

(** ** The counter *)

Lemma sum_list_with_insert {A} (f : A -> nat) l j x y : l !! j = Some x ->
  (sum_list_with f (<[j:=y]> l) + f x = sum_list_with f l + f y)%nat.
Proof. revert j. induction l as [|z l IH]; intros [|j] H; simplify_eq/=; [lia|]. specialize (IH j H). lia. Qed.

Lemma sum_list_with_zero {A} (f : A -> nat) l : Forall (fun x => f x = 0%nat) l -> sum_list_with f l = 0%nat.
Proof. induction 1; simpl; lia. Qed.

Lemma sum_list_with_le {A} (f : A -> nat) l : Forall (fun x => (f x <= 1)%nat) l -> (sum_list_with f l <= length l)%nat.
Proof. induction 1; simpl; lia. Qed.

Lemma sum_list_with_full {A} (f : A -> nat) l : Forall (fun x => (f x <= 1)%nat) l ->
  (length l <= sum_list_with f l)%nat -> Forall (fun x => f x = 1%nat) l.
Proof.
  induction 1 as [|x l Hx Hl IH]; simpl; [done|]. intros Hs. pose proof (sum_list_with_le f l Hl).
  constructor; [lia|apply IH; lia].
Qed.

(** A block in the middle of its attempt. *)
Definition thread_ok (t : block_thread) : Prop :=
  exists a dec, th_ops t = split_program a dec /\ (th_decs t + Nat.b2n dec <= 1)%nat /\ ((0 < a)%nat -> dec = true) /\
    (th_ends t = true -> th_decs t = 1%nat).

Lemma thread_ok_done t : thread_ok t -> th_decs t = 1%nat -> th_ops t = [].
Proof.
  intros (a & dec & -> & Hd & Ha & _) E. destruct dec; simpl in Hd; [lia|].
  destruct a; [done|]. by specialize (Ha ltac:(lia)).
Qed.

Abbreviation th_end := (fun t => Nat.b2n (th_ends t)).

Record segment_inv (n : nat) (s : segment_t) : Prop := {
  sg_threads : Forall thread_ok (threads s);
  sg_length : (length (threads s) <= n)%nat;
  sg_counter : copy_done_counter s = Z.of_nat n - Z.of_nat (sum_list_with th_decs (threads s));
  sg_ends : (0 < n)%nat -> (sum_list_with th_end (threads s) + push_ends s = if (copy_done_counter s =? 0)%Z then 1 else 0)%nat;
  sg_pushed : copy_pushed_end s = (push_ends s =? 1)%nat;
  sg_late : late_copies s = 0%nat;
}.

Lemma decs_le s n : segment_inv n s -> (sum_list_with th_decs (threads s) <= length (threads s))%nat.
Proof.
  intros [Ht _ _ _ _ _]. apply sum_list_with_le. eapply Forall_impl; [exact Ht|]. intros t (a & dec & _ & Hd & _). simpl in Hd. lia.
Qed.

(** When the counter is zero every block is through. *)
Lemma counter_zero_done n s : segment_inv n s -> copy_done_counter s = 0 ->
  forall j t, threads s !! j = Some t -> th_ops t = [].
Proof.
  intros Hi Hz j t Hj. pose proof Hi as [Ht Hl Hc He Hp Hlate].
  assert (Forall (fun t => th_decs t = 1%nat) (threads s)) as Hone.
  { apply sum_list_with_full; [|lia]. eapply Forall_impl; [exact Ht|]. intros u (a & dec & _ & Hd & _). simpl in Hd. lia. }
  apply thread_ok_done; [by eapply Forall_lookup_1 in Ht|by eapply Forall_lookup_1 in Hone].
Qed.

Lemma block_step_inv n j s : segment_inv n s -> segment_inv n (block_step j s).
Proof.
  intros Hi. pose proof (decs_le s n Hi) as Hle. pose proof Hi as [Ht Hl Hc He Hp Hlate].
  unfold block_step. destruct (threads s !! j) as [[ops ends decs]|] eqn:Hj; [|done].
  assert (0 < n)%nat as Hn by (apply lookup_lt_Some in Hj; lia). specialize (He Hn).
  assert (thread_ok (mk_thread ops ends decs)) as Hok by (by eapply Forall_lookup_1 in Ht).
  pose proof (fun y => sum_list_with_insert th_decs _ j _ y Hj) as Hdecs.
  pose proof (fun y => sum_list_with_insert th_end _ j _ y Hj) as Hends. cbn beta in Hends.
  destruct Hok as (a & dec & Hops & Hd & Ha & Hend). cbn [th_ops th_decs th_ends] in *.
  destruct ends; [|destruct ops as [|[] ops]; [done| |]].
  - specialize (Hdecs (mk_thread ops false decs)). specialize (Hends (mk_thread ops false decs)). simpl in Hdecs, Hends.
    destruct (Z.eqb_spec (copy_done_counter s) 0) as [Hz|Hz]; [|lia].
    split; cbn; rewrite ?length_insert; try done; [|lia|intros _; rewrite Hz; simpl; lia|].
    + apply Forall_insert; [done|]. exists a, dec. by split_and!.
    + by replace (push_ends s) with 0%nat by lia.
  - assert (copy_done_counter s <> 0) as Hz by (intros Hz; by specialize (counter_zero_done n s Hi Hz j _ Hj)).
    specialize (Hdecs (mk_thread ops false decs)). specialize (Hends (mk_thread ops false decs)). simpl in Hdecs, Hends.
    destruct (Z.eqb_spec (copy_done_counter s) 0) as [?|_]; [done|].
    assert (push_ends s = 0%nat) as E0 by lia. cbn. rewrite E0. cbn.
    split; cbn; rewrite ?length_insert; try done; [|lia|intros _; destruct (Z.eqb_spec (copy_done_counter s) 0); [done|lia]].
    apply Forall_insert; [done|]. destruct a as [|a]; [by destruct dec|]. injection Hops as ->.
    exists a, dec. split_and!; [done|done|intros _; apply Ha; lia|done].
  - assert (copy_done_counter s <> 0) as Hz by (intros Hz; by specialize (counter_zero_done n s Hi Hz j _ Hj)).
    destruct a as [|a]; [|done]. destruct dec; [|done]. injection Hops as ->. simpl in Hd.
    assert (decs = 0%nat) as -> by lia.
    specialize (Hdecs (mk_thread [] (copy_done_counter s - 1 =? 0) 1)). specialize (Hends (mk_thread [] (copy_done_counter s - 1 =? 0) 1)).
    simpl in Hdecs, Hends. destruct (Z.eqb_spec (copy_done_counter s) 0) as [?|_]; [done|].
    split; cbn; rewrite ?length_insert; try done; [|lia|intros _; destruct (copy_done_counter s - 1 =? 0); simpl in *; lia].
    apply Forall_insert; [done|]. exists 0%nat, false. split_and!; [done|done|lia|done].
Qed.

Lemma run_schedule_inv n schedule : forall s, segment_inv n s -> segment_inv n (run_schedule schedule s).
Proof. induction schedule as [|j schedule IH]; intros s Hs; [done|]. by apply IH, block_step_inv. Qed.

(** A block is whether it is one of HMM and its attempts; here those whose first
    attempt is their last. *)
Definition serviced_once (block : bool * list (list residency_run)) : Prop :=
  exists runs rest, block.2 = runs :: rest /\ (uvm_va_block_service_locked block.1 runs 0).1.1 <> NV_ERR_MORE_PROCESSING_REQUIRED.

Definition block_programs (blocks : list (bool * list (list residency_run))) : list (list split_op) :=
  (fun block => (service_retry_locked block.1 block.2 0).2) <$> blocks.

Lemma serviced_once_program block : serviced_once block ->
  exists used, (service_retry_locked block.1 block.2 0).2 = split_program used (0 <? used)%nat.
Proof.
  intros (runs & rest & -> & Hst). cbn [service_retry_locked]. pose proof (service_locked_ops block.1 runs) as H.
  destruct (uvm_va_block_service_locked block.1 runs 0) as [[st ops] used]. simpl in Hst. rewrite bool_decide_eq_false_2 by done.
  by exists used.
Qed.

Lemma start_segment_inv n blocks : Forall serviced_once blocks -> (length blocks <= n)%nat ->
  segment_inv n (start_segment n (block_programs blocks)).
Proof.
  intros Hb Hl. unfold start_segment, block_programs.
  assert (forall f : block_thread -> nat, (forall ops, f (mk_thread ops false 0) = 0%nat) -> forall l : list (list split_op),
    sum_list_with f ((fun ops => mk_thread ops false 0) <$> l) = 0%nat) as Hsum.
  { intros f Hf l. apply sum_list_with_zero, Forall_fmap, Forall_true, Hf. }
  split; cbn [threads copy_done_counter push_ends copy_pushed_end late_copies]; try done.
  - rewrite <- list_fmap_compose. apply Forall_fmap. eapply Forall_impl; [exact Hb|].
    intros attempts (used & E)%serviced_once_program. exists used, (0 <? used)%nat. simpl.
    split_and!; [done|by destruct (0 <? used)%nat; simpl; lia|by intros ?%Nat.ltb_lt|done].
  - by rewrite !length_fmap.
  - rewrite Hsum by done. lia.
  - intros Hn. rewrite Hsum by done. destruct (Z.eqb_spec (Z.of_nat n) 0); lia.
Qed.

(** ** The push is ended once, after the copies *)

(** Every block has made its operations. *)
Definition all_through (s : segment_t) : Prop := Forall (fun t => th_ops t = [] /\ th_ends t = false) (threads s).

Definition same_op (op op' : split_op) : nat :=
  match op, op' with AddCopies, AddCopies | DecCounter, DecCounter => 1 | _, _ => 0 end.

Definition count_op (op : split_op) (ops : list split_op) : nat := sum_list_with (same_op op) ops.

(** Nothing is lost: every copy is in the push or late or still to come, and every
    decrement is made or still to come. *)
Definition copies_total (s : segment_t) : nat :=
  copies s + late_copies s + sum_list_with (fun t => count_op AddCopies (th_ops t)) (threads s).
Definition decs_total (s : segment_t) : nat :=
  sum_list_with (fun t => th_decs t + count_op DecCounter (th_ops t))%nat (threads s).

Lemma block_step_totals j s : copies_total (block_step j s) = copies_total s /\ decs_total (block_step j s) = decs_total s.
Proof.
  unfold block_step, copies_total, decs_total. destruct (threads s !! j) as [[ops ends decs]|] eqn:Hj; [|done].
  pose proof (fun y => sum_list_with_insert (fun t => count_op AddCopies (th_ops t)) _ j _ y Hj) as Ha.
  pose proof (fun y => sum_list_with_insert (fun t => th_decs t + count_op DecCounter (th_ops t))%nat _ j _ y Hj) as Hd.
  cbn beta in Ha, Hd. destruct ends; [|destruct ops as [|[] ops]; [done| |]].
  - specialize (Ha (mk_thread ops false decs)). specialize (Hd (mk_thread ops false decs)). cbn in *. lia.
  - specialize (Ha (mk_thread ops false decs)). specialize (Hd (mk_thread ops false decs)). cbn in *.
    destruct (push_ends s =? 0)%nat; cbn; lia.
  - cbv zeta. set (b := copy_done_counter s - 1 =? 0). specialize (Ha (mk_thread ops b (S decs))). specialize (Hd (mk_thread ops b (S decs))). cbn in *. lia.
Qed.

Lemma run_schedule_totals schedule : forall s,
  copies_total (run_schedule schedule s) = copies_total s /\ decs_total (run_schedule schedule s) = decs_total s.
Proof.
  induction schedule as [|j schedule IH]; intros s; [done|]. change (run_schedule (j :: schedule) s) with (run_schedule schedule (block_step j s)).
  destruct (IH (block_step j s)) as [-> ->]. apply block_step_totals.
Qed.

Lemma sum_list_with_ext {A} (f g : A -> nat) l : Forall (fun x => f x = g x) l -> sum_list_with f l = sum_list_with g l.
Proof. induction 1; simpl; lia. Qed.

Lemma all_through_totals s : all_through s ->
  copies_total s = (copies s + late_copies s)%nat /\ decs_total s = sum_list_with th_decs (threads s).
Proof.
  intros Ha. unfold copies_total, decs_total. split.
  - rewrite sum_list_with_zero; [lia|]. eapply Forall_impl; [exact Ha|]. by intros t [-> _].
  - apply sum_list_with_ext. eapply Forall_impl; [exact Ha|]. intros t [-> _]. cbn. lia.
Qed.

Lemma start_totals n programs :
  copies_total (start_segment n programs) = sum_list_with (count_op AddCopies) programs /\
  decs_total (start_segment n programs) = sum_list_with (count_op DecCounter) programs.
Proof.
  unfold copies_total, decs_total, start_segment. cbn [copies late_copies threads].
  induction programs as [|p programs [IH1 IH2]]; [done|]. rewrite fmap_cons. cbn [sum_list_with th_ops th_decs] in *. lia.
Qed.

(** C31: When no block of the segment has to be serviced again after an allocation
    drops its lock, then in every interleaving of the blocks no copy is added to the
    shared push after it was ended, and it is ended at most once.  When all blocks
    are through, all copies are in the push, the coordinator has ended it unless a
    block has, and a block has if every block that may use it did. *)
Theorem split_push_ended_once n blocks schedule : Forall serviced_once blocks -> (length blocks <= n)%nat -> (0 < n)%nat ->
  let programs := block_programs blocks in
  let s := run_schedule schedule (start_segment n programs) in
  late_copies s = 0%nat /\ (push_ends s <= 1)%nat /\
  (all_through s ->
     copies s = sum_list_with (count_op AddCopies) programs /\
     push_ends (coordinator_end n s) = 1%nat /\
     (copy_pushed_end s = true <-> sum_list_with (count_op DecCounter) programs = n)).
Proof.
  intros Hb Hl Hn programs s.
  assert (segment_inv n s) as [Ht Hle Hc He Hp Hlate] by (by apply run_schedule_inv, start_segment_inv).
  specialize (He Hn). split; [done|]. split; [destruct (copy_done_counter s =? 0); lia|]. intros Ha.
  destruct (run_schedule_totals schedule (start_segment n programs)) as [Ec Ed]. fold s in Ec, Ed.
  destruct (start_totals n programs) as [Sc Sd]. destruct (all_through_totals s Ha) as [Tc Td].
  assert (sum_list_with th_end (threads s) = 0%nat) as Hend.
  { apply sum_list_with_zero. eapply Forall_impl; [exact Ha|]. by intros t [_ ->]. }
  split; [lia|]. unfold coordinator_end. rewrite Hp. destruct (Nat.eqb_spec n 0) as [?|_]; [lia|].
  assert (push_ends s = if copy_done_counter s =? 0 then 1%nat else 0%nat) as E by lia.
  split; [rewrite E; by destruct (copy_done_counter s =? 0)|].
  rewrite E. destruct (Z.eqb_spec (copy_done_counter s) 0); simpl; split; try done; lia.
Qed.

(** *** Runs *)

Definition ok_run (copies : nat) : residency_run := mk_residency (replicate copies true) NV_OK NV_OK.

(** The second block copies into two residencies, the third finds no space and the
    fourth is of HMM. *)
Definition sample_blocks : list (bool * list (list residency_run)) :=
  [(false, [[ok_run 1]]); (false, [[ok_run 2; ok_run 1]]); (false, [[mk_residency [false] NV_OK NV_OK]]); (true, [[ok_run 1; ok_run 1]])].

Lemma sample_blocks_once : Forall serviced_once sample_blocks.
Proof. repeat constructor; by eexists _, []. Qed.

Definition sample_schedule : list nat := [1; 0; 1; 3; 0; 1; 3; 1; 2; 0; 3; 1]%nat.

Lemma sample_through : all_through (run_schedule sample_schedule (start_segment 4 (block_programs sample_blocks))).
Proof. unfold all_through. vm_compute. repeat constructor. Qed.

Lemma split_push_ended_once_witness :
  let s := run_schedule sample_schedule (start_segment 4 (block_programs sample_blocks)) in
  copies s = 6%nat /\ late_copies s = 0%nat /\ push_ends (coordinator_end 4 s) = 1%nat.
Proof.
  split; [reflexivity|].
  destruct (split_push_ended_once 4 sample_blocks sample_schedule sample_blocks_once) as (Hlate & _ & Hall); [simpl; lia|lia|].
  split; [exact Hlate|]. exact (proj1 (proj2 (Hall sample_through))).
Defined.

(** A block whose mapping phase is retried decrements the counter twice, because
    its copies of the first attempt still count: the push is ended before the other
    block has added its copy. *)
Definition retried_blocks : list (bool * list (list residency_run)) :=
  [(false, [[mk_residency [true] NV_OK NV_ERR_MORE_PROCESSING_REQUIRED]; [mk_residency [] NV_OK NV_OK]]); (false, [[ok_run 1]])].

Lemma retry_ends_push_early :
  let s := run_schedule [0; 0; 0; 0; 1]%nat (start_segment 2 (block_programs retried_blocks)) in
  push_ends s = 1%nat /\ late_copies s = 1%nat.
Proof. by vm_compute. Qed.
