(* ===== verification/Pipeline.v ===== *)
(** * The asynchronous copy pipeline

    A GPU has a copy thread with two slots: workers put a block whose pages are
    populated into a free slot and go on; the thread copies and maps
    ([uvm_gpu_async_copy_init] to [uvm_gpu_async_copy_deinit], the submit and the
    copy thread in [uvm_gpu_replayable_faults_parallel.c]).  Workers, the thread and
    the coordinator's flush are interleaved at the sections under
    [async_copy_lock].  The status of copying and mapping a block is a parameter of
    the step that does it. *)

From stdpp Require Import gmap.
From S2P Require Import Prelude FaultTypes.

Local Open Scope Z_scope.

(** ** Which items use the pipeline *)

Record async_params : Type := mk_async_params {
  uvm_parallel_async_copy_map_enable : bool;
  uvm_merge_dispatch_on : bool;
  uvm_parallel_async_copy_map_prefetch_safe : bool;
}.

(** The fields of a work item that the choice reads; the prefetch setting is the
    one of its VA space. *)
Record async_item : Type := mk_async_item {
  ai_has_context : bool;
  ai_gpu_initialized : bool;
  ai_has_va_space : bool;
  ai_is_hmm : bool;
  ai_hmm_migratable : bool;
  ai_prefetch_enabled : bool;
}.

Definition async_copy_map_enabled_for_item (A : async_params) (item : async_item) : bool :=
  if negb (uvm_parallel_async_copy_map_enable A) then false
  else if uvm_merge_dispatch_on A then false
  else if negb (ai_has_context item) then false
  else if negb (ai_gpu_initialized item) then false
  else if negb (ai_has_va_space item) then false
  else if ai_is_hmm item || ai_hmm_migratable item then false
  else if negb (uvm_parallel_async_copy_map_prefetch_safe A) && ai_prefetch_enabled item then false
  else true.

(** The items that the workers and the inline path fill in. *)
Definition worker_item (has_context gpu_initialized has_va_space is_hmm prefetch_enabled : bool) : async_item :=
  mk_async_item has_context gpu_initialized has_va_space is_hmm true prefetch_enabled.

(** No item of a worker or of the inline path ever takes the pipeline. *)
Lemma pipeline_never_used A has_context gpu_initialized has_va_space is_hmm prefetch_enabled :
  async_copy_map_enabled_for_item A (worker_item has_context gpu_initialized has_va_space is_hmm prefetch_enabled) = false.
Proof. unfold async_copy_map_enabled_for_item. simpl. rewrite orb_true_r. by repeat case_match. Qed.

(** ** The slots *)

(** [uvm_gpu_async_copy_slot_t]: the work item whose tracker and status the slot
    points to, its block, and whether the slot has a context of its own. *)
Record slot_t : Type := mk_slot {
  slot_item : option nat;
  slot_occupied : bool;
  slot_context : bool;
}.

(** The copy thread waits, has the slot [cd] and works on it, or has written the
    status and is about to reset the slot. *)
Inductive copier_t : Type := CopyIdle | CopyBusy | CopyWritten | CopyStopped.

Record async_t : Type := mk_async {
  pd_copy : slot_t;
  cd : slot_t;
  copier : copier_t;
  async_copy_stop : bool;
  async_copy_initialized : bool;
  async_copy_thread : bool;
  item_status : gmap nat NV_STATUS;
  accepted : list nat;
  completed : list nat;
}.

#[export] Instance async_eta : Eta async_t := fun g =>
  mk_async (pd_copy g) (cd g) (copier g) (async_copy_stop g) (async_copy_initialized g) (async_copy_thread g)
    (item_status g) (accepted g) (completed g).

Definition async_copy_slot_reset (slot : slot_t) : slot_t := mk_slot None false (slot_context slot).

Definition clone_pipeline_contexts_to_slot (slot : slot_t) (item : nat) : slot_t := mk_slot (Some item) true (slot_context slot).

Definition move_async_slot_payload (dst src : slot_t) : slot_t := mk_slot (slot_item src) (slot_occupied src) (slot_context dst).

(** [submit_async_pipeline_item]: the copy slot first, then the slot of the thread. *)
Definition submit_async_pipeline_item (item : nat) (g : async_t) : bool * async_t :=
  if negb (async_copy_initialized g) then (false, g)
  else if negb (slot_occupied (pd_copy g)) then
    (true, g <| pd_copy := clone_pipeline_contexts_to_slot (pd_copy g) item |> <| accepted := item :: accepted g |>)
  else if negb (slot_occupied (cd g)) then
    (true, g <| cd := clone_pipeline_contexts_to_slot (cd g) item |> <| accepted := item :: accepted g |>)
  else (false, g).

(** [async_copy_map_worker_fn], cut where it takes and leaves the lock: it wakes up
    and takes a slot; it has copied and mapped with [status], which it stores; it
    resets the slot. *)
Definition copier_take (g : async_t) : async_t :=
  if async_copy_stop g then g <| copier := CopyStopped |>
  else
    let g :=
      if negb (slot_occupied (cd g)) && slot_occupied (pd_copy g)
      then g <| cd := move_async_slot_payload (cd g) (pd_copy g) |> <| pd_copy := async_copy_slot_reset (pd_copy g) |>
      else g in
    if negb (slot_occupied (cd g)) then g else g <| copier := CopyBusy |>.

Definition copier_write (status : NV_STATUS) (g : async_t) : async_t :=
  match slot_item (cd g) with
  | Some item => g <| item_status := <[item := status]> (item_status g) |> <| completed := item :: completed g |> <| copier := CopyWritten |>
  | None => g <| copier := CopyWritten |>
  end.

Definition copier_reset (g : async_t) : async_t := g <| cd := async_copy_slot_reset (cd g) |> <| copier := CopyIdle |>.

(** The next step of the thread; a waiting thread only goes on when it is woken for
    a reason. *)
Definition copier_step (status : NV_STATUS) (g : async_t) : async_t :=
  match copier g with
  | CopyIdle =>
      if async_copy_stop g || slot_occupied (cd g) || slot_occupied (pd_copy g) then copier_take g else g
  | CopyBusy => copier_write status g
  | CopyWritten => copier_reset g
  | CopyStopped => g
  end.

(** [flush_gpu_async_copy] finds the slots empty. *)
Definition flushed (g : async_t) : bool := negb (slot_occupied (pd_copy g)) && negb (slot_occupied (cd g)).

(** The steps of the system: a worker submits an item; a worker whose submit was
    accepted returns and stores the status of its servicing; the thread runs. *)
Inductive async_op : Type :=
| Submit (item : nat)
| WorkerReturns (item : nat)
| CopierRuns (status : NV_STATUS).

Definition async_step (op : async_op) (g : async_t) : async_t :=
  match op with
  | Submit item => (submit_async_pipeline_item item g).2
  | WorkerReturns item => g <| item_status := <[item := NV_OK]> (item_status g) |>
  | CopierRuns status => copier_step status g
  end.

Definition run_async (ops : list async_op) (g : async_t) : async_t := foldl (fun g op => async_step op g) g ops.

(** ** Set up and tear down *)

Definition empty_slot : slot_t := mk_slot None false false.

Definition async_none : async_t := mk_async empty_slot empty_slot CopyIdle false false false ∅ [] [].

(** [allocs] says which of the allocations succeed: the two contexts and the
    thread. *)
Definition uvm_gpu_async_copy_init (enabled : bool) (allocs : bool * bool * bool) (g : async_t) : NV_STATUS * async_t :=
  let '(pd_ok, cd_ok, thread_ok) := allocs in
  if async_copy_initialized g || negb enabled then (NV_OK, g)
  else
    let with_context slot b := mk_slot (slot_item slot) (slot_occupied slot) b in
    if negb pd_ok then (NV_ERR_NO_MEMORY, g <| pd_copy := with_context (pd_copy g) false |>)
    else if negb cd_ok then
      (NV_ERR_NO_MEMORY, g <| pd_copy := with_context (pd_copy g) false |> <| cd := with_context (cd g) false |>)
    else
      let g := g <| pd_copy := async_copy_slot_reset (with_context (pd_copy g) true) |>
                 <| cd := async_copy_slot_reset (with_context (cd g) true) |> <| async_copy_stop := false |> in
      if negb thread_ok then
        (NV_ERR_NO_MEMORY, g <| async_copy_thread := false |> <| pd_copy := with_context (pd_copy g) false |>
                             <| cd := with_context (cd g) false |>)
      else (NV_OK, g <| async_copy_thread := true |> <| async_copy_initialized := true |> <| copier := CopyIdle |>).

(** [uvm_gpu_async_copy_deinit]; [g] is the state after its flush, and [status] the
    status of the item the thread is working on when it is stopped. *)
Definition uvm_gpu_async_copy_deinit (status : NV_STATUS) (g : async_t) : async_t :=
  if negb (async_copy_initialized g) then g
  else
    let g := g <| async_copy_stop := true |> in
    let g := if async_copy_thread g then copier_step status (copier_step status (copier_step status g)) else g in
    g <| async_copy_thread := false |> <| pd_copy := empty_slot |> <| cd := empty_slot |>
      <| async_copy_initialized := false |> <| async_copy_stop := false |>.

(** ** Every accepted item is completed once *)

Definition slot_load (slot : slot_t) : list nat := if slot_occupied slot then option_list (slot_item slot) else [].

(** The item of [cd] until its status is stored. *)
Definition cd_load (g : async_t) : list nat :=
  match copier g with CopyWritten => [] | _ => slot_load (cd g) end.

Definition slot_ok (slot : slot_t) : Prop := slot_occupied slot = bool_decide (is_Some (slot_item slot)) /\ slot_context slot = true.

Record async_inv (g : async_t) : Prop := {
  as_pd : slot_ok (pd_copy g);
  as_cd : slot_ok (cd g);
  as_busy : copier g = CopyBusy \/ copier g = CopyWritten -> slot_occupied (cd g) = true;
  as_running : copier g <> CopyStopped /\ async_copy_stop g = false;
  as_init : async_copy_initialized g = true;
  as_items : accepted g ≡ₚ slot_load (pd_copy g) ++ cd_load g ++ completed g;
}.

Lemma slot_load_free slot : slot_occupied slot = false -> slot_load slot = [].
Proof. unfold slot_load. by intros ->. Qed.

Lemma slot_reset_ok slot : slot_ok slot -> slot_ok (async_copy_slot_reset slot).
Proof. by intros [_ H]. Qed.

Lemma slot_clone_ok slot item : slot_ok slot -> slot_ok (clone_pipeline_contexts_to_slot slot item).
Proof. by intros [_ H]. Qed.

Lemma slot_move_ok dst src : slot_ok dst -> slot_ok src -> slot_ok (move_async_slot_payload dst src).
Proof. by intros [_ H] [? _]. Qed.

#[local] Hint Resolve slot_reset_ok slot_clone_ok slot_move_ok : core.

Lemma submit_inv item g : async_inv g -> async_inv (submit_async_pipeline_item item g).2.
Proof.
  intros [Hpd Hcd Hb Hr Hin Hit]. unfold submit_async_pipeline_item. rewrite Hin. simpl.
  destruct (slot_occupied (pd_copy g)) eqn:Ep; [destruct (slot_occupied (cd g)) eqn:Ec|]; cbn; [by split|..].
  - assert (copier g <> CopyBusy /\ copier g <> CopyWritten) as [H1 H2] by (split; intros E; specialize (Hb ltac:(tauto)); congruence).
    split; cbn; auto. unfold cd_load in *. cbn in *. destruct (copier g); [|done..|].
    all: rewrite (slot_load_free _ Ec) in Hit; simpl in *; rewrite Hit; apply Permutation_middle.
  - split; cbn; auto. rewrite (slot_load_free _ Ep) in Hit. simpl in *. by apply Permutation_skip.
Qed.

Lemma copier_take_inv g : async_inv g -> copier g = CopyIdle -> slot_occupied (cd g) || slot_occupied (pd_copy g) = true ->
  async_inv (copier_take g) /\ copier (copier_take g) = CopyBusy /\
  (slot_occupied (pd_copy (copier_take g)) = slot_occupied (cd g) && slot_occupied (pd_copy g)).
Proof.
  intros [Hpd Hcd Hb [Hr1 Hr2] Hin Hit] Hi Hocc. unfold copier_take. rewrite Hr2. unfold cd_load in Hit. rewrite Hi in Hit.
  destruct (slot_occupied (cd g)) eqn:Ec; cbn.
  - rewrite Ec. cbn. split; [|done]. split; cbn; auto.
  - simpl in Hocc. rewrite Hocc. cbn. rewrite Hocc. cbn. split; [|done]. split; cbn; auto.
    rewrite (slot_load_free _ Ec) in Hit. unfold cd_load. cbn. unfold slot_load in *. cbn. by rewrite Hocc in *.
Qed.

Lemma copier_step_inv st g : async_inv g -> async_inv (copier_step st g).
Proof.
  intros Hi. pose proof Hi as [Hpd Hcd Hb [Hr1 Hr2] Hin Hit]. unfold copier_step. destruct (copier g) eqn:Ek.
  - rewrite Hr2. simpl. destruct (slot_occupied (cd g) || slot_occupied (pd_copy g)) eqn:E; [|done].
    by apply copier_take_inv.
  - specialize (Hb ltac:(by left)). destruct Hcd as [Ho Hc]. rewrite Hb in Ho. symmetry in Ho. apply bool_decide_eq_true in Ho as [i Ei].
    unfold copier_write. rewrite Ei. split; cbn; auto; [split; [|done]; by rewrite Hb, bool_decide_eq_true_2 by (by rewrite Ei; eexists)|].
    unfold cd_load, slot_load in *. cbn. rewrite Ek, Hb, Ei in Hit. simpl in *. exact Hit.
  - split; cbn; auto; [by intros []|]. unfold cd_load in *. cbn. rewrite Ek in Hit. exact Hit.
  - done.
Qed.

Lemma run_async_inv ops : forall g, async_inv g -> async_inv (run_async ops g).
Proof.
  induction ops as [|op ops IH]; intros g Hg; [done|]. apply IH. destruct op as [i|i|st]; simpl.
  - by apply submit_inv.
  - by destruct Hg.
  - by apply copier_step_inv.
Qed.

(** The GPU after a successful set up. *)
Definition async_ready : async_t := (uvm_gpu_async_copy_init true (true, true, true) async_none).2.

Lemma async_ready_inv : async_inv async_ready.
Proof. split; try done. by intros []. Qed.

(** C39: In every interleaving of submitting workers and the copy thread, a submit
    is refused exactly when both slots are taken; an accepted item is in a slot
    until the thread has stored its status, which happens once: the slot the thread
    works on is never given to another item.  A flush that finds both slots empty
    finds all accepted items completed. *)
Theorem pipeline_items_once ops :
  let g := run_async ops async_ready in
  (forall item, (submit_async_pipeline_item item g).1 = false <-> slot_occupied (pd_copy g) && slot_occupied (cd g) = true) /\
  accepted g ≡ₚ slot_load (pd_copy g) ++ cd_load g ++ completed g /\
  (flushed g = true -> accepted g ≡ₚ completed g).
Proof.
  intros g. assert (async_inv g) as [Hpd Hcd Hb Hr Hin Hit] by apply run_async_inv, async_ready_inv.
  split; [|split; [done|]].
  - intros item. unfold submit_async_pipeline_item. rewrite Hin. simpl.
    by destruct (slot_occupied (pd_copy g)), (slot_occupied (cd g)).
  - unfold flushed. intros [Ep%negb_true_iff Ec%negb_true_iff]%andb_true_iff. rewrite Hit.
    unfold cd_load. rewrite !slot_load_free by done. by destruct (copier g).
Qed.

(** ** The thread empties the slots *)

(** The steps the thread needs. *)
Definition copier_left (g : async_t) : nat :=
  3 * Nat.b2n (slot_occupied (pd_copy g)) +
  match copier g with
  | CopyIdle => 3 * Nat.b2n (slot_occupied (cd g))
  | CopyBusy => 2
  | CopyWritten => 1
  | CopyStopped => 0
  end.

Lemma copier_step_left st g : async_inv g -> copier_left (copier_step st g) = Nat.pred (copier_left g).
Proof.
  intros Hi. pose proof Hi as [Hpd Hcd Hb [Hr1 Hr2] Hin Hit]. unfold copier_step, copier_left at 2.
  destruct (copier g) eqn:Ek; [|unfold copier_write, copier_left; destruct (slot_item (cd g)); cbn; lia|unfold copier_left; cbn; lia|done].
  rewrite Hr2. cbn [orb]. destruct (slot_occupied (cd g) || slot_occupied (pd_copy g)) eqn:Eo.
  - destruct (copier_take_inv g Hi Ek Eo) as (_ & Hk & Hp). unfold copier_left. rewrite Hk, Hp.
    by destruct (slot_occupied (cd g)), (slot_occupied (pd_copy g)).
  - apply orb_false_iff in Eo as [E1 E2]. unfold copier_left. by rewrite Ek, E1, E2.
Qed.

Lemma copier_runs_left sts : forall g, async_inv g ->
  copier_left (run_async (CopierRuns <$> sts) g) = (copier_left g - length sts)%nat.
Proof.
  induction sts as [|st sts IH]; intros g Hg; [simpl; lia|].
  change (run_async (CopierRuns <$> st :: sts) g) with (run_async (CopierRuns <$> sts) (copier_step st g)).
  rewrite IH by (by apply copier_step_inv). rewrite copier_step_left by done. simpl. lia.
Qed.

(** Whatever the workers have done, and whether or not the blocks can be
    copied and mapped, six steps of the copy thread empty both slots: a flush ends,
    and the thread goes back to waiting. *)
Theorem pipeline_drains ops sts : length sts = 6%nat ->
  let g := run_async (CopierRuns <$> sts) (run_async ops async_ready) in
  flushed g = true /\ copier g = CopyIdle.
Proof.
  intros Hl g. assert (async_inv (run_async ops async_ready)) as Hi by apply run_async_inv, async_ready_inv.
  assert (async_inv g) as [_ _ Hb [Hr _] _ _] by (by apply run_async_inv).
  assert (copier_left g = 0%nat) as H0.
  { subst g. rewrite copier_runs_left, Hl by done. unfold copier_left. set (g0 := run_async ops async_ready).
    destruct (slot_occupied (pd_copy g0)), (slot_occupied (cd g0)), (copier g0); done. }
  unfold copier_left in H0. unfold flushed.
  destruct (copier g); [|lia|lia|done]. destruct (slot_occupied (pd_copy g)), (slot_occupied (cd g)); simpl in H0; by try lia.
Qed.

(** ** Set up and tear down keep no memory *)

Definition contexts (g : async_t) : nat := Nat.b2n (slot_context (pd_copy g)) + Nat.b2n (slot_context (cd g)).

(** A set up that fails leaves no context and no thread; a tear down neither. *)
Lemma async_init_clean enabled allocs :
  let '(st, g) := uvm_gpu_async_copy_init enabled allocs async_none in
  (st <> NV_OK -> contexts g = 0%nat /\ async_copy_thread g = false /\ async_copy_initialized g = false) /\
  (st = NV_OK -> contexts g = if enabled then 2%nat else 0%nat).
Proof. destruct enabled, allocs as [[[] []] []]; by vm_compute. Qed.

Lemma async_deinit_clean ops st :
  let g := uvm_gpu_async_copy_deinit st (run_async ops async_ready) in
  contexts g = 0%nat /\ async_copy_thread g = false /\ async_copy_initialized g = false /\ async_copy_stop g = false.
Proof.
  intros g. assert (async_inv (run_async ops async_ready)) as [_ _ _ _ Hin _] by apply run_async_inv, async_ready_inv.
  subst g. unfold uvm_gpu_async_copy_deinit. by rewrite Hin.
Qed.

(** *** Runs *)

Definition full_ops : list async_op := [Submit 1; CopierRuns NV_OK; Submit 2; WorkerReturns 1; Submit 3].

Lemma pipeline_drains_witness :
  let g := run_async full_ops async_ready in
  (submit_async_pipeline_item 4 g).1 = false /\
  flushed (run_async (CopierRuns <$> replicate 6 NV_OK) g) = true.
Proof.
  split; [reflexivity|]. exact (proj1 (pipeline_drains full_ops (replicate 6 NV_OK) eq_refl)).
Defined.

(** The worker that submitted an item returns and stores [NV_OK] after the thread
    has stored an error: the error is lost. *)
Lemma async_error_lost :
  let fail := CopierRuns NV_ERR_NO_MEMORY in
  item_status (run_async [Submit 1; fail; fail] async_ready) !! 1%nat = Some NV_ERR_NO_MEMORY /\
  item_status (run_async [Submit 1; fail; fail; WorkerReturns 1] async_ready) !! 1%nat = Some NV_OK.
Proof. by vm_compute. Qed.
