(* ===== verification/Pushbuffer.v ===== *)
(** * Pushbuffers

    The memory in which the commands of a push are written ([uvm_pushbuffer.c],
    [uvm_pushbuffer.h]).  It is cut into chunks; a chunk has at most one on-going
    push and a list of the pushes that the GPU may still read, which complete in any
    order.  Pointers to chunks are their indices, pointers to GPFIFO entries are the
    pair of a channel and an index; the entries themselves belong to the channels,
    so the operations take the function [ent] that reads them.  Each operation is
    one section under the lock of the pushbuffer. *)

From stdpp Require Import gmap sorting.
From S2P Require Import Prelude FaultTypes.

Local Open Scope Z_scope.

(** ** Data *)

Definition UVM_MAX_PUSH_SIZE : Z := 128 * 1024.
Definition UVM_PUSHBUFFER_CHUNK_SIZE : Z := 8 * UVM_MAX_PUSH_SIZE.
Definition UVM_PUSHBUFFER_CHUNKS : nat := 16.
Definition UVM_PUSHBUFFER_SIZE : Z := UVM_PUSHBUFFER_CHUNK_SIZE * Z.of_nat UVM_PUSHBUFFER_CHUNKS.

Inductive uvm_gpfifo_entry_type_t : Type :=
| UVM_GPFIFO_ENTRY_TYPE_NORMAL
| UVM_GPFIFO_ENTRY_TYPE_CONTROL.

#[export] Instance gpfifo_type_eq_dec : EqDecision uvm_gpfifo_entry_type_t.
Proof. solve_decision. Defined.

(** A GPFIFO entry; offset and size share their storage with the control value, and
    each type of entry only reads its own. *)
Record uvm_gpfifo_entry_t : Type := mk_gpfifo {
  gp_type : uvm_gpfifo_entry_type_t;
  tracking_semaphore_value : Z;
  pushbuffer_offset : Z;
  pushbuffer_size : Z;
  control_value : Z;
  gp_push_info : nat;
}.

Definition zero_gpfifo : uvm_gpfifo_entry_t := mk_gpfifo UVM_GPFIFO_ENTRY_TYPE_NORMAL 0 0 0 0 0.

Abbreviation gpfifo_id := (nat * nat)%type.

Record uvm_pushbuffer_chunk_t : Type := mk_chunk {
  next_push_start : Z;
  pending_gpfifos : list gpfifo_id;
  current_push : option nat;
}.

#[export] Instance chunk_eta : Eta uvm_pushbuffer_chunk_t := fun c =>
  mk_chunk (next_push_start c) (pending_gpfifos c) (current_push c).

Record uvm_pushbuffer_t : Type := mk_pushbuffer {
  chunks : list uvm_pushbuffer_chunk_t;
  available_chunks : gset nat;
  idle_chunks : gset nat;
  concurrent_pushes_sema : Z;
}.

#[export] Instance pushbuffer_eta : Eta uvm_pushbuffer_t := fun pb =>
  mk_pushbuffer (chunks pb) (available_chunks pb) (idle_chunks pb) (concurrent_pushes_sema pb).

Definition empty_chunk : uvm_pushbuffer_chunk_t := mk_chunk 0 [] None.

(** The state that [uvm_pushbuffer_create] leaves, once its memory is allocated. *)
Definition uvm_pushbuffer_create : uvm_pushbuffer_t :=
  mk_pushbuffer (replicate UVM_PUSHBUFFER_CHUNKS empty_chunk)
    (set_seq 0 UVM_PUSHBUFFER_CHUNKS) (set_seq 0 UVM_PUSHBUFFER_CHUNKS) (Z.of_nat UVM_PUSHBUFFER_CHUNKS).

Definition chunk_at (pb : uvm_pushbuffer_t) (i : nat) : uvm_pushbuffer_chunk_t := default empty_chunk (chunks pb !! i).

(** A store to a field of a chunk. *)
Definition on_chunk (i : nat) (f : uvm_pushbuffer_chunk_t -> uvm_pushbuffer_chunk_t) (pb : uvm_pushbuffer_t) : uvm_pushbuffer_t :=
  pb <| chunks := <[i := f (chunk_at pb i)]> (chunks pb) |>.

(** ** Picking a chunk *)

(** [find_first_bit]; the result [UVM_PUSHBUFFER_CHUNKS] is no chunk. *)
Definition get_chunk_in_mask (mask : gset nat) : option nat :=
  head (filter (fun i => i ∈ mask) (seq 0 UVM_PUSHBUFFER_CHUNKS)).

Definition pick_chunk (pb : uvm_pushbuffer_t) : option nat :=
  match get_chunk_in_mask (idle_chunks pb) with
  | Some i => Some i
  | None => get_chunk_in_mask (available_chunks pb)
  end.

Definition uvm_pushbuffer_has_space (pb : uvm_pushbuffer_t) : bool := if pick_chunk pb is Some _ then true else false.

Definition try_claim_chunk (push : nat) (pb : uvm_pushbuffer_t) : option nat * uvm_pushbuffer_t :=
  match pick_chunk pb with
  | None => (None, pb)
  | Some i =>
      let pb := on_chunk i (fun c => c <| current_push := Some push |>) pb in
      (Some i, pb <| idle_chunks := idle_chunks pb ∖ {[ i ]} |> <| available_chunks := available_chunks pb ∖ {[ i ]} |>)
  end.

Definition chunk_get_offset (i : nat) : Z := u32 (Z.of_nat i * UVM_PUSHBUFFER_CHUNK_SIZE).

(** The address of the next push of a chunk, for a pushbuffer at the CPU address
    [base]. *)
Definition chunk_get_next_push_start_addr (base : Z) (pb : uvm_pushbuffer_t) (i : nat) : Z :=
  base + chunk_get_offset i + next_push_start (chunk_at pb i).

(** What claiming a chunk uses of the rest of the driver: where the pushbuffer and the
    GPFIFO entries are, the check for channel errors and the progress of all channels. *)
Class PushbufferWorld (W : Type) : Type := {
  w_pushbuffer : W -> uvm_pushbuffer_t;
  w_set_pushbuffer : uvm_pushbuffer_t -> W -> W;
  w_gpfifo : W -> gpfifo_id -> uvm_gpfifo_entry_t;
  w_check_errors : W -> NV_STATUS * W;
  w_update_progress : W -> W;
}.

Section Claim.
Context {W : Type} `{PushbufferWorld W}.

Definition w_try_claim (push : nat) (w : W) : option nat * W :=
  let '(chunk, pb) := try_claim_chunk push (w_pushbuffer w) in (chunk, w_set_pushbuffer pb w).

(** The loop of [claim_chunk]: each round tries and otherwise spins, checks for errors
    and lets the channels progress.  A round is what the GPU and the other threads do
    in the spin; when the rounds run out the thread still spins. *)
Fixpoint claim_loop (rounds : list (W -> W)) (status : NV_STATUS) (push : nat) (w : W) : option ((NV_STATUS * option nat) * W) :=
  let '(chunk, w) := w_try_claim push w in
  match chunk with
  | Some i => Some ((status, Some i), w)
  | None =>
      if is_ok status then
        match rounds with
        | [] => None
        | spin :: rounds => let '(st, w) := w_check_errors (spin w) in claim_loop rounds st push (w_update_progress w)
        end
      else Some ((status, None), w)
  end.

Definition claim_chunk (rounds : list (W -> W)) (push : nat) (w : W) : option ((NV_STATUS * option nat) * W) :=
  let '(chunk, w) := w_try_claim push w in
  match chunk with
  | Some i => Some ((NV_OK, Some i), w)
  | None => claim_loop rounds NV_OK push (w_update_progress w)
  end.

Definition w_sema (f : Z -> Z) (w : W) : W := w_set_pushbuffer ((w_pushbuffer w) <| concurrent_pushes_sema ::= f |>) w.

(** [uvm_pushbuffer_begin_push]: the result is the status and the address of the
    push.  A push of a WLC channel uses memory of its own; otherwise the thread first
    waits for the semaphore: the world is the one in which it is positive. *)
Definition uvm_pushbuffer_begin_push (base : Z) (wlc_pb : option Z) (rounds : list (W -> W)) (push : nat) (w : W)
    : option ((NV_STATUS * option Z) * W) :=
  match wlc_pb with
  | Some static_pb => Some ((NV_OK, Some (UVM_ALIGN_UP static_pb PAGE_SIZE)), w)
  | None =>
      match claim_chunk rounds push (w_sema Z.pred w) with
      | None => None
      | Some ((status, chunk), w) =>
          if is_ok status then Some ((NV_OK, chunk_get_next_push_start_addr base (w_pushbuffer w) <$> chunk), w)
          else Some ((status, None), w_sema Z.succ w)
      end
  end.

End Claim.

(** [uvm_pushbuffer_get_offset_for_push] *)
Definition uvm_pushbuffer_get_offset_for_push (base : Z) (is_wlc : bool) (push_begin : Z) : Z :=
  if is_wlc then 0 else u32 (push_begin - base).

(** ** The state of a chunk *)

Section Chunks.
Context (ent : gpfifo_id -> uvm_gpfifo_entry_t).

Definition chunk_get_cpu_put (pb : uvm_pushbuffer_t) (i : nat) : Z :=
  match last (pending_gpfifos (chunk_at pb i)) with
  | Some g => u32 (pushbuffer_offset (ent g) + pushbuffer_size (ent g) - chunk_get_offset i)
  | None => 0
  end.

Definition chunk_get_gpu_get (pb : uvm_pushbuffer_t) (i : nat) : Z :=
  match head (pending_gpfifos (chunk_at pb i)) with
  | Some g => u32 (pushbuffer_offset (ent g) - chunk_get_offset i)
  | None => 0
  end.

(** [set_chunk] on the bitmap of available chunks, with the start of the next push. *)
Definition make_available (i : nat) (start : Z) (pb : uvm_pushbuffer_t) : uvm_pushbuffer_t :=
  on_chunk i (fun c => c <| next_push_start := start |>) (pb <| available_chunks := available_chunks pb ∪ {[ i ]} |>).

Definition update_chunk (i : nat) (pb : uvm_pushbuffer_t) : uvm_pushbuffer_t :=
  let gpu_get := chunk_get_gpu_get pb i in
  let cpu_put := chunk_get_cpu_put pb i in
  if gpu_get =? cpu_put then
    match pending_gpfifos (chunk_at pb i) with
    | _ :: _ => pb
    | [] => make_available i 0 (pb <| idle_chunks := idle_chunks pb ∪ {[ i ]} |>)
    end
  else if cpu_put <? gpu_get then
    if UVM_MAX_PUSH_SIZE <=? u32 (gpu_get - cpu_put) then make_available i cpu_put pb else pb
  else if u32 (cpu_put + UVM_MAX_PUSH_SIZE) <=? UVM_PUSHBUFFER_CHUNK_SIZE then make_available i cpu_put pb
  else if UVM_MAX_PUSH_SIZE <=? gpu_get then make_available i 0 pb
  else pb.

Definition offset_to_chunk (offset : Z) : nat := Z.to_nat (offset / UVM_PUSHBUFFER_CHUNK_SIZE).

Definition gpfifo_to_chunk (g : gpfifo_id) : nat := offset_to_chunk (pushbuffer_offset (ent g)).

(** The part of [uvm_pushbuffer_mark_completed] under the lock. *)
Definition remove_pending (g : gpfifo_id) (pb : uvm_pushbuffer_t) : uvm_pushbuffer_t :=
  let i := gpfifo_to_chunk g in
  let chunk := chunk_at pb i in
  let need_to_update_chunk :=
    bool_decide (head (pending_gpfifos chunk) = Some g) || bool_decide (last (pending_gpfifos chunk) = Some g) in
  let pb := on_chunk i (fun c => c <| pending_gpfifos ::= filter (fun g' => g' <> g) |>) pb in
  if need_to_update_chunk && bool_decide (current_push chunk = None) then update_chunk i pb else pb.

(** [uvm_pushbuffer_end_push]; it assumes that the push is the current one. *)
Definition uvm_pushbuffer_end_push (is_wlc : bool) (g : gpfifo_id) (pb : uvm_pushbuffer_t) : uvm_pushbuffer_t :=
  if is_wlc then pb
  else
    let i := gpfifo_to_chunk g in
    let pb := on_chunk i (fun c => c <| pending_gpfifos ::= (fun l => l ++ [g]) |>) pb in
    let pb := update_chunk i pb in
    let pb := on_chunk i (fun c => c <| current_push := None |>) pb in
    pb <| concurrent_pushes_sema ::= Z.succ |>.

End Chunks.

(** ** Spans

    A span is the part of a chunk that a push uses.  In a chunk the pending spans
    follow each other upwards, and may start over once at the beginning: [ring_ok]. *)

Definition span_ok (a : Z * Z) : Prop := 0 <= a.1 < a.2 /\ a.2 <= UVM_PUSHBUFFER_CHUNK_SIZE /\ (4 | a.1) /\ (4 | a.2).

Definition before (a b : Z * Z) : Prop := a.2 <= b.1.

Definition ring_ok (l : list (Z * Z)) : Prop :=
  Forall span_ok l /\
  exists l1 l2, l = l1 ++ l2 /\ StronglySorted before l1 /\ StronglySorted before l2 /\ (forall a b, a ∈ l1 -> b ∈ l2 -> before b a).

(** A push of the greatest size. *)
Definition full_span (start : Z) : Z * Z := (start, start + UVM_MAX_PUSH_SIZE).

Lemma sorted_sublist (l l' : list (Z * Z)) : l `sublist_of` l' -> StronglySorted before l' -> StronglySorted before l.
Proof.
  induction 1 as [|x l l' Hs IH|x l l' Hs IH]; intros Hl; [done|..]; apply StronglySorted_inv in Hl as [Hl Hx].
  - constructor; [by apply IH|]. rewrite Forall_forall in *. intros y Hy. apply Hx. by apply (sublist_subseteq l).
  - by apply IH.
Qed.

Lemma ring_sublist l l' : l `sublist_of` l' -> ring_ok l' -> ring_ok l.
Proof.
  intros Hs (Hf & l1 & l2 & -> & H1 & H2 & H12). split.
  - rewrite Forall_forall in *. intros x Hx. apply Hf. by apply (sublist_subseteq l).
  - apply sublist_app_r in Hs as (k1 & k2 & -> & Hk1 & Hk2). exists k1, k2. split; [done|].
    split; [by apply (sorted_sublist _ l1)|]. split; [by apply (sorted_sublist _ l2)|].
    intros a b Ha Hb. apply H12; by eapply sublist_subseteq.
Qed.

Lemma sorted_lookup l i j a b : StronglySorted before l -> l !! i = Some a -> l !! j = Some b -> (i < j)%nat -> before a b.
Proof.
  intros Hl. revert i j. induction Hl as [|x l Hl IH Hx]; intros i j Hi Hj Hij; [done|].
  destruct j as [|j]; [lia|]. destruct i as [|i]; simpl in *.
  - injection Hi as ->. rewrite Forall_forall in Hx. apply Hx. by apply list_elem_of_lookup_2 in Hj.
  - apply (IH i j); [done|done|lia].
Qed.

(** Two pending pushes use different memory. *)
Lemma ring_disjoint l i j a b : ring_ok l -> l !! i = Some a -> l !! j = Some b -> (i < j)%nat -> before a b \/ before b a.
Proof.
  intros (_ & l1 & l2 & -> & H1 & H2 & H12) Hi Hj Hij. rewrite lookup_app_Some in Hi, Hj.
  destruct Hi as [Hi|[Hi1 Hi]], Hj as [Hj|[Hj1 Hj]].
  - left. by apply (sorted_lookup l1 i j).
  - right. apply H12; by eapply list_elem_of_lookup_2.
  - apply lookup_lt_Some in Hj. lia.
  - left. apply (sorted_lookup l2 _ _ _ _ H2 Hi Hj). lia.
Qed.

Lemma sorted_snoc l a : StronglySorted before (l ++ [a]) <-> StronglySorted before l /\ forall b, b ∈ l -> before b a.
Proof.
  induction l as [|x l IH]; simpl.
  - split; [intros _; split; [constructor|by intros b ?%elem_of_nil]|intros _; by repeat constructor].
  - split.
    + intros [Hl Hx]%StronglySorted_inv. apply IH in Hl as [Hl Ha]. apply Forall_app in Hx as [Hx Hxa].
      split; [by constructor|]. intros b [->|Hb]%elem_of_cons; [by inversion Hxa|by apply Ha].
    + intros [[Hl Hx]%StronglySorted_inv Ha]. constructor.
      * apply IH. split; [done|]. intros b Hb. apply Ha. by right.
      * apply Forall_app. split; [done|]. repeat constructor. apply Ha. by left.
Qed.

(** Where a span can be added. *)
Lemma ring_snoc l a : ring_ok (l ++ [a]) <->
  span_ok a /\ Forall span_ok l /\
  exists l1 l2, l = l1 ++ l2 /\ StronglySorted before l1 /\ StronglySorted before l2 /\ (forall b c, b ∈ l1 -> c ∈ l2 -> before c b) /\
    ((l2 = [] /\ forall b, b ∈ l1 -> before b a) \/ ((forall b, b ∈ l2 -> before b a) /\ forall b, b ∈ l1 -> before a b)).
Proof.
  split.
  - intros (Hf & m1 & m2 & E & H1 & H2 & H12). apply Forall_app in Hf as [Hf Ha]. split; [by inversion Ha|]. split; [done|].
    destruct m2 as [|x m2 _] using rev_ind.
    + rewrite app_nil_r in E. subst m1. apply sorted_snoc in H1 as [H1 Hb]. exists l, []. rewrite app_nil_r.
      split; [done|]. split; [done|]. split; [constructor|]. split; [by intros b c _ ?%elem_of_nil|]. by left.
    + rewrite app_assoc in E. apply app_inj_tail in E as [-> <-]. apply sorted_snoc in H2 as [H2 Hb]. exists m1, m2.
      split; [done|]. split; [done|]. split; [done|]. split.
      * intros b c Hb' Hc. apply H12; [done|]. apply elem_of_app. by left.
      * right. split; [done|]. intros b Hb'. apply H12; [done|]. apply elem_of_app. right. by apply list_elem_of_singleton.
  - intros (Ha & Hf & l1 & l2 & -> & H1 & H2 & H12 & Hcase). split; [apply Forall_app; split; [done|by apply Forall_singleton]|].
    destruct Hcase as [[-> Hb]|[Hb Hb']].
    + exists (l1 ++ [a]), []. rewrite !app_nil_r. split; [done|]. split; [by apply sorted_snoc|]. split; [constructor|].
      by intros b c _ ?%elem_of_nil.
    + exists l1, (l2 ++ [a]). rewrite app_assoc. split; [done|]. split; [done|]. split; [by apply sorted_snoc|].
      intros b c Hbl [Hc|Hc]%elem_of_app; [by apply H12|]. apply list_elem_of_singleton in Hc as ->. by apply Hb'.
Qed.

Lemma ring_shrink l start size : ring_ok (l ++ [full_span start]) -> 0 < size <= UVM_MAX_PUSH_SIZE -> (4 | size) ->
  ring_ok (l ++ [(start, start + size)]).
Proof.
  intros (Hok & Hf & l1 & l2 & E & H1 & H2 & H12 & Hcase)%ring_snoc Hsize H4. apply ring_snoc.
  destruct Hok as (Hs & He & Hd & _). unfold full_span in *. cbn [fst snd] in *. split.
  - split; cbn [fst snd]; [lia|]. split; [lia|]. split; [done|by apply Z.divide_add_r].
  - split; [done|]. exists l1, l2. do 4 (split; [done|]). destruct Hcase as [[-> Hb]|[Hb Hb']]; [by left|right].
    split; [done|]. intros b Hbl. specialize (Hb' b Hbl). unfold before in *. cbn [fst snd] in *. lia.
Qed.

(** The test of [update_chunk] on the start of the first and the end of the last
    pending push. *)
Definition room (gpu_get cpu_put : Z) : option Z :=
  if gpu_get =? cpu_put then None
  else if cpu_put <? gpu_get then if UVM_MAX_PUSH_SIZE <=? gpu_get - cpu_put then Some cpu_put else None
  else if cpu_put + UVM_MAX_PUSH_SIZE <=? UVM_PUSHBUFFER_CHUNK_SIZE then Some cpu_put
  else if UVM_MAX_PUSH_SIZE <=? gpu_get then Some 0
  else None.

Lemma full_span_ok start : 0 <= start -> start + UVM_MAX_PUSH_SIZE <= UVM_PUSHBUFFER_CHUNK_SIZE -> (4 | start) -> span_ok (full_span start).
Proof.
  intros Hs He Hd. unfold full_span. split; cbn [fst snd]; [unfold UVM_MAX_PUSH_SIZE; lia|]. split; [done|]. split; [done|].
  apply Z.divide_add_r; [done|]. by exists 32768.
Qed.

(** In an upward list the first span starts first and the last one ends last. *)
Lemma sorted_head l a b : StronglySorted before l -> Forall span_ok l -> head l = Some a -> b ∈ l -> a.1 <= b.1.
Proof.
  destruct l as [|x l]; [done|]. intros [_ Hx]%StronglySorted_inv Hf [= ->] [->|Hb]%elem_of_cons; [done|].
  apply Forall_cons in Hf as [Ha _]. rewrite Forall_forall in Hx. specialize (Hx b Hb). destruct Ha as [Ha _]. unfold before in Hx. lia.
Qed.

Lemma sorted_last l a b : StronglySorted before l -> Forall span_ok l -> last l = Some a -> b ∈ l -> b.2 <= a.2.
Proof.
  destruct l as [|x l _] using rev_ind; [done|]. rewrite last_snoc. intros [_ Hx]%sorted_snoc Hf [= ->].
  apply Forall_app in Hf as [_ [Ha _]%Forall_cons]. intros [Hb|Hb%list_elem_of_singleton]%elem_of_app; [|by subst].
  specialize (Hx b Hb). destruct Ha as [Ha _]. unfold before in Hx. lia.
Qed.

Lemma head_elem {A} (l : list A) a : head l = Some a -> a ∈ l.
Proof. destruct l; [done|]. intros [= ->]. by left. Qed.

Lemma last_elem {A} (l : list A) a : last l = Some a -> a ∈ l.
Proof. intros [l' ->]%last_Some. apply elem_of_app. right. by left. Qed.

Lemma head_map {A B} (f : A -> B) l : head (f <$> l) = f <$> head l.
Proof. by destruct l. Qed.

(** The first and the last span of a ring, by how it is cut. *)
Lemma ring_ends l1 l2 a b : StronglySorted before l1 -> StronglySorted before l2 -> (forall a b, a ∈ l1 -> b ∈ l2 -> before b a) ->
  Forall span_ok (l1 ++ l2) -> head (l1 ++ l2) = Some a -> last (l1 ++ l2) = Some b ->
  (l1 = [] \/ l2 = []) /\ a.1 < b.2 \/
  l1 <> [] /\ l2 <> [] /\ b.2 <= a.1 /\ (forall c, c ∈ l1 -> a.1 <= c.1) /\ (forall c, c ∈ l2 -> c.2 <= b.2).
Proof.
  intros H1 H2 H12 Hf Ha Hb. pose proof (proj1 (Forall_forall _ _) Hf) as Hok.
  assert (forall l, StronglySorted before l -> Forall span_ok l -> head l = Some a -> last l = Some b -> a.1 < b.2) as Hup.
  { intros l Hl Hfl Hal Hbl. pose proof (sorted_head l a b Hl Hfl Hal (last_elem _ _ Hbl)).
    pose proof (proj1 (Forall_forall _ _) Hfl b (last_elem _ _ Hbl)) as [? _]. lia. }
  destruct l1 as [|x l1]; [left; split; [by left|]; by apply (Hup l2)|].
  destruct l2 as [|y l2 _] using rev_ind; [rewrite app_nil_r in *; left; split; [by right|]; by apply (Hup (x :: l1))|].
  right. apply Forall_app in Hf as [Hf1 Hf2]. split; [done|]. split; [by destruct l2|].
  simpl in Ha. injection Ha as ->. rewrite app_assoc, last_snoc in Hb. injection Hb as ->. split.
  - apply H12; [by left|]. apply elem_of_app. right. by left.
  - split; intros c Hc; [by apply (sorted_head (a :: l1) a)|]. apply (sorted_last (l2 ++ [b]) b); [done|done|by rewrite last_snoc|done].
Qed.

Lemma room_sound l a b start : ring_ok l -> head l = Some a -> last l = Some b -> room a.1 b.2 = Some start -> ring_ok (l ++ [full_span start]).
Proof.
  intros (Hf & l1 & l2 & -> & H1 & H2 & H12) Ha Hb Hr. pose proof (proj1 (Forall_forall _ _) Hf) as Hok.
  destruct (Hok a (head_elem _ _ Ha)) as (Ha1 & Ha2 & Ha3 & Ha4), (Hok b (last_elem _ _ Hb)) as (Hb1 & Hb2 & Hb3 & Hb4).
  destruct (ring_ends l1 l2 a b H1 H2 H12 Hf Ha Hb) as [[Hcut Hup]|(Hn1 & Hn2 & Hdown & Hl1 & Hl2)];
    unfold room in Hr; apply ring_snoc.
  - assert (StronglySorted before (l1 ++ l2)) as Hs by (destruct Hcut as [-> | ->]; [done|by rewrite app_nil_r]).
    destruct (Z.eqb_spec a.1 b.2); [lia|]. destruct (Z.ltb_spec b.2 a.1); [lia|].
    destruct (Z.leb_spec (b.2 + UVM_MAX_PUSH_SIZE) UVM_PUSHBUFFER_CHUNK_SIZE).
    + injection Hr as <-. split; [by apply full_span_ok; [lia|..]|]. split; [done|]. exists (l1 ++ l2), []. rewrite app_nil_r.
      split; [done|]. split; [done|]. split; [constructor|]. split; [by intros ? ? _ ?%elem_of_nil|]. left. split; [done|].
      intros c Hc. apply (sorted_last _ b c Hs Hf Hb Hc).
    + destruct (Z.leb_spec UVM_MAX_PUSH_SIZE a.1); [|done]. injection Hr as <-.
      split; [apply full_span_ok; [lia|by unfold UVM_MAX_PUSH_SIZE, UVM_PUSHBUFFER_CHUNK_SIZE|by exists 0]|]. split; [done|].
      exists (l1 ++ l2), []. rewrite app_nil_r. split; [done|]. split; [done|]. split; [constructor|]. split; [by intros ? ? _ ?%elem_of_nil|].
      right. split; [by intros c ?%elem_of_nil|]. intros c Hc. pose proof (sorted_head _ a c Hs Hf Ha Hc). unfold before, full_span; cbn [fst snd]. lia.
  - destruct (Z.eqb_spec a.1 b.2); [done|]. destruct (Z.ltb_spec b.2 a.1); [|lia].
    destruct (Z.leb_spec UVM_MAX_PUSH_SIZE (a.1 - b.2)); [|done]. injection Hr as <-.
    split; [apply full_span_ok; [lia|lia|done]|]. split; [done|]. exists l1, l2. do 4 (split; [done|]). right.
    split; intros c Hc; unfold before, full_span; cbn [fst snd]; [by apply Hl2|]. specialize (Hl1 c Hc). lia.
Qed.

Lemma room_complete l a b p : ring_ok (l ++ [full_span p]) -> head l = Some a -> last l = Some b -> is_Some (room a.1 b.2).
Proof.
  intros (Hp & Hf & l1 & l2 & -> & H1 & H2 & H12 & Hcase)%ring_snoc Ha Hb. pose proof (proj1 (Forall_forall _ _) Hf) as Hok.
  destruct (Hok a (head_elem _ _ Ha)) as [Ha1 _], (Hok b (last_elem _ _ Hb)) as [Hb1 _]. destruct Hp as (Hp1 & Hp2 & _).
  unfold full_span, before in *. cbn [fst snd] in *. unfold room.
  destruct (ring_ends l1 l2 a b H1 H2 H12 Hf Ha Hb) as [[Hcut Hup]|(Hn1 & Hn2 & Hdown & Hl1 & Hl2)].
  - destruct (Z.eqb_spec a.1 b.2); [lia|]. destruct (Z.ltb_spec b.2 a.1); [lia|]. destruct (Z.leb_spec (b.2 + UVM_MAX_PUSH_SIZE) UVM_PUSHBUFFER_CHUNK_SIZE) as [|Hgt]; [done|].
    destruct (Z.leb_spec UVM_MAX_PUSH_SIZE a.1) as [|Hlt]; [done|]. exfalso.
    assert (b.2 <= p \/ UVM_MAX_PUSH_SIZE <= a.1); [|lia].
    destruct Hcase as [[-> Hbef]|[Hbef Haft]]; [left; apply Hbef; rewrite app_nil_r in Hb; by apply last_elem|].
    destruct Hcut as [-> | ->]; [left; by apply Hbef, last_elem|]. right. rewrite app_nil_r in Ha.
    specialize (Haft a (head_elem _ _ Ha)). lia.
  - destruct Hcase as [[-> _]|[Hbef Haft]]; [done|]. destruct l1 as [|x l1]; [done|]. simpl in Ha. injection Ha as ->.
    destruct l2 as [|y l2 _] using rev_ind; [done|]. rewrite app_assoc, last_snoc in Hb. injection Hb as ->.
    specialize (Haft a ltac:(by left)). specialize (Hbef b ltac:(apply elem_of_app; right; by left)).
    unfold UVM_MAX_PUSH_SIZE in *. destruct (Z.eqb_spec a.1 b.2); [lia|]. destruct (Z.ltb_spec b.2 a.1); [|lia].
    destruct (Z.leb_spec (128 * 1024) (a.1 - b.2)); [done|lia].
Qed.

(** ** The invariant *)

Section Invariant.
Context (ent : gpfifo_id -> uvm_gpfifo_entry_t).

(** The span of an entry in the chunk [i]. *)
Definition span_of (i : nat) (g : gpfifo_id) : Z * Z :=
  (pushbuffer_offset (ent g) - chunk_get_offset i, pushbuffer_offset (ent g) + pushbuffer_size (ent g) - chunk_get_offset i).

Definition spans (pb : uvm_pushbuffer_t) (i : nat) : list (Z * Z) := span_of i <$> pending_gpfifos (chunk_at pb i).

(** The pending pushes form a ring.  A chunk with an on-going push has room for it
    and is in no bitmap; otherwise the bitmaps tell whether the chunk is empty and
    whether a push of the greatest size fits, which it does at [next_push_start]. *)
Record chunk_ok (pb : uvm_pushbuffer_t) (i : nat) : Prop := {
  chunk_nodup : NoDup (pending_gpfifos (chunk_at pb i));
  chunk_ring : ring_ok (spans pb i);
  chunk_claimed : current_push (chunk_at pb i) <> None ->
    (i ∉ available_chunks pb) /\ (i ∉ idle_chunks pb) /\ ring_ok (spans pb i ++ [full_span (next_push_start (chunk_at pb i))]);
  chunk_unclaimed : current_push (chunk_at pb i) = None ->
    ((i ∈ idle_chunks pb) <-> pending_gpfifos (chunk_at pb i) = []) /\
    ((i ∈ available_chunks pb) <-> (exists p, ring_ok (spans pb i ++ [full_span p]))) /\
    (i ∈ available_chunks pb -> ring_ok (spans pb i ++ [full_span (next_push_start (chunk_at pb i))]));
}.

Record pb_ok (pb : uvm_pushbuffer_t) : Prop := {
  pb_length : length (chunks pb) = UVM_PUSHBUFFER_CHUNKS;
  pb_chunks : forall i, (i < UVM_PUSHBUFFER_CHUNKS)%nat -> chunk_ok pb i;
}.

Lemma chunk_offset i : (i < UVM_PUSHBUFFER_CHUNKS)%nat -> chunk_get_offset i = Z.of_nat i * UVM_PUSHBUFFER_CHUNK_SIZE.
Proof.
  unfold chunk_get_offset, UVM_PUSHBUFFER_CHUNK_SIZE, UVM_MAX_PUSH_SIZE, UVM_PUSHBUFFER_CHUNKS. intros Hi. apply wrap_id. unfold in_width. lia.
Qed.

(** An entry with a span in the chunk is found in that chunk. *)
Lemma span_chunk i g : (i < UVM_PUSHBUFFER_CHUNKS)%nat -> span_ok (span_of i g) -> gpfifo_to_chunk ent g = i.
Proof.
  intros Hi (Hs & He & _). unfold span_of in *. cbn [fst snd] in *. rewrite chunk_offset in * by done.
  unfold gpfifo_to_chunk, offset_to_chunk. unfold UVM_PUSHBUFFER_CHUNK_SIZE, UVM_MAX_PUSH_SIZE in *.
  rewrite <- (Z.div_unique (pushbuffer_offset (ent g)) (8 * (128 * 1024)) (Z.of_nat i) (pushbuffer_offset (ent g) - Z.of_nat i * (8 * (128 * 1024)))); lia.
Qed.

Lemma chunk_at_on_chunk f pb i : length (chunks pb) = UVM_PUSHBUFFER_CHUNKS -> (i < UVM_PUSHBUFFER_CHUNKS)%nat ->
  chunk_at (on_chunk i f pb) i = f (chunk_at pb i).
Proof. intros Hl Hi. unfold chunk_at at 1, on_chunk. cbn [chunks upd]. by rewrite list_lookup_insert_eq by lia. Qed.

Lemma chunk_at_other f pb i j : i <> j -> chunk_at (on_chunk i f pb) j = chunk_at pb j.
Proof. intros Hij. unfold chunk_at at 1, on_chunk. cbn [chunks upd]. by rewrite list_lookup_insert_ne by done. Qed.

Lemma on_chunk_length f pb i : length (chunks (on_chunk i f pb)) = length (chunks pb).
Proof. unfold on_chunk. cbn [chunks upd]. apply length_insert. Qed.

(** What a chunk looks like decides whether it is well formed. *)
Lemma chunk_ok_same pb pb' i : chunk_at pb' i = chunk_at pb i ->
  (i ∈ available_chunks pb' <-> i ∈ available_chunks pb) -> (i ∈ idle_chunks pb' <-> i ∈ idle_chunks pb) ->
  chunk_ok pb i -> chunk_ok pb' i.
Proof.
  intros Hc Ha Hi [Hn Hr Hcl Hun]. unfold spans in *. split; unfold spans; rewrite Hc; [done|done|..].
  - intros H. destruct (Hcl H) as (? & ? & ?). by rewrite Ha, Hi.
  - intros H. destruct (Hun H) as (? & ? & ?). by rewrite Ha, Hi.
Qed.

Lemma fits_mono l l' p : l' `sublist_of` l -> ring_ok (l ++ [full_span p]) -> ring_ok (l' ++ [full_span p]).
Proof. intros Hs. apply ring_sublist. by apply sublist_app. Qed.

Lemma empty_fits : ring_ok ([] ++ [full_span 0]).
Proof.
  apply ring_snoc. split; [apply full_span_ok; [lia|by unfold UVM_MAX_PUSH_SIZE, UVM_PUSHBUFFER_CHUNK_SIZE|by exists 0]|].
  split; [constructor|]. exists [], []. split; [done|]. split; [constructor|]. split; [constructor|].
  split; [by intros ? ? ?%elem_of_nil|]. left. split; [done|]. by intros ? ?%elem_of_nil.
Qed.

(** What [update_chunk] finds. *)
Lemma update_chunk_spec pb i : length (chunks pb) = UVM_PUSHBUFFER_CHUNKS -> (i < UVM_PUSHBUFFER_CHUNKS)%nat -> ring_ok (spans pb i) ->
  (pending_gpfifos (chunk_at pb i) = [] /\
     update_chunk ent i pb = make_available i 0 (pb <| idle_chunks := idle_chunks pb ∪ {[ i ]} |>)) \/
  (pending_gpfifos (chunk_at pb i) <> [] /\ exists start, ring_ok (spans pb i ++ [full_span start]) /\ update_chunk ent i pb = make_available i start pb) \/
  (pending_gpfifos (chunk_at pb i) <> [] /\ (forall p, ~ ring_ok (spans pb i ++ [full_span p])) /\ update_chunk ent i pb = pb).
Proof.
  intros Hl Hi Hr. unfold update_chunk, chunk_get_gpu_get, chunk_get_cpu_put.
  destruct (pending_gpfifos (chunk_at pb i)) as [|g l] eqn:El; [left; by split|right].
  assert (exists b, last (g :: l) = Some b) as [b Hb] by (destruct (last (g :: l)) eqn:E; [by eexists|by apply last_None in E]).
  assert (head (spans pb i) = Some (span_of i g)) as Hh by (unfold spans; by rewrite El).
  assert (last (spans pb i) = Some (span_of i b)) as Ht by (unfold spans; by rewrite El, fmap_last, Hb).
  pose proof (proj1 (Forall_forall _ _) (proj1 Hr)) as Hok.
  destruct (Hok _ (head_elem _ _ Hh)) as (Hg1 & Hg2 & _), (Hok _ (last_elem _ _ Ht)) as (Hb1 & Hb2 & _).
  pose proof (fun p => room_sound _ _ _ p Hr Hh Ht) as Hs. pose proof (fun p H => room_complete _ _ _ p H Hh Ht) as Hc.
  rewrite Hb. cbn [head]. unfold span_of in *. cbn [fst snd] in *.
  set (gpu_get := pushbuffer_offset (ent g) - chunk_get_offset i) in *.
  set (cpu_put := pushbuffer_offset (ent b) + pushbuffer_size (ent b) - chunk_get_offset i) in *.
  assert (0 <= gpu_get <= UVM_PUSHBUFFER_CHUNK_SIZE) as Hg by (unfold gpu_get; lia).
  assert (0 <= cpu_put <= UVM_PUSHBUFFER_CHUNK_SIZE) as Hp by (unfold cpu_put; lia).
  clearbody gpu_get cpu_put. clear - Hs Hc Hg Hp. unfold UVM_PUSHBUFFER_CHUNK_SIZE, UVM_MAX_PUSH_SIZE in Hg, Hp.
  rewrite !(wrap_id 32 gpu_get), !(wrap_id 32 cpu_put), (wrap_id 32 (cpu_put + _))
    by (unfold in_width, UVM_MAX_PUSH_SIZE; lia).
  assert (forall q : uvm_pushbuffer_t, (if cpu_put <? gpu_get then if UVM_MAX_PUSH_SIZE <=? u32 (gpu_get - cpu_put) then make_available i cpu_put pb else pb else q) =
    (if cpu_put <? gpu_get then if UVM_MAX_PUSH_SIZE <=? gpu_get - cpu_put then make_available i cpu_put pb else pb else q)) as ->.
  { intros q. destruct (Z.ltb_spec cpu_put gpu_get); [|done]. by rewrite wrap_id by (unfold in_width; lia). }
  unfold room in Hs, Hc.
  repeat match goal with |- context [if ?c then _ else _] => destruct c end;
    first [left; split; [done|]; eexists; split; [by apply Hs|done]
          |right; split; [done|]; split; [intros p Hn; by destruct (Hc p Hn)|done]].
Qed.

(** The bitmaps after [make_available]. *)
Lemma make_available_at start pb i : length (chunks pb) = UVM_PUSHBUFFER_CHUNKS -> (i < UVM_PUSHBUFFER_CHUNKS)%nat ->
  chunk_at (make_available i start pb) i = (chunk_at pb i) <| next_push_start := start |>.
Proof. intros Hl Hi. unfold make_available. by rewrite chunk_at_on_chunk. Qed.

(** [update_chunk] on a chunk without an on-going push: it may have been available
    before, with a start that still fits, and its idle bit is off when it has
    pending pushes. *)
Lemma update_chunk_ok pb i : length (chunks pb) = UVM_PUSHBUFFER_CHUNKS -> (i < UVM_PUSHBUFFER_CHUNKS)%nat ->
  NoDup (pending_gpfifos (chunk_at pb i)) -> ring_ok (spans pb i) -> current_push (chunk_at pb i) = None ->
  (i ∈ available_chunks pb -> ring_ok (spans pb i ++ [full_span (next_push_start (chunk_at pb i))])) ->
  (i ∈ idle_chunks pb -> pending_gpfifos (chunk_at pb i) = []) ->
  chunk_ok (update_chunk ent i pb) i.
Proof.
  intros Hl Hi Hn Hr Hcur Hav Hid.
  destruct (update_chunk_spec pb i Hl Hi Hr) as [[Hp ->]|[(Hp & start & Hs & ->)|(Hp & Hno & ->)]].
  - assert (chunk_at (make_available i 0 (pb <| idle_chunks := idle_chunks pb ∪ {[ i ]} |>)) i = (chunk_at pb i) <| next_push_start := 0 |>) as E
      by (unfold make_available; by rewrite chunk_at_on_chunk).
    split; unfold spans; rewrite E; cbn [pending_gpfifos current_push next_push_start upd]; [done|done|by rewrite Hcur|].
    intros _. rewrite Hp. simpl. split; [set_solver|]. split; [|intros _; apply empty_fits].
    split; [intros _; exists 0; apply empty_fits|set_solver].
  - pose proof (make_available_at start pb i Hl Hi) as E.
    split; unfold spans; rewrite E; cbn [pending_gpfifos current_push next_push_start upd]; [done|done|by rewrite Hcur|].
    intros _. split; [simpl; split; [by intros ?%Hid|done]|]. split; [|by intros _].
    split; [intros _; by exists start|simpl; set_solver].
  - split; [done|done|by rewrite Hcur|]. intros _. split; [split; [by intros ?%Hid|done]|]. split; [|done].
    split; [intros H; by exists (next_push_start (chunk_at pb i)); apply Hav|]. intros [p H]. by destruct (Hno p).
Qed.

Lemma update_chunk_other pb i j : i <> j ->
  chunk_at (update_chunk ent i pb) j = chunk_at pb j /\
  ((j ∈ available_chunks (update_chunk ent i pb)) <-> (j ∈ available_chunks pb)) /\
  ((j ∈ idle_chunks (update_chunk ent i pb)) <-> (j ∈ idle_chunks pb)).
Proof.
  intros Hij. assert (forall start pb', chunk_at (make_available i start pb') j = chunk_at pb' j) as Hm
    by (intros start pb'; unfold make_available; by rewrite chunk_at_other).
  unfold update_chunk. case_match; [case_match|]; [|done|repeat case_match; try done]; (split; [by rewrite Hm|]); simpl; set_solver.
Qed.

Lemma update_chunk_length pb i : length (chunks (update_chunk ent i pb)) = length (chunks pb).
Proof.
  assert (forall start pb', length (chunks (make_available i start pb')) = length (chunks pb')) as Hm
    by (intros start pb'; unfold make_available; by rewrite on_chunk_length).
  unfold update_chunk. repeat case_match; try done; by rewrite Hm.
Qed.

(** ** The operations keep the invariant *)

Lemma create_ok : pb_ok uvm_pushbuffer_create.
Proof.
  split; [apply length_replicate|]. intros i Hi.
  assert (chunk_at uvm_pushbuffer_create i = empty_chunk) as E
    by (unfold chunk_at, uvm_pushbuffer_create; cbn [chunks]; by rewrite lookup_replicate_2).
  assert (i ∈@{gset nat} set_seq 0 UVM_PUSHBUFFER_CHUNKS) as Hm by (apply elem_of_set_seq; lia).
  split; unfold spans; rewrite E; cbn [pending_gpfifos current_push next_push_start empty_chunk fmap list_fmap]; [constructor| |done|].
  - split; [constructor|]. exists [], []. split; [done|]. split; [constructor|]. split; [constructor|]. by intros ? ? ?%elem_of_nil.
  - intros _. split; [by split|]. split; [|intros _; apply empty_fits]. split; [intros _; exists 0; apply empty_fits|done].
Qed.

Lemma chunk_in_mask_Some mask i : get_chunk_in_mask mask = Some i -> (i < UVM_PUSHBUFFER_CHUNKS)%nat /\ i ∈ mask.
Proof.
  unfold get_chunk_in_mask. intros H%head_elem. apply list_elem_of_filter in H as [Hm Hs%elem_of_seq]. split; [lia|done].
Qed.

Lemma chunk_in_mask_None mask i : get_chunk_in_mask mask = None -> (i < UVM_PUSHBUFFER_CHUNKS)%nat -> i ∉ mask.
Proof.
  unfold get_chunk_in_mask. intros H Hi Hm. assert (i ∈ filter (fun i => i ∈ mask) (seq 0 UVM_PUSHBUFFER_CHUNKS)) as He
    by (apply list_elem_of_filter; split; [done|apply elem_of_seq; lia]).
  destruct (filter _ _); [by apply elem_of_nil in He|done].
Qed.

(** The chunk that is picked has no on-going push, and a push fits. *)
Lemma pick_chunk_Some pb i : pb_ok pb -> pick_chunk pb = Some i ->
  (i < UVM_PUSHBUFFER_CHUNKS)%nat /\ current_push (chunk_at pb i) = None /\ ring_ok (spans pb i ++ [full_span (next_push_start (chunk_at pb i))]).
Proof.
  intros Hpb Hp. assert ((i < UVM_PUSHBUFFER_CHUNKS)%nat /\ (i ∈ idle_chunks pb \/ i ∈ available_chunks pb)) as [Hi Hm].
  { unfold pick_chunk in Hp. destruct (get_chunk_in_mask (idle_chunks pb)) as [j|] eqn:E.
    - injection Hp as ->. apply chunk_in_mask_Some in E as [? ?]. auto.
    - apply chunk_in_mask_Some in Hp as [? ?]. auto. }
  destruct (pb_chunks _ Hpb i Hi) as [_ _ Hc Hu]. split; [done|].
  destruct (current_push (chunk_at pb i)) as [p|] eqn:Ec; [destruct (Hc ltac:(done)) as (? & ? & _); tauto|]. split; [done|].
  destruct (Hu eq_refl) as (Hidle & Hav & Hfit). apply Hfit. destruct Hm as [Hm|]; [|done].
  apply Hidle in Hm. apply Hav. exists 0. unfold spans. rewrite Hm. apply empty_fits.
Qed.

(** No chunk is picked only if each one has an on-going push or no room. *)
Lemma pick_chunk_None pb i : pb_ok pb -> pick_chunk pb = None -> (i < UVM_PUSHBUFFER_CHUNKS)%nat -> current_push (chunk_at pb i) = None ->
  forall p, ~ ring_ok (spans pb i ++ [full_span p]).
Proof.
  intros Hpb Hp Hi Hc p Hr. unfold pick_chunk in Hp. destruct (get_chunk_in_mask (idle_chunks pb)); [done|].
  apply (chunk_in_mask_None _ i Hp Hi). apply (chunk_unclaimed _ _ (pb_chunks _ Hpb i Hi) Hc). by exists p.
Qed.

Lemma pb_ok_sema pb f : pb_ok pb -> pb_ok (pb <| concurrent_pushes_sema ::= f |>).
Proof. intros [Hl Hc]. split; [done|]. intros i Hi. by apply (chunk_ok_same pb); [..|apply Hc]. Qed.

Lemma try_claim_ok push pb : pb_ok pb -> pb_ok (try_claim_chunk push pb).2.
Proof.
  intros Hpb. unfold try_claim_chunk. destruct (pick_chunk pb) as [i|] eqn:Ep; [|done]. cbn [snd].
  destruct (pick_chunk_Some pb i Hpb Ep) as (Hi & Hc & Hfit). destruct Hpb as [Hl Hch].
  split; [cbn [chunks upd]; by rewrite on_chunk_length|]. intros j Hj. destruct (decide (i = j)) as [<-|Hij].
  - assert (chunk_at (on_chunk i (fun c => c <| current_push := Some push |>) pb) i = (chunk_at pb i) <| current_push := Some push |>) as E
      by (by rewrite chunk_at_on_chunk).
    destruct (Hch i Hi) as [Hn Hr _ _].
    split; unfold spans; unfold chunk_at in E |- *; cbn [chunks upd] in E |- *; rewrite E; cbn [pending_gpfifos current_push next_push_start upd]; [done|done| |done].
    intros _. cbn [available_chunks idle_chunks upd]. split; [set_solver|]. split; [set_solver|done].
  - apply (chunk_ok_same pb); [|cbn [available_chunks idle_chunks upd]; set_solver..|by apply Hch].
    transitivity (chunk_at (on_chunk i (fun c => c <| current_push := Some push |>) pb) j); [done|by apply chunk_at_other].
Qed.

(** Only the chunk [i] changes. *)
Lemma pb_ok_at pb pb' i : pb_ok pb -> length (chunks pb') = length (chunks pb) ->
  (forall j, i <> j -> chunk_at pb' j = chunk_at pb j /\ ((j ∈ available_chunks pb') <-> (j ∈ available_chunks pb)) /\
    ((j ∈ idle_chunks pb') <-> (j ∈ idle_chunks pb))) ->
  ((i < UVM_PUSHBUFFER_CHUNKS)%nat -> chunk_ok pb' i) -> pb_ok pb'.
Proof.
  intros [Hl Hc] Hl' Ho Hi. split; [congruence|]. intros j Hj. destruct (decide (i = j)) as [<-|Hij]; [by apply Hi|].
  destruct (Ho j Hij) as (? & ? & ?). by apply (chunk_ok_same pb); [..|apply Hc].
Qed.

(** Removing an entry that is neither the first nor the last leaves the ends. *)
Lemma filter_head (g : gpfifo_id) l : head l <> Some g -> head (filter (fun g' => g' <> g) l) = head l.
Proof. destruct l as [|x l]; [done|]. intros H. rewrite filter_cons_True; [done|]. intros ->. by apply H. Qed.

Lemma filter_last (g : gpfifo_id) l : last l <> Some g -> last (filter (fun g' => g' <> g) l) = last l.
Proof.
  destruct l as [|x l _] using rev_ind; [done|]. rewrite filter_app, last_snoc. intros H.
  rewrite filter_cons_True by congruence. apply last_snoc.
Qed.

(** Room only depends on the ends. *)
Lemma fits_ends l l' a b p : ring_ok l -> head l = Some a -> last l = Some b -> head l' = Some a -> last l' = Some b ->
  ring_ok (l' ++ [full_span p]) -> exists p', ring_ok (l ++ [full_span p']).
Proof.
  intros Hr Ha Hb Ha' Hb' Hf. destruct (room_complete l' a b p Hf Ha' Hb') as [p' Hp]. exists p'. by apply (room_sound l a b).
Qed.

Lemma filter_spans (g : gpfifo_id) i l : (span_of i <$> filter (fun g' => g' <> g) l) `sublist_of` (span_of i <$> l).
Proof.
  induction l as [|x l IH]; [done|]. rewrite filter_cons. case_decide; simpl; [by apply sublist_skip|by apply sublist_cons].
Qed.

(** The chunk without the entry, before the bitmaps are updated. *)
Lemma remove_middle_ok g pb i : (i < UVM_PUSHBUFFER_CHUNKS)%nat -> length (chunks pb) = UVM_PUSHBUFFER_CHUNKS -> chunk_ok pb i ->
  current_push (chunk_at pb i) <> None \/
    (head (pending_gpfifos (chunk_at pb i)) <> Some g /\ last (pending_gpfifos (chunk_at pb i)) <> Some g) ->
  chunk_ok (on_chunk i (fun c => c <| pending_gpfifos ::= filter (fun g' => g' <> g) |>) pb) i.
Proof.
  intros Hi Hl [Hn Hr Hc Hu] Hmid. set (pb' := on_chunk i _ pb).
  assert (chunk_at pb' i = (chunk_at pb i) <| pending_gpfifos ::= filter (fun g' => g' <> g) |>) as E by (by apply chunk_at_on_chunk).
  assert (spans pb' i `sublist_of` spans pb i) as Hs by (unfold spans; rewrite E; apply filter_spans).
  split; [rewrite E; by apply NoDup_filter|by apply (ring_sublist _ (spans pb i))|..]; rewrite E; cbn [pending_gpfifos current_push next_push_start upd].
  - intros H. destruct (Hc H) as (Ha & Hd & Hf). split; [done|]. split; [done|]. by apply (fits_mono (spans pb i)).
  - intros H. destruct Hmid as [?|[Hh Ht]]; [done|]. destruct (Hu H) as (Hd & Ha & Hf).
    assert (pending_gpfifos (chunk_at pb i) <> [] -> exists a b, head (pending_gpfifos (chunk_at pb i)) = Some a /\ last (pending_gpfifos (chunk_at pb i)) = Some b) as Hends.
    { intros Hne. destruct (pending_gpfifos (chunk_at pb i)) as [|a l]; [done|]. exists a. destruct (last (a :: l)) eqn:El; [by eexists|by apply last_None in El]. }
    split; [|split; [|intros Hav; apply (fits_mono (spans pb i)); [done|by apply Hf]]].
    + rewrite (Hd : (i ∈ idle_chunks pb') <-> _). split; [intros ->; done|]. intros Hnil.
      destruct (decide (pending_gpfifos (chunk_at pb i) = [])) as [|Hne]; [done|].
      destruct (Hends Hne) as (a & b & Ha' & _). apply filter_head in Hh. rewrite Hnil, Ha' in Hh. done.
    + rewrite (Ha : (i ∈ available_chunks pb') <-> _). split; [intros [p Hp]; exists p; by apply (fits_mono (spans pb i))|]. intros [p Hp].
      destruct (decide (pending_gpfifos (chunk_at pb i) = [])) as [Hnil|Hne]; [exists 0; unfold spans; rewrite Hnil; apply empty_fits|].
      destruct (Hends Hne) as (a & b & Ha' & Hb'). apply (fits_ends (spans pb i) (spans pb' i) (span_of i a) (span_of i b) p); [done|..|done];
        unfold spans; rewrite ?E; cbn [pending_gpfifos upd]; rewrite ?fmap_last, ?(filter_last _ _ Ht), ?Hb'; [|done| |done].
      * rewrite head_map, Ha'. done.
      * rewrite head_map, (filter_head _ _ Hh), Ha'. done.
Qed.

Lemma remove_pending_ok g pb : pb_ok pb -> pb_ok (remove_pending ent g pb).
Proof.
  intros Hpb. pose proof Hpb as [Hl Hch]. unfold remove_pending. set (i := gpfifo_to_chunk ent g).
  set (pb' := on_chunk i (fun c => c <| pending_gpfifos ::= filter (fun g' => g' <> g) |>) pb).
  assert (length (chunks pb') = length (chunks pb)) as Hl' by apply on_chunk_length.
  assert (forall j, i <> j -> chunk_at pb' j = chunk_at pb j) as Ho by (intros j; apply chunk_at_other).
  destruct (_ && _) eqn:Eup.
  - apply andb_prop in Eup as [Eend Ecur%bool_decide_eq_true].
    apply (pb_ok_at pb _ i); [done|by rewrite update_chunk_length| |].
    + intros j Hj. destruct (update_chunk_other pb' i j Hj) as (-> & H1 & H2). by rewrite H1, H2, Ho.
    + intros Hi. destruct (Hch i Hi) as [Hn Hr _ Hu].
      assert (chunk_at pb' i = (chunk_at pb i) <| pending_gpfifos ::= filter (fun g' => g' <> g) |>) as E by (by apply chunk_at_on_chunk).
      assert (spans pb' i `sublist_of` spans pb i) as Hs by (unfold spans; rewrite E; apply filter_spans).
      destruct (Hu Ecur) as (Hd & Ha & Hf).
      apply update_chunk_ok; [congruence|done|rewrite E; by apply NoDup_filter|by apply (ring_sublist _ (spans pb i))|by rewrite E|..].
      * intros Hav. rewrite E. cbn [next_push_start upd]. apply (fits_mono (spans pb i)); [done|by apply Hf].
      * intros Hid. rewrite E. cbn [pending_gpfifos upd]. by rewrite (proj1 Hd Hid).
  - apply (pb_ok_at pb _ i); [done|done|intros j Hj; by rewrite Ho|]. intros Hi. apply remove_middle_ok; [done|done|by apply Hch|].
    destruct (decide (current_push (chunk_at pb i) = None)) as [Ecur|]; [right|by left].
    rewrite (bool_decide_eq_true_2 _ Ecur), andb_true_r in Eup. apply orb_false_elim in Eup as [H1%bool_decide_eq_false H2%bool_decide_eq_false]. done.
Qed.

(** Clearing the on-going push commutes with [update_chunk]. *)
Lemma update_chunk_clear pb i : length (chunks pb) = UVM_PUSHBUFFER_CHUNKS -> (i < UVM_PUSHBUFFER_CHUNKS)%nat ->
  on_chunk i (fun c => c <| current_push := None |>) (update_chunk ent i pb) = update_chunk ent i (on_chunk i (fun c => c <| current_push := None |>) pb).
Proof.
  intros Hl Hi. set (clear := fun c => c <| current_push := None |>).
  assert (forall start pb', length (chunks pb') = UVM_PUSHBUFFER_CHUNKS -> on_chunk i clear (make_available i start pb') = make_available i start (on_chunk i clear pb')) as Hm.
  { intros start pb' Hl'. unfold make_available. unfold on_chunk at 1. rewrite chunk_at_on_chunk by done.
    unfold on_chunk, chunk_at. cbn [chunks upd]. rewrite !list_insert_insert_eq, list_lookup_insert_eq by lia. done. }
  assert (chunk_at (on_chunk i clear pb) i = clear (chunk_at pb i)) as E by (by apply chunk_at_on_chunk).
  unfold update_chunk, chunk_get_gpu_get, chunk_get_cpu_put. rewrite !E. cbn [pending_gpfifos clear upd].
  repeat match goal with |- context [if ?c then _ else _] => destruct c end; try done; try (by apply Hm).
Qed.

Lemma end_push_ok g i pb : pb_ok pb -> (i < UVM_PUSHBUFFER_CHUNKS)%nat -> current_push (chunk_at pb i) <> None ->
  pushbuffer_offset (ent g) = chunk_get_offset i + next_push_start (chunk_at pb i) ->
  0 < pushbuffer_size (ent g) <= UVM_MAX_PUSH_SIZE -> (4 | pushbuffer_size (ent g)) -> (g ∉ pending_gpfifos (chunk_at pb i)) ->
  pb_ok (uvm_pushbuffer_end_push ent false g pb).
Proof.
  intros Hpb Hi Hc Hoff Hsize H4 Hg. pose proof Hpb as [Hl Hch]. destruct (Hch i Hi) as [Hn Hr Hcl _]. destruct (Hcl Hc) as (Ha & Hd & Hf).
  assert (span_of i g = (next_push_start (chunk_at pb i), next_push_start (chunk_at pb i) + pushbuffer_size (ent g))) as Espan
    by (unfold span_of; f_equal; lia).
  pose proof (ring_shrink _ _ _ Hf Hsize H4) as Hr'. rewrite <- Espan in Hr'.
  assert (gpfifo_to_chunk ent g = i) as Eg by (apply span_chunk; [done|]; by apply ring_snoc in Hr' as [? _]).
  unfold uvm_pushbuffer_end_push. rewrite Eg. cbv zeta. apply pb_ok_sema.
  set (pb1 := on_chunk i (fun c => c <| pending_gpfifos ::= (fun l => l ++ [g]) |>) pb).
  assert (length (chunks pb1) = UVM_PUSHBUFFER_CHUNKS) as Hl1 by (unfold pb1; by rewrite on_chunk_length).
  assert (chunk_at pb1 i = (chunk_at pb i) <| pending_gpfifos ::= (fun l => l ++ [g]) |>) as E1 by (by apply chunk_at_on_chunk).
  rewrite update_chunk_clear by done. set (pb2 := on_chunk i _ pb1).
  assert (chunk_at pb2 i = (chunk_at pb1 i) <| current_push := None |>) as E2 by (by apply chunk_at_on_chunk).
  assert (length (chunks pb2) = UVM_PUSHBUFFER_CHUNKS) as Hl2 by (unfold pb2; by rewrite on_chunk_length).
  apply (pb_ok_at pb _ i); [done|rewrite update_chunk_length; congruence| |].
  - intros j Hj. destruct (update_chunk_other pb2 i j Hj) as (-> & H1 & H2). rewrite H1, H2. split; [|done].
    unfold pb2, pb1. by rewrite !chunk_at_other.
  - intros _. assert (spans pb2 i = spans pb i ++ [span_of i g]) as Es by (unfold spans; rewrite E2, E1; apply fmap_snoc).
    apply update_chunk_ok; [done|done|..]; rewrite ?Es; [|done|by rewrite E2|by intros ?%Ha|by intros ?%Hd].
    rewrite E2, E1. cbn [pending_gpfifos upd]. apply NoDup_app. split; [done|]. split; [|apply NoDup_singleton].
    intros x Hx ->%list_elem_of_singleton. done.
Qed.

End Invariant.

(** The entries may change where the pushbuffer does not look. *)
Lemma span_of_ext ent ent' i (l : list gpfifo_id) : (forall g, g ∈ l -> ent' g = ent g) -> (span_of ent' i <$> l) = (span_of ent i <$> l).
Proof. intros H. apply list_fmap_ext. intros k g Hg. unfold span_of. by rewrite H by (by eapply list_elem_of_lookup_2). Qed.

Lemma pb_ok_ext ent ent' pb : (forall i g, (i < UVM_PUSHBUFFER_CHUNKS)%nat -> g ∈ pending_gpfifos (chunk_at pb i) -> ent' g = ent g) ->
  pb_ok ent pb -> pb_ok ent' pb.
Proof.
  intros He [Hl Hch]. split; [done|]. intros i Hi.
  assert (spans ent' pb i = spans ent pb i) as Es by (apply span_of_ext; intros g Hg; by apply (He i)).
  destruct (Hch i Hi) as [Hn Hr Hc Hu]. split; [done|rewrite Es..]; done.
Qed.

(** ** What the operations change *)

Section Effects.
Context (ent : gpfifo_id -> uvm_gpfifo_entry_t).

Lemma chunk_at_update f pb i k : (i < length (chunks pb))%nat \/ f empty_chunk = empty_chunk ->
  chunk_at (on_chunk i f pb) k = if decide (k = i) then f (chunk_at pb k) else chunk_at pb k.
Proof.
  intros Hf. case_decide as E; [subst k|by apply chunk_at_other]. destruct (decide (i < length (chunks pb))%nat) as [Hi|Hi].
  - unfold chunk_at at 1, on_chunk. cbn [chunks upd]. by rewrite list_lookup_insert_eq.
  - destruct Hf as [?|Hf]; [done|]. unfold chunk_at, on_chunk. cbn [chunks upd]. rewrite list_insert_ge by lia.
    rewrite lookup_ge_None_2 by lia. cbn [default]. by rewrite Hf.
Qed.

(** [update_chunk] only moves the start of the next push of its chunk. *)
Lemma update_chunk_pending pb i k : pending_gpfifos (chunk_at (update_chunk ent i pb) k) = pending_gpfifos (chunk_at pb k) /\
  current_push (chunk_at (update_chunk ent i pb) k) = current_push (chunk_at pb k) /\
  (k <> i -> next_push_start (chunk_at (update_chunk ent i pb) k) = next_push_start (chunk_at pb k)).
Proof.
  assert (forall start pb', chunks pb' = chunks pb -> pending_gpfifos (chunk_at (make_available i start pb') k) = pending_gpfifos (chunk_at pb k) /\
    current_push (chunk_at (make_available i start pb') k) = current_push (chunk_at pb k) /\
    (k <> i -> next_push_start (chunk_at (make_available i start pb') k) = next_push_start (chunk_at pb k))) as Hm.
  { intros start pb' E. assert (forall j, chunk_at pb' j = chunk_at pb j) as Ej by (intros j; unfold chunk_at; by rewrite E).
    destruct (decide (k = i)) as [->|Hk].
    - destruct (decide (i < length (chunks pb'))%nat) as [Hi|Hi].
      + unfold make_available. rewrite chunk_at_update by (by left). rewrite decide_True by done. change (chunk_at (upd _ pb') i) with (chunk_at pb' i). by rewrite Ej.
      + assert (chunk_at (make_available i start pb') i = chunk_at pb' i) as ->; [|by rewrite Ej].
        unfold chunk_at, make_available, on_chunk. cbn [chunks upd]. by rewrite list_insert_ge by (cbn; lia).
    - unfold make_available. rewrite chunk_at_other by done. change (chunk_at (upd _ pb') k) with (chunk_at pb' k). by rewrite Ej. }
  unfold update_chunk. repeat case_match; try done; by apply Hm.
Qed.

Lemma remove_pending_effect g pb k :
  pending_gpfifos (chunk_at (remove_pending ent g pb) k) =
    (if decide (k = gpfifo_to_chunk ent g) then filter (fun g' => g' <> g) (pending_gpfifos (chunk_at pb k)) else pending_gpfifos (chunk_at pb k)) /\
  current_push (chunk_at (remove_pending ent g pb) k) = current_push (chunk_at pb k) /\
  (current_push (chunk_at pb k) <> None -> next_push_start (chunk_at (remove_pending ent g pb) k) = next_push_start (chunk_at pb k)).
Proof.
  unfold remove_pending. set (i := gpfifo_to_chunk ent g). set (pb1 := on_chunk i _ pb).
  assert (chunk_at pb1 k = if decide (k = i) then (chunk_at pb k) <| pending_gpfifos ::= filter (fun g' => g' <> g) |> else chunk_at pb k) as E1
    by (unfold pb1; by rewrite chunk_at_update by (by right)).
  assert (pending_gpfifos (chunk_at pb1 k) = (if decide (k = i) then filter (fun g' => g' <> g) (pending_gpfifos (chunk_at pb k)) else pending_gpfifos (chunk_at pb k)) /\
    current_push (chunk_at pb1 k) = current_push (chunk_at pb k) /\ next_push_start (chunk_at pb1 k) = next_push_start (chunk_at pb k)) as (H1 & H2 & H3)
    by (rewrite E1; by case_decide).
  destruct (_ && _) eqn:Eup; [|by rewrite H1, H2, H3]. destruct (update_chunk_pending pb1 i k) as (U1 & U2 & U3).
  split_and!; [congruence|congruence|]. intros Hc. rewrite <- H3. apply U3. intros ->.
  apply andb_prop in Eup as [_ Eup%bool_decide_eq_true]. done.
Qed.

Lemma end_push_effect g pb k : length (chunks pb) = UVM_PUSHBUFFER_CHUNKS -> (gpfifo_to_chunk ent g < UVM_PUSHBUFFER_CHUNKS)%nat ->
  let pb' := uvm_pushbuffer_end_push ent false g pb in
  pending_gpfifos (chunk_at pb' k) = pending_gpfifos (chunk_at pb k) ++ (if decide (k = gpfifo_to_chunk ent g) then [g] else []) /\
  current_push (chunk_at pb' k) = (if decide (k = gpfifo_to_chunk ent g) then None else current_push (chunk_at pb k)) /\
  (k <> gpfifo_to_chunk ent g -> next_push_start (chunk_at pb' k) = next_push_start (chunk_at pb k)) /\
  concurrent_pushes_sema pb' = concurrent_pushes_sema pb + 1.
Proof.
  intros Hl Hi. unfold uvm_pushbuffer_end_push. set (i := gpfifo_to_chunk ent g) in *. cbv zeta. set (pb1 := on_chunk i _ pb).
  assert (length (chunks pb1) = UVM_PUSHBUFFER_CHUNKS) as Hl1 by (unfold pb1; by rewrite on_chunk_length).
  destruct (update_chunk_pending pb1 i k) as (U1 & U2 & U3). set (pb2 := update_chunk ent i pb1) in *.
  assert (length (chunks pb2) = UVM_PUSHBUFFER_CHUNKS) as Hl2 by (unfold pb2; by rewrite update_chunk_length).
  assert (chunk_at pb1 k = if decide (k = i) then (chunk_at pb k) <| pending_gpfifos ::= (fun l => l ++ [g]) |> else chunk_at pb k) as E1
    by (unfold pb1; rewrite chunk_at_update by (left; lia); done).
  set (pb3 := on_chunk i (fun c => c <| current_push := None |>) pb2).
  assert (chunk_at pb3 k = if decide (k = i) then (chunk_at pb2 k) <| current_push := None |> else chunk_at pb2 k) as E3
    by (unfold pb3; rewrite chunk_at_update by (left; lia); done).
  change (chunk_at (upd _ pb3) k) with (chunk_at pb3 k). destruct (decide (k = i)) as [Hk|Hk]; rewrite E3; cbn [pending_gpfifos current_push next_push_start upd]; rewrite U1, E1.
  all: split_and!; [by rewrite ?app_nil_r| |intros ?|]; [done || by rewrite U2, E1|done || by rewrite U3, E1 by done|].
  all: cbn [concurrent_pushes_sema upd]; change (concurrent_pushes_sema pb3) with (concurrent_pushes_sema pb2);
    (assert (concurrent_pushes_sema pb2 = concurrent_pushes_sema pb) as ->; [unfold pb2, update_chunk; repeat case_match; done|lia]).
Qed.

Lemma sema_remove_pending g pb : concurrent_pushes_sema (remove_pending ent g pb) = concurrent_pushes_sema pb.
Proof. unfold remove_pending. destruct (_ && _); [|done]. unfold update_chunk. repeat case_match; done. Qed.

End Effects.

(** ** Who uses which memory *)

(** A pending entry uses what its push wrote; the on-going push of a chunk may write
    up to the greatest size. *)
Inductive pb_user : Type :=
| PendingEntry (g : gpfifo_id)
| OnGoingPush (i : nat).

(** The bytes of the pushbuffer that are used, from the first to before the last. *)
Definition uses (ent : gpfifo_id -> uvm_gpfifo_entry_t) (pb : uvm_pushbuffer_t) (u : pb_user) (r : Z * Z) : Prop :=
  match u with
  | PendingEntry g =>
      r = (pushbuffer_offset (ent g), pushbuffer_offset (ent g) + pushbuffer_size (ent g)) /\
      exists i, (i < UVM_PUSHBUFFER_CHUNKS)%nat /\ g ∈ pending_gpfifos (chunk_at pb i)
  | OnGoingPush i =>
      r = (chunk_get_offset i + next_push_start (chunk_at pb i), chunk_get_offset i + next_push_start (chunk_at pb i) + UVM_MAX_PUSH_SIZE) /\
      (i < UVM_PUSHBUFFER_CHUNKS)%nat /\ current_push (chunk_at pb i) <> None
  end.

Section Users.
Context (ent : gpfifo_id -> uvm_gpfifo_entry_t) (pb : uvm_pushbuffer_t) (Hpb : pb_ok ent pb).

(** The spans of a chunk with that of its on-going push. *)
Definition used_spans (i : nat) : list (Z * Z) :=
  spans ent pb i ++ (if current_push (chunk_at pb i) is Some _ then [full_span (next_push_start (chunk_at pb i))] else []).

Lemma used_ring i : (i < UVM_PUSHBUFFER_CHUNKS)%nat -> ring_ok (used_spans i).
Proof.
  intros Hi. destruct (pb_chunks _ _ Hpb i Hi) as [_ Hr Hc _]. unfold used_spans.
  destruct (current_push (chunk_at pb i)) as [p|]; [by apply Hc|by rewrite app_nil_r].
Qed.

(** A user has a position in the list of one chunk, and no other user has it. *)
Lemma uses_lookup u r : uses ent pb u r -> exists i k a, (i < UVM_PUSHBUFFER_CHUNKS)%nat /\ used_spans i !! k = Some a /\
  r = (chunk_get_offset i + a.1, chunk_get_offset i + a.2) /\
  match u with
  | PendingEntry g => pending_gpfifos (chunk_at pb i) !! k = Some g
  | OnGoingPush j => j = i /\ k = length (pending_gpfifos (chunk_at pb i))
  end.
Proof.
  destruct u as [g|i]; cbn [uses].
  - intros (-> & i & Hi & [k Hk]%list_elem_of_lookup). exists i, k, (span_of ent i g). split; [done|]. split.
    + unfold used_spans, spans. apply lookup_app_l_Some. by rewrite list_lookup_fmap, Hk.
    + split; [unfold span_of; cbn [fst snd]; f_equal; lia|done].
  - intros (-> & Hi & Hc). exists i, (length (pending_gpfifos (chunk_at pb i))), (full_span (next_push_start (chunk_at pb i))).
    split; [done|]. split; [|split; [unfold full_span; cbn [fst snd]; f_equal; lia|done]].
    unfold used_spans. destruct (current_push (chunk_at pb i)); [|done].
    rewrite lookup_app_r; unfold spans; rewrite length_fmap; [|done]. by rewrite Nat.sub_diag.
Qed.

Lemma uses_in_chunk i k a : (i < UVM_PUSHBUFFER_CHUNKS)%nat -> used_spans i !! k = Some a -> span_ok a.
Proof. intros Hi Hk. apply (proj1 (Forall_forall _ _) (proj1 (used_ring i Hi))). by eapply list_elem_of_lookup_2. Qed.

(** No two users share a byte. *)
Lemma uses_disjoint u u' r r' : uses ent pb u r -> uses ent pb u' r' -> u <> u' -> r.2 <= r'.1 \/ r'.2 <= r.1.
Proof.
  intros (i & k & a & Hi & Hk & -> & Hu)%uses_lookup (i' & k' & a' & Hi' & Hk' & -> & Hu')%uses_lookup Hne. cbn [fst snd].
  pose proof (uses_in_chunk i k a Hi Hk) as (Ha1 & Ha2 & _). pose proof (uses_in_chunk i' k' a' Hi' Hk') as (Hb1 & Hb2 & _).
  rewrite !chunk_offset by done. destruct (Nat.lt_trichotomy i i') as [Hlt|[<-|Hlt]].
  - unfold UVM_PUSHBUFFER_CHUNK_SIZE, UVM_MAX_PUSH_SIZE in *. lia.
  - assert (k <> k') as Hkk.
    { intros <-. apply Hne. destruct u as [g|j], u' as [g'|j']; try (f_equal; naive_solver); exfalso.
      - destruct Hu' as [_ ->]. apply lookup_lt_Some in Hu. lia.
      - destruct Hu as [_ ->]. apply lookup_lt_Some in Hu'. lia. }
    assert (before a a' \/ before a' a) as Hb; [|unfold before in Hb; lia].
    destruct (Nat.lt_total k k') as [Hlt|[?|Hlt]]; [|done|].
    + by apply (ring_disjoint (used_spans i) k k'); [apply used_ring|..].
    + destruct (ring_disjoint (used_spans i) k' k a' a); [by apply used_ring|done..|by right|by left].
  - unfold UVM_PUSHBUFFER_CHUNK_SIZE, UVM_MAX_PUSH_SIZE in *. lia.
Qed.

Lemma uses_bounds u r : uses ent pb u r -> 0 <= r.1 < r.2 /\ r.2 <= UVM_PUSHBUFFER_SIZE /\ (4 | r.1) /\ r.1 / UVM_PUSHBUFFER_CHUNK_SIZE = (r.2 - 1) / UVM_PUSHBUFFER_CHUNK_SIZE.
Proof.
  intros (i & k & a & Hi & Hk & -> & _)%uses_lookup. cbn [fst snd]. destruct (uses_in_chunk i k a Hi Hk) as (Ha1 & Ha2 & H4 & _).
  rewrite !chunk_offset by done. unfold UVM_PUSHBUFFER_SIZE, UVM_PUSHBUFFER_CHUNK_SIZE, UVM_MAX_PUSH_SIZE, UVM_PUSHBUFFER_CHUNKS in *.
  split; [lia|]. split; [lia|]. split; [apply Z.divide_add_r; [exists (Z.of_nat i * 262144); lia|done]|].
  transitivity (Z.of_nat i); [symmetry|]; [apply (Z.div_unique _ _ _ a.1); lia|apply (Z.div_unique _ _ _ (a.2 - 1)); lia].
Qed.

End Users.

(** ** Beginning a push *)

(** A failed claim changes nothing. *)
Lemma try_claim_None push pb : (try_claim_chunk push pb).1 = None -> try_claim_chunk push pb = (None, pb) /\ pick_chunk pb = None.
Proof. unfold try_claim_chunk. by destruct (pick_chunk pb). Qed.

Lemma try_claim_Some ent push pb i : pb_ok ent pb -> (try_claim_chunk push pb).1 = Some i ->
  (i < UVM_PUSHBUFFER_CHUNKS)%nat /\ current_push (chunk_at pb i) = None /\
  chunk_at (try_claim_chunk push pb).2 i = (chunk_at pb i) <| current_push := Some push |> /\
  (forall j, i <> j -> chunk_at (try_claim_chunk push pb).2 j = chunk_at pb j).
Proof.
  intros Hpb H. unfold try_claim_chunk in *. destruct (pick_chunk pb) as [i'|] eqn:Ep; [|done]. cbn [fst snd] in *. injection H as ->.
  destruct (pick_chunk_Some ent pb i Hpb Ep) as (Hi & Hc & _). split; [done|]. split; [done|]. destruct Hpb as [Hl _]. split.
  - transitivity (chunk_at (on_chunk i (fun c => c <| current_push := Some push |>) pb) i); [done|by rewrite chunk_at_on_chunk].
  - intros j Hj. transitivity (chunk_at (on_chunk i (fun c => c <| current_push := Some push |>) pb) j); [done|by apply chunk_at_other].
Qed.

(** What claiming relies on: storing the pushbuffer stores it and nothing else, and
    errors and progress keep the pushbuffer well formed. *)
Definition world_ok {W} `{PushbufferWorld W} (w : W) : Prop := pb_ok (w_gpfifo w) (w_pushbuffer w).

Class PushbufferWorldLaws (W : Type) `{PushbufferWorld W} : Prop := {
  w_pushbuffer_set : forall pb (w : W), w_pushbuffer (w_set_pushbuffer pb w) = pb;
  w_gpfifo_set : forall pb (w : W) g, w_gpfifo (w_set_pushbuffer pb w) g = w_gpfifo w g;
  w_check_errors_ok : forall w : W, world_ok w -> world_ok (w_check_errors w).2;
  w_update_progress_ok : forall w : W, world_ok w -> world_ok (w_update_progress w);
}.

Section Begin.
Context {W : Type} `{PushbufferWorldLaws W}.

(** What happens in a spin keeps the pushbuffer well formed. *)
Definition rounds_ok (rounds : list (W -> W)) : Prop := Forall (fun spin => forall w, world_ok w -> world_ok (spin w)) rounds.

Lemma set_pushbuffer_ok pb w : pb_ok (w_gpfifo w) pb -> world_ok (w_set_pushbuffer pb w).
Proof.
  intros Hpb. unfold world_ok. rewrite w_pushbuffer_set. apply (pb_ok_ext (w_gpfifo w)); [|done]. intros i g _ _. apply w_gpfifo_set.
Qed.

(** The result of a claim: a chunk, now with this push, or nothing. *)
Definition claimed (push : nat) (chunk : option nat) (w : W) : Prop :=
  forall i, chunk = Some i -> (i < UVM_PUSHBUFFER_CHUNKS)%nat /\ current_push (chunk_at (w_pushbuffer w) i) = Some push.

Lemma w_try_claim_ok push w : world_ok w -> world_ok (w_try_claim push w).2 /\ claimed push (w_try_claim push w).1 (w_try_claim push w).2.
Proof.
  intros Hw. unfold w_try_claim. pose proof (try_claim_ok _ push _ Hw) as Hok. pose proof (try_claim_Some (w_gpfifo w) push (w_pushbuffer w)) as Hs.
  destruct (try_claim_chunk push (w_pushbuffer w)) as [chunk pb]. cbn [fst snd] in *. split; [by apply set_pushbuffer_ok|].
  intros i ->. destruct (Hs i Hw eq_refl) as (Hi & _ & Hc & _). rewrite w_pushbuffer_set, Hc. done.
Qed.

Lemma claim_loop_spec rounds : forall status push w st chunk w', rounds_ok rounds -> world_ok w ->
  claim_loop rounds status push w = Some ((st, chunk), w') -> world_ok w' /\ claimed push chunk w' /\ (st = NV_OK -> chunk <> None).
Proof.
  induction rounds as [|spin rounds IH]; intros status push w st chunk w' Hr Hw; cbn [claim_loop];
    destruct (w_try_claim_ok push w Hw) as [Hok Hcl]; destruct (w_try_claim push w) as [[i|] w1]; cbn [fst snd] in Hok, Hcl.
  1, 3: intros [= <- <- <-]; by split_and!.
  - destruct (is_ok status) eqn:Es; [done|]. intros [= <- <- <-]. split_and!; [done|by intros ? [=]|by intros ->].
  - destruct (is_ok status) eqn:Es.
    + apply Forall_cons in Hr as [Hspin Hr]. pose proof (w_check_errors_ok _ (Hspin w1 Hok)) as Hc.
      destruct (w_check_errors (spin w1)) as [st1 w2]. apply IH; [done|]. by apply w_update_progress_ok.
    + intros [= <- <- <-]. split_and!; [done|by intros ? [=]|by intros ->].
Qed.

(** The address of the on-going push of a chunk. *)
Lemma claimed_address base push i w : world_ok w -> claimed push (Some i) w -> exists off,
  chunk_get_next_push_start_addr base (w_pushbuffer w) i = base + off /\ current_push (chunk_at (w_pushbuffer w) i) = Some push /\
  uses (w_gpfifo w) (w_pushbuffer w) (OnGoingPush i) (off, off + UVM_MAX_PUSH_SIZE) /\ uvm_pushbuffer_get_offset_for_push base false (base + off) = off.
Proof.
  intros Hw Hc. destruct (Hc i eq_refl) as [Hi Hcur]. set (pb := w_pushbuffer w) in *. exists (chunk_get_offset i + next_push_start (chunk_at pb i)).
  assert (uses (w_gpfifo w) pb (OnGoingPush i) (chunk_get_offset i + next_push_start (chunk_at pb i), chunk_get_offset i + next_push_start (chunk_at pb i) + UVM_MAX_PUSH_SIZE)) as Hu
    by (split_and!; [done|done|by rewrite Hcur]).
  split_and!; [unfold chunk_get_next_push_start_addr; lia|done|done|].
  destruct (uses_bounds _ _ Hw _ _ Hu) as (Hb1 & Hb2 & _). cbn [fst snd] in *. unfold uvm_pushbuffer_get_offset_for_push.
  unfold UVM_PUSHBUFFER_SIZE, UVM_PUSHBUFFER_CHUNK_SIZE, UVM_MAX_PUSH_SIZE, UVM_PUSHBUFFER_CHUNKS in Hb2.
  rewrite wrap_id by (unfold in_width; lia). lia.
Qed.

(** The address a successful begin returns is that of the on-going push of a chunk. *)
Lemma begin_push_ok base rounds push w a w' : rounds_ok rounds -> world_ok w ->
  uvm_pushbuffer_begin_push base None rounds push w = Some ((NV_OK, a), w') ->
  world_ok w' /\ exists i off, a = Some (base + off) /\ current_push (chunk_at (w_pushbuffer w') i) = Some push /\
    uses (w_gpfifo w') (w_pushbuffer w') (OnGoingPush i) (off, off + UVM_MAX_PUSH_SIZE) /\ uvm_pushbuffer_get_offset_for_push base false (base + off) = off.
Proof.
  intros Hr Hw. unfold uvm_pushbuffer_begin_push, claim_chunk. set (w0 := w_sema Z.pred w).
  assert (world_ok w0) as Hw0 by (by apply set_pushbuffer_ok, pb_ok_sema). clearbody w0.
  destruct (w_try_claim_ok push w0 Hw0) as [Hok Hcl]. destruct (w_try_claim push w0) as [[i|] w1]; cbn [fst snd] in Hok, Hcl.
  - change (is_ok NV_OK) with true. cbv iota. intros [= <- <-]. split; [done|].
    destruct (claimed_address base push i w1 Hok Hcl) as (off & -> & ?). by exists i, off.
  - destruct (claim_loop rounds NV_OK push (w_update_progress w1)) as [[[st chunk] w2]|] eqn:El; [|done].
    apply claim_loop_spec in El as (Hok2 & Hc2 & Hne); [|done|by apply w_update_progress_ok].
    destruct (is_ok st) eqn:Es; [|intros [= -> _ _]; done]. intros [= <- <-]. split; [done|]. apply is_ok_true in Es.
    destruct chunk as [i|]; [|by destruct Hne]. destruct (claimed_address base push i w2 Hok2 Hc2) as (off & Ha & ?). exists i, off. cbn [fmap option_fmap option_map]. by rewrite Ha.
Qed.

End Begin.

(** ** Correctness *)

(** C23: A push that begins gets memory for a push of the greatest size, inside one
    chunk of the pushbuffer and aligned to the size of a method, that overlaps no
    push the GPU may still read and no other on-going push, however long the claim
    waits and whatever the other threads do meanwhile. *)
Theorem begin_push_gets_free_memory {W : Type} `{PushbufferWorldLaws W} base rounds push (w : W) a w' :
  world_ok w -> rounds_ok rounds -> uvm_pushbuffer_begin_push base None rounds push w = Some ((NV_OK, a), w') ->
  world_ok w' /\ exists i off, a = Some (base + off) /\ current_push (chunk_at (w_pushbuffer w') i) = Some push /\
    0 <= off /\ off + UVM_MAX_PUSH_SIZE <= UVM_PUSHBUFFER_SIZE /\ (4 | off) /\
    off / UVM_PUSHBUFFER_CHUNK_SIZE = (off + UVM_MAX_PUSH_SIZE - 1) / UVM_PUSHBUFFER_CHUNK_SIZE /\
    uvm_pushbuffer_get_offset_for_push base false (base + off) = off /\
    forall u r, uses (w_gpfifo w') (w_pushbuffer w') u r -> u <> OnGoingPush i -> r.2 <= off \/ off + UVM_MAX_PUSH_SIZE <= r.1.
Proof.
  intros Hw Hr Hb. destruct (begin_push_ok base rounds push w a w' Hr Hw Hb) as (Hw' & i & off & Ha & Hc & Hu & Ho).
  split; [done|]. exists i, off. destruct (uses_bounds _ _ Hw' _ _ Hu) as (H1 & H2 & H4 & H5). cbn [fst snd] in *.
  split_and!; try done; [lia|]. intros u r Hu' Hne. apply (uses_disjoint _ _ Hw' u (OnGoingPush i) r (off, off + UVM_MAX_PUSH_SIZE) Hu' Hu Hne).
Qed.

(** The pushbuffer reports no space exactly when no chunk without an on-going
    push can take a push of the greatest size before the first or after the last
    of its pending pushes; a chunk with nothing pending always has space. *)
Theorem has_space_exact ent pb : pb_ok ent pb ->
  (uvm_pushbuffer_has_space pb = true <->
     exists i p, (i < UVM_PUSHBUFFER_CHUNKS)%nat /\ current_push (chunk_at pb i) = None /\ ring_ok (spans ent pb i ++ [full_span p])) /\
  (forall i, (i < UVM_PUSHBUFFER_CHUNKS)%nat -> current_push (chunk_at pb i) = None -> pending_gpfifos (chunk_at pb i) = [] ->
     uvm_pushbuffer_has_space pb = true).
Proof.
  intros Hpb. unfold uvm_pushbuffer_has_space.
  assert ((if pick_chunk pb is Some _ then true else false) = true <->
     exists i p, (i < UVM_PUSHBUFFER_CHUNKS)%nat /\ current_push (chunk_at pb i) = None /\ ring_ok (spans ent pb i ++ [full_span p])) as Hiff.
  { destruct (pick_chunk pb) as [i|] eqn:Ep.
    - split; [intros _|done]. destruct (pick_chunk_Some ent pb i Hpb Ep) as (Hi & Hc & Hf). by exists i, (next_push_start (chunk_at pb i)).
    - split; [done|]. intros (i & p & Hi & Hc & Hf). by destruct (pick_chunk_None ent pb i Hpb Ep Hi Hc p). }
  split; [done|]. intros i Hi Hc Hn. apply Hiff. exists i, 0. split_and!; [done|done|]. unfold spans. rewrite Hn. apply empty_fits.
Qed.

(** ** Runs *)

(** The entries of a client that makes pushes of the greatest size one after the
    other: the push [n] goes to the chunk that a new pushbuffer picks for it. *)
Definition filling_chunk (n : nat) : nat := if (n <? 16)%nat then n else ((n - 16) / 7)%nat.
Definition filling_start (n : nat) : Z := if (n <? 16)%nat then 0 else Z.of_nat ((n - 16) mod 7 + 1) * UVM_MAX_PUSH_SIZE.
Definition filling_entry (g : gpfifo_id) : uvm_gpfifo_entry_t :=
  mk_gpfifo UVM_GPFIFO_ENTRY_TYPE_NORMAL (Z.of_nat g.2 + 1)
    (chunk_get_offset (filling_chunk g.2) + filling_start g.2) UVM_MAX_PUSH_SIZE 0 0.

Definition fill (pb : uvm_pushbuffer_t) (n : nat) : uvm_pushbuffer_t :=
  uvm_pushbuffer_end_push filling_entry false (0%nat, n) (try_claim_chunk n (pb <| concurrent_pushes_sema ::= Z.pred |>)).2.

Definition full_pushbuffer : uvm_pushbuffer_t := foldl fill uvm_pushbuffer_create (seq 0 128).

(** With 128 pending pushes of the greatest size no space is left; when the first
    one completes there is space again. *)
Lemma pushbuffer_fills :
  uvm_pushbuffer_has_space full_pushbuffer = false /\ concurrent_pushes_sema full_pushbuffer = 16 /\
  uvm_pushbuffer_has_space (remove_pending filling_entry (0%nat, 0%nat) full_pushbuffer) = true.
Proof. vm_compute. done. Qed.

(** A driver with nothing but the pushbuffer and a script: the status of the next
    check for errors and what the progress after it does. *)
Definition script_t : Type := uvm_pushbuffer_t * list (NV_STATUS * (uvm_pushbuffer_t -> uvm_pushbuffer_t)).

#[local] Instance script_world : PushbufferWorld script_t := {
  w_pushbuffer := fst;
  w_set_pushbuffer := fun pb w => (pb, w.2);
  w_gpfifo := fun _ => filling_entry;
  w_check_errors := fun w => (default NV_OK (fst <$> head w.2), w);
  w_update_progress := fun w => match w.2 with [] => w | (_, progress) :: rest => (progress w.1, rest) end;
}.

(** A claim that has seen an error tries once more before it looks at the error.
    When a chunk has become available meanwhile, the begin fails although the chunk
    is claimed: no push will end there, and the chunk is lost. *)
Lemma failed_begin_leaks_chunk :
  match uvm_pushbuffer_begin_push 0 None [id] 200
      ((full_pushbuffer, [(NV_OK, id); (NV_ERR_RC_ERROR, remove_pending filling_entry (0%nat, 0%nat))]) : script_t) with
  | Some ((status, address), w) =>
      status = NV_ERR_RC_ERROR /\ address = None /\ concurrent_pushes_sema w.1 = 16 /\ current_push (chunk_at w.1 0) = Some 200%nat
  | None => False
  end.
Proof. vm_compute. done. Qed.

(** Scripts that do nothing keep the laws. *)
Definition quiet_t : Type := uvm_pushbuffer_t.

#[local] Instance quiet_world : PushbufferWorld quiet_t := {
  w_pushbuffer := id;
  w_set_pushbuffer := fun pb _ => pb;
  w_gpfifo := fun _ => filling_entry;
  w_check_errors := fun w => (NV_OK, w);
  w_update_progress := id;
}.

#[local] Instance quiet_laws : PushbufferWorldLaws quiet_t.
Proof. by split. Qed.

Lemma quiet_ok : world_ok (uvm_pushbuffer_create : quiet_t).
Proof. unfold world_ok. exact (create_ok filling_entry). Qed.

Lemma begin_push_gets_free_memory_witness : exists w' off,
  uvm_pushbuffer_begin_push 4096 None [] 7 (uvm_pushbuffer_create : quiet_t) = Some ((NV_OK, Some (4096 + off)), w') /\
  0 <= off /\ off + UVM_MAX_PUSH_SIZE <= UVM_PUSHBUFFER_SIZE.
Proof.
  destruct (uvm_pushbuffer_begin_push 4096 None [] 7 (uvm_pushbuffer_create : quiet_t)) as [[[st a] w']|] eqn:E; [|by vm_compute in E].
  assert (st = NV_OK) as -> by (by vm_compute in E; injection E as <-).
  destruct (begin_push_gets_free_memory (W := quiet_t) 4096 [] 7 uvm_pushbuffer_create a w' quiet_ok (Forall_nil_2 _) E)
    as (_ & i & off & -> & _ & H1 & H2 & _).
  exists w', off. by split_and!.
Defined.

Lemma has_space_exact_witness : uvm_pushbuffer_has_space uvm_pushbuffer_create = true.
Proof. apply (proj2 (has_space_exact filling_entry uvm_pushbuffer_create (create_ok _)) 0%nat); [unfold UVM_PUSHBUFFER_CHUNKS; lia|done|done]. Defined.
