(* ===== verification/Semaphore.v ===== *)
(** * GPU semaphores

    Semaphores and their pools, and the tracking semaphores that count 64-bit values
    with a 32-bit payload ([uvm_gpu_semaphore.c], [uvm_gpu_semaphore.h]).  A pool is
    a list of pages; a page is named by its allocation, which also stands for the
    memory.  Each operation runs under the lock of the pool or of the tracking
    semaphore; the GPU writes payloads at any time in between. *)

From stdpp Require Import gmap.
From S2P Require Import Prelude FaultTypes.

Local Open Scope Z_scope.

(** ** Tracking semaphores *)

Definition UVM_CHANNEL_NUM_GPFIFO_ENTRIES_MAX : Z := 1024 * 1024.
Definition UVM_GPU_SEMAPHORE_MAX_JUMP : Z := 2 * UVM_CHANNEL_NUM_GPFIFO_ENTRIES_MAX.

(** The payload is what [uvm_gpu_semaphore_get_payload] reads. *)
Record uvm_gpu_tracking_semaphore_t : Type := mk_tracking {
  sem_payload : Z;
  completed_value : Z;
  queued_value : Z;
}.

#[export] Instance tracking_eta : Eta uvm_gpu_tracking_semaphore_t := fun t =>
  mk_tracking (sem_payload t) (completed_value t) (queued_value t).

(** [uvm_gpu_tracking_semaphore_alloc], once the semaphore is allocated. *)
Definition uvm_gpu_tracking_semaphore_alloc : uvm_gpu_tracking_semaphore_t := mk_tracking 0 0 0.

Definition update_completed_value_locked (t : uvm_gpu_tracking_semaphore_t) : Z * uvm_gpu_tracking_semaphore_t :=
  let old_value := completed_value t in
  let old_sem_value := u32 old_value in
  let new_sem_value := sem_payload t in
  if old_sem_value =? new_sem_value then (old_value, t)
  else
    let new_value := Z.lor (Z.land old_value 0xFFFFFFFF00000000) new_sem_value in
    let new_value := if new_sem_value <? old_sem_value then u64 (new_value + Z.shiftl 1 32) else new_value in
    (new_value, t <| completed_value := new_value |>).

(** The assertion on large jumps in [update_completed_value_locked]. *)
Definition jump_allowed (t : uvm_gpu_tracking_semaphore_t) : bool :=
  u64 ((update_completed_value_locked t).1 - completed_value t) <=? UVM_GPU_SEMAPHORE_MAX_JUMP.

Definition uvm_gpu_tracking_semaphore_update_completed_value (t : uvm_gpu_tracking_semaphore_t) : Z * uvm_gpu_tracking_semaphore_t :=
  update_completed_value_locked t.

Definition uvm_gpu_tracking_semaphore_is_value_completed (value : Z) (t : uvm_gpu_tracking_semaphore_t) : bool * uvm_gpu_tracking_semaphore_t :=
  if value <=? completed_value t then (true, t)
  else
    let '(completed, t) := uvm_gpu_tracking_semaphore_update_completed_value t in
    (value <=? completed, t).

Definition uvm_gpu_tracking_semaphore_is_completed (t : uvm_gpu_tracking_semaphore_t) : bool * uvm_gpu_tracking_semaphore_t :=
  uvm_gpu_tracking_semaphore_is_value_completed (queued_value t) t.

(** The GPU releases the semaphore for the value [v]: it only has 32 bits of it. *)
Definition gpu_release (v : Z) (t : uvm_gpu_tracking_semaphore_t) : uvm_gpu_tracking_semaphore_t := t <| sem_payload := u32 v |>.

(** ** What a tracking semaphore counts *)

(** The GPU has released [released], and the CPU has not missed a full turn of the
    payload. *)
Definition counts (t : uvm_gpu_tracking_semaphore_t) (released : Z) : Prop :=
  sem_payload t = u32 released /\ 0 <= completed_value t <= released /\ released < completed_value t + 2 ^ 32 /\ released < 2 ^ 64.

(** Replacing the low 32 bits. *)
Lemma replace_low v p : 0 <= v < 2 ^ 64 -> 0 <= p < 2 ^ 32 -> Z.lor (Z.land v 0xFFFFFFFF00000000) p = v - v mod 2 ^ 32 + p.
Proof.
  intros Hv Hp. change 0xFFFFFFFF00000000 with (u64 (Z.lnot (2 ^ 32 - 1))). change (Z.land v _) with (UVM_ALIGN_DOWN v (2 ^ 32)).
  rewrite align_down_spec by lia. pose proof (Z.div_mod v (2 ^ 32)) as Hd. replace (v - v mod 2 ^ 32) with (v / 2 ^ 32 * 2 ^ 32) by lia.
  rewrite <- Z.shiftl_mul_pow2 by lia.
  assert (Z.land (Z.shiftl (v / 2 ^ 32) 32) p = 0) as H0.
  { apply Z.bits_inj'. intros n Hn. rewrite Z.land_spec, Z.bits_0.
    destruct (decide (n < 32)); [by rewrite Z.shiftl_spec_low|].
    rewrite (Z.bits_above_log2 p n), andb_false_r; [done|lia|]. destruct (decide (p = 0)) as [->|]; [simpl; lia|].
    apply Z.log2_lt_pow2; [lia|]. assert (2 ^ 32 <= 2 ^ n) by (apply Z.pow_le_mono_r; lia). lia. }
  by rewrite <- (Z.lxor_lor _ _ H0), <- (Z.add_nocarry_lxor _ _ H0).
Qed.

(** The update finds the released value. *)
Lemma update_counts t released : counts t released ->
  update_completed_value_locked t = (released, t <| completed_value := released |>).
Proof.
  intros (Hp & Hc & Hr & H64). unfold update_completed_value_locked. rewrite Hp. unfold wrap.
  pose proof (Z.div_mod (completed_value t) (2 ^ 32)). pose proof (Z.div_mod released (2 ^ 32)).
  pose proof (Z.mod_pos_bound (completed_value t) (2 ^ 32)). pose proof (Z.mod_pos_bound released (2 ^ 32)).
  rewrite replace_low by lia. set (c := completed_value t) in *. change (Z.shiftl 1 32) with (2 ^ 32).
  assert (released / 2 ^ 32 = c / 2 ^ 32 \/ released / 2 ^ 32 = c / 2 ^ 32 + 1) as Hd by lia.
  destruct (Z.eqb_spec (c mod 2 ^ 32) (released mod 2 ^ 32)) as [He|Hne].
  - assert (released = c) as -> by lia. by destruct t.
  - destruct (Z.ltb_spec (released mod 2 ^ 32) (c mod 2 ^ 32)).
    + assert (c - c mod 2 ^ 32 + released mod 2 ^ 32 + 2 ^ 32 = released) as -> by lia. by rewrite Z.mod_small by lia.
    + by assert (c - c mod 2 ^ 32 + released mod 2 ^ 32 = released) as -> by lia.
Qed.

Lemma counts_updated t released : counts t released -> counts (t <| completed_value := released |>) released.
Proof. intros (Hp & Hc & Hr & H64). unfold counts. simpl. split_and!; [done|lia..]. Qed.

Lemma is_value_completed_counts t released v : counts t released ->
  (uvm_gpu_tracking_semaphore_is_value_completed v t).1 = (v <=? released) /\
  counts (uvm_gpu_tracking_semaphore_is_value_completed v t).2 released /\
  completed_value t <= completed_value (uvm_gpu_tracking_semaphore_is_value_completed v t).2.
Proof.
  intros Hc. pose proof Hc as (_ & Hle & _). unfold uvm_gpu_tracking_semaphore_is_value_completed, uvm_gpu_tracking_semaphore_update_completed_value.
  destruct (Z.leb_spec v (completed_value t)); cbn [fst snd].
  - split_and!; [symmetry; apply Z.leb_le; lia|done|lia].
  - rewrite (update_counts t released Hc). cbn [fst snd]. split_and!; [done|by apply counts_updated|cbn [completed_value upd]; lia].
Qed.

Lemma release_counts t released v : counts t released -> released <= v < completed_value t + 2 ^ 32 -> v < 2 ^ 64 -> counts (gpu_release v t) v.
Proof. intros (Hp & Hc & Hr & H64) Hv Hv64. unfold counts. simpl. split_and!; [done|lia..]. Qed.

(** ** A tracking semaphore implements a 64-bit counter *)

(** The GPU advances by [n], a thread updates, a thread asks for a value. *)
Inductive sem_op : Type :=
| GpuAdvances (n : Z)
| CpuUpdates
| CpuAsks (v : Z).

(** The counter; the second component is its value at the last update.  With the
    answer comes whether the assertion on large jumps holds. *)
Definition counter_step (op : sem_op) (s : Z * Z) : (Z * bool) * (Z * Z) :=
  let small := s.1 - s.2 <=? UVM_GPU_SEMAPHORE_MAX_JUMP in
  match op with
  | GpuAdvances n => ((0, true), (s.1 + n, s.2))
  | CpuUpdates => ((s.1, small), (s.1, s.1))
  | CpuAsks v => if v <=? s.2 then ((1, true), s) else ((Z.b2z (v <=? s.1), small), (s.1, s.1))
  end.

(** The user updates often enough to notice each turn of the payload. *)
Definition often_enough (op : sem_op) (s : Z * Z) : bool :=
  match op with
  | GpuAdvances n => (0 <=? n) && (s.1 + n <? s.2 + 2 ^ 32) && (s.1 + n <? 2 ^ 64)
  | _ => true
  end.

(** The semaphore with what the GPU has released. *)
Definition semaphore_step (op : sem_op) (s : uvm_gpu_tracking_semaphore_t * Z) : (Z * bool) * (uvm_gpu_tracking_semaphore_t * Z) :=
  match op with
  | GpuAdvances n => ((0, true), (gpu_release (s.2 + n) s.1, s.2 + n))
  | CpuUpdates => let '(v, t) := uvm_gpu_tracking_semaphore_update_completed_value s.1 in ((v, jump_allowed s.1), (t, s.2))
  | CpuAsks v =>
      let '(b, t) := uvm_gpu_tracking_semaphore_is_value_completed v s.1 in
      ((Z.b2z b, (v <=? completed_value s.1) || jump_allowed s.1), (t, s.2))
  end.

Fixpoint outputs {S} (step : sem_op -> S -> (Z * bool) * S) (ops : list sem_op) (s : S) : list (Z * bool) :=
  match ops with
  | [] => []
  | op :: ops => let '(v, s) := step op s in v :: outputs step ops s
  end.

Fixpoint all_often_enough (ops : list sem_op) (s : Z * Z) : bool :=
  match ops with
  | [] => true
  | op :: ops => often_enough op s && all_often_enough ops (counter_step op s).2
  end.

(** The simulation relation. *)
Definition sem_sim (s : uvm_gpu_tracking_semaphore_t * Z) (c : Z * Z) : Prop :=
  counts s.1 s.2 /\ s.2 = c.1 /\ completed_value s.1 = c.2.

Lemma jump_allowed_counts t released : counts t released -> jump_allowed t = (released - completed_value t <=? UVM_GPU_SEMAPHORE_MAX_JUMP).
Proof.
  intros Hc. pose proof Hc as (_ & Hle & Hlt & _). unfold jump_allowed. rewrite (update_counts t released Hc). cbn [fst].
  unfold wrap. by rewrite Z.mod_small by lia.
Qed.

Lemma sem_step_sim op s c : sem_sim s c -> often_enough op c = true ->
  (semaphore_step op s).1 = (counter_step op c).1 /\ sem_sim (semaphore_step op s).2 (counter_step op c).2.
Proof.
  destruct s as [t r], c as [c last]. intros (Hc & Er & El). cbn [fst snd] in *. subst c last.
  pose proof (jump_allowed_counts t r Hc) as Hj. pose proof Hc as (_ & Hle & _).
  destruct op as [n| |v]; cbn [often_enough semaphore_step counter_step fst snd].
  - intros [[H1%Z.leb_le H2%Z.ltb_lt]%andb_prop H3%Z.ltb_lt]%andb_prop. split; [done|].
    split; [|done]. cbn [fst snd]. apply (release_counts t r (r + n)); [done|lia|done].
  - intros _. unfold uvm_gpu_tracking_semaphore_update_completed_value. rewrite (update_counts t r Hc), Hj. split; [done|]. split; [by apply counts_updated|done].
  - intros _. unfold uvm_gpu_tracking_semaphore_is_value_completed, uvm_gpu_tracking_semaphore_update_completed_value.
    destruct (Z.leb_spec v (completed_value t)); [by split|]. rewrite (update_counts t r Hc), Hj. split; [done|]. by split; [apply counts_updated|].
Qed.

(** C25: As long as the GPU is always less than 2^32 ahead of the last update, and
    releases less than 2^64 values, a tracking semaphore answers every update and
    every question as a 64-bit counter of what the GPU has released, although the GPU
    only writes 32 bits; its assertion on large jumps fails at exactly the updates
    that find the counter more than [UVM_GPU_SEMAPHORE_MAX_JUMP] ahead. *)
Theorem tracking_refines_counter ops : all_often_enough ops (0, 0) = true ->
  outputs semaphore_step ops (uvm_gpu_tracking_semaphore_alloc, 0) = outputs counter_step ops (0, 0).
Proof.
  assert (sem_sim (uvm_gpu_tracking_semaphore_alloc, 0) (0, 0)) as H0 by (by vm_compute).
  revert H0. generalize (uvm_gpu_tracking_semaphore_alloc, 0) (0, 0). induction ops as [|op ops IH]; intros s c Hs; cbn [all_often_enough outputs]; [done|].
  intros [Ho Ha]%andb_prop. destruct (sem_step_sim op s c Hs Ho) as [He Hs'].
  destruct (semaphore_step op s) as [v s'], (counter_step op c) as [v' c']. cbn [fst snd] in *. subst v'. f_equal. by apply IH.
Qed.

(** A run over the turn of the payload, in the largest jumps that pass the assertion. *)
Definition turning_ops : list sem_op :=
  concat (replicate 2048 [GpuAdvances UVM_GPU_SEMAPHORE_MAX_JUMP; CpuUpdates]) ++ [CpuAsks (2 ^ 32 + 1); GpuAdvances 5; CpuAsks (2 ^ 32 + 5)].

Lemma tracking_refines_counter_witness : all_often_enough turning_ops (0, 0) = true /\
  (let o := outputs semaphore_step turning_ops (uvm_gpu_tracking_semaphore_alloc, 0) in
   drop 4095 o = [(2 ^ 32, true); (0, true); (0, true); (1, true)] /\ forallb snd o = true).
Proof. split; [by vm_compute|]. rewrite (tracking_refines_counter turning_ops) by (by vm_compute). split; by vm_compute. Defined.

(** ** Semaphore pools *)

Definition UVM_SEMAPHORE_SIZE : Z := 4.
Definition UVM_SEMAPHORE_COUNT_PER_PAGE : nat := Z.to_nat (PAGE_SIZE / UVM_SEMAPHORE_SIZE).
Definition UVM_SEMAPHORE_CANARY_BASE : Z := 0x0badc0de.
Definition UVM_SEMAPHORE_CANARY_MASK : Z := 0xf0000000.

Definition make_canary (payload : Z) : Z :=
  let prev_quadrant := u32 (payload - Z.shiftl 1 30) in
  Z.lor (Z.land prev_quadrant UVM_SEMAPHORE_CANARY_MASK) UVM_SEMAPHORE_CANARY_BASE.

Definition is_canary (val : Z) : bool := Z.land val (u32 (Z.lnot UVM_SEMAPHORE_CANARY_MASK)) =? UVM_SEMAPHORE_CANARY_BASE.

(** A page: its allocation, the bitmap of free semaphores and the memory. *)
Record uvm_gpu_semaphore_pool_page_t : Type := mk_sem_page {
  page_memory : Z;
  free_semaphores : gset nat;
  payloads : list Z;
}.

#[export] Instance sem_page_eta : Eta uvm_gpu_semaphore_pool_page_t := fun p =>
  mk_sem_page (page_memory p) (free_semaphores p) (payloads p).

(** [pool_secure] is [gpu_semaphore_pool_is_secure]: the memory cannot be read by the
    CPU, which keeps a copy of the payload in the semaphore. *)
Record uvm_gpu_semaphore_pool_t : Type := mk_sem_pool {
  sem_pages : list uvm_gpu_semaphore_pool_page_t;
  free_semaphores_count : Z;
  pool_secure : bool;
}.

#[export] Instance sem_pool_eta : Eta uvm_gpu_semaphore_pool_t := fun p =>
  mk_sem_pool (sem_pages p) (free_semaphores_count p) (pool_secure p).

(** A semaphore; without a page it is not allocated.  The index stands for the
    pointer to the payload, or is the index of a secure semaphore. *)
Record uvm_gpu_semaphore_t : Type := mk_semaphore {
  sem_page : option Z;
  sem_index : nat;
  cached_payload : Z;
}.

Section Pool.
Context (debug : bool).

Definition semaphore_uses_canary (pool : uvm_gpu_semaphore_pool_t) : bool := negb (pool_secure pool) && debug.

(** Change the page that has the memory [m]. *)
Definition on_page (m : Z) (f : uvm_gpu_semaphore_pool_page_t -> uvm_gpu_semaphore_pool_page_t) (pool : uvm_gpu_semaphore_pool_t) : uvm_gpu_semaphore_pool_t :=
  pool <| sem_pages ::= fmap (fun p => if page_memory p =? m then f p else p) |>.

Definition uvm_gpu_semaphore_get_payload (sem : uvm_gpu_semaphore_t) (pool : uvm_gpu_semaphore_pool_t) : Z :=
  if pool_secure pool then cached_payload sem
  else
    match find (fun p => bool_decide (Some (page_memory p) = sem_page sem)) (sem_pages pool) with
    | Some p => default 0 (payloads p !! sem_index sem)
    | None => 0
    end.

Definition uvm_gpu_semaphore_set_payload (payload : Z) (sem : uvm_gpu_semaphore_t) (pool : uvm_gpu_semaphore_pool_t)
    : uvm_gpu_semaphore_t * uvm_gpu_semaphore_pool_t :=
  if pool_secure pool then (mk_semaphore (sem_page sem) (sem_index sem) payload, pool)
  else (sem, on_page (default 0 (sem_page sem)) (fun p => p <| payloads ::= <[sem_index sem := payload]> |>) pool).

(** [pool_alloc_page]: [mem] is the status of the allocations, or the new memory and
    what is in it. *)
Definition pool_alloc_page (mem : NV_STATUS + Z * list Z) (pool : uvm_gpu_semaphore_pool_t) : NV_STATUS * uvm_gpu_semaphore_pool_t :=
  match mem with
  | inl st => (st, pool)
  | inr (m, contents) =>
      let payloads := if semaphore_uses_canary pool then replicate UVM_SEMAPHORE_COUNT_PER_PAGE (make_canary 0) else contents in
      (NV_OK, pool <| sem_pages ::= cons (mk_sem_page m (set_seq 0 UVM_SEMAPHORE_COUNT_PER_PAGE) payloads) |>
                   <| free_semaphores_count ::= (fun n => u32 (n + Z.of_nat UVM_SEMAPHORE_COUNT_PER_PAGE)) |>)
  end.

(** The first free semaphore of a page, and of the first page that has one. *)
Definition first_free (p : uvm_gpu_semaphore_pool_page_t) : option nat :=
  head (filter (fun i => i ∈ free_semaphores p) (seq 0 UVM_SEMAPHORE_COUNT_PER_PAGE)).

Fixpoint find_semaphore (pages : list uvm_gpu_semaphore_pool_page_t) : option (Z * nat) :=
  match pages with
  | [] => None
  | p :: pages =>
      match first_free p with
      | Some i => Some (page_memory p, i)
      | None => find_semaphore pages
      end
  end.

Definition uvm_gpu_semaphore_alloc (mem : NV_STATUS + Z * list Z) (pool : uvm_gpu_semaphore_pool_t)
    : NV_STATUS * (uvm_gpu_semaphore_t * uvm_gpu_semaphore_pool_t) :=
  let sem := mk_semaphore None 0 0 in
  let '(status, pool) := if free_semaphores_count pool =? 0 then pool_alloc_page mem pool else (NV_OK, pool) in
  if negb (is_ok status) then (status, (sem, pool))
  else
    match find_semaphore (sem_pages pool) with
    | None => (NV_ERR_GENERIC, (sem, pool))
    | Some (m, i) =>
        let '(sem, pool) := uvm_gpu_semaphore_set_payload 0 (mk_semaphore (Some m) i 0) pool in
        (NV_OK, (sem, on_page m (fun p => p <| free_semaphores ::= (fun s => s ∖ {[ i ]}) |>) pool
                        <| free_semaphores_count ::= (fun n => u32 (n - 1)) |>))
    end.

Definition uvm_gpu_semaphore_free (sem : uvm_gpu_semaphore_t) (pool : uvm_gpu_semaphore_pool_t) : uvm_gpu_semaphore_t * uvm_gpu_semaphore_pool_t :=
  match sem_page sem with
  | None => (sem, pool)
  | Some m =>
      let '(sem, pool) :=
        if semaphore_uses_canary pool
        then uvm_gpu_semaphore_set_payload (make_canary (uvm_gpu_semaphore_get_payload sem pool)) sem pool else (sem, pool) in
      (mk_semaphore None (sem_index sem) (cached_payload sem),
       on_page m (fun p => p <| free_semaphores ::= (fun s => s ∪ {[ sem_index sem ]}) |>) pool
         <| free_semaphores_count ::= (fun n => u32 (n + 1)) |>)
  end.

Definition uvm_gpu_semaphore_pool_create (secure : bool) : uvm_gpu_semaphore_pool_t := mk_sem_pool [] 0 secure.

(** [pool_free_page]; the flag is whether its assertions hold. *)
Definition pool_free_page (p : uvm_gpu_semaphore_pool_page_t) (pool : uvm_gpu_semaphore_pool_t) : bool * uvm_gpu_semaphore_pool_t :=
  (bool_decide (free_semaphores p = set_seq 0 UVM_SEMAPHORE_COUNT_PER_PAGE)
     && (Z.of_nat UVM_SEMAPHORE_COUNT_PER_PAGE <=? free_semaphores_count pool)
     && (negb (semaphore_uses_canary pool) || forallb is_canary (payloads p)),
   pool <| free_semaphores_count ::= (fun n => u32 (n - Z.of_nat UVM_SEMAPHORE_COUNT_PER_PAGE)) |>
        <| sem_pages ::= filter (fun q => page_memory q <> page_memory p) |>).

Fixpoint pool_free_pages (pages : list uvm_gpu_semaphore_pool_page_t) (pool : uvm_gpu_semaphore_pool_t) : bool * uvm_gpu_semaphore_pool_t :=
  match pages with
  | [] => (true, pool)
  | p :: pages =>
      let '(ok, pool) := pool_free_page p pool in
      let '(oks, pool) := pool_free_pages pages pool in
      (ok && oks, pool)
  end.

Definition uvm_gpu_semaphore_pool_destroy (pool : uvm_gpu_semaphore_pool_t) : bool * uvm_gpu_semaphore_pool_t :=
  let '(ok, pool) := pool_free_pages (sem_pages pool) pool in
  (ok && (free_semaphores_count pool =? 0) && bool_decide (length (sem_pages pool) = 0%nat), pool).

End Pool.

(** ** Canaries *)

Lemma canary_mask q : 0 <= q < 2 ^ 32 -> Z.land q UVM_SEMAPHORE_CANARY_MASK = q - q mod 2 ^ 28.
Proof.
  intros Hq. rewrite <- (align_down_spec q 28) by lia. unfold UVM_ALIGN_DOWN, UVM_SEMAPHORE_CANARY_MASK.
  assert (q = Z.land q (2 ^ 32 - 1)) as E by (rewrite land_mask_mod, Z.mod_small; lia).
  rewrite E at 2. rewrite <- Z.land_assoc. by f_equal.
Qed.

Lemma make_canary_value payload : make_canary payload = u32 (payload - 2 ^ 30) - u32 (payload - 2 ^ 30) mod 2 ^ 28 + UVM_SEMAPHORE_CANARY_BASE.
Proof.
  unfold make_canary. change (Z.shiftl 1 30) with (2 ^ 30). set (q := u32 (payload - 2 ^ 30)).
  assert (0 <= q < 2 ^ 32) as Hq by (by apply wrap_in_width). rewrite canary_mask by done.
  pose proof (Z.div_mod q (2 ^ 28)). replace (q - q mod 2 ^ 28) with (q / 2 ^ 28 * 2 ^ 28) by lia. rewrite <- Z.shiftl_mul_pow2 by lia.
  assert (Z.land (Z.shiftl (q / 2 ^ 28) 28) UVM_SEMAPHORE_CANARY_BASE = 0) as H0.
  { apply Z.bits_inj'. intros n Hn. rewrite Z.land_spec, Z.bits_0. destruct (decide (n < 28)); [by rewrite Z.shiftl_spec_low|].
    rewrite (Z.bits_above_log2 UVM_SEMAPHORE_CANARY_BASE n), andb_false_r; [done|by vm_compute|].
    assert (Z.log2 UVM_SEMAPHORE_CANARY_BASE = 27) as -> by (by vm_compute). lia. }
  by rewrite <- (Z.lxor_lor _ _ H0), <- (Z.add_nocarry_lxor _ _ H0).
Qed.

(** A canary is recognised, and lies behind the payload by less than half a turn, so
    that an acquire that is still pending does not succeed. *)
Lemma make_canary_ok payload : 0 <= payload < 2 ^ 32 ->
  is_canary (make_canary payload) = true /\ 0 < u32 (payload - make_canary payload) < 2 ^ 31.
Proof.
  intros Hp. rewrite make_canary_value. set (q := u32 (payload - 2 ^ 30)).
  assert (0 <= q < 2 ^ 32) as Hq by (by apply wrap_in_width).
  pose proof (Z.div_mod q (2 ^ 28)) as Hd. pose proof (Z.mod_pos_bound q (2 ^ 28)) as Hm.
  assert (UVM_SEMAPHORE_CANARY_BASE = 195936478) as Hb by done. split.
  - unfold is_canary. apply Z.eqb_eq. change (u32 (Z.lnot UVM_SEMAPHORE_CANARY_MASK)) with (2 ^ 28 - 1). rewrite land_mask_mod by lia.
    symmetry. apply (Z.mod_unique _ _ (q / 2 ^ 28)); lia.
  - assert (exists k, payload - (q - q mod 2 ^ 28 + UVM_SEMAPHORE_CANARY_BASE) = 2 ^ 30 + q mod 2 ^ 28 - UVM_SEMAPHORE_CANARY_BASE + k * 2 ^ 32) as [k ->].
    { exists ((payload - 2 ^ 30) / 2 ^ 32). unfold q, wrap. pose proof (Z.div_mod (payload - 2 ^ 30) (2 ^ 32)). lia. }
    unfold wrap. rewrite Z.mod_add, Z.mod_small by lia. lia.
Qed.

(** ** The pool hands out each semaphore once *)

Local Opaque UVM_SEMAPHORE_COUNT_PER_PAGE.

Record pool_ok (pool : uvm_gpu_semaphore_pool_t) : Prop := {
  pool_pages : NoDup (page_memory <$> sem_pages pool);
  pool_free : forall p, p ∈ sem_pages pool -> free_semaphores p ⊆ set_seq 0 UVM_SEMAPHORE_COUNT_PER_PAGE;
  pool_payloads : forall p, p ∈ sem_pages pool -> length (payloads p) = UVM_SEMAPHORE_COUNT_PER_PAGE;
  pool_count : free_semaphores_count pool = sumz (fun p => Z.of_nat (size (free_semaphores p))) (sem_pages pool);
}.

(** The semaphore [i] of the page [m] is in use. *)
Definition in_use (pool : uvm_gpu_semaphore_pool_t) (m : Z) (i : nat) : Prop :=
  exists p, p ∈ sem_pages pool /\ page_memory p = m /\ (i < UVM_SEMAPHORE_COUNT_PER_PAGE)%nat /\ i ∉ free_semaphores p.

Lemma first_free_Some p i : first_free p = Some i -> (i < UVM_SEMAPHORE_COUNT_PER_PAGE)%nat /\ i ∈ free_semaphores p.
Proof.
  unfold first_free. destruct (filter _ _) as [|j l] eqn:E; [done|]. intros [= ->].
  assert (i ∈ filter (fun i => i ∈ free_semaphores p) (seq 0 UVM_SEMAPHORE_COUNT_PER_PAGE)) as H by (rewrite E; by left).
  apply list_elem_of_filter in H as [? ?%elem_of_seq]. split; [lia|done].
Qed.

Lemma first_free_None p : first_free p = None -> free_semaphores p ⊆ set_seq 0 UVM_SEMAPHORE_COUNT_PER_PAGE -> size (free_semaphores p) = 0%nat.
Proof.
  unfold first_free. intros H Hs. apply size_empty_iff. intros i. split; [|by intros ?%elem_of_empty]. intros Hi. exfalso.
  assert (i ∈ filter (fun i => i ∈ free_semaphores p) (seq 0 UVM_SEMAPHORE_COUNT_PER_PAGE)) as He
    by (apply list_elem_of_filter; split; [done|]; apply Hs in Hi; apply elem_of_set_seq in Hi; apply elem_of_seq; lia).
  destruct (filter _ _); [by apply elem_of_nil in He|done].
Qed.

Lemma find_semaphore_Some pages m i : find_semaphore pages = Some (m, i) ->
  exists p, p ∈ pages /\ page_memory p = m /\ (i < UVM_SEMAPHORE_COUNT_PER_PAGE)%nat /\ i ∈ free_semaphores p.
Proof.
  induction pages as [|p pages IH]; [done|]. simpl. destruct (first_free p) as [j|] eqn:E.
  - intros [= <- ->]. apply first_free_Some in E as [? ?]. exists p. split_and!; [by left|done..].
  - intros (q & Hq & ?)%IH. exists q. split; [by right|done].
Qed.

Lemma find_semaphore_None pages : (forall p, p ∈ pages -> free_semaphores p ⊆ set_seq 0 UVM_SEMAPHORE_COUNT_PER_PAGE) ->
  find_semaphore pages = None -> sumz (fun p => Z.of_nat (size (free_semaphores p))) pages = 0.
Proof.
  induction pages as [|p pages IH]; intros Hs; [done|]. simpl. destruct (first_free p) eqn:E; [done|]. intros H.
  rewrite (IH ltac:(intros q Hq; apply Hs; by right) H). rewrite (first_free_None p E); [done|]. apply Hs. by left.
Qed.

(** A change of one page that keeps its memory. *)
Lemma on_page_memory m f pool : (forall p, page_memory (f p) = page_memory p) ->
  page_memory <$> sem_pages (on_page m f pool) = page_memory <$> sem_pages pool.
Proof.
  intros Hf. unfold on_page. cbn [sem_pages upd]. rewrite <- list_fmap_compose. apply list_fmap_ext. intros k p _. unfold compose. by destruct (_ =? _).
Qed.

Lemma on_page_elem m f pool p : p ∈ sem_pages (on_page m f pool) <->
  exists q, q ∈ sem_pages pool /\ p = (if page_memory q =? m then f q else q).
Proof. unfold on_page. cbn [sem_pages upd]. rewrite list_elem_of_fmap. split; intros (q & H1 & H2); by exists q. Qed.

Lemma pages_unique pool p q : NoDup (page_memory <$> sem_pages pool) -> p ∈ sem_pages pool -> q ∈ sem_pages pool -> page_memory p = page_memory q -> p = q.
Proof.
  intros Hn [i Hi]%list_elem_of_lookup [j Hj]%list_elem_of_lookup E.
  assert (i = j) as ->; [|congruence]. apply (NoDup_lookup _ i j (page_memory p) Hn); rewrite list_lookup_fmap; [by rewrite Hi|by rewrite Hj, E].
Qed.

Lemma sumz_on_page (g : uvm_gpu_semaphore_pool_page_t -> Z) m f pages p : NoDup (page_memory <$> pages) -> p ∈ pages -> page_memory p = m ->
  sumz g ((fun q => if page_memory q =? m then f q else q) <$> pages) = sumz g pages - g p + g (f p).
Proof.
  induction pages as [|q pages IH]; [by intros _ ?%elem_of_nil|]. intros [Hq Hn]%NoDup_cons [<-|Hp]%elem_of_cons E; cbn [fmap list_fmap sumz foldr].
  - rewrite E, Z.eqb_refl. assert ((fun q => if page_memory q =? m then f q else q) <$> pages = pages) as ->; [|unfold sumz; lia].
    rewrite <- (list_fmap_id pages) at 2. apply list_fmap_ext. intros k q Hk. simpl. destruct (Z.eqb_spec (page_memory q) m) as [E'|]; [|done].
    destruct Hq. rewrite E, <- E'. apply list_elem_of_fmap. exists q. split; [done|]. by eapply list_elem_of_lookup_2.
  - specialize (IH Hn Hp E). unfold sumz in IH |- *. rewrite IH. destruct (Z.eqb_spec (page_memory q) m) as [E'|]; [|lia].
    destruct Hq. rewrite E', <- E. apply list_elem_of_fmap. by exists p.
Qed.

(** New memory is not used by another page. *)
Definition mem_ok (mem : NV_STATUS + Z * list Z) (pool : uvm_gpu_semaphore_pool_t) : Prop :=
  match mem with
  | inl st => st <> NV_OK
  | inr (m, contents) => (m ∉ page_memory <$> sem_pages pool) /\ length contents = UVM_SEMAPHORE_COUNT_PER_PAGE
  end.

Lemma free_count_nonneg pool : pool_ok pool -> 0 <= free_semaphores_count pool.
Proof. intros Hp. rewrite (pool_count _ Hp). apply sumz_nonneg. lia. Qed.

Lemma per_page : Z.of_nat UVM_SEMAPHORE_COUNT_PER_PAGE = 1024.
Proof. done. Qed.

Lemma alloc_page_ok debug mem pool : pool_ok pool -> mem_ok mem pool -> free_semaphores_count pool = 0 ->
  (pool_alloc_page debug mem pool).1 = NV_OK /\ pool_ok (pool_alloc_page debug mem pool).2 /\
    free_semaphores_count (pool_alloc_page debug mem pool).2 = 1024 /\ pool_secure (pool_alloc_page debug mem pool).2 = pool_secure pool /\
    (forall m i, in_use (pool_alloc_page debug mem pool).2 m i <-> in_use pool m i) \/
  (exists st, mem = inl st /\ pool_alloc_page debug mem pool = (st, pool)).
Proof.
  intros Hp Hm H0. destruct mem as [st|[m contents]]; [right; by exists st|left]. destruct Hm as [Hm Hlen]. unfold pool_alloc_page.
  set (new := mk_sem_page m _ _). cbn [fst snd]. split; [done|].
  assert (free_semaphores_count (pool <| sem_pages ::= cons new |> <| free_semaphores_count ::= (fun n => u32 (n + Z.of_nat UVM_SEMAPHORE_COUNT_PER_PAGE)) |>) = 1024) as Hc
    by (cbn [free_semaphores_count upd]; by rewrite H0, per_page).
  destruct Hp as [Hn Hf Hl Hs]. split; [split|split; [exact Hc|split; [done|]]].
  - cbn [sem_pages upd fmap list_fmap]. by apply NoDup_cons.
  - cbn [sem_pages upd]. intros p [->|Hp]%elem_of_cons; [done|by apply Hf].
  - cbn [sem_pages upd]. intros p [->|Hp]%elem_of_cons; [|by apply Hl]. unfold new. cbn [payloads].
    destruct (semaphore_uses_canary debug pool); [by rewrite length_replicate|done].
  - rewrite Hc. cbn [sem_pages upd sumz foldr]. rewrite H0 in Hs. unfold sumz in Hs. rewrite <- Hs. unfold new. cbn [free_semaphores].
    rewrite size_set_seq, per_page. done.
  - intros m' i. unfold in_use. cbn [sem_pages upd]. split.
    + intros (p & [->|Hp]%elem_of_cons & ? & Hi & Hnf); [|by exists p]. destruct Hnf. cbn [free_semaphores new]. apply elem_of_set_seq. lia.
    + intros (p & Hp & ?). exists p. split; [by right|done].
Qed.

Lemma count_le pool : pool_ok pool -> free_semaphores_count pool <= 1024 * Z.of_nat (length (sem_pages pool)).
Proof.
  intros [_ Hf _ ->]. induction (sem_pages pool) as [|p pages IH]; [done|]. cbn [sumz foldr length].
  assert (Z.of_nat (size (free_semaphores p)) <= 1024).
  { rewrite <- per_page. apply inj_le. rewrite <- (size_set_seq (C := gset nat) 0). apply subseteq_size, Hf. by left. }
  specialize (IH ltac:(intros q Hq; apply Hf; by right)). unfold sumz in IH. lia.
Qed.

(** Taking or returning a bit of a page, with a payload that may change as well. *)
Lemma on_page_ok m p f n pool : pool_ok pool -> p ∈ sem_pages pool -> page_memory p = m ->
  (forall q, page_memory (f q) = page_memory q) -> free_semaphores (f p) ⊆ set_seq 0 UVM_SEMAPHORE_COUNT_PER_PAGE ->
  length (payloads (f p)) = UVM_SEMAPHORE_COUNT_PER_PAGE ->
  n = free_semaphores_count pool - Z.of_nat (size (free_semaphores p)) + Z.of_nat (size (free_semaphores (f p))) ->
  pool_ok (on_page m f pool <| free_semaphores_count := n |>).
Proof.
  intros [Hn Hf Hl Hs] Hp Em Hmem Hfree Hlen ->. split.
  - change (NoDup (page_memory <$> sem_pages (on_page m f pool))). by rewrite on_page_memory.
  - intros q Hq. apply (on_page_elem m f pool) in Hq as (r & Hr & ->). destruct (Z.eqb_spec (page_memory r) m) as [E|]; [|by apply Hf].
    by rewrite (pages_unique pool r p) by congruence.
  - intros q Hq. apply (on_page_elem m f pool) in Hq as (r & Hr & ->). destruct (Z.eqb_spec (page_memory r) m) as [E|]; [|by apply Hl].
    by rewrite (pages_unique pool r p) by congruence.
  - cbn [free_semaphores_count sem_pages on_page upd]. rewrite (sumz_on_page _ m f _ p) by done. by rewrite Hs.
Qed.

Lemma in_use_on_page m p f n pool m' i : NoDup (page_memory <$> sem_pages pool) -> p ∈ sem_pages pool -> page_memory p = m ->
  (forall q, page_memory (f q) = page_memory q) ->
  in_use (on_page m f pool <| free_semaphores_count := n |>) m' i <->
  if m' =? m then (i < UVM_SEMAPHORE_COUNT_PER_PAGE)%nat /\ i ∉ free_semaphores (f p) else in_use pool m' i.
Proof.
  intros Hn Hp Em Hmem. unfold in_use. split.
  - intros (q & Hq & E & Hi & Hnf). apply (on_page_elem m f pool) in Hq as (r & Hr & ->).
    destruct (Z.eqb_spec (page_memory r) m) as [E'|Hne].
    + assert (r = p) as -> by (by apply (pages_unique pool); [..|congruence]). rewrite Hmem in E. subst m'. rewrite Em, Z.eqb_refl. done.
    + rewrite <- E. destruct (Z.eqb_spec (page_memory r) m); [done|]. by exists r.
  - destruct (Z.eqb_spec m' m) as [->|Hne].
    + intros [Hi Hnf]. exists (f p). split_and!; [|by rewrite Hmem|done..]. apply (on_page_elem m f pool). exists p. split; [done|]. by rewrite Em, Z.eqb_refl.
    + intros (q & Hq & E & Hi & Hnf). exists q. split_and!; [|done..]. apply (on_page_elem m f pool). exists q. split; [done|].
      destruct (Z.eqb_spec (page_memory q) m); [congruence|done].
Qed.

Lemma find_page pool p : NoDup (page_memory <$> sem_pages pool) -> p ∈ sem_pages pool ->
  find (fun q => bool_decide (Some (page_memory q) = Some (page_memory p))) (sem_pages pool) = Some p.
Proof.
  intros Hn. assert (forall q, q ∈ sem_pages pool -> p ∈ sem_pages pool -> page_memory q = page_memory p -> q = p) as Hu by (intros; by apply (pages_unique pool)).
  clear Hn. induction (sem_pages pool) as [|q pages IH]; [by intros ?%elem_of_nil|]. intros Hp. simpl. case_bool_decide as E.
  - f_equal. apply Hu; [by left|done|congruence].
  - apply elem_of_cons in Hp as [->|Hp]; [done|]. apply IH; [|done]. intros r Hr Hp' E'. apply Hu; [by right..|done].
Qed.

(** What an allocation does to the page it takes the semaphore from. *)
Definition take_semaphore (secure : bool) (i : nat) (p : uvm_gpu_semaphore_pool_page_t) : uvm_gpu_semaphore_pool_page_t :=
  mk_sem_page (page_memory p) (free_semaphores p ∖ {[ i ]}) (if secure then payloads p else <[i := 0]> (payloads p)).

Lemma on_page_on_page m f g pool : (forall p, page_memory (g p) = page_memory p) -> on_page m f (on_page m g pool) = on_page m (fun p => f (g p)) pool.
Proof.
  intros Hg. destruct pool as [pages n sec]. unfold on_page. cbn [upd sem_pages free_semaphores_count pool_secure].
  enough (forall (h1 h2 h : uvm_gpu_semaphore_pool_page_t -> uvm_gpu_semaphore_pool_page_t), (forall p, h1 (h2 p) = h p) -> h1 <$> (h2 <$> pages) = h <$> pages) as Hmap.
  { change (mk_sem_pool ((fun p => if page_memory p =? m then f p else p) <$> ((fun p => if page_memory p =? m then g p else p) <$> pages)) n sec =
      mk_sem_pool ((fun p => if page_memory p =? m then f (g p) else p) <$> pages) n sec). f_equal. apply Hmap. intros p.
    destruct (Z.eqb_spec (page_memory p) m) as [E|E]; [by rewrite Hg, E, Z.eqb_refl|]. by destruct (Z.eqb_spec (page_memory p) m). }
  intros h1 h2 h Hh. rewrite <- list_fmap_compose. apply list_fmap_ext. intros k p _. apply Hh.
Qed.

(** After the first step of an allocation there is a free semaphore. *)
Lemma alloc_ready debug mem pool : pool_ok pool -> mem_ok mem pool -> Z.of_nat (length (sem_pages pool)) < 2 ^ 22 ->
  let r := if free_semaphores_count pool =? 0 then pool_alloc_page debug mem pool else (NV_OK, pool) in
  (r.1 = NV_OK /\ pool_ok r.2 /\ 0 < free_semaphores_count r.2 < 2 ^ 32 /\ forall m i, in_use r.2 m i <-> in_use pool m i) \/
  (exists st, mem = inl st /\ st <> NV_OK /\ r = (st, pool)).
Proof.
  intros Hp Hm Hlen. cbv zeta. destruct (Z.eqb_spec (free_semaphores_count pool) 0) as [H0|H0].
  - destruct (alloc_page_ok debug mem pool Hp Hm H0) as [(H1 & H2 & H3 & _ & H5)|(st & -> & ->)]; [left|right; by exists st].
    split_and!; [done|done|lia..|done].
  - left. pose proof (free_count_nonneg pool Hp). pose proof (count_le pool Hp). cbn [fst snd]. split_and!; [done|done|lia..|done].
Qed.

(** Taking the semaphore that is found. *)
Lemma take_semaphore_ok m i pool : pool_ok pool -> 0 < free_semaphores_count pool < 2 ^ 32 -> find_semaphore (sem_pages pool) = Some (m, i) ->
  let pool' := on_page m (take_semaphore (pool_secure pool) i) pool <| free_semaphores_count := u32 (free_semaphores_count pool - 1) |> in
  pool_ok pool' /\ ~ in_use pool m i /\ (forall m' i', in_use pool' m' i' <-> in_use pool m' i' \/ (m' = m /\ i' = i)) /\
  uvm_gpu_semaphore_get_payload (mk_semaphore (Some m) i 0) pool' = 0.
Proof.
  intros Hp Hc (p & Hin & Em & Hi & Hfree)%find_semaphore_Some. cbv zeta. set (f := take_semaphore (pool_secure pool) i).
  assert (forall q, page_memory (f q) = page_memory q) as Hmem by done.
  assert (Z.of_nat (size (free_semaphores (f p))) = Z.of_nat (size (free_semaphores p)) - 1) as Hsize.
  { cbn [f take_semaphore free_semaphores]. rewrite size_difference by set_solver. rewrite size_singleton.
    assert (size (free_semaphores p) <> 0)%nat; [|lia]. intros E%size_empty_iff. set_solver. }
  rewrite u32_small by lia.
  assert (pool_ok (on_page m f pool <| free_semaphores_count := free_semaphores_count pool - 1 |>)) as Hok.
  { apply (on_page_ok m p f); [done|done|done|done|..|lia].
    - pose proof (pool_free _ Hp p Hin) as Hs. cbn [f take_semaphore free_semaphores]. intros j [Hj _]%elem_of_difference. exact (Hs j Hj).
    - cbn [f take_semaphore payloads]. destruct (pool_secure pool); [by apply (pool_payloads _ Hp)|]. rewrite length_insert. by apply (pool_payloads _ Hp). }
  split; [done|]. split.
  { intros (q & Hq & Eq & _ & Hnf). rewrite (pages_unique pool q p) in Hnf by (apply Hp || congruence). done. }
  split.
  - intros m' i'. rewrite (in_use_on_page m p f) by (apply Hp || done). destruct (Z.eqb_spec m' m) as [->|Hne]; [|naive_solver].
    cbn [f take_semaphore free_semaphores]. rewrite elem_of_difference, elem_of_singleton. split.
    + intros [Hi' Hn]. destruct (decide (i' = i)) as [|Hd]; [by right|left]. exists p. split_and!; [done..|]. tauto.
    + intros [(q & Hq & Eq & Hi' & Hnf)|[_ ->]]; [|split; [done|tauto]]. rewrite (pages_unique pool q p) in Hnf by (apply Hp || congruence). tauto.
  - unfold uvm_gpu_semaphore_get_payload. cbn [pool_secure on_page upd sem_page sem_index cached_payload]. destruct (pool_secure pool) eqn:Es; [done|].
    assert (f p ∈ sem_pages (on_page m f pool <| free_semaphores_count := free_semaphores_count pool - 1 |>)) as Hfp
      by (apply (on_page_elem m f pool); exists p; split; [done|]; by rewrite Em, Z.eqb_refl).
    pose proof (find_page _ (f p) (pool_pages _ Hok) Hfp) as Hfind. rewrite (Hmem p), Em in Hfind.
    cbn [sem_pages on_page upd] in Hfind |- *. rewrite Hfind. cbn [f take_semaphore payloads].
    rewrite list_lookup_insert_eq; [done|]. rewrite (pool_payloads _ Hp p Hin). done.
Qed.

(** An allocation succeeds unless a page cannot be allocated when one is needed; the
    semaphore was not in use, is now, and its payload is 0. *)
Lemma semaphore_alloc_ok debug mem pool : pool_ok pool -> mem_ok mem pool -> Z.of_nat (length (sem_pages pool)) < 2 ^ 22 ->
  let r := uvm_gpu_semaphore_alloc debug mem pool in
  (r.1 = NV_OK /\ pool_ok r.2.2 /\ exists m i, sem_page r.2.1 = Some m /\ sem_index r.2.1 = i /\ uvm_gpu_semaphore_get_payload r.2.1 r.2.2 = 0 /\
     ~ in_use pool m i /\ forall m' i', in_use r.2.2 m' i' <-> in_use pool m' i' \/ (m' = m /\ i' = i)) \/
  (exists st, mem = inl st /\ r.1 = st /\ r.2.2 = pool).
Proof.
  intros Hp Hm Hlen. cbv zeta. unfold uvm_gpu_semaphore_alloc. pose proof (alloc_ready debug mem pool Hp Hm Hlen) as Hr. cbv zeta in Hr.
  destruct (if free_semaphores_count pool =? 0 then pool_alloc_page debug mem pool else (NV_OK, pool)) as [st pool1]. cbn [fst snd] in Hr.
  destruct Hr as [(-> & Hp1 & Hc & Huse)|(st' & -> & Hne & [= -> ->])].
  2:{ right. exists st'. destruct (is_ok st') eqn:E; [by apply is_ok_true in E|done]. }
  left. change (negb (is_ok NV_OK)) with false. cbv iota. destruct (find_semaphore (sem_pages pool1)) as [[m i]|] eqn:Ef.
  2:{ apply find_semaphore_None in Ef; [|apply Hp1]. rewrite <- (pool_count _ Hp1) in Ef. lia. }
  destruct (take_semaphore_ok m i pool1 Hp1 Hc Ef) as (Hok & Hfree & Hiff & Hpay).
  assert (let '(sem, pool2) := uvm_gpu_semaphore_set_payload 0 (mk_semaphore (Some m) i 0) pool1 in
    (sem, on_page m (fun p => p <| free_semaphores ::= (fun s => s ∖ {[ i ]}) |>) pool2 <| free_semaphores_count ::= (fun n => u32 (n - 1)) |>) =
    (mk_semaphore (Some m) i 0, on_page m (take_semaphore (pool_secure pool1) i) pool1 <| free_semaphores_count := u32 (free_semaphores_count pool1 - 1) |>)) as Eq.
  { unfold uvm_gpu_semaphore_set_payload. destruct (pool_secure pool1) eqn:Es; [done|]. cbn [sem_page sem_index default]. f_equal.
    exact (on_page_on_page m (fun p => p <| free_semaphores ::= (fun s => s ∖ {[ i ]}) |>) (fun p => p <| payloads ::= <[i := 0]> |>)
      (pool1 <| free_semaphores_count := u32 (free_semaphores_count pool1 - 1) |>) ltac:(done)). }
  destruct (uvm_gpu_semaphore_set_payload 0 (mk_semaphore (Some m) i 0) pool1) as [sem pool2]. apply pair_equal_spec in Eq as [-> Eq]. rewrite Eq. cbn [fst snd].
  split; [done|]. split; [done|]. exists m, i. split_and!; [done|done|done|by rewrite <- Huse|]. intros m' i'. by rewrite Hiff, Huse.
Qed.

(** A free returns exactly the semaphore. *)
Lemma semaphore_free_ok debug sem m pool : pool_ok pool -> sem_page sem = Some m -> in_use pool m (sem_index sem) -> Z.of_nat (length (sem_pages pool)) < 2 ^ 22 ->
  let r := uvm_gpu_semaphore_free debug sem pool in
  pool_ok r.2 /\ sem_page r.1 = None /\ forall m' i', in_use r.2 m' i' <-> in_use pool m' i' /\ ~ (m' = m /\ i' = sem_index sem).
Proof.
  intros Hp Em (p & Hin & Ep & Hi & Hnf) Hlen. cbv zeta. unfold uvm_gpu_semaphore_free. rewrite Em.
  set (f := fun p => mk_sem_page (page_memory p) (free_semaphores p ∪ {[ sem_index sem ]})
    (if semaphore_uses_canary debug pool then <[sem_index sem := make_canary (uvm_gpu_semaphore_get_payload sem pool)]> (payloads p) else payloads p)).
  assert (forall q, page_memory (f q) = page_memory q) as Hmem by done.
  assert (Z.of_nat (size (free_semaphores (f p))) = Z.of_nat (size (free_semaphores p)) + 1) as Hsize
    by (cbn [f free_semaphores]; rewrite size_union, size_singleton by set_solver; lia).
  assert (free_semaphores (f p) ⊆ set_seq 0 UVM_SEMAPHORE_COUNT_PER_PAGE) as Hsub.
  { pose proof (pool_free _ Hp p Hin). cbn [f free_semaphores]. apply union_subseteq. split; [done|]. apply singleton_subseteq_l, elem_of_set_seq. lia. }
  set (n := u32 (free_semaphores_count pool + 1)).
  assert (n = free_semaphores_count pool + 1) as Hn.
  { apply u32_small. pose proof (free_count_nonneg pool Hp). pose proof (count_le pool Hp).
    assert (pool_ok (on_page m f pool <| free_semaphores_count := free_semaphores_count pool + 1 |>)) as Hok'.
    { apply (on_page_ok m p f); [done|done|done|done|done| |lia]. cbn [f payloads]. destruct (semaphore_uses_canary debug pool); rewrite ?length_insert; by apply (pool_payloads _ Hp). }
    apply count_le in Hok'. cbn [free_semaphores_count sem_pages on_page upd] in Hok'. rewrite length_fmap in Hok'. lia. }
  assert (forall sem' pool', (sem', pool') = (if semaphore_uses_canary debug pool
      then uvm_gpu_semaphore_set_payload (make_canary (uvm_gpu_semaphore_get_payload sem pool)) sem pool else (sem, pool)) ->
    sem_index sem' = sem_index sem /\ on_page m (fun p => p <| free_semaphores ::= (fun s => s ∪ {[ sem_index sem' ]}) |>) pool' <| free_semaphores_count ::= (fun n => u32 (n + 1)) |> =
    on_page m f pool <| free_semaphores_count := n |>) as Hcode.
  { intros sem' pool' Eq. unfold f, semaphore_uses_canary in *. destruct (negb (pool_secure pool) && debug) eqn:Ec; [|injection Eq as -> ->; done].
    unfold uvm_gpu_semaphore_set_payload in Eq. destruct (pool_secure pool) eqn:Es; [done|]. rewrite Em in Eq. injection Eq as -> ->. split; [done|]. cbn [default].
    set (c := make_canary _).
    exact (on_page_on_page m (fun p => p <| free_semaphores ::= (fun s => s ∪ {[ sem_index sem ]}) |>) (fun p => p <| payloads ::= <[sem_index sem := c]> |>)
      (pool <| free_semaphores_count := n |>) ltac:(done)). }
  destruct (if semaphore_uses_canary debug pool then _ else _) as [sem' pool'] eqn:Eq. destruct (Hcode sem' pool' eq_refl) as [Ei ->]. cbn [fst snd].
  split; [|split; [done|]].
  - apply (on_page_ok m p f); [done|done|done|done|done| |lia]. cbn [f payloads]. destruct (semaphore_uses_canary debug pool); rewrite ?length_insert; by apply (pool_payloads _ Hp).
  - intros m' i'. rewrite (in_use_on_page m p f) by (apply Hp || done). destruct (Z.eqb_spec m' m) as [->|Hne]; [|naive_solver].
    cbn [f free_semaphores]. rewrite elem_of_union, elem_of_singleton. split.
    + intros [Hi' Hn']. split; [|intros [_ ->]; tauto]. exists p. split_and!; [done..|]. tauto.
    + intros [(q & Hq & Eq' & Hi' & Hnf') Hd]. rewrite (pages_unique pool q p) in Hnf' by (apply Hp || congruence). tauto.
Qed.


(** When no semaphore is in use, the assertions of the tear down hold. *)
Lemma free_pages_ok pool : NoDup (page_memory <$> sem_pages pool) ->
  (forall p, p ∈ sem_pages pool -> free_semaphores p = set_seq 0 UVM_SEMAPHORE_COUNT_PER_PAGE) ->
  free_semaphores_count pool = 1024 * Z.of_nat (length (sem_pages pool)) -> Z.of_nat (length (sem_pages pool)) < 2 ^ 22 ->
  (pool_free_pages false (sem_pages pool) pool).1 = true /\ free_semaphores_count (pool_free_pages false (sem_pages pool) pool).2 = 0 /\
  sem_pages (pool_free_pages false (sem_pages pool) pool).2 = [].
Proof.
  destruct pool as [pages n sec]. cbn [sem_pages free_semaphores_count]. revert n. induction pages as [|p pages IH]; intros n; cbn [length pool_free_pages].
  - intros _ _ -> _. by split_and!.
  - intros [Hp Hn]%NoDup_cons Hfull -> Hlen.
    assert (pool_free_page false p (mk_sem_pool (p :: pages) (1024 * Z.of_nat (S (length pages))) sec) =
      (true, mk_sem_pool pages (1024 * Z.of_nat (length pages)) sec)) as ->.
    { unfold pool_free_page, semaphore_uses_canary. rewrite andb_false_r, per_page. apply pair_equal_spec. split.
      - rewrite bool_decide_eq_true_2 by (apply Hfull; by left). cbn [free_semaphores_count].
        destruct (Z.leb_spec 1024 (1024 * Z.of_nat (S (length pages)))); [done|lia].
      - assert (filter (fun q => page_memory q <> page_memory p) (p :: pages) = pages) as Hf.
        { rewrite filter_cons_False by tauto. apply filter_full. intros q Hq E. apply Hp. rewrite <- E. apply list_elem_of_fmap. by exists q. }
        change (mk_sem_pool (filter (fun q => page_memory q <> page_memory p) (p :: pages)) (u32 (1024 * Z.of_nat (S (length pages)) - 1024)) sec = mk_sem_pool pages (1024 * Z.of_nat (length pages)) sec).
        rewrite Hf, u32_small by lia. f_equal. lia. }
    destruct (IH (1024 * Z.of_nat (length pages)) Hn ltac:(intros q Hq; apply Hfull; by right) eq_refl ltac:(lia)) as (H1 & H2 & H3).
    by destruct (pool_free_pages false pages (mk_sem_pool pages (1024 * Z.of_nat (length pages)) sec)) as [ok pool'].
Qed.

Lemma semaphore_pool_destroy_ok pool : pool_ok pool -> (forall m i, ~ in_use pool m i) -> Z.of_nat (length (sem_pages pool)) < 2 ^ 22 ->
  (uvm_gpu_semaphore_pool_destroy false pool).1 = true.
Proof.
  intros Hp Hnone Hlen. assert (forall p, p ∈ sem_pages pool -> free_semaphores p = set_seq 0 UVM_SEMAPHORE_COUNT_PER_PAGE) as Hfull.
  { intros p Hin. apply set_eq. intros i. split; [by apply (pool_free _ Hp p Hin)|]. intros [_ Hi]%elem_of_set_seq.
    destruct (decide (i ∈ free_semaphores p)) as [|Hnf]; [done|]. destruct (Hnone (page_memory p) i). exists p. split_and!; [done..|lia|done]. }
  assert (free_semaphores_count pool = 1024 * Z.of_nat (length (sem_pages pool))) as Hcount.
  { rewrite (pool_count _ Hp). clear - Hfull. induction (sem_pages pool) as [|p pages IH]; [done|]. cbn [sumz foldr length].
    rewrite (Hfull p) by (by left). rewrite size_set_seq, per_page. specialize (IH ltac:(intros q Hq; apply Hfull; by right)). unfold sumz in IH. lia. }
  destruct (free_pages_ok pool (pool_pages _ Hp) Hfull Hcount Hlen) as (H1 & H2 & H3). unfold uvm_gpu_semaphore_pool_destroy.
  destruct (pool_free_pages false (sem_pages pool) pool) as [ok pool']. cbn [fst snd] in *. by rewrite H1, H2, H3.
Qed.

(** ** Payloads of secure semaphores

    In a secure pool the GPU writes the encrypted payload with its authentication tag
    between two increments of a notifier, and the CPU reads it like a sequence lock
    ([uvm_gpu_semaphore_encrypted_payload_update]). *)

(** What one round of the loop reads: the notifier, the tag, the payload and the
    initialisation vectors, the notifier again. *)
Record sem_read : Type := mk_sem_read {
  rd_gpu_notifier : Z;
  rd_auth_tag : Z;
  rd_payload : Z;
  rd_ivs : Z -> Z;
  rd_new_gpu_notifier : Z;
}.

(** How the loop ends: no tries left, or with the tag, payload and vector of a round
    and its notifiers. *)
Inductive secure_read : Type :=
| OutOfTries
| GotPayload (auth_tag payload iv notifier new_notifier : Z).

(** The loop; [None] when it has not ended with the given rounds.  An odd notifier
    goes to the test of the loop at once, before the tries are counted. *)
Fixpoint encrypted_read_loop (num_gpfifo_entries : Z) (reads : list sem_read) (tries_left : Z) : option secure_read :=
  match reads with
  | [] => None
  | r :: reads =>
      let gpu_notifier := rd_gpu_notifier r in
      if Z.odd gpu_notifier then
        if 0 <? tries_left then encrypted_read_loop num_gpfifo_entries reads tries_left else Some OutOfTries
      else
        let iv_index := (gpu_notifier / 2) mod num_gpfifo_entries in
        let tries_left := u32 (tries_left - 1) in
        if (0 <? tries_left) && negb (gpu_notifier =? rd_new_gpu_notifier r)
        then encrypted_read_loop num_gpfifo_entries reads tries_left
        else if tries_left =? 0 then Some OutOfTries
        else Some (GotPayload (rd_auth_tag r) (rd_payload r) (rd_ivs r iv_index) gpu_notifier (rd_new_gpu_notifier r))
  end.

Definition should_skip_secure_semaphore_update (last_observed_notifier gpu_notifier : Z) : bool :=
  (last_observed_notifier =? gpu_notifier) || Z.odd gpu_notifier.

(** The cached payload, the last observed notifier and the global error. *)
Record secure_sem : Type := mk_secure_sem {
  ss_cached_payload : Z;
  ss_last_observed_notifier : Z;
  ss_fatal_error : option NV_STATUS;
}.

(** [first] is the notifier read before the loop, [decrypt] the decryption. *)
Definition uvm_gpu_semaphore_encrypted_payload_update (decrypt : Z -> Z -> Z -> NV_STATUS * Z) (num_gpfifo_entries first : Z) (reads : list sem_read)
    (s : secure_sem) : option secure_sem :=
  if should_skip_secure_semaphore_update (ss_last_observed_notifier s) first then Some s
  else
    match encrypted_read_loop num_gpfifo_entries reads num_gpfifo_entries with
    | None => None
    | Some OutOfTries => Some (mk_secure_sem (ss_cached_payload s) (ss_last_observed_notifier s) (Some NV_ERR_INVALID_STATE))
    | Some (GotPayload tag payload iv notifier new_notifier) =>
        if notifier =? new_notifier then
          let '(status, value) := decrypt iv payload tag in
          if is_ok status then Some (mk_secure_sem value new_notifier (ss_fatal_error s))
          else Some (mk_secure_sem (ss_cached_payload s) (ss_last_observed_notifier s) (Some status))
        else Some s
    end.

(** The memory over time: the notifier only grows, and tag and payload stay as they
    are while it is even and unchanged. *)
Record gpu_writes (notifier tag payload : nat -> Z) : Prop := {
  notifier_grows : forall s t, (s <= t)%nat -> notifier s <= notifier t;
  data_stable : forall s t, (s <= t)%nat -> Z.even (notifier s) = true -> notifier s = notifier t -> tag s = tag t /\ payload s = payload t;
}.

(** The round read the memory at five times, one after the other. *)
Definition read_at (notifier tag payload : nat -> Z) (r : sem_read) : Prop :=
  exists t1 t2 t3 t4, (t1 <= t2)%nat /\ (t2 <= t3)%nat /\ (t3 <= t4)%nat /\
    rd_gpu_notifier r = notifier t1 /\ rd_auth_tag r = tag t2 /\ rd_payload r = payload t3 /\ rd_new_gpu_notifier r = notifier t4.

Lemma read_loop_even num reads : forall tries tag payload iv n n', encrypted_read_loop num reads tries = Some (GotPayload tag payload iv n n') ->
  exists r, r ∈ reads /\ Z.even n = true /\ n = rd_gpu_notifier r /\ n' = rd_new_gpu_notifier r /\ tag = rd_auth_tag r /\ payload = rd_payload r /\
    iv = rd_ivs r ((n / 2) mod num).
Proof.
  induction reads as [|r reads IH]; intros tries tag payload iv n n'; [done|]. cbn [encrypted_read_loop].
  assert (forall tr, encrypted_read_loop num reads tr = Some (GotPayload tag payload iv n n') -> exists r', r' ∈ r :: reads /\ Z.even n = true /\ n = rd_gpu_notifier r' /\
    n' = rd_new_gpu_notifier r' /\ tag = rd_auth_tag r' /\ payload = rd_payload r' /\ iv = rd_ivs r' ((n / 2) mod num)) as Hrest.
  { intros tr (r' & Hr' & ?)%IH. exists r'. split; [by right|done]. }
  destruct (Z.odd (rd_gpu_notifier r)) eqn:Eo; [destruct (0 <? tries); [apply Hrest|done]|].
  destruct (_ && _); [apply Hrest|]. destruct (_ =? 0); [done|]. intros [= <- <- <- <- <-]. exists r. split; [by left|].
  split_and!; [by rewrite <- Z.negb_odd, Eo|done..].
Qed.

(** A payload that is accepted was in memory with its tag at one time, and the vector
    is the one of the notifier at that time. *)
Lemma secure_read_consistent notifier tag payload num reads tries tg pl iv n n' : gpu_writes notifier tag payload ->
  (forall r, r ∈ reads -> read_at notifier tag payload r) -> encrypted_read_loop num reads tries = Some (GotPayload tg pl iv n n') -> n = n' ->
  exists t r, r ∈ reads /\ n = notifier t /\ tg = tag t /\ pl = payload t /\ iv = rd_ivs r ((n / 2) mod num).
Proof.
  intros Hw Hr (r & Hin & Hev & -> & -> & -> & -> & ->)%read_loop_even E. destruct (Hr r Hin) as (t1 & t2 & t3 & t4 & H12 & H23 & H34 & E1 & E2 & E3 & E4).
  exists t1, r. split; [done|]. split; [done|]. rewrite E1 in Hev. assert (notifier t1 = notifier t4) as E14 by congruence.
  pose proof (notifier_grows _ _ _ Hw t1 t2 H12). pose proof (notifier_grows _ _ _ Hw t2 t3 H23). pose proof (notifier_grows _ _ _ Hw t3 t4 H34).
  destruct (data_stable _ _ _ Hw t1 t2 ltac:(lia) Hev ltac:(lia)) as [Htag _]. destruct (data_stable _ _ _ Hw t1 t3 ltac:(lia) Hev ltac:(lia)) as [_ Hpay].
  split_and!; congruence.
Qed.

(** The tries do not bound the loop: rounds that see an odd notifier are not counted. *)
Lemma odd_notifier_spins num n tries : 0 < tries -> encrypted_read_loop num (replicate n (mk_sem_read 1 0 0 (fun _ => 0) 1)) tries = None.
Proof. intros Ht. induction n as [|n IH]; [done|]. simpl. apply Z.ltb_lt in Ht as ->. done. Qed.

(** A round that succeeds with the last try is reported as an error: with two GPFIFO
    entries one disturbed round is already fatal. *)
Lemma last_try_lost : encrypted_read_loop 2 [mk_sem_read 2 0 0 (fun _ => 0) 4; mk_sem_read 4 0 7 (fun _ => 0) 4] 2 = Some OutOfTries.
Proof. done. Qed.
