(* ===== verification/GpuChannel.v ===== *)
(** * GPU channels

    The channels of a GPU and the pushes made on them: the ring of GPFIFO entries of a
    channel, reserving entries, beginning and ending a push, control entries, and the
    progress that frees what the GPU has completed ([uvm_channel.c], [uvm_push.c],
    and [uvm_pushbuffer_mark_completed]).  Channels are named by their index in the
    list of all channels of the manager, pushes by a number.  Confidential Computing
    and proxy channels are left out: [g_uvm_global.conf_computing_enabled] is off. *)

From stdpp Require Import gmap sorting.
From S2P Require Import Prelude FaultTypes Pushbuffer Semaphore.

Local Open Scope Z_scope.

(** ** Data *)

(** A push info, as far as completing a push uses it: the procedure to call. *)
Record uvm_channel_t : Type := mk_channel {
  gpfifo_entries : list uvm_gpfifo_entry_t;
  num_gpfifo_entries : Z;
  cpu_put : Z;
  gpu_get : Z;
  current_gpfifo_count : Z;
  push_infos : list (option Z);
  available_push_infos : list nat;
  tracking_sem : uvm_gpu_tracking_semaphore_t;
  error_notifier : bool;
}.

#[export] Instance channel_eta : Eta uvm_channel_t := fun c =>
  mk_channel (gpfifo_entries c) (num_gpfifo_entries c) (cpu_put c) (gpu_get c) (current_gpfifo_count c) (push_infos c)
    (available_push_infos c) (tracking_sem c) (error_notifier c).

(** The channels and the pushbuffer of a GPU, the completion procedures that were
    called, latest first, the ECC notifier of the GPU and the global error. *)
Record uvm_channel_manager_t : Type := mk_manager {
  channels : list uvm_channel_t;
  pushbuffer : uvm_pushbuffer_t;
  completions : list Z;
  ecc_error : bool;
  fatal_error : NV_STATUS;
}.

#[export] Instance manager_eta : Eta uvm_channel_manager_t := fun m =>
  mk_manager (channels m) (pushbuffer m) (completions m) (ecc_error m) (fatal_error m).

(** A push: its channel, where it begins in the pushbuffer, the words written, its
    push info and, once it has ended, its tracking value. *)
Record uvm_push_t : Type := mk_push {
  push_channel : nat;
  push_begin : Z;
  push_words : Z;
  push_info_index : nat;
  channel_tracking_value : Z;
}.

(** [channel_create], once everything is allocated. *)
Definition channel_create (num : Z) : uvm_channel_t :=
  mk_channel (replicate (Z.to_nat num) zero_gpfifo) num 0 0 0 (replicate (Z.to_nat num) None) (seq 0 (Z.to_nat num))
    uvm_gpu_tracking_semaphore_alloc false.

Definition empty_channel : uvm_channel_t := channel_create 0.

Definition channel_at (m : uvm_channel_manager_t) (c : nat) : uvm_channel_t := default empty_channel (channels m !! c).

(** A store to a field of a channel. *)
Definition on_channel (c : nat) (f : uvm_channel_t -> uvm_channel_t) (m : uvm_channel_manager_t) : uvm_channel_manager_t :=
  m <| channels := <[c := f (channel_at m c)]> (channels m) |>.

Definition entry_at (ch : uvm_channel_t) (i : nat) : uvm_gpfifo_entry_t := default zero_gpfifo (gpfifo_entries ch !! i).

(** How the pushbuffer reads the entries. *)
Definition gpfifo_of (m : uvm_channel_manager_t) (g : gpfifo_id) : uvm_gpfifo_entry_t := entry_at (channel_at m g.1) g.2.

(** ** Progress *)

Inductive uvm_channel_update_mode_t : Type :=
| UVM_CHANNEL_UPDATE_MODE_COMPLETED
| UVM_CHANNEL_UPDATE_MODE_FORCE_ALL.

Definition uvm_channel_update_completed_value (c : nat) (m : uvm_channel_manager_t) : Z * uvm_channel_manager_t :=
  let '(v, t) := uvm_gpu_tracking_semaphore_update_completed_value (tracking_sem (channel_at m c)) in
  (v, on_channel c (fun ch => ch <| tracking_sem := t |>) m).

Definition uvm_channel_is_value_completed (c : nat) (value : Z) (m : uvm_channel_manager_t) : bool * uvm_channel_manager_t :=
  let '(b, t) := uvm_gpu_tracking_semaphore_is_value_completed value (tracking_sem (channel_at m c)) in
  (b, on_channel c (fun ch => ch <| tracking_sem := t |>) m).

(** [uvm_pushbuffer_mark_completed]: the completion procedure is called and cleared,
    and the chunk no longer has the entry. *)
Definition uvm_pushbuffer_mark_completed (c i : nat) (m : uvm_channel_manager_t) : uvm_channel_manager_t :=
  let info := gp_push_info (entry_at (channel_at m c) i) in
  let m :=
    match default None (push_infos (channel_at m c) !! info) with
    | Some f => on_channel c (fun ch => ch <| push_infos ::= <[info := None]> |>) (m <| completions ::= cons f |>)
    | None => m
    end in
  m <| pushbuffer ::= remove_pending (gpfifo_of m) (c, i) |>.

(** The body of the loop of [uvm_channel_update_progress_with_max], under the lock of
    the channel: [None] when the loop ends.  The loop keeps [gpu_get] in a local and
    stores it at the end; nothing reads the field in between. *)
Definition progress_step (c : nat) (completed : Z) (mode : uvm_channel_update_mode_t) (m : uvm_channel_manager_t) : option uvm_channel_manager_t :=
  let ch := channel_at m c in
  if gpu_get ch =? cpu_put ch then None
  else
    let i := Z.to_nat (gpu_get ch) in
    let entry := entry_at ch i in
    if (match mode with UVM_CHANNEL_UPDATE_MODE_COMPLETED => true | UVM_CHANNEL_UPDATE_MODE_FORCE_ALL => false end)
         && (completed <? tracking_semaphore_value entry) then None
    else
      let m :=
        match gp_type entry with
        | UVM_GPFIFO_ENTRY_TYPE_NORMAL =>
            on_channel c (fun ch => ch <| available_push_infos ::= (fun l => l ++ [gp_push_info entry]) |>) (uvm_pushbuffer_mark_completed c i m)
        | UVM_GPFIFO_ENTRY_TYPE_CONTROL => m
        end in
      Some (on_channel c (fun ch => ch <| gpu_get := (gpu_get ch + 1) mod num_gpfifo_entries ch |>) m).

Fixpoint progress_loop (max_to_complete : nat) (c : nat) (completed : Z) (mode : uvm_channel_update_mode_t) (m : uvm_channel_manager_t) : uvm_channel_manager_t :=
  match max_to_complete with
  | O => m
  | S max_to_complete =>
      match progress_step c completed mode m with
      | None => m
      | Some m => progress_loop max_to_complete c completed mode m
      end
  end.

Definition uvm_channel_update_progress_with_max (c : nat) (max_to_complete : nat) (mode : uvm_channel_update_mode_t) (m : uvm_channel_manager_t)
    : Z * uvm_channel_manager_t :=
  let '(completed, m) := uvm_channel_update_completed_value c m in
  let m := progress_loop max_to_complete c completed mode m in
  let ch := channel_at m c in
  (if gpu_get ch <=? cpu_put ch then cpu_put ch - gpu_get ch else u32 (num_gpfifo_entries ch - gpu_get ch + cpu_put ch), m).

Definition uvm_channel_update_progress (c : nat) : ST uvm_channel_manager_t Z :=
  uvm_channel_update_progress_with_max c 8 UVM_CHANNEL_UPDATE_MODE_COMPLETED.

Definition channel_update_progress_all (c : nat) (mode : uvm_channel_update_mode_t) (m : uvm_channel_manager_t) : Z * uvm_channel_manager_t :=
  uvm_channel_update_progress_with_max c (Z.to_nat (num_gpfifo_entries (channel_at m c))) mode m.

Definition uvm_channel_update_progress_all (c : nat) : ST uvm_channel_manager_t Z :=
  channel_update_progress_all c UVM_CHANNEL_UPDATE_MODE_COMPLETED.

(** Over the channels of the list, in the order of the pools. *)
Fixpoint update_progress_of (cs : list nat) (pending_gpfifos : Z) (m : uvm_channel_manager_t) : Z * uvm_channel_manager_t :=
  match cs with
  | [] => (pending_gpfifos, m)
  | c :: cs =>
      let '(n, m) := uvm_channel_update_progress c m in
      update_progress_of cs (u32 (pending_gpfifos + n)) m
  end.

Definition uvm_channel_manager_update_progress (m : uvm_channel_manager_t) : Z * uvm_channel_manager_t :=
  update_progress_of (seq 0 (length (channels m))) 0 m.

(** ** Errors *)

Definition uvm_channel_get_status (c : nat) (m : uvm_channel_manager_t) : NV_STATUS :=
  if negb (error_notifier (channel_at m c)) then NV_OK
  else if ecc_error m then NV_ERR_ECC_ERROR
  else NV_ERR_RC_ERROR.

(** [uvm_global_set_fatal_error]: the first error stays. *)
Definition uvm_global_set_fatal_error (st : NV_STATUS) (m : uvm_channel_manager_t) : uvm_channel_manager_t :=
  if is_ok (fatal_error m) then m <| fatal_error := st |> else m.

Definition uvm_channel_get_first_pending_entry (c : nat) (m : uvm_channel_manager_t) : option nat * uvm_channel_manager_t :=
  let '(pending_count, m) := channel_update_progress_all c UVM_CHANNEL_UPDATE_MODE_COMPLETED m in
  if pending_count =? 0 then (None, m)
  else
    let ch := channel_at m c in
    (if gpu_get ch =? cpu_put ch then None else Some (Z.to_nat (gpu_get ch)), m).

(** The fatal entry is only printed. *)
Definition uvm_channel_check_errors (c : nat) (m : uvm_channel_manager_t) : NV_STATUS * uvm_channel_manager_t :=
  let status := uvm_channel_get_status c m in
  if is_ok status then (NV_OK, m)
  else
    let '(_, m) := uvm_channel_get_first_pending_entry c m in
    (status, uvm_global_set_fatal_error status m).

Definition uvm_channel_manager_check_errors (m : uvm_channel_manager_t) : NV_STATUS * uvm_channel_manager_t :=
  if negb (is_ok (fatal_error m)) then (fatal_error m, m)
  else for_status (seq 0 (length (channels m))) uvm_channel_check_errors m.

(** ** Reserving GPFIFO entries *)

Definition channel_get_available_gpfifo_entries (ch : uvm_channel_t) : Z :=
  let available := u32 (num_gpfifo_entries ch - 1) in
  let available := u32 (available - current_gpfifo_count ch) in
  if gpu_get ch <=? cpu_put ch then u32 (available - (cpu_put ch - gpu_get ch))
  else u32 (available - u32 (cpu_put ch + num_gpfifo_entries ch - gpu_get ch)).

Definition try_claim_channel (c : nat) (num : Z) (m : uvm_channel_manager_t) : bool * uvm_channel_manager_t :=
  if num <=? channel_get_available_gpfifo_entries (channel_at m c)
  then (true, on_channel c (fun ch => ch <| current_gpfifo_count ::= (fun n => u32 (n + num)) |>) m)
  else (false, m).

(** [uvm_channel_reserve]: a round of its loop is what the other threads and the GPU
    do in the spin; when the rounds run out the thread still spins. *)
Fixpoint reserve_loop (rounds : list (uvm_channel_manager_t -> uvm_channel_manager_t)) (status : NV_STATUS) (c : nat) (num : Z)
    (m : uvm_channel_manager_t) : option (NV_STATUS * uvm_channel_manager_t) :=
  let '(claimed, m) := try_claim_channel c num m in
  if claimed then Some (status, m)
  else if is_ok status then
    match rounds with
    | [] => None
    | spin :: rounds =>
        let '(st, m) := uvm_channel_check_errors c (spin m) in
        reserve_loop rounds st c num (uvm_channel_update_progress c m).2
    end
  else Some (status, m).

Definition uvm_channel_reserve (rounds : list (uvm_channel_manager_t -> uvm_channel_manager_t)) (c : nat) (num : Z) (m : uvm_channel_manager_t)
    : option (NV_STATUS * uvm_channel_manager_t) :=
  let '(claimed, m) := try_claim_channel c num m in
  if claimed then Some (NV_OK, m) else reserve_loop rounds NV_OK c num (uvm_channel_update_progress c m).2.

(** [channel_reserve_in_pool]: the first channel of the pool with a free entry; then
    the channels in turn, each of which may progress first. *)
Fixpoint claim_first (cs : list nat) (m : uvm_channel_manager_t) : option nat * uvm_channel_manager_t :=
  match cs with
  | [] => (None, m)
  | c :: cs => let '(claimed, m) := try_claim_channel c 1 m in if claimed then (Some c, m) else claim_first cs m
  end.

(** The loop over the channels of the pool, at the one with the index [i]: each try is
    followed by a spin, and after the last channel it starts over with the first. *)
Fixpoint pool_loop (rounds : list (uvm_channel_manager_t -> uvm_channel_manager_t)) (cs : list nat) (i : nat) (m : uvm_channel_manager_t)
    : option ((NV_STATUS * option nat) * uvm_channel_manager_t) :=
  match cs !! i with
  | None => None
  | Some c =>
      let '(_, m) := uvm_channel_update_progress c m in
      let '(claimed, m) := try_claim_channel c 1 m in
      if claimed then Some ((NV_OK, Some c), m)
      else
        let '(st, m) := uvm_channel_check_errors c m in
        if is_ok st then
          match rounds with
          | [] => None
          | spin :: rounds => pool_loop rounds cs (S i mod length cs)%nat (spin m)
          end
        else Some ((st, None), m)
  end.

Definition channel_reserve_in_pool (rounds : list (uvm_channel_manager_t -> uvm_channel_manager_t)) (cs : list nat) (m : uvm_channel_manager_t)
    : option ((NV_STATUS * option nat) * uvm_channel_manager_t) :=
  let '(found, m) := claim_first cs m in
  match found with
  | Some c => Some ((NV_OK, Some c), m)
  | None => pool_loop rounds cs 0 m
  end.

Definition uvm_channel_release (c : nat) (num : Z) (m : uvm_channel_manager_t) : uvm_channel_manager_t :=
  on_channel c (fun ch => ch <| current_gpfifo_count ::= (fun n => u32 (n - num)) |>) m.

(** ** Waiting *)

(** [uvm_channel_wait]; [fatal_error] is what [uvm_global_get_status] returns. *)
Fixpoint channel_wait_loop (rounds : list (uvm_channel_manager_t -> uvm_channel_manager_t)) (status : NV_STATUS) (c : nat) (m : uvm_channel_manager_t)
    : option (NV_STATUS * uvm_channel_manager_t) :=
  let '(pending, m) := uvm_channel_update_progress c m in
  if (0 <? pending) && is_ok status then
    match rounds with
    | [] => None
    | spin :: rounds =>
        let m := spin m in
        let '(status, m) := if is_ok (fatal_error m) then uvm_channel_check_errors c m else (fatal_error m, m) in
        channel_wait_loop rounds status c m
    end
  else Some (status, m).

Definition uvm_channel_wait (rounds : list (uvm_channel_manager_t -> uvm_channel_manager_t)) (c : nat) (m : uvm_channel_manager_t)
    : option (NV_STATUS * uvm_channel_manager_t) :=
  let status := fatal_error m in
  let '(pending, m) := uvm_channel_update_progress c m in
  if (pending =? 0) && is_ok status then Some (uvm_channel_check_errors c m) else channel_wait_loop rounds status c m.

(** [uvm_channel_manager_wait] *)
Fixpoint manager_wait_loop (rounds : list (uvm_channel_manager_t -> uvm_channel_manager_t)) (status : NV_STATUS) (m : uvm_channel_manager_t)
    : option (NV_STATUS * uvm_channel_manager_t) :=
  let '(pending, m) := uvm_channel_manager_update_progress m in
  if (0 <? pending) && is_ok status then
    match rounds with
    | [] => None
    | spin :: rounds => let '(status, m) := uvm_channel_manager_check_errors (spin m) in manager_wait_loop rounds status m
    end
  else Some (status, m).

Definition uvm_channel_manager_wait (rounds : list (uvm_channel_manager_t -> uvm_channel_manager_t)) (m : uvm_channel_manager_t)
    : option (NV_STATUS * uvm_channel_manager_t) :=
  let '(pending, m) := uvm_channel_manager_update_progress m in
  if pending =? 0 then Some (uvm_channel_manager_check_errors m) else manager_wait_loop rounds NV_OK m.

(** ** Pushes *)

Definition channel_get_available_push_info_index (c : nat) (m : uvm_channel_manager_t) : option nat * uvm_channel_manager_t :=
  match available_push_infos (channel_at m c) with
  | [] => (None, m)
  | i :: l => (Some i, on_channel c (fun ch => ch <| available_push_infos := l |>) m)
  end.

(** The push that [uvm_channel_begin_push] makes of the chunk that was claimed. *)
Definition begin_in_chunk (c : nat) (chunk : nat) (m : uvm_channel_manager_t) : uvm_push_t * uvm_channel_manager_t :=
  let start := chunk_get_next_push_start_addr 0 (pushbuffer m) chunk in
  let '(info, m) := channel_get_available_push_info_index c m in
  (mk_push c start 0 (default 0%nat info) 0, m).

(** [uvm_push_get_size] *)
Definition uvm_push_get_size (push : uvm_push_t) : Z := u32 (push_words push * 4).

(** The entry at [cpu_put] is written and submitted, and no longer on-going. *)
Definition submit_entry (entry : uvm_gpfifo_entry_t) (ch : uvm_channel_t) : uvm_channel_t :=
  ch <| gpfifo_entries ::= <[Z.to_nat (cpu_put ch) := entry]> |>
     <| current_gpfifo_count ::= (fun n => u32 (n - 1)) |>
     <| cpu_put := (cpu_put ch + 1) mod num_gpfifo_entries ch |>.

(** [uvm_channel_end_push], from the increment of the queued value; the release of the
    semaphore is already among the words of the push. *)
Definition uvm_channel_end_push (push : uvm_push_t) (m : uvm_channel_manager_t) : uvm_push_t * uvm_channel_manager_t :=
  let c := push_channel push in
  let ch := channel_at m c in
  let new_tracking_value := u64 (queued_value (tracking_sem ch) + 1) in
  let put := Z.to_nat (cpu_put ch) in
  let entry := mk_gpfifo UVM_GPFIFO_ENTRY_TYPE_NORMAL new_tracking_value (uvm_pushbuffer_get_offset_for_push 0 false (push_begin push))
                 (uvm_push_get_size push) (control_value (entry_at ch put)) (push_info_index push) in
  let m := on_channel c (fun ch => submit_entry entry (ch <| tracking_sem ::= (fun t => t <| queued_value := new_tracking_value |>) |>)) m in
  let m := m <| pushbuffer ::= uvm_pushbuffer_end_push (gpfifo_of m) false (c, put) |> in
  (mk_push c (push_begin push) (push_words push) (Z.to_nat (num_gpfifo_entries ch)) new_tracking_value, m).

(** [write_ctrl_gpfifo] *)
Definition write_ctrl_gpfifo (c : nat) (ctrl_fifo_entry_value : Z) (m : uvm_channel_manager_t) : uvm_channel_manager_t :=
  let entry := mk_gpfifo UVM_GPFIFO_ENTRY_TYPE_CONTROL (u64 (queued_value (tracking_sem (channel_at m c)) + 1)) 0 0 ctrl_fifo_entry_value 0 in
  on_channel c (submit_entry entry) m.

(** The GPU has done the next push of the channel, whose last method releases the
    tracking semaphore for its value. *)
Definition gpu_completes (c : nat) (value : Z) (m : uvm_channel_manager_t) : uvm_channel_manager_t :=
  on_channel c (fun ch => ch <| tracking_sem ::= gpu_release value |>) m.

(** ** Beginning and ending pushes *)

#[export] Instance manager_world : PushbufferWorld uvm_channel_manager_t := {
  w_pushbuffer := pushbuffer;
  w_set_pushbuffer := fun pb m => m <| pushbuffer := pb |>;
  w_gpfifo := gpfifo_of;
  w_check_errors := uvm_channel_manager_check_errors;
  w_update_progress := fun m => (uvm_channel_manager_update_progress m).2;
}.

Definition uvm_channel_begin_push (rounds : list (uvm_channel_manager_t -> uvm_channel_manager_t)) (push c : nat) (m : uvm_channel_manager_t)
    : option ((NV_STATUS * option uvm_push_t) * uvm_channel_manager_t) :=
  match uvm_pushbuffer_begin_push 0 None rounds push m with
  | None => None
  | Some ((status, address), m) =>
      if is_ok status then
        let '(info, m) := channel_get_available_push_info_index c m in
        Some ((NV_OK, Some (mk_push c (default 0 address) 0 (default 0%nat info) 0)), m)
      else Some ((status, None), m)
  end.

(** [push_begin_acquire_with_info] on a reserved channel, and the release of the entry
    when the push does not begin. *)
Definition begin_on_reserved (rounds : list (uvm_channel_manager_t -> uvm_channel_manager_t)) (push c : nat) (m : uvm_channel_manager_t)
    : option ((NV_STATUS * option uvm_push_t) * uvm_channel_manager_t) :=
  match uvm_channel_begin_push rounds push c m with
  | None => None
  | Some ((status, p), m) => if is_ok status then Some ((NV_OK, p), m) else Some ((status, None), uvm_channel_release c 1 m)
  end.

(** [uvm_push_begin]: a channel of the pool, then the push. *)
Definition uvm_push_begin (reserve_rounds rounds : list (uvm_channel_manager_t -> uvm_channel_manager_t)) (cs : list nat) (push : nat)
    (m : uvm_channel_manager_t) : option ((NV_STATUS * option uvm_push_t) * uvm_channel_manager_t) :=
  match channel_reserve_in_pool reserve_rounds cs m with
  | None => None
  | Some ((_, Some c), m) => begin_on_reserved rounds push c m
  | Some ((status, None), m) => Some ((status, None), m)
  end.

Definition uvm_push_begin_on_channel (reserve_rounds rounds : list (uvm_channel_manager_t -> uvm_channel_manager_t)) (c push : nat)
    (m : uvm_channel_manager_t) : option ((NV_STATUS * option uvm_push_t) * uvm_channel_manager_t) :=
  match uvm_channel_reserve reserve_rounds c 1 m with
  | None => None
  | Some (status, m) => if is_ok status then begin_on_reserved rounds push c m else Some ((status, None), m)
  end.

(** [uvm_channel_write_ctrl_gpfifo]: the control entry, then a push that only releases
    the semaphore, of [words] words. *)
Definition uvm_channel_write_ctrl_gpfifo (reserve_rounds rounds : list (uvm_channel_manager_t -> uvm_channel_manager_t)) (c push : nat) (words value : Z)
    (m : uvm_channel_manager_t) : option (NV_STATUS * uvm_channel_manager_t) :=
  match uvm_channel_reserve reserve_rounds c 2 m with
  | None => None
  | Some (status, m) =>
      if negb (is_ok status) then Some (status, m)
      else
        match begin_on_reserved rounds push c (write_ctrl_gpfifo c value m) with
        | None => None
        | Some ((status, p), m) =>
            match p with
            | None => Some (status, m)
            | Some p => Some (NV_OK, (uvm_channel_end_push (mk_push c (push_begin p) words (push_info_index p) 0) m).2)
            end
        end
  end.

(** ** The ring of GPFIFO entries *)

(** [k] indices of a ring of [n] from [get] on. *)
Definition ring_indices (n get : Z) (k : nat) : list nat := (fun j => Z.to_nat ((get + Z.of_nat j) mod n)) <$> seq 0 k.

Section Ring.
Context (n : Z) (Hn : 0 < n).

Lemma ring_snoc_index get k : ring_indices n get (S k) = ring_indices n get k ++ [Z.to_nat ((get + Z.of_nat k) mod n)].
Proof. unfold ring_indices. by rewrite seq_S, fmap_app. Qed.

Lemma ring_cons_index get k : 0 <= get < n -> ring_indices n get (S k) = Z.to_nat get :: ring_indices n ((get + 1) mod n) k.
Proof.
  intros Hg. unfold ring_indices. rewrite <- cons_seq. cbn [fmap list_fmap]. f_equal; [rewrite Z.add_0_r, Z.mod_small; lia|].
  change ((fun j => Z.to_nat ((get + Z.of_nat j) mod n)) <$> seq 1 k = (fun j => Z.to_nat (((get + 1) mod n + Z.of_nat j) mod n)) <$> seq 0 k).
  rewrite <- fmap_S_seq, <- list_fmap_compose. apply list_fmap_ext. intros i j _. unfold compose. f_equal.
  rewrite Z.add_mod_idemp_l by lia. f_equal. lia.
Qed.

Lemma ring_index_bound get k i : i ∈ ring_indices n get k -> (i < Z.to_nat n)%nat.
Proof.
  unfold ring_indices. rewrite list_elem_of_fmap. intros (j & -> & _). pose proof (Z.mod_pos_bound (get + Z.of_nat j) n Hn). lia.
Qed.

(** While the ring is not full its next index is free. *)
Lemma ring_put_fresh get k : Z.of_nat k < n -> Z.to_nat ((get + Z.of_nat k) mod n) ∉ ring_indices n get k.
Proof.
  intros Hk. unfold ring_indices. rewrite list_elem_of_fmap. intros (j & E & Hj%elem_of_seq).
  pose proof (Z.mod_pos_bound (get + Z.of_nat j) n Hn). pose proof (Z.mod_pos_bound (get + Z.of_nat k) n Hn).
  assert ((get + Z.of_nat k) mod n = (get + Z.of_nat j) mod n) as E' by lia.
  pose proof (Z.div_mod (get + Z.of_nat k) n) as H1. pose proof (Z.div_mod (get + Z.of_nat j) n) as H2.
  set (d := (get + Z.of_nat k) / n - (get + Z.of_nat j) / n). assert (Z.of_nat k - Z.of_nat j = n * d) as Hd by (unfold d; lia).
  clearbody d. assert (d <= 0 \/ 1 <= d) as [Hle|Hge] by lia; [pose proof (Z.mul_nonneg_nonpos n d)|pose proof (Z.mul_le_mono_nonneg_l 1 d n)]; lia.
Qed.

Lemma ring_nodup get k : Z.of_nat k <= n -> NoDup (ring_indices n get k).
Proof.
  induction k as [|k IH]; intros Hk; [constructor|]. rewrite ring_snoc_index. apply NoDup_app. split; [apply IH; lia|].
  split; [|apply NoDup_singleton]. intros i Hi ->%list_elem_of_singleton. by apply (ring_put_fresh get k); [lia|].
Qed.

(** The number of pending entries from the two ends. *)
Lemma ring_count put get : 0 <= put < n -> 0 <= get < n ->
  (put - get) mod n = (if get <=? put then put - get else n - get + put).
Proof.
  intros Hp Hg. destruct (Z.leb_spec get put); [apply Z.mod_small; lia|]. symmetry. apply (Z.mod_unique _ _ (-1)); lia.
Qed.

Lemma ring_put_end put get : 0 <= put < n -> (get + (put - get) mod n) mod n = put.
Proof. intros Hp. rewrite Z.add_mod_idemp_r by lia. replace (get + (put - get)) with put by lia. apply Z.mod_small. lia. Qed.

Lemma ring_put_advance put get : (put - get) mod n < n - 1 -> ((put + 1) mod n - get) mod n = (put - get) mod n + 1.
Proof.
  intros Hk. rewrite Zminus_mod_idemp_l. pose proof (Z.div_mod (put - get) n). pose proof (Z.mod_pos_bound (put - get) n).
  symmetry. apply (Z.mod_unique _ _ ((put - get) / n)); lia.
Qed.

Lemma ring_get_advance put get : 0 < (put - get) mod n -> (put - (get + 1) mod n) mod n = (put - get) mod n - 1.
Proof.
  intros Hk. rewrite Zminus_mod_idemp_r. pose proof (Z.div_mod (put - get) n). pose proof (Z.mod_pos_bound (put - get) n).
  symmetry. apply (Z.mod_unique _ _ ((put - get) / n)); lia.
Qed.

Lemma ring_empty put get : 0 <= put < n -> 0 <= get < n -> ((put - get) mod n = 0 <-> get = put).
Proof. intros Hp Hg. rewrite ring_count by done. destruct (Z.leb_spec get put); lia. Qed.

End Ring.

(** ** The interface of the pushbuffer *)

Lemma channel_at_on_channel c f m : (c < length (channels m))%nat -> channel_at (on_channel c f m) c = f (channel_at m c).
Proof. intros Hc. unfold channel_at at 1, on_channel. cbn [channels upd]. by rewrite list_lookup_insert_eq. Qed.

Lemma channel_at_ne c c' f m : c <> c' -> channel_at (on_channel c f m) c' = channel_at m c'.
Proof. intros Hc. unfold channel_at at 1, on_channel. cbn [channels upd]. by rewrite list_lookup_insert_ne. Qed.

Lemma channel_at_out c f m : (length (channels m) <= c)%nat -> on_channel c f m = m.
Proof. intros Hc. unfold on_channel. rewrite list_insert_ge by done. by destruct m. Qed.

Lemma on_channel_length c f m : length (channels (on_channel c f m)) = length (channels m).
Proof. unfold on_channel. cbn [channels upd]. apply length_insert. Qed.

(** A store that keeps a field keeps it for all channels. *)
Lemma on_channel_field {A} (proj : uvm_channel_t -> A) c f m c' : (forall ch, proj (f ch) = proj ch) -> proj (channel_at (on_channel c f m) c') = proj (channel_at m c').
Proof.
  intros Hf. destruct (decide (c = c')) as [<-|]; [|by rewrite channel_at_ne]. destruct (decide (c < length (channels m))%nat) as [Hc|Hc].
  - by rewrite channel_at_on_channel, Hf.
  - by rewrite channel_at_out by lia.
Qed.

Lemma gpfifo_of_on_channel c f m g : (forall ch, gpfifo_entries (f ch) = gpfifo_entries ch) -> gpfifo_of (on_channel c f m) g = gpfifo_of m g.
Proof. intros Hf. unfold gpfifo_of, entry_at. by rewrite (on_channel_field gpfifo_entries). Qed.

(** The pushbuffer is well formed for the entries of the channels. *)
Definition manager_pb_ok (m : uvm_channel_manager_t) : Prop := pb_ok (gpfifo_of m) (pushbuffer m).

Lemma pb_ok_on_channel c f m : (forall ch, gpfifo_entries (f ch) = gpfifo_entries ch) -> manager_pb_ok m -> manager_pb_ok (on_channel c f m).
Proof. intros Hf. apply pb_ok_ext. intros i g _ _. by apply gpfifo_of_on_channel. Qed.

Lemma mark_completed_pb_ok c i m : manager_pb_ok m -> manager_pb_ok (uvm_pushbuffer_mark_completed c i m).
Proof.
  intros Hm. unfold uvm_pushbuffer_mark_completed. set (m1 := match default None _ with Some f => _ | None => m end).
  assert (manager_pb_ok m1) as Hm1 by (unfold m1; case_match; [by apply (pb_ok_on_channel c _ (m <| completions ::= cons z |>))|done]).
  by apply remove_pending_ok.
Qed.

Lemma progress_step_pb_ok c v mode m m' : manager_pb_ok m -> progress_step c v mode m = Some m' -> manager_pb_ok m'.
Proof.
  intros Hm. unfold progress_step. destruct (_ =? _); [done|]. destruct (_ && _); [done|]. intros [= <-]. apply pb_ok_on_channel; [done|].
  destruct (gp_type _); [|done]. apply pb_ok_on_channel; [done|]. by apply mark_completed_pb_ok.
Qed.

Lemma progress_loop_pb_ok n c v mode m : manager_pb_ok m -> manager_pb_ok (progress_loop n c v mode m).
Proof.
  revert m. induction n as [|n IH]; intros m Hm; [done|]. simpl. destruct (progress_step c v mode m) eqn:E; [|done].
  apply IH. by apply (progress_step_pb_ok c v mode m).
Qed.

Lemma update_progress_pb_ok c n mode m : manager_pb_ok m -> manager_pb_ok (uvm_channel_update_progress_with_max c n mode m).2.
Proof.
  intros Hm. unfold uvm_channel_update_progress_with_max, uvm_channel_update_completed_value.
  destruct (uvm_gpu_tracking_semaphore_update_completed_value _) as [v t]. cbn [snd]. apply progress_loop_pb_ok. by apply pb_ok_on_channel.
Qed.

Lemma update_progress_of_pb_ok cs n m : manager_pb_ok m -> manager_pb_ok (update_progress_of cs n m).2.
Proof.
  revert n m. induction cs as [|c cs IH]; intros n m Hm; [done|]. simpl. unfold uvm_channel_update_progress.
  pose proof (update_progress_pb_ok c 8 UVM_CHANNEL_UPDATE_MODE_COMPLETED m Hm) as Hok.
  destruct (uvm_channel_update_progress_with_max c 8 UVM_CHANNEL_UPDATE_MODE_COMPLETED m) as [k m1]. by apply IH.
Qed.

Lemma check_errors_pb_ok c m : manager_pb_ok m -> manager_pb_ok (uvm_channel_check_errors c m).2.
Proof.
  intros Hm. unfold uvm_channel_check_errors. destruct (is_ok _); [done|]. unfold uvm_channel_get_first_pending_entry, channel_update_progress_all.
  pose proof (update_progress_pb_ok c (Z.to_nat (num_gpfifo_entries (channel_at m c))) UVM_CHANNEL_UPDATE_MODE_COMPLETED m Hm) as Hok.
  destruct (uvm_channel_update_progress_with_max _ _ _ m) as [k m1]. cbn [snd] in Hok. unfold uvm_global_set_fatal_error.
  destruct (k =? 0); cbn [snd]; destruct (is_ok (fatal_error m1)); done.
Qed.

Lemma for_status_keeps {S A} (I : S -> Prop) (l : list A) body s : (forall a s, I s -> I (body a s).2) -> I s -> I (for_status l body s).2.
Proof.
  intros Hb. revert s. induction l as [|a l IH]; intros s Hs; [done|]. simpl. unfold try, mbind, ST_bind. pose proof (Hb a s Hs) as H1.
  destruct (body a s) as [st s1]. destruct (is_ok st); [by apply IH|done].
Qed.

#[export] Instance manager_world_laws : PushbufferWorldLaws uvm_channel_manager_t.
Proof.
  split; [done|done|..].
  - intros m Hm. cbn [w_check_errors manager_world]. unfold uvm_channel_manager_check_errors. destruct (is_ok _); [|done]. cbn [negb].
    by apply (for_status_keeps manager_pb_ok); [intros c m'; apply check_errors_pb_ok|].
  - intros m Hm. by apply update_progress_of_pb_ok.
Qed.

(** ** The invariant of a channel *)

Definition pending_count (ch : uvm_channel_t) : Z := (cpu_put ch - gpu_get ch) mod num_gpfifo_entries ch.

(** The indices of the pending entries, oldest first, and of those that are pushes. *)
Definition pending_entries (ch : uvm_channel_t) : list nat := ring_indices (num_gpfifo_entries ch) (gpu_get ch) (Z.to_nat (pending_count ch)).

Definition is_push (ch : uvm_channel_t) (i : nat) : bool := bool_decide (gp_type (entry_at ch i) = UVM_GPFIFO_ENTRY_TYPE_NORMAL).

Definition pending_pushes (ch : uvm_channel_t) : list nat := filter (fun i => is_push ch i = true) (pending_entries ch).

Definition pushes_values (ch : uvm_channel_t) : list Z := (fun i => tracking_semaphore_value (entry_at ch i)) <$> pending_pushes ch.

(** [tokens] entries are reserved by threads that have not begun their push, the
    on-going pushes have the push infos [infos], and the GPU has released the value
    [released]. *)
Record channel_ok (tokens : Z) (infos : list nat) (released : Z) (ch : uvm_channel_t) : Prop := {
  ch_num : 2 <= num_gpfifo_entries ch <= UVM_CHANNEL_NUM_GPFIFO_ENTRIES_MAX;
  ch_entries : length (gpfifo_entries ch) = Z.to_nat (num_gpfifo_entries ch);
  ch_put : 0 <= cpu_put ch < num_gpfifo_entries ch;
  ch_get : 0 <= gpu_get ch < num_gpfifo_entries ch;
  ch_tokens : 0 <= tokens;
  ch_current : current_gpfifo_count ch = tokens + Z.of_nat (length infos);
  ch_room : pending_count ch + current_gpfifo_count ch <= num_gpfifo_entries ch - 1;
  ch_counts : counts (tracking_sem ch) released;
  ch_released : released <= queued_value (tracking_sem ch);
  ch_queued : 0 <= queued_value (tracking_sem ch) < 2 ^ 64;
  ch_values : pushes_values ch = seqZ (queued_value (tracking_sem ch) - Z.of_nat (length (pending_pushes ch)) + 1) (Z.of_nat (length (pending_pushes ch)));
  ch_completed : queued_value (tracking_sem ch) - Z.of_nat (length (pending_pushes ch)) <= completed_value (tracking_sem ch);
  ch_infos : available_push_infos ch ++ ((fun i => gp_push_info (entry_at ch i)) <$> pending_pushes ch) ++ infos ≡ₚ seq 0 (Z.to_nat (num_gpfifo_entries ch));
}.

Section ChannelFacts.
Context (tokens : Z) (infos : list nat) (released : Z) (ch : uvm_channel_t) (Hch : channel_ok tokens infos released ch).

Lemma pending_count_bound : 0 <= pending_count ch < num_gpfifo_entries ch.
Proof. apply Z.mod_pos_bound. pose proof (ch_num _ _ _ _ Hch). lia. Qed.

Lemma pending_length : Z.of_nat (length (pending_entries ch)) = pending_count ch.
Proof. unfold pending_entries, ring_indices. rewrite length_fmap, length_seq. pose proof pending_count_bound. lia. Qed.

Lemma pushes_length : Z.of_nat (length (pending_pushes ch)) <= pending_count ch.
Proof. rewrite <- pending_length. apply inj_le. apply length_filter. Qed.

Lemma pending_nodup : NoDup (pending_entries ch).
Proof. pose proof pending_count_bound. pose proof (ch_num _ _ _ _ Hch). apply ring_nodup; lia. Qed.

Lemma pushes_nodup : NoDup (pending_pushes ch).
Proof. apply NoDup_filter, pending_nodup. Qed.

Lemma pending_bound i : i ∈ pending_entries ch -> (i < length (gpfifo_entries ch))%nat.
Proof. intros Hi. rewrite (ch_entries _ _ _ _ Hch). pose proof (ch_num _ _ _ _ Hch). by apply ring_index_bound in Hi; [|lia]. Qed.

(** The next entry to write is not pending. *)
Lemma put_not_pending : Z.to_nat (cpu_put ch) ∉ pending_entries ch.
Proof.
  pose proof pending_count_bound as Hk. pose proof (ch_num _ _ _ _ Hch). pose proof (ch_put _ _ _ _ Hch).
  rewrite <- (ring_put_end (num_gpfifo_entries ch) ltac:(lia) (cpu_put ch) (gpu_get ch)) by done. fold (pending_count ch).
  rewrite <- (Z2Nat.id (pending_count ch)) at 1 by lia. apply ring_put_fresh; lia.
Qed.

(** The number of free entries is computed without wrapping. *)
Lemma available_exact : channel_get_available_gpfifo_entries ch = num_gpfifo_entries ch - 1 - current_gpfifo_count ch - pending_count ch.
Proof.
  pose proof pending_count_bound as Hk. destruct Hch as [Hnum _ Hput Hget Htok Hcur Hroom _ _ _ _ _ _].
  unfold UVM_CHANNEL_NUM_GPFIFO_ENTRIES_MAX in Hnum. unfold channel_get_available_gpfifo_entries.
  unfold pending_count in *. rewrite ring_count in * by lia.
  rewrite !(u32_small (num_gpfifo_entries ch - 1)), !(u32_small (num_gpfifo_entries ch - 1 - _)) by lia.
  destruct (Z.leb_spec (gpu_get ch) (cpu_put ch)); [by rewrite u32_small by lia|].
  rewrite (u32_small (cpu_put ch + num_gpfifo_entries ch - gpu_get ch)), u32_small by lia. lia.
Qed.

(** A push that the GPU has not released is still pending. *)
Lemma unreleased_pending v : released < v <= queued_value (tracking_sem ch) -> exists i, i ∈ pending_pushes ch /\ tracking_semaphore_value (entry_at ch i) = v.
Proof.
  intros Hv. pose proof (ch_completed _ _ _ _ Hch). pose proof (ch_counts _ _ _ _ Hch) as (_ & Hc & _).
  assert (v ∈ pushes_values ch) as Hin by (rewrite (ch_values _ _ _ _ Hch); apply elem_of_seqZ; lia).
  unfold pushes_values in Hin. apply list_elem_of_fmap in Hin as (i & -> & Hi). by exists i.
Qed.

(** Pending pushes have different values. *)
Lemma values_inj i j : i ∈ pending_pushes ch -> j ∈ pending_pushes ch -> tracking_semaphore_value (entry_at ch i) = tracking_semaphore_value (entry_at ch j) -> i = j.
Proof.
  intros [a Ha]%list_elem_of_lookup [b Hb]%list_elem_of_lookup E. assert (NoDup (pushes_values ch)) as Hn by (rewrite (ch_values _ _ _ _ Hch); apply NoDup_seqZ).
  assert (a = b) as ->; [|congruence]. apply (NoDup_lookup _ a b (tracking_semaphore_value (entry_at ch i)) Hn);
    unfold pushes_values; rewrite list_lookup_fmap; [by rewrite Ha|by rewrite Hb; simpl; rewrite E].
Qed.

(** A push that begins finds a push info. *)
Lemma push_info_available : 0 < tokens -> exists i l, available_push_infos ch = i :: l.
Proof.
  intros Ht. destruct (available_push_infos ch) as [|i l] eqn:E; [|by eexists _, _]. exfalso.
  pose proof (Permutation_length (ch_infos _ _ _ _ Hch)) as Hl. rewrite E, !length_app, length_fmap, length_seq in Hl. cbn [length] in Hl.
  pose proof pushes_length. destruct Hch as [Hnum _ _ _ _ Hcur Hroom _ _ _ _ _ _]. lia.
Qed.

End ChannelFacts.

(** ** Steps of a channel *)

(** The ring after an entry was written at the end. *)
Lemma pending_put ch ch' : 2 <= num_gpfifo_entries ch -> 0 <= cpu_put ch < num_gpfifo_entries ch -> pending_count ch < num_gpfifo_entries ch - 1 ->
  num_gpfifo_entries ch' = num_gpfifo_entries ch -> gpu_get ch' = gpu_get ch -> cpu_put ch' = (cpu_put ch + 1) mod num_gpfifo_entries ch ->
  pending_count ch' = pending_count ch + 1 /\ pending_entries ch' = pending_entries ch ++ [Z.to_nat (cpu_put ch)].
Proof.
  intros Hn Hp Hk En Eg Ep. assert (pending_count ch' = pending_count ch + 1) as Ek.
  { unfold pending_count in *. rewrite En, Eg, Ep. by apply ring_put_advance; [lia|]. }
  split; [done|]. unfold pending_entries. rewrite Ek, En, Eg. pose proof (Z.mod_pos_bound (cpu_put ch - gpu_get ch) (num_gpfifo_entries ch) ltac:(lia)) as Hb.
  fold (pending_count ch) in Hb. replace (Z.to_nat (pending_count ch + 1)) with (S (Z.to_nat (pending_count ch))) by lia.
  rewrite ring_snoc_index. do 2 f_equal. rewrite Z2Nat.id by lia. f_equal. unfold pending_count. apply ring_put_end; lia.
Qed.

(** The ring after the first entry was dropped. *)
Lemma pending_get ch ch' : 2 <= num_gpfifo_entries ch -> 0 <= gpu_get ch < num_gpfifo_entries ch -> 0 <= cpu_put ch < num_gpfifo_entries ch -> gpu_get ch <> cpu_put ch ->
  num_gpfifo_entries ch' = num_gpfifo_entries ch -> cpu_put ch' = cpu_put ch -> gpu_get ch' = (gpu_get ch + 1) mod num_gpfifo_entries ch ->
  pending_count ch' = pending_count ch - 1 /\ 0 < pending_count ch /\ pending_entries ch = Z.to_nat (gpu_get ch) :: pending_entries ch'.
Proof.
  intros Hn Hg Hp Hne En Ep Eg. pose proof (Z.mod_pos_bound (cpu_put ch - gpu_get ch) (num_gpfifo_entries ch) ltac:(lia)) as Hb. fold (pending_count ch) in Hb.
  assert (pending_count ch <> 0) as H0 by (intros E; by apply Hne, (proj1 (ring_empty (num_gpfifo_entries ch) (cpu_put ch) (gpu_get ch) Hp Hg))).
  assert (pending_count ch' = pending_count ch - 1) as Ek by (unfold pending_count in *; rewrite En, Ep, Eg; apply ring_get_advance; lia).
  split; [done|]. split; [lia|]. unfold pending_entries. rewrite Ek, En, Eg.
  replace (Z.to_nat (pending_count ch)) with (S (Z.to_nat (pending_count ch - 1))) by lia. apply ring_cons_index; lia.
Qed.

Lemma pushes_ext ch ch' (l : list nat) : (forall i, i ∈ l -> entry_at ch' i = entry_at ch i) ->
  filter (fun i => is_push ch' i = true) l = filter (fun i => is_push ch i = true) l.
Proof.
  induction l as [|i l IH]; intros H; [done|]. specialize (IH ltac:(intros j Hj; apply H; by right)).
  assert (is_push ch' i = is_push ch i) as E by (unfold is_push; by rewrite (H i ltac:(by left))).
  rewrite !filter_cons, IH, E. done.
Qed.

Lemma entry_insert_ne ch entries put e i : entries = <[put := e]> (gpfifo_entries ch) -> i <> put ->
  default zero_gpfifo (entries !! i) = entry_at ch i.
Proof. intros -> Hi. unfold entry_at. by rewrite list_lookup_insert_ne. Qed.

Section Steps.
Context (tokens : Z) (infos : list nat) (released : Z) (ch : uvm_channel_t) (Hch : channel_ok tokens infos released ch).

Lemma channel_claim num : 0 < num -> num <= channel_get_available_gpfifo_entries ch ->
  channel_ok (tokens + num) infos released (ch <| current_gpfifo_count ::= (fun n => u32 (n + num)) |>).
Proof.
  intros Hnum Hav. rewrite (available_exact _ _ _ _ Hch) in Hav. pose proof (pending_count_bound _ _ _ _ Hch).
  assert (u32 (current_gpfifo_count ch + num) = current_gpfifo_count ch + num) as E.
  { destruct Hch as [Hn _ _ _ Ht Hc _ _ _ _ _ _ _]. unfold UVM_CHANNEL_NUM_GPFIFO_ENTRIES_MAX in Hn. apply u32_small. lia. }
  destruct Hch. split; cbn [current_gpfifo_count num_gpfifo_entries upd]; rewrite ?E; try done; [lia|lia|]. change (pending_count (upd _ ch)) with (pending_count ch). lia.
Qed.

Lemma channel_release num : 0 <= num <= tokens -> channel_ok (tokens - num) infos released (ch <| current_gpfifo_count ::= (fun n => u32 (n - num)) |>).
Proof.
  intros Hnum. pose proof (pending_count_bound _ _ _ _ Hch).
  assert (u32 (current_gpfifo_count ch - num) = current_gpfifo_count ch - num) as E.
  { destruct Hch as [Hn _ _ _ Ht Hc Hr _ _ _ _ _ _]. unfold UVM_CHANNEL_NUM_GPFIFO_ENTRIES_MAX in Hn. apply u32_small. lia. }
  destruct Hch. split; cbn [current_gpfifo_count num_gpfifo_entries upd]; rewrite ?E; try done; [lia|lia|]. change (pending_count (upd _ ch)) with (pending_count ch). lia.
Qed.

Lemma channel_take_info i l : 0 < tokens -> available_push_infos ch = i :: l ->
  channel_ok (tokens - 1) (i :: infos) released (ch <| available_push_infos := l |>).
Proof.
  intros Ht E. destruct Hch. split; try done; [lia|cbn [current_gpfifo_count upd length]; lia|]. cbn [available_push_infos num_gpfifo_entries upd].
  rewrite <- ch_infos0, E. change (pending_pushes (ch <| available_push_infos := l |>)) with (pending_pushes ch).
  rewrite <- app_comm_cons. by rewrite !app_assoc, <- Permutation_middle.
Qed.

Lemma channel_gpu : released < queued_value (tracking_sem ch) -> channel_ok tokens infos (released + 1) (ch <| tracking_sem ::= gpu_release (released + 1) |>).
Proof.
  intros Hlt. pose proof (pushes_length _ _ _ _ Hch). pose proof (pending_count_bound _ _ _ _ Hch). destruct Hch. split; try done; [|cbn [tracking_sem upd gpu_release queued_value]; lia].
  cbn [tracking_sem upd]. unfold UVM_CHANNEL_NUM_GPFIFO_ENTRIES_MAX in ch_num0. apply (release_counts _ released); [done|lia|lia].
Qed.

Lemma channel_update : channel_ok tokens infos released (ch <| tracking_sem := (uvm_gpu_tracking_semaphore_update_completed_value (tracking_sem ch)).2 |>).
Proof.
  unfold uvm_gpu_tracking_semaphore_update_completed_value. rewrite (update_counts _ _ (ch_counts _ _ _ _ Hch)). cbn [snd].
  pose proof (ch_counts _ _ _ _ Hch) as (_ & Hc & _). destruct Hch. split; try done; [by apply counts_updated|].
  cbn [tracking_sem upd completed_value queued_value]. change (pending_pushes (upd _ ch)) with (pending_pushes ch). lia.
Qed.

(** The ring after an entry was submitted. *)
Lemma submit_ring e : 0 < current_gpfifo_count ch ->
  pending_count (submit_entry e ch) = pending_count ch + 1 /\ pending_entries (submit_entry e ch) = pending_entries ch ++ [Z.to_nat (cpu_put ch)] /\
  entry_at (submit_entry e ch) (Z.to_nat (cpu_put ch)) = e /\ (forall i, i <> Z.to_nat (cpu_put ch) -> entry_at (submit_entry e ch) i = entry_at ch i).
Proof.
  intros Hcur. destruct (pending_put ch (submit_entry e ch)) as [H1 H2]; [destruct Hch; (done || lia)..|]. split; [done|]. split; [done|]. split.
  - unfold entry_at, submit_entry. cbn [gpfifo_entries upd]. rewrite list_lookup_insert_eq; [done|].
    rewrite (ch_entries _ _ _ _ Hch). pose proof (ch_put _ _ _ _ Hch). lia.
  - intros i Hi. by apply (entry_insert_ne ch _ (Z.to_nat (cpu_put ch)) e).
Qed.

Lemma submit_pushes e : 0 < current_gpfifo_count ch ->
  pending_pushes (submit_entry e ch) = pending_pushes ch ++ (if bool_decide (gp_type e = UVM_GPFIFO_ENTRY_TYPE_NORMAL) then [Z.to_nat (cpu_put ch)] else []) /\
  (forall i, i ∈ pending_pushes ch -> entry_at (submit_entry e ch) i = entry_at ch i).
Proof.
  intros Hcur. destruct (submit_ring e Hcur) as (_ & H2 & H3 & H4).
  assert (forall i, i ∈ pending_entries ch -> entry_at (submit_entry e ch) i = entry_at ch i) as Hsame.
  { intros i Hi. apply H4. intros ->. by apply (put_not_pending _ _ _ _ Hch). }
  split; [|intros i [_ Hi]%list_elem_of_filter; by apply Hsame].
  unfold pending_pushes. rewrite H2, filter_app, (pushes_ext ch _ (pending_entries ch)) by done. f_equal.
  assert (is_push (submit_entry e ch) (Z.to_nat (cpu_put ch)) = bool_decide (gp_type e = UVM_GPFIFO_ENTRY_TYPE_NORMAL)) as Ee by (unfold is_push; by rewrite H3).
  rewrite <- Ee, filter_cons. by destruct (is_push (submit_entry e ch) (Z.to_nat (cpu_put ch))).
Qed.

Lemma submit_current : 0 < current_gpfifo_count ch -> u32 (current_gpfifo_count ch - 1) = current_gpfifo_count ch - 1.
Proof.
  intros H. pose proof (pending_count_bound _ _ _ _ Hch). destruct Hch as [Hn _ _ _ Ht Hc Hr _ _ _ _ _ _]. unfold UVM_CHANNEL_NUM_GPFIFO_ENTRIES_MAX in Hn. apply u32_small. lia.
Qed.

(** What submitting does not depend on. *)
Lemma submit_fields e : num_gpfifo_entries (submit_entry e ch) = num_gpfifo_entries ch /\ gpu_get (submit_entry e ch) = gpu_get ch /\
  tracking_sem (submit_entry e ch) = tracking_sem ch /\ available_push_infos (submit_entry e ch) = available_push_infos ch /\
  length (gpfifo_entries (submit_entry e ch)) = length (gpfifo_entries ch) /\ 0 <= cpu_put (submit_entry e ch) < num_gpfifo_entries ch.
Proof.
  split_and!; try done; [apply length_insert|..]; apply Z.mod_pos_bound; pose proof (ch_num _ _ _ _ Hch); lia.
Qed.

Lemma channel_ctrl e : 1 <= tokens -> gp_type e = UVM_GPFIFO_ENTRY_TYPE_CONTROL -> channel_ok (tokens - 1) infos released (submit_entry e ch).
Proof.
  intros Ht He. assert (0 < current_gpfifo_count ch) as Hcur by (rewrite (ch_current _ _ _ _ Hch); lia).
  destruct (submit_ring e Hcur) as (Hk & _). destruct (submit_pushes e Hcur) as [Hp Hsame]. rewrite He in Hp. simpl in Hp. rewrite app_nil_r in Hp.
  destruct (submit_fields e) as (E1 & E2 & E3 & E4 & E5 & E6).
  assert (current_gpfifo_count (submit_entry e ch) = current_gpfifo_count ch - 1) as Ec by (by apply submit_current).
  assert (pushes_values (submit_entry e ch) = pushes_values ch) as Ev.
  { unfold pushes_values. rewrite Hp. apply list_fmap_ext. intros k i Hi. rewrite Hsame; [done|by eapply list_elem_of_lookup_2]. }
  assert ((fun i => gp_push_info (entry_at (submit_entry e ch) i)) <$> pending_pushes ch = (fun i => gp_push_info (entry_at ch i)) <$> pending_pushes ch) as Ei.
  { apply list_fmap_ext. intros k i Hi. rewrite Hsame; [done|by eapply list_elem_of_lookup_2]. }
  destruct Hch. split; rewrite ?E1, ?E2, ?E3, ?E4, ?E5, ?Ec, ?Ev, ?Hp, ?Hk, ?Ei; (done || lia).
Qed.

End Steps.

Section Submit.
Context (tokens : Z) (infos : list nat) (released : Z) (ch : uvm_channel_t) (Hch : channel_ok tokens infos released ch).

(** A push is submitted with the next tracking value. *)
Lemma channel_end e i infos' : infos ≡ₚ i :: infos' -> queued_value (tracking_sem ch) + 1 < 2 ^ 64 -> gp_type e = UVM_GPFIFO_ENTRY_TYPE_NORMAL ->
  tracking_semaphore_value e = queued_value (tracking_sem ch) + 1 -> gp_push_info e = i ->
  channel_ok tokens infos' released (submit_entry e (ch <| tracking_sem ::= (fun t => t <| queued_value := queued_value (tracking_sem ch) + 1 |>) |>)).
Proof.
  intros Hi Hq He Hv Hinfo. set (ch1 := submit_entry e ch). set (t1 := (tracking_sem ch) <| queued_value := queued_value (tracking_sem ch) + 1 |>).
  change (submit_entry e _) with (ch1 <| tracking_sem := t1 |>).
  assert (0 < current_gpfifo_count ch) as Hcur.
  { rewrite (ch_current _ _ _ _ Hch), (Permutation_length Hi). cbn [length]. pose proof (ch_tokens _ _ _ _ Hch). lia. }
  destruct (submit_ring _ _ _ _ Hch e Hcur) as (Hk & _ & Hput & _). destruct (submit_pushes _ _ _ _ Hch e Hcur) as [Hp Hsame]. rewrite He in Hp. simpl in Hp.
  destruct (submit_fields _ _ _ _ Hch e) as (E1 & E2 & E3 & E4 & E5 & E6).
  assert (current_gpfifo_count ch1 = current_gpfifo_count ch - 1) as Ec by (by apply (submit_current _ _ _ _ Hch)).
  fold ch1 in Hk, Hput, Hp, Hsame, E1, E2, E3, E4, E5, E6.
  assert (Z.of_nat (length (pending_pushes ch1)) = Z.of_nat (length (pending_pushes ch)) + 1) as Hlen by (rewrite Hp, length_app; simpl; lia).
  assert (forall {A} (f : uvm_gpfifo_entry_t -> A), (fun i => f (entry_at ch1 i)) <$> pending_pushes ch1 = ((fun i => f (entry_at ch i)) <$> pending_pushes ch) ++ [f e]) as Hmap.
  { intros A f. rewrite Hp, fmap_app. cbn [fmap list_fmap]. rewrite Hput. f_equal. apply list_fmap_ext. intros k j Hj. rewrite Hsame; [done|by eapply list_elem_of_lookup_2]. }
  pose proof (Permutation_length Hi) as Hil. cbn [length] in Hil.
  destruct Hch. split; cbn [num_gpfifo_entries gpfifo_entries cpu_put gpu_get current_gpfifo_count tracking_sem available_push_infos upd];
    rewrite ?E1, ?E2, ?E4, ?E5, ?Ec; try (done || lia).
  - change (pending_count ch1 + (current_gpfifo_count ch - 1) <= num_gpfifo_entries ch - 1). lia.
  - cbn [t1 queued_value upd]. lia.
  - cbn [t1 queued_value upd]. lia.
  - change (pushes_values _) with (pushes_values ch1). change (pending_pushes (upd _ ch1)) with (pending_pushes ch1). unfold pushes_values in *.
    rewrite (Hmap _ tracking_semaphore_value), ch_values0, Hlen, Hv. cbn [t1 queued_value upd].
    rewrite (seqZ_app _ (Z.of_nat (length (pending_pushes ch))) 1) by lia. f_equal; [f_equal; lia|]. rewrite seqZ_cons by lia. simpl. f_equal. lia.
  - change (pending_pushes (upd _ ch1)) with (pending_pushes ch1). cbn [t1 queued_value completed_value upd]. lia.
  - change (pending_pushes (upd _ ch1)) with (pending_pushes ch1).
    change ((fun j => gp_push_info (entry_at (upd _ ch1) j)) <$> pending_pushes ch1) with ((fun j => gp_push_info (entry_at ch1 j)) <$> pending_pushes ch1).
    rewrite (Hmap _ gp_push_info), Hinfo, <- ch_infos0, Hi. by rewrite <- app_assoc.
Qed.

(** The first entry is dropped: it is a control entry, or a push the GPU has done,
    whose push info is available again. *)
Lemma channel_progress v (l : list nat) :
  gpu_get ch <> cpu_put ch -> v <= completed_value (tracking_sem ch) -> tracking_semaphore_value (entry_at ch (Z.to_nat (gpu_get ch))) <= v ->
  l = (if is_push ch (Z.to_nat (gpu_get ch)) then [gp_push_info (entry_at ch (Z.to_nat (gpu_get ch)))] else []) ->
  channel_ok tokens infos released (ch <| available_push_infos ::= (fun av => av ++ l) |> <| gpu_get := (gpu_get ch + 1) mod num_gpfifo_entries ch |>) /\
  pending_pushes ch = (if is_push ch (Z.to_nat (gpu_get ch)) then [Z.to_nat (gpu_get ch)] else []) ++
    pending_pushes (ch <| available_push_infos ::= (fun av => av ++ l) |> <| gpu_get := (gpu_get ch + 1) mod num_gpfifo_entries ch |>).
Proof.
  intros Hne Hv Htr Hl. set (ch' := ch <| available_push_infos ::= (fun av => av ++ l) |> <| gpu_get := (gpu_get ch + 1) mod num_gpfifo_entries ch |>).
  set (i := Z.to_nat (gpu_get ch)) in *.
  destruct (pending_get ch ch') as (Hk & Hk0 & He); [destruct Hch; (done || lia)..|]. fold i in He.
  assert (pending_pushes ch = (if is_push ch i then [i] else []) ++ pending_pushes ch') as Hp.
  { unfold pending_pushes. rewrite He, filter_cons. change (fun j => is_push ch' j = true) with (fun j => is_push ch j = true).
    by destruct (is_push ch i). }
  split; [|done].
  assert (pushes_values ch = (if is_push ch i then [tracking_semaphore_value (entry_at ch i)] else []) ++ pushes_values ch') as Hvals.
  { unfold pushes_values. rewrite Hp, fmap_app. by destruct (is_push ch i). }
  assert (((fun j => gp_push_info (entry_at ch j)) <$> pending_pushes ch) = l ++ ((fun j => gp_push_info (entry_at ch' j)) <$> pending_pushes ch')) as Hinfo.
  { rewrite Hp, fmap_app, Hl. by destruct (is_push ch i). }
  pose proof (Z.mod_pos_bound (gpu_get ch + 1) (num_gpfifo_entries ch) ltac:(pose proof (ch_num _ _ _ _ Hch); lia)) as Hg.
  destruct Hch. split; try done.
  - change (pending_count ch' + current_gpfifo_count ch <= num_gpfifo_entries ch - 1). lia.
  - change (tracking_sem ch') with (tracking_sem ch). rewrite Hp, Hvals in ch_values0. destruct (is_push ch i); [|by rewrite !app_nil_l in ch_values0].
    cbn [app] in ch_values0. rewrite length_cons, seqZ_cons in ch_values0 by lia. injection ch_values0 as _ ->. f_equal; lia.
  - change (tracking_sem ch') with (tracking_sem ch). rewrite Hp, Hvals in ch_values0. rewrite Hp in ch_completed0. destruct (is_push ch i) eqn:Ei; [|done].
    cbn [app] in ch_values0. rewrite length_cons, seqZ_cons in ch_values0 by lia. injection ch_values0 as E _. lia.
  - change (available_push_infos ch') with (available_push_infos ch ++ l). rewrite <- app_assoc, (app_assoc l), <- Hinfo. done.
Qed.

End Submit.
