(* ===== verification/PushSystem.v ===== *)
(** * Pushes on the channels of a GPU

    Pushes made by any number of threads on the channels of a GPU
    (src/backLib/kernel-open/nvidia-uvm/uvm_channel.c, uvm_push.c and
    uvm_pushbuffer.c together).

    [GpuChannel] has the operations and [Pushbuffer] the memory of the pushes.  Here the
    operations interleave with each other and with the GPU, and the memory of a push
    is shown to stay untouched until the GPU has executed it. *)

From stdpp Require Import gmap sorting.
From S2P Require Import Prelude FaultTypes Pushbuffer Semaphore GpuChannel.

Local Open Scope Z_scope.

(** ** Threads, channels and the GPU

    Any number of threads make pushes on the channels of a GPU.  A step is one section
    under the lock of a channel pool or of the pushbuffer, or the GPU completing the
    next push of a channel. *)

(** The driver; what the GPU has released on each channel; the entries of each channel
    that are reserved by threads that have not begun their push; the threads that
    hold a place of the pushbuffer semaphore and wait for a chunk; the on-going
    pushes; the pushes that were submitted: channel, tracking value and the bytes
    of the pushbuffer from the first to before the last; and the pushes that failed to
    begin although they had claimed a chunk, which stays theirs. *)
Record sys_t : Type := mk_sys {
  mgr : uvm_channel_manager_t;
  gpu_released : list Z;
  reserved : list Z;
  waiting : Z;
  ongoing : list (nat * uvm_push_t);
  submitted : list ((nat * Z) * (Z * Z));
  leaked : list nat;
}.

#[export] Instance sys_eta : Eta sys_t := fun s =>
  mk_sys (mgr s) (gpu_released s) (reserved s) (waiting s) (ongoing s) (submitted s) (leaked s).

Inductive sys_op : Type :=
| Reserve (c : nat) (num : Z)
| Release (c : nat) (num : Z)
| TakeSema
| Claim (p c : nat)
| FailClaim (p : nat)
| GiveUp
| SetCallback (p : nat) (f : Z)
| EndPush (p : nat) (words : Z)
| WriteControl (c : nat) (value : Z)
| GpuCompletes (c : nat)
| UpdateCompleted (c : nat)
| Progress (c : nat) (completed : Z)
| RaiseError (c : nat)
| SetFatal (c : nat).

Definition reserved_of (s : sys_t) (c : nat) : Z := default 0 (reserved s !! c).
Definition released_of (s : sys_t) (c : nat) : Z := default 0 (gpu_released s !! c).

Definition find_push (s : sys_t) (p : nat) : option uvm_push_t := snd <$> find (fun x => (x.1 =? p)%nat) (ongoing s).

(** [None]: the step is not possible.  [FailClaim] and [GiveUp] are the two ways in which
    a thread that waits for a chunk returns an error: the loop of [claim_chunk] tries
    once more before it looks at the error, and keeps the chunk if it gets one.  RM
    notifies errors with [RaiseError] and the checks for errors note them with
    [SetFatal].  The destruction of channels, which completes what is pending by
    force, is not a step. *)
Definition sys_step (op : sys_op) (s : sys_t) : option sys_t :=
  let m := mgr s in
  match op with
  | Reserve c num =>
      if (c <? length (channels m))%nat && (0 <? num) then
        let '(claimed, m) := try_claim_channel c num m in
        Some (if claimed then s <| mgr := m |> <| reserved ::= alter (Z.add num) c |> else s)
      else None
  | Release c num =>
      if (c <? length (channels m))%nat && (0 <=? num) && (num <=? reserved_of s c) then
        Some (s <| mgr ::= uvm_channel_release c num |> <| reserved ::= alter (fun n => n - num) c |>)
      else None
  | TakeSema =>
      if 0 <? concurrent_pushes_sema (pushbuffer m) then
        Some (s <| mgr ::= w_sema Z.pred |> <| waiting ::= Z.succ |>)
      else None
  | Claim p c =>
      if (c <? length (channels m))%nat && (0 <? waiting s) && (0 <? reserved_of s c) && negb (bool_decide (p ∈ (ongoing s).*1 ++ leaked s)) then
        let '(chunk, m) := w_try_claim p m in
        match chunk with
        | None => Some s
        | Some i =>
            let '(push, m) := begin_in_chunk c i m in
            Some (s <| mgr := m |> <| waiting ::= Z.pred |> <| reserved ::= alter Z.pred c |> <| ongoing ::= cons (p, push) |>)
        end
      else None
  | FailClaim p =>
      if (0 <? waiting s) && negb (is_ok (fatal_error m)) && negb (bool_decide (p ∈ (ongoing s).*1 ++ leaked s)) then
        let '(chunk, m) := w_try_claim p m in
        match chunk with
        | None => Some s
        | Some _ => Some (s <| mgr := w_sema Z.succ m |> <| waiting ::= Z.pred |> <| leaked ::= cons p |>)
        end
      else None
  | GiveUp =>
      if 0 <? waiting s then Some (s <| mgr ::= w_sema Z.succ |> <| waiting ::= Z.pred |>) else None
  | SetCallback p f =>
      push ← find_push s p;
      Some (s <| mgr ::= on_channel (push_channel push) (fun ch => ch <| push_infos ::= <[push_info_index push := Some f]> |>) |>)
  | EndPush p words =>
      if (0 <? words) && (words * 4 <=? UVM_MAX_PUSH_SIZE) then
        push ← find_push s p;
        let '(push, m) := uvm_channel_end_push (mk_push (push_channel push) (push_begin push) words (push_info_index push) 0) m in
        Some (s <| mgr := m |> <| ongoing ::= filter (fun x => x.1 <> p) |>
                <| submitted ::= cons ((push_channel push, channel_tracking_value push), (push_begin push, push_begin push + uvm_push_get_size push)) |>)
      else None
  | WriteControl c value =>
      if (c <? length (channels m))%nat && (1 <? reserved_of s c) then
        Some (s <| mgr ::= write_ctrl_gpfifo c value |> <| reserved ::= alter Z.pred c |>)
      else None
  | GpuCompletes c =>
      if (c <? length (channels m))%nat && (released_of s c <? queued_value (tracking_sem (channel_at m c))) then
        Some (s <| mgr ::= gpu_completes c (released_of s c + 1) |> <| gpu_released ::= alter Z.succ c |>)
      else None
  | UpdateCompleted c =>
      if (c <? length (channels m))%nat then Some (s <| mgr := (uvm_channel_update_completed_value c m).2 |>) else None
  | Progress c completed =>
      if (c <? length (channels m))%nat && (completed <=? completed_value (tracking_sem (channel_at m c))) then
        Some (match progress_step c completed UVM_CHANNEL_UPDATE_MODE_COMPLETED m with Some m => s <| mgr := m |> | None => s end)
      else None
  | RaiseError c =>
      if (c <? length (channels m))%nat then Some (s <| mgr ::= on_channel c (fun ch => ch <| error_notifier := true |>) |>) else None
  | SetFatal c =>
      if (c <? length (channels m))%nat && negb (is_ok (uvm_channel_get_status c m)) then
        Some (s <| mgr ::= uvm_global_set_fatal_error (uvm_channel_get_status c m) |>)
      else None
  end.

Fixpoint sys_run (ops : list sys_op) (s : sys_t) : option sys_t :=
  match ops with
  | [] => Some s
  | op :: ops => s ← sys_step op s; sys_run ops s
  end.

(** A manager with channels of the given sizes. *)
Definition manager_create (nums : list Z) : uvm_channel_manager_t :=
  mk_manager (channel_create <$> nums) uvm_pushbuffer_create [] false NV_OK.

Definition sys_init (nums : list Z) : sys_t :=
  mk_sys (manager_create nums) ((fun _ => 0) <$> nums) ((fun _ => 0) <$> nums) 0 [] [] [].

(** ** The invariant of the system *)

Definition infos_of (s : sys_t) (c : nat) : list nat := (fun x => push_info_index x.2) <$> filter (fun x => push_channel x.2 = c) (ongoing s).

(** The bytes of the pushbuffer of an entry. *)
Definition region (e : uvm_gpfifo_entry_t) : Z * Z := (pushbuffer_offset e, pushbuffer_offset e + pushbuffer_size e).

(** A pending entry has the tracking value and the bytes of the push. *)
Definition described (m : uvm_channel_manager_t) (x : (nat * Z) * (Z * Z)) : Prop :=
  exists i, i ∈ pending_pushes (channel_at m x.1.1) /\ tracking_semaphore_value (gpfifo_of m (x.1.1, i)) = x.1.2 /\ x.2 = region (gpfifo_of m (x.1.1, i)).

(** Each channel; every push on it has a tracking value of at most [n]. *)
Record chans_ok (n : Z) (s : sys_t) : Prop := {
  so_released_len : length (gpu_released s) = length (channels (mgr s));
  so_reserved_len : length (reserved s) = length (channels (mgr s));
  so_channel : forall c, (c < length (channels (mgr s)))%nat -> channel_ok (reserved_of s c) (infos_of s c) (released_of s c) (channel_at (mgr s) c);
  so_queued : forall c, (c < length (channels (mgr s)))%nat -> queued_value (tracking_sem (channel_at (mgr s) c)) <= n;
}.

(** The chunks hold the pending pushes of the channels and nothing else. *)
Record links_ok (m : uvm_channel_manager_t) : Prop := {
  so_pb : manager_pb_ok m;
  so_pending : forall k g, (k < UVM_PUSHBUFFER_CHUNKS)%nat -> g ∈ pending_gpfifos (chunk_at (pushbuffer m) k) ->
    (g.1 < length (channels m))%nat /\ g.2 ∈ pending_pushes (channel_at m g.1);
  so_tracked : forall c i, (c < length (channels m))%nat -> i ∈ pending_pushes (channel_at m c) ->
    exists k, (k < UVM_PUSHBUFFER_CHUNKS)%nat /\ (c, i) ∈ pending_gpfifos (chunk_at (pushbuffer m) k);
}.

(** The on-going pushes and the ones that failed are those of the chunks, and the semaphore
    counts the on-going ones. *)
Record pushes_ok (s : sys_t) : Prop := {
  so_nodup : NoDup (ongoing s).*1;
  so_ongoing : forall p push, (p, push) ∈ ongoing s -> (push_channel push < length (channels (mgr s)))%nat /\
    exists k, (k < UVM_PUSHBUFFER_CHUNKS)%nat /\ current_push (chunk_at (pushbuffer (mgr s)) k) = Some p /\
      push_begin push = chunk_get_offset k + next_push_start (chunk_at (pushbuffer (mgr s)) k);
  so_unique : forall k k' p, (k < UVM_PUSHBUFFER_CHUNKS)%nat -> (k' < UVM_PUSHBUFFER_CHUNKS)%nat ->
    current_push (chunk_at (pushbuffer (mgr s)) k) = Some p -> current_push (chunk_at (pushbuffer (mgr s)) k') = Some p -> k = k';
  so_claimed : forall k p, (k < UVM_PUSHBUFFER_CHUNKS)%nat -> current_push (chunk_at (pushbuffer (mgr s)) k) = Some p -> p ∈ (ongoing s).*1 ++ leaked s;
  so_leaked : forall p, p ∈ leaked s -> p ∉ (ongoing s).*1;
  so_sema_nonneg : 0 <= concurrent_pushes_sema (pushbuffer (mgr s));
  so_sema : concurrent_pushes_sema (pushbuffer (mgr s)) + waiting s + Z.of_nat (length (ongoing s)) = Z.of_nat UVM_PUSHBUFFER_CHUNKS;
}.

Definition submitted_ok (s : sys_t) : Prop :=
  forall x, x ∈ submitted s -> (x.1.1 < length (channels (mgr s)))%nat /\ 0 < x.1.2 <= queued_value (tracking_sem (channel_at (mgr s) x.1.1)) /\
    (released_of s x.1.1 < x.1.2 -> described (mgr s) x).

Record sys_ok (n : Z) (s : sys_t) : Prop := {
  so_chans : chans_ok n s;
  so_links : links_ok (mgr s);
  so_pushes : pushes_ok s;
  so_submitted : submitted_ok s;
}.

(** ** Steps that only touch one channel *)

(** The ring of entries is the same. *)
Definition same_ring (ch ch' : uvm_channel_t) : Prop :=
  gpfifo_entries ch' = gpfifo_entries ch /\ num_gpfifo_entries ch' = num_gpfifo_entries ch /\ cpu_put ch' = cpu_put ch /\ gpu_get ch' = gpu_get ch.

Lemma same_ring_pushes ch ch' : same_ring ch ch' -> pending_pushes ch' = pending_pushes ch /\ (forall i, entry_at ch' i = entry_at ch i).
Proof.
  intros (E1 & E2 & E3 & E4). assert (forall i, entry_at ch' i = entry_at ch i) as He by (intros i; unfold entry_at; by rewrite E1).
  split; [|done]. unfold pending_pushes, pending_entries, pending_count. rewrite E2, E3, E4. by apply pushes_ext.
Qed.

(** The pending pushes and their entries are the same. *)
Definition same_pushes (m m' : uvm_channel_manager_t) : Prop :=
  length (channels m') = length (channels m) /\
  forall c, pending_pushes (channel_at m' c) = pending_pushes (channel_at m c) /\
    forall i, i ∈ pending_pushes (channel_at m c) -> gpfifo_of m' (c, i) = gpfifo_of m (c, i).

Lemma same_pushes_links m m' : same_pushes m m' -> links_ok m -> pb_ok (gpfifo_of m) (pushbuffer m') ->
  (forall k, (k < UVM_PUSHBUFFER_CHUNKS)%nat -> pending_gpfifos (chunk_at (pushbuffer m') k) = pending_gpfifos (chunk_at (pushbuffer m) k)) -> links_ok m'.
Proof.
  intros [El Hc] [H1 H2 H3] Hpb Ep. split.
  - apply (pb_ok_ext (gpfifo_of m)); [|done]. intros k [c i] Hk Hg. rewrite Ep in Hg by done. apply Hc. by apply (H2 k (c, i)).
  - intros k g Hk. rewrite Ep, El, (proj1 (Hc g.1)) by done. by apply H2.
  - intros c i. rewrite El, (proj1 (Hc c)). intros Hl Hi. destruct (H3 c i Hl Hi) as (k & Hk & Hg). exists k. by rewrite Ep.
Qed.

Lemma same_pushes_described m m' x : same_pushes m m' -> described m x -> described m' x.
Proof. intros [El Hc] (i & Hi & Hv & Hx). exists i. rewrite (proj1 (Hc x.1.1)), (proj2 (Hc x.1.1)) by done. done. Qed.

(** What the on-going pushes depend on. *)
Lemma pushes_frame s s' : ongoing s' = ongoing s -> leaked s' = leaked s -> length (channels (mgr s')) = length (channels (mgr s)) ->
  0 <= concurrent_pushes_sema (pushbuffer (mgr s')) -> concurrent_pushes_sema (pushbuffer (mgr s')) + waiting s' = concurrent_pushes_sema (pushbuffer (mgr s)) + waiting s ->
  (forall k, (k < UVM_PUSHBUFFER_CHUNKS)%nat -> current_push (chunk_at (pushbuffer (mgr s')) k) = current_push (chunk_at (pushbuffer (mgr s)) k) /\
    (current_push (chunk_at (pushbuffer (mgr s)) k) <> None -> next_push_start (chunk_at (pushbuffer (mgr s')) k) = next_push_start (chunk_at (pushbuffer (mgr s)) k))) ->
  pushes_ok s -> pushes_ok s'.
Proof.
  intros Eo Elk El H0 Es Ek [H1 H2 H3 H4 H6 _ H5]. split; rewrite ?Eo, ?Elk, ?El.
  - done.
  - intros p push Hp. destruct (H2 p push Hp) as (Hc & k & Hk & Hcur & Hb). split; [done|]. exists k. destruct (Ek k Hk) as [E1 E2].
    rewrite E1, E2 by congruence. done.
  - intros k k' p Hk Hk'. rewrite (proj1 (Ek k Hk)), (proj1 (Ek k' Hk')). by apply H3.
  - intros k p Hk. rewrite (proj1 (Ek k Hk)). by apply H4.
  - done.
  - done.
  - lia.
Qed.

Lemma channel_ok_perm tokens infos infos' released ch : infos ≡ₚ infos' -> channel_ok tokens infos released ch -> channel_ok tokens infos' released ch.
Proof. intros Hi []. split; try done; [by rewrite <- Hi|by rewrite <- Hi]. Qed.

(** Only one channel changes. *)
Lemma chans_step n n' s s' c : chans_ok n s -> n <= n' -> length (channels (mgr s')) = length (channels (mgr s)) ->
  length (gpu_released s') = length (gpu_released s) -> length (reserved s') = length (reserved s) ->
  (forall c', c' <> c -> reserved_of s' c' = reserved_of s c' /\ released_of s' c' = released_of s c' /\
     channel_at (mgr s') c' = channel_at (mgr s) c' /\ infos_of s c' ≡ₚ infos_of s' c') ->
  channel_ok (reserved_of s' c) (infos_of s' c) (released_of s' c) (channel_at (mgr s') c) -> queued_value (tracking_sem (channel_at (mgr s') c)) <= n' ->
  chans_ok n' s'.
Proof.
  intros [C1 C2 C3 C4] Hn El L1 L2 Hne Hc Hq. split; rewrite ?El; [congruence..| |]; intros c' Hc'; (destruct (decide (c' = c)) as [->|E]; [done|]).
  - destruct (Hne c' E) as (-> & -> & -> & Hi). apply (channel_ok_perm _ (infos_of s c')); [done|by apply C3].
  - destruct (Hne c' E) as (_ & _ & -> & _). specialize (C4 c' Hc'). lia.
Qed.

(** Submitted pushes stay described until they are released. *)
Lemma submitted_step s s' : submitted_ok s -> length (channels (mgr s')) = length (channels (mgr s)) ->
  (forall c, queued_value (tracking_sem (channel_at (mgr s) c)) <= queued_value (tracking_sem (channel_at (mgr s') c))) ->
  (forall c, released_of s c <= released_of s' c) ->
  (forall x, (x.1.1 < length (channels (mgr s)))%nat -> released_of s x.1.1 < x.1.2 -> described (mgr s) x -> described (mgr s') x) ->
  (forall x, x ∈ submitted s' -> x ∈ submitted s \/ ((x.1.1 < length (channels (mgr s')))%nat /\ 0 < x.1.2 <= queued_value (tracking_sem (channel_at (mgr s') x.1.1)) /\
    described (mgr s') x)) ->
  submitted_ok s'.
Proof.
  intros Hs El Hq Hr Hd Hnew x Hx. destruct (Hnew x Hx) as [(H1 & H2 & H3)%Hs|(H1 & H2 & H3)]; [|done]. specialize (Hq x.1.1). specialize (Hr x.1.1). rewrite El.
  split_and!; [done|lia|lia|]. intros Hlt. apply Hd; [done|lia|]. apply H3. lia.
Qed.

(** A step that changes one channel and neither its ring nor its queued value. *)
Lemma channel_step n s s' c f : sys_ok n s -> (c < length (channels (mgr s)))%nat ->
  mgr s' = on_channel c f (mgr s) -> ongoing s' = ongoing s -> leaked s' = leaked s -> waiting s' = waiting s -> submitted s' = submitted s ->
  length (gpu_released s') = length (gpu_released s) -> length (reserved s') = length (reserved s) ->
  (forall c', c' <> c -> reserved_of s' c' = reserved_of s c' /\ released_of s' c' = released_of s c') ->
  same_ring (channel_at (mgr s) c) (f (channel_at (mgr s) c)) -> queued_value (tracking_sem (f (channel_at (mgr s) c))) = queued_value (tracking_sem (channel_at (mgr s) c)) ->
  released_of s c <= released_of s' c ->
  channel_ok (reserved_of s' c) (infos_of s c) (released_of s' c) (f (channel_at (mgr s) c)) -> sys_ok n s'.
Proof.
  intros [C Hl Hp Hs] Hc Em Eo Elk Ew Esub L1 L2 Hne Hring Hq Hrel Hch.
  assert (same_pushes (mgr s) (mgr s')) as Hr.
  { rewrite Em. split; [apply on_channel_length|]. intros c'. destruct (decide (c' = c)) as [->|E]; [|unfold gpfifo_of; cbn [fst]; by rewrite channel_at_ne].
    unfold gpfifo_of. cbn [fst snd]. rewrite channel_at_on_channel by done. destruct (same_ring_pushes _ _ Hring) as [E1 E2]. by split; [|intros i _; apply E2]. }
  pose proof Hr as [El _]. assert (forall c', infos_of s' c' = infos_of s c') as Ei by (intros c'; unfold infos_of; by rewrite Eo).
  assert (pushbuffer (mgr s') = pushbuffer (mgr s)) as Epb by (by rewrite Em).
  assert (forall c', queued_value (tracking_sem (channel_at (mgr s') c')) = queued_value (tracking_sem (channel_at (mgr s) c'))) as Eq.
  { intros c'. rewrite Em. destruct (decide (c' = c)) as [->|E]; [by rewrite channel_at_on_channel|by rewrite channel_at_ne]. }
  split.
  - apply (chans_step n n s s' c); try done; [|by rewrite Ei, Em, channel_at_on_channel|rewrite Eq; by apply C].
    intros c' Hcc. destruct (Hne c' Hcc) as [-> ->]. by rewrite Ei, Em, channel_at_ne.
  - by apply (same_pushes_links (mgr s)); rewrite ?Epb; [|done|apply Hl|].
  - apply (pushes_frame s); rewrite ?Epb; [done|done|done|apply Hp|lia|done|done].
  - apply (submitted_step s); [done|done|by intros c'; rewrite Eq| | |rewrite Esub; by left].
    + intros c'. destruct (decide (c' = c)) as [->|E]; [done|]. by rewrite (proj2 (Hne _ E)).
    + intros x _ _. by apply same_pushes_described.
Qed.

(** ** The other steps *)

Lemma reserved_alter s s' f c c' : (c < length (reserved s))%nat -> reserved s' = alter f c (reserved s) ->
  length (reserved s') = length (reserved s) /\ reserved_of s' c' = if decide (c' = c) then f (reserved_of s c') else reserved_of s c'.
Proof.
  intros Hc E. unfold reserved_of. rewrite E, length_alter. split; [done|]. case_decide as Ec; [subst c'|by rewrite list_lookup_alter_ne].
  rewrite list_lookup_alter_eq. destruct (lookup_lt_is_Some_2 _ _ Hc) as [x ->]. done.
Qed.

Lemma released_alter s s' f c c' : (c < length (gpu_released s))%nat -> gpu_released s' = alter f c (gpu_released s) ->
  length (gpu_released s') = length (gpu_released s) /\ released_of s' c' = if decide (c' = c) then f (released_of s c') else released_of s c'.
Proof.
  intros Hc E. unfold released_of. rewrite E, length_alter. split; [done|]. case_decide as Ec; [subst c'|by rewrite list_lookup_alter_ne].
  rewrite list_lookup_alter_eq. destruct (lookup_lt_is_Some_2 _ _ Hc) as [x ->]. done.
Qed.

(** An entry is written on a channel. *)
Lemma submit_same_pushes m c e tokens infos released : channel_ok tokens infos released (channel_at m c) -> 0 < current_gpfifo_count (channel_at m c) ->
  gp_type e = UVM_GPFIFO_ENTRY_TYPE_CONTROL -> (c < length (channels m))%nat -> same_pushes m (on_channel c (submit_entry e) m).
Proof.
  intros Hch Hcur He Hc. split; [apply on_channel_length|]. intros c'. unfold gpfifo_of. cbn [fst snd]. destruct (decide (c' = c)) as [->|E]; [|by rewrite channel_at_ne].
  rewrite channel_at_on_channel by done. destruct (submit_pushes _ _ _ _ Hch e Hcur) as [H1 H2]. rewrite He in H1. simpl in H1. by rewrite app_nil_r in H1.
Qed.

Lemma control_step n s c value : sys_ok n s -> (c < length (channels (mgr s)))%nat -> 0 < reserved_of s c ->
  sys_ok n (s <| mgr ::= write_ctrl_gpfifo c value |> <| reserved ::= alter Z.pred c |>).
Proof.
  intros [C Hl Hp Hs] Hc Hres. set (s' := s <| mgr ::= _ |> <| reserved ::= _ |>). pose proof C as [C1 C2 C3 C4].
  set (e := mk_gpfifo UVM_GPFIFO_ENTRY_TYPE_CONTROL (u64 (queued_value (tracking_sem (channel_at (mgr s) c)) + 1)) 0 0 value 0).
  assert (mgr s' = on_channel c (submit_entry e) (mgr s)) as Em by done. pose proof (C3 c Hc) as Hch.
  assert (0 < current_gpfifo_count (channel_at (mgr s) c)) as Hcur by (rewrite (ch_current _ _ _ _ Hch); lia).
  pose proof (submit_same_pushes (mgr s) c e _ _ _ Hch Hcur eq_refl Hc) as Hsame. rewrite <- Em in Hsame. pose proof Hsame as [El _].
  assert (forall c', reserved_of s' c' = if decide (c' = c) then Z.pred (reserved_of s c') else reserved_of s c') as Er
    by (intros c'; by apply reserved_alter; [rewrite C2|]).
  assert (forall c', tracking_sem (channel_at (mgr s') c') = tracking_sem (channel_at (mgr s) c')) as Et
    by (intros c'; rewrite Em; by apply (on_channel_field tracking_sem)).
  split.
  - apply (chans_step n n s s' c); try done; [apply length_alter|..].
    + intros c' E. rewrite Er, decide_False by done. by rewrite Em, channel_at_ne.
    + rewrite Er, decide_True by done. rewrite Em, channel_at_on_channel by done. apply (channel_ctrl _ _ _ _ Hch e); [lia|done].
    + rewrite Et. by apply C4.
  - apply (same_pushes_links (mgr s)); [done|done|apply Hl|done].
  - apply (pushes_frame s); [done|done|done|apply Hp|done..].
  - apply (submitted_step s); [done|done|intros c'; by rewrite Et|done| |by left]. intros x _ _. by apply same_pushes_described.
Qed.

Lemma try_claim_sema p pb : concurrent_pushes_sema (try_claim_chunk p pb).2 = concurrent_pushes_sema pb.
Proof. unfold try_claim_chunk. by destruct (pick_chunk pb). Qed.

Section ClaimStep.
Context (n : Z) (s : sys_t) (p c i : nat) (Hs : sys_ok n s) (Hc : (c < length (channels (mgr s)))%nat) (Hp : p ∉ (ongoing s).*1 ++ leaked s).
Context (Hi : (try_claim_chunk p (pushbuffer (mgr s))).1 = Some i).

Let pb' := (try_claim_chunk p (pushbuffer (mgr s))).2.

Lemma claim_chunks : (i < UVM_PUSHBUFFER_CHUNKS)%nat /\ current_push (chunk_at (pushbuffer (mgr s)) i) = None /\
  forall k, pending_gpfifos (chunk_at pb' k) = pending_gpfifos (chunk_at (pushbuffer (mgr s)) k) /\
    next_push_start (chunk_at pb' k) = next_push_start (chunk_at (pushbuffer (mgr s)) k) /\
    current_push (chunk_at pb' k) = if decide (k = i) then Some p else current_push (chunk_at (pushbuffer (mgr s)) k).
Proof.
  destruct (try_claim_Some (gpfifo_of (mgr s)) p (pushbuffer (mgr s)) i) as (Hk & Hcur & E & Ene); [apply Hs|done|]. fold pb' in E, Ene.
  split; [done|]. split; [done|]. intros k. case_decide as Ek; [subst k; by rewrite E|by rewrite (Ene k ltac:(done))].
Qed.

Lemma claim_unique k k' q : (k < UVM_PUSHBUFFER_CHUNKS)%nat -> (k' < UVM_PUSHBUFFER_CHUNKS)%nat ->
  current_push (chunk_at pb' k) = Some q -> current_push (chunk_at pb' k') = Some q -> k = k'.
Proof.
  clear Hc c. destruct claim_chunks as (Hk & Hcur & Hch). destruct (so_pushes _ _ Hs) as [_ _ H3 H4 _ _ _]. intros Hk1 Hk2.
  rewrite (proj2 (proj2 (Hch k))), (proj2 (proj2 (Hch k'))). repeat case_decide; subst; try done.
  - intros [= <-] Hq. exfalso. by apply Hp, (H4 k').
  - intros Hq [= <-]. exfalso. by apply Hp, (H4 k).
  - by apply H3.
Qed.

Lemma claim_pushes s' push : pushbuffer (mgr s') = pb' -> length (channels (mgr s')) = length (channels (mgr s)) ->
  waiting s' = waiting s - 1 -> ongoing s' = (p, push) :: ongoing s -> leaked s' = leaked s -> push_channel push = c ->
  push_begin push = chunk_get_offset i + next_push_start (chunk_at pb' i) -> pushes_ok s'.
Proof.
  intros Ep El Ew Eo Elk Epc Epb. destruct claim_chunks as (Hk & Hcur & Hch). destruct (so_pushes _ _ Hs) as [H1 H2 H3 H4 H6 H0 H5].
  apply not_elem_of_app in Hp as Hpn. destruct Hpn as [Hp1 Hp2]. split; rewrite ?Eo, ?Elk, ?El, ?Ep.
  - cbn [fmap list_fmap]. by apply NoDup_cons.
  - intros q push' [[= -> ->]|Hq]%elem_of_cons.
    + split; [congruence|]. exists i. split; [done|]. rewrite (proj2 (proj2 (Hch i))), decide_True; done.
    + destruct (H2 q push' Hq) as (Hl & k & Hk' & Hcur' & Hb). split; [done|]. exists k. destruct (Hch k) as (_ & -> & ->).
      rewrite decide_False by congruence. done.
  - intros k k' q. by apply claim_unique.
  - intros k q Hk1. rewrite (proj2 (proj2 (Hch k))). case_decide; [intros [= <-]; by left|]. intros Hq. right. by apply (H4 k).
  - intros q Hq [->|Hin]%elem_of_cons; [done|]. by apply (H6 q).
  - unfold pb'. by rewrite try_claim_sema.
  - unfold pb'. rewrite try_claim_sema. cbn [length]. lia.
Qed.

(** A claim that returns with an error. *)
Lemma fail_step : 0 < waiting s -> sys_ok n (s <| mgr := w_sema Z.succ ((mgr s) <| pushbuffer := pb' |>) |> <| waiting ::= Z.pred |> <| leaked ::= cons p |>).
Proof.
  clear Hc c. intros Hw. set (s' := s <| mgr := _ |> <| waiting ::= _ |> <| leaked ::= _ |>). destruct claim_chunks as (Hk & Hcur & Hch).
  assert (same_pushes (mgr s) (mgr s')) as Hsame by done. apply not_elem_of_app in Hp as Hpn. destruct Hpn as [Hp1 Hp2].
  destruct (so_pushes _ _ Hs) as [H1 H2 H3 H4 H6 H0 H5]. split.
  - destruct (so_chans _ _ Hs). by split.
  - apply (same_pushes_links (mgr s)); [done|apply Hs|apply pb_ok_sema, try_claim_ok, Hs|]. intros k _. apply (Hch k).
  - split; try done; change (pushbuffer (mgr s')) with (pb' <| concurrent_pushes_sema ::= Z.succ |>); change (ongoing s') with (ongoing s).
    + intros q push' Hq. destruct (H2 q push' Hq) as (Hl & k & Hk' & Hcur' & Hb). split; [done|]. exists k.
      change (chunk_at (pb' <| concurrent_pushes_sema ::= Z.succ |>) k) with (chunk_at pb' k). destruct (Hch k) as (_ & -> & ->).
      rewrite decide_False by congruence. done.
    + exact claim_unique.
    + intros k q Hk1. change (chunk_at (pb' <| concurrent_pushes_sema ::= Z.succ |>) k) with (chunk_at pb' k). rewrite (proj2 (proj2 (Hch k))).
      change (leaked s') with (p :: leaked s). case_decide; [intros [= <-]; apply elem_of_app; right; left|].
      intros Hq%(H4 k); [|done]. apply elem_of_app in Hq as [Hq|Hq]; apply elem_of_app; [by left|right; by right].
    + change (leaked s') with (p :: leaked s). intros q [->|Hq]%elem_of_cons; [done|by apply H6].
    + change (0 <= Z.succ (concurrent_pushes_sema pb')). unfold pb'. rewrite try_claim_sema. lia.
    + change (Z.succ (concurrent_pushes_sema pb') + Z.pred (waiting s) + Z.of_nat (length (ongoing s)) = Z.of_nat UVM_PUSHBUFFER_CHUNKS).
      unfold pb'. rewrite try_claim_sema. lia.
  - apply (submitted_step s); [apply Hs|done|done|done| |by left]. intros x _ _. by apply same_pushes_described.
Qed.

Lemma claim_step : 0 < reserved_of s c -> let r := begin_in_chunk c i ((mgr s) <| pushbuffer := pb' |>) in
  sys_ok n (s <| mgr := r.2 |> <| waiting ::= Z.pred |> <| reserved ::= alter Z.pred c |> <| ongoing ::= cons (p, r.1) |>).
Proof.
  intros Hres. pose proof (so_chans _ _ Hs) as C. pose proof C as [C1 C2 C3 C4]. pose proof (C3 c Hc) as Hch.
  destruct (push_info_available _ _ _ _ Hch Hres) as (j & l & Ej). set (m1 := (mgr s) <| pushbuffer := pb' |>).
  assert (begin_in_chunk c i m1 = (mk_push c (chunk_get_next_push_start_addr 0 pb' i) 0 j 0, on_channel c (fun ch => ch <| available_push_infos := l |>) m1)) as Eb.
  { unfold begin_in_chunk, channel_get_available_push_info_index. change (channel_at m1 c) with (channel_at (mgr s) c). by rewrite Ej. }
  cbv zeta. rewrite Eb. cbn [fst snd]. set (push := mk_push c _ 0 j 0). set (s' := s <| mgr := _ |> <| waiting ::= _ |> <| reserved ::= _ |> <| ongoing ::= _ |>).
  assert (mgr s' = on_channel c (fun ch => ch <| available_push_infos := l |>) m1) as Em by done.
  assert (length (channels (mgr s')) = length (channels (mgr s))) as El by (rewrite Em; apply (on_channel_length c _ m1)).
  assert (same_pushes (mgr s) (mgr s')) as Hsame.
  { split; [done|]. intros c'. destruct (same_ring_pushes (channel_at (mgr s) c') (channel_at (mgr s') c')) as [E1 E2]; [|by split; [|intros k _; apply E2]].
    rewrite Em. repeat split; by apply (on_channel_field _ c (fun ch => ch <| available_push_infos := l |>) m1). }
  assert (forall c', reserved_of s' c' = if decide (c' = c) then Z.pred (reserved_of s c') else reserved_of s c') as Er
    by (intros c'; by apply reserved_alter; [rewrite C2|]).
  assert (forall c', tracking_sem (channel_at (mgr s') c') = tracking_sem (channel_at (mgr s) c')) as Et
    by (intros c'; rewrite Em; by apply (on_channel_field tracking_sem c _ m1)).
  assert (forall c', infos_of s' c' = if decide (c = c') then j :: infos_of s c' else infos_of s c') as Ei
    by (intros c'; unfold infos_of; change (ongoing s') with ((p, push) :: ongoing s); rewrite filter_cons; change (push_channel (p, push).2) with c; by destruct (decide (c = c'))).
  split.
  - apply (chans_step n n s s' c); try done; [apply length_alter|..].
    + intros c' E. rewrite Er, Ei, !decide_False by done. by rewrite Em, (channel_at_ne c c' _ m1).
    + rewrite Er, Ei, !decide_True by done. rewrite Em, (channel_at_on_channel c _ m1) by done. by apply (channel_take_info _ _ _ _ Hch j l).
    + rewrite Et. by apply C4.
  - apply (same_pushes_links (mgr s)); [done|apply Hs|apply try_claim_ok, Hs|]. intros k _. apply claim_chunks.
  - apply (claim_pushes s' push); done.
  - apply (submitted_step s); [apply Hs|done|intros c'; by rewrite Et|done| |by left]. intros x _ _. by apply same_pushes_described.
Qed.

End ClaimStep.

(** An on-going push is found by its number and is the only one with it. *)
Lemma find_push_elem s p push : find_push s p = Some push -> (p, push) ∈ ongoing s.
Proof.
  unfold find_push. destruct (find _ (ongoing s)) as [[q x]|] eqn:E; [|done]. intros [= <-]. apply find_some in E as [Hin Hq]. apply Nat.eqb_eq in Hq.
  cbn [fst] in Hq. subst q. by apply list_elem_of_In.
Qed.

Lemma remove_key {A} (l : list (nat * A)) p x : NoDup l.*1 -> (p, x) ∈ l -> l ≡ₚ (p, x) :: filter (fun y => y.1 <> p) l.
Proof.
  induction l as [|[q y] l IH]; intros Hn Hin; [by apply elem_of_nil in Hin|]. apply NoDup_cons in Hn as [Hq Hn]. rewrite filter_cons. cbn [fst].
  apply elem_of_cons in Hin as [[= <- <-]|Hin].
  - rewrite decide_False by (intros H; by apply H). f_equiv. rewrite filter_full; [done|]. intros [r z] Hk E. apply Hq. apply list_elem_of_fmap. by exists (r, z).
  - rewrite decide_True; [rewrite (IH Hn Hin) at 1; apply perm_swap|]. intros ->. apply Hq. apply list_elem_of_fmap. by exists (p, x).
Qed.

Lemma submit_push_effect tokens infos released ch e t : channel_ok tokens infos released ch -> 0 < current_gpfifo_count ch -> gp_type e = UVM_GPFIFO_ENTRY_TYPE_NORMAL ->
  let ch' := submit_entry e (ch <| tracking_sem := t |>) in
  pending_pushes ch' = pending_pushes ch ++ [Z.to_nat (cpu_put ch)] /\ entry_at ch' (Z.to_nat (cpu_put ch)) = e /\
  (forall i, i ∈ pending_pushes ch -> entry_at ch' i = entry_at ch i) /\ (Z.to_nat (cpu_put ch) ∉ pending_pushes ch).
Proof.
  intros Hch Hcur He. cbv zeta. destruct (submit_pushes _ _ _ _ Hch e Hcur) as [H1 H2]. destruct (submit_ring _ _ _ _ Hch e Hcur) as (_ & _ & H3 & _).
  rewrite He in H1. simpl in H1. change (pending_pushes (submit_entry e (ch <| tracking_sem := t |>))) with (pending_pushes (submit_entry e ch)).
  split_and!; [done|done|done|]. intros [_ Hp]%list_elem_of_filter. by apply (put_not_pending _ _ _ _ Hch).
Qed.

(** A pending push is only in the chunk of its bytes. *)
Lemma pending_chunk ent pb k g : pb_ok ent pb -> (k < UVM_PUSHBUFFER_CHUNKS)%nat -> g ∈ pending_gpfifos (chunk_at pb k) -> gpfifo_to_chunk ent g = k.
Proof.
  intros Hpb Hk Hg. apply span_chunk; [done|]. destruct (chunk_ring _ _ _ (pb_chunks _ _ Hpb k Hk)) as [Hf _]. rewrite Forall_forall in Hf. apply Hf.
  apply list_elem_of_fmap. by exists g.
Qed.

Section EndStep.
Context (n : Z) (s : sys_t) (p : nat) (push0 : uvm_push_t) (words : Z).
Context (Hs : sys_ok n s) (Hn : n + 1 < 2 ^ 64) (Hp : (p, push0) ∈ ongoing s) (Hw : 0 < words) (Hmax : words * 4 <= UVM_MAX_PUSH_SIZE).

Let c := push_channel push0.
Let ch := channel_at (mgr s) c.
Let put := Z.to_nat (cpu_put ch).
Let q := queued_value (tracking_sem ch).
Let e := mk_gpfifo UVM_GPFIFO_ENTRY_TYPE_NORMAL (q + 1) (push_begin push0) (words * 4) (control_value (entry_at ch put)) (push_info_index push0).
Let m1 := on_channel c (fun ch => submit_entry e (ch <| tracking_sem ::= (fun t => t <| queued_value := q + 1 |>) |>)) (mgr s).
Let m2 := m1 <| pushbuffer ::= uvm_pushbuffer_end_push (gpfifo_of m1) false (c, put) |>.

Lemma end_channel_bound : (c < length (channels (mgr s)))%nat.
Proof. apply (so_ongoing _ (so_pushes _ _ Hs) p push0 Hp). Qed.

Lemma end_queued : 0 <= q <= n.
Proof.
  split; [apply (ch_queued _ _ _ _ (so_channel _ _ (so_chans _ _ Hs) c end_channel_bound))|by apply (so_queued _ _ (so_chans _ _ Hs)), end_channel_bound].
Qed.

(** The chunk of the push, and the bytes it has there. *)
Lemma end_chunk : exists k, (k < UVM_PUSHBUFFER_CHUNKS)%nat /\ current_push (chunk_at (pushbuffer (mgr s)) k) = Some p /\
  push_begin push0 = chunk_get_offset k + next_push_start (chunk_at (pushbuffer (mgr s)) k) /\
  0 <= push_begin push0 /\ push_begin push0 + UVM_MAX_PUSH_SIZE <= UVM_PUSHBUFFER_SIZE.
Proof.
  destruct (so_ongoing _ (so_pushes _ _ Hs) p push0 Hp) as (_ & k & Hk & Hcur & Hb). exists k. split_and!; [done..| |];
    rewrite Hb; destruct (uses_bounds (gpfifo_of (mgr s)) (pushbuffer (mgr s)) ltac:(apply Hs) (OnGoingPush k) _ ltac:(split; [done|split; [done|congruence]])) as (H1 & H2 & _);
    cbn [fst snd] in *; lia.
Qed.

Lemma end_push_result : uvm_channel_end_push (mk_push c (push_begin push0) words (push_info_index push0) 0) (mgr s) =
  (mk_push c (push_begin push0) words (Z.to_nat (num_gpfifo_entries ch)) (q + 1), m2).
Proof.
  pose proof end_queued. destruct end_chunk as (_ & _ & _ & _ & H0 & Hbig). unfold uvm_channel_end_push, uvm_pushbuffer_get_offset_for_push, uvm_push_get_size.
  cbn [push_channel push_begin push_words push_info_index]. fold ch put q. unfold UVM_PUSHBUFFER_SIZE, UVM_PUSHBUFFER_CHUNK_SIZE, UVM_MAX_PUSH_SIZE, UVM_PUSHBUFFER_CHUNKS in *.
  rewrite (wrap_id 64 (q + 1)), Z.sub_0_r, (u32_small (push_begin push0)), (u32_small (words * 4)) by (unfold in_width; lia). done.
Qed.

Lemma end_info : exists infos', infos_of s c ≡ₚ push_info_index push0 :: infos' /\ infos' = (fun x => push_info_index x.2) <$> filter (fun x => push_channel x.2 = c) (filter (fun y => y.1 <> p) (ongoing s)).
Proof.
  eexists. split; [|reflexivity]. unfold infos_of. rewrite (remove_key (ongoing s) p push0 (so_nodup _ (so_pushes _ _ Hs)) Hp) at 1. by rewrite filter_cons_True.
Qed.

Lemma end_current : 0 < current_gpfifo_count ch.
Proof.
  pose proof (so_channel _ _ (so_chans _ _ Hs) c end_channel_bound) as Hch. destruct end_info as (l & El & _). unfold ch.
  rewrite (ch_current _ _ _ _ Hch), (Permutation_length El). cbn [length]. pose proof (ch_tokens _ _ _ _ Hch). lia.
Qed.

(** The pending pushes and their entries afterwards. *)
Lemma end_pending : (forall c', c' <> c -> channel_at m1 c' = channel_at (mgr s) c') /\ pending_pushes (channel_at m1 c) = pending_pushes ch ++ [put] /\
  gpfifo_of m1 (c, put) = e /\ (put ∉ pending_pushes ch) /\
  (forall c' i, i ∈ pending_pushes (channel_at (mgr s) c') -> i ∈ pending_pushes (channel_at m1 c') /\ gpfifo_of m1 (c', i) = gpfifo_of (mgr s) (c', i)).
Proof.
  pose proof (so_channel _ _ (so_chans _ _ Hs) c end_channel_bound) as Hch.
  destruct (submit_push_effect _ _ _ _ e ((tracking_sem ch) <| queued_value := q + 1 |>) Hch end_current eq_refl) as (H1 & H2 & H3 & H4). fold ch put in H1, H2, H3, H4.
  assert (channel_at m1 c = submit_entry e (ch <| tracking_sem := (tracking_sem ch) <| queued_value := q + 1 |> |>)) as E1
    by (unfold m1; rewrite channel_at_on_channel by (apply end_channel_bound); done).
  assert (forall c', c' <> c -> channel_at m1 c' = channel_at (mgr s) c') as E2 by (intros c' Hc'; unfold m1; by rewrite channel_at_ne).
  split; [done|]. unfold gpfifo_of. cbn [fst snd]. rewrite E1. split_and!; [done|done|done|]. intros c' i Hi. destruct (decide (c' = c)) as [->|Hc'].
  - rewrite E1. split; [rewrite H1; apply elem_of_app; by left|by apply H3].
  - by rewrite E2.
Qed.

(** The pushbuffer afterwards. *)
Lemma end_pushbuffer : exists k, (k < UVM_PUSHBUFFER_CHUNKS)%nat /\ current_push (chunk_at (pushbuffer (mgr s)) k) = Some p /\ manager_pb_ok m2 /\
  concurrent_pushes_sema (pushbuffer m2) = concurrent_pushes_sema (pushbuffer (mgr s)) + 1 /\
  forall j, pending_gpfifos (chunk_at (pushbuffer m2) j) = pending_gpfifos (chunk_at (pushbuffer (mgr s)) j) ++ (if decide (j = k) then [(c, put)] else []) /\
    current_push (chunk_at (pushbuffer m2) j) = (if decide (j = k) then None else current_push (chunk_at (pushbuffer (mgr s)) j)) /\
    (j <> k -> next_push_start (chunk_at (pushbuffer m2) j) = next_push_start (chunk_at (pushbuffer (mgr s)) j)).
Proof.
  destruct end_chunk as (k & Hk & Hcur & Hb & _). exists k. destruct end_pending as (_ & _ & Ee & Hput & Hold). destruct (so_links _ _ Hs) as [Hpb Hpend _].
  assert (pb_ok (gpfifo_of m1) (pushbuffer (mgr s))) as Hpb1
    by (apply (pb_ok_ext (gpfifo_of (mgr s))); [intros j [c' i] Hj Hg; apply Hold; by apply (Hpend j (c', i))|done]).
  assert (gpfifo_to_chunk (gpfifo_of m1) (c, put) = k) as Eg.
  { apply span_chunk; [done|]. unfold span_of. rewrite Ee. cbn [pushbuffer_offset pushbuffer_size e].
    destruct (chunk_claimed _ _ _ (pb_chunks _ _ Hpb1 k Hk) ltac:(congruence)) as (_ & _ & Hr).
    apply (ring_shrink _ _ (words * 4)) in Hr; [|lia|by exists words]. destruct Hr as [Hf _]. apply Forall_app in Hf as [_ Hf]. rewrite Forall_singleton in Hf.
    match goal with |- span_ok ?a => match type of Hf with span_ok ?b => assert (a = b) as ->; [|done] end end. f_equal; lia. }
  assert (forall j, _) as Heff by exact (fun j => end_push_effect (gpfifo_of m1) (c, put) (pushbuffer (mgr s)) j (pb_length _ _ Hpb1) ltac:(by rewrite Eg)).
  cbv zeta in Heff. rewrite Eg in Heff. split; [done|]. split; [done|]. split; [|split; [apply (Heff 0%nat)|intros j; split_and!; apply (Heff j)]].
  apply (end_push_ok (gpfifo_of m1) (c, put) k (pushbuffer (mgr s))); [done|done|congruence|by rewrite Ee|..]; rewrite ?Ee; cbn [pushbuffer_size e]; [lia|by exists words|].
  intros Hin. by apply Hput, (Hpend k (c, put)).
Qed.

Lemma end_links : links_ok m2.
Proof.
  destruct end_pushbuffer as (k & Hk & _ & Hok & _ & Hj). destruct end_pending as (Hne & Hpp & _ & _ & Hold). destruct (so_links _ _ Hs) as [_ Hpend Htr].
  assert (length (channels m2) = length (channels (mgr s))) as El by (apply (on_channel_length c _ (mgr s))).
  split; [done|..]; rewrite El; change (channel_at m2) with (channel_at m1).
  - intros j g Hjk. rewrite (proj1 (Hj j)). intros [Hg|Hg]%elem_of_app.
    + destruct (Hpend j g Hjk Hg) as [H1 H2]. split; [done|]. by apply (Hold g.1 g.2).
    + case_decide; [|by apply elem_of_nil in Hg]. apply list_elem_of_singleton in Hg as ->. cbn [fst snd]. split; [apply end_channel_bound|].
      rewrite Hpp. apply elem_of_app. right. by apply list_elem_of_singleton.
  - intros c' i Hc' Hi. assert (i ∈ pending_pushes (channel_at (mgr s) c') \/ (c', i) = (c, put)) as [Hin|[= -> ->]].
    { destruct (decide (c' = c)) as [->|E]; [|left; by rewrite <- Hne]. rewrite Hpp in Hi. apply elem_of_app in Hi as [Hi|Hi]; [by left|].
      apply list_elem_of_singleton in Hi as ->. by right. }
    + destruct (Htr c' i Hc' Hin) as (j & Hjk & Hg). exists j. split; [done|]. rewrite (proj1 (Hj j)). apply elem_of_app. by left.
    + exists k. split; [done|]. rewrite (proj1 (Hj k)), decide_True by done. apply elem_of_app. right. by apply list_elem_of_singleton.
Qed.

Lemma end_pushes s' : mgr s' = m2 -> waiting s' = waiting s -> leaked s' = leaked s -> ongoing s' = filter (fun y => y.1 <> p) (ongoing s) -> pushes_ok s'.
Proof.
  intros Em Ew Elk Eo. destruct end_pushbuffer as (k & Hk & Hcur & _ & Hsema & Hj). destruct (so_pushes _ _ Hs) as [H1 H2 H3 H4 H6 H0 H5].
  pose proof (remove_key (ongoing s) p push0 H1 Hp) as Hperm.
  assert (length (channels (mgr s')) = length (channels (mgr s))) as El by (rewrite Em; apply (on_channel_length c _ (mgr s))).
  assert (forall x, x ∈ (ongoing s').*1 <-> x ∈ (ongoing s).*1 /\ x <> p) as Hkeys.
  { intros x. rewrite Eo, !list_elem_of_fmap. setoid_rewrite list_elem_of_filter. naive_solver. }
  split; rewrite ?El, ?Em, ?Elk.
  - rewrite Eo. apply (NoDup_cons_1_2 p). change (NoDup ((p, push0) :: filter (fun y => y.1 <> p) (ongoing s)).*1). by rewrite <- Hperm.
  - intros x push Hx. rewrite Eo in Hx. apply list_elem_of_filter in Hx as [Hxp Hx]. cbn [fst] in Hxp. destruct (H2 x push Hx) as (Hl & j & Hjk & Hjc & Hb).
    split; [done|]. exists j. assert (j <> k) as E by congruence. destruct (Hj j) as (_ & E2 & E3). rewrite E2, (E3 E), decide_False by done. done.
  - intros j j' x Hj1 Hj2. rewrite (proj1 (proj2 (Hj j))), (proj1 (proj2 (Hj j'))). repeat case_decide; try done. by apply H3.
  - intros j x Hj1. rewrite (proj1 (proj2 (Hj j))). case_decide as E; [done|]. intros Hx. apply elem_of_app. pose proof (H4 j x Hj1 Hx) as [H|H]%elem_of_app; [left|by right].
    apply Hkeys. split; [done|]. intros ->. by apply E, (H3 j k p).
  - intros x Hx [Hin _]%Hkeys. by apply (H6 x).
  - lia.
  - rewrite Hsema, Ew, Eo. rewrite (Permutation_length Hperm) in H5. cbn [length] in H5. lia.
Qed.

Lemma end_step : let r := uvm_channel_end_push (mk_push c (push_begin push0) words (push_info_index push0) 0) (mgr s) in
  sys_ok (n + 1) (s <| mgr := r.2 |> <| ongoing ::= filter (fun x => x.1 <> p) |>
    <| submitted ::= cons ((push_channel r.1, channel_tracking_value r.1), (push_begin r.1, push_begin r.1 + uvm_push_get_size r.1)) |>).
Proof.
  cbv zeta. rewrite end_push_result. cbn [fst snd push_channel channel_tracking_value push_begin]. set (s' := s <| mgr := m2 |> <| ongoing ::= _ |> <| submitted ::= _ |>).
  pose proof end_queued as Hq. destruct end_pending as (Hne & Hpp & Ee & _ & Hold). pose proof (so_channel _ _ (so_chans _ _ Hs) c end_channel_bound) as Hch.
  assert (channel_at m2 c = submit_entry e (ch <| tracking_sem ::= (fun t => t <| queued_value := q + 1 |>) |>)) as E1
    by (change (channel_at m2 c) with (channel_at m1 c); unfold m1; rewrite channel_at_on_channel by (apply end_channel_bound); done).
  assert (length (channels (mgr s')) = length (channels (mgr s))) as El by (apply (on_channel_length c _ (mgr s))).
  destruct end_info as (infos' & Hi & Ei). destruct (end_chunk) as (_ & _ & _ & _ & Hb0 & Hb1).
  assert (uvm_push_get_size (mk_push c (push_begin push0) words (Z.to_nat (num_gpfifo_entries ch)) (q + 1)) = words * 4) as Esz
    by (unfold uvm_push_get_size; cbn [push_words]; unfold UVM_MAX_PUSH_SIZE in Hmax; apply u32_small; lia).
  split; [|by apply end_links|by apply end_pushes|].
  - apply (chans_step n (n + 1) s s' c); try done; [apply Hs|lia|..].
    + intros c' E. split_and!; [done|done|by apply Hne|]. unfold infos_of. change (ongoing s') with (filter (fun y => y.1 <> p) (ongoing s)).
      rewrite (remove_key (ongoing s) p push0 (so_nodup _ (so_pushes _ _ Hs)) Hp) at 1. by rewrite filter_cons_False.
    + change (mgr s') with m2. rewrite E1. unfold infos_of. change (ongoing s') with (filter (fun y => y.1 <> p) (ongoing s)). rewrite <- Ei.
      apply (channel_end _ _ _ _ Hch e (push_info_index push0)); try done. fold ch q. lia.
    + change (mgr s') with m2. rewrite E1. change (q + 1 <= n + 1). lia.
  - apply (submitted_step s); [apply Hs|done| |done|..].
    + intros c'. change (mgr s') with m2. destruct (decide (c' = c)) as [->|E]; [rewrite E1; change (q <= q + 1); lia|]. change (channel_at m2 c') with (channel_at m1 c'). by rewrite Hne.
    + intros x _ _ (i & Hin & Hv & Hx). exists i. destruct (Hold x.1.1 i Hin) as [G1 G2]. change (gpfifo_of (mgr s')) with (gpfifo_of m1). by rewrite G2.
    + intros x [->|Hx]%elem_of_cons; [right|by left]. cbn [fst snd]. split; [rewrite El; apply end_channel_bound|]. change (mgr s') with m2. rewrite E1.
      split; [change (0 < q + 1 <= q + 1); lia|]. exists put. cbn [fst snd]. change (channel_at m2 c) with (channel_at m1 c). change (gpfifo_of m2) with (gpfifo_of m1).
      rewrite Hpp, Ee, Esz. split; [apply elem_of_app; right; by apply list_elem_of_singleton|]. done.
Qed.

End EndStep.

(** A completed push leaves its chunk, wherever it was. *)
Lemma remove_pending_all ent g pb k : pb_ok ent pb -> (k < UVM_PUSHBUFFER_CHUNKS)%nat ->
  pending_gpfifos (chunk_at (remove_pending ent g pb) k) = filter (fun g' => g' <> g) (pending_gpfifos (chunk_at pb k)).
Proof.
  intros Hpb Hk. destruct (remove_pending_effect ent g pb k) as [-> _]. case_decide as E; [done|]. symmetry. apply filter_full. intros x Hx ->.
  by apply E; rewrite (pending_chunk ent pb k).
Qed.

(** What a round of the progress loop does. *)
Lemma progress_step_effect c v m m' : (c < length (channels m))%nat -> progress_step c v UVM_CHANNEL_UPDATE_MODE_COMPLETED m = Some m' ->
  let ch := channel_at m c in let i := Z.to_nat (gpu_get ch) in
  gpu_get ch <> cpu_put ch /\ tracking_semaphore_value (entry_at ch i) <= v /\ length (channels m') = length (channels m) /\
  (forall c', c' <> c -> channel_at m' c' = channel_at m c') /\
  (exists infos ent, channel_at m' c = (ch <| push_infos := infos |>) <| available_push_infos ::= (fun av => av ++ (if is_push ch i then [gp_push_info (entry_at ch i)] else [])) |>
     <| gpu_get := (gpu_get ch + 1) mod num_gpfifo_entries ch |> /\
     (forall g, ent g = gpfifo_of m g) /\ pushbuffer m' = if is_push ch i then remove_pending ent (c, i) (pushbuffer m) else pushbuffer m).
Proof.
  intros Hc. unfold progress_step. set (ch := channel_at m c). set (i := Z.to_nat (gpu_get ch)). destruct (Z.eqb_spec (gpu_get ch) (cpu_put ch)) as [|Hne]; [done|].
  cbn [andb]. destruct (Z.ltb_spec v (tracking_semaphore_value (entry_at ch i))) as [|Hv]; [done|]. intros [= <-]. cbv zeta. split; [done|]. split; [done|].
  unfold is_push. destruct (gp_type (entry_at ch i)) eqn:Et.
  - rewrite bool_decide_true by done. unfold uvm_pushbuffer_mark_completed. fold ch.
    set (m1 := match default None _ with Some f => _ | None => m end).
    assert (exists infos, (forall g, gpfifo_of m1 g = gpfifo_of m g) /\ length (channels m1) = length (channels m) /\
      (forall c', c' <> c -> channel_at m1 c' = channel_at m c') /\ channel_at m1 c = ch <| push_infos := infos |> /\ pushbuffer m1 = pushbuffer m) as (infos & H1 & H2 & H3 & H4 & H5).
    { unfold m1. case_match; [|exists (push_infos ch); split_and!; try done; fold ch; by destruct ch]. set (m0 := m <| completions ::= cons _ |>).
      eexists. split; [intros g; by apply (gpfifo_of_on_channel c _ m0)|]. split; [apply (on_channel_length c _ m0)|].
      split; [intros c' E; by apply (channel_at_ne c c' _ m0)|]. split; [|done]. rewrite (channel_at_on_channel c _ m0) by done. reflexivity. }
    set (m2 := m1 <| pushbuffer ::= remove_pending (gpfifo_of m1) (c, i) |>). set (m3 := on_channel c _ m2).
    assert (length (channels m3) = length (channels m)) as L3 by (unfold m3; rewrite on_channel_length; done).
    split; [by rewrite on_channel_length|]. split.
    { intros c' E. rewrite channel_at_ne by done. unfold m3. rewrite channel_at_ne by done. by apply H3. }
    exists infos, (gpfifo_of m1). split_and!; [|done|].
    + rewrite channel_at_on_channel by congruence. unfold m3. rewrite channel_at_on_channel by (change (channels m2) with (channels m1); congruence).
      change (channel_at m2 c) with (channel_at m1 c). rewrite H4. done.
    + change (remove_pending (gpfifo_of m1) (c, i) (pushbuffer m1) = remove_pending (gpfifo_of m1) (c, i) (pushbuffer m)). by rewrite H5.
  - rewrite bool_decide_false by done. split; [apply on_channel_length|]. split; [intros c' E; by apply channel_at_ne|]. exists (push_infos ch), (gpfifo_of m).
    split_and!; [|done|done]. rewrite channel_at_on_channel by done. fold ch. destruct ch. unfold upd. cbn. by rewrite app_nil_r.
Qed.

Lemma channel_ok_push_infos tokens infos released ch l : channel_ok tokens infos released ch -> channel_ok tokens infos released (ch <| push_infos := l |>).
Proof. intros []. by split. Qed.

Section ProgressStep.
Context (n : Z) (s : sys_t) (c : nat) (v : Z) (m' : uvm_channel_manager_t).
Context (Hs : sys_ok n s) (Hc : (c < length (channels (mgr s)))%nat) (Hv : v <= completed_value (tracking_sem (channel_at (mgr s) c))).
Context (Hstep : progress_step c v UVM_CHANNEL_UPDATE_MODE_COMPLETED (mgr s) = Some m').

Let i := Z.to_nat (gpu_get (channel_at (mgr s) c)).

(** The channels afterwards: the first entry is gone, and if it was a push the GPU has
    released it. *)
Lemma progress_channel : length (channels m') = length (channels (mgr s)) /\ (forall g, gpfifo_of m' g = gpfifo_of (mgr s) g) /\
  (forall c', c' <> c -> channel_at m' c' = channel_at (mgr s) c') /\ tracking_sem (channel_at m' c) = tracking_sem (channel_at (mgr s) c) /\
  channel_ok (reserved_of s c) (infos_of s c) (released_of s c) (channel_at m' c) /\
  pending_pushes (channel_at (mgr s) c) = (if is_push (channel_at (mgr s) c) i then [i] else []) ++ pending_pushes (channel_at m' c) /\
  tracking_semaphore_value (gpfifo_of (mgr s) (c, i)) <= released_of s c.
Proof.
  destruct (progress_step_effect c v (mgr s) m' Hc Hstep) as (Hne & Htr & El & Hother & infos & ent & Ech & _ & _).
  pose proof (so_channel _ _ (so_chans _ _ Hs) c Hc) as Hch. pose proof (ch_counts _ _ _ _ Hch) as (_ & Hcomp & _).
  destruct (channel_progress _ _ _ _ (channel_ok_push_infos _ _ _ _ infos Hch) v _ Hne Hv Htr eq_refl) as [Hok Hpp].
  assert (forall g, gpfifo_of m' g = gpfifo_of (mgr s) g) as Eg.
  { intros g. unfold gpfifo_of. destruct (decide (g.1 = c)) as [->|E]; [by rewrite Ech|by rewrite Hother]. }
  split_and!; [done|done|done|by rewrite Ech|rewrite Ech; exact Hok|rewrite Ech; exact Hpp|]. unfold gpfifo_of. cbn [fst snd]. fold i in Htr. lia.
Qed.

(** The pushbuffer afterwards. *)
Lemma progress_pushbuffer : concurrent_pushes_sema (pushbuffer m') = concurrent_pushes_sema (pushbuffer (mgr s)) /\
  forall k, (k < UVM_PUSHBUFFER_CHUNKS)%nat ->
    (forall g, g ∈ pending_gpfifos (chunk_at (pushbuffer m') k) <->
       g ∈ pending_gpfifos (chunk_at (pushbuffer (mgr s)) k) /\ ~ (is_push (channel_at (mgr s) c) i = true /\ g = (c, i))) /\
    current_push (chunk_at (pushbuffer m') k) = current_push (chunk_at (pushbuffer (mgr s)) k) /\
    (current_push (chunk_at (pushbuffer (mgr s)) k) <> None -> next_push_start (chunk_at (pushbuffer m') k) = next_push_start (chunk_at (pushbuffer (mgr s)) k)).
Proof.
  destruct (progress_step_effect c v (mgr s) m' Hc Hstep) as (_ & _ & _ & _ & infos & ent & _ & Hent & Epb). fold i in Epb. rewrite Epb.
  assert (pb_ok ent (pushbuffer (mgr s))) as Hpb by (apply (pb_ok_ext (gpfifo_of (mgr s))); [done|apply Hs]).
  destruct (is_push (channel_at (mgr s) c) i).
  - split; [apply sema_remove_pending|]. intros k Hk. split; [|apply (remove_pending_effect ent (c, i))]. intros g. rewrite remove_pending_all by done.
    rewrite list_elem_of_filter. tauto.
  - split; [done|]. intros k Hk. split; [|done]. intros g. split; [intros H; split; [done|by intros []]|by intros []].
Qed.

Lemma progress_links : links_ok m'.
Proof.
  destruct progress_channel as (El & Eg & Hother & _ & Hok & Hpp & _). destruct progress_pushbuffer as [_ Hpb]. destruct (so_links _ _ Hs) as [H1 H2 H3].
  split; [by apply (progress_step_pb_ok c v UVM_CHANNEL_UPDATE_MODE_COMPLETED (mgr s))|..]; rewrite El.
  - intros k g Hk Hg. apply (Hpb k Hk) in Hg as [Hg Hn]. destruct (H2 k g Hk Hg) as [Hl Hin]. split; [done|]. destruct (decide (g.1 = c)) as [E|E]; [|by rewrite Hother].
    rewrite E in *. rewrite Hpp in Hin. destruct (is_push _ i); [|done]. apply elem_of_cons in Hin as [Hin|Hin]; [|done]. exfalso. apply Hn. split; [done|].
    destruct g as [g1 g2]. cbn [fst snd] in *. by subst.
  - intros c' j Hc' Hj. assert (j ∈ pending_pushes (channel_at (mgr s) c') /\ ~ (is_push (channel_at (mgr s) c) i = true /\ (c', j) = (c, i))) as [Hin Hn].
    { destruct (decide (c' = c)) as [->|E]; [|rewrite Hother in Hj by done; split; [done|naive_solver]]. pose proof (so_channel _ _ (so_chans _ _ Hs) c Hc) as Hch.
      pose proof (pushes_nodup _ _ _ _ Hch) as Hnd. rewrite Hpp in *. split; [apply elem_of_app; by right|]. intros [E [= ->]]. rewrite E in Hnd.
      by apply NoDup_cons in Hnd as [Hnd _]. }
    destruct (H3 c' j Hc' Hin) as (k & Hk & Hg). exists k. split; [done|]. by apply (Hpb k Hk).
Qed.

Lemma progress_ok : sys_ok n (s <| mgr := m' |>).
Proof.
  destruct progress_channel as (El & Eg & Hother & Et & Hok & Hpp & Hrel). destruct progress_pushbuffer as [Esema Hpb].
  assert (forall c', tracking_sem (channel_at m' c') = tracking_sem (channel_at (mgr s) c')) as Et'
    by (intros c'; destruct (decide (c' = c)) as [->|E]; [done|by rewrite Hother]).
  split; [|by apply progress_links|..].
  - apply (chans_step n n s _ c); try done; [apply Hs|intros c' E; split_and!; try done; by apply Hother|]. change (mgr (s <| mgr := m' |>)) with m'. rewrite Et'. by apply (so_queued _ _ (so_chans _ _ Hs)).
  - pose proof (so_sema_nonneg _ (so_pushes _ _ Hs)). apply (pushes_frame s); [done|done|done|..|intros k Hk; by apply (Hpb k Hk)|apply Hs]; change (mgr (s <| mgr := m' |>)) with m';
      rewrite Esema; done.
  - apply (submitted_step s); [apply Hs|done|intros c'; change (mgr (s <| mgr := m' |>)) with m'; by rewrite Et'|done| |by left].
    intros x Hx Hlt (j & Hj & Hval & Hreg). exists j. change (mgr (s <| mgr := m' |>)) with m'. rewrite Eg. split; [|done].
    destruct (decide (x.1.1 = c)) as [E|E]; [|by rewrite Hother]. rewrite E in *. rewrite Hpp in Hj. destruct (is_push _ i); [|done].
    apply elem_of_cons in Hj as [->|Hj]; [lia|done].
Qed.

End ProgressStep.


(** ** Reachable states *)

(** A thread waits for the semaphore of the pushbuffer, or leaves it. *)
Lemma sema_step n s f g : sys_ok n s -> 0 <= f (concurrent_pushes_sema (pushbuffer (mgr s))) ->
  f (concurrent_pushes_sema (pushbuffer (mgr s))) + g (waiting s) = concurrent_pushes_sema (pushbuffer (mgr s)) + waiting s ->
  sys_ok n (s <| mgr ::= w_sema f |> <| waiting ::= g |>).
Proof.
  intros [C Hl Hp Hs] H0 Hsum. set (s' := s <| mgr ::= _ |> <| waiting ::= _ |>).
  assert (same_pushes (mgr s) (mgr s')) as Hsame by done. split.
  - destruct C. by split.
  - apply (same_pushes_links (mgr s)); [done|done| |done]. change (pushbuffer (mgr s')) with ((pushbuffer (mgr s)) <| concurrent_pushes_sema ::= f |>). apply pb_ok_sema, Hl.
  - by apply (pushes_frame s).
  - apply (submitted_step s); [done|done|done|done| |by left]. intros x _ _. by apply same_pushes_described.
Qed.

Lemma reserve_step n s c num : sys_ok n s -> (c < length (channels (mgr s)))%nat -> 0 < num -> num <= channel_get_available_gpfifo_entries (channel_at (mgr s) c) ->
  sys_ok n (s <| mgr ::= on_channel c (fun ch => ch <| current_gpfifo_count ::= (fun k => u32 (k + num)) |>) |> <| reserved ::= alter (Z.add num) c |>).
Proof.
  intros Hs Hc Hnum Hav. pose proof (so_chans _ _ Hs) as [C1 C2 C3 C4]. set (s' := s <| mgr ::= _ |> <| reserved ::= _ |>).
  assert (forall c', reserved_of s' c' = if decide (c' = c) then num + reserved_of s c' else reserved_of s c') as Er by (intros c'; by apply (reserved_alter s s' (Z.add num)); [rewrite C2|]).
  apply (channel_step n s s' c _ Hs Hc eq_refl); try done; [apply length_alter|intros c' E; by rewrite Er, decide_False|].
  rewrite Er, decide_True, Z.add_comm by done. by apply channel_claim; [apply C3|..].
Qed.

Lemma release_step n s c num : sys_ok n s -> (c < length (channels (mgr s)))%nat -> 0 <= num -> num <= reserved_of s c ->
  sys_ok n (s <| mgr ::= uvm_channel_release c num |> <| reserved ::= alter (fun k => k - num) c |>).
Proof.
  intros Hs Hc Hnum Hav. pose proof (so_chans _ _ Hs) as [C1 C2 C3 C4]. set (s' := s <| mgr ::= _ |> <| reserved ::= _ |>).
  assert (forall c', reserved_of s' c' = if decide (c' = c) then reserved_of s c' - num else reserved_of s c') as Er
    by (intros c'; by apply (reserved_alter s s' (fun k => k - num)); [rewrite C2|]).
  apply (channel_step n s s' c _ Hs Hc eq_refl); try done; [apply length_alter|intros c' E; by rewrite Er, decide_False|].
  rewrite Er, decide_True by done. by apply GpuChannel.channel_release; [apply C3|].
Qed.

Lemma gpu_step n s c : sys_ok n s -> (c < length (channels (mgr s)))%nat -> released_of s c < queued_value (tracking_sem (channel_at (mgr s) c)) ->
  sys_ok n (s <| mgr ::= gpu_completes c (released_of s c + 1) |> <| gpu_released ::= alter Z.succ c |>).
Proof.
  intros Hs Hc Hlt. pose proof (so_chans _ _ Hs) as [C1 C2 C3 C4]. set (s' := s <| mgr ::= _ |> <| gpu_released ::= _ |>).
  assert (forall c', released_of s' c' = if decide (c' = c) then Z.succ (released_of s c') else released_of s c') as Er
    by (intros c'; by apply (released_alter s s' Z.succ); [rewrite C1|]).
  apply (channel_step n s s' c _ Hs Hc eq_refl); try done; [apply length_alter|intros c' E; by rewrite Er, decide_False|rewrite Er, decide_True by done; lia|].
  rewrite Er, decide_True by done. by apply channel_gpu; [apply C3|].
Qed.

Lemma update_step n s c : sys_ok n s -> (c < length (channels (mgr s)))%nat -> sys_ok n (s <| mgr := (uvm_channel_update_completed_value c (mgr s)).2 |>).
Proof.
  intros Hs Hc. unfold uvm_channel_update_completed_value. pose proof (so_channel _ _ (so_chans _ _ Hs) c Hc) as Hch.
  pose proof (channel_update _ _ _ _ Hch) as Hok. unfold uvm_gpu_tracking_semaphore_update_completed_value in *.
  rewrite (update_counts _ _ (ch_counts _ _ _ _ Hch)) in *. by eapply (channel_step n s _ c _ Hs Hc).
Qed.

Lemma callback_step n s p push f : sys_ok n s -> (p, push) ∈ ongoing s ->
  sys_ok n (s <| mgr ::= on_channel (push_channel push) (fun ch => ch <| push_infos ::= <[push_info_index push := Some f]> |>) |>).
Proof.
  intros Hs Hp. destruct (so_ongoing _ (so_pushes _ _ Hs) p push Hp) as [Hc _]. eapply (channel_step n s _ (push_channel push) _ Hs Hc); try done.
  apply (channel_ok_push_infos _ _ _ _ (<[push_info_index push := Some f]> _)). by apply (so_channel _ _ (so_chans _ _ Hs)).
Qed.

Lemma fatal_step n s st : sys_ok n s -> sys_ok n (s <| mgr ::= uvm_global_set_fatal_error st |>).
Proof.
  intros Hs. change (sys_ok n (s <| mgr := uvm_global_set_fatal_error st (mgr s) |>)). unfold uvm_global_set_fatal_error.
  destruct Hs as [[] [] [] H4]. destruct (is_ok (fatal_error (mgr s))); (split; [..|exact H4]); by split.
Qed.

Lemma sys_step_ok n s op s' : sys_ok n s -> n + 1 < 2 ^ 64 -> sys_step op s = Some s' -> sys_ok (n + 1) s'.
Proof.
  intros Hs Hn Hstep. assert (sys_ok (n + 1) s) as Hs1.
  { destruct Hs as [[C1 C2 C3 C4] H2 H3 H4]. split; try done. split; try done. intros c Hc. specialize (C4 c Hc). lia. }
  destruct op; cbn [sys_step] in Hstep.
  - destruct (_ && _) eqn:G; [|done]. unfold try_claim_channel in Hstep. destruct (_ <=? _) eqn:A; injection Hstep as <-; [|done].
    apply reserve_step; [done|rewrite ?andb_true_iff, ?Nat.ltb_lt in G; lia..].
  - destruct (_ && _) eqn:G; [|done]. injection Hstep as <-. rewrite !andb_true_iff, Nat.ltb_lt in G. apply release_step; [done|lia..].
  - destruct (Z.ltb_spec 0 (concurrent_pushes_sema (pushbuffer (mgr s)))); [|done]. injection Hstep as <-. apply sema_step; [done|lia..].
  - destruct (_ && negb _) eqn:G; [|done]. rewrite !andb_true_iff, Nat.ltb_lt, negb_true_iff, bool_decide_eq_false in G. destruct G as [[[G1 G2] G3] G4].
    unfold w_try_claim in Hstep. cbn [w_pushbuffer w_set_pushbuffer manager_world] in Hstep.
    destruct (try_claim_chunk p (pushbuffer (mgr s))) as [[i|] pb] eqn:E; [|by injection Hstep as <-].
    pose proof (claim_step (n + 1) s p c i Hs1 G1 G4 ltac:(by rewrite E) ltac:(lia)) as Hok. rewrite E in Hok. cbn [snd] in Hok.
    destruct (begin_in_chunk c i _) as [push m]. by injection Hstep as <-.
  - destruct (_ && negb (bool_decide _)) eqn:G; [|done]. rewrite !andb_true_iff, !negb_true_iff, bool_decide_eq_false in G. destruct G as [[G1 G2] G3].
    unfold w_try_claim in Hstep. cbn [w_pushbuffer w_set_pushbuffer manager_world] in Hstep.
    destruct (try_claim_chunk p (pushbuffer (mgr s))) as [[i|] pb] eqn:E; [|by injection Hstep as <-].
    pose proof (fail_step (n + 1) s p i Hs1 G3 ltac:(by rewrite E) ltac:(lia)) as Hok. rewrite E in Hok. by injection Hstep as <-.
  - destruct (Z.ltb_spec 0 (waiting s)); [|done]. injection Hstep as <-. pose proof (so_sema_nonneg _ (so_pushes _ _ Hs1)). apply sema_step; [done|lia..].
  - destruct (find_push s p) as [push|] eqn:E; [|done]. injection Hstep as <-. apply (callback_step _ _ p); [done|by apply find_push_elem].
  - destruct (_ && _) eqn:G; [|done]. destruct (find_push s p) as [push|] eqn:E; [|done]. cbn [mbind option_bind] in Hstep.
    pose proof (end_step n s p push words Hs Hn (find_push_elem _ _ _ E) ltac:(lia) ltac:(lia)) as Hok.
    destruct (uvm_channel_end_push _ _) as [push' m]. by injection Hstep as <-.
  - destruct (_ && _) eqn:G; [|done]. injection Hstep as <-. rewrite andb_true_iff, Nat.ltb_lt in G. apply control_step; [done|lia..].
  - destruct (_ && _) eqn:G; [|done]. injection Hstep as <-. rewrite andb_true_iff, Nat.ltb_lt in G. apply gpu_step; [done|lia..].
  - destruct (Nat.ltb_spec c (length (channels (mgr s)))); [|done]. injection Hstep as <-. by apply update_step.
  - destruct (_ && _) eqn:G; [|done]. rewrite andb_true_iff, Nat.ltb_lt in G. destruct (progress_step _ _ _ _) eqn:E; injection Hstep as <-; [|done].
    apply (progress_ok _ s c completed); [done|lia|lia|done].
  - destruct (Nat.ltb_spec c (length (channels (mgr s)))) as [Hc|]; [|done]. injection Hstep as <-. eapply (channel_step _ s _ c _ Hs1 Hc); try done.
    destruct (so_channel _ _ (so_chans _ _ Hs1) c Hc). by split.
  - destruct (_ && _); [|done]. injection Hstep as <-. by apply fatal_step.
Qed.

Lemma sys_run_ok ops : forall n s s', sys_ok n s -> n + Z.of_nat (length ops) < 2 ^ 64 -> sys_run ops s = Some s' -> sys_ok (n + Z.of_nat (length ops)) s'.
Proof.
  induction ops as [|op ops IH]; intros n s s' Hs Hn Hrun; cbn [length] in *; [injection Hrun as <-; by rewrite Z.add_0_r|].
  cbn [sys_run] in Hrun. destruct (sys_step op s) as [s1|] eqn:E; [|done]. cbn [mbind option_bind] in Hrun.
  replace (n + Z.of_nat (S (length ops))) with (n + 1 + Z.of_nat (length ops)) by lia. apply (IH (n + 1) s1); [|lia|done]. apply (sys_step_ok n s op); [done|lia|done].
Qed.

Lemma channel_create_ok num : 2 <= num <= UVM_CHANNEL_NUM_GPFIFO_ENTRIES_MAX -> channel_ok 0 [] 0 (channel_create num).
Proof.
  intros Hn. assert (pending_count (channel_create num) = 0) as Hk by (unfold pending_count; cbn; apply Z.mod_0_l; lia).
  assert (pending_pushes (channel_create num) = []) as Hp by (unfold pending_pushes, pending_entries; by rewrite Hk).
  split; cbn [channel_create num_gpfifo_entries gpfifo_entries cpu_put gpu_get current_gpfifo_count tracking_sem available_push_infos length]; rewrite ?Hp;
    try (done || lia); [by rewrite length_replicate|by rewrite app_nil_r].
Qed.

Lemma sys_init_ok nums : Forall (fun num => 2 <= num <= UVM_CHANNEL_NUM_GPFIFO_ENTRIES_MAX) nums -> sys_ok 0 (sys_init nums).
Proof.
  intros Hn. assert (forall c, (c < length nums)%nat -> exists num, 2 <= num <= UVM_CHANNEL_NUM_GPFIFO_ENTRIES_MAX /\
    channel_at (manager_create nums) c = channel_create num /\ reserved_of (sys_init nums) c = 0 /\ released_of (sys_init nums) c = 0) as Hc.
  { intros c Hc. destruct (lookup_lt_is_Some_2 nums c Hc) as [num E]. exists num. split; [exact (Forall_lookup_1 _ _ _ _ Hn E)|].
    unfold channel_at, reserved_of, released_of, sys_init, manager_create. cbn [channels reserved gpu_released]. by rewrite !list_lookup_fmap, E. }
  assert (forall k, (k < UVM_PUSHBUFFER_CHUNKS)%nat -> chunk_at uvm_pushbuffer_create k = empty_chunk) as Hk
    by (intros k Hk; unfold chunk_at, uvm_pushbuffer_create; cbn [chunks]; by rewrite lookup_replicate_2).
  assert (forall c, (c < length nums)%nat -> pending_pushes (channel_at (manager_create nums) c) = []) as Hp.
  { intros c Hl. destruct (Hc c Hl) as (num & Hnum & -> & _). unfold pending_pushes, pending_entries, pending_count. cbn. by rewrite Z.mod_0_l by lia. }
  split; [split|split|split|by intros x ?%elem_of_nil]; cbn [sys_init mgr gpu_released reserved manager_create channels pushbuffer ongoing waiting];
    rewrite ?length_fmap; try done.
  - intros c Hl. destruct (Hc c Hl) as (num & Hnum & E & -> & ->). fold (manager_create nums). rewrite E. by apply channel_create_ok.
  - intros c Hl. destruct (Hc c Hl) as (num & Hnum & E & _). fold (manager_create nums). by rewrite E.
  - apply create_ok.
  - intros k g Hl. rewrite Hk by done. by intros ?%elem_of_nil.
  - intros c i Hl. fold (manager_create nums). rewrite Hp by done. by intros ?%elem_of_nil.
  - constructor.
  - by intros p push ?%elem_of_nil.
  - intros k k' p H1 H2. by rewrite Hk.
  - intros k p H1. by rewrite Hk.
  - by intros p ?%elem_of_nil.
Qed.

(** ** What holds in every reachable state *)

(** The memory of a push is in use from its beginning until the GPU has released its
    tracking value: all it may write while it is on-going, then what it has written. *)
Inductive live (s : sys_t) : (nat * Z) + nat -> Z * Z -> Prop :=
| live_submitted c v r : ((c, v), r) ∈ submitted s -> released_of s c < v -> live s (inl (c, v)) r
| live_ongoing p push : (p, push) ∈ ongoing s -> live s (inr p) (push_begin push, push_begin push + UVM_MAX_PUSH_SIZE).

Lemma live_uses n s u r : sys_ok n s -> live s u r -> exists w, uses (gpfifo_of (mgr s)) (pushbuffer (mgr s)) w r /\
  match u, w with
  | inl (c, v), PendingEntry g => g.1 = c /\ tracking_semaphore_value (gpfifo_of (mgr s) g) = v
  | inr p, OnGoingPush k => current_push (chunk_at (pushbuffer (mgr s)) k) = Some p
  | _, _ => False
  end.
Proof.
  intros Hs [c v reg Hin Hlt|p push Hin].
  - destruct (so_submitted _ _ Hs _ Hin) as (Hc & _ & Hd). destruct (Hd Hlt) as (i & Hi & Hv & Hr). cbn [fst snd] in *. subst reg.
    destruct (so_tracked _ (so_links _ _ Hs) c i Hc Hi) as (k & Hk & Hg). exists (PendingEntry (c, i)). split; [|done]. split; [done|]. by exists k.
  - destruct (so_ongoing _ (so_pushes _ _ Hs) p push Hin) as (_ & k & Hk & Hcur & ->). exists (OnGoingPush k). split; [|done]. split; [done|]. split; [done|congruence].
Qed.

(** C5: in every state that any interleaving of the threads and the GPU reaches, the
    memory of a push that the GPU has not completed is inside the pushbuffer, and no
    other push, on-going or submitted, has a byte of it: a push is not overwritten
    before the GPU has executed it, on any channel. *)
Theorem push_memory_safe nums ops s u r :
  Forall (fun num => 2 <= num <= UVM_CHANNEL_NUM_GPFIFO_ENTRIES_MAX) nums -> Z.of_nat (length ops) < 2 ^ 64 -> sys_run ops (sys_init nums) = Some s -> live s u r ->
  0 <= r.1 < r.2 /\ r.2 <= UVM_PUSHBUFFER_SIZE /\ (forall u' r', live s u' r' -> u <> u' -> r.2 <= r'.1 \/ r'.2 <= r.1).
Proof.
  intros Hnums Hlen Hrun Hu. pose proof (sys_run_ok ops 0 _ s (sys_init_ok nums Hnums) Hlen Hrun) as Hs. pose proof (so_pb _ (so_links _ _ Hs)) as Hpb.
  destruct (live_uses _ s u r Hs Hu) as (w & Hw & Huw). destruct (uses_bounds _ _ Hpb w r Hw) as (H1 & H2 & _). split; [done|]. split; [done|].
  intros u' r' Hu' Hne. destruct (live_uses _ s u' r' Hs Hu') as (w' & Hw' & Huw'). apply (uses_disjoint _ _ Hpb w w' r r' Hw Hw').
  intros <-. apply Hne. destruct u as [[c v]|p], u' as [[c' v']|p'], w as [g|k]; try done; f_equal; [destruct Huw, Huw'; congruence|congruence].
Qed.

Lemma idle_pushbuffer n s : sys_ok n s -> (forall c, (c < length (channels (mgr s)))%nat -> pending_pushes (channel_at (mgr s) c) = []) ->
  forall k, (k < UVM_PUSHBUFFER_CHUNKS)%nat -> pending_gpfifos (chunk_at (pushbuffer (mgr s)) k) = [].
Proof.
  intros Hs Hnone k Hk. destruct (pending_gpfifos _) as [|g l] eqn:E; [done|]. exfalso.
  destruct (so_pending _ (so_links _ _ Hs) k g Hk) as [Hc Hg]; [rewrite E; by left|]. rewrite Hnone in Hg by done. by apply elem_of_nil in Hg.
Qed.

(** A chunk is not claimed when fewer chunks were lost than there are places of the
    semaphore that no push has. *)
Lemma waiting_leaves_chunk n s : sys_ok n s -> Z.of_nat (length (leaked s)) < concurrent_pushes_sema (pushbuffer (mgr s)) + waiting s ->
  exists k, (k < UVM_PUSHBUFFER_CHUNKS)%nat /\ current_push (chunk_at (pushbuffer (mgr s)) k) = None.
Proof.
  intros Hs Hw. destruct (so_pushes _ _ Hs) as [_ _ H3 H4 _ H0 H5].
  destruct (decide (Exists (fun k => current_push (chunk_at (pushbuffer (mgr s)) k) = None) (seq 0 UVM_PUSHBUFFER_CHUNKS))) as [Hex|Hno].
  { apply Exists_exists in Hex as (k & Hk%elem_of_seq & Hcur). exists k. split; [lia|done]. }
  exfalso. set (key := fun k => default 0%nat (current_push (chunk_at (pushbuffer (mgr s)) k))).
  assert (forall k, (k < UVM_PUSHBUFFER_CHUNKS)%nat -> current_push (chunk_at (pushbuffer (mgr s)) k) = Some (key k)) as Hkey.
  { intros k Hk. unfold key. destruct (current_push _) eqn:E; [done|]. exfalso. apply Hno, Exists_exists. exists k. split; [apply elem_of_seq; lia|done]. }
  assert (NoDup (key <$> seq 0 UVM_PUSHBUFFER_CHUNKS)) as Hnd.
  { apply NoDup_fmap_2_strong; [|apply NoDup_seq]. intros k k' Hk%elem_of_seq Hk'%elem_of_seq E. apply (H3 k k' (key k)); [lia|lia|apply Hkey; lia|]. rewrite E. apply Hkey. lia. }
  assert (key <$> seq 0 UVM_PUSHBUFFER_CHUNKS ⊆+ (ongoing s).*1 ++ leaked s) as Hsub.
  { apply NoDup_submseteq; [done|]. intros p (k & -> & Hk%elem_of_seq)%list_elem_of_fmap. apply (H4 k); [lia|apply Hkey; lia]. }
  apply submseteq_length in Hsub. rewrite length_app, !length_fmap, length_seq in Hsub. lia.
Qed.

(** Chunks are only lost after an error, which stays. *)
Definition leaks_ok (s : sys_t) : Prop := leaked s = [] \/ fatal_error (mgr s) <> NV_OK.

Lemma progress_step_fatal c v mode m m' : progress_step c v mode m = Some m' -> fatal_error m' = fatal_error m.
Proof.
  unfold progress_step. destruct (_ =? _); [done|]. destruct (_ && _); [done|]. intros [= <-]. unfold on_channel at 1. cbn [fatal_error upd].
  destruct (gp_type _); [|done]. unfold uvm_pushbuffer_mark_completed. by case_match.
Qed.

Lemma sys_step_leaks op s s' : leaks_ok s -> sys_step op s = Some s' -> leaks_ok s'.
Proof.
  intros Hl Hstep.
  assert (leaked s' = leaked s /\ (fatal_error (mgr s) <> NV_OK -> fatal_error (mgr s') <> NV_OK) \/ fatal_error (mgr s') <> NV_OK) as [[E1 E2]|H]; [|..|by right].
  2:{ destruct Hl as [Hl|Hl]; [left; congruence|right; auto]. }
  destruct op; cbn [sys_step] in Hstep.
  - destruct (_ && _); [|done]. unfold try_claim_channel in Hstep. destruct (_ <=? _); injection Hstep as <-; by left.
  - destruct (_ && _); [|done]. injection Hstep as <-. by left.
  - destruct (0 <? _); [|done]. injection Hstep as <-. by left.
  - destruct (_ && _); [|done]. unfold w_try_claim in Hstep. cbn [w_pushbuffer w_set_pushbuffer manager_world] in Hstep.
    destruct (try_claim_chunk p _) as [[i|] pb]; [|injection Hstep as <-; by left]. 
    unfold begin_in_chunk, channel_get_available_push_info_index in Hstep.
    destruct (available_push_infos _); injection Hstep as <-; by left.
  - destruct (_ && _) eqn:G; [|done]. rewrite !andb_true_iff, !negb_true_iff in G. destruct G as [[_ G] _].
    unfold w_try_claim in Hstep. cbn [w_pushbuffer w_set_pushbuffer manager_world] in Hstep.
    destruct (try_claim_chunk p _) as [[i|] pb]; [|injection Hstep as <-; by left]. injection Hstep as <-. right.
    change (fatal_error (mgr s) <> NV_OK). intros E. by rewrite E in G.
  - destruct (0 <? _); [|done]. injection Hstep as <-. by left.
  - destruct (find_push s p) as [push|]; [|done]. injection Hstep as <-. by left.
  - destruct (_ && _); [|done]. destruct (find_push s p) as [push|]; [|done]. cbn [mbind option_bind] in Hstep.
    unfold uvm_channel_end_push in Hstep. injection Hstep as <-. by left.
  - destruct (_ && _); [|done]. injection Hstep as <-. by left.
  - destruct (_ && _); [|done]. injection Hstep as <-. by left.
  - destruct (_ <? _)%nat; [|done]. injection Hstep as <-. left. split; [done|].
    change (fatal_error (mgr s) <> NV_OK -> fatal_error (uvm_channel_update_completed_value c (mgr s)).2 <> NV_OK).
    unfold uvm_channel_update_completed_value. by case_match.
  - destruct (_ && _); [|done]. destruct (progress_step _ _ _ _) eqn:E; injection Hstep as <-; left; [|done].
    split; [done|]. change (fatal_error (mgr s) <> NV_OK -> fatal_error u <> NV_OK). by rewrite (progress_step_fatal _ _ _ _ _ E).
  - destruct (_ <? _)%nat; [|done]. injection Hstep as <-. by left.
  - destruct (_ && _); [|done]. injection Hstep as <-. left. split; [done|].
    change (fatal_error (mgr s) <> NV_OK -> fatal_error (uvm_global_set_fatal_error (uvm_channel_get_status c (mgr s)) (mgr s)) <> NV_OK).
    unfold uvm_global_set_fatal_error. intros H. destruct (is_ok (fatal_error (mgr s))) eqn:E; [by apply is_ok_true in E|done].
Qed.

Lemma sys_run_leaks ops : forall s s', leaks_ok s -> sys_run ops s = Some s' -> leaks_ok s'.
Proof.
  induction ops as [|op ops IH]; intros s s' Hs Hrun; cbn [sys_run] in Hrun; [by injection Hrun as <-|].
  destruct (sys_step op s) as [s1|] eqn:E; [|done]. apply (IH s1); [|done]. by apply (sys_step_leaks op s).
Qed.

(** C24: a thread that holds the semaphore of the pushbuffer only spins for a chunk
    while some channel has a pending push, whose completion will free one, unless
    chunks were lost: after a fatal error a claim can fail and keep its chunk, and
    then there are at least as many lost chunks as places of the semaphore that no
    push has. *)
Theorem blocked_only_by_pending nums ops s :
  Forall (fun num => 2 <= num <= UVM_CHANNEL_NUM_GPFIFO_ENTRIES_MAX) nums -> Z.of_nat (length ops) < 2 ^ 64 -> sys_run ops (sys_init nums) = Some s ->
  0 < waiting s -> uvm_pushbuffer_has_space (pushbuffer (mgr s)) = false ->
  (exists c, (c < length (channels (mgr s)))%nat /\ pending_pushes (channel_at (mgr s) c) <> []) \/
  fatal_error (mgr s) <> NV_OK /\ concurrent_pushes_sema (pushbuffer (mgr s)) + waiting s <= Z.of_nat (length (leaked s)).
Proof.
  intros Hnums Hlen Hrun Hw Hno. pose proof (sys_run_ok ops 0 _ s (sys_init_ok nums Hnums) Hlen Hrun) as Hs.
  pose proof (sys_run_leaks ops (sys_init nums) s (or_introl eq_refl) Hrun) as Hlk. pose proof (so_sema_nonneg _ (so_pushes _ _ Hs)) as H0.
  destruct (decide (Exists (fun c => pending_pushes (channel_at (mgr s) c) <> []) (seq 0 (length (channels (mgr s)))))) as [Hex|Hnone].
  { left. apply Exists_exists in Hex as (c & Hc%elem_of_seq & Hp). exists c. split; [lia|done]. }
  destruct (Z.le_gt_cases (concurrent_pushes_sema (pushbuffer (mgr s)) + waiting s) (Z.of_nat (length (leaked s)))) as [Hle|Hlt].
  { right. split; [|done]. destruct Hlk as [E|Hf]; [rewrite E in Hle; cbn [length] in Hle; lia|done]. }
  exfalso. destruct (waiting_leaves_chunk _ s Hs Hlt) as (k & Hk & Hcur). pose proof (so_pb _ (so_links _ _ Hs)) as Hpb.
  assert (pending_gpfifos (chunk_at (pushbuffer (mgr s)) k) = []) as Hpend.
  { apply (idle_pushbuffer _ s Hs); [|done]. intros c Hc. destruct (pending_pushes (channel_at (mgr s) c)) eqn:E; [done|]. exfalso. apply Hnone, Exists_exists. exists c.
    split; [apply elem_of_seq; lia|by rewrite E]. }
  destruct (chunk_unclaimed _ _ _ (pb_chunks _ _ Hpb k Hk) Hcur) as [Hidle _]. unfold uvm_pushbuffer_has_space, pick_chunk in Hno.
  destruct (get_chunk_in_mask (idle_chunks (pushbuffer (mgr s)))) eqn:E; [done|]. apply (chunk_in_mask_None _ k E Hk). by apply Hidle.
Qed.

(** ** Waiting for a channel *)

(** The GPU has released all there is on the channel, and there are no errors. *)
Record drainable (tokens : Z) (infos : list nat) (v : Z) (c : nat) (m : uvm_channel_manager_t) : Prop := {
  dr_bound : (c < length (channels m))%nat;
  dr_channel : channel_ok tokens infos v (channel_at m c);
  dr_values : forall i, i ∈ pending_entries (channel_at m c) -> tracking_semaphore_value (entry_at (channel_at m c) i) <= v;
  dr_notifier : error_notifier (channel_at m c) = false;
  dr_status : fatal_error m = NV_OK;
}.

Section Drain.
Context (tokens : Z) (infos : list nat) (v : Z) (c : nat).

Lemma drain_step m : drainable tokens infos v c m -> completed_value (tracking_sem (channel_at m c)) = v -> pending_count (channel_at m c) <> 0 ->
  exists m', progress_step c v UVM_CHANNEL_UPDATE_MODE_COMPLETED m = Some m' /\ drainable tokens infos v c m' /\
    completed_value (tracking_sem (channel_at m' c)) = v /\ pending_count (channel_at m' c) = pending_count (channel_at m c) - 1.
Proof.
  intros [Hc Hch Hval Hnot Hst] Hcomp Hk. pose proof (ch_get _ _ _ _ Hch) as Hg. pose proof (ch_put _ _ _ _ Hch) as Hp. pose proof (ch_num _ _ _ _ Hch) as Hn.
  assert (gpu_get (channel_at m c) <> cpu_put (channel_at m c)) as Hne by (intros E; apply Hk; by apply ring_empty; [| |done]).
  set (next := (channel_at m c) <| gpu_get := (gpu_get (channel_at m c) + 1) mod num_gpfifo_entries (channel_at m c) |>).
  destruct (pending_get (channel_at m c) next) as (Hk' & _ & He); [lia|done..|].
  destruct (progress_step c v UVM_CHANNEL_UPDATE_MODE_COMPLETED m) as [m'|] eqn:E.
  2:{ exfalso. unfold progress_step in E. apply Z.eqb_neq in Hne. rewrite Hne in E. cbn [andb] in E.
      specialize (Hval (Z.to_nat (gpu_get (channel_at m c)))). rewrite He in Hval. specialize (Hval ltac:(by left)). apply Z.ltb_ge in Hval. by rewrite Hval in E. }
  destruct (progress_step_effect c v m m' Hc E) as (_ & Hv & El & _ & l & ent & Ech & _). exists m'. split; [done|].
  destruct (channel_progress _ _ _ _ (channel_ok_push_infos _ _ _ _ l Hch) v _ Hne ltac:(cbn; lia) Hv eq_refl) as [Hok _].
  split; [split; rewrite ?Ech; [congruence|exact Hok| |done|by rewrite (progress_step_fatal _ _ _ _ _ E)]|].
  - intros i Hi. apply Hval. rewrite He. right. exact Hi.
  - rewrite Ech. split; [done|]. exact Hk'.
Qed.

Lemma drain_loop k : forall m, drainable tokens infos v c m -> completed_value (tracking_sem (channel_at m c)) = v ->
  let m' := progress_loop k c v UVM_CHANNEL_UPDATE_MODE_COMPLETED m in
  drainable tokens infos v c m' /\ pending_count (channel_at m' c) = Z.max 0 (pending_count (channel_at m c) - Z.of_nat k).
Proof.
  induction k as [|k IH]; intros m Hd Hcomp; pose proof (pending_count_bound _ _ _ _ (dr_channel _ _ _ _ _ Hd)) as Hb; [split; [done|]; cbn [progress_loop]; lia|].
  cbn [progress_loop]. destruct (decide (pending_count (channel_at m c) = 0)) as [H0|H0].
  - assert (progress_step c v UVM_CHANNEL_UPDATE_MODE_COMPLETED m = None) as ->; [|split; [done|]; lia].
    pose proof (dr_channel _ _ _ _ _ Hd) as Hch. unfold progress_step.
    assert (gpu_get (channel_at m c) = cpu_put (channel_at m c)) as -> by (by apply (ring_empty (num_gpfifo_entries (channel_at m c))); [apply Hch..|]). by rewrite Z.eqb_refl.
  - destruct (drain_step m Hd Hcomp H0) as (m1 & -> & Hd1 & Hc1 & Hp1). destruct (IH m1 Hd1 Hc1) as [Hd2 Hp2]. split; [done|]. lia.
Qed.

Lemma drain_update m : drainable tokens infos v c m ->
  drainable tokens infos v c (uvm_channel_update_progress c m).2 /\ (uvm_channel_update_progress c m).1 = Z.max 0 (pending_count (channel_at m c) - 8) /\
  pending_count (channel_at (uvm_channel_update_progress c m).2 c) = Z.max 0 (pending_count (channel_at m c) - 8).
Proof.
  intros [Hc Hch Hval Hnot Hst]. unfold uvm_channel_update_progress, uvm_channel_update_progress_with_max, uvm_channel_update_completed_value.
  pose proof (channel_update _ _ _ _ Hch) as Hup. unfold uvm_gpu_tracking_semaphore_update_completed_value in *. rewrite (update_counts _ _ (ch_counts _ _ _ _ Hch)) in *. cbn [snd] in Hup.
  set (f := fun ch => ch <| tracking_sem := _ |>). set (m1 := on_channel c f m).
  assert (channel_at m1 c = f (channel_at m c)) as E1 by (by apply channel_at_on_channel).
  assert (drainable tokens infos v c m1) as Hd1 by (split; rewrite ?E1; [by unfold m1; rewrite on_channel_length|done..]).
  destruct (drain_loop 8 m1 Hd1 ltac:(by rewrite E1)) as [Hd2 Hp2]. rewrite E1 in Hp2. change (pending_count (f (channel_at m c))) with (pending_count (channel_at m c)) in Hp2.
  set (m2 := progress_loop 8 c v UVM_CHANNEL_UPDATE_MODE_COMPLETED m1) in *. cbn [fst snd]. change (Z.of_nat 8) with 8 in Hp2. split; [done|]. split; [|done]. rewrite <- Hp2.
  pose proof (dr_channel _ _ _ _ _ Hd2) as [Hn _ Hput Hget _ _ _ _ _ _ _ _ _]. unfold UVM_CHANNEL_NUM_GPFIFO_ENTRIES_MAX in Hn. unfold pending_count. rewrite ring_count by lia.
  destruct (Z.leb_spec (gpu_get (channel_at m2 c)) (cpu_put (channel_at m2 c))); [done|]. apply u32_small. lia.
Qed.

Lemma drain_errors m : drainable tokens infos v c m -> uvm_channel_check_errors c m = (NV_OK, m).
Proof. intros Hd. unfold uvm_channel_check_errors, uvm_channel_get_status. by rewrite (dr_notifier _ _ _ _ _ Hd). Qed.

(** Others leave the channel and the fatal error alone, whatever they do elsewhere. *)
Definition undisturbed (f : uvm_channel_manager_t -> uvm_channel_manager_t) : Prop :=
  forall m, channel_at (f m) c = channel_at m c /\ length (channels (f m)) = length (channels m) /\ fatal_error (f m) = fatal_error m.

Lemma drain_undisturbed f m : undisturbed f -> drainable tokens infos v c m -> drainable tokens infos v c (f m).
Proof. intros Hf [H1 H2 H3 H4 H5]. destruct (Hf m) as (E1 & E2 & E3). split; rewrite ?E1, ?E2, ?E3; done. Qed.

Lemma drain_wait_loop rounds : Forall undisturbed rounds -> forall m, drainable tokens infos v c m ->
  pending_count (channel_at m c) <= 8 * (Z.of_nat (length rounds) + 1) ->
  exists m', channel_wait_loop rounds NV_OK c m = Some (NV_OK, m') /\ drainable tokens infos v c m' /\ pending_count (channel_at m' c) = 0.
Proof.
  induction 1 as [|f rounds Hf Hr IH]; intros m Hd Hp; destruct (drain_update m Hd) as (Hd1 & E1 & Ep); cbn [length channel_wait_loop] in *;
    destruct (uvm_channel_update_progress c m) as [n m1]; cbn [fst snd] in *; subst n.
  - destruct (Z.ltb_spec 0 (Z.max 0 (pending_count (channel_at m c) - 8))); [lia|]. exists m1. split; [done|]. split; [done|lia].
  - destruct (Z.ltb_spec 0 (Z.max 0 (pending_count (channel_at m c) - 8))) as [Hlt|Hle]; [|exists m1; split; [done|]; split; [done|lia]].
    pose proof (drain_undisturbed f m1 Hf Hd1) as Hd2.
    rewrite (dr_status _ _ _ _ _ Hd2), (drain_errors (f m1) Hd2). apply IH; [done|]. rewrite (proj1 (Hf m1)). lia.
Qed.

End Drain.

(** C22: once the GPU has released the value of every pending entry of a channel that has
    no errors, and while the other threads do anything but touch that channel or
    raise an error, [uvm_channel_wait] returns success after at
    most one round for eight entries, and the ring is empty: all its entries but one
    are free for pushes again. *)
Theorem wait_drains nums ops s c rounds :
  Forall (fun num => 2 <= num <= UVM_CHANNEL_NUM_GPFIFO_ENTRIES_MAX) nums -> Z.of_nat (length ops) < 2 ^ 64 -> sys_run ops (sys_init nums) = Some s ->
  (c < length (channels (mgr s)))%nat -> (forall i, i ∈ pending_entries (channel_at (mgr s) c) -> tracking_semaphore_value (entry_at (channel_at (mgr s) c) i) <= released_of s c) ->
  error_notifier (channel_at (mgr s) c) = false -> fatal_error (mgr s) = NV_OK ->
  Forall (undisturbed c) rounds -> num_gpfifo_entries (channel_at (mgr s) c) <= 8 * Z.of_nat (length rounds) ->
  exists m', uvm_channel_wait rounds c (mgr s) = Some (NV_OK, m') /\ gpu_get (channel_at m' c) = cpu_put (channel_at m' c) /\
    channel_get_available_gpfifo_entries (channel_at m' c) = num_gpfifo_entries (channel_at m' c) - 1 - current_gpfifo_count (channel_at m' c).
Proof.
  intros Hnums Hlen Hrun Hc Hval Hnot Hst Hr Hk. pose proof (sys_run_ok ops 0 _ s (sys_init_ok nums Hnums) Hlen Hrun) as Hs.
  pose proof (so_channel _ _ (so_chans _ _ Hs) c Hc) as Hch. assert (drainable (reserved_of s c) (infos_of s c) (released_of s c) c (mgr s)) as Hd by done.
  destruct (drain_update _ _ _ _ _ Hd) as (Hd1 & E1 & Ep1). pose proof (pending_count_bound _ _ _ _ Hch) as Hb.
  assert (exists m', uvm_channel_wait rounds c (mgr s) = Some (NV_OK, m') /\ drainable (reserved_of s c) (infos_of s c) (released_of s c) c m' /\
    pending_count (channel_at m' c) = 0) as (m' & Hw & Hd' & H0).
  { unfold uvm_channel_wait. rewrite Hst. destruct (uvm_channel_update_progress c (mgr s)) as [n m1]. cbn [fst snd] in *. subst n.
    destruct (Z.eqb_spec (Z.max 0 (pending_count (channel_at (mgr s) c) - 8)) 0) as [E|E]; cbn [andb is_ok].
    - rewrite (drain_errors _ _ _ _ _ Hd1). exists m1. split; [done|]. split; [done|lia].
    - apply (drain_wait_loop _ _ _ _ rounds Hr m1 Hd1). lia. }
  exists m'. split; [done|]. pose proof (dr_channel _ _ _ _ _ Hd') as Hch'. rewrite (available_exact _ _ _ _ Hch'), H0. split; [|lia].
  apply (ring_empty (num_gpfifo_entries (channel_at m' c))); [apply Hch'..|exact H0].
Qed.

(** ** Runs *)

(** Two channels.  The push 7 is submitted on the first and completed; the push 8, after
    a control entry, is submitted on the second and not completed; the push 9 is on-going and a
    thread waits for a chunk. *)
Definition example_ops : list sys_op :=
  [Reserve 0 1; TakeSema; Claim 7 0; SetCallback 7 42; EndPush 7 10; GpuCompletes 0; UpdateCompleted 0;
   Reserve 1 2; WriteControl 1 5; TakeSema; Claim 8 1; EndPush 8 100; Reserve 1 1; TakeSema; Claim 9 1; TakeSema].

Definition example_sys (ops : list sys_op) : sys_t := default (sys_init []) (sys_run ops (sys_init [4; 8])).

Lemma example_run : sys_run example_ops (sys_init [4; 8]) = Some (example_sys example_ops) /\ waiting (example_sys example_ops) = 1.
Proof. split; vm_compute; reflexivity. Qed.

Lemma push_memory_safe_witness : live (example_sys example_ops) (inl (1%nat, 1)) (1048576, 1048976) /\ (1048976 <= 2097152 \/ 2228224 <= 1048576).
Proof.
  assert (live (example_sys example_ops) (inl (1%nat, 1)) (1048576, 1048976)) as H1
    by (constructor; vm_compute; [left|reflexivity]).
  assert (live (example_sys example_ops) (inr 9%nat) (2097152, 2228224)) as H2
    by (apply (live_ongoing _ 9 (mk_push 1 2097152 0 1 0)); vm_compute; left).
  split; [done|]. apply (push_memory_safe [4; 8] example_ops (example_sys example_ops) (inl (1%nat, 1)) (1048576, 1048976)) with (u' := inr 9%nat) (r' := (2097152, 2228224)).
  - repeat constructor; vm_compute; discriminate.
  - vm_compute. reflexivity.
  - vm_compute. reflexivity.
  - done.
  - done.
  - discriminate.
Defined.

(** All chunks are taken by pushes of 128 KiB of which none is completed: a thread that has
    the semaphore is blocked, and there are pending pushes. *)
Definition fill_ops : list sys_op :=
  mjoin ((fun p => [Reserve 0 1; TakeSema; Claim p 0; EndPush p 32768]) <$> seq 0 128) ++ [TakeSema].

Definition full_sys : sys_t := default (sys_init []) (sys_run fill_ops (sys_init [256])).

Lemma blocked_only_by_pending_witness : exists c, (c < length (channels (mgr full_sys)))%nat /\ pending_pushes (channel_at (mgr full_sys) c) <> [].
Proof.
  destruct (blocked_only_by_pending [256] fill_ops full_sys) as [H|[H _]].
  - repeat constructor; vm_compute; discriminate.
  - vm_compute. reflexivity.
  - vm_compute. reflexivity.
  - vm_compute. reflexivity.
  - vm_compute. reflexivity.
  - exact H.
  - exfalso. apply H. vm_compute. reflexivity.
Defined.

(** A thread that waits gets its chunk after an error was noted: the begin fails and the
    chunk is lost. *)
Lemma error_leaks_chunk :
  (fun s => (leaked s, waiting s, concurrent_pushes_sema (pushbuffer (mgr s)), fatal_error (mgr s))) <$>
    sys_run [TakeSema; RaiseError 0; SetFatal 0; FailClaim 5] (sys_init [4; 8]) =
  Some ([5%nat], 0, 16, NV_ERR_RC_ERROR).
Proof. vm_compute. reflexivity. Qed.

(** The push of the first channel is completed: the wait returns, the completion
    procedure was called once, and the ring is empty.  Meanwhile another thread gives up its place of the semaphore. *)
Lemma wait_drains_witness : exists m', uvm_channel_wait [w_sema Z.succ] 0 (mgr (example_sys example_ops)) = Some (NV_OK, m') /\ gpu_get (channel_at m' 0) = cpu_put (channel_at m' 0) /\
  channel_get_available_gpfifo_entries (channel_at m' 0) = num_gpfifo_entries (channel_at m' 0) - 1 - current_gpfifo_count (channel_at m' 0).
Proof.
  apply (wait_drains [4; 8] example_ops (example_sys example_ops) 0 [w_sema Z.succ]).
  - repeat constructor; vm_compute; discriminate.
  - vm_compute. reflexivity.
  - vm_compute. reflexivity.
  - vm_compute. lia.
  - intros i Hi. assert (pending_entries (channel_at (mgr (example_sys example_ops)) 0) = [0%nat]) as E by (vm_compute; reflexivity). rewrite E in Hi.
    apply list_elem_of_singleton in Hi as ->. vm_compute. discriminate.
  - vm_compute. reflexivity.
  - vm_compute. reflexivity.
  - constructor; [|constructor]. intros m. split; [reflexivity|]. split; reflexivity.
  - vm_compute. discriminate.
Defined.

Lemma wait_calls_back : (fun r => (r.1, completions r.2)) <$> uvm_channel_wait [] 0 (mgr (example_sys example_ops)) = Some (NV_OK, [42]).
Proof. vm_compute. reflexivity. Qed.

(** [uvm_channel_reserve] checks for errors, lets the channel progress and then tries
    again whatever the check said: when the error and the free entry come in the same
    round it returns the error and keeps the entry it has claimed. *)
Definition error_and_completion (m : uvm_channel_manager_t) : uvm_channel_manager_t :=
  on_channel 0 (fun ch => ch <| error_notifier := true |>) (gpu_completes 0 1 m).

Definition full_channel : uvm_channel_manager_t :=
  mgr (default (sys_init []) (sys_run [Reserve 0 1; TakeSema; Claim 1 0; EndPush 1 10] (sys_init [2]))).

Lemma failed_reserve_keeps_entry :
  (fun r => (r.1, current_gpfifo_count (channel_at r.2 0))) <$> uvm_channel_reserve [error_and_completion] 0 1 full_channel = Some (NV_ERR_RC_ERROR, 1) /\
  current_gpfifo_count (channel_at full_channel 0) = 0.
Proof. split; vm_compute; reflexivity. Qed.
