(* ===== verification/Tracker.v ===== *)
(** * Trackers

    The trackers of src/backLib/kernel-open/nvidia-uvm/uvm_tracker.c and uvm_tracker.h:
    sets of pushes that have to be completed, each named by its channel and its
    tracking value, and what uvm_push.c does with them.  The channels, the global
    error and the allocator are an interface, [TrackerWorld]; [ChannelWorld] gives the
    channels of [GpuChannel] that interface. *)

From stdpp Require Import gmap sorting.
From S2P Require Import Prelude Semaphore Pushbuffer GpuChannel.

Local Open Scope Z_scope.

(** ** Data *)

Record uvm_tracker_entry_t : Type := mk_entry {
  entry_channel : option nat;
  entry_value : Z;
}.

#[export] Instance tracker_entry_eq_dec : EqDecision uvm_tracker_entry_t.
Proof. solve_decision. Defined.

(** The entries in use; the array has room for [max_size].  Entries behind those in use
    are not read. *)
Record uvm_tracker_t : Type := mk_tracker {
  entries : list uvm_tracker_entry_t;
  max_size : Z;
}.

#[export] Instance tracker_eta : Eta uvm_tracker_t := fun t => mk_tracker (entries t) (max_size t).

Definition tracker_size (t : uvm_tracker_t) : Z := Z.of_nat (length (entries t)).

(** [uvm_tracker_init]: room for the one entry in the tracker itself. *)
Definition uvm_tracker_init : uvm_tracker_t := mk_tracker [] 1.

(** [uvm_tracker_deinit] *)
Definition uvm_tracker_deinit (t : uvm_tracker_t) : uvm_tracker_t := mk_tracker [] 0.

Definition uvm_tracker_clear (t : uvm_tracker_t) : uvm_tracker_t := t <| entries := [] |>.

Definition uvm_tracker_is_empty (t : uvm_tracker_t) : bool := tracker_size t =? 0.

(** What trackers use of the driver: whether a channel has completed a value, the
    check for errors of a channel, the global error, and whether an allocation
    succeeds. *)
Class TrackerWorld (W : Type) : Type := {
  tw_is_value_completed : nat -> Z -> W -> bool * W;
  tw_check_errors : nat -> W -> NV_STATUS * W;
  tw_get_status : W -> NV_STATUS;
  tw_kvmalloc : W -> bool * W;
}.

Section Operations.
Context {W : Type} `{TrackerWorld W}.

(** ** Adding entries *)

Definition uvm_tracker_reserve (min_free_entries : Z) (t : uvm_tracker_t) (w : W) : NV_STATUS * (uvm_tracker_t * W) :=
  let needed := u32 (tracker_size t + min_free_entries) in
  if max_size t <? needed then
    let new_max_size := Z.max 8 (u32 (roundup_pow_of_two needed)) in
    let '(allocated, w) := tw_kvmalloc w in
    if allocated then (NV_OK, (t <| max_size := new_max_size |>, w)) else (NV_ERR_NO_MEMORY, (t, w))
  else (NV_OK, (t, w)).

(** [uvm_tracker_add_entry]; [get_new_entry] is the reservation of one entry. *)
Definition uvm_tracker_add_entry (new_entry : uvm_tracker_entry_t) (t : uvm_tracker_t) (w : W) : NV_STATUS * (uvm_tracker_t * W) :=
  match list_find (fun e => entry_channel e = entry_channel new_entry) (entries t) with
  | Some (i, e) => (NV_OK, (t <| entries ::= <[i := mk_entry (entry_channel e) (Z.max (entry_value e) (entry_value new_entry))]> |>, w))
  | None =>
      let '(status, (t, w)) := uvm_tracker_reserve 1 t w in
      if is_ok status then (NV_OK, (t <| entries ::= (fun l => l ++ [new_entry]) |>, w)) else (NV_ERR_NO_MEMORY, (t, w))
  end.

Definition uvm_tracker_overwrite (src dst : uvm_tracker_t) (w : W) : NV_STATUS * (uvm_tracker_t * W) :=
  let dst := uvm_tracker_clear dst in
  let '(status, (dst, w)) := uvm_tracker_reserve (tracker_size src) dst w in
  if is_ok status then (NV_OK, (dst <| entries := entries src |>, w)) else (status, (dst, w)).

Definition uvm_tracker_init_from (src : uvm_tracker_t) (w : W) : NV_STATUS * (uvm_tracker_t * W) :=
  let '(status, (dst, w)) := uvm_tracker_overwrite src uvm_tracker_init w in
  if is_ok status then (NV_OK, (dst, w)) else (status, (uvm_tracker_init, w)).

Definition uvm_tracker_overwrite_with_entry (e : uvm_tracker_entry_t) (t : uvm_tracker_t) (w : W) : uvm_tracker_t * W :=
  (uvm_tracker_add_entry e (uvm_tracker_clear t) w).2.

(** ** Completed entries *)

Definition uvm_tracker_is_entry_completed (e : uvm_tracker_entry_t) (w : W) : bool * W :=
  match entry_channel e with
  | None => (true, w)
  | Some c => tw_is_value_completed c (entry_value e) w
  end.

(** The loop of [uvm_tracker_remove_completed] at the index [i]; a completed entry is
    replaced by the last one.  Each round shortens what is left by one. *)
Fixpoint remove_loop (fuel : nat) (i : nat) (l : list uvm_tracker_entry_t) (w : W) : list uvm_tracker_entry_t * W :=
  match fuel, l !! i with
  | S fuel, Some e =>
      let '(completed, w) := uvm_tracker_is_entry_completed e w in
      if completed then
        let size := pred (length l) in
        let l' := if (i =? size)%nat then l else match l !! size with Some x => <[i := x]> l | None => l end in
        remove_loop fuel i (take size l') w
      else remove_loop fuel (S i) l w
  | _, _ => (l, w)
  end.

Definition uvm_tracker_remove_completed (t : uvm_tracker_t) (w : W) : uvm_tracker_t * W :=
  let '(l, w) := remove_loop (length (entries t)) 0 (entries t) w in (t <| entries := l |>, w).

Definition uvm_tracker_is_completed (t : uvm_tracker_t) (w : W) : bool * (uvm_tracker_t * W) :=
  let '(t, w) := uvm_tracker_remove_completed t w in (tracker_size t =? 0, (t, w)).

(** ** Adding trackers *)

(** [reserve_for_entries_from_tracker]: room for the channels that are not there yet. *)
Definition needed_free_entries (src dst : uvm_tracker_t) : Z :=
  Z.of_nat (length (filter (fun e => entry_channel e ∉ (entry_channel <$> entries dst)) (entries src))).

Definition reserve_for_entries_from_tracker (src dst : uvm_tracker_t) (w : W) : NV_STATUS * (uvm_tracker_t * W) :=
  uvm_tracker_reserve (needed_free_entries src dst) dst w.

(** The entries one after the other; that each is added is asserted. *)
Fixpoint add_entries (l : list uvm_tracker_entry_t) (dst : uvm_tracker_t) (w : W) : uvm_tracker_t * W :=
  match l with
  | [] => (dst, w)
  | e :: l => let '(_, (dst, w)) := uvm_tracker_add_entry e dst w in add_entries l dst w
  end.

(** [uvm_tracker_add_tracker] of two different trackers: it may also remove entries of
    the source.  A tracker is added to itself by doing nothing. *)
Definition uvm_tracker_add_tracker (src dst : uvm_tracker_t) (w : W) : NV_STATUS * ((uvm_tracker_t * uvm_tracker_t) * W) :=
  let '(status, (dst, w)) := uvm_tracker_reserve (tracker_size src) dst w in
  let '(status, (src, dst), w) :=
    if bool_decide (status = NV_ERR_NO_MEMORY) then
      let '(dst, w) := uvm_tracker_remove_completed dst w in
      let '(src, w) := uvm_tracker_remove_completed src w in
      let '(status, (dst, w)) := reserve_for_entries_from_tracker src dst w in
      (status, (src, dst), w)
    else (status, (src, dst), w) in
  if is_ok status then let '(dst, w) := add_entries (entries src) dst w in (NV_OK, ((src, dst), w))
  else (status, ((src, dst), w)).

(** ** Errors and waiting *)

(** [uvm_tracker_check_errors], of entries that have a channel. *)
Definition uvm_tracker_check_errors (t : uvm_tracker_t) (w : W) : NV_STATUS * W :=
  if negb (is_ok (tw_get_status w)) then (tw_get_status w, w)
  else for_status (entries t) (fun e w => match entry_channel e with Some c => tw_check_errors c w | None => (NV_OK, w) end) w.

Definition uvm_tracker_query (t : uvm_tracker_t) (w : W) : NV_STATUS * (uvm_tracker_t * W) :=
  let '(completed, (t, w)) := uvm_tracker_is_completed t w in
  let '(status, w) := uvm_tracker_check_errors t w in
  if negb (is_ok status) then (status, (t, w))
  else (if completed then NV_OK else NV_WARN_MORE_PROCESSING_REQUIRED, (t, w)).

(** [wait_for_entry_with_spin]: a round is what the GPU and the other threads do in the
    spin; [None] is a thread that still spins when the rounds run out.  The rounds
    that are left are returned. *)
Fixpoint entry_wait_loop (rounds : list (W -> W)) (status : NV_STATUS) (e : uvm_tracker_entry_t) (w : W) : option (NV_STATUS * (list (W -> W) * W)) :=
  let '(completed, w) := uvm_tracker_is_entry_completed e w in
  if negb completed && is_ok status then
    match rounds with
    | [] => None
    | spin :: rounds =>
        let '(status, w) := match entry_channel e with Some c => tw_check_errors c (spin w) | None => (NV_OK, spin w) end in
        entry_wait_loop rounds (if is_ok status then tw_get_status w else status) e w
    end
  else Some (status, (rounds, w)).

Definition wait_for_entry_with_spin (rounds : list (W -> W)) (e : uvm_tracker_entry_t) (w : W)
    : option (NV_STATUS * uvm_tracker_entry_t * (list (W -> W) * W)) :=
  '(status, r) ← entry_wait_loop rounds NV_OK e w;
  Some (if is_ok status then (status, e, r) else (status, mk_entry None 0, r)).

Definition uvm_tracker_wait_for_entry (rounds : list (W -> W)) (e : uvm_tracker_entry_t) (w : W) : option (NV_STATUS * (uvm_tracker_entry_t * W)) :=
  '(status, e, (_, w)) ← wait_for_entry_with_spin rounds e w; Some (status, (e, w)).

(** The loop of [uvm_tracker_wait]. *)
Fixpoint tracker_wait_loop (rounds : list (W -> W)) (status : NV_STATUS) (t : uvm_tracker_t) (w : W) : option (NV_STATUS * (uvm_tracker_t * W)) :=
  let '(completed, (t, w)) := uvm_tracker_is_completed t w in
  if negb completed && is_ok status then
    match rounds with
    | [] => None
    | spin :: rounds => let '(status, w) := uvm_tracker_check_errors t (spin w) in tracker_wait_loop rounds status t w
    end
  else Some (status, (t, w)).

Definition uvm_tracker_wait (rounds : list (W -> W)) (t : uvm_tracker_t) (w : W) : option (NV_STATUS * (uvm_tracker_t * W)) :=
  '(status, (t, w)) ← tracker_wait_loop rounds NV_OK t w;
  Some (status, (if is_ok status then t else uvm_tracker_clear t, w)).

(** [uvm_tracker_wait_for_other_gpus]; [gpu_of] is [uvm_tracker_entry_gpu]. *)
Fixpoint wait_for_entries (rounds : list (W -> W)) (gpu_of : uvm_tracker_entry_t -> nat) (gpu : nat) (l : list uvm_tracker_entry_t) (w : W)
    : option (NV_STATUS * W) :=
  match l with
  | [] => Some (NV_OK, w)
  | e :: l =>
      if (gpu_of e =? gpu)%nat then wait_for_entries rounds gpu_of gpu l w
      else '(status, _, (rounds, w)) ← wait_for_entry_with_spin rounds e w;
           if is_ok status then wait_for_entries rounds gpu_of gpu l w else Some (status, w)
  end.

Definition uvm_tracker_wait_for_other_gpus (rounds : list (W -> W)) (gpu_of : uvm_tracker_entry_t -> nat) (gpu : nat) (t : uvm_tracker_t) (w : W)
    : option (NV_STATUS * (uvm_tracker_t * W)) :=
  '(status, w) ← wait_for_entries rounds gpu_of gpu (entries t) w;
  Some (status, if is_ok status then uvm_tracker_remove_completed t w else (uvm_tracker_clear t, w)).

Definition uvm_tracker_wait_deinit (rounds : list (W -> W)) (t : uvm_tracker_t) (w : W) : option (NV_STATUS * (uvm_tracker_t * W)) :=
  '(status, (t, w)) ← uvm_tracker_wait rounds t w; Some (status, (uvm_tracker_deinit t, w)).

(** ** Waiting when there is no memory *)

Definition uvm_tracker_overwrite_safe (rounds : list (W -> W)) (src dst : uvm_tracker_t) (w : W) : option (NV_STATUS * ((uvm_tracker_t * uvm_tracker_t) * W)) :=
  let '(status, (dst, w)) := uvm_tracker_overwrite src dst w in
  if bool_decide (status = NV_ERR_NO_MEMORY) then '(status, (src, w)) ← uvm_tracker_wait rounds src w; Some (status, ((src, dst), w))
  else Some (status, ((src, dst), w)).

(** The entry may be replaced by one that is completed. *)
Definition uvm_tracker_add_entry_safe (rounds : list (W -> W)) (e : uvm_tracker_entry_t) (t : uvm_tracker_t) (w : W)
    : option (NV_STATUS * ((uvm_tracker_entry_t * uvm_tracker_t) * W)) :=
  let '(status, (t, w)) := uvm_tracker_add_entry e t w in
  if bool_decide (status = NV_ERR_NO_MEMORY) then '(status, (e, w)) ← uvm_tracker_wait_for_entry rounds e w; Some (status, ((e, t), w))
  else Some (status, ((e, t), w)).

Definition uvm_tracker_add_tracker_safe (rounds : list (W -> W)) (src dst : uvm_tracker_t) (w : W) : option (NV_STATUS * ((uvm_tracker_t * uvm_tracker_t) * W)) :=
  let '(status, ((src, dst), w)) := uvm_tracker_add_tracker src dst w in
  if bool_decide (status = NV_ERR_NO_MEMORY) then '(status, (src, w)) ← uvm_tracker_wait rounds src w; Some (status, ((src, dst), w))
  else Some (status, ((src, dst), w)).

(** ** Pushes *)

(** [push_acquire_tracker_entry]: the channel and the 32-bit value that the push
    acquires, if it has to. *)
Definition push_acquire_tracker_entry (channel : nat) (e : uvm_tracker_entry_t) : option (nat * Z) :=
  match entry_channel e with
  | None => None
  | Some c => if (channel =? c)%nat then None else Some (c, u32 (entry_value e))
  end.

(** [uvm_push_acquire_tracker] of a push on [channel]: the semaphores it acquires. *)
Definition uvm_push_acquire_tracker (channel : nat) (tracker : option uvm_tracker_t) (w : W) : list (nat * Z) * (option uvm_tracker_t * W) :=
  match tracker with
  | None => ([], (None, w))
  | Some t => let '(t, w) := uvm_tracker_remove_completed t w in (omap (push_acquire_tracker_entry channel) (entries t), (Some t, w))
  end.

(** [uvm_push_get_tracker_entry], of a push that has ended. *)
Definition uvm_push_get_tracker_entry (push : uvm_push_t) : uvm_tracker_entry_t := mk_entry (Some (push_channel push)) (channel_tracking_value push).

Definition uvm_push_wait (rounds : list (W -> W)) (push : uvm_push_t) (w : W) : option (NV_STATUS * W) :=
  '(status, (_, w)) ← uvm_tracker_wait_for_entry rounds (uvm_push_get_tracker_entry push) w; Some (status, w).

Definition uvm_tracker_add_push (push : uvm_push_t) (t : uvm_tracker_t) (w : W) : NV_STATUS * (uvm_tracker_t * W) :=
  uvm_tracker_add_entry (uvm_push_get_tracker_entry push) t w.

Definition uvm_tracker_overwrite_with_push (push : uvm_push_t) (t : uvm_tracker_t) (w : W) : uvm_tracker_t * W :=
  uvm_tracker_overwrite_with_entry (uvm_push_get_tracker_entry push) t w.

Definition uvm_tracker_add_push_safe (rounds : list (W -> W)) (push : uvm_push_t) (t : uvm_tracker_t) (w : W) : option (NV_STATUS * (uvm_tracker_t * W)) :=
  let '(status, (t, w)) := uvm_tracker_add_push push t w in
  if bool_decide (status = NV_ERR_NO_MEMORY) then '(status, w) ← uvm_push_wait rounds push w; Some (status, (t, w))
  else Some (status, (t, w)).

End Operations.

(** ** What trackers rely on *)

(** [tw_done w c v]: the GPU has released the value [v] on the channel [c].  It stays
    released, and a channel answers whether it is.  [tw_ok] is what the driver keeps. *)
Class TrackerWorldLaws (W : Type) `{TrackerWorld W} : Type := {
  tw_ok : W -> Prop;
  tw_done : W -> nat -> Z -> Prop;
  tw_done_le : forall w c v v', tw_done w c v' -> v <= v' -> tw_done w c v;
  tw_completed_iff : forall w c v, tw_ok w -> (tw_is_value_completed c v w).1 = true <-> tw_done w c v;
  tw_completed_keeps : forall w c v, tw_ok w ->
    tw_ok (tw_is_value_completed c v w).2 /\ forall c' v', tw_done (tw_is_value_completed c v w).2 c' v' <-> tw_done w c' v';
  tw_errors_keeps : forall w c, tw_ok w -> tw_ok (tw_check_errors c w).2 /\ forall c' v', tw_done w c' v' -> tw_done (tw_check_errors c w).2 c' v';
  tw_kvmalloc_keeps : forall w, tw_ok w -> tw_ok (tw_kvmalloc w).2 /\ forall c' v', tw_done w c' v' -> tw_done (tw_kvmalloc w).2 c' v';
}.

(** The last entry takes the place of the one that is removed. *)
Lemma swap_remove {A} (l : list A) i e : l !! i = Some e ->
  let size := pred (length l) in
  let l' := take size (if (i =? size)%nat then l else match l !! size with Some x => <[i := x]> l | None => l end) in
  l ≡ₚ e :: l' /\ take i l' = take i l /\ length l' = size.
Proof.
  intros Hi. destruct l as [|x l _] using rev_ind; [by rewrite lookup_nil in Hi|]. cbv zeta. rewrite length_app. cbn [length].
  replace (pred (length l + 1)) with (length l) by lia. destruct (Nat.eqb_spec i (length l)) as [->|Hne].
  - rewrite lookup_app_r, Nat.sub_diag in Hi by lia. injection Hi as ->. rewrite take_app_length. split; [by rewrite Permutation_app_comm|].
    split; [|done]. by rewrite firstn_all.
  - assert (i < length l)%nat as Hlt by (apply lookup_lt_Some in Hi; rewrite length_app in Hi; cbn [length] in Hi; lia).
    rewrite lookup_app_l in Hi by done. rewrite (lookup_app_r l [x] (length l)), Nat.sub_diag by lia. cbn [lookup list_lookup].
    rewrite insert_app_l by done. rewrite take_app_length' by (by rewrite length_insert). split; [|split].
    + rewrite (insert_take_drop l i x) by done. rewrite <- (take_drop_middle l i e Hi) at 1. rewrite (Permutation_app_comm _ [x]). cbn [app].
      rewrite <- !Permutation_middle. apply perm_swap.
    + rewrite take_insert_ge by lia. by rewrite take_app_le by lia.
    + apply length_insert.
Qed.

Section Laws.
Context {W : Type} `{TrackerWorldLaws W}.

Definition entry_done (w : W) (e : uvm_tracker_entry_t) : Prop := match entry_channel e with None => True | Some c => tw_done w c (entry_value e) end.

(** The driver goes on: what is released stays released. *)
Definition evolves (w w' : W) : Prop := tw_ok w' /\ forall c v, tw_done w c v -> tw_done w' c v.

Lemma evolves_refl w : tw_ok w -> evolves w w.
Proof. by split. Qed.

Lemma evolves_trans w1 w2 w3 : evolves w1 w2 -> evolves w2 w3 -> evolves w1 w3.
Proof. intros [H1 H2] [H3 H4]. split; [done|]. intros c v Hd. by apply H4, H2. Qed.

Lemma evolves_entry w w' e : evolves w w' -> entry_done w e -> entry_done w' e.
Proof. intros [_ Hd]. unfold entry_done. destruct (entry_channel e); [apply Hd|done]. Qed.

Lemma entry_completed_spec e w : tw_ok w ->
  ((uvm_tracker_is_entry_completed e w).1 = true <-> entry_done w e) /\
  tw_ok (uvm_tracker_is_entry_completed e w).2 /\ forall c v, tw_done (uvm_tracker_is_entry_completed e w).2 c v <-> tw_done w c v.
Proof.
  intros Hw. unfold uvm_tracker_is_entry_completed, entry_done. destruct (entry_channel e) as [c|]; [|done].
  split; [by apply tw_completed_iff|by apply tw_completed_keeps].
Qed.

Lemma entry_done_iff w w' e : (forall c v, tw_done w' c v <-> tw_done w c v) -> entry_done w' e <-> entry_done w e.
Proof. intros Hd. unfold entry_done. by destruct (entry_channel e). Qed.

Lemma done_forall w w' l : (forall c v, tw_done w' c v <-> tw_done w c v) ->
  (Forall (entry_done w') l <-> Forall (entry_done w) l) /\ (Forall (fun e => ~ entry_done w' e) l <-> Forall (fun e => ~ entry_done w e) l).
Proof. intros Hd. split; apply Forall_iff; intros e; by rewrite (entry_done_iff w w' e Hd). Qed.

(** The loop removes the completed entries behind [i] and nothing else. *)
Lemma remove_loop_spec fuel : forall i l w, tw_ok w -> (length l - i <= fuel)%nat ->
  let '(l', w') := remove_loop fuel i l w in
  tw_ok w' /\ (forall c v, tw_done w' c v <-> tw_done w c v) /\ take i l' = take i l /\
  (exists removed, l ≡ₚ l' ++ removed /\ Forall (entry_done w) removed) /\ Forall (fun e => ~ entry_done w e) (drop i l').
Proof.
  induction fuel as [|fuel IH]; intros i l w Hw Hf; cbn [remove_loop].
  { split_and!; try done; [exists []; by rewrite app_nil_r|]. by rewrite drop_ge by lia. }
  destruct (l !! i) as [e|] eqn:Hi.
  2:{ apply lookup_ge_None in Hi. split_and!; try done; [exists []; by rewrite app_nil_r|]. by rewrite drop_ge by lia. }
  pose proof (lookup_lt_Some _ _ _ Hi) as Hlt. destruct (entry_completed_spec e w Hw) as (Hiff & Hw1 & Hd1).
  destruct (uvm_tracker_is_entry_completed e w) as [[] w1]; cbn [fst snd] in *.
  - destruct (swap_remove l i e Hi) as (Hp & Ht & Hlen). set (l1 := take _ _) in *. specialize (IH i l1 w1 Hw1 ltac:(rewrite Hlen; lia)).
    destruct (remove_loop fuel i l1 w1) as [l' w']. destruct IH as (I1 & I2 & I3 & (removed & I4 & I5) & I6). split; [done|].
    split; [intros c v; by rewrite I2, Hd1|]. split; [by rewrite I3|]. split.
    + exists (e :: removed). split; [rewrite Hp, I4; by rewrite Permutation_middle|]. constructor; [by apply Hiff|by apply (done_forall w w1)].
    + by apply (done_forall w w1).
  - specialize (IH (S i) l w1 Hw1 ltac:(lia)). destruct (remove_loop fuel (S i) l w1) as [l' w']. destruct IH as (I1 & I2 & I3 & (removed & I4 & I5) & I6).
    assert (l' !! i = Some e) as Hi' by (rewrite <- (lookup_take_lt l' (S i) i), I3, lookup_take_lt by lia; done).
    split; [done|]. split; [intros c v; by rewrite I2, Hd1|]. split.
    { rewrite <- (Nat.min_l i (S i)) by lia. by rewrite <- !take_take, I3. }
    split; [exists removed; split; [done|by apply (done_forall w w1)]|].
    rewrite (drop_S _ _ _ Hi'). constructor; [by rewrite <- Hiff|by apply (done_forall w w1)].
Qed.

Lemma remove_completed_spec t w : tw_ok w ->
  let '(t', w') := uvm_tracker_remove_completed t w in
  evolves w w' /\ max_size t' = max_size t /\ (exists removed, entries t ≡ₚ entries t' ++ removed /\ Forall (entry_done w') removed) /\
  Forall (fun e => ~ entry_done w' e) (entries t').
Proof.
  intros Hw. unfold uvm_tracker_remove_completed. pose proof (remove_loop_spec (length (entries t)) 0 (entries t) w Hw ltac:(lia)) as Hl.
  destruct (remove_loop _ 0 _ w) as [l' w']. destruct Hl as (H1 & H2 & _ & (removed & H3 & H4) & H5). rewrite drop_0 in H5.
  split; [split; [done|]; intros c v; by rewrite H2|]. split; [done|]. split.
  - exists removed. split; [done|by apply (done_forall w w')].
  - by apply (done_forall w w').
Qed.

(** ** Well-formed trackers *)

Definition tracker_channels (t : uvm_tracker_t) : list (option nat) := entry_channel <$> entries t.

(** The entries fit and are for different channels. *)
Record tracker_ok (t : uvm_tracker_t) : Prop := {
  tr_room : 1 <= max_size t;
  tr_size : tracker_size t <= max_size t;
  tr_channels : NoDup (tracker_channels t);
}.

Lemma clear_ok t : tracker_ok t -> tracker_ok (uvm_tracker_clear t).
Proof. intros [Hr Hs Hn]. split; [done| |apply NoDup_nil_2]. change (0 <= max_size t). lia. Qed.

(** The pushes a tracker stands for: one that is released needs no entry. *)
Definition covers (t : uvm_tracker_t) (w : W) (c : nat) (v : Z) : Prop :=
  tw_done w c v \/ exists v', mk_entry (Some c) v' ∈ entries t /\ v <= v'.

Lemma covers_evolves t w w' c v : evolves w w' -> covers t w c v -> covers t w' c v.
Proof. intros [_ Hd] [Hc|Hc]; [left; by apply Hd|by right]. Qed.

Lemma covers_entries t t' w c v : entries t' = entries t -> covers t w c v -> covers t' w c v.
Proof. unfold covers. by intros ->. Qed.

Lemma remove_completed_covers t w : tw_ok w -> tracker_ok t ->
  let '(t', w') := uvm_tracker_remove_completed t w in
  evolves w w' /\ tracker_ok t' /\ max_size t' = max_size t /\ tracker_size t' <= tracker_size t /\ (forall c v, covers t w c v -> covers t' w' c v).
Proof.
  intros Hw [Hr Hs Hn]. pose proof (remove_completed_spec t w Hw) as Hrem. destruct (uvm_tracker_remove_completed t w) as [t' w'].
  destruct Hrem as (Hev & Hm & (removed & Hp & Hd) & _). unfold tracker_size, tracker_channels in *.
  assert (length (entries t) = length (entries t') + length removed)%nat as Hlen by (by rewrite (Permutation_length Hp), length_app).
  split; [done|]. split; [split|split; [done|split; [lia|]]].
  - lia.
  - unfold tracker_size. lia.
  - unfold tracker_channels. rewrite Hp, fmap_app in Hn. by apply NoDup_app in Hn as [Hn _].
  - intros c v [Hc|(v' & Hin & Hv)]; [left; by apply Hev|]. rewrite Hp in Hin. apply elem_of_app in Hin as [Hin|Hin]; [right; by exists v'|].
    left. rewrite Forall_forall in Hd. specialize (Hd _ Hin). cbn in Hd. by apply (tw_done_le _ _ _ v').
Qed.

Lemma reserve_spec n t w : tw_ok w -> 0 <= n -> tracker_size t + n <= 2 ^ 31 ->
  let '(st, (t', w')) := uvm_tracker_reserve n t w in
  evolves w w' /\ entries t' = entries t /\
  ((st = NV_OK /\ tracker_size t + n <= max_size t' /\ max_size t <= max_size t') \/ (st = NV_ERR_NO_MEMORY /\ t' = t)) /\
  (tracker_size t + n <= max_size t -> st = NV_OK /\ t' = t).
Proof.
  intros Hw Hn Hs. assert (0 <= tracker_size t) as Hpos by (unfold tracker_size; lia). unfold uvm_tracker_reserve. rewrite (u32_small (tracker_size t + n)) by lia.
  destruct (Z.ltb_spec (max_size t) (tracker_size t + n)) as [Hlt|Hle].
  - destruct (tw_kvmalloc_keeps w Hw) as [H1 H2]. destruct (tw_kvmalloc w) as [[] w']; cbn [fst snd] in *; split_and!; try done; try (by split); try lia; [left|by right].
    split; [done|]. cbn [max_size upd]. destruct (decide (tracker_size t + n <= 8)); [lia|].
    assert (tracker_size t + n <= roundup_pow_of_two (tracker_size t + n) <= 2 ^ 31) as Hr.
    { unfold roundup_pow_of_two. destruct (Z.leb_spec (tracker_size t + n) 1); [lia|]. split; [apply Z.log2_up_spec; lia|].
      apply Z.pow_le_mono_r; [lia|]. rewrite <- (Z.log2_up_pow2 31) by lia. by apply Z.log2_up_le_mono. }
    rewrite u32_small by lia. lia.
  - split_and!; try done; left; split_and!; (done || lia).
Qed.

Lemma add_entry_spec e t w : tw_ok w -> tracker_ok t -> tracker_size t + 1 <= 2 ^ 31 ->
  let '(st, (t', w')) := uvm_tracker_add_entry e t w in
  evolves w w' /\ tracker_ok t' /\ (forall c v, covers t w c v -> covers t' w' c v) /\
  ((st = NV_OK /\ (forall c, entry_channel e = Some c -> covers t' w' c (entry_value e)) /\
    tracker_channels t' = tracker_channels t ++ (if decide (entry_channel e ∈ tracker_channels t) then [] else [entry_channel e])) \/ (st = NV_ERR_NO_MEMORY /\ t' = t)) /\
  ((entry_channel e ∈ tracker_channels t) \/ tracker_size t < max_size t -> st = NV_OK /\ max_size t' = max_size t).
Proof.
  intros Hw [Hr Hs Hn] Hmax. unfold uvm_tracker_add_entry. destruct (list_find _ (entries t)) as [[i x]|] eqn:Hf.
  - apply list_find_Some in Hf as (Hi & Hx & _). set (x' := mk_entry (entry_channel x) _). set (t' := t <| entries ::= <[i := x']> |>).
    pose proof (lookup_lt_Some _ _ _ Hi) as Hlt.
    assert (x' ∈ entries t') as Hx' by (apply (list_elem_of_lookup_2 _ i); by apply list_lookup_insert_eq).
    assert (tracker_channels t' = tracker_channels t) as Ec.
    { unfold tracker_channels. cbn [entries upd t']. rewrite list_fmap_insert. apply list_insert_id. by rewrite list_lookup_fmap, Hi. }
    assert (entry_channel e ∈ tracker_channels t) as Hin by (rewrite <- Hx; apply list_elem_of_fmap; exists x; split; [done|by eapply list_elem_of_lookup_2]).
    split; [by apply evolves_refl|]. split; [split; [done|unfold tracker_size; cbn [entries max_size upd t']; by rewrite length_insert|by rewrite Ec]|]. split; [|split; [left|done]].
    + intros c v [Hc|(v' & [j Hj]%list_elem_of_lookup & Hv)]; [by left|right]. destruct (decide (j = i)) as [->|Hji].
      * exists (entry_value x'). rewrite Hi in Hj. injection Hj as ->. split; [exact Hx'|]. cbn [x' entry_value]. lia.
      * exists v'. split; [|done]. apply (list_elem_of_lookup_2 _ j). cbn [entries upd t']. by rewrite list_lookup_insert_ne.
    + split; [done|]. split; [|by rewrite decide_True, app_nil_r by done]. intros c Hc. right. exists (entry_value x'). split; [|cbn [x' entry_value]; lia].
      rewrite <- Hc, <- Hx. exact Hx'.
  - assert (entry_channel e ∉ tracker_channels t) as Hnew.
    { intros (x & Hx & Hin)%list_elem_of_fmap. apply list_find_None in Hf. rewrite Forall_forall in Hf. by apply (Hf x Hin). }
    pose proof (reserve_spec 1 t w Hw ltac:(lia) Hmax) as Hres. destruct (uvm_tracker_reserve 1 t w) as [st [t1 w1]]. destruct Hres as (Hev & Ee & Hcase & Hroom).
    destruct Hcase as [(-> & H1 & H2)|(-> & ->)]; cbn [is_ok bool_decide decide].
    + set (t' := t1 <| entries ::= (fun l => l ++ [e]) |>). assert (entries t' = entries t ++ [e]) as Et by (cbn [entries upd t']; by rewrite Ee).
      split; [done|]. split; [split|split; [|split; [left|]]].
      * change (1 <= max_size t1). lia.
      * unfold tracker_size in *. change (max_size t') with (max_size t1). rewrite Et, length_app. cbn [length]. lia.
      * unfold tracker_channels. rewrite Et, fmap_app. apply NoDup_app. split; [done|]. split; [|apply NoDup_singleton]. by intros c Hc ->%list_elem_of_singleton.
      * intros c v [Hc|(v' & Hin & Hv)]; [left; by apply Hev|right]. exists v'. split; [|done]. rewrite Et. apply elem_of_app. by left.
      * split; [done|]. rewrite decide_False by done. split; [|unfold tracker_channels; by rewrite Et, fmap_app]. intros c Hc. right. exists (entry_value e). split; [|lia].
        rewrite Et. apply elem_of_app. right. apply list_elem_of_singleton. destruct e. cbn in *. by subst.
      * intros [?|Hlt]; [done|]. split; [done|]. destruct (Hroom ltac:(lia)) as [_ ->]. done.
    + split; [done|]. split; [done|]. split; [intros c v; by apply covers_evolves|]. split; [by right|]. intros [?|Hlt]; [done|]. by destruct (Hroom ltac:(lia)).
Qed.

(** ** Adding a tracker *)

(** How many of the entries need room. *)
Definition missing (l : list uvm_tracker_entry_t) (channels : list (option nat)) : nat := length (filter (fun e => entry_channel e ∉ channels) l).

Lemma missing_le l channels : (missing l channels <= length l)%nat.
Proof. apply length_filter. Qed.

Lemma missing_mono l channels channels' : channels ⊆ channels' -> (missing l channels' <= missing l channels)%nat.
Proof.
  intros Hsub. unfold missing. induction l as [|e l IH]; [done|]. rewrite !filter_cons.
  repeat case_decide; cbn [length]; try lia. exfalso. naive_solver.
Qed.

(** With room for the new channels every entry is added: the assertion of
    [uvm_tracker_add_tracker]. *)
Lemma add_entries_spec l : forall dst w, tw_ok w -> tracker_ok dst -> tracker_size dst + Z.of_nat (missing l (tracker_channels dst)) <= max_size dst ->
  tracker_size dst + Z.of_nat (length l) <= 2 ^ 31 ->
  let '(dst', w') := add_entries l dst w in
  evolves w w' /\ tracker_ok dst' /\ (forall c v, covers dst w c v -> covers dst' w' c v) /\
  (forall c v, mk_entry (Some c) v ∈ l -> covers dst' w' c v).
Proof.
  induction l as [|e l IH]; intros dst w Hw Hok Hroom Hmax; cbn [add_entries].
  { split; [by apply evolves_refl|]. split; [done|]. split; [done|]. by intros c v ?%elem_of_nil. }
  cbn [length] in Hmax. pose proof (add_entry_spec e dst w Hw Hok ltac:(lia)) as Hadd. destruct (uvm_tracker_add_entry e dst w) as [st [dst1 w1]].
  destruct Hadd as (Hev & Hok1 & Hcov & Hcase & Hfits).
  assert (st = NV_OK /\ max_size dst1 = max_size dst) as [-> Em].
  { apply Hfits. destruct (decide (entry_channel e ∈ tracker_channels dst)) as [Hin|Hnew]; [by left|right]. unfold missing in Hroom.
    rewrite filter_cons, decide_True in Hroom by done. cbn [length] in Hroom. lia. }
  destruct Hcase as [(_ & He & Ech)|[? _]]; [|done].
  assert (tracker_size dst1 = tracker_size dst + if decide (entry_channel e ∈ tracker_channels dst) then 0 else 1) as Esz.
  { unfold tracker_size. rewrite <- !(length_fmap entry_channel). change (entry_channel <$> entries dst1) with (tracker_channels dst1).
    rewrite Ech, length_app. change (entry_channel <$> entries dst) with (tracker_channels dst). case_decide; cbn [length]; lia. }
  assert (missing l (tracker_channels dst1) <= missing l (tracker_channels dst))%nat as Hmiss by (apply missing_mono; rewrite Ech; intros x Hx; apply elem_of_app; by left).
  specialize (IH dst1 w1 (proj1 Hev) Hok1). destruct (add_entries l dst1 w1) as [dst' w'].
  destruct IH as (Hev' & Hok' & Hcov' & Hl).
  { unfold missing in Hroom, Hmiss. rewrite filter_cons in Hroom. rewrite Em, Esz. unfold missing. repeat case_decide; cbn [length] in *; (done || lia). }
  { rewrite Esz. case_decide; lia. }
  split; [by apply (evolves_trans _ w1)|]. split; [done|]. split; [intros c v Hc; by apply Hcov', Hcov|].
  intros c v [<-|Hin]%elem_of_cons; [apply Hcov'; by apply He|by apply Hl].
Qed.

Lemma covers_added src dst w : (forall c v, mk_entry (Some c) v ∈ entries src -> covers dst w c v) -> forall c v, covers src w c v -> covers dst w c v.
Proof.
  intros H1 c v [Hd|(v' & Hin & Hv)]; [by left|]. destruct (H1 c v' Hin) as [Hd|(v'' & Hin' & Hv')].
  - left. by apply (tw_done_le _ _ _ v').
  - right. exists v''. split; [done|lia].
Qed.

(** Nothing is forgotten on the way to the state on the right. *)
Definition keeps (src dst : uvm_tracker_t) (w : W) (src' dst' : uvm_tracker_t) (w' : W) : Prop :=
  evolves w w' /\ tracker_ok src' /\ tracker_ok dst' /\ (forall c v, covers src w c v -> covers src' w' c v) /\ (forall c v, covers dst w c v -> covers dst' w' c v).

Lemma keeps_trans src dst w src1 dst1 w1 src2 dst2 w2 : keeps src dst w src1 dst1 w1 -> keeps src1 dst1 w1 src2 dst2 w2 -> keeps src dst w src2 dst2 w2.
Proof.
  intros (H1' & _ & _ & H2' & H3') (H4' & H5' & H6' & H7' & H8'). split; [by apply (evolves_trans _ w1)|]. split; [done|]. split; [done|]. split; intros c v Hc; auto.
Qed.

Lemma add_all_spec src dst w : tw_ok w -> tracker_ok src -> tracker_ok dst ->
  tracker_size dst + Z.of_nat (missing (entries src) (tracker_channels dst)) <= max_size dst -> tracker_size src + tracker_size dst <= 2 ^ 31 ->
  let '(dst', w') := add_entries (entries src) dst w in keeps src dst w src dst' w' /\ forall c v, covers src w c v -> covers dst' w' c v.
Proof.
  intros Hw Hs Hd Hroom Hsz. pose proof (add_entries_spec (entries src) dst w Hw Hd Hroom ltac:(unfold tracker_size in *; lia)) as Ha.
  destruct (add_entries (entries src) dst w) as [dst' w']. destruct Ha as (Hev & Hd' & Hc1 & Hc2).
  assert (forall c v, covers src w c v -> covers src w' c v) as Hcs by (intros c v; by apply covers_evolves).
  split; [done|]. intros c v Hc. apply (covers_added src); [done|by apply Hcs].
Qed.

Lemma reserve_keeps n src dst w : tw_ok w -> tracker_ok src -> tracker_ok dst -> 0 <= n -> tracker_size dst + n <= 2 ^ 31 ->
  let '(st, (dst', w')) := uvm_tracker_reserve n dst w in
  keeps src dst w src dst' w' /\ entries dst' = entries dst /\ ((st = NV_OK /\ tracker_size dst + n <= max_size dst') \/ (st = NV_ERR_NO_MEMORY /\ dst' = dst)).
Proof.
  intros Hw Hs [Hd1 Hd2 Hd3] Hn Hsz. pose proof (reserve_spec n dst w Hw Hn Hsz) as Hres. destruct (uvm_tracker_reserve n dst w) as [st [dst' w']].
  destruct Hres as (Hev & Ee & Hcase & _). split; [|split; [done|]; destruct Hcase as [(-> & ? & _)|[-> ->]]; [by left|by right]]. split; [done|]. split; [done|]. split.
  - assert (max_size dst <= max_size dst') as Hm by (destruct Hcase as [(_ & _ & ?)|[_ ->]]; lia).
    split; [lia| |by unfold tracker_channels; rewrite Ee]. unfold tracker_size in *. rewrite Ee. lia.
  - split; intros c v Hc; [by apply (covers_evolves _ w)|]. apply (covers_entries dst); [done|by apply (covers_evolves _ w)].
Qed.

(** Without memory the completed entries of both are removed first. *)
Lemma remove_both_keeps src dst w : tw_ok w -> tracker_ok src -> tracker_ok dst ->
  let '(dst', w1) := uvm_tracker_remove_completed dst w in let '(src', w2) := uvm_tracker_remove_completed src w1 in
  keeps src dst w src' dst' w2 /\ tracker_size src' <= tracker_size src /\ tracker_size dst' <= tracker_size dst.
Proof.
  intros Hw Hsrc Hdst. pose proof (remove_completed_covers dst w Hw Hdst) as Hr1. destruct (uvm_tracker_remove_completed dst w) as [dst1 w1].
  destruct Hr1 as (Hev1 & Hok1 & _ & Hsz1 & Hc1). pose proof (remove_completed_covers src w1 (proj1 Hev1) Hsrc) as Hr2.
  destruct (uvm_tracker_remove_completed src w1) as [src2 w2]. destruct Hr2 as (Hev2 & Hok2 & _ & Hsz2 & Hc2).
  split; [|done]. split; [by apply (evolves_trans _ w1)|]. split; [done|]. split; [done|]. split; intros c v Hc.
  - apply Hc2. by apply (covers_evolves _ w).
  - apply (covers_evolves _ w1); [done|by apply Hc1].
Qed.

(** On success the destination stands for all pushes of both trackers; without memory
    none is forgotten. *)
Lemma add_tracker_spec src dst w : tw_ok w -> tracker_ok src -> tracker_ok dst -> tracker_size src + tracker_size dst <= 2 ^ 31 ->
  let '(st, ((src', dst'), w')) := uvm_tracker_add_tracker src dst w in
  keeps src dst w src' dst' w' /\ ((st = NV_OK /\ forall c v, covers src w c v -> covers dst' w' c v) \/ st = NV_ERR_NO_MEMORY).
Proof.
  intros Hw Hsrc Hdst Hmax. unfold uvm_tracker_add_tracker.
  pose proof (reserve_keeps (tracker_size src) src dst w Hw Hsrc Hdst ltac:(unfold tracker_size; lia) ltac:(lia)) as Hres.
  destruct (uvm_tracker_reserve (tracker_size src) dst w) as [st [dst1 w1]]. destruct Hres as (Hk1 & Ee & Hcase). pose proof Hk1 as (Hev1 & _ & Hd1 & Hs1 & _).
  assert (tracker_size dst1 = tracker_size dst) as Es by (unfold tracker_size; by rewrite Ee).
  destruct Hcase as [(-> & Hr)|[-> ->]]; [rewrite bool_decide_false by done|rewrite bool_decide_true by done].
  - change (is_ok NV_OK) with true. cbn match. pose proof (missing_le (entries src) (tracker_channels dst1)) as Hml.
    pose proof (add_all_spec src dst1 w1 (proj1 Hev1) Hsrc Hd1 ltac:(unfold tracker_size in *; lia) ltac:(lia)) as Ha.
    destruct (add_entries (entries src) dst1 w1) as [dst' w']. destruct Ha as [Hk2 Hall]. split; [by apply (keeps_trans _ _ _ src dst1 w1)|left]. split; [done|]. auto.
  - pose proof (remove_both_keeps src dst w1 (proj1 Hev1) Hsrc Hdst) as Hr. destruct (uvm_tracker_remove_completed dst w1) as [dst2 w2].
    destruct (uvm_tracker_remove_completed src w2) as [src3 w3]. destruct Hr as (Hk2 & Hz1 & Hz2). pose proof Hk2 as (Hev2 & Hs3 & Hd2 & _).
    unfold reserve_for_entries_from_tracker, needed_free_entries. change (length (filter _ (entries src3))) with (missing (entries src3) (tracker_channels dst2)).
    pose proof (missing_le (entries src3) (tracker_channels dst2)) as Hml.
    pose proof (reserve_keeps (Z.of_nat (missing (entries src3) (tracker_channels dst2))) src3 dst2 w3 (proj1 Hev2) Hs3 Hd2 ltac:(lia) ltac:(unfold tracker_size in *; lia)) as Hres.
    destruct (uvm_tracker_reserve _ dst2 w3) as [st [dst4 w4]]. destruct Hres as (Hk3 & Ee4 & Hcase). pose proof Hk3 as (Hev3 & _ & Hd4 & _).
    pose proof (keeps_trans _ _ _ _ _ _ _ _ _ Hk1 (keeps_trans _ _ _ _ _ _ _ _ _ Hk2 Hk3)) as Hk.
    assert (tracker_size dst4 = tracker_size dst2) as Es4 by (unfold tracker_size; by rewrite Ee4).
    assert (tracker_channels dst4 = tracker_channels dst2) as Ec by (unfold tracker_channels; by rewrite Ee4).
    destruct Hcase as [(-> & Hr)|[-> ->]]; [|by split; [|right]]. change (is_ok NV_OK) with true. cbn match.
    pose proof (add_all_spec src3 dst4 w4 (proj1 Hev3) Hs3 Hd4 ltac:(rewrite Ec, Es4; lia) ltac:(lia)) as Ha.
    destruct (add_entries (entries src3) dst4 w4) as [dst' w']. destruct Ha as [Hk4 Hall]. split; [by apply (keeps_trans _ _ _ src3 dst4 w4)|left]. split; [done|].
    intros c v Hc. by apply Hall, Hk.
Qed.

(** ** Waiting *)

(** In a spin the rest of the driver and the GPU go on. *)
Definition rounds_evolve (rounds : list (W -> W)) : Prop := Forall (fun spin => forall w, tw_ok w -> evolves w (spin w)) rounds.

Lemma tracker_errors_evolve t w : tw_ok w -> evolves w (uvm_tracker_check_errors t w).2.
Proof.
  intros Hw. unfold uvm_tracker_check_errors. destruct (is_ok _); cbn [negb]; [|by apply evolves_refl]. revert w Hw.
  induction (entries t) as [|e l IH]; intros w Hw; [by apply evolves_refl|]. cbn [for_status]. unfold try, mbind, ST_bind.
  assert (evolves w (match entry_channel e with Some c => tw_check_errors c w | None => (NV_OK, w) end).2) as Hev
    by (destruct (entry_channel e); [by apply tw_errors_keeps|by apply evolves_refl]).
  destruct (match entry_channel e with Some c => tw_check_errors c w | None => (NV_OK, w) end) as [st w1]. cbn [snd] in Hev.
  destruct (is_ok st); [|done]. apply (evolves_trans _ w1); [done|]. by apply IH, Hev.
Qed.

Lemma is_completed_spec t w : tw_ok w -> tracker_ok t ->
  let '(b, (t', w')) := uvm_tracker_is_completed t w in
  evolves w w' /\ tracker_ok t' /\ max_size t' = max_size t /\ (forall c v, covers t w c v -> covers t' w' c v) /\ (b = true <-> entries t' = []).
Proof.
  intros Hw Ht. unfold uvm_tracker_is_completed. pose proof (remove_completed_covers t w Hw Ht) as Hr. destruct (uvm_tracker_remove_completed t w) as [t' w'].
  destruct Hr as (Hev & Hok & Hm & _ & Hc). split_and!; try done. unfold tracker_size. rewrite Z.eqb_eq. destruct (entries t'); cbn [length]; split; (done || lia).
Qed.

Lemma covers_empty t w c v : entries t = [] -> covers t w c v -> tw_done w c v.
Proof. intros E [Hd|(v' & Hin & _)]; [done|]. rewrite E in Hin. by apply elem_of_nil in Hin. Qed.

Lemma wait_loop_spec rounds : forall st t w st' t' w', rounds_evolve rounds -> tw_ok w -> tracker_ok t -> tracker_wait_loop rounds st t w = Some (st', (t', w')) ->
  evolves w w' /\ tracker_ok t' /\ max_size t' = max_size t /\ (forall c v, covers t w c v -> covers t' w' c v) /\ (st' = NV_OK -> entries t' = []).
Proof.
  induction rounds as [|spin rounds IH]; intros st t w st' t' w' Hr Hw Ht Hwait; cbn [tracker_wait_loop] in Hwait;
    pose proof (is_completed_spec t w Hw Ht) as Hc; destruct (uvm_tracker_is_completed t w) as [b [t1 w1]]; destruct Hc as (Hev & Hok & Hm & Hcov & Hb);
    destruct (negb b && is_ok st) eqn:Hg; try done.
  1, 3: injection Hwait as <- <- <-; split_and!; try done; intros ->; apply Hb; by destruct b.
  apply Forall_cons in Hr as [Hspin Hr]. pose proof (Hspin w1 (proj1 Hev)) as Hev2. pose proof (tracker_errors_evolve t1 (spin w1) (proj1 Hev2)) as Hev3.
  destruct (uvm_tracker_check_errors t1 (spin w1)) as [st2 w2]. cbn [snd] in Hev3.
  destruct (IH st2 t1 w2 st' t' w' Hr (proj1 Hev3) Hok Hwait) as (G1 & G2 & G3 & G4 & G5).
  assert (evolves w1 w2) as Hev4 by (by apply (evolves_trans _ (spin w1))).
  split; [apply (evolves_trans _ w1); [done|by apply (evolves_trans _ w2)]|]. split; [done|]. split; [congruence|]. split; [|done].
  intros c v Hcv. apply G4, (covers_evolves _ w1); [done|by apply Hcov].
Qed.

(** Whatever a wait returns the tracker is empty; it keeps its memory. *)
Lemma wait_spec rounds t w st t' w' : rounds_evolve rounds -> tw_ok w -> tracker_ok t -> uvm_tracker_wait rounds t w = Some (st, (t', w')) ->
  evolves w w' /\ tracker_ok t' /\ max_size t' = max_size t /\ entries t' = [] /\ (st = NV_OK -> forall c v, covers t w c v -> tw_done w' c v).
Proof.
  intros Hr Hw Ht Hwait. unfold uvm_tracker_wait in Hwait. destruct (tracker_wait_loop rounds NV_OK t w) as [[st1 [t1 w1]]|] eqn:E; [|done].
  cbn [mbind option_bind] in Hwait. destruct (wait_loop_spec rounds NV_OK t w st1 t1 w1 Hr Hw Ht E) as (G1 & G2 & G3 & G4 & G5).
  destruct (is_ok st1) eqn:Hst; injection Hwait as <- <- <-.
  - apply is_ok_true in Hst as ->. specialize (G5 eq_refl). split_and!; try done. intros _ c v Hc. by apply (covers_empty t1), G4.
  - split; [done|]. split; [by apply clear_ok|]. split; [done|]. split; [done|]. intros ->. done.
Qed.

(** The state after the rounds of a wait that is not over before; [None] on an error. *)
Fixpoint after_rounds (rounds : list (W -> W)) (t : uvm_tracker_t) (w : W) : option (uvm_tracker_t * W) :=
  match rounds with
  | [] => Some (t, w)
  | spin :: rounds =>
      let '(t, w) := uvm_tracker_remove_completed t w in
      let '(st, w) := uvm_tracker_check_errors t (spin w) in
      if is_ok st then after_rounds rounds t w else None
  end.

Lemma wait_loop_returns rounds : forall t w t1 w1, rounds_evolve rounds -> tw_ok w -> tracker_ok t -> after_rounds rounds t w = Some (t1, w1) ->
  Forall (entry_done w1) (entries t1) -> exists t' w', tracker_wait_loop rounds NV_OK t w = Some (NV_OK, (t', w')).
Proof.
  induction rounds as [|spin rounds IH]; intros t w t1 w1 Hr Hw Ht Hafter Hdone; cbn [after_rounds tracker_wait_loop] in *; unfold uvm_tracker_is_completed;
    pose proof (remove_completed_spec t w Hw) as Hspec; pose proof (remove_completed_covers t w Hw Ht) as Hcov; destruct (uvm_tracker_remove_completed t w) as [t2 w2];
    destruct Hspec as (Hev & _ & (removed & Hp & _) & Hleft); destruct Hcov as (_ & Hok & _).
  - injection Hafter as <- <-. assert (entries t2 = []) as E.
    { destruct (entries t2) as [|e l]; [done|]. rewrite Hp in Hdone. apply Forall_cons in Hdone as [Hd _]. apply Forall_cons in Hleft as [Hl _].
      exfalso. by apply Hl, (evolves_entry w). }
    unfold tracker_size. rewrite E. by exists t2, w2.
  - destruct (tracker_size t2 =? 0); cbn [negb andb]; change (is_ok NV_OK) with true; cbn match; [by exists t2, w2|].
    apply Forall_cons in Hr as [Hspin Hr]. pose proof (Hspin w2 (proj1 Hev)) as Hev2. pose proof (tracker_errors_evolve t2 (spin w2) (proj1 Hev2)) as Hev3.
    destruct (uvm_tracker_check_errors t2 (spin w2)) as [st w3]. destruct (is_ok st) eqn:Hst; [|done]. apply is_ok_true in Hst as ->.
    by apply (IH t2 w3 t1 w1 Hr (proj1 Hev3)).
Qed.

Lemma entry_loop_spec rounds e : forall st w st' rs w', rounds_evolve rounds -> tw_ok w -> entry_wait_loop rounds st e w = Some (st', (rs, w')) ->
  evolves w w' /\ rounds_evolve rs /\ (st' = NV_OK -> entry_done w' e).
Proof.
  induction rounds as [|spin rounds IH]; intros st w st' rs w' Hr Hw Hwait; cbn [entry_wait_loop] in Hwait; destruct (entry_completed_spec e w Hw) as (Hiff & Hw1 & Hd1);
    destruct (uvm_tracker_is_entry_completed e w) as [b w1]; cbn [fst snd] in *; (assert (evolves w w1) as Hev by (split; [done|]; intros c v; by rewrite Hd1));
    destruct (negb b && is_ok st) eqn:Hg; try done.
  1, 3: injection Hwait as <- <- <-; split_and!; try done; intros ->; apply (evolves_entry w); [done|]; apply Hiff; by destruct b.
  apply Forall_cons in Hr as [Hspin Hr]. pose proof (Hspin w1 Hw1) as Hev2.
  assert (evolves (spin w1) (match entry_channel e with Some c => tw_check_errors c (spin w1) | None => (NV_OK, spin w1) end).2) as Hev3
    by (destruct (entry_channel e); [by apply tw_errors_keeps, Hev2|by apply evolves_refl, Hev2]).
  destruct (match entry_channel e with Some c => tw_check_errors c (spin w1) | None => (NV_OK, spin w1) end) as [st2 w2]. cbn [snd] in Hev3.
  destruct (IH _ w2 st' rs w' Hr (proj1 Hev3) Hwait) as (G1 & G2 & G3). split; [|done].
  apply (evolves_trans _ w1); [done|]. apply (evolves_trans _ (spin w1)); [done|]. by apply (evolves_trans _ w2).
Qed.

Lemma wait_for_entry_spec rounds e w st e' w' : rounds_evolve rounds -> tw_ok w -> uvm_tracker_wait_for_entry rounds e w = Some (st, (e', w')) ->
  evolves w w' /\ (st = NV_OK -> e' = e /\ entry_done w' e) /\ (st <> NV_OK -> entry_channel e' = None).
Proof.
  intros Hr Hw. unfold uvm_tracker_wait_for_entry, wait_for_entry_with_spin. destruct (entry_wait_loop rounds NV_OK e w) as [[st1 [rs w1]]|] eqn:E; [|done].
  destruct (entry_loop_spec rounds e NV_OK w st1 rs w1 Hr Hw E) as (G1 & _ & G3). cbn [mbind option_bind]. destruct (is_ok st1) eqn:Hst; cbn [mbind option_bind]; intros [= <- <- <-].
  - apply is_ok_true in Hst as ->. split; [done|]. split; [by intros _; split; [|apply G3]|done].
  - split; [done|]. split; [by intros ->|done].
Qed.

(** ** The other operations *)

(** An empty tracker has room for an entry. *)
Lemma overwrite_with_entry_spec e t w : tw_ok w -> tracker_ok t -> uvm_tracker_overwrite_with_entry e t w = (t <| entries := [e] |>, w).
Proof.
  intros Hw [Hr _ _]. unfold uvm_tracker_overwrite_with_entry, uvm_tracker_add_entry, uvm_tracker_reserve, tracker_size. cbn [uvm_tracker_clear entries max_size upd list_find length].
  change (u32 (Z.of_nat 0 + 1)) with 1. destruct (Z.ltb_spec (max_size t) 1); [lia|done].
Qed.

(** [uvm_tracker_overwrite] copies, or leaves an empty tracker. *)
Lemma overwrite_spec src dst w : tw_ok w -> tracker_ok src -> tracker_ok dst -> tracker_size src <= 2 ^ 31 ->
  let '(st, (dst', w')) := uvm_tracker_overwrite src dst w in
  evolves w w' /\ tracker_ok dst' /\ ((st = NV_OK /\ entries dst' = entries src) \/ (st = NV_ERR_NO_MEMORY /\ entries dst' = [])).
Proof.
  intros Hw Hsrc Hdst Hmax. unfold uvm_tracker_overwrite. pose proof (clear_ok dst Hdst) as Hcl. pose proof (tr_room _ Hcl) as Hroom.
  pose proof (reserve_spec (tracker_size src) (uvm_tracker_clear dst) w Hw ltac:(unfold tracker_size; lia) ltac:(change (tracker_size (uvm_tracker_clear dst)) with 0; lia)) as Hres.
  destruct (uvm_tracker_reserve _ (uvm_tracker_clear dst) w) as [st [dst1 w1]]. destruct Hres as (Hev & Ee & Hcase & _).
  destruct Hcase as [(-> & Hm1 & Hm2)|[-> ->]]; [|by split_and!; try done; right]. change (is_ok NV_OK) with true. cbn match.
  change (tracker_size (uvm_tracker_clear dst)) with 0 in Hm1. split; [done|]. split; [|by left]. destruct Hsrc as [_ Hs1 Hs2].
  split; [change (1 <= max_size dst1); lia|change (tracker_size src <= max_size dst1); lia|exact Hs2].
Qed.

Lemma wait_for_entries_spec gpu_of gpu l : forall rounds w st w', rounds_evolve rounds -> tw_ok w -> wait_for_entries rounds gpu_of gpu l w = Some (st, w') ->
  evolves w w' /\ (st = NV_OK -> Forall (fun e => gpu_of e = gpu \/ entry_done w' e) l).
Proof.
  induction l as [|e l IH]; intros rounds w st w' Hr Hw Hwait; cbn [wait_for_entries] in Hwait; [injection Hwait as <- <-; split; [by apply evolves_refl|done]|].
  destruct (Nat.eqb_spec (gpu_of e) gpu) as [Hg|Hg].
  { destruct (IH rounds w st w' Hr Hw Hwait) as [G1 G2]. split; [done|]. intros Hst. constructor; [by left|by apply G2]. }
  unfold wait_for_entry_with_spin in Hwait. destruct (entry_wait_loop rounds NV_OK e w) as [[st1 [rs w1]]|] eqn:E; [|done].
  destruct (entry_loop_spec rounds e NV_OK w st1 rs w1 Hr Hw E) as (G1 & G2 & G3). cbn [mbind option_bind] in Hwait. destruct (is_ok st1) eqn:Hst; cbn [mbind option_bind] in Hwait; rewrite ?Hst in Hwait.
  - destruct (IH rs w1 st w' G2 (proj1 G1) Hwait) as [G4 G5]. split; [by apply (evolves_trans _ w1)|]. intros Hok. apply is_ok_true in Hst.
    constructor; [right; apply (evolves_entry w1); [done|by apply G3]|by apply G5].
  - injection Hwait as <- <-. split; [done|]. intros ->. done.
Qed.

(** Afterwards only entries of the GPU are left, and no other push is forgotten. *)
Lemma wait_for_other_gpus_spec rounds gpu_of gpu t w t' w' : rounds_evolve rounds -> tw_ok w -> tracker_ok t ->
  uvm_tracker_wait_for_other_gpus rounds gpu_of gpu t w = Some (NV_OK, (t', w')) ->
  (forall c v, covers t w c v -> covers t' w' c v) /\ Forall (fun e => gpu_of e = gpu) (entries t').
Proof.
  intros Hr Hw Ht. unfold uvm_tracker_wait_for_other_gpus. destruct (wait_for_entries rounds gpu_of gpu (entries t) w) as [[st w1]|] eqn:E; [|done].
  destruct (wait_for_entries_spec gpu_of gpu (entries t) rounds w st w1 Hr Hw E) as [Hev Hdone]. cbn [mbind option_bind]. intros [= Est Eres].
  subst st. specialize (Hdone eq_refl). change (is_ok NV_OK) with true in Eres. cbn match in Eres.
  pose proof (remove_completed_spec t w1 (proj1 Hev)) as Hspec. pose proof (remove_completed_covers t w1 (proj1 Hev) Ht) as Hcov. rewrite Eres in Hspec, Hcov.
  destruct Hspec as (Hev' & _ & (removed & Hp & _) & Hleft). destruct Hcov as (_ & _ & _ & _ & Hcov). split; [intros c v Hc; apply Hcov; by apply (covers_evolves _ w)|].
  rewrite Hp in Hdone. apply Forall_app in Hdone as [Hdone _]. rewrite Forall_forall in *. intros e He. destruct (Hdone e He) as [Hg|Hd]; [done|].
  exfalso. by apply (Hleft e He), (evolves_entry w1).
Qed.

End Laws.

Section Pushes.
Context {W : Type} `{TrackerWorldLaws W}.

(** A push that was added with success is in the tracker or released. *)
Lemma add_push_safe_spec rounds push t (w : W) t' w' : rounds_evolve rounds -> tw_ok w -> tracker_ok t -> tracker_size t + 1 <= 2 ^ 31 ->
  uvm_tracker_add_push_safe rounds push t w = Some (NV_OK, (t', w')) ->
  covers t' w' (push_channel push) (channel_tracking_value push) /\ (forall c v, covers t w c v -> covers t' w' c v).
Proof.
  intros Hr Hw Ht Hsz. unfold uvm_tracker_add_push_safe, uvm_tracker_add_push. set (e := uvm_push_get_tracker_entry push).
  pose proof (add_entry_spec e t w Hw Ht Hsz) as Ha. destruct (uvm_tracker_add_entry e t w) as [st [t1 w1]]. destruct Ha as (Hev & _ & Hcov & Hcase & _).
  case_bool_decide as Hst.
  - unfold uvm_push_wait. fold e. destruct (uvm_tracker_wait_for_entry rounds e w1) as [[st2 [e2 w2]]|] eqn:E; [|done]. cbn [mbind option_bind]. intros [= -> <- <-].
    destruct (wait_for_entry_spec rounds e w1 NV_OK e2 w2 Hr (proj1 Hev) E) as (Hev2 & Hd & _). destruct (Hd eq_refl) as [_ Hdone].
    split; [by left|]. intros c v Hc. by apply (covers_evolves _ w1); [|apply Hcov].
  - intros [= -> <- <-]. destruct Hcase as [(_ & He & _)|[? _]]; [|done]. split; [by apply He|done].
Qed.

End Pushes.

(** ** What a push acquires *)

Lemma elem_of_acquires channel (l : list uvm_tracker_entry_t) c p :
  (c, p) ∈ omap (push_acquire_tracker_entry channel) l <-> c <> channel /\ exists v, mk_entry (Some c) v ∈ l /\ p = u32 v.
Proof.
  rewrite list_elem_of_omap. unfold push_acquire_tracker_entry. split.
  - intros ([[c'|] v] & Hin & He); cbn [entry_channel entry_value] in He; [|done]. destruct (Nat.eqb_spec channel c'); [done|]. injection He as <- <-.
    split; [done|]. by exists v.
  - intros (Hc & v & Hin & ->). exists (mk_entry (Some c) v). split; [done|]. cbn [entry_channel entry_value]. by destruct (Nat.eqb_spec channel c); [subst|].
Qed.

Lemma acquires_nodup channel t : tracker_ok t -> NoDup (omap (push_acquire_tracker_entry channel) (entries t)).*1.
Proof.
  intros [_ _ Hn]. unfold tracker_channels in Hn. induction (entries t) as [|e l IH]; [apply NoDup_nil_2|]. apply NoDup_cons in Hn as [He Hn].
  cbn [omap list_omap]. destruct (push_acquire_tracker_entry channel e) as [[c p]|] eqn:Ep; [|by apply IH]. rewrite fmap_cons. apply NoDup_cons. split; [|by apply IH].
  intros ([c' p'] & E & (Hc & v & Hin & ->)%elem_of_acquires)%list_elem_of_fmap. cbn [fst] in E. subst c'. apply He, list_elem_of_fmap. exists (mk_entry (Some c) v). split; [|done].
  unfold push_acquire_tracker_entry in Ep. destruct (entry_channel e) as [c0|]; [|done]. destruct (channel =? c0)%nat; [done|]. by injection Ep as ->.
Qed.

(** ** What holds of every tracker *)

(** C26: the operations that wait when there is no memory never forget a push: after
    adding a tracker with success the destination stands for all pushes of both, and
    on an error it still stands for all of its own. *)
Theorem add_tracker_safe_keeps_all {W : Type} `{TrackerWorldLaws W} rounds src dst (w : W) st src' dst' w' :
  rounds_evolve rounds -> tw_ok w -> tracker_ok src -> tracker_ok dst -> tracker_size src + tracker_size dst <= 2 ^ 31 ->
  uvm_tracker_add_tracker_safe rounds src dst w = Some (st, ((src', dst'), w')) ->
  tracker_ok dst' /\ (forall c v, covers dst w c v -> covers dst' w' c v) /\ (st = NV_OK -> forall c v, covers src w c v -> covers dst' w' c v).
Proof.
  intros Hr Hw Hsrc Hdst Hmax. unfold uvm_tracker_add_tracker_safe. pose proof (add_tracker_spec src dst w Hw Hsrc Hdst Hmax) as Ha.
  destruct (uvm_tracker_add_tracker src dst w) as [st1 [[src1 dst1] w1]]. destruct Ha as [(Hev & Hs1 & Hd1 & Hcs & Hcd) Hcase]. case_bool_decide as Hst.
  - destruct (uvm_tracker_wait rounds src1 w1) as [[st2 [src2 w2]]|] eqn:E; [|done]. cbn [mbind option_bind]. intros [= <- <- <- <-].
    destruct (wait_spec rounds src1 w1 st2 src2 w2 Hr (proj1 Hev) Hs1 E) as (Hev2 & _ & _ & _ & Hdone).
    split; [done|]. split; [intros c v Hc; by apply (covers_evolves _ w1); [|apply Hcd]|]. intros Hok c v Hc. left. by apply Hdone, Hcs.
  - intros [= <- <- <- <-]. split; [done|]. split; [done|]. intros Hok. by destruct Hcase as [[_ Hall]|?].
Qed.

(** C27: a wait for a tracker returns success when the GPU has released its pushes within
    the rounds and no channel has an error; whatever it returns it leaves the
    tracker empty, and when it returns success the GPU has released every push
    the tracker stood for. *)
Theorem tracker_wait_correct {W : Type} `{TrackerWorldLaws W} rounds t (w : W) : rounds_evolve rounds -> tw_ok w -> tracker_ok t ->
  (forall t1 w1, after_rounds rounds t w = Some (t1, w1) -> Forall (entry_done w1) (entries t1) -> exists t' w', uvm_tracker_wait rounds t w = Some (NV_OK, (t', w'))) /\
  (forall st t' w', uvm_tracker_wait rounds t w = Some (st, (t', w')) ->
     entries t' = [] /\ max_size t' = max_size t /\ (st = NV_OK -> forall c v, covers t w c v -> tw_done w' c v)).
Proof.
  intros Hr Hw Ht. split.
  - intros t1 w1 Hafter Hdone. destruct (wait_loop_returns rounds t w t1 w1 Hr Hw Ht Hafter Hdone) as (t' & w' & E). exists t', w'. unfold uvm_tracker_wait. by rewrite E.
  - intros st t' w' Hwait. destruct (wait_spec rounds t w st t' w' Hr Hw Ht Hwait) as (_ & _ & H1' & H2' & H3'). done.
Qed.

(** C28: a push that acquires a tracker acquires, once for each other channel of which
    the tracker has a push that is not released, that channel's semaphore for the
    low 32 bits of the value the tracker has for it, and nothing else.  So it starts
    after all the pushes the tracker stands for: each is released, or on the channel
    of the push and so before it, or the value acquired is the tracker's for its
    channel, which is not below its own. *)
Theorem push_acquire_orders {W : Type} `{TrackerWorldLaws W} channel t (w : W) : tw_ok w -> tracker_ok t ->
  let '(acquires, (_, w')) := uvm_push_acquire_tracker channel (Some t) w in
  NoDup acquires.*1 /\
  (forall c p, (c, p) ∈ acquires <-> c <> channel /\ exists v, mk_entry (Some c) v ∈ entries t /\ ~ tw_done w' c v /\ p = u32 v) /\
  (forall c v, covers t w c v -> tw_done w' c v \/ c = channel \/ exists v', mk_entry (Some c) v' ∈ entries t /\ v <= v' /\ (c, u32 v') ∈ acquires).
Proof.
  intros Hw Ht. unfold uvm_push_acquire_tracker. pose proof (remove_completed_covers t w Hw Ht) as Hr. pose proof (remove_completed_spec t w Hw) as Hs.
  destruct (uvm_tracker_remove_completed t w) as [t' w']. destruct Hr as (_ & Ht' & _ & _ & Hcov), Hs as (_ & _ & (removed & Hp & Hd) & Hleft).
  split; [by apply acquires_nodup, Ht'|]. split.
  - intros c p. rewrite elem_of_acquires. split; intros (Hc & v & Hin & Hrest); (split; [done|]); exists v.
    + split; [rewrite Hp; apply elem_of_app; by left|]. split; [|done]. rewrite Forall_forall in Hleft. by apply (Hleft _ Hin).
    + destruct Hrest as [Hnd ->]. split; [|done]. rewrite Hp in Hin. apply elem_of_app in Hin as [Hin|Hin]; [done|]. rewrite Forall_forall in Hd. by destruct (Hnd (Hd _ Hin)).
  - intros c v [Hdone|(v' & Hin & Hv)]%Hcov; [by left|right]. destruct (decide (c = channel)) as [->|Hne]; [by left|right].
    exists v'. split; [rewrite Hp; apply elem_of_app; by left|]. split; [done|]. apply elem_of_acquires. split; [done|]. by exists v'.
Qed.

(** ** The channels of a GPU as the world of its trackers *)

Section ChannelWorld.

(** The channels, and what the next allocations return. *)
Definition channel_world_t : Type := uvm_channel_manager_t * list bool.

#[export] Instance channel_world : TrackerWorld channel_world_t := {
  tw_is_value_completed := fun c v w => let '(b, m) := uvm_channel_is_value_completed c v w.1 in (b, (m, w.2));
  tw_check_errors := fun c w => let '(st, m) := uvm_channel_check_errors c w.1 in (st, (m, w.2));
  tw_get_status := fun w => fatal_error w.1;
  tw_kvmalloc := fun w => match w.2 with [] => (true, w) | b :: l => (b, (w.1, l)) end;
}.

(** The driver's semaphores still count what the GPU has released. *)
Definition keeps_counts (m m' : uvm_channel_manager_t) : Prop :=
  forall c r, counts (tracking_sem (channel_at m c)) r -> counts (tracking_sem (channel_at m' c)) r.

Lemma counts_unique t r r' : counts t r -> counts t r' -> r = r'.
Proof. intros H1%update_counts H2%update_counts. congruence. Qed.

Lemma keeps_counts_on_channel c f m : (forall ch r, counts (tracking_sem ch) r -> counts (tracking_sem (f ch)) r) -> keeps_counts m (on_channel c f m).
Proof.
  intros Hf c' r Hc. destruct (decide (c' = c)) as [->|E]; [|by rewrite channel_at_ne]. destruct (decide (c < length (channels m))%nat) as [Hl|Hl].
  - rewrite channel_at_on_channel by done. by apply Hf.
  - by rewrite channel_at_out by lia.
Qed.

Lemma keeps_counts_refl m : keeps_counts m m.
Proof. by intros c r. Qed.

Lemma keeps_counts_trans m1 m2 m3 : keeps_counts m1 m2 -> keeps_counts m2 m3 -> keeps_counts m1 m3.
Proof. intros H1 H2 c r Hc. by apply H2, H1. Qed.

Lemma value_completed_counts c v m : keeps_counts m (uvm_channel_is_value_completed c v m).2.
Proof.
  unfold uvm_channel_is_value_completed. destruct (uvm_gpu_tracking_semaphore_is_value_completed v (tracking_sem (channel_at m c))) as [b t] eqn:E. cbn [snd].
  intros c' r Hc. destruct (decide (c' = c)) as [->|Hne]; [|by rewrite channel_at_ne]. destruct (decide (c < length (channels m))%nat) as [Hl|Hl].
  - rewrite channel_at_on_channel by done. destruct (is_value_completed_counts _ r v Hc) as (_ & H2 & _). rewrite E in H2. exact H2.
  - by rewrite channel_at_out by lia.
Qed.

Lemma update_completed_counts c m : keeps_counts m (uvm_channel_update_completed_value c m).2.
Proof.
  unfold uvm_channel_update_completed_value, uvm_gpu_tracking_semaphore_update_completed_value.
  destruct (update_completed_value_locked (tracking_sem (channel_at m c))) as [b t] eqn:E. cbn [snd].
  intros c' r Hc. destruct (decide (c' = c)) as [->|Hne]; [|by rewrite channel_at_ne]. destruct (decide (c < length (channels m))%nat) as [Hl|Hl].
  - rewrite channel_at_on_channel by done. rewrite (update_counts _ r Hc) in E. injection E as <- <-. by apply counts_updated.
  - by rewrite channel_at_out by lia.
Qed.

Lemma progress_step_counts c v mode m m' : progress_step c v mode m = Some m' -> keeps_counts m m'.
Proof.
  unfold progress_step. destruct (_ =? _); [done|]. destruct (_ && _); [done|]. intros [= <-]. eapply keeps_counts_trans; [|by apply keeps_counts_on_channel].
  destruct (gp_type _); [|apply keeps_counts_refl]. eapply keeps_counts_trans; [|by apply keeps_counts_on_channel]. unfold uvm_pushbuffer_mark_completed.
  case_match; [|exact (keeps_counts_refl m)]. set (m0 := m <| completions ::= cons z |>). set (f := fun ch => ch <| push_infos ::= _ |>).
  assert (keeps_counts m0 (on_channel c f m0)) as Hk by (by apply keeps_counts_on_channel). intros c' r Hc. exact (Hk c' r Hc).
Qed.

Lemma progress_loop_counts n c v mode m : keeps_counts m (progress_loop n c v mode m).
Proof.
  revert m. induction n as [|n IH]; intros m; [apply keeps_counts_refl|]. cbn [progress_loop]. destruct (progress_step c v mode m) as [m1|] eqn:E; [|apply keeps_counts_refl].
  apply (keeps_counts_trans _ m1); [by eapply progress_step_counts|apply IH].
Qed.

Lemma check_errors_counts c m : keeps_counts m (uvm_channel_check_errors c m).2.
Proof.
  unfold uvm_channel_check_errors. destruct (is_ok _); [apply keeps_counts_refl|].
  unfold uvm_channel_get_first_pending_entry, channel_update_progress_all, uvm_channel_update_progress_with_max.
  pose proof (update_completed_counts c m) as H1. destruct (uvm_channel_update_completed_value c m) as [v m1]. cbn [snd] in H1.
  pose proof (progress_loop_counts (Z.to_nat (num_gpfifo_entries (channel_at m c))) c v UVM_CHANNEL_UPDATE_MODE_COMPLETED m1) as H2.
  set (m2 := progress_loop _ c v _ m1) in *. assert (keeps_counts m m2) as H3 by (by apply (keeps_counts_trans _ m1)).
  destruct (_ =? 0); cbn [snd]; unfold uvm_global_set_fatal_error; by destruct (is_ok _).
Qed.

Definition channels_count (w : channel_world_t) : Prop := forall c, exists r, counts (tracking_sem (channel_at w.1 c)) r.

Definition channel_done (w : channel_world_t) (c : nat) (v : Z) : Prop := exists r, counts (tracking_sem (channel_at w.1 c)) r /\ v <= r.

Lemma counts_evolve m m' l l' : keeps_counts m m' -> channels_count (m, l) ->
  channels_count (m', l') /\ forall c v, channel_done (m', l') c v <-> channel_done (m, l) c v.
Proof.
  intros Hk Hw. split; [intros c; destruct (Hw c) as [r Hr]; exists r; by apply Hk|]. intros c v. split; intros (r & Hr & Hv).
  - destruct (Hw c) as [r0 Hr0]. exists r0. split; [done|]. by rewrite (counts_unique _ r0 r (Hk c r0 Hr0) Hr).
  - exists r. split; [by apply Hk|done].
Qed.

#[export] Program Instance channel_world_laws : TrackerWorldLaws channel_world_t := { tw_ok := channels_count; tw_done := channel_done }.
Next Obligation. intros w c v v' (r & Hr & Hv) Hle. exists r. split; [done|lia]. Qed.
Next Obligation.
  intros [m l] c v Hw. destruct (Hw c) as [r Hr]. destruct (is_value_completed_counts _ r v Hr) as (H1 & _). cbn in *. unfold uvm_channel_is_value_completed.
  destruct (uvm_gpu_tracking_semaphore_is_value_completed v (tracking_sem (channel_at m c))) as [b t]. cbn [fst] in *. subst b. rewrite Z.leb_le. split.
  - intros Hv. by exists r.
  - intros (r' & Hr' & Hv). by rewrite (counts_unique _ r r' Hr Hr').
Qed.
Next Obligation.
  intros [m l] c v Hw. cbn. pose proof (value_completed_counts c v m) as Hk. destruct (uvm_channel_is_value_completed c v m) as [b m']. by apply counts_evolve.
Qed.
Next Obligation.
  intros [m l] c Hw. cbn. pose proof (check_errors_counts c m) as Hk. destruct (uvm_channel_check_errors c m) as [st m'].
  destruct (counts_evolve m m' l l Hk Hw) as [H1 H2]. split; [done|]. intros c' v'. by rewrite H2.
Qed.
Next Obligation.
  intros [m [|b l]] Hw; cbn; [done|]. destruct (counts_evolve m m (b :: l) l (keeps_counts_refl m) Hw) as [H1 H2]. split; [done|]. intros c' v'. by rewrite H2.
Qed.

End ChannelWorld.

(** ** Runs *)

(** The GPU releases the next value on a channel. *)
Definition gpu_next (c : nat) (w : channel_world_t) : channel_world_t :=
  let '(r, m) := uvm_channel_update_completed_value c w.1 in
  if r <? 2 ^ 63 then (gpu_completes c (r + 1) m, w.2) else w.

Lemma gpu_next_evolves c w : channels_count w -> evolves w (gpu_next c w).
Proof.
  intros Hw. destruct w as [m l]. unfold gpu_next, uvm_channel_update_completed_value, uvm_gpu_tracking_semaphore_update_completed_value. cbn [fst snd].
  destruct (Hw c) as [r Hr]. cbn [fst] in Hr. rewrite (update_counts _ r Hr). destruct (Z.ltb_spec r (2 ^ 63)) as [Hlt|]; [|by apply evolves_refl].
  set (m1 := on_channel c _ m). set (m2 := gpu_completes c (r + 1) m1).
  assert (forall c' r', counts (tracking_sem (channel_at m c')) r' -> exists r'', r' <= r'' /\ counts (tracking_sem (channel_at m2 c')) r'') as Hstep.
  { intros c' r' Hc'. destruct (decide (c' = c)) as [->|Hne]; [|exists r'; split; [lia|]; unfold m2, m1, gpu_completes; by rewrite !channel_at_ne].
    destruct (decide (c < length (channels m))%nat) as [Hl|Hl].
    - exists (r + 1). rewrite (counts_unique _ r' r Hc' Hr). split; [lia|]. unfold m2, gpu_completes. rewrite channel_at_on_channel by (unfold m1; by rewrite on_channel_length).
      unfold m1. rewrite channel_at_on_channel by done. apply (release_counts _ r); [by apply counts_updated|cbn; lia|lia].
    - exists r'. split; [lia|]. unfold m2, gpu_completes. rewrite channel_at_out by (unfold m1; rewrite on_channel_length; lia). unfold m1. by rewrite channel_at_out by lia. }
  split.
  - intros c'. destruct (Hw c') as [r' Hr']. destruct (Hstep c' r' Hr') as (r'' & _ & H2). by exists r''.
  - intros c' v (r' & Hr' & Hv). destruct (Hstep c' r' Hr') as (r'' & H1 & H2). exists r''. split; [done|lia].
Qed.

(** Three channels with nothing released, and allocations that fail. *)
Definition idle_channels (l : list bool) : channel_world_t := (mk_manager (replicate 3 (channel_create 4)) uvm_pushbuffer_create [] false NV_OK, l).

Lemma idle_channels_ok l : channels_count (idle_channels l).
Proof.
  intros c. exists 0. assert (exists num, channel_at (idle_channels l).1 c = channel_create num) as [num ->]; [|by vm_compute].
  unfold channel_at, idle_channels. cbn [fst channels]. destruct (decide (c < 3)%nat) as [Hc|Hc]; [exists 4; by rewrite lookup_replicate_2|].
  exists 0. rewrite lookup_ge_None_2; [done|]. rewrite length_replicate. lia.
Qed.

Definition run_rounds : list (channel_world_t -> channel_world_t) := [gpu_next 0; gpu_next 1; gpu_next 1].

Lemma run_rounds_evolve : rounds_evolve run_rounds.
Proof. unfold rounds_evolve, run_rounds. rewrite !Forall_cons. split_and!; try (intros w; apply gpu_next_evolves). constructor. Qed.

Definition run_src : uvm_tracker_t := mk_tracker [mk_entry (Some 0%nat) 1; mk_entry (Some 1%nat) 2] 8.
Definition run_dst : uvm_tracker_t := mk_tracker [mk_entry (Some 2%nat) 1] 1.

Lemma run_src_ok : tracker_ok run_src.
Proof. split; [by vm_compute|by vm_compute|]. apply (bool_decide_unpack _). by vm_compute. Qed.

Lemma run_dst_ok : tracker_ok run_dst.
Proof. split; [by vm_compute|by vm_compute|]. apply (bool_decide_unpack _). by vm_compute. Qed.

(** Nothing can be allocated: the pushes of the source are waited for. *)
Lemma add_tracker_safe_keeps_all_witness : exists src' dst' w',
  uvm_tracker_add_tracker_safe run_rounds run_src run_dst (idle_channels [false; false]) = Some (NV_OK, ((src', dst'), w')) /\ covers dst' w' 1 2 /\ covers dst' w' 2 1.
Proof.
  eexists _, _, _. split; [vm_compute; reflexivity|]. match goal with |- covers ?d ?w _ _ /\ _ =>
    destruct (add_tracker_safe_keeps_all run_rounds run_src run_dst (idle_channels [false; false]) NV_OK (mk_tracker [] 8) d w
      run_rounds_evolve (idle_channels_ok _) run_src_ok run_dst_ok) as (_ & H1 & H2) end.
  - vm_compute. discriminate.
  - vm_compute. reflexivity.
  - split; [apply H2; [reflexivity|]; right; exists 2; split; [|lia]|apply H1; right; exists 1; split; [|lia]]; vm_compute; repeat constructor.
Defined.

Lemma tracker_wait_correct_witness : exists t' w', uvm_tracker_wait run_rounds run_src (idle_channels []) = Some (NV_OK, (t', w')) /\ tw_done w' 1 2.
Proof.
  destruct (tracker_wait_correct run_rounds run_src (idle_channels []) run_rounds_evolve (idle_channels_ok _) run_src_ok) as [H1 H2].
  assert (exists t' w', uvm_tracker_wait run_rounds run_src (idle_channels []) = Some (NV_OK, (t', w'))) as (t' & w' & E).
  { eapply H1; [vm_compute; reflexivity|]. repeat constructor. eexists 2. vm_compute. repeat split; discriminate. }
  exists t', w'. split; [done|]. apply (H2 _ _ _ E); [reflexivity|]. right. exists 2. split; [|lia]. vm_compute. repeat constructor.
Defined.

Lemma acquires_other_channel : (uvm_push_acquire_tracker 0 (Some run_src) (idle_channels [])).1 = [(1%nat, 2)].
Proof. vm_compute. reflexivity. Qed.

Lemma push_acquire_orders_witness : let '(acquires, (_, w')) := uvm_push_acquire_tracker 0 (Some run_src) (idle_channels []) in
  acquires = [(1%nat, 2)] /\ (exists v, mk_entry (Some 1%nat) v ∈ entries run_src /\ ~ tw_done w' 1 v /\ 2 = u32 v) /\
  (tw_done w' 1 2 \/ 1%nat = 0%nat \/ exists v', mk_entry (Some 1%nat) v' ∈ entries run_src /\ 2 <= v' /\ (1%nat, u32 v') ∈ acquires).
Proof.
  pose proof (push_acquire_orders 0 run_src (idle_channels []) (idle_channels_ok _) run_src_ok) as Hor. pose proof acquires_other_channel as Ha.
  destruct (uvm_push_acquire_tracker 0 (Some run_src) (idle_channels [])) as [acquires [t' w']]. cbn [fst] in Ha. destruct Hor as (_ & H1 & H2).
  split; [exact Ha|]. split; [apply (H1 1%nat 2); rewrite Ha; repeat constructor|]. apply H2. right. exists 2. split; [vm_compute; repeat constructor|lia].
Defined.
